(* ===== verification/_CoqProject ===== *)
-Q . S2P
Prelude.v
Memory.v
GoNet.v
Cidr.v
GoNetText.v
Json.v
JsonText.v
FileSystem.v
ApiTypes.v
ApiCopy.v
Exclusions.v
Validate.v
CtrlAllocator.v
CtrlIPPool.v
CtrlCIDRPool.v
CIDRStable.v
NodeTypes.v
Store.v
StoreMemory.v
SessionRuns.v
RangeSet.v
NodeAllocator.v
PoolManager.v
NodeControllers.v
Handlers.v
RoutesSpec.v
Cni.v
HandlersSpec.v
CniSpec.v
Options.v
CopyFile.v
Deploy.v
Process.v
Cleaner.v
CleanerSpec.v
System.v
SystemCIDR.v
Controller.v
Daemon.v
Startup.v
Commands.v
Middleware.v
