(* ===== verification/Prelude.v ===== *)
(** * nvidia-k8s-ipam: a verification development

    nvidia-k8s-ipam gives addresses to the secondary interfaces of pods.  A
    cluster-wide controller splits every pool (custom resources [IPPool] and
    [CIDRPool]) into parts and records in the status of the pool which node owns
    which part.  On each node a daemon reads the part of its node, and hands out
    the addresses of it, one by one, to the CNI plugin, keeping the reservations
    in a file.  This library models the Go code of these programs and proves what
    makes them correct.  The names of the definitions are those of the source.

    ** The parts and their files

    Shared ground.
    - [Prelude]: notations, tactics, hint databases, lemmas on lists and on bytes
      in positional notation, the [result] monad.
    - [Memory]: Go's slices, maps and pointers as locations in a memory that may be
      shared, programs on it, what they stand for, and deep copies.
    - [GoNet], [GoNetText]: what the program uses of Go's packages [net] and
      [netip]: addresses and masks as byte slices, their text forms.  [addr_of]
      maps a slice to its family and number; most theorems speak of numbers.
    - [Cidr]: [pkg/ip/cidr.go].
    - [Json], [JsonText]: [encoding/json], reading and writing.
    - [FileSystem]: paths ([path/filepath]) and the calls of [os] that the program
      uses, on a map from paths to files; every call can fail, and the states a
      program goes through are kept.
    - [ApiTypes], [Exclusions]: the resources and the helpers of [api/v1alpha1]
      ([helpers.go]); [Validate]: the validation functions and webhooks.
      [ApiCopy]: the generated deep copies of the resources, on [Memory].

    The controller ([pkg/ipam-controller]).
    - [CtrlAllocator]: [allocator/allocator.go], the blocks of an IPPool.
    - [CtrlIPPool]: the reconcilers of [ippool.go] and [node.go].
    - [CtrlCIDRPool]: the reconciler of [cidrpool.go]; [CIDRStable]: a second
      reconciliation of it changes nothing.
    - [Controller]: the three controllers with their work queues, as a state machine
      in which nodes and pools change; the two kinds of pools are instances of the
      class [PoolKind] with its laws [PoolKindLaws].

    The node daemon ([pkg/ipam-node], [pkg/pool], [pkg/common]).
    - [NodeTypes], [Store]: [types/], [store/store.go]; reservations, checksum,
      sessions.  The store is also a state machine ([Store.step]) whose steps are
      opening, operations, commit, cancel and a restart of the process.
    - [StoreMemory]: the same functions on [Memory]: the data of the store and of a
      session are structures that share maps and slices, or do not.
    - [SessionRuns]: sequences of operations of one session, and what a commit or
      a cancel leaves of them.
    - [RangeSet], [NodeAllocator]: [allocator/]; the allocator is proved against
      the class [SessionLaws] of which the session of [Store] is an instance.
    - [PoolManager], [NodeControllers]: [pkg/pool/manager.go], the keys of pools,
      and the controllers that write the configuration of the node; the text of a
      configuration ([Pool.String]).
    - [Handlers], [HandlersSpec], [RoutesSpec]: [handlers/], the gRPC handlers, and
      their theorems.
    - [Cleaner], [CleanerSpec]: [cleaner/cleaner.go] and its theorems.

    The CNI plugin ([pkg/cni]) is [Cni], with its theorems in [CniSpec].

    The parts together.
    - [System], [SystemCIDR]: the controller, the controllers of the nodes and the
      daemons, for both kinds of pools.
    - [Daemon]: [RunNodeDaemon] of [cmd/ipam-node/app/app.go]: handlers, cleaner and
      controllers of one node as a sequence of events, with restarts.
    - [Process]: the goroutines of [RunNodeDaemon] from the start of the server to
      the release of the store lock, as a state machine.

    The process of the daemon ([cmd/ipam-node/app], [pkg/cmdutils]).
    - [Options]: [options/options.go], defaults and validation.
    - [CopyFile], [Deploy]: [CopyFileAtomic], and the functions of [app.go] that copy
      the plugin, write its configuration and bind the socket, together with
      [loadFromConfFile] of [pkg/cni/types/types.go], the other end.
    - [Startup]: [RunNodeDaemon] up to the start of the goroutines: deployment, set-up,
      lock, store and socket.
    - [Commands]: the flags of both programs ([pkg/cmdoptions] too), the command that runs
      the daemon, and the options, the command and [RunController] of the controller
      ([cmd/ipam-controller]).
    - [Middleware]: the interceptors of the server.

    ** How the code is modelled

    A Go function is a Rocq function of the same name on the same data: slices
    are lists, maps are [gmap]s, a [nil] slice is [[]], a [nil] pointer or the
    zero time [None], [math/big] integers and machine integers [Z] (with
    wrap-around written out where the code can reach it).  An error is a value:
    [result E A] for a function that returns a value or an error, [option error]
    for one that returns an error only.  An outer [option] is [None] for a panic
    or an operation that blocks.  State is passed explicitly; what the
    environment decides (the clock, a cancelled context, a failing file, the
    answers of the Kubernetes API) is an argument.  Code of other packages is a
    class or a section variable: the JSON codec of the store ([RootCodec], with
    its documented behaviour in [RootCodecLaws], and [bits_codec] as an
    instance), the name checks of Kubernetes ([K8sNames]), the node selector
    ([NodeMatcher]), the decoder of the runtime's configuration and the gRPC client
    of the plugin, [renameio.WriteFile] ([ConfWriter] with [ConfWriterLaws]),
    [url.Parse] (a parameter of [Options], with [parses_unix] as what is assumed), the
    lock of the store file ([StoreLock] with [StoreLockLaws]), the deep copies of
    Kubernetes' own structures ([library_laws]), the readers of flags ([readers]), the
    flags and the settings of the Kubernetes libraries ([FlagLibrary]).

    Values are passed as if assignments copied them.  That is justified where it matters
    most, for the data of the store: [StoreMemory] has the functions of the store on
    memory and proves that they refine the ones on values.

    Loops over finite data are structural.  The three searches (the blocks of an
    IPPool, the prefixes of a CIDRPool, the walk over the ranges of the node) run
    with binary fuel that exceeds the number of IPv6 addresses; the theorems show
    that they return, so the fuel is never used up.  The JSON parser has twice the
    length of the text plus two as fuel, which suffices ([json_parse_fuel]);
    [os.CreateTemp] tries 10000 names, as the library does; 20 digits are enough to
    print a 64-bit integer.

    ** What is proved

    - The cluster: [cluster_addresses_distinct] and
      [cluster_prefix_addresses_distinct] compose the parts: what the daemons of
      different nodes grant in an IPPool or a CIDRPool is never the same address (for
      CIDRPools: with prefixes in canonical form, [canonical_pool]).
      [ippool_controller_converges] and [cidrpool_controller_converges]: once nodes
      and pools are left alone, the controllers come to rest after a bounded number
      of steps, and every status is then right for the nodes there are.
      [daemon_address_exclusive] is its counterpart over time on one node: an
      address in use is not granted again, through any sequence of requests,
      cleaner passes, pool changes, file errors and restarts.
    - The controller: blocks and prefixes of different nodes are disjoint, blocks
      are found first-fit and every matching node is served while there is room,
      a reconciliation is idempotent, validation accepts exactly the pools of a
      declarative specification.
    - The store: no address is reserved twice in any reachable state, a commit is
      what a later process reads back, a released address stays blocked for the
      cooldown, every reservation is under its own key.  [session_memory_refines]: the
      session works on memory of its own until it commits.
    - The daemon: the allocator returns the first free address in round-robin
      order or the exact error; handlers are atomic; what a successful request is
      granted and what each error code means; allocation, query and release fit
      together; the cleaner keeps the reservations of live pods, releases the ones
      of pods that stay away, and does nothing else.  The snapshot of the
      configuration stored with an allocation is complete.
    - The process: the plugin is replaced atomically whatever fails, its
      configuration arrives at the plugin unchanged, the socket is bound also after
      a crash; the options are those of the command line and valid; a daemon that is
      started while another one runs fails without harm; after a signal or a failure
      the daemon stops in order and never hangs.
    - The plugin: its requests are valid for the daemon and it reads the daemon's
      responses back to the same addresses and routes; where its settings come
      from; when it returns.
    - The resources: their generated copies share nothing with the originals.
    - The arithmetic: successor, distance, last address, iteration over subnets,
      the algebra of exclusions, ranges.

    Behaviour of the code that departs from its purpose is stated as an [Example]
    next to the theorem it limits (for instance
    [CtrlCIDRPool.static_prefix_duplicated], [NodeControllers.covering_exclusion_dropped],
    [RoutesSpec.mixed_family_order_cyclic], [CniSpec.load_conf_args_without_cni],
    [CopyFile.failed_copy_leaves_file], [Deploy.quote_breaks_config],
    [Deploy.single_slash_not_cleaned], [CleanerSpec.keys_collide]).

    ** Not modelled

    The insides of the frameworks: the manager and its caches, [pflag] and [cobra], the
    libraries of logging and feature gates appear as parameters, by the errors they return;
    lines of the log other than those of [Middleware], [pkg/version] and the main
    functions are left out.  Generated protobuf code except for the data types.
    Which objects the controllers watch ([SetupWithManager]): [Controller] states it
    as the steps that add a request.  Concurrent handlers are not interleaved inside
    a session: the lock of the store, which the state machine has, makes sessions
    exclusive.  A caller of the store that writes to an address it has passed on is not
    modelled; the code has none.  Reconciliations are single steps on the objects as they are: stale
    caches and conflicting updates are failures, after which a request is served
    again.  The file system has no symbolic links, no permissions and no other
    processes.  The order in which Go lists a map is fixed to one order; the theorems
    on the cleaner do not depend on it. *)

From Stdlib Require Export ZArith Lia.
From Stdlib Require Import Strings.Byte.
From stdpp Require Export base tactics list gmap strings fin_maps sorting.

#[global] Open Scope Z_scope.

(** ** Hint databases and tactics of the development *)

Create HintDb ipam discriminated.
Create HintDb ipam_rw discriminated.

(** Turn the boolean comparisons of the code into propositions. *)
Ltac boolify :=
  repeat match goal with
  | H : andb _ _ = true |- _ => apply andb_true_iff in H; destruct H
  | H : orb _ _ = false |- _ => apply orb_false_iff in H; destruct H
  | H : negb _ = true |- _ => apply negb_true_iff in H
  | H : negb _ = false |- _ => apply negb_false_iff in H
  | H : Z.eqb _ _ = true |- _ => apply Z.eqb_eq in H
  | H : Z.eqb _ _ = false |- _ => apply Z.eqb_neq in H
  | H : Z.ltb _ _ = true |- _ => apply Z.ltb_lt in H
  | H : Z.ltb _ _ = false |- _ => apply Z.ltb_ge in H
  | H : Z.leb _ _ = true |- _ => apply Z.leb_le in H
  | H : Z.leb _ _ = false |- _ => apply Z.leb_gt in H
  | H : Nat.eqb _ _ = true |- _ => apply Nat.eqb_eq in H
  | H : Nat.eqb _ _ = false |- _ => apply Nat.eqb_neq in H
  | H : bool_decide _ = true |- _ => apply bool_decide_eq_true_1 in H
  | H : bool_decide _ = false |- _ => apply bool_decide_eq_false_1 in H
  end.

(** Case analysis on the innermost scrutinee of a [match] or [if]. *)
Ltac case_scrut :=
  match goal with
  | |- context [match ?x with _ => _ end] =>
      lazymatch x with context [match _ with _ => _ end] => fail | _ => idtac end;
      let E := fresh "E" in destruct x eqn:E
  end.

Ltac case_scrut_in H :=
  match type of H with
  | context [match ?x with _ => _ end] =>
      lazymatch x with context [match _ with _ => _ end] => fail | _ => idtac end;
      let E := fresh "E" in destruct x eqn:E
  end.

(** ** Results of fallible code *)

(** [(T, error)] results: exactly one of the two is meaningful. *)
Inductive result (E A : Type) : Type :=
| Ok (a : A)
| Err (e : E).
Arguments Ok {E A} a.
Arguments Err {E A} e.

Declare Scope ipam_scope.
Delimit Scope ipam_scope with ipam.

Definition rbind {E A B} (m : result E A) (k : A → result E B) : result E B :=
  match m with Ok a => k a | Err e => Err e end.

Notation "'let!' x := m 'in' k" := (rbind m (λ x, k))
  (at level 10, x pattern, m at level 100, k at level 200) : ipam_scope.

Definition is_ok {E A} (r : result E A) : bool :=
  match r with Ok _ => true | Err _ => false end.

(** ** Loops with binary fuel

    [loop step p s] runs [step] at most [p] times, stopping at the first
    [inr].  The fuel is a binary number, so a bound as large as the size of an
    IPv6 network costs nothing to write down or to evaluate. *)
Section loop.
Context {S R : Type} (step : S → S + R).

Fixpoint loop (p : positive) (s : S) : S + R :=
  match p with
  | xH => step s
  | xO q => match loop q s with inl s' => loop q s' | inr r => inr r end
  | xI q =>
      match step s with
      | inr r => inr r
      | inl s1 => match loop q s1 with inl s' => loop q s' | inr r => inr r end
      end
  end.

(** The loop exits from [s] with [r]. *)
Inductive exits : S → R → Prop :=
| exits_now s r : step s = inr r → exits s r
| exits_later s s' r : step s = inl s' → exits s' r → exits s r.

Inductive runs : S → S → Prop :=
| runs_refl s : runs s s
| runs_step s s' s'' : step s = inl s' → runs s' s'' → runs s s''.

Lemma runs_trans s s' s'' : runs s s' → runs s' s'' → runs s s''.
Proof. induction 1; eauto using runs. Qed.

Lemma runs_exits s s' r : runs s s' → exits s' r → exits s r.
Proof. induction 1; eauto using exits. Qed.

Lemma loop_spec p s :
  match loop p s with inl s' => runs s s' | inr r => exits s r end.
Proof.
  revert s; induction p as [q IH|q IH|]; intros s; simpl.
  - destruct (step s) as [s1|r] eqn:E1; [|by apply exits_now].
    generalize (IH s1). destruct (loop q s1) as [s2|r] eqn:E2; intros H1.
    + generalize (IH s2). destruct (loop q s2) as [s3|r]; intros H2.
      * eapply runs_step; [done|]. by eapply runs_trans.
      * eapply exits_later; [done|]. by eapply runs_exits.
    + by eapply exits_later.
  - generalize (IH s). destruct (loop q s) as [s2|r] eqn:E2; intros H1; [|done].
    generalize (IH s2). destruct (loop q s2) as [s3|r]; intros H2.
    + by eapply runs_trans.
    + by eapply runs_exits.
  - destruct (step s) eqn:E1; [|by apply exits_now].
    eapply runs_step; [done|constructor].
Qed.

Lemma loop_exits p s r : loop p s = inr r → exits s r.
Proof. intros H. generalize (loop_spec p s). by rewrite H. Qed.

(** Rule induction on an exit, with an invariant of the loop state. *)
Lemma exits_inv (I : S → Prop) (Q : R → Prop) s r :
  (∀ s s', I s → step s = inl s' → I s') →
  (∀ s r, I s → step s = inr r → Q r) →
  I s → exits s r → Q r.
Proof. intros Hs Hr HI H. induction H; eauto. Qed.

(** Termination: a bounded measure that every continuing step decreases. *)
Section measure.
Context (I : S → Prop) (m : S → Z).
Hypothesis m_step : ∀ s s', I s → step s = inl s' → I s' ∧ 0 ≤ m s' < m s.

Lemma loop_measure p s s' :
  I s → loop p s = inl s' → I s' ∧ 0 ≤ m s' ∧ m s' ≤ m s - Zpos p.
Proof using m_step.
  revert s s'; induction p as [q IH|q IH|]; intros s s' HI; simpl.
  - destruct (step s) as [s1|r] eqn:E1; [|done].
    destruct (loop q s1) as [s2|r] eqn:E2; [|done]. intros E3.
    destruct (m_step _ _ HI E1) as [HI1 ?].
    destruct (IH _ _ HI1 E2) as (HI2 & ? & ?).
    destruct (IH _ _ HI2 E3) as (HI3 & ? & ?). split; [done|lia].
  - destruct (loop q s) as [s2|r] eqn:E2; [|done]. intros E3.
    destruct (IH _ _ HI E2) as (HI2 & ? & ?).
    destruct (IH _ _ HI2 E3) as (HI3 & ? & ?). split; [done|lia].
  - intros E1. destruct (m_step _ _ HI E1). split; [done|lia].
Qed.

Lemma loop_total p s : I s → m s < Zpos p → ∃ r, loop p s = inr r.
Proof using m_step.
  intros HI Hm. destruct (loop p s) as [s'|r] eqn:E; [|eauto].
  destruct (loop_measure _ _ _ HI E) as (_ & ? & ?). lia.
Qed.
End measure.

(** The same with a measure that is a relation. *)
Section measure_rel.
Context (I : S → Z → Prop).
Hypothesis m_step : ∀ s n s', I s n → step s = inl s' → ∃ n', I s' n' ∧ 0 ≤ n' < n.

Lemma loop_measure_rel p s n s' :
  I s n → loop p s = inl s' → ∃ n', I s' n' ∧ 0 ≤ n' ∧ n' ≤ n - Zpos p.
Proof using m_step.
  revert s n s'; induction p as [q IH|q IH|]; intros s n s' HI; simpl.
  - destruct (step s) as [s1|r] eqn:E1; [|done].
    destruct (loop q s1) as [s2|r] eqn:E2; [|done]. intros E3.
    destruct (m_step _ _ _ HI E1) as (n1 & HI1 & ?).
    destruct (IH _ _ _ HI1 E2) as (n2 & HI2 & ? & ?).
    destruct (IH _ _ _ HI2 E3) as (n3 & HI3 & ? & ?). exists n3. split; [done|lia].
  - destruct (loop q s) as [s2|r] eqn:E2; [|done]. intros E3.
    destruct (IH _ _ _ HI E2) as (n2 & HI2 & ? & ?).
    destruct (IH _ _ _ HI2 E3) as (n3 & HI3 & ? & ?). exists n3. split; [done|lia].
  - intros E1. destruct (m_step _ _ _ HI E1) as (n' & ? & ?). exists n'. split; [done|lia].
Qed.

Lemma loop_total_rel p s n : I s n → n < Zpos p → ∃ r, loop p s = inr r.
Proof using m_step.
  intros HI Hm. destruct (loop p s) as [s'|r] eqn:E; [|eauto].
  destruct (loop_measure_rel _ _ _ _ HI E) as (n' & _ & ? & ?). lia.
Qed.
End measure_rel.
End loop.

(** ** Sorting

    [sort.Slice] with a [less] function, as an insertion sort. *)
Section sort_by.
Context {A : Type} (less : A → A → bool).

Fixpoint insert_by (x : A) (l : list A) : list A :=
  match l with
  | [] => [x]
  | y :: l' => if less x y then x :: l else y :: insert_by x l'
  end.

Definition sort_by (l : list A) : list A := foldr insert_by [] l.

Lemma insert_by_perm x l : insert_by x l ≡ₚ x :: l.
Proof.
  induction l as [|y l IH]; simpl; [done|]. destruct (less x y); [done|].
  by rewrite IH, Permutation_swap.
Qed.

Lemma sort_by_perm l : sort_by l ≡ₚ l.
Proof. induction l as [|x l IH]; simpl; [done|]. by rewrite insert_by_perm, IH. Qed.

(** Sorted for every order that [less] decides. *)
Lemma sort_by_sorted (R : relation A) l :
  Transitive R → (∀ x y, less x y = true → R x y) → (∀ x y, less x y = false → R y x) →
  StronglySorted R (sort_by l).
Proof.
  intros HR Ht Hf. induction l as [|x l IH]; simpl; [constructor|].
  induction IH as [|y k Hk IHk Hy]; simpl; [by repeat constructor|].
  destruct (less x y) eqn:E.
  - constructor; [by constructor|]. constructor; [by apply Ht|].
    eapply Forall_impl; [done|]. intros z. apply HR, Ht. done.
  - constructor; [done|]. rewrite insert_by_perm. constructor; [by apply Hf|done].
Qed.
End sort_by.

Lemma insert_by_map {A B} (g : A → B) less less' x l :
  Forall (λ y, less x y = less' (g x) (g y)) l →
  g <$> insert_by less x l = insert_by less' (g x) (g <$> l).
Proof.
  induction 1 as [|y l E _ IH]; [done|]. csimpl. rewrite <- E. by destruct (less x y); csimpl; rewrite ?IH.
Qed.

Lemma sort_by_map {A B} (g : A → B) less less' (l : list A) :
  (∀ x y, x ∈ l → y ∈ l → less x y = less' (g x) (g y)) →
  g <$> sort_by less l = sort_by less' (g <$> l).
Proof.
  induction l as [|x l IH]; intros H; [done|]. csimpl.
  rewrite (insert_by_map g less less').
  - f_equal. apply IH. intros; apply H; by apply list_elem_of_further.
  - apply Forall_forall. intros y Hy. apply H; [apply list_elem_of_here|].
    apply list_elem_of_further. by rewrite sort_by_perm in Hy.
Qed.

(** ** Lists *)

Lemma Forall2_elem_l {A B} (P : A → B → Prop) l k x :
  Forall2 P l k → x ∈ l → ∃ y, y ∈ k ∧ P x y.
Proof. induction 1; set_solver. Qed.

Lemma Forall2_elem_r {A B} (P : A → B → Prop) l k y :
  Forall2 P l k → y ∈ k → ∃ x, x ∈ l ∧ P x y.
Proof. induction 1; set_solver. Qed.

Lemma StronglySorted_lookup {A} (R : relation A) l i j x y :
  StronglySorted R l → (i < j)%nat → l !! i = Some x → l !! j = Some y → R x y.
Proof.
  intros Hs. revert i j. induction Hs as [|z l _ IH Hz]; intros i j Hij Hi Hj; [done|].
  destruct j as [|j]; [lia|]. simpl in Hj. destruct i as [|i]; simpl in Hi.
  - simplify_eq. rewrite Forall_forall in Hz. apply Hz. by eapply list_elem_of_lookup_2.
  - eapply IH; [|done..]. lia.
Qed.

(** ** Bytes *)

Definition byte_val (b : byte) : Z := Z.of_N (Byte.to_N b).

Definition byte_of (z : Z) : byte :=
  match Byte.of_N (Z.to_N (z mod 256)) with Some b => b | None => x00 end.

#[global] Instance byte_eq_dec : EqDecision byte := Byte.byte_eq_dec.

Lemma byte_val_range b : 0 ≤ byte_val b < 256.
Proof.
  unfold byte_val. pose proof (Byte.to_N_bounded b). lia.
Qed.

Lemma byte_val_of z : byte_val (byte_of z) = z mod 256.
Proof.
  unfold byte_val, byte_of.
  pose proof (Z.mod_pos_bound z 256 ltac:(lia)).
  destruct (Byte.of_N _) eqn:E.
  - apply Byte.to_of_N in E. rewrite E. lia.
  - apply Byte.of_N_None_iff in E. lia.
Qed.

Lemma byte_val_inj a b : byte_val a = byte_val b → a = b.
Proof.
  unfold byte_val. intros H%N2Z.inj.
  pose proof (Byte.of_to_N a) as Ha. pose proof (Byte.of_to_N b) as Hb.
  rewrite H in Ha. congruence.
Qed.

Lemma byte_of_val b : byte_of (byte_val b) = b.
Proof.
  apply byte_val_inj. rewrite byte_val_of.
  apply Z.mod_small, byte_val_range.
Qed.

(** Bitwise operations on bytes. *)
Definition byte_and (a b : byte) : byte := byte_of (Z.land (byte_val a) (byte_val b)).
Definition byte_or (a b : byte) : byte := byte_of (Z.lor (byte_val a) (byte_val b)).
Definition byte_not (a : byte) : byte := byte_of (255 - byte_val a).

Lemma byte_and_val a b : byte_val (byte_and a b) = Z.land (byte_val a) (byte_val b).
Proof.
  unfold byte_and. rewrite byte_val_of. apply Z.mod_small.
  pose proof (byte_val_range a) as Ha. unfold byte_val in *.
  rewrite <- N2Z.inj_land. pose proof (N.land_le_l (Byte.to_N a) (Byte.to_N b)). lia.
Qed.

Lemma byte_not_val a : byte_val (byte_not a) = 255 - byte_val a.
Proof.
  unfold byte_not. rewrite byte_val_of. apply Z.mod_small.
  pose proof (byte_val_range a). lia.
Qed.

(** ** Big-endian byte strings *)

Fixpoint be_val (l : list byte) : Z :=
  match l with
  | [] => 0
  | b :: l => byte_val b * 256 ^ Z.of_nat (length l) + be_val l
  end.

Fixpoint be_bytes (n : nat) (z : Z) : list byte :=
  match n with
  | O => []
  | S n => byte_of (z / 256 ^ Z.of_nat n) :: be_bytes n z
  end.

Lemma pow256_pos (n : nat) : 0 < 256 ^ Z.of_nat n.
Proof. apply Z.pow_pos_nonneg; lia. Qed.

Lemma pow256_S (n : nat) : 256 ^ Z.of_nat (S n) = 256 * 256 ^ Z.of_nat n.
Proof. rewrite Nat2Z.inj_succ, Z.pow_succ_r; lia. Qed.

Lemma length_be_bytes n z : length (be_bytes n z) = n.
Proof. induction n; simpl; congruence. Qed.

Lemma be_val_bound l : 0 ≤ be_val l < 256 ^ Z.of_nat (length l).
Proof.
  induction l as [|b l IH]; simpl length; simpl be_val; [done|].
  rewrite pow256_S. pose proof (byte_val_range b). nia.
Qed.

Lemma be_val_bytes n z : be_val (be_bytes n z) = z mod 256 ^ Z.of_nat n.
Proof.
  induction n as [|n IH]; simpl be_bytes; simpl be_val.
  - by rewrite Z.mod_1_r.
  - rewrite length_be_bytes, byte_val_of, IH, pow256_S.
    pose proof (pow256_pos n).
    rewrite (Z.mul_comm 256), Z.rem_mul_r by lia. lia.
Qed.

Lemma be_val_inj l k : length l = length k → be_val l = be_val k → l = k.
Proof.
  revert k; induction l as [|b l IH]; intros [|c k]; simpl; try done.
  intros [= Hl] Hv. rewrite Hl in Hv.
  pose proof (be_val_bound l) as Bl. pose proof (be_val_bound k) as Bk.
  rewrite Hl in Bl.
  assert (byte_val b = byte_val c) as Hbc by nia.
  f_equal; [by apply byte_val_inj|apply IH; nia].
Qed.

Lemma be_bytes_val n l : length l = n → be_bytes n (be_val l) = l.
Proof.
  intros <-. apply be_val_inj; [apply length_be_bytes|].
  rewrite be_val_bytes. apply Z.mod_small, be_val_bound.
Qed.

Lemma be_val_app l k :
  be_val (l ++ k) = be_val l * 256 ^ Z.of_nat (length k) + be_val k.
Proof.
  induction l as [|b l IH]; simpl; [lia|].
  rewrite IH, length_app, Nat2Z.inj_add, Z.pow_add_r by lia. lia.
Qed.

Lemma be_val_bytes_small n z :
  0 ≤ z < 256 ^ Z.of_nat n → be_val (be_bytes n z) = z.
Proof. intros. rewrite be_val_bytes. by apply Z.mod_small. Qed.
