(* ===== verification/Memory.v ===== *)
(** * Memory: slices, maps and pointers that are shared

    Most of the development passes values, as if assignments copied everything.  In
    Go a slice, a map and a pointer refer to memory, and two of them may refer to the
    same.  Here memory is a finite map from locations to cells, and a function that
    works on memory is a state transformer.  [None] is an access that Go does not
    have or that panics (a location without a cell of the right type, an assignment
    to a [nil] map).

    A predicate [R L h x v] says that [x] stands for the value [v] in the memory [h]
    and that all memory it refers to is in [L].  A [deep_copy] returns something that
    stands for the same value and refers to new memory only. *)

From S2P Require Import Prelude.

Abbreviation loc := positive (only parsing).
Abbreviation area := (positive → Prop) (only parsing).

(** The values of one type that cells hold. *)
Class Cell (C A : Type) := {
  to_cell : A → C;
  of_cell : C → option A;
  of_to_cell : ∀ a, of_cell (to_cell a) = Some a;
  to_of_cell : ∀ c a, of_cell c = Some a → c = to_cell a;
}.

Declare Scope mem_scope.
Delimit Scope mem_scope with mem.

Section memory.
Context {C : Type}.
Abbreviation heap := (gmap positive C).

(** ** Operations *)

Definition mem (A : Type) : Type := heap → option (A * heap).

Definition mret {A} (a : A) : mem A := λ h, Some (a, h).
Definition mfail {A} : mem A := λ _, None.
Definition mbind_mem {A B} (m : mem A) (k : A → mem B) : mem B := λ h, '(a, h) ← m h; k a h.

Definition load `{Cell C A} (l : loc) : mem A := λ h, a ← (h !! l ≫= of_cell); Some (a, h).
Definition alloc `{Cell C A} (a : A) : mem loc := λ h, let l := fresh (dom h) in Some (l, <[l := to_cell a]> h).
(** The cell has a value of the same type before. *)
Definition store_at `{Cell C A} (l : loc) (a : A) : mem unit := λ h,
  _ ← (h !! l ≫= of_cell (A := A)); Some (tt, <[l := to_cell a]> h).

Fixpoint mem_map {A B} (f : A → mem B) (l : list A) : mem (list B) :=
  match l with
  | [] => mret []
  | x :: l => mbind_mem (f x) (λ y, mbind_mem (mem_map f l) (λ ys, mret (y :: ys)))
  end.

(** [make] and [copy] of a slice whose elements are flat. *)
Definition slice_copy `{Cell C (list A)} (s : option loc) : mem (option loc) :=
  match s with
  | None => mret None
  | Some l => mbind_mem (load l) (λ xs : list A, mbind_mem (alloc xs) (λ l', mret (Some l')))
  end.

(** The loop over a slice of structures. *)
Definition items_copy `{Cell C (list A)} (f : A → mem A) (s : option loc) : mem (option loc) :=
  match s with
  | None => mret None
  | Some l => mbind_mem (load l) (λ xs : list A, mbind_mem (mem_map f xs) (λ ys, mbind_mem (alloc ys) (λ l', mret (Some l'))))
  end.

(** [new], and a copy into it. *)
Definition ptr_copy `{Cell C A} (f : A → mem A) (p : option loc) : mem (option loc) :=
  match p with
  | None => mret None
  | Some l => mbind_mem (load l) (λ x : A, mbind_mem (f x) (λ y, mbind_mem (alloc y) (λ l', mret (Some l'))))
  end.

(** The loop over a map. *)
Definition map_copy `{Cell C (gmap string A)} (f : A → mem A) (p : option loc) : mem (option loc) :=
  match p with
  | None => mret None
  | Some l =>
      mbind_mem (load l) (λ m : gmap string A,
      mbind_mem (mem_map (λ kx, mbind_mem (f kx.2) (λ y, mret (kx.1, y))) (map_to_list m)) (λ ys,
      mbind_mem (alloc (list_to_map ys : gmap string A)) (λ l', mret (Some l'))))
  end.

(** ** Areas *)

Definition fresh_in (h h' : heap) : area := λ l, h !! l = None ∧ is_Some (h' !! l).
Definition disjoint_areas (L L' : area) : Prop := ∀ l, L l → L' l → False.

(** [h'] has what [h] has in [L]. *)
Definition keeps (L : area) (h h' : heap) : Prop := ∀ l c, L l → h !! l = Some c → h' !! l = Some c.

Lemma keeps_sub L h h' : h ⊆ h' → keeps L h h'.
Proof. intros Hs l c _ Hl. by eapply lookup_weaken. Qed.

Lemma keeps_refl L h : keeps L h h.
Proof. by intros l c _. Qed.

Lemma keeps_trans L h1 h2 h3 : keeps L h1 h2 → keeps L h2 h3 → keeps L h1 h3.
Proof. intros H1 H2 l c Hl Hc. apply H2; [done|]. by apply H1. Qed.

Lemma keeps_mono (L L' : area) h h' : (∀ l, L l → L' l) → keeps L' h h' → keeps L h h'.
Proof. intros HL Hk l c Hl. apply Hk. by apply HL. Qed.

Lemma keeps_write L h l c : ¬ L l → keeps L h (<[l := c]> h).
Proof. intros Hn l' c' Hl Hc. rewrite lookup_insert_ne; [done|]. by intros ->. Qed.

Lemma fresh_in_l h1 h2 h3 l : h2 ⊆ h3 → fresh_in h1 h2 l → fresh_in h1 h3 l.
Proof. intros Hs [H1 [c Hc]]. split; [done|]. exists c. by eapply lookup_weaken. Qed.

Lemma fresh_in_r h1 h2 h3 l : h1 ⊆ h2 → fresh_in h2 h3 l → fresh_in h1 h3 l.
Proof. intros Hs [H1 H2]. split; [by eapply lookup_weaken_None|done]. Qed.

Lemma fresh_in_disjoint h1 h2 h3 : disjoint_areas (fresh_in h1 h2) (fresh_in h2 h3).
Proof. intros l [_ [c Hc]] [Hn _]. congruence. Qed.

Lemma alloc_spec `{Cell C A} (a : A) h :
  ∃ l, alloc a h = Some (l, <[l := to_cell a]> h) ∧ h !! l = None ∧ h ⊆ <[l := to_cell a]> h.
Proof.
  exists (fresh (dom h)). pose proof (is_fresh (dom h)) as Hf. rewrite not_elem_of_dom in Hf.
  split; [done|]. split; [done|]. by apply insert_subseteq.
Qed.

Lemma mem_bind {A B} (m : mem A) (k : A → mem B) h a h' : m h = Some (a, h') → mbind_mem m k h = k a h'.
Proof. intros E. unfold mbind_mem. by rewrite E. Qed.

Lemma mem_load `{Cell C A} l (a : A) h : h !! l = Some (to_cell a) → load l h = Some (a, h).
Proof. intros E. unfold load. rewrite E. cbn [mbind option_bind]. by rewrite of_to_cell. Qed.

Lemma mem_store `{Cell C A} l (a b : A) h :
  h !! l = Some (to_cell a) → store_at l b h = Some (tt, <[l := to_cell b]> h).
Proof. intros E. unfold store_at. rewrite E. cbn [mbind option_bind]. by rewrite of_to_cell. Qed.

(** ** What memory stands for *)

Definition representation (A V : Type) : Type := area → heap → A → V → Prop.

(** It depends on the area only. *)
Class Local {A V} (R : representation A V) : Prop :=
  local : ∀ (L L' : area) h h' x v, (∀ l, L l → L' l) → keeps L h h' → R L h x v → R L' h' x v.

Class DeepCopy {A V} (f : A → mem A) (R : representation A V) : Prop :=
  deep_copy : ∀ L h x v, R L h x v → ∃ y h', f x h = Some (y, h') ∧ h ⊆ h' ∧ R (fresh_in h h') h' y v.

Lemma local_grow {A V} (R : representation A V) `{!Local R} L h h' x v : h ⊆ h' → R L h x v → R L h' x v.
Proof. intros Hs. apply local; [done|by apply keeps_sub]. Qed.

Definition rep_value {A} : representation A A := λ _ _ x v, x = v.

Definition rep_slice `{Cell C (list A)} : representation (option loc) (list A) := λ L h s v,
  match s with None => v = [] | Some l => L l ∧ h !! l = Some (to_cell v) end.

Definition rep_items `{Cell C (list A)} {V} (R : representation A V) : representation (option loc) (list V) := λ L h s v,
  match s with None => v = [] | Some l => L l ∧ ∃ xs, h !! l = Some (to_cell xs) ∧ Forall2 (R L h) xs v end.

Definition rep_ptr `{Cell C A} {V} (R : representation A V) : representation (option loc) (option V) := λ L h p v,
  match p, v with
  | None, None => True
  | Some l, Some v => L l ∧ ∃ x, h !! l = Some (to_cell x) ∧ R L h x v
  | _, _ => False
  end.

(** A slice where [nil] and an empty one are not the same. *)
Definition rep_nilable `{Cell C (list A)} : representation (option loc) (option (list A)) := λ L h s v,
  match s, v with
  | None, None => True
  | Some l, Some v => L l ∧ h !! l = Some (to_cell v)
  | _, _ => False
  end.

(** The values of a map may each have their area. *)
Definition rep_map_in `{Cell C (gmap string A)} {V} (R : representation A V) (B : area) (L : string → area)
    (h : heap) (p : option loc) (v : gmap string V) : Prop :=
  match p with
  | None => v = ∅
  | Some l => B l ∧ ∃ m, h !! l = Some (to_cell m) ∧ map_Forall2 (λ k, R (L k) h) m v
  end.

Definition rep_map `{Cell C (gmap string A)} {V} (R : representation A V) : representation (option loc) (gmap string V) :=
  λ L, rep_map_in R L (λ _, L).

Lemma Forall2_local {A V} (R : representation A V) `{!Local R} (L L' : area) h h' xs vs :
  (∀ l, L l → L' l) → keeps L h h' → Forall2 (R L h) xs vs → Forall2 (R L' h') xs vs.
Proof. intros HL Hk HF. eapply Forall2_impl; [exact HF|]. intros x v. by apply local. Qed.

Lemma rep_map_in_local `{Cell C (gmap string A)} {V} (R : representation A V) `{!Local R} (B B' : area) L L' h h' p v :
  (∀ l, B l → B' l) → keeps B h h' → (∀ k l, L k l → L' k l) → (∀ k, keeps (L k) h h') →
  rep_map_in R B L h p v → rep_map_in R B' L' h' p v.
Proof.
  intros HB HkB HL HkL. destruct p as [l|]; [|done]. intros (Hl & m & Hm & Hr). split; [by apply HB|]. exists m.
  split; [by apply HkB|]. eapply map_Forall2_impl; [exact Hr|]. intros k x w Hx.
  by eapply local; [apply HL|apply HkL|].
Qed.

#[global] Instance rep_value_local {A} : Local (@rep_value A).
Proof. by intros L L' h h' x v _ _. Qed.

#[global] Instance rep_slice_local `{Cell C (list A)} : Local (rep_slice (A := A)).
Proof. intros L L' h h' [l|] v HL Hk; [|done]. intros [Hl Hv]. split; [by apply HL|by apply Hk]. Qed.

#[global] Instance rep_nilable_local `{Cell C (list A)} : Local (rep_nilable (A := A)).
Proof. intros L L' h h' [l|] [v|] HL Hk; try done. intros [Hl Hv]. split; [by apply HL|by apply Hk]. Qed.

#[global] Instance rep_items_local `{Cell C (list A)} {V} (R : representation A V) `{!Local R} : Local (rep_items R).
Proof.
  intros L L' h h' [l|] v HL Hk; [|done]. intros (Hl & xs & Hx & HR). split; [by apply HL|]. exists xs.
  split; [by apply Hk|by eapply (Forall2_local R)].
Qed.

#[global] Instance rep_ptr_local `{Cell C A} {V} (R : representation A V) `{!Local R} : Local (rep_ptr R).
Proof.
  intros L L' h h' [l|] [v|] HL Hk; try done. intros (Hl & x & Hx & HR). split; [by apply HL|]. exists x.
  split; [by apply Hk|by eapply local].
Qed.

#[global] Instance rep_map_local `{Cell C (gmap string A)} {V} (R : representation A V) `{!Local R} : Local (rep_map R).
Proof. intros L L' h h' p v HL Hk. by apply rep_map_in_local. Qed.

(** ** Copies *)

(** Elements that each have an area of their own, all in [L]. *)
Inductive separate {A V} (R : representation A V) (h : heap) : area → list A → list V → Prop :=
| separate_nil L : separate R h L [] []
| separate_cons (L L1 L2 : area) x xs v vs :
    (∀ l, L1 l ∨ L2 l → L l) → disjoint_areas L1 L2 → R L1 h x v → separate R h L2 xs vs →
    separate R h L (x :: xs) (v :: vs).

Lemma separate_local {A V} (R : representation A V) `{!Local R} (L L' : area) h h' xs vs :
  (∀ l, L l → L' l) → keeps L h h' → separate R h L xs vs → separate R h' L' xs vs.
Proof.
  intros HL Hk Hs. revert L' HL Hk. induction Hs as [|L L1 L2 x xs v vs H12 Hd Hx Hs IH]; intros L' HL Hk; [constructor|].
  apply (separate_cons R h' L' L1 L2); [auto|done| |].
  - eapply (local (R := R)); [done| |exact Hx]. eapply keeps_mono; [|exact Hk]. auto.
  - apply IH; [done|]. eapply keeps_mono; [|exact Hk]. auto.
Qed.

Lemma separate_Forall2 {A V} (R : representation A V) `{!Local R} L h xs vs : separate R h L xs vs → Forall2 (R L h) xs vs.
Proof.
  induction 1 as [|L L1 L2 x xs v vs H12 _ Hx _ IH]; constructor.
  - eapply (local (R := R)); [|apply keeps_refl|exact Hx]. auto.
  - eapply (Forall2_local R); [|apply keeps_refl|exact IH]. auto.
Qed.

(** The copies of different elements have nothing in common. *)
Lemma mem_map_copy {A V} (f : A → mem A) (R : representation A V) `{!Local R} `{!DeepCopy f R} L h xs vs :
  Forall2 (R L h) xs vs → ∃ ys h', mem_map f xs h = Some (ys, h') ∧ h ⊆ h' ∧ separate R h' (fresh_in h h') ys vs.
Proof.
  revert h vs. induction xs as [|x xs IH]; intros h vs Hxs; [apply Forall2_nil_inv_l in Hxs as ->; exists [], h; by split_and!; [..|constructor]|].
  apply Forall2_cons_inv_l in Hxs as (v & vs' & Hx & Hxs & ->).
  destruct (deep_copy (R := R) L h x v Hx) as (y & h1 & E1 & Hs1 & Hy).
  destruct (IH h1 vs') as (ys & h2 & E2 & Hs2 & Hys); [eapply (Forall2_local R); [..|exact Hxs]; [done|by apply keeps_sub]|].
  exists (y :: ys), h2. cbn [mem_map]. unfold mbind_mem. rewrite E1. cbn [mbind option_bind]. rewrite E2. split; [done|].
  split; [by etrans|]. apply (separate_cons R h2 _ (fresh_in h h1) (fresh_in h1 h2)).
  - intros l [Hl|Hl]; [by eapply fresh_in_l|by eapply fresh_in_r].
  - apply fresh_in_disjoint.
  - by eapply (local_grow R).
  - done.
Qed.

#[global] Instance value_deep_copy {A} : DeepCopy mret (@rep_value A).
Proof. intros L h x v ->. by exists v, h. Qed.

#[global] Instance slice_deep_copy `{Cell C (list A)} : DeepCopy slice_copy (rep_slice (A := A)).
Proof.
  intros L h [l|] v; [|by intros ->; exists None, h]. intros [Hl Hv]. destruct (alloc_spec v h) as (l' & E & Hn & Hs).
  exists (Some l'), (<[l' := to_cell v]> h). unfold slice_copy, mbind_mem, load. rewrite Hv. cbn [mbind option_bind].
  rewrite of_to_cell. cbn [mbind option_bind]. rewrite E. split; [done|]. split; [done|].
  unfold rep_slice, fresh_in. rewrite lookup_insert_eq. by eauto.
Qed.

#[global] Instance nilable_deep_copy `{Cell C (list A)} : DeepCopy slice_copy (rep_nilable (A := A)).
Proof.
  intros L h [l|] [v|]; try done; [|by exists None, h]. intros Hv.
  destruct (slice_deep_copy L h (Some l) v Hv) as ([l'|] & h' & E & Hs & Hv'); [by exists (Some l'), h'|].
  unfold slice_copy, mbind_mem in E. repeat (case_match || simplify_option_eq).
Qed.

#[global] Instance items_deep_copy `{Cell C (list A)} {V} f (R : representation A V) `{!Local R} `{!DeepCopy f R} :
  DeepCopy (items_copy f) (rep_items R).
Proof.
  intros L h [l|] v; [|by intros ->; exists None, h]. intros (Hl & xs & Hx & HR).
  destruct (mem_map_copy f R L h xs v HR) as (ys & h1 & E1 & Hs1 & Hys%separate_Forall2); [|done].
  destruct (alloc_spec ys h1) as (l' & E & Hn & Hs). exists (Some l'), (<[l' := to_cell ys]> h1).
  unfold items_copy, mbind_mem, load. rewrite Hx. cbn [mbind option_bind]. rewrite of_to_cell. cbn [mbind option_bind].
  rewrite E1. cbn [mbind option_bind]. rewrite E. split; [done|]. split; [by etrans|]. unfold rep_items, fresh_in at 1.
  rewrite lookup_insert_eq. split; [split; [by eapply lookup_weaken_None|by eauto]|]. exists ys. split; [done|].
  eapply (Forall2_local R); [|by apply keeps_sub|exact Hys]. intros l0. by apply fresh_in_l.
Qed.

#[global] Instance ptr_deep_copy `{Cell C A} {V} f (R : representation A V) `{!Local R} `{!DeepCopy f R} :
  DeepCopy (ptr_copy f) (rep_ptr R).
Proof.
  intros L h [l|] [v|]; try done; [|by exists None, h]. intros (Hl & x & Hx & HR).
  destruct (deep_copy (R := R) L h x v HR) as (y & h1 & E1 & Hs1 & Hy). destruct (alloc_spec y h1) as (l' & E & Hn & Hs).
  exists (Some l'), (<[l' := to_cell y]> h1). unfold ptr_copy, mbind_mem, load. rewrite Hx. cbn [mbind option_bind].
  rewrite of_to_cell. cbn [mbind option_bind]. rewrite E1. cbn [mbind option_bind]. rewrite E. split; [done|]. split; [by etrans|].
  unfold rep_ptr, fresh_in at 1. rewrite lookup_insert_eq. split; [split; [by eapply lookup_weaken_None|by eauto]|].
  exists y. split; [done|]. eapply (local (R := R)); [|by apply keeps_sub|exact Hy]. intros l0. by apply fresh_in_l.
Qed.

(** *** Structures

    The fields of a structure are copied one after another, from the memory [h0]. *)

Definition grows {A} (h : heap) (m : mem A) (Q : heap → A → Prop) : Prop :=
  ∃ y h', m h = Some (y, h') ∧ h ⊆ h' ∧ Q h' y.

Lemma copy_field {A V B} (f : A → mem A) (R : representation A V) `{!Local R} `{!DeepCopy f R} (k : A → mem B) L h0 h x v Q :
  R L h0 x v → h0 ⊆ h →
  (∀ y h1, h0 ⊆ h1 → h ⊆ h1 → (∀ h2, h1 ⊆ h2 → R (fresh_in h0 h2) h2 y v) → grows h1 (k y) Q) →
  grows h (mbind_mem (f x) k) Q.
Proof.
  intros Hx H0 Hk. destruct (deep_copy (R := R) L h x v (local_grow R L h0 h x v H0 Hx)) as (y & h1 & E & Hs & Hy).
  destruct (Hk y h1) as (z & h' & E' & Hs' & HQ); [by etrans|done| |].
  - intros h2 Hs2. eapply (local (R := R)); [|by apply keeps_sub|exact Hy]. intros l Hl. eapply fresh_in_r; [exact H0|].
    by eapply fresh_in_l.
  - exists z, h'. unfold mbind_mem. rewrite E. split_and!; [done|by etrans|done].
Qed.

Lemma copy_by_fields {A V} (f : A → mem A) (R : representation A V) :
  (∀ L h x v, R L h x v → grows h (f x) (λ h' y, R (fresh_in h h') h' y v)) → DeepCopy f R.
Proof. done. Qed.

Lemma copied {A} (h : heap) (x : A) (Q : heap → A → Prop) : Q h x → grows h (mret x) Q.
Proof. intros HQ. by exists x, h. Qed.

(** *** Maps *)

Definition rep_entry {A V} (R : representation A V) : representation (string * A) (string * V) := λ L h x v,
  x.1 = v.1 ∧ R L h x.2 v.2.

#[global] Instance rep_entry_local {A V} (R : representation A V) `{!Local R} : Local (rep_entry R).
Proof. intros L L' h h' x v HL Hk [E Hx]. split; [done|]. by eapply (local (R := R)). Qed.

#[global] Instance entry_deep_copy {A V} f (R : representation A V) `{!DeepCopy f R} :
  DeepCopy (λ kx, mbind_mem (f kx.2) (λ y, mret (kx.1, y))) (rep_entry R).
Proof.
  intros L h x v [E Hx]. destruct (deep_copy (R := R) L h _ _ Hx) as (y & h' & E1 & Hs & Hy). exists (x.1, y), h'.
  unfold mbind_mem. rewrite E1. done.
Qed.

Definition areas_disjoint (L : string → area) : Prop := ∀ k k' l, L k l → L k' l → k = k'.

Lemma separate_keyed {A V} (R : representation A V) h L ys vs :
  separate (rep_entry R) h L ys vs → NoDup vs.*1 →
  ∃ Lf, areas_disjoint Lf ∧ (∀ k l, Lf k l → L l ∧ k ∈ vs.*1) ∧
    Forall2 (λ y v, y.1 = v.1 ∧ R (Lf v.1) h y.2 v.2) ys vs.
Proof.
  induction 1 as [|L L1 L2 y ys v vs H12 Hd [E Hy] _ IH]; intros Hnd; [exists (λ _ _, False); split_and!; [by intros ? ? ?|done|constructor]|].
  cbn in Hnd. apply NoDup_cons in Hnd as [Hn Hnd]. destruct (IH Hnd) as (Lf & Hdj & Hsub & HF).
  exists (λ k, if bool_decide (k = v.1) then L1 else Lf k). split_and!.
  - intros k k' l. repeat case_bool_decide; subst; [done|intros H1 [H2 _]%Hsub; by destruct (Hd l)
      |intros [H2 _]%Hsub H1; by destruct (Hd l)|apply Hdj].
  - intros k l. case_bool_decide; [subst; intros Hl; split; [auto|apply list_elem_of_here]|].
    intros [Hl Hk]%Hsub. split; [auto|by right].
  - constructor; [by rewrite bool_decide_true|].
    assert (∀ w, w ∈ vs → w.1 ≠ v.1) as Hne by (intros w Hw E'; apply Hn; rewrite <- E'; by apply list_elem_of_fmap_2).
    clear -HF Hne. induction HF as [|y' w ys vs [E Hy] _ IH]; constructor.
    + rewrite bool_decide_false; [done|]. apply Hne, list_elem_of_here.
    + apply IH. intros w' Hw'. apply Hne. by right.
Qed.

Lemma Forall_choice {A B} (P : A → B → Prop) l : Forall (λ x, ∃ y, P x y) l → ∃ l', Forall2 P l l'.
Proof. induction 1 as [|x l [y Hy] _ [l' Hl']]; [by exists []|]. exists (y :: l'). by constructor. Qed.

(** The entries of two maps side by side. *)
Lemma map_Forall2_list {A V} (P : string → A → V → Prop) (m : gmap string A) (v : gmap string V) :
  map_Forall2 P m v →
  ∃ vs, Forall2 (λ kx kw, kx.1 = kw.1 ∧ v !! kw.1 = Some kw.2 ∧ P kw.1 kx.2 kw.2) (map_to_list m) vs ∧
    vs.*1 = (map_to_list m).*1 ∧ list_to_map vs = v.
Proof.
  intros Hr. destruct (Forall_choice (λ kx kw, kx.1 = kw.1 ∧ v !! kw.1 = Some kw.2 ∧ P kw.1 kx.2 kw.2) (map_to_list m)) as [vs Hvs].
  { apply Forall_forall. intros [k x] Hx%elem_of_map_to_list. specialize (Hr k). rewrite Hx in Hr.
    destruct (v !! k) as [w|] eqn:Ew; [|by inversion Hr]. inversion Hr; subst. by exists (k, w). }
  assert (vs.*1 = (map_to_list m).*1) as Ek by (clear -Hvs; induction Hvs as [|? ? ? ? [E _]]; csimpl; congruence).
  exists vs. split; [done|]. split; [done|]. apply map_eq. intros k. destruct (list_to_map vs !! k) as [w|] eqn:Ey.
  - apply elem_of_list_to_map_2 in Ey. by destruct (Forall2_elem_r _ _ _ _ Hvs Ey) as (? & _ & _ & Hw & _).
  - apply not_elem_of_list_to_map_2 in Ey. rewrite Ek in Ey. specialize (Hr k). destruct (v !! k) as [w|]; [|done].
    destruct (m !! k) as [x|] eqn:Ex; [|by inversion Hr]. destruct Ey. apply list_elem_of_fmap. exists (k, x).
    split; [done|]. by apply elem_of_map_to_list.
Qed.

(** The copy of a map whose values have areas of their own. *)
Lemma map_copy_separate `{Cell C (gmap string A)} {V} f (R : representation A V) `{!Local R} `{!DeepCopy f R} B L h p v :
  rep_map_in R B L h p v →
  ∃ p' h' Lf, map_copy f p h = Some (p', h') ∧ h ⊆ h' ∧ areas_disjoint Lf ∧ (∀ k l, Lf k l → fresh_in h h' l) ∧
    rep_map_in R (λ l, p' = Some l) Lf h' p' v ∧ (is_Some p → is_Some p') ∧
    (∀ l, p' = Some l → fresh_in h h' l ∧ ∀ k, ¬ Lf k l).
Proof.
  destruct p as [l|]; [|intros ->; exists None, h, (λ _ _, False); split_and!; try done; by intros ? ? ?]. intros (Hl & m & Hm & Hr).
  destruct (map_Forall2_list _ m v Hr) as (vs & Hvs & Ek & Ev).
  assert (NoDup vs.*1) as Hnd by (rewrite Ek; apply NoDup_fst_map_to_list).
  destruct (mem_map_copy _ (rep_entry R) (λ l, ∃ k, L k l) h (map_to_list m) vs) as (ys & h1 & E1 & Hs1 & Hys);
    [eapply Forall2_impl; [exact Hvs|]; intros [k x] [k' w] (E & _ & Hx); split; [exact E|];
     eapply (local (R := R)); [|apply keeps_refl|exact Hx]; intros l0 Hl0; by exists k'|].
  destruct (separate_keyed R h1 _ ys vs Hys Hnd) as (Lf & Hdj & Hsub & HF).
  destruct (alloc_spec (list_to_map ys : gmap string A) h1) as (l' & E & Hn & Hs).
  exists (Some l'), (<[l' := to_cell (list_to_map ys : gmap string A)]> h1), Lf.
  unfold map_copy, mbind_mem at 1, load. rewrite Hm. cbn [mbind option_bind]. rewrite of_to_cell. cbn [mbind option_bind].
  unfold mbind_mem at 1. rewrite E1. cbn [mbind option_bind]. unfold mbind_mem at 1. rewrite E. split; [done|].
  split; [by etrans|]. split; [done|]. split; [intros k l0 [Hl0 _]%Hsub; by eapply fresh_in_l|].
  assert (∀ l, Some l' = Some l → fresh_in h (<[l' := to_cell (list_to_map ys : gmap string A)]> h1) l ∧ ∀ k, ¬ Lf k l) as Hl'.
  { intros ? [= <-]. split; [split; [by eapply lookup_weaken_None|by rewrite lookup_insert_eq]|].
    intros k [[_ [c Hc]] _]%Hsub. congruence. }
  split; [|split; [by eauto|done]].
  unfold rep_map_in. rewrite lookup_insert_eq. split; [done|]. exists (list_to_map ys). split; [done|]. intros k.
  assert (ys.*1 = vs.*1) as Eys by (clear -HF; induction HF as [|? ? ? ? [E _]]; csimpl; congruence).
  destruct (list_to_map ys !! k) as [y|] eqn:Ey.
  - apply elem_of_list_to_map_2 in Ey. destruct (Forall2_elem_l _ _ _ _ HF Ey) as ([k' w] & Hin & E0 & Hy). simpl in *. subst k'.
    destruct (Forall2_elem_r _ _ _ _ Hvs Hin) as (? & _ & _ & Hw & _). simpl in Hw. rewrite Hw. constructor.
    eapply (local (R := R)); [done|by apply keeps_sub|done].
  - apply not_elem_of_list_to_map_2 in Ey. rewrite Eys in Ey. rewrite <- Ev. rewrite not_elem_of_list_to_map_1 by done. constructor.
Qed.

#[global] Instance map_deep_copy `{Cell C (gmap string A)} {V} f (R : representation A V) `{!Local R} `{!DeepCopy f R} :
  DeepCopy (map_copy f) (rep_map R).
Proof.
  intros L h p v Hr. destruct (map_copy_separate f R _ _ h p v Hr) as (p' & h' & Lf & E & Hs & _ & Hsub & Hr' & _ & Hp').
  exists p', h'. split; [done|]. split; [done|]. eapply rep_map_in_local; [..|exact Hr']; try apply keeps_refl; try done.
  - intros l Hl. by apply Hp'.
  - intros. apply keeps_refl.
Qed.

(** ** Reading *)

Definition slice_read `{Cell C (list A)} (s : option loc) : mem (list A) :=
  match s with None => mret [] | Some l => load l end.

(** A [nil] map reads as an empty one. *)
Definition map_load `{Cell C (gmap string A)} (p : option loc) : mem (gmap string A) :=
  match p with None => mret ∅ | Some l => load l end.

Definition map_read `{Cell C (gmap string A)} {V} (f : A → mem V) (p : option loc) : mem (gmap string V) :=
  mbind_mem (map_load p) (λ m,
  mbind_mem (mem_map (λ kx, mbind_mem (f kx.2) (λ y, mret (kx.1, y))) (map_to_list m)) (λ ys, mret (list_to_map ys))).

Class Reads {A V} (f : A → mem V) (R : representation A V) : Prop :=
  reads : ∀ L h x v, R L h x v → f x h = Some (v, h).

#[global] Instance slice_reads `{Cell C (list A)} : Reads slice_read (rep_slice (A := A)).
Proof.
  intros L h [l|] v; [|by intros ->]. intros [_ Hv]. unfold slice_read, load. rewrite Hv. cbn [mbind option_bind].
  by rewrite of_to_cell.
Qed.

Lemma mem_map_reads {A V} (f : A → mem V) h xs vs : Forall2 (λ x v, f x h = Some (v, h)) xs vs → mem_map f xs h = Some (vs, h).
Proof.
  induction 1 as [|x v xs vs Hx _ IH]; [done|]. cbn [mem_map]. unfold mbind_mem. rewrite Hx. cbn [mbind option_bind].
  by rewrite IH.
Qed.

Lemma map_load_spec `{Cell C (gmap string A)} {V} (R : representation A V) B L h p v :
  rep_map_in R B L h p v → ∃ m, map_load p h = Some (m, h) ∧ map_Forall2 (λ k, R (L k) h) m v.
Proof.
  destruct p as [l|]; [|intros ->; exists ∅; split; [done|apply map_Forall2_empty]]. intros (_ & m & Hm & Hr). exists m.
  split; [|done]. unfold map_load, load. rewrite Hm. cbn [mbind option_bind]. by rewrite of_to_cell.
Qed.

Lemma map_reads `{Cell C (gmap string A)} {V} f (R : representation A V) `{!Reads f R} B L h p v :
  rep_map_in R B L h p v → map_read f p h = Some (v, h).
Proof.
  intros (m & Hl & Hr)%map_load_spec. unfold map_read, mbind_mem at 1. rewrite Hl. cbn [mbind option_bind].
  destruct (map_Forall2_list _ m v Hr) as (vs & Hvs & _ & Ev). unfold mbind_mem at 1. rewrite (mem_map_reads _ h _ vs).
  - cbn [mbind option_bind]. by rewrite Ev.
  - eapply Forall2_impl; [exact Hvs|]. intros [k x] [k' w] (E & _ & Hf). simpl in *. subst k'. unfold mbind_mem.
    by rewrite (reads (R := R) _ _ _ _ Hf).
Qed.
End memory.
Arguments mem : clear implicits.
Arguments representation : clear implicits.

Notation "'let%' x := m 'in' k" := (mbind_mem m (λ x, k))
  (at level 10, x binder, k at level 200) : mem_scope.

(** One field of a structure after another; then the structure. *)
Ltac copy_fields :=
  repeat match goal with
  | H : ?R ?L ?h0 ?x ?v |- grows ?h (mbind_mem (?f ?x) ?k) ?Q =>
      apply (copy_field f R k L h0 h x v Q H); [first [assumption|reflexivity]|intros ? ? ? ? ?]
  end; apply copied.

(** A field that was copied before others. *)
Ltac copied_field :=
  match goal with Hc : ∀ h2, _ |- _ => apply Hc; solve [repeat first [reflexivity | assumption | etrans; [eassumption|]]] end.
