(* ===== verification/GoNet.v ===== *)
(** * Addresses and networks of Go's [net] package

    The byte-level model of [net.IP], [net.IPMask] and [net.IPNet] that every
    component of the program computes with: an address is the slice of its
    bytes, [nil] being the empty slice.  The second half relates the bytes to
    numbers: [addr_of] is the (family, integer) an address denotes, and
    [net_of f base ones] is the network [base/ones] of family [f]. *)

From stdpp Require Import list_numbers.
From Stdlib Require Import Strings.Byte.
From S2P Require Import Prelude.

(** ** Addresses *)

Abbreviation IP := (list byte) (only parsing).
Abbreviation IPMask := (list byte) (only parsing).

Definition IPv4len : nat := 4.
Definition IPv6len : nat := 16.

Definition v4InV6Prefix : list byte :=
  [x00; x00; x00; x00; x00; x00; x00; x00; x00; x00; xff; xff].

Definition To4 (ip : IP) : IP :=
  if bool_decide (length ip = IPv4len) then ip
  else if bool_decide (length ip = IPv6len ∧ take 12 ip = v4InV6Prefix) then drop 12 ip
  else [].

Definition To16 (ip : IP) : IP :=
  if bool_decide (length ip = IPv4len) then v4InV6Prefix ++ ip
  else if bool_decide (length ip = IPv6len) then ip
  else [].

Definition IP_Equal (ip x : IP) : bool :=
  if bool_decide (length ip = length x) then bool_decide (ip = x)
  else if bool_decide (length ip = IPv4len ∧ length x = IPv6len) then
    bool_decide (take 12 x = v4InV6Prefix) && bool_decide (ip = drop 12 x)
  else if bool_decide (length ip = IPv6len ∧ length x = IPv4len) then
    bool_decide (take 12 ip = v4InV6Prefix) && bool_decide (drop 12 ip = x)
  else false.

(** [ip == nil] *)
Definition is_nil (ip : IP) : bool := bool_decide (ip = []).

(** ** Masks *)

Fixpoint mask_loop (l : nat) (n : Z) : IPMask :=
  match l with
  | O => []
  | S l =>
      if 8 <=? n then xff :: mask_loop l (n - 8)
      else byte_not (byte_of (Z.shiftr 255 n)) :: mask_loop l 0
  end.

Definition CIDRMask (ones bits : Z) : IPMask :=
  if negb (bits =? 32) && negb (bits =? 128) then []
  else if (ones <? 0) || (bits <? ones) then []
  else mask_loop (Z.to_nat (bits / 8)) ones.

(** The inner loop [for v&0x80 != 0 { n++; v <<= 1 }]; a byte has eight bits,
    so eight rounds empty it. *)
Fixpoint count_ones (fuel : nat) (v n : Z) : Z * Z :=
  match fuel with
  | O => (n, v)
  | S fuel => if Z.testbit v 7 then count_ones fuel ((2 * v) mod 256) (n + 1) else (n, v)
  end.

Fixpoint simpleMaskLength_loop (mask : IPMask) (n : Z) : Z :=
  match mask with
  | [] => n
  | v :: mask =>
      if bool_decide (v = xff) then simpleMaskLength_loop mask (n + 8)
      else
        let '(n, v) := count_ones 8 (byte_val v) n in
        if negb (v =? 0) then -1
        else if forallb (λ b, bool_decide (b = x00)) mask then n else -1
  end.

Definition simpleMaskLength (mask : IPMask) : Z := simpleMaskLength_loop mask 0.

(** [IPMask.Size]: the ones and the bits, [(0, 0)] for a non-canonical mask. *)
Definition Mask_Size (m : IPMask) : Z * Z :=
  let ones := simpleMaskLength m in
  if ones =? -1 then (0, 0) else (ones, 8 * Z.of_nat (length m)).

(** [IP.Mask] *)
Definition IP_Mask (ip : IP) (mask : IPMask) : IP :=
  let mask :=
    if bool_decide (length mask = IPv6len ∧ length ip = IPv4len ∧ take 12 mask = replicate 12 xff)
    then drop 12 mask else mask in
  let ip :=
    if bool_decide (length mask = IPv4len ∧ length ip = IPv6len ∧ take 12 ip = v4InV6Prefix)
    then drop 12 ip else ip in
  if bool_decide (length ip = length mask) then zip_with byte_and ip mask else [].

(** ** Networks *)

Record IPNet := mkIPNet { net_IP : IP; net_Mask : IPMask }.

#[global] Instance IPNet_eq_dec : EqDecision IPNet.
Proof. solve_decision. Defined.

Definition networkNumberAndMask (n : IPNet) : IP * IPMask :=
  let v4 := To4 (net_IP n) in
  if is_nil v4 && bool_decide (length (net_IP n) ≠ IPv6len) then ([], [])
  else
    let ip := if is_nil v4 then net_IP n else v4 in
    let m := net_Mask n in
    if bool_decide (length m = IPv4len) then
      if bool_decide (length ip = IPv4len) then (ip, m) else ([], [])
    else if bool_decide (length m = IPv6len) then
      if bool_decide (length ip = IPv4len) then (ip, drop 12 m) else (ip, m)
    else ([], []).

(** [IPNet.Contains] *)
Definition Contains (n : IPNet) (ip : IP) : bool :=
  let '(nn, m) := networkNumberAndMask n in
  let ip := if is_nil (To4 ip) then ip else To4 ip in
  if bool_decide (length ip = length nn)
  then bool_decide (zip_with byte_and nn m = zip_with byte_and ip m)
  else false.

(** ** What the bytes denote *)

Inductive family := F4 | F6.

#[global] Instance family_eq_dec : EqDecision family.
Proof. solve_decision. Defined.

Definition fam_len (f : family) : nat := match f with F4 => IPv4len | F6 => IPv6len end.
Definition fam_bits (f : family) : Z := match f with F4 => 32 | F6 => 128 end.

(** The number of an address of family [F6] that [To4] reads as IPv4. *)
Definition mapped (x : Z) : Prop := x / 2 ^ 32 = 65535.
#[global] Instance mapped_dec x : Decision (mapped x).
Proof. unfold mapped. apply _. Defined.

(** [x] is the number of an address of family [f]. *)
Definition addr_ok (f : family) (x : Z) : Prop :=
  0 ≤ x < 2 ^ fam_bits f ∧ (f = F6 → ¬ mapped x).

Definition addr_of (ip : IP) : option (family * Z) :=
  if bool_decide (To4 ip ≠ []) then Some (F4, be_val (To4 ip))
  else if bool_decide (length ip = IPv6len) then Some (F6, be_val ip)
  else None.

(** The bytes of the address numbered [x]. *)
Definition ip_of (f : family) (x : Z) : IP := be_bytes (fam_len f) x.

#[global] Arguments ip_of : simpl never.

(** Two byte representations of one address. *)
Definition ip_equiv (a b : IP) : Prop := addr_of a = addr_of b.

(** The network [base/ones]. *)
Definition net_of (f : family) (base ones : Z) : IPNet :=
  mkIPNet (ip_of f base) (mask_loop (fam_len f) ones).

(** The number of addresses of a network. *)
Definition net_size (f : family) (ones : Z) : Z := 2 ^ (fam_bits f - ones).

(** A network whose base is aligned and whose addresses (the one just past its
    end included) all belong to the family. *)
Definition net_ok (f : family) (base ones : Z) : Prop :=
  0 ≤ ones ≤ fam_bits f ∧
  0 ≤ base < 2 ^ fam_bits f ∧
  base mod net_size f ones = 0 ∧
  (f = F6 → ∀ x, base ≤ x ≤ base + net_size f ones → ¬ mapped x).

(** ** Lemmas on addresses *)

(** Arithmetic on the two address lengths. *)
Ltac len_tac := unfold fam_len, IPv4len, IPv6len in *; simpl in *; try lia.


Lemma fam_pow f : 2 ^ fam_bits f = 256 ^ Z.of_nat (fam_len f).
Proof. by destruct f. Qed.

Lemma length_ip_of f x : length (ip_of f x) = fam_len f.
Proof. apply length_be_bytes. Qed.

Lemma be_val_ip_of f x : 0 ≤ x < 2 ^ fam_bits f → be_val (ip_of f x) = x.
Proof. rewrite fam_pow. apply be_val_bytes_small. Qed.

Lemma ip_of_not_nil f x : ip_of f x ≠ [].
Proof. intros H. apply (f_equal length) in H. rewrite length_ip_of in H. by destruct f. Qed.

Lemma take12_mapped ip :
  length ip = IPv6len → take 12 ip = v4InV6Prefix ↔ mapped (be_val ip).
Proof.
  intros Hl. unfold mapped.
  rewrite <- (take_drop 12 ip) at 2. rewrite be_val_app, length_drop, Hl.
  pose proof (be_val_bound (drop 12 ip)) as B. rewrite length_drop, Hl in B.
  change (256 ^ Z.of_nat (IPv6len - 12)) with (2 ^ 32) in *.
  rewrite Z.div_add_l, (Z.div_small (be_val (drop _ _))), Z.add_0_r by lia.
  split.
  - by intros ->.
  - intros Hv. apply be_val_inj; [|by rewrite Hv].
    rewrite length_take, Hl. done.
Qed.

Lemma To4_len ip : To4 ip ≠ [] → length (To4 ip) = IPv4len.
Proof.
  unfold To4. repeat case_bool_decide; try done.
  destruct_and!. intros _. rewrite length_drop. unfold IPv6len, IPv4len in *. lia.
Qed.

Lemma To4_nil_spec ip :
  To4 ip = [] ↔ length ip ≠ IPv4len ∧ ¬ (length ip = IPv6len ∧ mapped (be_val ip)).
Proof.
  unfold To4. repeat case_bool_decide.
  - split; [by intros ->|]. naive_solver.
  - destruct_and!. split.
    + intros E. apply (f_equal length) in E. rewrite length_drop in E.
      unfold IPv6len in *. simpl in E. lia.
    + intros [_ Hn]. destruct Hn. split; [done|]. by apply take12_mapped.
  - split; [|done]. intros _. split; [done|]. intros [Hl Hm].
    apply take12_mapped in Hm; naive_solver.
Qed.

Lemma To4_4 ip : length ip = IPv4len → To4 ip = ip.
Proof. intros H. unfold To4. by rewrite bool_decide_true. Qed.

(** The two shapes of a valid address. *)
Lemma addr_of_Some ip f x :
  addr_of ip = Some (f, x) ↔
  addr_ok f x ∧
  match f with
  | F4 => To4 ip ≠ [] ∧ be_val (To4 ip) = x
  | F6 => To4 ip = [] ∧ length ip = IPv6len ∧ be_val ip = x
  end.
Proof.
  unfold addr_of, addr_ok. case_bool_decide as H4.
  - pose proof (be_val_bound (To4 ip)) as B. rewrite (To4_len _ H4) in B.
    change (256 ^ Z.of_nat IPv4len) with (2 ^ fam_bits F4) in B.
    destruct f; naive_solver.
  - assert (To4 ip = []) as Hn by (destruct (decide (To4 ip = [])); naive_solver).
    case_bool_decide as H6.
    + pose proof (be_val_bound ip) as B. rewrite H6 in B.
      change (256 ^ Z.of_nat IPv6len) with (2 ^ fam_bits F6) in B.
      pose proof (proj1 (To4_nil_spec ip) Hn). destruct f; naive_solver.
    + destruct f; naive_solver.
Qed.

Lemma addr_of_ok ip f x : addr_of ip = Some (f, x) → addr_ok f x.
Proof. intros H%addr_of_Some. tauto. Qed.

Lemma addr_of_ip_of f x : addr_ok f x → addr_of (ip_of f x) = Some (f, x).
Proof.
  intros Hok. apply addr_of_Some. split; [done|]. destruct Hok as [Hb Hm].
  destruct f.
  - rewrite To4_4 by apply length_ip_of. split; [apply ip_of_not_nil|by apply be_val_ip_of].
  - rewrite be_val_ip_of by done. split; [|split; [apply length_ip_of|done]].
    apply To4_nil_spec. rewrite length_ip_of, be_val_ip_of by done. split; [done|naive_solver].
Qed.

Lemma addr_of_ip_of_inv f x y :
  0 ≤ x < 2 ^ fam_bits f → addr_of (ip_of f x) = Some (f, y) → y = x.
Proof.
  intros Hx H%addr_of_Some. destruct f.
  - rewrite To4_4, be_val_ip_of in H by (done || apply length_ip_of). by destruct H as (_ & _ & ->).
  - rewrite be_val_ip_of in H by done. by destruct H as (_ & _ & _ & ->).
Qed.

Lemma addr_of_nil : addr_of [] = None.
Proof. done. Qed.

Lemma addr_of_not_nil ip a : addr_of ip = Some a → ip ≠ [].
Proof. by intros ? ->. Qed.

(** Reading an address through its normal form. *)
Lemma addr_of_normal ip f x :
  addr_of ip = Some (f, x) → (if is_nil (To4 ip) then ip else To4 ip) = ip_of f x.
Proof.
  intros H%addr_of_Some. unfold is_nil. destruct H as [[Hb _] H]. destruct f.
  - destruct H as [Hn Hv]. rewrite bool_decide_false by done.
    unfold ip_of. rewrite <- Hv. symmetry. apply be_bytes_val. by apply To4_len.
  - destruct H as (Hn & Hl & Hv). rewrite bool_decide_true by done.
    unfold ip_of. rewrite <- Hv. symmetry. by apply be_bytes_val.
Qed.

Lemma To16_nil ip : addr_of ip = None → length ip ≠ IPv4len ∧ length ip ≠ IPv6len.
Proof.
  unfold addr_of. case_bool_decide as H4; [done|]. case_bool_decide; [done|].
  intros _. split; [|done]. intros Hl. rewrite (To4_4 ip Hl) in H4. by subst.
Qed.

Lemma ip_of_inj f g x y :
  addr_ok f x → addr_ok g y → ip_of f x = ip_of g y → f = g ∧ x = y.
Proof.
  intros Hx Hy E. pose proof (addr_of_ip_of f x Hx) as H1.
  rewrite E, (addr_of_ip_of g y Hy) in H1. naive_solver.
Qed.

(** The three byte shapes of a valid address. *)
Lemma addr_of_shape ip f x :
  addr_of ip = Some (f, x) →
  (f = F4 ∧ ip = ip_of F4 x) ∨
  (f = F4 ∧ ip = v4InV6Prefix ++ ip_of F4 x) ∨
  (f = F6 ∧ ip = ip_of F6 x ∧ take 12 ip ≠ v4InV6Prefix).
Proof.
  intros H. pose proof (addr_of_normal _ _ _ H) as Hn.
  apply addr_of_Some in H as [_ H]. unfold is_nil in Hn. destruct f.
  - rewrite bool_decide_false in Hn by naive_solver. destruct H as [H4 _]. unfold To4 in *.
    case_bool_decide; [naive_solver|]. case_bool_decide as H2; [|done].
    right; left. split; [done|]. destruct H2 as [_ Ht].
    by rewrite <- (take_drop 12 ip), Ht, Hn.
  - destruct H as (E & Hl & _). rewrite bool_decide_true in Hn by done.
    right; right. split_and!; [done..|]. intros Ht.
    apply To4_nil_spec in E as [_ E]. apply E. split; [done|]. by apply take12_mapped.
Qed.

(** [net.IP.Equal] decides whether two valid addresses are the same address. *)
Lemma IP_Equal_addr a b fa x fb y :
  addr_of a = Some (fa, x) → addr_of b = Some (fb, y) →
  IP_Equal a b = bool_decide (fa = fb ∧ x = y).
Proof.
  intros Ha Hb. pose proof (addr_of_shape _ _ _ Ha) as Sa.
  pose proof (addr_of_shape _ _ _ Hb) as Sb.
  apply addr_of_ok in Ha. apply addr_of_ok in Hb.
  assert (∀ f x y, addr_ok f x → addr_ok f y → ip_of f x = ip_of f y ↔ f = f ∧ x = y) as I4.
  { intros f x' y' H1 H2. split; [intros E; by apply ip_of_inj in E as [_ ->]|by intros [_ ->]]. }
  assert (∀ P Q : Prop, ∀ `{Decision P, Decision Q}, P ↔ Q → bool_decide P = bool_decide Q) as Hext
    by (intros; by apply bool_decide_ext).
  assert (∀ ip x, ip = ip_of F6 x → length ip = 16%nat) as L6
    by (intros ? ? ->; apply length_ip_of).
  unfold IP_Equal, IPv4len, IPv6len.
  destruct Sa as [[-> ->]|[[-> ->]|(-> & Ea & Ta)]],
    Sb as [[-> ->]|[[-> ->]|(-> & Eb & Tb)]].
  - rewrite bool_decide_true by (by rewrite !length_ip_of). apply Hext. exact (I4 _ x y Ha Hb).
  - rewrite !length_app, !length_ip_of. simpl. apply Hext. exact (I4 _ x y Ha Hb).
  - rewrite length_ip_of, (L6 _ _ Eb). simpl. by rewrite !bool_decide_false by naive_solver.
  - rewrite !length_app, !length_ip_of. simpl. apply Hext. exact (I4 _ x y Ha Hb).
  - rewrite bool_decide_true by (by rewrite !length_app, !length_ip_of). apply Hext.
    split; [|by intros [_ ->]]. intros E%(inj (app _)). by apply (I4 F4 x y Ha Hb).
  - rewrite !length_app, length_ip_of, (L6 _ _ Eb). simpl.
    apply bool_decide_false.
    intros E. by rewrite <- E in Tb.
  - rewrite length_ip_of, (L6 _ _ Ea). simpl. by rewrite !bool_decide_false by naive_solver.
  - rewrite !length_app, length_ip_of, (L6 _ _ Ea). simpl.
    apply bool_decide_false.
    intros E. by rewrite E in Ta.
  - rewrite bool_decide_true by (by rewrite Ea, Eb, !length_ip_of). apply Hext.
    rewrite Ea, Eb. exact (I4 _ x y Ha Hb).
Qed.

(** ** Lemmas on masks and networks *)

Lemma length_mask_loop l n : length (mask_loop l n) = l.
Proof. revert n; induction l; intros n; simpl; [done|]. case_match; simpl; auto. Qed.

Definition all_bytes : list byte := map byte_of (seqZ 0 256).

Lemma all_bytes_in b : b ∈ all_bytes.
Proof.
  unfold all_bytes. apply list_elem_of_fmap. exists (byte_val b).
  rewrite byte_of_val. split; [done|]. apply elem_of_seqZ. pose proof (byte_val_range b). lia.
Qed.

(** A property of bytes is decided by looking at all of them. *)
Lemma byte_exhaust (P : byte → bool) b : forallb P all_bytes = true → P b = true.
Proof. intros H. rewrite forallb_forall in H. apply H, list_elem_of_In, all_bytes_in. Qed.

Lemma byte_and_mask b n :
  0 ≤ n < 8 →
  byte_val (byte_and b (byte_not (byte_of (Z.shiftr 255 n)))) =
  byte_val b - byte_val b mod 2 ^ (8 - n).
Proof.
  intros Hn.
  assert (forallb (λ b, forallb (λ n,
    byte_val (byte_and b (byte_not (byte_of (Z.shiftr 255 n)))) =?
    byte_val b - byte_val b mod 2 ^ (8 - n)) (seqZ 0 8)) all_bytes = true) as H
    by (vm_compute; reflexivity).
  apply (byte_exhaust _ b) in H. rewrite forallb_forall in H.
  apply Z.eqb_eq, H, list_elem_of_In, elem_of_seqZ. lia.
Qed.

Lemma byte_and_ff b : byte_and b xff = b.
Proof.
  assert (forallb (λ b, bool_decide (byte_and b xff = b)) all_bytes = true) as H
    by (vm_compute; reflexivity).
  apply (byte_exhaust _ b) in H. by apply bool_decide_eq_true_1 in H.
Qed.

Lemma pow256_2 (n : nat) : 256 ^ Z.of_nat n = 2 ^ (8 * Z.of_nat n).
Proof. by rewrite (Z.pow_mul_r 2 8) by lia. Qed.

(** A byte operation that keeps the bits under the mask and sets ([c = 1]) or
    clears ([c = 0]) the others acts on the number the same way. *)
Lemma be_val_zip_mask (g : byte → byte → byte) c l n a :
  (∀ b, g b xff = b) →
  (∀ b n, 0 ≤ n < 8 → byte_val (g b (byte_not (byte_of (Z.shiftr 255 n)))) =
    byte_val b - byte_val b mod 2 ^ (8 - n) + c * (2 ^ (8 - n) - 1)) →
  length a = l → 0 ≤ n ≤ 8 * Z.of_nat l →
  be_val (zip_with g a (mask_loop l n)) =
  be_val a - be_val a mod 2 ^ (8 * Z.of_nat l - n) + c * (2 ^ (8 * Z.of_nat l - n) - 1).
Proof.
  intros Hff Hpart. revert n a; induction l as [|l IH]; intros n [|b a]; try done.
  { intros _ Hn. replace (8 * Z.of_nat 0 - n) with 0 by lia. simpl be_val. rewrite Z.pow_0_r, Z.mod_1_r. lia. }
  intros [= Hl] Hn. cbn [mask_loop]. case_match eqn:E; boolify.
  - cbn [zip_with be_val]. rewrite Hff, length_zip_with_l_eq
      by (by rewrite length_mask_loop).
    rewrite IH by lia.
    replace (8 * Z.of_nat (S l) - n) with (8 * Z.of_nat l - (n - 8)) by lia.
    set (h := 8 * Z.of_nat l - (n - 8)).
    replace (byte_val b * 256 ^ Z.of_nat (length a))
      with ((byte_val b * 2 ^ (8 * Z.of_nat l - h)) * 2 ^ h).
    + rewrite (Z.add_comm (_ * _) (be_val a)), Z.mod_add by (apply Z.pow_nonzero; lia). lia.
    + rewrite Hl, pow256_2, <- Z.mul_assoc, <- Z.pow_add_r by lia. f_equal. f_equal. lia.
  - cbn [zip_with be_val]. rewrite Hpart, length_zip_with_l_eq
      by (rewrite ?length_mask_loop; lia).
    rewrite IH by lia. rewrite Hl.
    replace (8 * Z.of_nat l - 0) with (8 * Z.of_nat l) by lia.
    pose proof (be_val_bound a) as B. rewrite Hl in B. rewrite pow256_2 in *.
    rewrite (Z.mod_small (be_val a)) by lia.
    replace (8 * Z.of_nat (S l) - n) with (8 * Z.of_nat l + (8 - n)) by lia.
    rewrite Z.pow_add_r by lia.
    rewrite (Z.rem_mul_r (_ + be_val a)) by (try apply Z.pow_nonzero; lia).
    rewrite Z.div_add_l, (Z.div_small (be_val a)), Z.add_0_r by lia.
    rewrite (Z.add_comm (_ * _) (be_val a)), Z.mod_add, (Z.mod_small (be_val a)) by lia.
    lia.
Qed.

(** Masking with [ones] leading ones clears the low bits of the number. *)
Lemma be_val_mask l n a :
  length a = l → 0 ≤ n ≤ 8 * Z.of_nat l →
  be_val (zip_with byte_and a (mask_loop l n)) =
  be_val a - be_val a mod 2 ^ (8 * Z.of_nat l - n).
Proof.
  intros. rewrite (be_val_zip_mask byte_and 0); [lia|apply byte_and_ff| |done..].
  intros. rewrite byte_and_mask by done. lia.
Qed.

(** Or-ing with the complement of the mask sets them. *)
Lemma byte_or_not_mask b n :
  0 ≤ n < 8 →
  byte_val (byte_or b (byte_not (byte_not (byte_of (Z.shiftr 255 n))))) =
  byte_val b - byte_val b mod 2 ^ (8 - n) + 1 * (2 ^ (8 - n) - 1).
Proof.
  intros Hn.
  assert (forallb (λ b, forallb (λ n,
    byte_val (byte_or b (byte_not (byte_not (byte_of (Z.shiftr 255 n))))) =?
    byte_val b - byte_val b mod 2 ^ (8 - n) + 1 * (2 ^ (8 - n) - 1)) (seqZ 0 8)) all_bytes = true)
    as H by (vm_compute; reflexivity).
  apply (byte_exhaust _ b) in H. rewrite forallb_forall in H.
  apply Z.eqb_eq, H, list_elem_of_In, elem_of_seqZ. lia.
Qed.

Lemma be_val_host_bits l n a :
  length a = l → 0 ≤ n ≤ 8 * Z.of_nat l →
  be_val (zip_with (λ b m, byte_or b (byte_not m)) a (mask_loop l n)) =
  be_val a - be_val a mod 2 ^ (8 * Z.of_nat l - n) + (2 ^ (8 * Z.of_nat l - n) - 1).
Proof.
  intros. rewrite (be_val_zip_mask (λ b m, byte_or b (byte_not m)) 1); [lia| |apply byte_or_not_mask|done..].
  intros b. cbn beta.
  assert (forallb (λ b, bool_decide (byte_or b (byte_not xff) = b)) all_bytes = true) as Hb
    by (vm_compute; reflexivity).
  apply (byte_exhaust _ b) in Hb. by apply bool_decide_eq_true_1 in Hb.
Qed.

Lemma count_ones_mask n k :
  0 ≤ n < 8 →
  count_ones 8 (byte_val (byte_not (byte_of (Z.shiftr 255 n)))) k = (k + n, 0).
Proof.
  intros Hn.
  assert (n = 0 ∨ n = 1 ∨ n = 2 ∨ n = 3 ∨ n = 4 ∨ n = 5 ∨ n = 6 ∨ n = 7)
    as [->|[->|[->|[->|[->|[->|[->| ->]]]]]]] by lia; cbv -[Z.add]; f_equal; lia.
Qed.

Lemma mask_loop_0 l : mask_loop l 0 = replicate l x00.
Proof. induction l as [|l IH]; simpl; [done|]. by rewrite IH. Qed.

Lemma simpleMaskLength_mask l n k :
  0 ≤ n ≤ 8 * Z.of_nat l →
  simpleMaskLength_loop (mask_loop l n) k = k + n.
Proof.
  revert n k; induction l as [|l IH]; intros n k Hn; simpl; [lia|].
  case_match eqn:E; boolify.
  - simpl. rewrite IH; lia.
  - cbn [simpleMaskLength_loop]. rewrite bool_decide_false.
    + rewrite count_ones_mask by lia. simpl. rewrite mask_loop_0.
      assert (forallb (λ b, bool_decide (b = x00)) (replicate l x00) = true) as ->; [|done].
      clear. induction l; simpl; auto.
    + intros Hff. pose proof (byte_and_mask xff n ltac:(lia)) as H.
      rewrite Hff, byte_and_ff in H.
      change (byte_val xff) with 255 in H.
      assert (255 mod 2 ^ (8 - n) ≠ 0); [|lia].
      assert (n = 0 ∨ n = 1 ∨ n = 2 ∨ n = 3 ∨ n = 4 ∨ n = 5 ∨ n = 6 ∨ n = 7)
        as [->|[->|[->|[->|[->|[->|[->| ->]]]]]]] by lia; done.
Qed.

Lemma fam_bits_len f : fam_bits f = 8 * Z.of_nat (fam_len f).
Proof. by destruct f. Qed.

Lemma fam_bits_pos f : 0 < fam_bits f.
Proof. by destruct f. Qed.

Lemma Mask_Size_mask f ones :
  0 ≤ ones ≤ fam_bits f → Mask_Size (mask_loop (fam_len f) ones) = (ones, fam_bits f).
Proof.
  intros H. unfold Mask_Size, simpleMaskLength.
  rewrite simpleMaskLength_mask by (rewrite <- fam_bits_len; lia).
  rewrite (proj2 (Z.eqb_neq _ _)) by lia. by rewrite length_mask_loop, <- fam_bits_len.
Qed.

Lemma CIDRMask_spec f ones :
  0 ≤ ones ≤ fam_bits f → CIDRMask ones (fam_bits f) = mask_loop (fam_len f) ones.
Proof.
  intros H. unfold CIDRMask.
  rewrite !(proj2 (Z.ltb_ge _ _)) by lia. by destruct f.
Qed.

Lemma net_size_pos f ones : ones ≤ fam_bits f → 0 < net_size f ones.
Proof. intros. apply Z.pow_pos_nonneg; lia. Qed.

(** The network an address numbered [x] belongs to. *)
Lemma mask_ip_of f x ones :
  0 ≤ x < 2 ^ fam_bits f → 0 ≤ ones ≤ fam_bits f →
  zip_with byte_and (ip_of f x) (mask_loop (fam_len f) ones) =
  ip_of f (x - x mod net_size f ones).
Proof.
  intros Hx Ho.
  pose proof (Z.mod_pos_bound x (net_size f ones) (net_size_pos f ones ltac:(lia))) as Hm.
  pose proof (Z.mod_le x (net_size f ones) ltac:(lia) (net_size_pos f ones ltac:(lia))).
  apply be_val_inj.
  - rewrite length_zip_with_l_eq; rewrite !length_ip_of; [done|]. by rewrite length_mask_loop.
  - rewrite be_val_mask; [|apply length_ip_of|by rewrite <- fam_bits_len].
    rewrite !be_val_ip_of by lia. unfold net_size. by rewrite fam_bits_len.
Qed.

Lemma same_block x base p :
  0 < p → base mod p = 0 → x - x mod p = base ↔ base ≤ x < base + p.
Proof.
  intros Hp Hb. pose proof (Z.mod_pos_bound x p Hp). split; [lia|]. intros Hx.
  assert (x mod p = x - base); [|lia]. symmetry.
  apply (Z.mod_unique_pos x p (base / p)); [lia|].
  pose proof (Z.div_mod base p). lia.
Qed.

Lemma net_ok_addr f base ones x :
  net_ok f base ones → base ≤ x < base + net_size f ones → addr_ok f x.
Proof.
  intros (Ho & Hb & Hm & Hp) Hx. split; [|intros ->; apply Hp; [done|lia]].
  split; [lia|].
  assert (base + net_size f ones ≤ 2 ^ fam_bits f); [|lia].
  pose proof (net_size_pos f ones ltac:(lia)).
  assert (2 ^ fam_bits f = 2 ^ ones * net_size f ones) as E.
  { unfold net_size. rewrite <- Z.pow_add_r by lia. f_equal. lia. }
  pose proof (Z.div_mod base (net_size f ones) ltac:(lia)).
  assert (base / net_size f ones < 2 ^ ones) by (apply Z.div_lt_upper_bound; lia). nia.
Qed.

Lemma net_ok_base f base ones : net_ok f base ones → addr_ok f base.
Proof.
  intros H. eapply net_ok_addr; [done|].
  destruct H. pose proof (net_size_pos f ones ltac:(lia)). lia.
Qed.

Lemma networkNumberAndMask_net_of f base ones :
  addr_ok f base →
  networkNumberAndMask (net_of f base ones) = (ip_of f base, mask_loop (fam_len f) ones).
Proof.
  intros Hok. pose proof (addr_of_normal _ _ _ (addr_of_ip_of _ _ Hok)) as Hn.
  unfold networkNumberAndMask, net_of. simpl.
  rewrite length_ip_of, length_mask_loop, Hn, length_ip_of.
  destruct f; [|by destruct (is_nil _)].
  assert (is_nil (To4 (ip_of F4 base)) = false) as ->; [|done].
  apply bool_decide_false. rewrite To4_4 by apply length_ip_of. apply ip_of_not_nil.
Qed.

Lemma networkNumberAndMask_addr ip f x ones :
  addr_of ip = Some (f, x) →
  networkNumberAndMask (mkIPNet ip (mask_loop (fam_len f) ones)) = (ip_of f x, mask_loop (fam_len f) ones).
Proof.
  intros H. pose proof (addr_of_normal _ _ _ H) as Hn. apply addr_of_Some in H as [_ H].
  unfold networkNumberAndMask. simpl. rewrite Hn, length_mask_loop, length_ip_of. unfold is_nil. destruct f.
  - by rewrite bool_decide_false by tauto.
  - destruct H as (H4 & Hl & _). rewrite Hl, (bool_decide_true (To4 ip = [])) by done. done.
Qed.

(** [IPNet.Contains] is membership in the interval of the network. *)
Lemma Contains_net_of f base ones g x ip :
  net_ok f base ones → addr_of ip = Some (g, x) →
  Contains (net_of f base ones) ip = bool_decide (g = f ∧ base ≤ x < base + net_size f ones).
Proof.
  intros Hnet Hip. pose proof (net_ok_base _ _ _ Hnet) as Hb.
  pose proof (addr_of_ok _ _ _ Hip) as Hx.
  unfold Contains. rewrite networkNumberAndMask_net_of by done.
  rewrite (addr_of_normal _ _ _ Hip), !length_ip_of.
  case_bool_decide as Hl.
  - assert (g = f) as -> by (destruct g, f; done).
    destruct Hnet as (Ho & Hbb & Hm & _), Hx as [Hx _].
    rewrite !mask_ip_of by done. rewrite Hm, Z.sub_0_r.
    pose proof (net_size_pos f ones ltac:(lia)) as Hs.
    pose proof (Z.mod_pos_bound x _ Hs). pose proof (Z.mod_le x _ ltac:(lia) Hs).
    apply bool_decide_ext. rewrite <- same_block by done. split.
    + intros E. split; [done|]. apply (f_equal be_val) in E.
      rewrite !be_val_ip_of in E by lia. lia.
    + by intros [_ ->].
  - symmetry. apply bool_decide_false. intros [-> _]. done.
Qed.

Lemma Contains_invalid f base ones ip :
  net_ok f base ones → addr_of ip = None → Contains (net_of f base ones) ip = false.
Proof.
  intros Hnet Hip. unfold Contains.
  rewrite networkNumberAndMask_net_of by (by eapply net_ok_base).
  assert (is_nil (To4 ip) = true) as ->.
  { unfold is_nil. apply bool_decide_true. unfold addr_of in Hip. by case_bool_decide. }
  rewrite bool_decide_false; [done|]. rewrite length_ip_of.
  apply To16_nil in Hip. destruct Hip; by destruct f.
Qed.

Lemma IP_Equal_refl ip : IP_Equal ip ip = true.
Proof. unfold IP_Equal. by rewrite !bool_decide_true. Qed.

(** A decision procedure for concrete networks. *)
Definition net_okb (f : family) (base ones : Z) : bool :=
  (0 <=? ones) && (ones <=? fam_bits f) && (0 <=? base) && (base <? 2 ^ fam_bits f) &&
  (base mod net_size f ones =? 0) &&
  match f with
  | F4 => true
  | F6 => (base + net_size f ones <? 65535 * 2 ^ 32) || (65536 * 2 ^ 32 <=? base)
  end.

Lemma net_okb_ok f base ones : net_okb f base ones = true → net_ok f base ones.
Proof.
  unfold net_okb. rewrite !andb_true_iff, !Z.leb_le, Z.ltb_lt, Z.eqb_eq.
  intros [[[[[? ?] ?] ?] ?] Hm]. split; [lia|]. split; [lia|]. split; [done|].
  intros -> x Hx. unfold mapped. intros E. apply orb_true_iff in Hm.
  rewrite Z.ltb_lt, Z.leb_le in Hm.
  pose proof (Z.div_mod x (2 ^ 32) ltac:(lia)). pose proof (Z.mod_pos_bound x (2 ^ 32) ltac:(lia)). lia.
Qed.

Lemma fam_bits_le f : fam_bits f ≤ 128.
Proof. by destruct f. Qed.
