(* ===== verification/Cidr.v ===== *)
(** * IP arithmetic: [pkg/ip/cidr.go]

    Successor, predecessor, offset, comparison and distance of addresses, the
    broadcast and last usable address of a network, and the iterator over the
    subnets of a network.  [math/big] integers are [Z]; a [nil] slice or
    pointer is [[]] or [None]; a function that can index out of range returns
    an [option], [None] being the panic. *)

From Stdlib Require Import Strings.Byte.
From S2P Require Import Prelude GoNet.

(** Errors carry the format string of the [fmt.Errorf] call. *)
Abbreviation error := string (only parsing).

(** ** Addresses as integers *)

Definition NormalizeIP (ip : IP) : IP :=
  let ipTo4 := To4 ip in
  if is_nil ipTo4 then To16 ip else ipTo4.

Definition ipToInt (ip : IP) : Z := be_val ip.

(** [big.Int.Bytes]: the big-endian bytes of the absolute value, without
    leading zeroes. *)
Definition big_Bytes (i : Z) : list byte :=
  let n := if i =? 0 then O else Z.to_nat (Z.log2 (Z.abs i) / 8 + 1) in
  be_bytes n (Z.abs i).

Definition intToIP (i : Z) (isIPv6 : bool) : IP :=
  if i <? 0 then []
  else
    let intBytes := big_Bytes i in
    let ipLen := if isIPv6 then IPv6len else IPv4len in
    if bool_decide (length intBytes = ipLen) then intBytes
    else if bool_decide (ipLen < length intBytes)%nat then []
    else replicate (ipLen - length intBytes) x00 ++ intBytes.

Definition is16 (ip : IP) : bool := bool_decide (length ip = IPv6len).

Definition NextIP (ip : IP) : IP :=
  let normalizedIP := NormalizeIP ip in
  if is_nil normalizedIP then []
  else intToIP (ipToInt normalizedIP + 1) (is16 normalizedIP).

Definition NextIPWithOffset (ip : IP) (offset : option Z) : result error IP :=
  match offset with
  | None => Err "offset must be non-negative"
  | Some offset =>
      if offset <? 0 then Err "offset must be non-negative"
      else
        let normalizedIP := NormalizeIP ip in
        if is_nil normalizedIP then Err "invalid IP address"
        else
          let nextIP := intToIP (ipToInt normalizedIP + offset) (is16 normalizedIP) in
          if is_nil nextIP then Err "IP address overflow" else Ok nextIP
  end.

Definition PrevIP (ip : IP) : IP :=
  let normalizedIP := NormalizeIP ip in
  if is_nil normalizedIP then []
  else intToIP (ipToInt normalizedIP - 1) (is16 normalizedIP).

(** [big.Int.Cmp] *)
Definition big_Cmp (x y : Z) : Z :=
  match x ?= y with Lt => -1 | Eq => 0 | Gt => 1 end.

Definition Cmp (a b : IP) : Z :=
  let normalizedA := NormalizeIP a in
  let normalizedB := NormalizeIP b in
  if bool_decide (length normalizedA = length normalizedB) &&
     negb (bool_decide (length normalizedA = O))
  then big_Cmp (ipToInt normalizedA) (ipToInt normalizedB)
  else -2.

Definition Distance (a b : IP) : result error Z :=
  let normalizedA := NormalizeIP a in
  let normalizedB := NormalizeIP b in
  if bool_decide (length normalizedA = O) || bool_decide (length normalizedB = O)
  then Err "invalid IP address"
  else if negb (bool_decide (length normalizedA = length normalizedB))
  then Err "IP address families do not match"
  else
    let distance := ipToInt normalizedB - ipToInt normalizedA in
    if distance <? 0 then Err "second IP address must not precede first IP address"
    else Ok distance.

(** ** Special addresses of a network *)

Definition IsPointToPointSubnet (network : IPNet) : bool :=
  let '(ones, maskLen) := Mask_Size (net_Mask network) in ones =? maskLen - 1.

Definition IsSingleIPSubnet (network : IPNet) : bool :=
  let '(ones, maskLen) := Mask_Size (net_Mask network) in ones =? maskLen.

(** [binary.BigEndian.Uint32] panics on fewer than four bytes. *)
Definition Uint32 (b : list byte) : option Z :=
  if bool_decide (length b < 4)%nat then None else Some (be_val (take 4 b)).

Definition IsBroadcast (ip : IP) (network : option IPNet) : option bool :=
  match network with
  | None => Some false
  | Some network =>
      if is_nil (To4 ip) then Some false
      else if is_nil (To4 (net_IP network)) then Some false
      else if IsPointToPointSubnet network || IsSingleIPSubnet network then Some false
      else if negb (Contains network ip) then Some false
      else
        netU ← Uint32 (To4 (net_IP network));
        maskU ← Uint32 (To4 (net_Mask network));
        let masked := be_bytes 4 (Z.lor netU (2 ^ 32 - 1 - maskU)) in
        Some (IP_Equal ip masked)
  end.

(** [end[3]--] on a byte slice. *)
Definition decr_at (i : nat) (l : list byte) : list byte :=
  alter (λ b, byte_of (byte_val b - 1)) i l.

Definition LastIP (network : IPNet) : option IP :=
  if IsSingleIPSubnet network then Some (net_IP network)
  else if bool_decide (length (net_Mask network) < length (net_IP network))%nat then None
  else
    let end_ := zip_with (λ b m, byte_or b (byte_not m)) (net_IP network) (net_Mask network) in
    if negb (is_nil (To4 (net_IP network))) && negb (IsPointToPointSubnet network)
    then Some (decr_at 3 end_)
    else Some end_.

(** ** Iterator over the subnets of a network *)

Record SubnetIterator := mkSubnetIterator {
  it_isIPv6 : bool;
  it_netBitsTotal : Z;
  it_prefixSize : Z;
  it_networkIPAsInt : Z;
  it_subnetIPCount : Z;
  it_subnetCount : Z;
  it_nextIndex : Z;
}.

Definition it_set_nextIndex (i : SubnetIterator) (n : Z) : SubnetIterator :=
  mkSubnetIterator (it_isIPv6 i) (it_netBitsTotal i) (it_prefixSize i)
    (it_networkIPAsInt i) (it_subnetIPCount i) (it_subnetCount i) n.

(** [big.Int.Exp(2, y, nil)] is 1 for [y <= 0]. *)
Definition big_Exp2 (y : Z) : Z := if y <=? 0 then 1 else 2 ^ y.

Definition NewSubnetIterator (network : option IPNet) (prefixSize : Z) :
    result error SubnetIterator :=
  match network with
  | None => Err "network must not be nil"
  | Some network =>
      let '(networkOnes, netBitsTotal) := Mask_Size (net_Mask network) in
      if negb (netBitsTotal =? 32) && negb (netBitsTotal =? 128)
      then Err "network mask must be a valid IPv4 or IPv6 mask"
      else if (prefixSize <? networkOnes) || (netBitsTotal <? prefixSize)
      then Err "prefix size must be between %d and %d"
      else
        let normalizedNetworkIP :=
          if netBitsTotal =? 32 then To4 (net_IP network)
          else if is_nil (To4 (net_IP network)) then To16 (net_IP network)
          else [] in
        if is_nil normalizedNetworkIP
        then Err "network IP address does not match the mask"
        else if negb (IP_Equal normalizedNetworkIP (IP_Mask normalizedNetworkIP (net_Mask network)))
        then Err "network IP address has host bits set"
        else Ok {|
          it_isIPv6 := netBitsTotal =? 128;
          it_netBitsTotal := netBitsTotal;
          it_prefixSize := prefixSize;
          it_networkIPAsInt := be_val normalizedNetworkIP;
          it_subnetIPCount := big_Exp2 (netBitsTotal - prefixSize);
          it_subnetCount := big_Exp2 (prefixSize - networkOnes);
          it_nextIndex := 0 |}
  end.

(** [Next]: the subnet and the advanced iterator. *)
Definition SubnetIterator_Next (i : option SubnetIterator) :
    option IPNet * option SubnetIterator :=
  match i with
  | None => (None, None)
  | Some i =>
      if it_subnetCount i <=? it_nextIndex i then (None, Some i)
      else
        let subnetOffset := it_subnetIPCount i * it_nextIndex i in
        let subnetIPAsInt := it_networkIPAsInt i + subnetOffset in
        let i' := it_set_nextIndex i (it_nextIndex i + 1) in
        let subnetIP := intToIP subnetIPAsInt (it_isIPv6 i) in
        if is_nil subnetIP then (None, Some i')
        else (Some (mkIPNet subnetIP (CIDRMask (it_prefixSize i) (it_netBitsTotal i))), Some i')
  end.

Definition SubnetIterator_AdvancePastIP (i : option SubnetIterator) (end_ : IP) :
    result error (option SubnetIterator) :=
  match i with
  | None => Err "invalid subnet iterator"
  | Some i =>
      let normalizedEnd :=
        if it_isIPv6 i then (if is_nil (To4 end_) then To16 end_ else [])
        else To4 end_ in
      if is_nil normalizedEnd then Err "IP address family does not match iterator network"
      else
        let nextIP := NextIP normalizedEnd in
        if is_nil nextIP then Ok (Some (it_set_nextIndex i (it_subnetCount i)))
        else
          let distance := ipToInt nextIP - it_networkIPAsInt i in
          if distance <? 0 then Ok (Some i)
          else
            let targetIndex := Z.quot distance (it_subnetIPCount i) in
            let n := if it_nextIndex i <? targetIndex then targetIndex else it_nextIndex i in
            let n := if it_subnetCount i <? n then it_subnetCount i else n in
            Ok (Some (it_set_nextIndex i n))
  end.

Example next_v4 : NextIP [x0a; x00; x00; xff] = [x0a; x00; x01; x00].
Proof. reflexivity. Qed.
Example next_v4_overflow : NextIP [xff; xff; xff; xff] = [].
Proof. reflexivity. Qed.

(** ** Addresses as numbers *)

Definition fam6 (six : bool) : family := if six then F6 else F4.

Lemma is16_ip_of f x : is16 (ip_of f x) = bool_decide (f = F6).
Proof. unfold is16. rewrite length_ip_of. by destruct f. Qed.

Lemma big_Bytes_bounds i :
  0 ≤ i →
  i < 256 ^ Z.of_nat (length (big_Bytes i)) ∧
  (length (big_Bytes i) ≠ O → 256 ^ (Z.of_nat (length (big_Bytes i)) - 1) ≤ i).
Proof.
  intros Hi. unfold big_Bytes. rewrite length_be_bytes, Z.abs_eq by done.
  destruct (Z.eqb_spec i 0) as [->|Hz]; [done|].
  pose proof (Z.log2_spec i ltac:(lia)) as [Hlo Hhi].
  pose proof (Z.log2_nonneg i). pose proof (Z.div_pos (Z.log2 i) 8 ltac:(lia) ltac:(lia)).
  rewrite Z2Nat.id by lia.
  pose proof (Z.div_mod (Z.log2 i) 8 ltac:(lia)).
  pose proof (Z.mod_pos_bound (Z.log2 i) 8 ltac:(lia)).
  change 256 with (2 ^ 8). rewrite <- !Z.pow_mul_r by lia. split.
  - eapply Z.lt_le_trans; [done|]. apply Z.pow_le_mono_r; lia.
  - intros _. etrans; [|done]. apply Z.pow_le_mono_r; lia.
Qed.

Lemma be_val_replicate0 k l : be_val (replicate k x00 ++ l) = be_val l.
Proof. induction k as [|k IH]; simpl; [done|]. rewrite IH. done. Qed.

(** Encoding an integer as an address of a given family. *)
Lemma intToIP_spec i six :
  intToIP i six =
    if bool_decide (0 ≤ i < 2 ^ fam_bits (fam6 six)) then ip_of (fam6 six) i else [].
Proof.
  unfold intToIP. destruct (Z.ltb_spec i 0) as [Hneg|Hpos].
  { rewrite bool_decide_false; [done|lia]. }
  pose proof (big_Bytes_bounds i Hpos) as [Hub Hlb].
  set (n := length (big_Bytes i)) in *.
  assert (be_val (big_Bytes i) = i) as Hv.
  { unfold n, big_Bytes in *. rewrite length_be_bytes in Hub. rewrite Z.abs_eq in * by done.
    by apply be_val_bytes_small. }
  rewrite fam_pow.
  replace (if six then IPv6len else IPv4len) with (fam_len (fam6 six)) by (by destruct six).
  set (m := fam_len (fam6 six)).
  case_bool_decide as E1; [|case_bool_decide as E2].
  - rewrite bool_decide_true by (rewrite <- E1; lia).
    apply be_val_inj; [by rewrite length_ip_of|].
    rewrite Hv, be_val_ip_of; [done|]. rewrite fam_pow. fold m. rewrite <- E1. lia.
  - rewrite bool_decide_false; [done|]. intros [_ Hlt].
    assert (256 ^ Z.of_nat m ≤ 256 ^ (Z.of_nat n - 1)) by (apply Z.pow_le_mono_r; lia).
    specialize (Hlb ltac:(lia)). lia.
  - assert (256 ^ Z.of_nat n ≤ 256 ^ Z.of_nat m) by (apply Z.pow_le_mono_r; lia).
    rewrite bool_decide_true by lia. apply be_val_inj.
    + rewrite length_app, length_replicate, length_ip_of. fold m n. lia.
    + rewrite be_val_replicate0, Hv, be_val_ip_of; [done|]. rewrite fam_pow. fold m. lia.
Qed.

Lemma NormalizeIP_valid ip f x : addr_of ip = Some (f, x) → NormalizeIP ip = ip_of f x.
Proof.
  intros H. pose proof (addr_of_normal _ _ _ H) as Hn. unfold NormalizeIP.
  destruct (is_nil (To4 ip)) eqn:E; [|done]. rewrite <- Hn.
  apply addr_of_Some in H as [_ H]. unfold is_nil in E. apply bool_decide_eq_true_1 in E.
  destruct f; [naive_solver|]. destruct H as (_ & Hl & _).
  unfold To16. rewrite Hl. done.
Qed.

Lemma NormalizeIP_invalid ip : addr_of ip = None → NormalizeIP ip = [].
Proof.
  intros H. pose proof (To16_nil ip H) as [H4 H6]. unfold NormalizeIP, To4, To16.
  rewrite !bool_decide_false by naive_solver. done.
Qed.

Lemma is_nil_ip_of f x : is_nil (ip_of f x) = false.
Proof. apply bool_decide_false, ip_of_not_nil. Qed.

Lemma fam6_is16 f x : fam6 (is16 (ip_of f x)) = f.
Proof. rewrite is16_ip_of. by destruct f. Qed.

Lemma addr_ok_range f x : addr_ok f x → 0 ≤ x < 2 ^ fam_bits f.
Proof. by intros []. Qed.

(** Every arithmetic step of the package goes through this one. *)
Lemma step_ip f x d :
  addr_ok f x →
  intToIP (ipToInt (ip_of f x) + d) (is16 (ip_of f x)) =
    if bool_decide (0 ≤ x + d < 2 ^ fam_bits f) then ip_of f (x + d) else [].
Proof.
  intros Hx%addr_ok_range. unfold ipToInt. rewrite be_val_ip_of by done.
  by rewrite intToIP_spec, fam6_is16.
Qed.

Lemma NextIP_valid ip f x :
  addr_of ip = Some (f, x) →
  NextIP ip = if bool_decide (x + 1 < 2 ^ fam_bits f) then ip_of f (x + 1) else [].
Proof.
  intros H. pose proof (addr_of_ok _ _ _ H) as Hx. pose proof (addr_ok_range _ _ Hx).
  unfold NextIP. rewrite (NormalizeIP_valid _ _ _ H), is_nil_ip_of, step_ip by done.
  erewrite bool_decide_ext; [done|lia].
Qed.

Lemma PrevIP_valid ip f x :
  addr_of ip = Some (f, x) →
  PrevIP ip = if bool_decide (0 < x) then ip_of f (x - 1) else [].
Proof.
  intros H. pose proof (addr_of_ok _ _ _ H) as Hx. pose proof (addr_ok_range _ _ Hx).
  unfold PrevIP. rewrite (NormalizeIP_valid _ _ _ H), is_nil_ip_of.
  rewrite <- (Z.add_opp_r (ipToInt _)), step_ip by done.
  erewrite bool_decide_ext; [done|lia].
Qed.

Lemma NextIP_invalid ip : addr_of ip = None → NextIP ip = [].
Proof. intros H. unfold NextIP. by rewrite NormalizeIP_invalid. Qed.

Lemma NextIPWithOffset_valid ip f x d :
  addr_of ip = Some (f, x) → 0 ≤ d →
  NextIPWithOffset ip (Some d) =
    if bool_decide (x + d < 2 ^ fam_bits f) then Ok (ip_of f (x + d))
    else Err "IP address overflow".
Proof.
  intros H Hd. pose proof (addr_of_ok _ _ _ H) as Hx. pose proof (addr_ok_range _ _ Hx).
  unfold NextIPWithOffset. rewrite (proj2 (Z.ltb_ge _ _)) by done.
  rewrite (NormalizeIP_valid _ _ _ H), is_nil_ip_of, step_ip by done.
  case_bool_decide as E1; [|by rewrite bool_decide_false by lia].
  rewrite is_nil_ip_of. by rewrite bool_decide_true by lia.
Qed.

Lemma NextIPWithOffset_invalid ip d :
  addr_of ip = None → ∃ e, NextIPWithOffset ip d = Err e.
Proof.
  intros H. unfold NextIPWithOffset. destruct d as [d|]; [|eauto].
  rewrite NormalizeIP_invalid by done. case_match; simpl; eauto.
Qed.

Lemma NextIPWithOffset_neg ip d : d < 0 → NextIPWithOffset ip (Some d) = Err "offset must be non-negative".
Proof. intros Hd. unfold NextIPWithOffset. by rewrite (proj2 (Z.ltb_lt _ _)) by done. Qed.

Lemma fam_len_ne0 f : fam_len f ≠ O.
Proof. by destruct f. Qed.

(** [Cmp] on valid addresses: the order of the numbers within a family, [-2]
    across families. *)
Lemma Cmp_valid a b f x g y :
  addr_of a = Some (f, x) → addr_of b = Some (g, y) →
  Cmp a b = if bool_decide (f = g) then big_Cmp x y else -2.
Proof.
  intros Ha Hb. pose proof (addr_ok_range _ _ (addr_of_ok _ _ _ Ha)).
  pose proof (addr_ok_range _ _ (addr_of_ok _ _ _ Hb)).
  unfold Cmp, ipToInt.
  rewrite (NormalizeIP_valid _ _ _ Ha), (NormalizeIP_valid _ _ _ Hb), !length_ip_of.
  rewrite !be_val_ip_of by done.
  rewrite (bool_decide_false (fam_len f = O)) by apply fam_len_ne0.
  rewrite andb_true_r. by destruct f, g.
Qed.

Lemma Cmp_invalid_l a b : addr_of a = None → Cmp a b = -2.
Proof. intros H. unfold Cmp. rewrite (NormalizeIP_invalid a) by done. simpl. by rewrite andb_false_r. Qed.

Lemma Cmp_invalid_r a b : addr_of b = None → Cmp a b = -2.
Proof.
  intros H. unfold Cmp. rewrite (NormalizeIP_invalid b) by done. simpl.
  by destruct (NormalizeIP a).
Qed.

Lemma big_Cmp_lt x y : big_Cmp x y < 0 ↔ x < y.
Proof. unfold big_Cmp. destruct (Z.compare_spec x y); lia. Qed.
Lemma big_Cmp_gt x y : 0 < big_Cmp x y ↔ y < x.
Proof. unfold big_Cmp. destruct (Z.compare_spec x y); lia. Qed.
Lemma big_Cmp_eq x y : big_Cmp x y = 0 ↔ x = y.
Proof. unfold big_Cmp. destruct (Z.compare_spec x y); lia. Qed.

(** The comparisons of the source, on two addresses of one family. *)
Section same_family.
Context (a b : IP) (f : family) (x y : Z).
Hypothesis Ha : addr_of a = Some (f, x).
Hypothesis Hb : addr_of b = Some (f, y).

Lemma Cmp_same : Cmp a b = big_Cmp x y.
Proof using Ha Hb. rewrite (Cmp_valid _ _ _ _ _ _ Ha Hb). by rewrite bool_decide_true. Qed.

Lemma Cmp_ltb : (Cmp a b <? 0) = (x <? y).
Proof using Ha Hb. rewrite Cmp_same. apply eq_true_iff_eq. rewrite !Z.ltb_lt. apply big_Cmp_lt. Qed.

Lemma Cmp_gtb : (0 <? Cmp a b) = (y <? x).
Proof using Ha Hb. rewrite Cmp_same. apply eq_true_iff_eq. rewrite !Z.ltb_lt. apply big_Cmp_gt. Qed.

Lemma Cmp_eqb : (Cmp a b =? 0) = (x =? y).
Proof using Ha Hb. rewrite Cmp_same. apply eq_true_iff_eq. rewrite !Z.eqb_eq. apply big_Cmp_eq. Qed.

Lemma Cmp_leb : (Cmp a b <=? 0) = (x <=? y).
Proof using Ha Hb.
  rewrite Cmp_same. apply eq_true_iff_eq. rewrite !Z.leb_le.
  pose proof (big_Cmp_gt x y). lia.
Qed.

Lemma Cmp_geb : (0 <=? Cmp a b) = (y <=? x).
Proof using Ha Hb.
  rewrite Cmp_same. apply eq_true_iff_eq. rewrite !Z.leb_le.
  pose proof (big_Cmp_lt x y). lia.
Qed.

Lemma Distance_same :
  Distance a b = if x <=? y then Ok (y - x)
                 else Err "second IP address must not precede first IP address".
Proof using Ha Hb.
  pose proof (addr_ok_range _ _ (addr_of_ok _ _ _ Ha)).
  pose proof (addr_ok_range _ _ (addr_of_ok _ _ _ Hb)).
  unfold Distance, ipToInt.
  rewrite (NormalizeIP_valid _ _ _ Ha), (NormalizeIP_valid _ _ _ Hb), !length_ip_of.
  rewrite !be_val_ip_of by done.
  rewrite (bool_decide_false (fam_len f = O)) by apply fam_len_ne0.
  rewrite bool_decide_true by done. simpl.
  destruct (Z.ltb_spec (y - x) 0), (Z.leb_spec x y); try lia; done.
Qed.
End same_family.

(** The functions of the package see an address only through what it denotes. *)
#[global] Instance ip_equiv_equivalence : Equivalence ip_equiv.
Proof. split; repeat intro; unfold ip_equiv in *; congruence. Qed.

Lemma NormalizeIP_equiv a b : ip_equiv a b → NormalizeIP a = NormalizeIP b.
Proof.
  unfold ip_equiv. intros E. destruct (addr_of b) as [[f x]|] eqn:Hb.
  - by rewrite (NormalizeIP_valid _ _ _ E), (NormalizeIP_valid _ _ _ Hb).
  - by rewrite !NormalizeIP_invalid.
Qed.

#[global] Instance NormalizeIP_proper : Proper (ip_equiv ==> eq) NormalizeIP.
Proof. intros a b. apply NormalizeIP_equiv. Qed.
#[global] Instance NextIP_proper : Proper (ip_equiv ==> eq) NextIP.
Proof. intros a b E. unfold NextIP. by rewrite (NormalizeIP_equiv _ _ E). Qed.
#[global] Instance NextIPWithOffset_proper : Proper (ip_equiv ==> eq ==> eq) NextIPWithOffset.
Proof. intros a b E ? d ->. unfold NextIPWithOffset. by rewrite (NormalizeIP_equiv _ _ E). Qed.
#[global] Instance Cmp_proper : Proper (ip_equiv ==> ip_equiv ==> eq) Cmp.
Proof. intros a b E c d E'. unfold Cmp. by rewrite (NormalizeIP_equiv _ _ E), (NormalizeIP_equiv _ _ E'). Qed.
#[global] Instance Distance_proper : Proper (ip_equiv ==> ip_equiv ==> eq) Distance.
Proof. intros a b E c d E'. unfold Distance. by rewrite (NormalizeIP_equiv _ _ E), (NormalizeIP_equiv _ _ E'). Qed.

Lemma NormalizeIP_idem ip : ip_equiv (NormalizeIP ip) ip.
Proof.
  unfold ip_equiv. destruct (addr_of ip) as [[f x]|] eqn:H.
  - rewrite (NormalizeIP_valid _ _ _ H). apply addr_of_ip_of. by eapply addr_of_ok.
  - by rewrite NormalizeIP_invalid.
Qed.

(** ** Special addresses of a network *)

(** The last usable address: the broadcast address of an ordinary IPv4 network
    is not one. *)
Definition last_addr (f : family) (base ones : Z) : Z :=
  if bool_decide (f = F4) && (ones <? 31)
  then base + net_size f ones - 2 else base + net_size f ones - 1.

Lemma IsPointToPointSubnet_net f base ones :
  0 ≤ ones ≤ fam_bits f →
  IsPointToPointSubnet (net_of f base ones) = (ones =? fam_bits f - 1).
Proof. intros H. unfold IsPointToPointSubnet. simpl. by rewrite Mask_Size_mask. Qed.

Lemma IsSingleIPSubnet_net f base ones :
  0 ≤ ones ≤ fam_bits f → IsSingleIPSubnet (net_of f base ones) = (ones =? fam_bits f).
Proof. intros H. unfold IsSingleIPSubnet. simpl. by rewrite Mask_Size_mask. Qed.

Lemma is_nil_To4_ip_of f x :
  addr_ok f x → is_nil (To4 (ip_of f x)) = bool_decide (f = F6).
Proof.
  intros Hok. destruct f; simpl.
  - rewrite To4_4 by apply length_ip_of. apply is_nil_ip_of.
  - apply addr_of_ip_of, addr_of_Some in Hok as (_ & -> & _). done.
Qed.

Lemma zip_and_ff l m : length m = l → zip_with byte_and (replicate l xff) m = m.
Proof.
  intros <-. induction m as [|b m IH]; simpl; [done|]. f_equal; [|done].
  assert (forallb (λ b, bool_decide (byte_and xff b = b)) all_bytes = true) as H
    by (vm_compute; reflexivity).
  apply (byte_exhaust _ b) in H. by apply bool_decide_eq_true_1 in H.
Qed.

Lemma be_val_mask_loop f n :
  0 ≤ n ≤ fam_bits f → be_val (mask_loop (fam_len f) n) = 2 ^ fam_bits f - net_size f n.
Proof.
  intros Hn. rewrite <- (zip_and_ff (fam_len f) (mask_loop (fam_len f) n)) by apply length_mask_loop.
  rewrite be_val_mask; [|apply length_replicate|by rewrite <- fam_bits_len].
  rewrite <- fam_bits_len. fold (net_size f n).
  assert (be_val (replicate (fam_len f) xff) = 2 ^ fam_bits f - 1) as -> by (by destruct f).
  assert (2 ^ fam_bits f = 2 ^ n * net_size f n) as E.
  { unfold net_size. rewrite <- Z.pow_add_r by lia. f_equal. lia. }
  pose proof (net_size_pos f n ltac:(lia)).
  assert ((2 ^ fam_bits f - 1) mod net_size f n = net_size f n - 1) as ->; [|lia].
  symmetry. apply (Z.mod_unique_pos _ _ (2 ^ n - 1)); lia.
Qed.

(** [IsBroadcast] recognises exactly the broadcast address of an IPv4 network
    that has one. *)
Lemma IsBroadcast_net f base ones ip g x :
  net_ok f base ones → addr_of ip = Some (g, x) →
  IsBroadcast ip (Some (net_of f base ones)) =
    Some (bool_decide (f = F4 ∧ g = F4 ∧ ones < 31 ∧ x = base + net_size f ones - 1)).
Proof.
  intros Hnet Hip. pose proof (net_ok_base _ _ _ Hnet) as Hb. unfold IsBroadcast.
  assert (is_nil (To4 ip) = bool_decide (g = F6)) as ->.
  { apply addr_of_Some in Hip as [_ H]. unfold is_nil. destruct g; apply bool_decide_ext; naive_solver. }
  destruct g; [|rewrite bool_decide_true by done; f_equal; symmetry; apply bool_decide_false; by intros (?&?&?)].
  rewrite bool_decide_false by done. cbn [net_of net_IP]. rewrite (is_nil_To4_ip_of f base Hb).
  destruct f; [|rewrite bool_decide_true by done; f_equal; symmetry; apply bool_decide_false; by intros (?&?&?)].
  rewrite bool_decide_false by done.
  pose proof Hnet as (Ho & Hbb & Hm & _).
  fold (net_of F4 base ones).
  rewrite IsPointToPointSubnet_net, IsSingleIPSubnet_net by done.
  change (fam_bits F4) with 32 in *.
  destruct (Z.eqb_spec ones (32 - 1)) as [->|H31].
  { rewrite orb_comm. cbn [orb]. rewrite bool_decide_false; [done|]. intros (_ & _ & H & _). lia. }
  destruct (Z.eqb_spec ones 32) as [->|H32].
  { rewrite orb_comm. cbn [orb]. rewrite bool_decide_false; [done|]. intros (_ & _ & H & _). lia. }
  cbn [orb]. rewrite (Contains_net_of _ _ _ _ _ _ Hnet Hip).
  pose proof (net_size_pos F4 ones ltac:(simpl; lia)) as Hs.
  case_bool_decide as Hc; cbn [negb]; cycle 1.
  { rewrite bool_decide_false; [done|]. intros (_ & _ & _ & ->). apply Hc. split; [done|lia]. }
  cbn [net_of net_IP net_Mask]. rewrite !To4_4 by (rewrite ?length_ip_of, ?length_mask_loop; done).
  unfold Uint32. rewrite length_ip_of, length_mask_loop. simpl fam_len. unfold IPv4len.
  rewrite !bool_decide_false by lia. cbn [mbind option_bind].
  rewrite !take_ge by (rewrite ?length_ip_of, ?length_mask_loop; done).
  rewrite be_val_ip_of by done.
  pose proof (be_val_mask_loop F4 ones Ho) as Hmv. change (fam_len F4) with 4%nat in Hmv.
  change (fam_bits F4) with 32 in Hmv. rewrite Hmv.
  replace (2 ^ 32 - 1 - (2 ^ 32 - net_size F4 ones)) with (Z.ones (32 - ones))
    by (rewrite Z.ones_equiv; unfold net_size; simpl; lia).
  pose proof (Z.add_lor_land base (Z.ones (32 - ones))) as Hlor.
  rewrite Z.land_ones in Hlor by lia. change (2 ^ (32 - ones)) with (net_size F4 ones) in Hlor.
  rewrite Hm, Z.add_0_r in Hlor.
  assert (Z.ones (32 - ones) = net_size F4 ones - 1) as Hones
    by (rewrite Z.ones_equiv; unfold net_size; simpl; lia).
  rewrite Hlor, Hones.
  replace (base + (net_size F4 ones - 1)) with (base + net_size F4 ones - 1) by lia.
  change (be_bytes 4 ?z) with (ip_of F4 z).
  pose proof (net_ok_addr F4 base ones (base + net_size F4 ones - 1) Hnet ltac:(lia)) as Hl.
  rewrite (IP_Equal_addr _ _ _ _ _ _ Hip (addr_of_ip_of _ _ Hl)).
  f_equal. apply bool_decide_ext. naive_solver lia.
Qed.

Lemma decr_last_val l :
  length l = 4%nat → 0 < be_val l mod 256 → be_val (decr_at 3 l) = be_val l - 1.
Proof.
  destruct l as [|a [|b [|c [|d [|]]]]]; try done. intros _ H.
  unfold decr_at. cbn -[Z.mul Z.add Z.pow byte_val] in *.
  pose proof (byte_val_range d).
  assert (byte_val d > 0).
  { destruct (Z.eq_dec (byte_val d) 0) as [E|]; [|lia]. exfalso. rewrite E in H.
    change (Z.of_nat 3) with 3 in H. change (Z.of_nat 2) with 2 in H.
    change (Z.of_nat 1) with 1 in H. change (Z.of_nat 0) with 0 in H.
    replace (byte_val a * 256 ^ 3 + (byte_val b * 256 ^ 2 + (byte_val c * 256 ^ 1 + (0 * 256 ^ 0 + 0))))
      with ((byte_val a * 256 ^ 2 + byte_val b * 256 + byte_val c) * 256) in H by lia.
    rewrite Z.mod_mul in H; lia. }
  rewrite byte_val_of, Z.mod_small by lia. change (Z.of_nat 0) with 0. lia.
Qed.

(** [LastIP] is the last usable address of the network. *)
Lemma LastIP_net f base ones :
  net_ok f base ones → LastIP (net_of f base ones) = Some (ip_of f (last_addr f base ones)).
Proof.
  intros Hnet. pose proof (net_ok_base _ _ _ Hnet) as Hb.
  pose proof Hnet as (Ho & Hbb & Hm & _). pose proof (net_size_pos f ones ltac:(lia)) as Hs.
  unfold LastIP, last_addr. rewrite IsSingleIPSubnet_net, IsPointToPointSubnet_net by done.
  destruct (Z.eqb_spec ones (fam_bits f)) as [->|H32].
  { simpl. unfold net_size. rewrite Z.sub_diag. change (2 ^ 0) with 1.
    destruct f; simpl; f_equal; f_equal; lia. }
  cbn [net_of net_IP net_Mask].
  rewrite length_ip_of, length_mask_loop, bool_decide_false by lia.
  rewrite is_nil_To4_ip_of by done.
  set (e := zip_with _ _ _).
  assert (length e = fam_len f) as Le.
  { unfold e. rewrite length_zip_with_l_eq; rewrite ?length_ip_of, ?length_mask_loop; done. }
  assert (be_val e = base + net_size f ones - 1) as Ve.
  { unfold e. rewrite be_val_host_bits; [|apply length_ip_of|by rewrite <- fam_bits_len].
    rewrite be_val_ip_of, <- fam_bits_len by done. fold (net_size f ones). lia. }
  pose proof (net_ok_addr _ _ _ (base + net_size f ones - 1) Hnet ltac:(lia)) as [Hlast _].
  assert (e = ip_of f (base + net_size f ones - 1)) as Ee.
  { apply be_val_inj; [by rewrite length_ip_of|]. by rewrite be_val_ip_of. }
  destruct f; simpl; [|by rewrite Ee].
  change (fam_bits F4) with 32 in *.
  destruct (Z.eqb_spec ones (32 - 1)) as [->|H31]; simpl.
  { by rewrite Ee. }
  rewrite (proj2 (Z.ltb_lt ones 31)) by lia. f_equal.
  assert (4 ≤ net_size F4 ones).
  { unfold net_size. change 4 with (2 ^ 2). simpl fam_bits. apply Z.pow_le_mono_r; lia. }
  assert (0 < be_val e mod 256).
  { rewrite Ve. assert (base mod 4 = 0) as Hm4.
    { apply Z.mod_divide; [lia|]. apply Z.divide_trans with (net_size F4 ones).
      - exists (2 ^ (30 - ones)). unfold net_size. simpl fam_bits.
        change 4 with (2 ^ 2). rewrite <- Z.pow_add_r by lia. f_equal. lia.
      - apply Z.mod_divide; [lia|done]. }
    assert (net_size F4 ones mod 4 = 0) as Hs4.
    { apply Z.mod_divide; [lia|]. exists (2 ^ (30 - ones)). unfold net_size. simpl fam_bits.
      change 4 with (2 ^ 2). rewrite <- Z.pow_add_r by lia. f_equal. lia. }
    pose proof (Z.div_mod base 4). pose proof (Z.div_mod (net_size F4 ones) 4).
    set (w := base + net_size F4 ones - 1) in *.
    pose proof (Z.div_mod w 256). pose proof (Z.mod_pos_bound w 256). lia. }
  apply be_val_inj; [unfold decr_at; by rewrite length_alter, length_ip_of|].
  rewrite decr_last_val by done. rewrite be_val_ip_of by (simpl in *; lia). lia.
Qed.

(** ** The subnet iterator *)

Section iterator.
Context (f : family) (base ones p : Z).
Hypothesis Hnet : net_ok f base ones.
Hypothesis Hp : ones ≤ p ≤ fam_bits f.

(** The number of subnets, and the [i]-th of them. *)
Definition sub_count : Z := 2 ^ (p - ones).
Definition sub_base (i : Z) : Z := base + net_size f p * i.
Definition sub_net (i : Z) : IPNet := net_of f (sub_base i) p.

(** The iterator that has produced [i] subnets. *)
Definition iter_at (i : Z) : SubnetIterator := {|
  it_isIPv6 := bool_decide (f = F6);
  it_netBitsTotal := fam_bits f;
  it_prefixSize := p;
  it_networkIPAsInt := base;
  it_subnetIPCount := net_size f p;
  it_subnetCount := sub_count;
  it_nextIndex := i |}.

Lemma big_Exp2_nonneg y : 0 ≤ y → big_Exp2 y = 2 ^ y.
Proof. intros H. unfold big_Exp2. destruct (Z.leb_spec y 0); [|done]. by assert (y = 0) as -> by lia. Qed.

Lemma IP_Mask_base : IP_Mask (ip_of f base) (mask_loop (fam_len f) ones) = ip_of f base.
Proof using Hnet Hp.
  destruct Hnet as (Ho & Hb & Hm & _). unfold IP_Mask.
  rewrite length_mask_loop, length_ip_of.
  rewrite (bool_decide_false (fam_len f = IPv6len ∧ _)) by (by destruct f; intros (?&?&?)).
  rewrite length_mask_loop.
  rewrite (bool_decide_false (fam_len f = IPv4len ∧ _)) by (by destruct f; intros (?&?&?)).
  rewrite length_ip_of, bool_decide_true by done.
  rewrite mask_ip_of by done. by rewrite Hm, Z.sub_0_r.
Qed.

Lemma NewSubnetIterator_net : NewSubnetIterator (Some (net_of f base ones)) p = Ok (iter_at 0).
Proof using Hnet Hp.
  pose proof Hnet as (Ho & Hb & _). pose proof (net_ok_base _ _ _ Hnet) as Hok.
  unfold NewSubnetIterator. cbn [net_of net_IP net_Mask]. rewrite Mask_Size_mask by done.
  assert (negb (fam_bits f =? 32) && negb (fam_bits f =? 128) = false) as -> by (by destruct f).
  rewrite (proj2 (Z.ltb_ge p ones)), (proj2 (Z.ltb_ge (fam_bits f) p)) by lia. cbn [orb].
  assert ((if fam_bits f =? 32 then To4 (ip_of f base)
           else if is_nil (To4 (ip_of f base)) then To16 (ip_of f base) else []) = ip_of f base) as ->.
  { pose proof (is_nil_To4_ip_of f base Hok) as Hn. destruct f; simpl.
    - by rewrite To4_4 by apply length_ip_of.
    - rewrite Hn. unfold To16. rewrite length_ip_of. done. }
  rewrite is_nil_ip_of, IP_Mask_base, IP_Equal_refl. cbn [negb].
  rewrite be_val_ip_of, !big_Exp2_nonneg by lia. unfold iter_at. by destruct f.
Qed.

Lemma sub_size : net_size f ones = net_size f p * sub_count.
Proof using Hnet Hp.
  destruct Hnet as (Ho & _). unfold net_size, sub_count.
  rewrite <- Z.pow_add_r by lia. f_equal. lia.
Qed.

Lemma sub_size_pos : 0 < net_size f p.
Proof using Hp. apply net_size_pos. lia. Qed.

Lemma sub_base_bound i :
  0 ≤ i < sub_count → base ≤ sub_base i ∧ sub_base i + net_size f p ≤ base + net_size f ones.
Proof using Hnet Hp.
  intros Hi. pose proof sub_size_pos. rewrite sub_size. unfold sub_base. nia.
Qed.

Lemma sub_net_ok i : 0 ≤ i < sub_count → net_ok f (sub_base i) p.
Proof using Hnet Hp.
  intros Hi. pose proof (sub_base_bound i Hi) as [Hlo Hhi]. pose proof sub_size_pos.
  pose proof (net_ok_addr _ _ _ (sub_base i) Hnet ltac:(lia)) as [Hr _].
  destruct Hnet as (Ho & Hb & Hm & Hmap). split_and!; [lia..| |].
  - rewrite sub_size in Hm. unfold sub_base.
    apply Z.mod_divide; [lia|]. apply Z.divide_add_r.
    + apply Z.mod_divide in Hm; [|pose proof (net_size_pos f ones); rewrite <- sub_size; lia].
      eapply Z.divide_trans; [|done]. by apply Z.divide_factor_l.
    + apply Z.divide_factor_l.
  - intros Hf x Hx. apply Hmap; [done|lia].
Qed.

Lemma Next_at i :
  0 ≤ i < sub_count →
  SubnetIterator_Next (Some (iter_at i)) = (Some (sub_net i), Some (iter_at (i + 1))).
Proof using Hnet Hp.
  intros Hi. pose proof (sub_net_ok i Hi) as Hok. destruct Hok as (_ & Hr & _).
  cbn [SubnetIterator_Next iter_at it_subnetCount it_nextIndex it_subnetIPCount
    it_networkIPAsInt it_isIPv6 it_prefixSize it_netBitsTotal].
  rewrite (proj2 (Z.leb_gt _ _)) by lia.
  fold (sub_base i). rewrite intToIP_spec.
  replace (fam6 (bool_decide (f = F6))) with f by (by destruct f).
  rewrite bool_decide_true, is_nil_ip_of by done.
  destruct Hnet as (Ho & _). by rewrite CIDRMask_spec by lia.
Qed.

Lemma Next_end i :
  sub_count ≤ i → SubnetIterator_Next (Some (iter_at i)) = (None, Some (iter_at i)).
Proof.
  intros Hi. cbn [SubnetIterator_Next iter_at it_subnetCount it_nextIndex].
  by rewrite (proj2 (Z.leb_le _ _)).
Qed.

Lemma AdvancePastIP_at i e y :
  0 ≤ i ≤ sub_count → addr_of e = Some (f, y) →
  SubnetIterator_AdvancePastIP (Some (iter_at i)) e =
    Ok (Some (iter_at (if y + 1 <? base then i
                       else Z.min sub_count (Z.max i ((y + 1 - base) / net_size f p))))).
Proof using Hnet Hp.
  intros Hi He. pose proof sub_size_pos as Hsp. pose proof Hnet as (Ho & Hb & _).
  pose proof (addr_ok_range _ _ (addr_of_ok _ _ _ He)) as Hy.
  unfold SubnetIterator_AdvancePastIP, iter_at.
  cbn [it_subnetCount it_nextIndex it_subnetIPCount it_networkIPAsInt it_isIPv6].
  assert ((if bool_decide (f = F6) then if is_nil (To4 e) then To16 e else [] else To4 e) = ip_of f y) as ->.
  { pose proof (NormalizeIP_valid _ _ _ He) as Hn. unfold NormalizeIP in Hn.
    apply addr_of_Some in He as [_ He]. unfold is_nil in *. destruct f; simpl.
    - by rewrite bool_decide_false in Hn by naive_solver.
    - rewrite bool_decide_true in * by naive_solver. done. }
  rewrite is_nil_ip_of.
  rewrite (NextIP_valid (ip_of f y) f y) by (rewrite addr_of_ip_of; [done|by eapply addr_of_ok]).
  case_bool_decide as Hov.
  - rewrite is_nil_ip_of. unfold ipToInt. rewrite be_val_ip_of by lia.
    destruct (Z.ltb_spec (y + 1 - base) 0), (Z.ltb_spec (y + 1) base); try lia; [done|].
    rewrite Z.quot_div_nonneg by lia. unfold it_set_nextIndex.
    cbn. do 3 f_equal. repeat case_match; boolify; lia.
  - change (is_nil []) with true. cbv iota. rewrite (proj2 (Z.ltb_ge _ _)) by lia.
    unfold it_set_nextIndex. cbn. do 3 f_equal.
    assert (base + net_size f ones ≤ y + 1) as Hend.
    { assert (y + 1 = 2 ^ fam_bits f) by lia.
      pose proof (net_ok_addr _ _ _ (base + net_size f ones - 1) Hnet) as Hl.
      pose proof (net_size_pos f ones ltac:(lia)). destruct Hl as [Hl _]; lia. }
    rewrite sub_size in Hend.
    assert (sub_count ≤ (y + 1 - base) / net_size f p); [|lia].
    apply Z.div_le_lower_bound; lia.
Qed.
End iterator.

(** ** Properties *)

(** [n] calls of [Next]. *)
Fixpoint take_subnets (n : nat) (i : option SubnetIterator) : list (option IPNet) :=
  match n with
  | O => []
  | S n => let '(r, i') := SubnetIterator_Next i in r :: take_subnets n i'
  end.

(** However often the iterator is called: a subnet while there is one, then [nil] for ever. *)
Lemma take_subnets_at f base ones p n i :
  net_ok f base ones → ones ≤ p ≤ fam_bits f → 0 ≤ i →
  take_subnets n (Some (iter_at f base ones p i)) =
    map (λ j, if j <? sub_count ones p then Some (sub_net f base p j) else None) (seqZ i (Z.of_nat n)).
Proof.
  intros Hnet Hp. revert i; induction n as [|n IH]; intros i Hi; [done|]. rewrite (seqZ_cons i) by lia.
  cbn [take_subnets map]. destruct (Z.ltb_spec i (sub_count ones p)) as [Hc|Hc].
  - rewrite Next_at by (done || lia). rewrite IH by lia. do 3 f_equal; lia.
  - rewrite Next_end by lia. rewrite IH by lia. f_equal. replace (Z.pred (Z.of_nat (S n))) with (Z.of_nat n) by lia.
    assert (∀ k, sub_count ones p ≤ k → map (λ j, if j <? sub_count ones p then Some (sub_net f base p j) else None)
      (seqZ k (Z.of_nat n)) = replicate n None) as Hnil; [|rewrite !Hnil by lia; done].
    clear -Hc. induction n as [|n IH]; intros k Hk; [done|]. rewrite (seqZ_cons k) by lia. cbn [map replicate].
    replace (Z.pred (Z.of_nat (S n))) with (Z.of_nat n) by lia. rewrite IH by lia. by rewrite (proj2 (Z.ltb_ge _ _)).
Qed.

(** [NextIP] is the immediate successor: unless the address is the last one
    of its family it returns an address greater than its argument with no
    address of the family strictly between, from which [PrevIP] leads back; on
    the last address it returns [nil]. *)
Theorem next_ip_successor ip f x :
  addr_of ip = Some (f, x) →
  (NextIP ip = [] ↔ x = 2 ^ fam_bits f - 1) ∧
  (addr_ok f (x + 1) →
     addr_of (NextIP ip) = Some (f, x + 1) ∧
     Cmp ip (NextIP ip) = -1 ∧
     PrevIP (NextIP ip) = NormalizeIP ip ∧
     ∀ other, (∃ z, addr_of other = Some (f, z)) →
       ¬ (Cmp ip other < 0 ∧ Cmp other (NextIP ip) < 0)).
Proof.
  intros H. pose proof (addr_ok_range _ _ (addr_of_ok _ _ _ H)) as Hx.
  rewrite (NextIP_valid _ _ _ H). split.
  - case_bool_decide; split; intros E; [by apply ip_of_not_nil in E|exfalso; lia|lia|done].
  - intros Hok. pose proof (addr_ok_range _ _ Hok). rewrite bool_decide_true by lia.
    pose proof (addr_of_ip_of _ _ Hok) as H'. split_and!; [done| | |].
    + rewrite (Cmp_same _ _ _ _ _ H H'). unfold big_Cmp.
      by rewrite (proj2 (Z.compare_lt_iff x (x + 1))) by lia.
    + rewrite (PrevIP_valid _ _ _ H'), bool_decide_true, (NormalizeIP_valid _ _ _ H) by lia.
      f_equal. lia.
    + intros other [z Hz]. rewrite (Cmp_same _ _ _ _ _ H Hz), (Cmp_same _ _ _ _ _ Hz H').
      rewrite !big_Cmp_lt. lia.
Qed.

Lemma next_ip_successor_witness :
  addr_of [x0a; x00; x00; xff] = Some (F4, 167772415) ∧
  Cmp [x0a; x00; x00; xff] (NextIP [x0a; x00; x00; xff]) = -1.
Proof.
  split; [reflexivity|].
  apply (next_ip_successor [x0a; x00; x00; xff] F4 167772415 eq_refl).
  split; [|done]. vm_compute. split; [discriminate|reflexivity].
Defined.

(** [Distance] and [NextIPWithOffset] are inverse to each other: on two
    addresses of one family the distance is [d] exactly when moving by [d] from
    the first gives the (normalised) second. *)
Theorem offset_distance_inverse a b f x y d :
  addr_of a = Some (f, x) → addr_of b = Some (f, y) → 0 ≤ d →
  Distance a b = Ok d ↔ NextIPWithOffset a (Some d) = Ok (NormalizeIP b).
Proof.
  intros Ha Hb Hd. pose proof (addr_ok_range _ _ (addr_of_ok _ _ _ Hb)) as Hy.
  rewrite (Distance_same _ _ _ _ _ Ha Hb), (NextIPWithOffset_valid _ _ _ _ Ha Hd).
  rewrite (NormalizeIP_valid _ _ _ Hb).
  pose proof (addr_ok_range _ _ (addr_of_ok _ _ _ Ha)) as Hx.
  destruct (Z.leb_spec x y), (bool_decide (x + d < 2 ^ fam_bits f)) eqn:E; boolify.
  - split; intros [= E'].
    + do 2 f_equal. lia.
    + apply (f_equal be_val) in E'. rewrite !be_val_ip_of in E' by lia. f_equal. lia.
  - split; [|done]. intros [= E']. lia.
  - split; [done|]. intros [= E']. apply (f_equal be_val) in E'.
    rewrite !be_val_ip_of in E' by lia. lia.
  - done.
Qed.

Lemma offset_distance_inverse_witness :
  NextIPWithOffset [x0a; x00; x00; xff] (Some 2) = Ok (NormalizeIP [x0a; x00; x01; x01]).
Proof.
  apply (offset_distance_inverse [x0a; x00; x00; xff] [x0a; x00; x01; x01] F4 167772415 167772417 2);
    [reflexivity..|lia|reflexivity].
Defined.

(** C39: The subnet iterator enumerates a partition of the network: called any number
    of times, it returns the [2^(prefix - ones)] subnets in order, each once, and [nil]
    on every call after that; every subnet lies in the network, and every address of
    the network lies in exactly one of them. *)
Theorem subnet_iterator_partition f base ones p :
  net_ok f base ones → ones ≤ p ≤ fam_bits f →
  ∃ it,
    NewSubnetIterator (Some (net_of f base ones)) p = Ok it ∧
    (∀ n : nat, take_subnets n (Some it) =
       map (λ i, if i <? 2 ^ (p - ones) then Some (sub_net f base p i) else None) (seqZ 0 (Z.of_nat n))) ∧
    (∀ i, 0 ≤ i < 2 ^ (p - ones) → net_ok f (sub_base f base p i) p) ∧
    (∀ ip g x, addr_of ip = Some (g, x) →
       Contains (net_of f base ones) ip = true ↔
       exists! i, 0 ≤ i < 2 ^ (p - ones) ∧ Contains (sub_net f base p i) ip = true).
Proof.
  intros Hnet Hp. exists (iter_at f base ones p 0). split_and!.
  - by apply NewSubnetIterator_net.
  - intros n. apply take_subnets_at; unfold sub_count; auto; lia.
  - intros i Hi. by eapply sub_net_ok.
  - intros ip g x Hip. rewrite (Contains_net_of _ _ _ _ _ _ Hnet Hip), bool_decide_eq_true.
    assert (∀ i, 0 ≤ i < 2 ^ (p - ones) → Contains (sub_net f base p i) ip = true ↔
      g = f ∧ sub_base f base p i ≤ x < sub_base f base p i + net_size f p) as Hsub.
    { intros i Hi. unfold sub_net.
      rewrite (Contains_net_of _ _ _ _ _ _ (sub_net_ok _ _ _ _ Hnet Hp i Hi) Hip).
      apply bool_decide_eq_true. }
    pose proof (sub_size f base ones p Hnet Hp) as Hsz. unfold sub_count in Hsz.
    pose proof (sub_size_pos f ones p Hp) as Hpos. unfold sub_base in *. split.
    + intros [-> Hx]. exists ((x - base) / net_size f p).
      pose proof (Z.div_mod (x - base) (net_size f p) ltac:(lia)).
      pose proof (Z.mod_pos_bound (x - base) (net_size f p) Hpos).
      assert (0 ≤ (x - base) / net_size f p < 2 ^ (p - ones)) as Hq.
      { split; [apply Z.div_pos; lia|]. apply Z.div_lt_upper_bound; lia. }
      split; [split; [done|]; apply Hsub; [done|]; split; [done|lia]|].
      intros j [Hj Hc]. apply Hsub in Hc as [_ Hc]; [|done]. nia.
    + intros (i & [Hi Hc] & _). apply Hsub in Hc as [-> Hc]; [|done]. split; [done|]. nia.
Qed.

Lemma subnet_iterator_partition_witness :
  net_ok F4 167772160 24 ∧
  ∃ it, NewSubnetIterator (Some (net_of F4 167772160 24)) 26 = Ok it ∧
    take_subnets 6 (Some it) = [Some (net_of F4 167772160 26); Some (net_of F4 167772224 26);
      Some (net_of F4 167772288 26); Some (net_of F4 167772352 26); None; None].
Proof.
  assert (net_ok F4 167772160 24) as Hok by (split_and!; try done; simpl; lia).
  split; [done|].
  destruct (subnet_iterator_partition F4 167772160 24 26 Hok) as (it & H1 & H2 & _); [simpl; lia|].
  exists it. split; [done|]. apply (H2 6%nat).
Defined.

(** [AdvancePastIP] skips exactly the subnets that end at or before the
    given address: from an iterator at index [i] it succeeds, never moves
    backwards, and a subnet [j >= i] is skipped if and only if its last address
    does not exceed the given one. *)
Theorem advance_past_exact f base ones p i e y :
  net_ok f base ones → ones ≤ p ≤ fam_bits f →
  0 ≤ i ≤ 2 ^ (p - ones) → addr_of e = Some (f, y) →
  ∃ i', SubnetIterator_AdvancePastIP (Some (iter_at f base ones p i)) e =
          Ok (Some (iter_at f base ones p i')) ∧
        i ≤ i' ≤ 2 ^ (p - ones) ∧
        ∀ j, i ≤ j < 2 ^ (p - ones) →
          j < i' ↔ sub_base f base p j + net_size f p - 1 ≤ y.
Proof.
  intros Hnet Hp Hi He. pose proof (sub_size_pos f ones p Hp) as Hpos.
  eexists. split; [by apply AdvancePastIP_at|]. unfold sub_count, sub_base.
  pose proof (Z.div_mod (y + 1 - base) (net_size f p) ltac:(lia)).
  pose proof (Z.mod_pos_bound (y + 1 - base) (net_size f p) Hpos).
  destruct (Z.ltb_spec (y + 1) base); split; [lia|intros j Hj; nia|lia|].
  intros j Hj. split; [|nia]. intros Hlt.
  assert (j < (y + 1 - base) / net_size f p) by lia. nia.
Qed.

Lemma advance_past_exact_witness :
  ∃ i', SubnetIterator_AdvancePastIP (Some (iter_at F4 167772160 24 26 0)) [x0a; x00; x00; x7f] =
    Ok (Some (iter_at F4 167772160 24 26 i')) ∧ 1 < i'.
Proof.
  destruct (advance_past_exact F4 167772160 24 26 0 [x0a; x00; x00; x7f] 167772287)
    as (i' & H1 & _ & H2); [split_and!; try done; simpl; lia|simpl; lia..|reflexivity|].
  exists i'. split; [exact H1|]. apply H2; [|vm_compute]; [lia|discriminate].
Defined.



(** An IPv4-mapped IPv6 network has a 16-byte mask whose [To4] is [nil]:
    [binary.BigEndian.Uint32] then indexes an empty slice. *)
Example IsBroadcast_mapped_panics :
  IsBroadcast [x0a; x00; x00; x01]
    (Some (mkIPNet (v4InV6Prefix ++ [x0a; x00; x00; x00]) (CIDRMask 120 128))) = None.
Proof. reflexivity. Qed.
