(* ===== verification/GoNetText.v ===== *)
(** * The text forms of addresses and networks

    Pool specifications, statuses and store entries carry addresses as text, so
    the program's behaviour depends on [net.ParseIP], [net.ParseCIDR],
    [IP.String] and [IPNet.String].  They are modelled here character by
    character (with [netip.ParseAddr] underneath, as in the standard library),
    and parsing is proved to be a left inverse of printing. *)

From Stdlib Require Import Strings.Byte Strings.Ascii.
From S2P Require Import Prelude GoNet Cidr.

(** ** Characters *)

Definition char_val (c : ascii) : Z := Z.of_N (N_of_ascii c).

Definition dec_val (c : ascii) : option Z :=
  let v := char_val c in
  if (48 <=? v) && (v <=? 57) then Some (v - 48) else None.

Definition hex_val (c : ascii) : option Z :=
  let v := char_val c in
  if (48 <=? v) && (v <=? 57) then Some (v - 48)
  else if (97 <=? v) && (v <=? 102) then Some (v - 97 + 10)
  else if (65 <=? v) && (v <=? 70) then Some (v - 65 + 10)
  else None.

Definition digit_char (d : Z) : ascii :=
  ascii_of_N (Z.to_N (if d <? 10 then 48 + d else 87 + d)).

Definition dot : ascii := ".".
Definition colon : ascii := ":".
Definition percent : ascii := "%".
Definition slash : ascii := "/".
Definition dquote : ascii := "034".

Definition quoted (s : string) : string := String dquote (s +:+ String dquote "").

(** ** Printing *)

(** [appendDecimal] for values below 1000. *)
Definition dec_string (x : Z) : string :=
  let d0 := String (digit_char (x mod 10)) "" in
  let d1 := if 10 <=? x then String (digit_char (x / 10 mod 10)) d0 else d0 in
  if 100 <=? x then String (digit_char (x / 100)) d1 else d1.

(** [appendHex] of a 16-bit group: no leading zeroes. *)
Definition hex_string (x : Z) : string :=
  let d0 := String (digit_char (x mod 16)) "" in
  let d1 := if 16 <=? x then String (digit_char (x / 16 mod 16)) d0 else d0 in
  let d2 := if 256 <=? x then String (digit_char (x / 256 mod 16)) d1 else d1 in
  if 4096 <=? x then String (digit_char (x / 4096)) d2 else d2.

Definition string4 (ip : list byte) : string :=
  match ip with
  | [a; b; c; d] =>
      dec_string (byte_val a) +:+ String dot (dec_string (byte_val b) +:+ String dot
        (dec_string (byte_val c) +:+ String dot (dec_string (byte_val d))))
  | _ => ""
  end.

(** The eight 16-bit groups of a 16-byte address. *)
Fixpoint groups (ip : list byte) : list Z :=
  match ip with
  | hi :: lo :: ip => (byte_val hi * 256 + byte_val lo) :: groups ip
  | _ => []
  end.

(** The number of zero groups from the head. *)
Fixpoint zeros_from (gs : list Z) : nat :=
  match gs with
  | g :: gs => if g =? 0 then S (zeros_from gs) else O
  | [] => O
  end.

(** The longest run of at least two zero groups, the first one among equals. *)
Fixpoint zero_run (i : nat) (gs : list Z) (zs ze : nat) : nat * nat :=
  match gs with
  | [] => (zs, ze)
  | _ :: gs' =>
      let l := zeros_from gs in
      if bool_decide (2 ≤ l)%nat && bool_decide (ze - zs < l)%nat
      then zero_run (S i) gs' i (i + l) else zero_run (S i) gs' zs ze
  end.

Fixpoint join_groups (gs : list Z) : string :=
  match gs with
  | [] => ""
  | [g] => hex_string g
  | g :: gs => hex_string g +:+ String colon (join_groups gs)
  end.

Definition string6 (ip : list byte) : string :=
  let gs := groups ip in
  let '(zs, ze) := zero_run 0 gs 255 255 in
  if bool_decide (ze ≤ 8)%nat
  then join_groups (take zs gs) +:+ String colon (String colon (join_groups (drop ze gs)))
  else join_groups gs.

Definition hex_byte (b : byte) : string :=
  String (digit_char (byte_val b / 16)) (String (digit_char (byte_val b mod 16)) "").

Fixpoint hexString (l : list byte) : string :=
  match l with [] => "" | b :: l => hex_byte b +:+ hexString l end.

(** [IP.String] *)
Definition IP_String (ip : IP) : string :=
  if bool_decide (length ip = O) then "<nil>"
  else if negb (bool_decide (length ip = IPv4len)) && negb (bool_decide (length ip = IPv6len))
  then String "?" (hexString ip)
  else if negb (is_nil (To4 ip)) then string4 (To4 ip)
  else string6 ip.

(** [IPNet.String] *)
Definition IPNet_String (n : IPNet) : string :=
  let '(nn, m) := networkNumberAndMask n in
  if is_nil nn || is_nil m then "<nil>"
  else
    let l := simpleMaskLength m in
    if l =? -1 then IP_String nn +:+ String slash (hexString m)
    else IP_String nn +:+ String slash (dec_string l).

(** ** Parsing *)

(** [parseIPv4Fields]: [first] is [i == 0], [prevdot] is [s[i-1] == '.']. *)
Fixpoint parse4_loop (s : string) (first prevdot : bool) (val digLen : Z) (pos : nat)
    (fields : list byte) : option (list byte) :=
  match s with
  | EmptyString =>
      if bool_decide (pos < 3)%nat then None else Some (fields ++ [byte_of val])
  | String c s' =>
      match dec_val c with
      | Some d =>
          if (digLen =? 1) && (val =? 0) then None
          else
            let val := val * 10 + d in
            if 255 <? val then None
            else parse4_loop s' false false val (digLen + 1) pos fields
      | None =>
          if bool_decide (c = dot) then
            if first || bool_decide (s' = EmptyString) || prevdot then None
            else if bool_decide (pos = 3%nat) then None
            else parse4_loop s' false true 0 0 (S pos) (fields ++ [byte_of val])
          else None
      end
  end.

Definition parseIPv4 (s : string) : option (list byte) := parse4_loop s true false 0 0 0 [].

(** The hex number at the head of [s]: its digit count, its value, the rest. *)
Fixpoint hex_run (s : string) (off : nat) (acc : Z) : option (nat * Z * string) :=
  match s with
  | EmptyString => Some (off, acc, s)
  | String c s' =>
      match hex_val c with
      | None => Some (off, acc, s)
      | Some d =>
          let acc := acc * 16 + d in
          if bool_decide (3 < off)%nat then None
          else if 65535 <? acc then None
          else hex_run s' (S off) acc
      end
  end.

Definition group_bytes (g : Z) : list byte := [byte_of (g / 256); byte_of g].

(** The main loop of [parseIPv6]: [ip] holds the bytes read so far (its length
    is the source's [i]); [fuel] is the number of two-byte steps that fit in 16
    bytes, so running out of it is the exit [i >= 16]. *)
Fixpoint parse6_loop (fuel : nat) (s : string) (ip : list byte) (ellipsis : option nat) :
    option (string * list byte * option nat) :=
  match fuel with
  | O => Some (s, ip, ellipsis)
  | S fuel =>
      match hex_run s 0 0 with
      | None => None
      | Some (off, acc, rest) =>
          if bool_decide (off = O) then None
          else
            match rest with
            | EmptyString => Some (EmptyString, ip ++ group_bytes acc, ellipsis)
            | String c s1 =>
                if bool_decide (c = dot) then
                  if bool_decide (ellipsis = None) && negb (bool_decide (length ip = 12%nat)) then None
                  else if bool_decide (16 < length ip + 4)%nat then None
                  else
                    match parseIPv4 s with
                    | None => None
                    | Some fields => Some (EmptyString, ip ++ fields, ellipsis)
                    end
                else if negb (bool_decide (c = colon)) then None
                else
                  let ip := ip ++ group_bytes acc in
                  match s1 with
                  | EmptyString => None
                  | String c1 s2 =>
                      if bool_decide (c1 = colon) then
                        match ellipsis with
                        | Some _ => None
                        | None =>
                            if bool_decide (s2 = EmptyString)
                            then Some (EmptyString, ip, Some (length ip))
                            else parse6_loop fuel s2 ip (Some (length ip))
                        end
                      else parse6_loop fuel s1 ip ellipsis
                  end
            end
      end
  end.

Fixpoint str_has (c : ascii) (s : string) : bool :=
  match s with
  | EmptyString => false
  | String c' s => bool_decide (c = c') || str_has c s
  end.

(** What follows the loop: the whole string is used, the ellipsis expands. *)
Definition parse6_finish (r : option (string * list byte * option nat)) : option (list byte) :=
  match r with
  | None => None
  | Some (s, ip, ellipsis) =>
      if negb (bool_decide (s = EmptyString)) then None
      else if bool_decide (length ip < 16)%nat then
        match ellipsis with
        | None => None
        | Some e => Some (take e ip ++ replicate (16 - length ip) x00 ++ drop e ip)
        end
      else match ellipsis with Some _ => None | None => Some ip end
  end.

(** [parseIPv6], for the callers that reject a zone. *)
Definition parseIPv6 (s : string) : option (list byte) :=
  if str_has percent s then None
  else
    match s with
    | String c0 (String c1 s') =>
        if bool_decide (c0 = colon) && bool_decide (c1 = colon) then
          if bool_decide (s' = EmptyString) then Some (replicate 16 x00)
          else parse6_finish (parse6_loop 8 s' [] (Some O))
        else parse6_finish (parse6_loop 8 s [] None)
    | _ => parse6_finish (parse6_loop 8 s [] None)
    end.

(** [netip.ParseAddr]: the first separator decides the family.  The result has
    4 or 16 bytes. *)
Fixpoint ParseAddr_scan (s whole : string) : option (list byte) :=
  match s with
  | EmptyString => None
  | String c s =>
      if bool_decide (c = dot) then parseIPv4 whole
      else if bool_decide (c = colon) then parseIPv6 whole
      else if bool_decide (c = percent) then None
      else ParseAddr_scan s whole
  end.

Definition ParseAddr (s : string) : option (list byte) := ParseAddr_scan s s.

(** [net.ParseIP]: 16 bytes, or [nil]. *)
Definition ParseIP (s : string) : IP :=
  match ParseAddr s with Some a => To16 a | None => [] end.

(** [strings.Cut] around one character. *)
Fixpoint str_cut (sep : ascii) (s : string) : option (string * string) :=
  match s with
  | EmptyString => None
  | String c s =>
      if bool_decide (c = sep) then Some (EmptyString, s)
      else match str_cut sep s with Some (a, b) => Some (String c a, b) | None => None end
  end.

(** [dtoi] on a string that must be all digits: [big] is [0xFFFFFF]. *)
Fixpoint dtoi_loop (s : string) (n : Z) : option Z :=
  match s with
  | EmptyString => Some n
  | String c s =>
      match dec_val c with
      | None => None
      | Some d => let n := n * 10 + d in if 16777215 <=? n then None else dtoi_loop s n
      end
  end.

Definition dtoi (s : string) : option Z :=
  if bool_decide (s = EmptyString) then None else dtoi_loop s 0.

(** [net.ParseCIDR]; [None] is the error. *)
Definition ParseCIDR (s : string) : option (IP * IPNet) :=
  match str_cut slash s with
  | None => None
  | Some (addr, mask) =>
      match ParseAddr addr with
      | None => None
      | Some a =>
          match dtoi mask with
          | None => None
          | Some n =>
              let bits := 8 * Z.of_nat (length a) in
              if bits <? n then None
              else
                let m := CIDRMask n bits in
                let addr16 := To16 a in
                Some (addr16, mkIPNet (IP_Mask addr16 m) m)
          end
      end
  end.

Example parse_v4 : ParseIP "10.0.0.255" = v4InV6Prefix ++ [x0a; x00; x00; xff].
Proof. reflexivity. Qed.
Example parse_v4_leading_zero : ParseIP "10.0.0.01" = [].
Proof. reflexivity. Qed.
Example parse_v6 : IP_String (ParseIP "fd52:2EB5:44:0:0::1") = "fd52:2eb5:44::1".
Proof. reflexivity. Qed.
Example parse_v6_mapped : IP_String (ParseIP "::ffff:1.2.3.4") = "1.2.3.4".
Proof. reflexivity. Qed.
Example parse_v6_bad : ParseIP "1:2:3:4:5:6:7::" ≠ [] ∧ ParseIP "1:2:3:4:5:6:7::8" = [] ∧ ParseIP "1::2::3" = [] ∧ ParseIP "1:2:3:4:5:6:7:8:9" = [].
Proof. vm_compute. done. Qed.
Example parse_cidr : IPNet_String <$> (snd <$> ParseCIDR "192.168.1.77/24") = Some "192.168.1.0/24".
Proof. reflexivity. Qed.
Example parse_cidr6 : IPNet_String <$> (snd <$> ParseCIDR "fd52:2eb5:44::5/48") = Some "fd52:2eb5:44::/48".
Proof. reflexivity. Qed.

(** ** Round trip of IPv4 text *)

Lemma str_app_nil_r s : s +:+ "" = s.
Proof. induction s; simpl; [done|]. unfold String.app in *. simpl. by f_equal. Qed.

Lemma str_app_assoc a b c : (a +:+ b) +:+ c = a +:+ (b +:+ c).
Proof. unfold String.app. induction a; simpl; congruence. Qed.

Lemma str_cons_app c a b : String c a +:+ b = String c (a +:+ b).
Proof. done. Qed.

Lemma str_nil_app b : "" +:+ b = b.
Proof. done. Qed.

(** The number of digits printed. *)
Definition dec_len (b : byte) : Z :=
  if 100 <=? byte_val b then 3 else if 10 <=? byte_val b then 2 else 1.

Lemma parse4_byte b s first pos fields :
  parse4_loop (dec_string (byte_val b) +:+ s) first false 0 0 pos fields =
  parse4_loop s false false (byte_val b) (dec_len b) pos fields.
Proof. destruct b; reflexivity. Qed.

Lemma parse4_byte_dot b s pos fields :
  parse4_loop (dec_string (byte_val b) +:+ s) false true 0 0 pos fields =
  parse4_loop s false false (byte_val b) (dec_len b) pos fields.
Proof. destruct b; reflexivity. Qed.

Lemma dec_string_ne b s : dec_string (byte_val b) +:+ s ≠ "".
Proof. by destruct b. Qed.

Lemma parse4_dot b s val len pos fields :
  (pos < 3)%nat →
  parse4_loop (String dot (dec_string (byte_val b) +:+ s)) false false val len pos fields =
  parse4_loop (dec_string (byte_val b) +:+ s) false true 0 0 (S pos) (fields ++ [byte_of val]).
Proof.
  intros Hp. cbn [parse4_loop]. change (dec_val dot) with (@None Z). cbv iota.
  rewrite (bool_decide_true (dot = dot)) by done.
  rewrite (bool_decide_false (_ +:+ _ = _)) by apply dec_string_ne.
  by rewrite (bool_decide_false (pos = 3%nat)) by lia.
Qed.

Lemma parseIPv4_string4 ip : length ip = 4%nat → parseIPv4 (string4 ip) = Some ip.
Proof.
  destruct ip as [|a [|b [|c [|d [|]]]]]; try done. intros _.
  unfold parseIPv4, string4.
  rewrite parse4_byte, parse4_dot by lia.
  rewrite parse4_byte_dot, parse4_dot by lia.
  rewrite <- (str_app_nil_r (dec_string (byte_val d))).
  rewrite parse4_byte_dot, parse4_dot by lia.
  rewrite parse4_byte_dot. cbn [parse4_loop]. rewrite bool_decide_false by lia.
  by rewrite !byte_of_val.
Qed.

Lemma ParseAddr_scan_byte b s w :
  ParseAddr_scan (dec_string (byte_val b) +:+ s) w = ParseAddr_scan s w.
Proof. by destruct b. Qed.

Lemma ParseAddr_string4 ip : length ip = 4%nat → ParseAddr (string4 ip) = Some ip.
Proof.
  intros Hl. rewrite <- (parseIPv4_string4 ip Hl) at 1. unfold ParseAddr.
  set (w := string4 ip) at 2 3. destruct ip as [|a [|b [|c [|d [|]]]]]; try done.
  unfold string4. by rewrite ParseAddr_scan_byte.
Qed.

(** ** Round trip of IPv6 text *)

Lemma hex_val_digit d : 0 ≤ d < 16 → hex_val (digit_char d) = Some d.
Proof.
  intros Hd.
  assert (forallb (λ d, bool_decide (hex_val (digit_char d) = Some d)) (seqZ 0 16) = true) as H
    by (vm_compute; reflexivity).
  rewrite forallb_forall in H. specialize (H d). rewrite bool_decide_eq_true in H.
  apply H, list_elem_of_In, elem_of_seqZ. lia.
Qed.

(** The text after a hex number: it does not continue the number. *)
Definition no_hex (s : string) : Prop :=
  match s with EmptyString => True | String c _ => hex_val c = None end.

Lemma hex_run_stop s off acc : no_hex s → hex_run s off acc = Some (off, acc, s).
Proof. destruct s as [|c s]; simpl; [done|]. by intros ->. Qed.

Lemma hex_run_digit d s off acc :
  0 ≤ d < 16 → (off ≤ 3)%nat → 0 ≤ acc < 4096 →
  hex_run (String (digit_char d) s) off acc = hex_run s (S off) (acc * 16 + d).
Proof.
  intros Hd Ho Ha. simpl. rewrite hex_val_digit by done.
  rewrite bool_decide_false by lia. by rewrite (proj2 (Z.ltb_ge 65535 _)) by lia.
Qed.

Ltac group_lia := Z.div_mod_to_equations; lia.

Lemma hex_run_group g s :
  0 ≤ g < 65536 → no_hex s → ∃ off, off ≠ O ∧ hex_run (hex_string g +:+ s) 0 0 = Some (off, g, s).
Proof.
  intros Hg Hs. unfold hex_string.
  destruct (Z.leb_spec 4096 g), (Z.leb_spec 256 g), (Z.leb_spec 16 g); try lia;
    rewrite !str_cons_app, str_nil_app.
  - exists 4%nat. split; [done|]. rewrite !hex_run_digit by group_lia.
    rewrite hex_run_stop by done. do 3 f_equal. group_lia.
  - exists 3%nat. split; [done|]. rewrite !hex_run_digit by group_lia.
    rewrite hex_run_stop by done. do 3 f_equal. group_lia.
  - exists 2%nat. split; [done|]. rewrite !hex_run_digit by group_lia.
    rewrite hex_run_stop by done. do 3 f_equal. group_lia.
  - exists 1%nat. split; [done|]. rewrite !hex_run_digit by group_lia.
    rewrite hex_run_stop by done. do 3 f_equal. group_lia.
Qed.

Lemma hex_string_cons g : 0 ≤ g < 65536 →
  ∃ d s, hex_string g = String (digit_char d) s ∧ 0 ≤ d < 16.
Proof.
  intros Hg. unfold hex_string. repeat case_match; boolify; eexists _, _; (split; [done|]); group_lia.
Qed.

(** A property of characters that all hex digits have holds along a group. *)
Lemma hex_string_chars (P : ascii → bool) g :
  0 ≤ g < 65536 → (∀ d, 0 ≤ d < 16 → P (digit_char d) = true) →
  ∀ c, str_has c (hex_string g) = true → P c = true.
Proof.
  intros Hg HP c. unfold hex_string.
  repeat case_match; boolify; simpl; rewrite ?orb_true_iff, ?bool_decide_eq_true; intros Hc;
    destruct_or?; subst; try done; apply HP; group_lia.
Qed.

Lemma digit_char_neq d c : 0 ≤ d < 16 → hex_val c = None → digit_char d ≠ c.
Proof. intros Hd Hc <-. by rewrite hex_val_digit in Hc. Qed.

Definition groups_ok (gs : list Z) : Prop := Forall (λ g, 0 ≤ g < 65536) gs.

Fixpoint groups_bytes (gs : list Z) : list byte :=
  match gs with [] => [] | g :: gs => group_bytes g ++ groups_bytes gs end.

Lemma length_groups_bytes gs : length (groups_bytes gs) = (2 * length gs)%nat.
Proof. induction gs as [|g gs IH]; simpl; [done|]. rewrite IH. lia. Qed.

Lemma groups_bytes_app a b : groups_bytes (a ++ b) = groups_bytes a ++ groups_bytes b.
Proof. induction a as [|g a IH]; simpl; [done|]. by rewrite IH. Qed.

Lemma groups_spec n ip :
  length ip = (2 * n)%nat →
  groups_ok (groups ip) ∧ length (groups ip) = n ∧ groups_bytes (groups ip) = ip.
Proof.
  revert ip; induction n as [|n IH]; intros [|hi [|lo ip]]; simpl; try lia.
  { intros _. split_and!; [constructor|done..]. }
  intros [= Hl]. destruct (IH ip ltac:(lia)) as (H1 & H2 & H3).
  pose proof (byte_val_range hi). pose proof (byte_val_range lo).
  split_and!; [constructor; [lia|done]|lia|].
  rewrite H3. f_equal; [|f_equal].
  - rewrite Z.div_add_l, (Z.div_small (byte_val lo)), Z.add_0_r by lia. apply byte_of_val.
  - apply byte_val_inj. rewrite byte_val_of, Z.add_comm, Z.mod_add by lia. apply Z.mod_small. lia.
Qed.

(** Tails that may follow a list of groups. *)
Definition tail_ok (t : string) : Prop :=
  t = "" ∨ ∃ t', t = String colon (String colon t').

Lemma tail_no_hex t : tail_ok t → no_hex t.
Proof. intros [->|[t' ->]]; done. Qed.

Lemma bool_decide_colon_digit d : 0 ≤ d < 16 → bool_decide (digit_char d = colon) = false.
Proof. intros Hd. apply bool_decide_false, digit_char_neq; done. Qed.

Lemma join_groups_cons g g' gs :
  join_groups (g :: g' :: gs) = hex_string g +:+ String colon (join_groups (g' :: gs)).
Proof. done. Qed.

Lemma join_groups_head g gs t :
  0 ≤ g < 65536 → ∃ d s, join_groups (g :: gs) +:+ t = String (digit_char d) s ∧ 0 ≤ d < 16.
Proof.
  intros Hg. destruct (hex_string_cons g Hg) as (d & s & E & Hd).
  destruct gs as [|g' gs]; simpl; rewrite E, ?str_cons_app; eauto.
Qed.

(** One group followed by a colon and another group. *)
Lemma parse6_group_more fuel g g' gs t ip e :
  0 ≤ g < 65536 → 0 ≤ g' < 65536 →
  parse6_loop (S fuel) (join_groups (g :: g' :: gs) +:+ t) ip e =
  parse6_loop fuel (join_groups (g' :: gs) +:+ t) (ip ++ group_bytes g) e.
Proof.
  intros Hg Hg'. rewrite join_groups_cons, str_app_assoc, str_cons_app.
  destruct (hex_run_group g (String colon (join_groups (g' :: gs) +:+ t)) Hg) as (off & Ho & E); [done|].
  cbn [parse6_loop]. rewrite E, (bool_decide_false (off = O)) by done.
  rewrite (bool_decide_false (colon = dot)), (bool_decide_true (colon = colon)) by done.
  cbn [negb]. destruct (join_groups_head g' gs t Hg') as (d & s & -> & Hd).
  by rewrite bool_decide_colon_digit by done.
Qed.

(** The last group before the end of the text. *)
Lemma parse6_group_end fuel g ip e :
  0 ≤ g < 65536 →
  parse6_loop (S fuel) (join_groups [g]) ip e = Some ("", ip ++ group_bytes g, e).
Proof.
  intros Hg. destruct (hex_run_group g "" Hg) as (off & Ho & E); [done|].
  rewrite str_app_nil_r in E. simpl join_groups.
  cbn [parse6_loop]. by rewrite E, (bool_decide_false (off = O)) by done.
Qed.

(** The last group before an ellipsis. *)
Lemma parse6_group_ellipsis fuel g t ip :
  0 ≤ g < 65536 →
  parse6_loop (S fuel) (join_groups [g] +:+ String colon (String colon t)) ip None =
  if bool_decide (t = "")
  then Some ("", ip ++ group_bytes g, Some (length (ip ++ group_bytes g)))
  else parse6_loop fuel t (ip ++ group_bytes g) (Some (length (ip ++ group_bytes g))).
Proof.
  intros Hg. simpl join_groups.
  destruct (hex_run_group g (String colon (String colon t)) Hg) as (off & Ho & E); [done|].
  cbn [parse6_loop]. rewrite E, (bool_decide_false (off = O)) by done.
  rewrite (bool_decide_false (colon = dot)), (bool_decide_true (colon = colon)) by done.
  done.
Qed.

Lemma parse6_groups_end n g gs ip e :
  groups_ok (g :: gs) → (length gs ≤ n)%nat →
  parse6_loop (S n) (join_groups (g :: gs)) ip e = Some ("", ip ++ groups_bytes (g :: gs), e).
Proof.
  revert n g ip. induction gs as [|g' gs IH]; intros n g ip Hok Hn.
  - apply Forall_cons in Hok as [Hg _]. rewrite parse6_group_end by done.
    simpl groups_bytes. done.
  - apply Forall_cons in Hok as [Hg Hok]. pose proof Hok as [Hg' _]%Forall_cons.
    destruct n as [|n]; [simpl in Hn; lia|].
    rewrite <- (str_app_nil_r (join_groups _)), parse6_group_more by done.
    rewrite str_app_nil_r, IH by (done || (simpl in Hn; lia)).
    simpl. by rewrite <- app_assoc.
Qed.

Lemma parse6_groups_ellipsis n g gs t ip :
  groups_ok (g :: gs) → (length gs ≤ n)%nat →
  parse6_loop (S n) (join_groups (g :: gs) +:+ String colon (String colon t)) ip None =
  let ip' := ip ++ groups_bytes (g :: gs) in
  if bool_decide (t = "") then Some ("", ip', Some (length ip'))
  else parse6_loop (n - length gs) t ip' (Some (length ip')).
Proof.
  revert n g ip. induction gs as [|g' gs IH]; intros n g ip Hok Hn.
  - apply Forall_cons in Hok as [Hg _]. rewrite parse6_group_ellipsis by done.
    simpl groups_bytes. by rewrite Nat.sub_0_r.
  - apply Forall_cons in Hok as [Hg Hok]. pose proof Hok as [Hg' _]%Forall_cons.
    destruct n as [|n]; [simpl in Hn; lia|].
    rewrite parse6_group_more by done.
    rewrite IH by (done || (simpl in Hn; lia)).
    cbn [groups_bytes length Nat.sub]. by rewrite <- app_assoc.
Qed.

Lemma str_has_app c a b : str_has c (a +:+ b) = str_has c a || str_has c b.
Proof.
  induction a as [|c' a IH]; [done|]. rewrite str_cons_app. simpl.
  by rewrite IH, orb_assoc.
Qed.

Lemma str_has_hex c g : 0 ≤ g < 65536 → hex_val c = None → str_has c (hex_string g) = false.
Proof.
  intros Hg Hc. destruct (str_has c (hex_string g)) eqn:E; [|done].
  apply (hex_string_chars (λ c, bool_decide (hex_val c ≠ None)) g Hg) in E; [by boolify|].
  intros d Hd. apply bool_decide_true. by rewrite hex_val_digit.
Qed.

Lemma str_has_join c gs :
  groups_ok gs → hex_val c = None → c ≠ colon → str_has c (join_groups gs) = false.
Proof.
  intros Hok Hc Hn. induction Hok as [|g gs Hg Hok IH]; [done|].
  destruct gs as [|g' gs]; [by apply str_has_hex|].
  rewrite join_groups_cons, str_has_app, str_has_hex by done.
  change (bool_decide (c = colon) || str_has c (join_groups (g' :: gs)) = false).
  by rewrite bool_decide_false, IH by done.
Qed.

Lemma scan_digit d s w :
  0 ≤ d < 16 → ParseAddr_scan (String (digit_char d) s) w = ParseAddr_scan s w.
Proof.
  intros Hd. simpl. by rewrite !bool_decide_false by (by apply digit_char_neq).
Qed.

Lemma scan_hex g s w :
  0 ≤ g < 65536 → ParseAddr_scan (hex_string g +:+ s) w = ParseAddr_scan s w.
Proof.
  intros Hg. unfold hex_string.
  repeat case_match; boolify; rewrite !str_cons_app, str_nil_app, !scan_digit by group_lia; done.
Qed.

Lemma zeros_from_spec gs :
  (zeros_from gs ≤ length gs)%nat ∧ take (zeros_from gs) gs = replicate (zeros_from gs) 0.
Proof.
  induction gs as [|g gs [IH1 IH2]]; simpl; [done|].
  destruct (Z.eqb_spec g 0) as [->|]; simpl; [|split; [lia|done]].
  split; [lia|by rewrite IH2].
Qed.

(** The run found by the printer consists of zero groups. *)
Definition run_ok (gs : list Z) (zs ze : nat) : Prop :=
  (zs = 255 ∧ ze = 255)%nat ∨
  ((zs < ze ≤ length gs)%nat ∧ gs = take zs gs ++ replicate (ze - zs) 0 ++ drop ze gs).

Lemma zero_run_ok gs pre zs ze :
  run_ok (pre ++ gs) zs ze →
  let '(zs', ze') := zero_run (length pre) gs zs ze in run_ok (pre ++ gs) zs' ze'.
Proof.
  revert pre zs ze. induction gs as [|g gs IH]; intros pre zs ze Hok; [done|].
  cbn [zero_run]. set (l := zeros_from (g :: gs)).
  replace (S (length pre)) with (length (pre ++ [g])) by (rewrite length_app; simpl; lia).
  replace (pre ++ g :: gs) with ((pre ++ [g]) ++ gs) in * by (by rewrite <- app_assoc).
  destruct (bool_decide _ && bool_decide _) eqn:E; apply IH; [|done]. boolify. right.
  destruct (zeros_from_spec (g :: gs)) as [Hl Hz]. fold l in Hl, Hz.
  rewrite length_app, length_app. simpl in Hl |- *. split; [lia|].
  rewrite <- (app_assoc pre). change ([g] ++ gs) with (g :: gs).
  rewrite take_app_length', drop_app_ge by (done || lia).
  replace (length pre + l - length pre)%nat with l by lia.
  by rewrite <- Hz, take_drop.
Qed.

Lemma groups_bytes_zeros n : groups_bytes (replicate n 0) = replicate (2 * n) x00.
Proof.
  induction n as [|n IH]; [done|]. cbn [replicate groups_bytes]. rewrite IH.
  replace (2 * S n)%nat with (S (S (2 * n))) by lia. done.
Qed.

(** The parser's expansion of the ellipsis undoes the printer's elision. *)
Lemma expand_ellipsis (pre post : list Z) n :
  (1 ≤ n)%nat → (length pre + n + length post = 8)%nat →
  let ip := groups_bytes pre ++ groups_bytes post in
  parse6_finish (Some ("", ip, Some (length (groups_bytes pre)))) =
    Some (groups_bytes (pre ++ replicate n 0 ++ post)).
Proof.
  intros Hn Hl ip. unfold parse6_finish, ip.
  rewrite bool_decide_true by done. cbn [negb].
  rewrite bool_decide_true by (rewrite length_app, !length_groups_bytes; lia).
  rewrite take_app_length, drop_app_length.
  rewrite !groups_bytes_app, groups_bytes_zeros. do 3 f_equal.
  rewrite length_app, !length_groups_bytes. f_equal. lia.
Qed.

Lemma groups_ok_app a b : groups_ok (a ++ b) ↔ groups_ok a ∧ groups_ok b.
Proof. apply Forall_app. Qed.

Lemma join_groups_ne g gs : 0 ≤ g < 65536 → join_groups (g :: gs) ≠ "".
Proof.
  intros Hg. destruct (join_groups_head g gs "" Hg) as (d & s & E & _).
  rewrite str_app_nil_r in E. by rewrite E.
Qed.

(** Reading back [pre::post]. *)
Lemma parseIPv6_ellipsis pre post n :
  groups_ok pre → groups_ok post → (1 ≤ n)%nat → (length pre + n + length post = 8)%nat →
  parseIPv6 (join_groups pre +:+ String colon (String colon (join_groups post))) =
    Some (groups_bytes (pre ++ replicate n 0 ++ post)).
Proof.
  intros Hpre Hpost Hn Hl. unfold parseIPv6.
  rewrite str_has_app, str_has_join by done. cbn [str_has orb].
  rewrite (bool_decide_false (percent = colon)), str_has_join by done. cbn [orb].
  pose proof (expand_ellipsis pre post n Hn Hl) as Hexp.
  destruct pre as [|g pre].
  - cbn [join_groups]. rewrite str_nil_app, !bool_decide_true by done. cbn [andb].
    destruct post as [|q post].
    + simpl in Hl. assert (n = 8%nat) as -> by lia. done.
    + pose proof Hpost as [Hq _]%Forall_cons.
      rewrite bool_decide_false by (by apply join_groups_ne).
      by rewrite parse6_groups_end by (done || (simpl in Hl; lia)).
  - pose proof Hpre as [Hg _]%Forall_cons.
    destruct (join_groups_head g pre (String colon (String colon (join_groups post))) Hg)
      as (d & s & E & Hd).
    assert (∀ A (x : string → A) (y : A),
      match join_groups (g :: pre) +:+ String colon (String colon (join_groups post)) with
      | String c0 (String c1 s') =>
          if bool_decide (c0 = colon) && bool_decide (c1 = colon) then x s' else y
      | _ => y
      end = y) as ->.
    { intros A x y. rewrite E. destruct s as [|c1 s']; [done|]. by rewrite bool_decide_colon_digit. }
    rewrite parse6_groups_ellipsis by (done || (simpl in Hl; lia)). cbv zeta.
    case_bool_decide as Hp.
    + destruct post as [|q post]; [|by apply join_groups_ne in Hp; [|by apply Forall_cons in Hpost as [? _]]].
      rewrite app_nil_r in Hexp. exact Hexp.
    + destruct post as [|q post]; [done|].
      destruct (7 - length pre)%nat as [|m] eqn:Em; [simpl in Hl; lia|].
      rewrite parse6_groups_end by (done || (simpl in Hl; lia)). exact Hexp.
Qed.

Lemma parseIPv6_full gs :
  groups_ok gs → length gs = 8%nat → parseIPv6 (join_groups gs) = Some (groups_bytes gs).
Proof.
  intros Hok Hl. unfold parseIPv6. rewrite str_has_join by done.
  destruct gs as [|g gs]; [done|]. pose proof Hok as [Hg _]%Forall_cons.
  assert (parse6_finish (parse6_loop 8 (join_groups (g :: gs)) [] None) =
    Some (groups_bytes (g :: gs))) as Hmain.
  { rewrite parse6_groups_end by (done || (simpl in Hl; lia)). unfold parse6_finish.
    rewrite bool_decide_true by done. cbn [negb].
    by rewrite bool_decide_false by (rewrite app_nil_l, length_groups_bytes; lia). }
  destruct (join_groups_head g gs "" Hg) as (d & s & E & Hd). rewrite str_app_nil_r in E.
  rewrite E in *. destruct s as [|c1 s]; [done|]. by rewrite bool_decide_colon_digit.
Qed.

Lemma scan_join g gs t w :
  groups_ok (g :: gs) → (gs = [] → ∃ t', t = String colon t') →
  ParseAddr_scan (join_groups (g :: gs) +:+ t) w = parseIPv6 w.
Proof.
  intros Hok Ht. pose proof Hok as [Hg _]%Forall_cons. destruct gs as [|g' gs].
  - destruct (Ht eq_refl) as [t' ->]. cbn [join_groups]. by rewrite scan_hex.
  - rewrite join_groups_cons, str_app_assoc, str_cons_app. by rewrite scan_hex.
Qed.

Lemma ParseAddr_string6 ip : length ip = 16%nat → ParseAddr (string6 ip) = Some ip.
Proof.
  intros Hl. destruct (groups_spec 8 ip Hl) as (Hok & Hg & Hb).
  unfold string6, ParseAddr. set (gs := groups ip) in *.
  pose proof (zero_run_ok gs [] 255 255 (or_introl (conj eq_refl eq_refl))) as Hrun.
  simpl length in Hrun. destruct (zero_run 0 gs 255 255) as [zs ze]. simpl in Hrun.
  destruct Hrun as [[-> ->]|[Hz E]].
  - rewrite bool_decide_false by lia. destruct gs as [|g gs']; [done|].
    rewrite <- (str_app_nil_r (join_groups _)) at 1.
    rewrite scan_join by (done || by intros ->). by rewrite parseIPv6_full, Hb.
  - rewrite bool_decide_true by lia.
    assert (groups_ok (take zs gs) ∧ groups_ok (drop ze gs)) as [Hpre Hpost].
    { rewrite E, !groups_ok_app in Hok. tauto. }
    assert (parseIPv6 (join_groups (take zs gs) +:+ String colon (String colon (join_groups (drop ze gs))))
      = Some ip) as Hparse.
    { rewrite (parseIPv6_ellipsis _ _ (ze - zs)) by (try done; rewrite ?length_take, ?length_drop; lia).
      by rewrite <- E, Hb. }
    destruct (take zs gs) as [|g pre]; [by rewrite str_nil_app; cbn [ParseAddr_scan join_groups]|].
    by rewrite scan_join by (try done; intros _; eauto).
Qed.

(** ** Addresses and their text *)

(** The canonical text of the address numbered [x]. *)
Definition addr_string (f : family) (x : Z) : string :=
  match f with F4 => string4 (ip_of F4 x) | F6 => string6 (ip_of F6 x) end.

Lemma IP_String_addr ip f x : addr_of ip = Some (f, x) → IP_String ip = addr_string f x.
Proof.
  intros H. pose proof (addr_of_shape _ _ _ H) as Hs. pose proof (addr_of_normal _ _ _ H) as Hn.
  apply addr_of_Some in H as [_ H]. unfold IP_String. unfold is_nil in *.
  destruct Hs as [[-> E]|[[-> E]|(-> & E & _)]].
  - rewrite bool_decide_false in * by naive_solver. rewrite Hn, E, length_ip_of. done.
  - rewrite (bool_decide_false (To4 ip = [])) in * by naive_solver.
    rewrite Hn, E, length_app, length_ip_of. done.
  - destruct H as (H4 & Hl & _). rewrite (bool_decide_true (To4 ip = [])) by done.
    rewrite Hl, E. done.
Qed.

Lemma ParseAddr_addr_string f x : ParseAddr (addr_string f x) = Some (ip_of f x).
Proof.
  destruct f; [apply ParseAddr_string4|apply ParseAddr_string6]; apply length_ip_of.
Qed.

Lemma To4_mapped l : length l = 4%nat → To4 (v4InV6Prefix ++ l) = l.
Proof.
  intros Hl. unfold To4. rewrite length_app, Hl.
  rewrite bool_decide_false by done. by rewrite bool_decide_true.
Qed.

Lemma addr_of_To16_ip_of f x : addr_ok f x → addr_of (To16 (ip_of f x)) = Some (f, x).
Proof.
  intros Hok. unfold To16. rewrite length_ip_of.
  destruct f; [|by apply addr_of_ip_of].
  rewrite bool_decide_true by done.
  apply addr_of_Some. split; [done|]. rewrite To4_mapped by apply length_ip_of.
  split; [apply ip_of_not_nil|by apply be_val_ip_of, addr_ok_range].
Qed.

Lemma ParseIP_addr_string f x : addr_ok f x → addr_of (ParseIP (addr_string f x)) = Some (f, x).
Proof. intros Hok. unfold ParseIP. rewrite ParseAddr_addr_string. by apply addr_of_To16_ip_of. Qed.

Lemma ParseIP_String ip f x :
  addr_of ip = Some (f, x) → addr_of (ParseIP (IP_String ip)) = Some (f, x).
Proof.
  intros H. rewrite (IP_String_addr _ _ _ H). apply ParseIP_addr_string. by eapply addr_of_ok.
Qed.

Lemma addr_string_inj f x g y :
  addr_ok f x → addr_ok g y → addr_string f x = addr_string g y → f = g ∧ x = y.
Proof.
  intros Hx Hy E. apply ip_of_inj; [done..|].
  pose proof (ParseAddr_addr_string f x) as H. rewrite E, ParseAddr_addr_string in H. congruence.
Qed.

Lemma IP_String_inj a b f x g y :
  addr_of a = Some (f, x) → addr_of b = Some (g, y) → IP_String a = IP_String b → f = g ∧ x = y.
Proof.
  intros Ha Hb. rewrite (IP_String_addr _ _ _ Ha), (IP_String_addr _ _ _ Hb).
  apply addr_string_inj; by eapply addr_of_ok.
Qed.

(** ** What the parsers accept *)

Lemma parse4_loop_length s first pd val len pos fields a :
  length fields = pos → (pos ≤ 3)%nat →
  parse4_loop s first pd val len pos fields = Some a → length a = 4%nat.
Proof.
  revert first pd val len pos fields. induction s as [|c s IH]; intros first pd val len pos fields Hf Hp; simpl.
  - case_bool_decide; [done|]. intros [= <-]. rewrite length_app. simpl. lia.
  - destruct (dec_val c) as [d|].
    + repeat case_match; try done. by apply IH.
    + case_bool_decide; [|done]. destruct (_ || _); [done|]. case_bool_decide; [done|].
      apply IH; [|lia]. rewrite length_app. simpl. lia.
Qed.

Lemma parse6_loop_length fuel s ip e s' ip' e' :
  (length ip + 2 * fuel ≤ 16)%nat → (∀ k, e = Some k → k ≤ length ip)%nat →
  parse6_loop fuel s ip e = Some (s', ip', e') →
  (length ip' ≤ 16)%nat ∧ (∀ k, e' = Some k → k ≤ length ip')%nat.
Proof.
  revert s ip e. induction fuel as [|fuel IH]; intros s ip e Hl He; simpl.
  { intros [= -> -> ->]. split; [lia|done]. }
  assert (∀ g, length (ip ++ group_bytes g) = length ip + 2)%nat as Hg
    by (intros; rewrite length_app; done).
  destruct (hex_run s 0 0) as [[[off acc] rest]|]; [|done].
  case_bool_decide; [done|]. destruct rest as [|c s1].
  { intros [= <- <- <-]. rewrite Hg. split; [lia|]. intros k Hk. specialize (He k Hk). lia. }
  case_bool_decide.
  { destruct (_ && _); [done|]. case_bool_decide; [done|].
    destruct (parseIPv4 s) as [fl|] eqn:Ef; [|done]. intros [= <- <- <-].
    apply parse4_loop_length in Ef; [|done|lia]. rewrite length_app, Ef.
    split; [lia|]. intros k Hk. specialize (He k Hk). lia. }
  destruct (negb _); [done|]. destruct s1 as [|c1 s2]; [done|]. case_bool_decide.
  - destruct e as [k|]; [done|]. case_bool_decide.
    + intros [= <- <- <-]. rewrite Hg. split; [lia|]. intros k [= <-]. lia.
    + apply IH; rewrite ?Hg; [lia|]. intros k [= <-]. lia.
  - apply IH; rewrite ?Hg; [lia|]. intros k Hk. specialize (He k Hk). lia.
Qed.

Lemma parse6_finish_length fuel s ip e a :
  (length ip + 2 * fuel ≤ 16)%nat → (∀ k, e = Some k → k ≤ length ip)%nat →
  parse6_finish (parse6_loop fuel s ip e) = Some a → length a = 16%nat.
Proof.
  intros Hl He. destruct (parse6_loop fuel s ip e) as [[[s' ip'] e']|] eqn:E; [|done].
  destruct (parse6_loop_length _ _ _ _ _ _ _ Hl He E) as [H1 H2]. unfold parse6_finish.
  destruct (negb _); [done|]. case_bool_decide.
  - destruct e' as [k|]; [|done]. intros [= <-]. specialize (H2 k eq_refl).
    rewrite !length_app, length_take, length_replicate, length_drop. lia.
  - destruct e'; [done|]. intros [= <-]. lia.
Qed.

Lemma ParseAddr_length s a : ParseAddr s = Some a → length a = 4%nat ∨ length a = 16%nat.
Proof.
  unfold ParseAddr. generalize s at 2. intros w.
  induction s as [|c s IH]; simpl; [done|]. case_bool_decide.
  { intros Hw%parse4_loop_length; [by left|done|lia]. }
  case_bool_decide; [|case_bool_decide; [done|exact IH]].
  unfold parseIPv6. case_match; [done|]. intros Hw. right. revert Hw.
  repeat case_match; try (by intros [= <-]); apply parse6_finish_length; simpl; try lia;
    intros k Hk; simplify_eq; lia.
Qed.

(** [ParseIP] returns [nil] or a valid address. *)
Lemma ParseIP_valid s : ParseIP s ≠ [] → ∃ f x, addr_of (ParseIP s) = Some (f, x) ∧ addr_ok f x.
Proof.
  unfold ParseIP. destruct (ParseAddr s) as [a|] eqn:E; [|done]. intros _.
  assert (length (To16 a) = 16%nat) as Hl.
  { destruct (ParseAddr_length _ _ E) as [H|H]; unfold To16; rewrite H; simpl; [|done].
    by rewrite H. }
  destruct (addr_of (To16 a)) as [[f x]|] eqn:Ha.
  - exists f, x. split; [done|]. by eapply addr_of_ok.
  - apply To16_nil in Ha as [_ Ha]. done.
Qed.

Lemma is_nil_ParseIP s : is_nil (ParseIP s) = true ↔ addr_of (ParseIP s) = None.
Proof.
  unfold is_nil. rewrite bool_decide_eq_true. split; [by intros ->|]. intros H.
  destruct (decide (ParseIP s = [])) as [|Hn]; [done|].
  apply ParseIP_valid in Hn as (f & x & E & _). congruence.
Qed.

(** ** Networks and their text *)

Lemma IP_Mask_same ip m : length ip = length m → IP_Mask ip m = zip_with byte_and ip m.
Proof.
  intros Hl. unfold IP_Mask. unfold IPv4len, IPv6len.
  rewrite (bool_decide_false (length m = 16%nat ∧ _)) by (intros (? & ? & _); lia).
  rewrite (bool_decide_false (length m = 4%nat ∧ _)) by (intros (? & ? & _); lia).
  by rewrite bool_decide_true.
Qed.

Lemma IP_Mask_embed ip m :
  length ip = 4%nat → length m = 4%nat →
  IP_Mask (v4InV6Prefix ++ ip) m = zip_with byte_and ip m.
Proof.
  intros Hl Hm. unfold IP_Mask. unfold IPv4len, IPv6len.
  rewrite (bool_decide_false (length m = 16%nat ∧ _)) by (intros (? & _); lia).
  rewrite (bool_decide_true (length m = 4%nat ∧ _)).
  2:{ rewrite length_app, Hl. split_and!; done. }
  change (drop 12 (v4InV6Prefix ++ ip)) with ip. rewrite bool_decide_true by lia. done.
Qed.

Lemma To16_ip_of_mask f x ones :
  0 ≤ x < 2 ^ fam_bits f → 0 ≤ ones ≤ fam_bits f →
  IP_Mask (To16 (ip_of f x)) (mask_loop (fam_len f) ones) = ip_of f (x - x mod net_size f ones).
Proof.
  intros Hx Ho. etrans; [|apply (mask_ip_of f x ones Hx Ho)].
  unfold To16. rewrite length_ip_of. destruct f; cbn [fam_len].
  - rewrite bool_decide_true by done. apply IP_Mask_embed; [apply length_ip_of|apply length_mask_loop].
  - rewrite (bool_decide_false (IPv6len = IPv4len)), bool_decide_true by done.
    apply IP_Mask_same. by rewrite length_ip_of, length_mask_loop.
Qed.

Lemma dtoi_dec n : 0 ≤ n ≤ 128 → dtoi (dec_string n) = Some n.
Proof.
  intros Hn.
  assert (forallb (λ n, bool_decide (dtoi (dec_string n) = Some n)) (seqZ 0 129) = true) as H
    by (vm_compute; reflexivity).
  rewrite forallb_forall in H. specialize (H n). rewrite bool_decide_eq_true in H.
  apply H, list_elem_of_In, elem_of_seqZ. lia.
Qed.

Lemma str_cut_app sep a b : str_has sep a = false → str_cut sep (a +:+ String sep b) = Some (a, b).
Proof.
  induction a as [|c a IH]; intros Ha.
  - rewrite str_nil_app. simpl. by rewrite bool_decide_true.
  - simpl in Ha. boolify. rewrite str_cons_app. simpl. rewrite bool_decide_false by done. by rewrite IH.
Qed.

(** A string with a separator in it can be cut. *)
Lemma str_cut_total sep a b : ∃ x y, str_cut sep (a +:+ String sep b) = Some (x, y) ∧ (str_has sep b = true → str_has sep y = true).
Proof.
  induction a as [|c a (x & y & E & Hy)].
  - rewrite str_nil_app. simpl. rewrite bool_decide_true by done. eauto.
  - rewrite str_cons_app. simpl. case_bool_decide; [|rewrite E; eauto]. eexists _, _. split; [done|]. intros _.
    rewrite str_has_app. simpl. by rewrite bool_decide_true, orb_true_r by done.
Qed.

Lemma str_cut_has sep s : str_has sep s = true → is_Some (str_cut sep s).
Proof.
  induction s as [|c s IH]; simpl; [done|]. intros [H1|H1]%orb_true_iff.
  - boolify. subst. rewrite bool_decide_true by done. by eexists.
  - case_bool_decide; [by eexists|]. by destruct (IH H1) as [[] ->].
Qed.

Lemma dec_string_no_slash b : str_has slash (dec_string (byte_val b)) = false.
Proof. by destruct b. Qed.

Lemma addr_string_no_slash f x : str_has slash (addr_string f x) = false.
Proof.
  destruct f; simpl.
  - pose proof (length_ip_of F4 x) as Hl.
    destruct (ip_of F4 x) as [|a [|b [|c [|d [|]]]]]; try done. unfold string4.
    repeat (rewrite ?str_has_app, ?dec_string_no_slash; cbn [str_has orb];
      rewrite ?(bool_decide_false (slash = dot)) by done; cbn [orb]). done.
  - destruct (groups_spec 8 (ip_of F6 x) (length_ip_of F6 x)) as (Hok & _).
    unfold string6. destruct (zero_run _ _ _ _) as [zs ze].
    case_match; [|by apply str_has_join].
    rewrite str_has_app, str_has_join by (by try apply Forall_take). cbn [str_has orb].
    rewrite (bool_decide_false (slash = colon)) by done. cbn [orb].
    by apply str_has_join; [apply Forall_drop|..].
Qed.

Lemma is_nil_mask f ones : is_nil (mask_loop (fam_len f) ones) = false.
Proof. apply bool_decide_false. intros E%(f_equal length). rewrite length_mask_loop in E. by destruct f. Qed.

Lemma IPNet_String_address ip f x ones :
  addr_of ip = Some (f, x) → 0 ≤ ones ≤ fam_bits f →
  IPNet_String (mkIPNet ip (mask_loop (fam_len f) ones)) = addr_string f x +:+ String slash (dec_string ones).
Proof.
  intros Hip Ho. unfold IPNet_String. rewrite (networkNumberAndMask_addr _ _ _ _ Hip), is_nil_ip_of, is_nil_mask.
  unfold simpleMaskLength. rewrite simpleMaskLength_mask by (rewrite <- fam_bits_len; lia).
  cbn [orb]. rewrite (proj2 (Z.eqb_neq _ _)) by lia.
  by rewrite (IP_String_addr _ _ _ (addr_of_ip_of _ _ (addr_of_ok _ _ _ Hip))).
Qed.

Lemma IPNet_String_net f base ones :
  net_ok f base ones →
  IPNet_String (net_of f base ones) = addr_string f base +:+ String slash (dec_string ones).
Proof.
  intros Hnet. apply IPNet_String_address; [by apply addr_of_ip_of, (net_ok_base _ _ ones)|apply Hnet].
Qed.

Lemma ParseCIDR_String f base ones :
  net_ok f base ones →
  ParseCIDR (IPNet_String (net_of f base ones)) = Some (To16 (ip_of f base), net_of f base ones).
Proof.
  intros Hnet. pose proof Hnet as (Ho & Hb & Hm & _). rewrite IPNet_String_net by done.
  unfold ParseCIDR. rewrite str_cut_app by apply addr_string_no_slash.
  rewrite ParseAddr_addr_string, dtoi_dec by (destruct f; simpl in *; lia).
  rewrite length_ip_of, <- fam_bits_len, (proj2 (Z.ltb_ge _ _)) by lia.
  rewrite CIDRMask_spec, To16_ip_of_mask by done. by rewrite Hm, Z.sub_0_r.
Qed.

(** The text of an address with a mask parses to the address and its network. *)
Lemma ParseCIDR_address ip f x base ones :
  net_ok f base ones → addr_of ip = Some (f, x) → base ≤ x < base + net_size f ones →
  ParseCIDR (IPNet_String (mkIPNet ip (mask_loop (fam_len f) ones))) = Some (To16 (ip_of f x), net_of f base ones).
Proof.
  intros Hnet Hip Hx. pose proof Hnet as (Ho & Hb & Hm & _).
  pose proof (net_ok_addr _ _ _ _ Hnet Hx) as Hok. pose proof (addr_ok_range _ _ Hok) as Hr.
  pose proof (fam_bits_le f). rewrite (IPNet_String_address _ _ _ _ Hip Ho).
  unfold ParseCIDR. rewrite str_cut_app by apply addr_string_no_slash.
  rewrite ParseAddr_addr_string, dtoi_dec by lia.
  rewrite length_ip_of, <- fam_bits_len, (proj2 (Z.ltb_ge _ _)) by lia.
  rewrite CIDRMask_spec, To16_ip_of_mask by done. unfold net_of. do 2 f_equal. f_equal. f_equal.
  apply same_block; [apply net_size_pos; lia|done..].
Qed.

(** Every network that [ParseCIDR] returns is the network of some address. *)
Lemma ParseCIDR_net s ip n :
  ParseCIDR s = Some (ip, n) →
  ∃ f x ones, 0 ≤ x < 2 ^ fam_bits f ∧ 0 ≤ ones ≤ fam_bits f ∧ ip = To16 (ip_of f x) ∧
    n = net_of f (x - x mod net_size f ones) ones.
Proof.
  unfold ParseCIDR. destruct (str_cut slash s) as [[addr mask]|]; [|done].
  destruct (ParseAddr addr) as [a|] eqn:Ea; [|done].
  destruct (dtoi mask) as [m|] eqn:Em; [|done].
  assert (0 ≤ m) as Hm0.
  { unfold dtoi in Em. case_match; [done|]. revert Em.
    assert (∀ s n m, 0 ≤ n → dtoi_loop s n = Some m → 0 ≤ m) as Hd; [|by apply Hd].
    clear. induction s as [|c s IH]; intros n m Hn; simpl; [by intros [= <-]|].
    destruct (dec_val c) as [d|] eqn:Ed; [|done]. case_match; [done|]. apply IH.
    unfold dec_val in Ed. case_match; [|done]. boolify. simplify_eq. lia. }
  destruct (Z.ltb_spec (8 * Z.of_nat (length a)) m) as [|Hle]; [done|]. intros [= <- <-].
  assert (∃ f, length a = fam_len f) as [f Hl].
  { destruct (ParseAddr_length _ _ Ea); [by exists F4|by exists F6]. }
  pose proof (be_val_bound a) as B. rewrite Hl, <- fam_pow in B.
  rewrite Hl, <- fam_bits_len in *.
  assert (a = ip_of f (be_val a)) as E by (symmetry; by apply be_bytes_val).
  exists f, (be_val a), m. split_and!; try lia; [by rewrite <- E|].
  rewrite E at 1. rewrite CIDRMask_spec, To16_ip_of_mask by lia. done.
Qed.
