(* ===== verification/Json.v ===== *)
(** * JSON as [encoding/json] reads it

    The settings of the CNI plugin are a JSON file, written by the node daemon and
    read by the plugin.  [json_parse] accepts what the scanner of the standard
    library accepts (white space, numbers, escapes, a nesting of at most 10000) and
    decodes strings the way it does: escapes of surrogates that are not a pair, and
    bytes that are not UTF-8, become U+FFFD.  Numbers stay text. *)

From Stdlib Require Import Strings.Ascii.
From S2P Require Import Prelude GoNet Cidr GoNetText.

Inductive json :=
| JNull
| JBool (b : bool)
| JNum (s : string)
| JStr (s : string)
| JArr (l : list json)
| JObj (l : list (string * json)).

(** ** Characters *)

Definition backslash : ascii := "\".

Definition is_space (c : ascii) : bool :=
  bool_decide (c = " "%char ∨ c = "009"%char ∨ c = "010"%char ∨ c = "013"%char).

Fixpoint skip_ws (s : string) : string :=
  match s with
  | String c r => if is_space c then skip_ws r else s
  | EmptyString => s
  end.

(** The bytes of a code point. *)
Definition chr (v : Z) : ascii := ascii_of_N (Z.to_N v).
Definition utf8_encode (u : Z) : string :=
  if u <? 0x80 then String (chr u) ""
  else if u <? 0x800 then String (chr (0xc0 + u / 64)) (String (chr (0x80 + u mod 64)) "")
  else if u <? 0x10000
  then String (chr (0xe0 + u / 4096)) (String (chr (0x80 + u / 64 mod 64)) (String (chr (0x80 + u mod 64)) ""))
  else String (chr (0xf0 + u / 262144)) (String (chr (0x80 + u / 4096 mod 64))
         (String (chr (0x80 + u / 64 mod 64)) (String (chr (0x80 + u mod 64)) ""))).

Definition replacement : string := utf8_encode 0xfffd.

Definition between (lo hi : Z) (c : ascii) : bool := (lo <=? char_val c) && (char_val c <=? hi).

(** The length of the UTF-8 sequence of more than one byte at the start, [0] if there is none. *)
Definition utf8_len (s : string) : nat :=
  match s with
  | String a (String b r) =>
      if between 0xc2 0xdf a then if between 0x80 0xbf b then 2 else 0
      else if (between 0xe0 0xe0 a && between 0xa0 0xbf b) || (between 0xe1 0xec a && between 0x80 0xbf b) ||
              (between 0xed 0xed a && between 0x80 0x9f b) || (between 0xee 0xef a && between 0x80 0xbf b)
      then match r with String c _ => if between 0x80 0xbf c then 3 else 0 | _ => 0 end
      else if (between 0xf0 0xf0 a && between 0x90 0xbf b) || (between 0xf1 0xf3 a && between 0x80 0xbf b) ||
              (between 0xf4 0xf4 a && between 0x80 0x8f b)
      then match r with
           | String c (String d _) => if between 0x80 0xbf c && between 0x80 0xbf d then 4 else 0
           | _ => 0
           end
      else 0
  | _ => 0
  end%nat.

(** ** Strings *)

Definition hex4 (a b c d : ascii) : option Z :=
  a ← hex_val a; b ← hex_val b; c ← hex_val c; d ← hex_val d; Some (((a * 16 + b) * 16 + c) * 16 + d).

Definition simple_escape (c : ascii) : option ascii :=
  if bool_decide (c = dquote ∨ c = backslash ∨ c = slash) then Some c
  else if bool_decide (c = "b"%char) then Some "008"%char
  else if bool_decide (c = "f"%char) then Some "012"%char
  else if bool_decide (c = "n"%char) then Some "010"%char
  else if bool_decide (c = "r"%char) then Some "013"%char
  else if bool_decide (c = "t"%char) then Some "009"%char
  else None.

Definition is_surrogate (u : Z) : bool := (0xd800 <=? u) && (u <? 0xe000).
Definition surrogate_pair (u v : Z) : option Z :=
  if (0xd800 <=? u) && (u <? 0xdc00) && (0xdc00 <=? v) && (v <? 0xe000)
  then Some ((u - 0xd800) * 1024 + (v - 0xdc00) + 0x10000) else None.

(** The second half of a surrogate pair, if an escape of it follows. *)
Definition second_half (s : string) : option Z :=
  match s with
  | String b (String u (String h1 (String h2 (String h3 (String h4 _))))) =>
      if bool_decide (b = backslash ∧ u = "u"%char) then hex4 h1 h2 h3 h4 else None
  | _ => None
  end.

(** The string up to the closing quote, and what follows the quote. *)
Fixpoint unquote (s : string) : option (string * string) :=
  match s with
  | EmptyString => None
  | String c r =>
      if bool_decide (c = dquote) then Some ("", r)
      else if bool_decide (c = backslash) then
        match r with
        | String e r =>
            match simple_escape e with
            | Some x => '(t, rest) ← unquote r; Some (String x t, rest)
            | None =>
                if negb (bool_decide (e = "u"%char)) then None
                else match r with
                     | String h1 (String h2 (String h3 (String h4 r))) =>
                         u ← hex4 h1 h2 h3 h4;
                         if negb (is_surrogate u) then '(t, rest) ← unquote r; Some (utf8_encode u +:+ t, rest)
                         else
                           match second_half r ≫= surrogate_pair u, r with
                           | Some v, String _ (String _ (String _ (String _ (String _ (String _ r))))) =>
                               '(t, rest) ← unquote r; Some (utf8_encode v +:+ t, rest)
                           | _, _ => '(t, rest) ← unquote r; Some (replacement +:+ t, rest)
                           end
                     | _ => None
                     end
            end
        | EmptyString => None
        end
      else if char_val c <? 0x20 then None
      else if char_val c <? 0x80 then '(t, rest) ← unquote r; Some (String c t, rest)
      else
        match utf8_len s, r with
        | 2%nat, String c1 r => '(t, rest) ← unquote r; Some (String c (String c1 t), rest)
        | 3%nat, String c1 (String c2 r) => '(t, rest) ← unquote r; Some (String c (String c1 (String c2 t)), rest)
        | 4%nat, String c1 (String c2 (String c3 r)) =>
            '(t, rest) ← unquote r; Some (String c (String c1 (String c2 (String c3 t))), rest)
        | _, _ => '(t, rest) ← unquote r; Some (replacement +:+ t, rest)
        end
  end.

(** ** Numbers *)

Fixpoint span_digits (s : string) : string * string :=
  match s with
  | String c r =>
      if bool_decide (is_Some (dec_val c)) then let '(d, rest) := span_digits r in (String c d, rest) else ("", s)
  | EmptyString => ("", s)
  end.

(** One or more digits. *)
Definition digits1 (s : string) : option (string * string) :=
  let '(d, rest) := span_digits s in if bool_decide (d = "") then None else Some (d, rest).

Definition scan_int (s : string) : option (string * string) :=
  match s with
  | String c r => if bool_decide (c = "0"%char) then Some (String c "", r) else digits1 s
  | EmptyString => None
  end.

Definition scan_frac (s : string) : option (string * string) :=
  match s with
  | String c r => if bool_decide (c = dot) then '(d, rest) ← digits1 r; Some (String c d, rest) else Some ("", s)
  | EmptyString => Some ("", s)
  end.

Definition scan_exp (s : string) : option (string * string) :=
  match s with
  | String c r =>
      if bool_decide (c = "e"%char ∨ c = "E"%char) then
        match r with
        | String g r' =>
            if bool_decide (g = "+"%char ∨ g = "-"%char)
            then '(d, rest) ← digits1 r'; Some (String c (String g d), rest)
            else '(d, rest) ← digits1 r; Some (String c d, rest)
        | EmptyString => None
        end
      else Some ("", s)
  | EmptyString => Some ("", s)
  end.

Definition scan_number (s : string) : option (string * string) :=
  let '(sign, s) := match s with
                    | String c r => if bool_decide (c = "-"%char) then (String c "", r) else ("", s)
                    | EmptyString => ("", s)
                    end in
  '(i, s) ← scan_int s; '(f, s) ← scan_frac s; '(e, s) ← scan_exp s; Some (sign +:+ i +:+ f +:+ e, s).

(** ** Values *)

Fixpoint strip_prefix (p s : string) : option string :=
  match p, s with
  | EmptyString, _ => Some s
  | String c p, String c' s => if bool_decide (c = c') then strip_prefix p s else None
  | _, _ => None
  end.

Definition scan_literal (s : string) : option (json * string) :=
  match strip_prefix "true" s, strip_prefix "false" s, strip_prefix "null" s with
  | Some r, _, _ => Some (JBool true, r)
  | _, Some r, _ => Some (JBool false, r)
  | _, _, Some r => Some (JNull, r)
  | _, _, _ => None
  end.

Definition max_depth : Z := 10000.

(** [depth]: the objects and arrays the value is in. *)
Fixpoint parse_value (fuel : nat) (depth : Z) (s : string) : option (json * string) :=
  match fuel with
  | O => None
  | S fuel =>
      match skip_ws s with
      | EmptyString => None
      | String c r as s =>
          if bool_decide (c = "{"%char) then
            if max_depth <=? depth then None
            else match skip_ws r with
                 | String e r' =>
                     if bool_decide (e = "}"%char) then Some (JObj [], r')
                     else '(l, rest) ← parse_members fuel (depth + 1) r; Some (JObj l, rest)
                 | EmptyString => None
                 end
          else if bool_decide (c = "["%char) then
            if max_depth <=? depth then None
            else match skip_ws r with
                 | String e r' =>
                     if bool_decide (e = "]"%char) then Some (JArr [], r')
                     else '(l, rest) ← parse_elems fuel (depth + 1) r; Some (JArr l, rest)
                 | EmptyString => None
                 end
          else if bool_decide (c = dquote) then '(t, rest) ← unquote r; Some (JStr t, rest)
          else if bool_decide (c = "-"%char) || bool_decide (is_Some (dec_val c))
          then '(t, rest) ← scan_number s; Some (JNum t, rest)
          else scan_literal s
      end
  end
with parse_members (fuel : nat) (depth : Z) (s : string) : option (list (string * json) * string) :=
  match fuel with
  | O => None
  | S fuel =>
      match skip_ws s with
      | EmptyString => None
      | String c r =>
          if negb (bool_decide (c = dquote)) then None
          else
            '(k, r) ← unquote r;
            match skip_ws r with
            | EmptyString => None
            | String c r =>
                if negb (bool_decide (c = colon)) then None
                else
                  '(v, r) ← parse_value fuel depth r;
                  match skip_ws r with
                  | EmptyString => None
                  | String c r =>
                      if bool_decide (c = "}"%char) then Some ([(k, v)], r)
                      else if bool_decide (c = ","%char)
                      then '(l, r) ← parse_members fuel depth r; Some ((k, v) :: l, r)
                      else None
                  end
            end
      end
  end
with parse_elems (fuel : nat) (depth : Z) (s : string) : option (list json * string) :=
  match fuel with
  | O => None
  | S fuel =>
      '(v, r) ← parse_value fuel depth s;
      match skip_ws r with
      | EmptyString => None
      | String c r =>
          if bool_decide (c = "]"%char) then Some ([v], r)
          else if bool_decide (c = ","%char) then '(l, r) ← parse_elems fuel depth r; Some (v :: l, r)
          else None
      end
  end.

(** Every call but the one for the value of an element consumes a character. *)
Definition json_parse (s : string) : option json :=
  '(v, rest) ← parse_value (2 * S (String.length s)) 0 s;
  if bool_decide (skip_ws rest = "") then Some v else None.

Example json_examples :
  json_parse " {} " = Some (JObj []) ∧ json_parse "[1, -0.5e+2,true ,null]x" = None ∧
  json_parse "[1, -0.5e+2,true ,null]" = Some (JArr [JNum "1"; JNum "-0.5e+2"; JBool true; JNull]) ∧
  json_parse "01" = None ∧ json_parse "[1,]" = None ∧ json_parse "[" = None.
Proof. split_and!; vm_compute; reflexivity. Qed.

(** Escapes, a lone surrogate and a byte that is not UTF-8. *)
Example json_string_examples :
  unquote ("a\n\u00e9\ud83d\ude00" +:+ String dquote "r") =
    Some ("a" +:+ String "010" (utf8_encode 0xe9 +:+ utf8_encode 0x1f600), "r") ∧
  unquote ("\ud83dx" +:+ String dquote "") = Some (replacement +:+ "x", "") ∧
  unquote (String "255" ("x" +:+ String dquote "")) = Some (replacement +:+ "x", "").
Proof. split_and!; vm_compute; reflexivity. Qed.

(** ** Fuel *)

Abbreviation len := String.length.

Lemma skip_ws_len s : (len (skip_ws s) ≤ len s)%nat.
Proof. induction s as [|c s IH]; simpl; [done|]. destruct (is_space c); simpl; lia. Qed.

Lemma bind_pair_len {A} (m : option (A * string)) {B} (k : A → B) b rest (n : nat) :
  (∀ a r, m = Some (a, r) → (len r < n)%nat) →
  ('(a, r) ← m; Some (k a, r)) = Some (b, rest) → (len rest < n)%nat.
Proof. intros H E. destruct m as [[a r]|]; simpl in E; [|done]. injection E as _ <-. by eapply H. Qed.

Lemma unquote_len n s t rest : (len s ≤ n)%nat → unquote s = Some (t, rest) → (len rest < len s)%nat.
Proof.
  revert s t rest. induction n as [|n IH]; intros [|c s] t rest Hn; simpl in Hn; [done|lia|done|].
  assert (∀ s' (k : string → string), (len s' ≤ len s)%nat →
    ('(t, rest) ← unquote s'; Some (k t, rest)) = Some (t, rest) → (len rest < S (len s))%nat) as Hk.
  { intros s' k Hs'. apply bind_pair_len. intros a r Hr. apply IH in Hr; lia. }
  cbn [unquote len]. destruct (bool_decide (c = dquote)); [intros [= _ <-]; lia|].
  destruct (bool_decide (c = backslash)).
  - destruct s as [|e s]; [done|]. destruct (simple_escape e); [by intros ?%Hk; simpl in *; lia|].
    destruct (negb _); [done|]. destruct s as [|h1 [|h2 [|h3 [|h4 s]]]]; try done.
    destruct (hex4 h1 h2 h3 h4) as [u|]; cbn [mbind option_bind]; [|done].
    destruct (negb _); [by intros ?%Hk; simpl in *; lia|].
    destruct (second_half s ≫= surrogate_pair u); [|by intros ?%Hk; simpl in *; lia].
    destruct s as [|? [|? [|? [|? [|? [|? s]]]]]]; intros ?%Hk; simpl in *; lia.
  - destruct (_ <? _); [done|]. destruct (_ <? _); [by intros ?%Hk; simpl in *; lia|].
    destruct (utf8_len _) as [|[|[|[|[|]]]]]; destruct s as [|? [|? [|? s]]]; intros ?%Hk; simpl in *; lia.
Qed.

Lemma span_digits_len s : (len (span_digits s).2 ≤ len s)%nat.
Proof.
  induction s as [|c s IH]; simpl; [done|]. case_bool_decide; [|done].
  destruct (span_digits s) as [d rest]; simpl in *. lia.
Qed.

Lemma digits1_len s d rest : digits1 s = Some (d, rest) → (len rest < len s)%nat.
Proof.
  unfold digits1. destruct s as [|c s]; simpl; [done|]. case_bool_decide as Hc; [|done].
  pose proof (span_digits_len s). destruct (span_digits s) as [d' r]; simpl in *. intros [= _ <-]. lia.
Qed.

Lemma scan_number_len s t rest : scan_number s = Some (t, rest) → (len rest < len s)%nat.
Proof.
  unfold scan_number.
  assert (∀ s sign t, ('(i, s) ← scan_int s; '(f, s) ← scan_frac s; '(e, s) ← scan_exp s; Some (sign +:+ i +:+ f +:+ e, s)) =
    Some (t, rest) → (len rest < len s)%nat) as H.
  { clear. intros s sign t E. apply bind_Some in E as ([i s1] & E1 & E). apply bind_Some in E as ([f s2] & E2 & E).
    apply bind_Some in E as ([e s3] & E3 & E). injection E as _ <-.
    assert (len s1 < len s)%nat.
    { destruct s as [|c s]; [done|]. simpl in E1. case_bool_decide; [by injection E1 as _ <-; simpl; lia|by apply digits1_len in E1]. }
    assert (len s2 ≤ len s1)%nat.
    { destruct s1 as [|c s1]; simpl in E2; [by injection E2 as _ <-|]. case_bool_decide; [|by injection E2 as _ <-].
      apply bind_pair_len with (n := len s1) in E2; [simpl; lia|by intros ?? ?%digits1_len]. }
    assert (len s3 ≤ len s2)%nat; [|lia]. destruct s2 as [|c s2]; simpl in E3; [by injection E3 as _ <-|].
    case_bool_decide; [|by injection E3 as _ <-]. destruct s2 as [|g s2]; [done|].
    case_bool_decide; apply bind_pair_len with (n := len (String g s2)) in E3; simpl in *; try lia;
      intros ?? ?%digits1_len; simpl in *; lia. }
  destruct s as [|c s]; [by intros ?%H|]. destruct (bool_decide (c = "-"%char)); intros ?%H; simpl in *; lia.
Qed.

Lemma strip_prefix_len p s r : strip_prefix p s = Some r → len s = (len p + len r)%nat.
Proof.
  revert s. induction p as [|c p IH]; intros [|c' s]; simpl; try (by intros [= <-]); try done.
  case_bool_decide; [|done]. intros ->%IH. lia.
Qed.

Lemma scan_literal_len s v r : scan_literal s = Some (v, r) → (len r < len s)%nat.
Proof.
  unfold scan_literal. destruct (strip_prefix "true" s) eqn:E1; [intros [= _ <-]; apply strip_prefix_len in E1; simpl in *; lia|].
  destruct (strip_prefix "false" s) eqn:E2; [intros [= _ <-]; apply strip_prefix_len in E2; simpl in *; lia|].
  destruct (strip_prefix "null" s) eqn:E3; [intros [= _ <-]; apply strip_prefix_len in E3; simpl in *; lia|done].
Qed.

(** The rest of the text is shorter. *)
Definition consumes {A} (s : string) (m : option (A * string)) : Prop := ∀ a r, m = Some (a, r) → (len r < len s)%nat.

Lemma consumes_bind {A B} s (m : option (A * string)) (k : A * string → option (B * string)) :
  (∀ a r, m = Some (a, r) → (len r < len s)%nat → consumes s (k (a, r))) → consumes s m → consumes s (m ≫= k).
Proof. intros Hk Hm b r E. apply bind_Some in E as ([a r'] & E & E'). by eapply Hk; [|by eapply Hm|]. Qed.

Lemma consumes_Some {A} s (a : A) r : (len r < len s)%nat → consumes s (Some (a, r)).
Proof. intros H ? ? [= _ <-]. done. Qed.

Lemma consumes_weaken {A} s s' (m : option (A * string)) : (len s' ≤ len s)%nat → consumes s' m → consumes s m.
Proof. intros H Hm a r E. apply Hm in E. lia. Qed.

Lemma skip_ws_cons s c r : skip_ws s = String c r → (len r < len s)%nat.
Proof. intros E. pose proof (skip_ws_len s) as H. rewrite E in H. simpl in H. lia. Qed.

Lemma parse_consumes n :
  (∀ d s, consumes s (parse_value n d s)) ∧ (∀ d s, consumes s (parse_members n d s)) ∧ (∀ d s, consumes s (parse_elems n d s)).
Proof.
  induction n as [|n (IHv & IHm & IHe)]; [done|]. split_and!; intros d s; cbn [parse_value parse_members parse_elems].
  - destruct (skip_ws s) as [|c r] eqn:Es; [done|]. pose proof (skip_ws_cons _ _ _ Es) as Hr.
    pose proof (skip_ws_len s) as Hs. rewrite Es in Hs.
    assert (∀ A B (m : option (A * string)) (g : A → B), consumes (String c r) m → consumes s ('(a, r) ← m; Some (g a, r))) as Hmap.
    { intros A B m g Hm. apply consumes_bind; [|by eapply consumes_weaken]. intros. by apply consumes_Some. }
    assert (∀ A (m : option (A * string)), consumes r m → consumes (String c r) m) as Hw
      by (intros; eapply consumes_weaken; [|done]; simpl; lia).
    destruct (bool_decide (c = "{"%char)); [|destruct (bool_decide (c = "["%char))].
    + destruct (_ <=? _); [done|]. destruct (skip_ws r) as [|e r'] eqn:Er; [done|]. apply skip_ws_cons in Er.
      destruct (bool_decide _); [apply consumes_Some; lia|apply Hmap, Hw, IHm].
    + destruct (_ <=? _); [done|]. destruct (skip_ws r) as [|e r'] eqn:Er; [done|]. apply skip_ws_cons in Er.
      destruct (bool_decide _); [apply consumes_Some; lia|apply Hmap, Hw, IHe].
    + destruct (bool_decide _); [apply Hmap, Hw; intros a r' E; by eapply unquote_len|].
      destruct (_ || _); [apply Hmap; intros a r' E; by eapply scan_number_len|].
      eapply consumes_weaken; [done|]. intros a r' E. by eapply scan_literal_len.
  - destruct (skip_ws s) as [|c r] eqn:Es; [done|]. apply skip_ws_cons in Es. destruct (negb _); [done|].
    apply consumes_bind; [|intros k r' E; apply (unquote_len _ _ _ _ (le_n _)) in E; lia]. intros k r1 _ H1.
    destruct (skip_ws r1) as [|c1 r2] eqn:E2; [done|]. apply skip_ws_cons in E2. destruct (negb _); [done|].
    apply consumes_bind; [|intros v r' E; apply IHv in E; lia]. intros v r3 _ H3.
    destruct (skip_ws r3) as [|c3 r4] eqn:E4; [done|]. apply skip_ws_cons in E4.
    destruct (bool_decide _); [apply consumes_Some; lia|]. destruct (bool_decide _); [|done].
    apply consumes_bind; [intros; by apply consumes_Some|intros l r' E; apply IHm in E; lia].
  - apply consumes_bind; [|apply IHv]. intros v r1 _ H1.
    destruct (skip_ws r1) as [|c r2] eqn:E2; [done|]. apply skip_ws_cons in E2.
    destruct (bool_decide _); [apply consumes_Some; lia|]. destruct (bool_decide _); [|done].
    apply consumes_bind; [intros; by apply consumes_Some|intros l r' E; apply IHe in E; lia].
Qed.

Lemma bind_agree {A B} (s : string) (m m' : option (A * string)) (k k' : A * string → option B) :
  consumes s m → m = m' → (∀ a r, (len r < len s)%nat → k (a, r) = k' (a, r)) → m ≫= k = m' ≫= k'.
Proof. intros Hm <- Hk. destruct m as [[a r]|]; simpl; [|done]. apply Hk. by eapply Hm. Qed.

Lemma bind_agree_l {A B} (m m' : option A) (k : A → option B) : m = m' → m ≫= k = m' ≫= k.
Proof. by intros ->. Qed.

(** More fuel than twice the length of the text changes nothing. *)
Lemma parse_fuel n :
  (∀ m d s, (2 * len s < n)%nat → (2 * len s < m)%nat → parse_value n d s = parse_value m d s) ∧
  (∀ m d s, (2 * len s < n)%nat → (2 * len s < m)%nat → parse_members n d s = parse_members m d s) ∧
  (∀ m d s, (2 * len s + 1 < n)%nat → (2 * len s + 1 < m)%nat → parse_elems n d s = parse_elems m d s).
Proof.
  induction n as [|n (IHv & IHm & IHe)]; [split_and!; lia|].
  split_and!; intros [|m] d s Hn Hm; try lia; cbn [parse_value parse_members parse_elems].
  - destruct (skip_ws s) as [|c r] eqn:Es; [done|]. apply skip_ws_cons in Es.
    destruct (bool_decide (c = "{"%char)); [|destruct (bool_decide (c = "["%char)); [|done]];
      (destruct (_ <=? _); [done|]); (destruct (skip_ws r) as [|e r'] eqn:Er; [done|]);
      (destruct (bool_decide _); [done|]); apply bind_agree_l; [apply IHm|apply IHe]; lia.
  - destruct (skip_ws s) as [|c r] eqn:Es; [done|]. apply skip_ws_cons in Es. destruct (negb _); [done|].
    apply (bind_agree r); [intros k r' E; by eapply unquote_len|done|]. intros k r1 H1.
    destruct (skip_ws r1) as [|c1 r2] eqn:E2; [done|]. apply skip_ws_cons in E2. destruct (negb _); [done|].
    apply (bind_agree r2); [apply parse_consumes|apply IHv; lia|]. intros v r3 H3.
    destruct (skip_ws r3) as [|c3 r4] eqn:E4; [done|]. apply skip_ws_cons in E4.
    destruct (bool_decide _); [done|]. destruct (bool_decide _); [|done]. apply bind_agree_l, IHm; lia.
  - apply (bind_agree s); [apply parse_consumes|apply IHv; lia|]. intros v r1 H1.
    destruct (skip_ws r1) as [|c r2] eqn:E2; [done|]. apply skip_ws_cons in E2.
    destruct (bool_decide _); [done|]. destruct (bool_decide _); [|done]. apply bind_agree_l, IHe; lia.
Qed.

(** The fuel of [json_parse] is enough: any larger number gives the same result. *)
Lemma json_parse_fuel n s :
  (2 * len s < n)%nat →
  json_parse s = ('(v, rest) ← parse_value n 0 s; if bool_decide (skip_ws rest = "") then Some v else None).
Proof. intros Hn. unfold json_parse. apply bind_agree_l. apply parse_fuel; lia. Qed.

(** ** Integers *)

(** [fmt] with [%d]: at most 20 characters for 64 bits. *)
Fixpoint print_dec (fuel : nat) (n : Z) (acc : string) : string :=
  match fuel with
  | O => acc
  | S fuel =>
      let acc := String (digit_char (n mod 10)) acc in
      if n <? 10 then acc else print_dec fuel (n / 10) acc
  end.
Definition int_string (z : Z) : string :=
  if z <? 0 then String "-" (print_dec 20 (- z) "") else print_dec 20 z "".

Fixpoint dec_digits (s : string) (n : Z) : option Z :=
  match s with
  | EmptyString => Some n
  | String c s => d ← dec_val c; dec_digits s (n * 10 + d)
  end.

(** [strconv.ParseInt(s, 10, 64)] *)
Definition int64_ok (z : Z) : bool := (- 2 ^ 63 <=? z) && (z <? 2 ^ 63).
Definition ParseInt64 (s : string) : option Z :=
  let '(neg, digits) := match s with
                        | String c r =>
                            if bool_decide (c = "-"%char) then (true, r)
                            else if bool_decide (c = "+"%char) then (false, r) else (false, s)
                        | EmptyString => (false, s)
                        end in
  if bool_decide (digits = "") then None
  else
    n ← dec_digits digits 0;
    let z := if neg then - n else n in
    if int64_ok z then Some z else None.

Lemma dec_val_digit d : 0 ≤ d < 10 → dec_val (digit_char d) = Some d.
Proof.
  intros Hd. assert (d = 0 ∨ d = 1 ∨ d = 2 ∨ d = 3 ∨ d = 4 ∨ d = 5 ∨ d = 6 ∨ d = 7 ∨ d = 8 ∨ d = 9) as H by lia.
  destruct_or? H; subst d; reflexivity.
Qed.

Lemma str_app_len a b : len (a +:+ b) = (len a + len b)%nat.
Proof. induction a as [|c a IH]; [done|]. rewrite str_cons_app. simpl. by rewrite IH. Qed.

Lemma span_digits_app a b :
  span_digits a = (a, "") → span_digits (a +:+ b) = (a +:+ (span_digits b).1, (span_digits b).2).
Proof.
  induction a as [|c a IH]; intros Ha.
  - rewrite !str_nil_app. by destruct (span_digits b).
  - simpl in Ha. rewrite !str_cons_app. simpl. case_bool_decide; [|done].
    destruct (span_digits a) as [d r]. injection Ha as -> ->. by rewrite IH.
Qed.

Lemma dec_digits_app a b k : dec_digits (a +:+ b) k = dec_digits a k ≫= dec_digits b.
Proof.
  revert k. induction a as [|c a IH]; intros k; [done|]. rewrite str_cons_app. simpl. destruct (dec_val c); simpl; [apply IH|done].
Qed.

(** The printed digits, whatever follows them. *)
Lemma print_dec_spec fuel n acc :
  0 ≤ n < 10 ^ Z.of_nat fuel → (0 < fuel)%nat →
  ∃ ds, print_dec fuel n acc = ds +:+ acc ∧ ds ≠ "" ∧ span_digits ds = (ds, "") ∧
    (∀ k, dec_digits ds k = Some (k * 10 ^ Z.of_nat (len ds) + n)) ∧
    (∀ r, ds = String "0" r → r = "").
Proof.
  revert n acc. induction fuel as [|fuel IH]; intros n acc Hn Hf; [lia|]. cbn [print_dec].
  pose proof (Z.mod_pos_bound n 10 ltac:(lia)) as Hd. pose proof (dec_val_digit _ Hd) as Hv.
  set (c := digit_char (n mod 10)) in *.
  assert (span_digits (String c "") = (String c "", "")) as Hs by (simpl; rewrite Hv; by case_bool_decide as H; [|destruct H]).
  destruct (Z.ltb_spec n 10) as [Hlt|Hge].
  - exists (String c ""). split; [done|]. split; [done|]. split; [done|]. split; [|by intros r [= _ <-]].
    intros k. cbn [dec_digits]. rewrite Hv. cbn [mbind option_bind]. f_equal. rewrite (Z.mod_small n 10) by lia. simpl. lia.
  - rewrite Nat2Z.inj_succ, Z.pow_succ_r in Hn by lia.
    destruct (IH (n / 10) (String c acc)) as (ds & -> & Hne & Hsp & Hval & Hz).
    + split; [apply Z.div_pos; lia|apply Z.div_lt_upper_bound; lia].
    + destruct fuel; [simpl in Hn; lia|lia].
    + exists (ds +:+ String c ""). split; [by rewrite str_app_assoc, str_cons_app, str_nil_app|].
      split; [by destruct ds|]. split; [by rewrite span_digits_app, Hs|]. split.
      * intros k. rewrite dec_digits_app, Hval. cbn [mbind option_bind dec_digits]. rewrite Hv. cbn [mbind option_bind].
        rewrite str_app_len, Nat2Z.inj_add. change (Z.of_nat (len (String c ""))) with 1.
        rewrite Z.pow_add_r by lia. f_equal. pose proof (Z.div_mod n 10 ltac:(lia)). lia.
      * destruct ds as [|c0 r0]; [done|]. intros r. rewrite str_cons_app. intros [= -> _].
        rewrite (Hz r0) in Hval by done. specialize (Hval 0). simpl in Hval.
        injection Hval as Hval. change (char_val "0") with 48 in Hval. exfalso. assert (1 ≤ n / 10) by (apply Z.div_le_lower_bound; lia). lia.
Qed.

(** A character that cannot continue an integer. *)
Definition int_ends (s : string) : Prop :=
  match s with String c _ => dec_val c = None ∧ c ≠ dot ∧ c ≠ "e"%char ∧ c ≠ "E"%char | EmptyString => True end.

Lemma scan_digits ds r :
  ds ≠ "" → span_digits ds = (ds, "") → (∀ t, ds = String "0" t → t = "") → int_ends r →
  ('(i, s) ← scan_int (ds +:+ r); '(f, s) ← scan_frac s; '(e, s) ← scan_exp s; Some (i +:+ f +:+ e, s)) = Some (ds, r).
Proof.
  intros Hne Hs Hz Hr.
  assert (scan_int (ds +:+ r) = Some (ds, r)) as ->.
  { destruct ds as [|c ds]; [done|]. rewrite str_cons_app. unfold scan_int. case_bool_decide as Hc.
    - subst c. by rewrite (Hz ds eq_refl).
    - unfold digits1. rewrite <- str_cons_app, (span_digits_app _ r Hs).
      assert (span_digits r = ("", r)) as -> by (destruct r as [|c' r]; [done|]; destruct Hr as [Hr _]; simpl; rewrite Hr; by case_bool_decide as H; [destruct H|]).
      simpl fst. simpl snd. rewrite str_app_nil_r. by rewrite bool_decide_false. }
  cbn [mbind option_bind].
  assert (scan_frac r = Some ("", r) ∧ scan_exp r = Some ("", r)) as [Hf He].
  { destruct r as [|c r]; [done|]. destruct Hr as (_ & H1 & H2 & H3). simpl. by rewrite !bool_decide_false by naive_solver. }
  rewrite Hf. cbn [mbind option_bind]. rewrite He. cbn [mbind option_bind]. by rewrite !str_app_nil_r.
Qed.

Lemma scan_int_string z r :
  int64_ok z = true → int_ends r → scan_number (int_string z +:+ r) = Some (int_string z, r).
Proof.
  intros Hz Hr. unfold int64_ok in Hz. boolify. unfold int_string, scan_number. destruct (Z.ltb_spec z 0).
  - destruct (print_dec_spec 20 (- z) "") as (ds & -> & Hne & Hs & _ & Hlz); [lia..|]. rewrite str_app_nil_r, str_cons_app.
    rewrite bool_decide_true by done. pose proof (scan_digits ds r Hne Hs Hlz Hr) as E.
    destruct (scan_int (ds +:+ r)) as [[i s1]|]; cbn [mbind option_bind] in E |- *; [|done].
    destruct (scan_frac s1) as [[f s2]|]; cbn [mbind option_bind] in E |- *; [|done].
    destruct (scan_exp s2) as [[e s3]|]; cbn [mbind option_bind] in E |- *; [|done]. injection E as <- <-. done.
  - destruct (print_dec_spec 20 z "") as (ds & -> & Hne & Hs & _ & Hlz); [lia..|]. rewrite str_app_nil_r.
    assert (∃ c t, ds +:+ r = String c t ∧ c ≠ "-"%char) as (c & t & Ec & Hc).
    { destruct ds as [|c t]; [done|]. exists c, (t +:+ r). split; [done|]. intros ->. by simpl in Hs. }
    rewrite Ec, bool_decide_false, <- Ec by done. by apply scan_digits.
Qed.

Lemma ParseInt64_string z : int64_ok z = true → ParseInt64 (int_string z) = Some z.
Proof.
  intros Hz. pose proof Hz as Hr. unfold int64_ok in Hr. boolify. unfold int_string, ParseInt64. destruct (Z.ltb_spec z 0).
  - destruct (print_dec_spec 20 (- z) "") as (ds & -> & Hne & _ & Hv & _); [lia..|]. rewrite str_app_nil_r.
    rewrite bool_decide_true, bool_decide_false, Hv by done. cbn [mbind option_bind].
    replace (- (0 * 10 ^ Z.of_nat (len ds) + - z)) with z by lia. by rewrite Hz.
  - destruct (print_dec_spec 20 z "") as (ds & -> & Hne & Hs & Hv & _); [lia..|]. rewrite str_app_nil_r.
    destruct ds as [|c t]; [done|].
    assert (c ≠ "-"%char ∧ c ≠ "+"%char) as [? ?] by (split; intros ->; by simpl in Hs).
    rewrite !bool_decide_false, Hv by done. cbn [mbind option_bind].
    replace (0 * 10 ^ Z.of_nat (len (String c t)) + z) with z by lia. by rewrite Hz.
Qed.

(** ** Plain text

    Text that is the same between quotes: UTF-8 without quotes, backslashes and
    control characters. *)
Fixpoint json_plain (s : string) : bool :=
  match s with
  | EmptyString => true
  | String c r =>
      if bool_decide (c = dquote ∨ c = backslash) || (char_val c <? 0x20) then false
      else if char_val c <? 0x80 then json_plain r
      else match utf8_len s, r with
           | 2%nat, String _ r | 3%nat, String _ (String _ r) | 4%nat, String _ (String _ (String _ r)) => json_plain r
           | _, _ => false
           end
  end.

Lemma utf8_len_app s t : utf8_len s ≠ 0%nat → utf8_len (s +:+ t) = utf8_len s.
Proof.
  destruct s as [|a [|b s]]; try done. rewrite !str_cons_app. unfold utf8_len.
  destruct (between 0xc2 0xdf a); [done|]. destruct (_ || _); [by destruct s|].
  destruct (_ || _); [|done]. by destruct s as [|? [|]].
Qed.

Lemma unquote_plain s r : json_plain s = true → unquote (s +:+ String dquote r) = Some (s, r).
Proof.
  remember (len s) as n eqn:Hn. revert s Hn. induction n as [n IH] using lt_wf_ind. intros [|c s] -> Hs; [done|].
  rewrite str_cons_app. cbn [json_plain] in Hs. cbn [unquote].
  destruct (bool_decide (c = dquote ∨ c = backslash)) eqn:Hc; [done|]. apply bool_decide_eq_false in Hc.
  rewrite !bool_decide_false by tauto. simpl orb in Hs. destruct (char_val c <? 0x20); [done|].
  assert (∀ t, (len t < len (String c s))%nat → json_plain t = true → unquote (t +:+ String dquote r) = Some (t, r)) as Hrec
    by (intros t Ht; by apply (IH (len t))).
  destruct (char_val c <? 0x80); [rewrite Hrec by (done || simpl; lia); done|].
  rewrite <- str_cons_app. destruct (utf8_len (String c s)) as [|k] eqn:Hk; [done|].
  rewrite utf8_len_app, Hk by (by rewrite Hk). simpl in Hrec.
  destruct k as [|[|[|[|]]]]; try (by destruct s as [|? [|? [|]]]).
  - destruct s as [|c1 s]; [done|]. rewrite str_cons_app, Hrec by (done || simpl; lia). done.
  - destruct s as [|c1 [|c2 s]]; try done. rewrite !str_cons_app, Hrec by (done || simpl; lia). done.
  - destruct s as [|c1 [|c2 [|c3 s]]]; try done. rewrite !str_cons_app, Hrec by (done || simpl; lia). done.
Qed.
