(* ===== verification/JsonText.v ===== *)
(** * JSON as [encoding/json] writes it

    The text of a value as [json.Marshal] gives it: no white space, and strings with
    the escapes of the standard library, which also cover [<], [>], [&] and the line
    separators of Unicode.  What is written is read back by [json_parse]. *)

From Stdlib Require Import Strings.Ascii.
From S2P Require Import Prelude GoNet Cidr GoNetText Json.

(** ** Strings *)

Definition hex_digit (d : Z) : ascii := digit_char d.

Definition escape_char (c : ascii) : string :=
  if bool_decide (c = dquote ∨ c = backslash) then String backslash (String c "")
  else if bool_decide (c = "008"%char) then "\b"
  else if bool_decide (c = "012"%char) then "\f"
  else if bool_decide (c = "010"%char) then "\n"
  else if bool_decide (c = "013"%char) then "\r"
  else if bool_decide (c = "009"%char) then "\t"
  else if (char_val c <? 0x20) || bool_decide (c = "<"%char ∨ c = ">"%char ∨ c = "&"%char)
  then "\u00" +:+ String (hex_digit (char_val c / 16)) (String (hex_digit (char_val c mod 16)) "")
  else String c "".

Fixpoint escape (s : string) : string :=
  match s with
  | EmptyString => ""
  | String c r =>
      if char_val c <? 0x80 then escape_char c +:+ escape r
      else
        match utf8_len s, r with
        | 2%nat, String c1 r => String c (String c1 (escape r))
        | 3%nat, String c1 (String c2 r) =>
            (if bool_decide (String c (String c1 (String c2 "")) = utf8_encode 0x2028) then "\u2028"
             else if bool_decide (String c (String c1 (String c2 "")) = utf8_encode 0x2029) then "\u2029"
             else String c (String c1 (String c2 ""))) +:+ escape r
        | 4%nat, String c1 (String c2 (String c3 r)) => String c (String c1 (String c2 (String c3 (escape r))))
        | _, _ => "\ufffd" +:+ escape r
        end
  end.

Definition quote (s : string) : string := String dquote (escape s +:+ String dquote "").

Fixpoint utf8_valid (s : string) : bool :=
  match s with
  | EmptyString => true
  | String c r =>
      if char_val c <? 0x80 then utf8_valid r
      else match utf8_len s, r with
           | 2%nat, String _ r | 3%nat, String _ (String _ r) | 4%nat, String _ (String _ (String _ r)) => utf8_valid r
           | _, _ => false
           end
  end.

(** Reading one more character. *)
Definition push (x : string) (o : option (string * string)) : option (string * string) :=
  '(t, rest) ← o; Some (x +:+ t, rest).

Lemma unquote_raw c t :
  c ≠ dquote → c ≠ backslash → 0x20 ≤ char_val c < 0x80 → unquote (String c t) = push (String c "") (unquote t).
Proof.
  intros H1 H2 H3. cbn [unquote]. rewrite !bool_decide_false by done.
  destruct (Z.ltb_spec (char_val c) 0x20); [lia|]. by destruct (Z.ltb_spec (char_val c) 0x80); [|lia].
Qed.

Lemma unquote_simple e c t :
  simple_escape e = Some c → unquote (String backslash (String e t)) = push (String c "") (unquote t).
Proof. intros He. cbn [unquote]. rewrite bool_decide_false, bool_decide_true, He by done. done. Qed.

Lemma unquote_hex h1 h2 h3 h4 u t :
  hex4 h1 h2 h3 h4 = Some u → is_surrogate u = false →
  unquote (String backslash (String "u" (String h1 (String h2 (String h3 (String h4 t)))))) = push (utf8_encode u) (unquote t).
Proof.
  intros Hh Hs. cbn [unquote]. rewrite bool_decide_false, bool_decide_true by done.
  change (simple_escape "u") with (@None ascii). cbv iota beta. rewrite bool_decide_true by done. cbn [negb].
  rewrite Hh. cbn [mbind option_bind]. by rewrite Hs.
Qed.

(** The code of a character below 128, in hexadecimal. *)
Lemma hex4_char c :
  char_val c < 0x80 →
  hex4 "0" "0" (hex_digit (char_val c / 16)) (hex_digit (char_val c mod 16)) = Some (char_val c) ∧
  utf8_encode (char_val c) = String c "" ∧ is_surrogate (char_val c) = false.
Proof. destruct c as [[] [] [] [] [] [] [] []]; intros Hc; try (by vm_compute in Hc); split_and!; vm_compute; reflexivity. Qed.

Lemma char_val_nonneg c : 0 ≤ char_val c.
Proof. unfold char_val. lia. Qed.

Lemma unquote_escape_char c t :
  char_val c < 0x80 → unquote (escape_char c +:+ t) = push (String c "") (unquote t).
Proof.
  intros Hc. unfold escape_char. pose proof (char_val_nonneg c).
  destruct (bool_decide_reflect (c = dquote ∨ c = backslash)) as [Hq|Hq].
  { rewrite !str_cons_app. apply unquote_simple. unfold simple_escape. rewrite bool_decide_true by tauto. done. }
  repeat (match goal with |- context [if bool_decide (c = ?x) then _ else _] =>
    destruct (bool_decide_reflect (c = x)) as [->|]; [by rewrite !str_cons_app; apply unquote_simple|] end).
  destruct (_ || _) eqn:Hu.
  - destruct (hex4_char c Hc) as (H1 & <- & H3). rewrite !str_cons_app. by apply unquote_hex.
  - rewrite !str_cons_app. apply orb_false_iff in Hu as [Hu _]. apply unquote_raw; [tauto..|lia].
Qed.

(** A sequence of more than one byte. *)
Lemma unquote_multi c c1 r :
  (char_val c <? 0x80) = false → utf8_len (String c (String c1 r)) ≠ 0%nat →
  unquote (String c (String c1 r)) =
    match utf8_len (String c (String c1 r)), r with
    | 3%nat, String c2 r => push (String c (String c1 (String c2 ""))) (unquote r)
    | 4%nat, String c2 (String c3 r) => push (String c (String c1 (String c2 (String c3 "")))) (unquote r)
    | 2%nat, r => push (String c (String c1 "")) (unquote r)
    | _, _ => push replacement (unquote (String c1 r))
    end.
Proof.
  intros Hc Hl. cbn [unquote].
  assert (c ≠ dquote ∧ c ≠ backslash) as [? ?] by (split; intros ->; by vm_compute in Hc).
  rewrite !bool_decide_false, Hc by done. destruct (Z.ltb_spec (char_val c) 0x20); [lia|].
  destruct (utf8_len _) as [|[|[|[|[|k]]]]]; [done|done|done|by destruct r|by destruct r as [|? [|]]|done].
Qed.

(** The length of a sequence depends on its bytes only. *)
Lemma utf8_len_2 a b s t : utf8_len (String a (String b s)) = 2%nat → utf8_len (String a (String b t)) = 2%nat.
Proof.
  unfold utf8_len. destruct (between 0xc2 0xdf a); [done|]. destruct (_ || _); [by destruct s; repeat case_match|].
  destruct (_ || _); [|done]. by destruct s as [|? [|]]; repeat case_match.
Qed.

Lemma utf8_len_3 a b c s t :
  utf8_len (String a (String b (String c s))) = 3%nat → utf8_len (String a (String b (String c t))) = 3%nat.
Proof.
  unfold utf8_len. destruct (between 0xc2 0xdf a); [done|]. destruct (_ || _); [done|].
  destruct (_ || _); [|done]. by destruct s; repeat case_match.
Qed.

Lemma utf8_len_4 a b c d s t :
  utf8_len (String a (String b (String c (String d s)))) = 4%nat →
  utf8_len (String a (String b (String c (String d t)))) = 4%nat.
Proof. unfold utf8_len. destruct (between 0xc2 0xdf a); [done|]. destruct (_ || _); [done|]. by destruct (_ || _). Qed.

Lemma unquote_escape s r : utf8_valid s = true → unquote (escape s +:+ String dquote r) = Some (s, r).
Proof.
  remember (len s) as n eqn:Hn. revert s Hn. induction n as [n IH] using lt_wf_ind. intros [|c s] -> Hs; [done|].
  assert (∀ t, (len t < S (len s))%nat → utf8_valid t = true → unquote (escape t +:+ String dquote r) = Some (t, r)) as Hrec
    by (intros t Ht; by apply (IH (len t))). clear IH.
  cbn [utf8_valid escape] in *. destruct (char_val c <? 0x80) eqn:Hc.
  { rewrite str_app_assoc, unquote_escape_char, (Hrec s) by (done || lia). done. }
  destruct (utf8_len (String c s)) as [|[|[|[|[|]]]]] eqn:Hk; try (by destruct s as [|? [|? [|]]]).
  - destruct s as [|c1 s]; [done|]. rewrite !str_cons_app. pose proof (utf8_len_2 c c1 s (escape s +:+ String dquote r) Hk) as Hl.
    rewrite unquote_multi, Hl by (done || by rewrite Hl). by rewrite Hrec by (done || simpl; lia).
  - destruct s as [|c1 [|c2 s]]; [done..|]. rewrite str_app_assoc.
    destruct (bool_decide_reflect (String c (String c1 (String c2 "")) = utf8_encode 0x2028)) as [E|].
    { rewrite !str_cons_app, str_nil_app, (unquote_hex _ _ _ _ 0x2028), <- E, Hrec by (done || simpl; lia). done. }
    destruct (bool_decide_reflect (String c (String c1 (String c2 "")) = utf8_encode 0x2029)) as [E|].
    { rewrite !str_cons_app, str_nil_app, (unquote_hex _ _ _ _ 0x2029), <- E, Hrec by (done || simpl; lia). done. }
    rewrite !str_cons_app, str_nil_app. pose proof (utf8_len_3 c c1 c2 s (escape s +:+ String dquote r) Hk) as Hl.
    rewrite unquote_multi, Hl by (done || by rewrite Hl). by rewrite Hrec by (done || simpl; lia).
  - destruct s as [|c1 [|c2 [|c3 s]]]; [done..|]. rewrite !str_cons_app.
    pose proof (utf8_len_4 c c1 c2 c3 s (escape s +:+ String dquote r) Hk) as Hl.
    rewrite unquote_multi, Hl by (done || by rewrite Hl). by rewrite Hrec by (done || simpl; lia).
Qed.

Lemma unquote_quote s t : utf8_valid s = true → ∃ r, quote s +:+ t = String dquote r ∧ unquote r = Some (s, t).
Proof.
  intros Hs. exists (escape s +:+ String dquote t). unfold quote. rewrite str_cons_app, str_app_assoc, str_cons_app.
  split; [done|]. by apply unquote_escape.
Qed.

(** ** Values *)

Definition bool_string (b : bool) : string := if b then "true" else "false".

Fixpoint commas (l : list string) : string :=
  match l with [] => "" | [x] => x | x :: l => x +:+ String "," (commas l) end.

Lemma commas_cons x l : l ≠ [] → commas (x :: l) = x +:+ String "," (commas l).
Proof. by destruct l. Qed.

Fixpoint print_json (v : json) : string :=
  match v with
  | JNull => "null"
  | JBool b => bool_string b
  | JNum s => s
  | JStr s => quote s
  | JArr l => String "[" (commas (map print_json l) +:+ "]")
  | JObj l => String "{" (commas (map (λ kv, quote kv.1 +:+ String ":" (print_json kv.2)) l) +:+ "}")
  end.

(** Values without numbers, whose strings are UTF-8. *)
Fixpoint json_ok (v : json) : bool :=
  match v with
  | JNull | JBool _ => true
  | JNum _ => false
  | JStr s => utf8_valid s
  | JArr l => forallb json_ok l
  | JObj l => forallb (λ kv, utf8_valid kv.1 && json_ok kv.2) l
  end.

Fixpoint json_depth (v : json) : Z :=
  match v with
  | JArr l => 1 + foldr (λ v d, json_depth v `max` d) 0 l
  | JObj l => 1 + foldr (λ kv d, json_depth kv.2 `max` d) 0 l
  | _ => 0
  end.

Fixpoint json_nested_ind (P : json → Prop) (Hnull : P JNull) (Hbool : ∀ b, P (JBool b)) (Hnum : ∀ s, P (JNum s))
    (Hstr : ∀ s, P (JStr s)) (Harr : ∀ l, Forall P l → P (JArr l)) (Hobj : ∀ l, Forall (λ kv, P kv.2) l → P (JObj l))
    (v : json) : P v :=
  let rec := json_nested_ind P Hnull Hbool Hnum Hstr Harr Hobj in
  match v with
  | JNull => Hnull
  | JBool b => Hbool b
  | JNum s => Hnum s
  | JStr s => Hstr s
  | JArr l => Harr l ((fix go l := match l return Forall P l with [] => Forall_nil_2 _ | v :: l => Forall_cons_2 _ _ _ (rec v) (go l) end) l)
  | JObj l => Hobj l ((fix go l := match l return Forall (λ kv, P kv.2) l with [] => Forall_nil_2 _ | kv :: l => Forall_cons_2 _ _ _ (rec kv.2) (go l) end) l)
  end.

(** A value is read back with enough fuel, whatever follows. *)
Definition reads (d : Z) (v : json) : Prop :=
  ∃ n0, ∀ n t, (n0 ≤ n)%nat → parse_value n d (print_json v +:+ t) = Some (v, t).

Lemma print_first v : json_ok v = true → ∃ c r, print_json v = String c r ∧ is_space c = false ∧ c ≠ "]"%char.
Proof. destruct v as [|[]|s|s|l|l]; intros Hv; try done; by eexists _, _. Qed.

Lemma reads_elems d l :
  l ≠ [] → Forall (reads d) l →
  ∃ n0, ∀ n t, (n0 ≤ n)%nat → parse_elems n d (commas (map print_json l) +:+ String "]" t) = Some (l, t).
Proof.
  induction l as [|v l IH]; [done|]. intros _ [[n1 Hv] Hl]%Forall_cons. destruct l as [|v' l].
  - exists (S n1). intros [|n] t Hn; [lia|]. cbn [map commas parse_elems]. rewrite Hv by lia. done.
  - destruct IH as [n2 Hr]; [done|done|]. exists (S (n1 + n2)). intros [|n] t Hn; [lia|].
    set (l' := v' :: l) in *. cbn [map parse_elems].
    rewrite commas_cons by done. rewrite str_app_assoc, Hv by lia. cbn [mbind option_bind]. rewrite str_cons_app.
    change (skip_ws (String "," ?x)) with (String "," x). cbv iota beta. rewrite bool_decide_false, bool_decide_true by done.
    by rewrite Hr by lia.
Qed.

Lemma reads_members d l :
  l ≠ [] → Forall (λ kv, utf8_valid kv.1 = true ∧ reads d kv.2) l →
  ∃ n0, ∀ n t, (n0 ≤ n)%nat →
    parse_members n d (commas (map (λ kv, quote kv.1 +:+ String ":" (print_json kv.2)) l) +:+ String "}" t) = Some (l, t).
Proof.
  assert (∀ k v u w n, utf8_valid k = true → parse_value n d u = Some (v, w) →
    parse_members (S n) d (quote k +:+ String ":" u) =
      match skip_ws w with
      | EmptyString => None
      | String c r => if bool_decide (c = "}"%char) then Some ([(k, v)], r)
                      else if bool_decide (c = ","%char) then '(l, r) ← parse_members n d r; Some ((k, v) :: l, r) else None
      end) as Hone.
  { intros k v u w n Hk Hv. destruct (unquote_quote k (String ":" u) Hk) as (r & -> & Hr). cbn [parse_members].
    change (skip_ws (String dquote r)) with (String dquote r). cbv iota beta. rewrite bool_decide_true by done. cbn [negb].
    rewrite Hr. cbn [mbind option_bind]. change (skip_ws (String ":" u)) with (String ":" u). cbv iota beta.
    rewrite bool_decide_true by done. cbn [negb]. by rewrite Hv. }
  induction l as [|[k v] l IH]; [done|]. intros _ [[Hk [n1 Hv]] Hl]%Forall_cons. simpl in Hk, Hv. destruct l as [|kv l].
  - exists (S n1). intros [|n] t Hn; [lia|]. cbn [map commas fst snd]. rewrite str_app_assoc, str_cons_app.
    by rewrite (Hone k v _ _ n Hk (Hv n _ ltac:(lia))).
  - destruct IH as [n2 Hr]; [done|done|]. exists (S (n1 + n2)). intros [|n] t Hn; [lia|].
    set (l' := kv :: l) in *. cbn [map fst snd].
    rewrite commas_cons by done. rewrite !str_app_assoc, !str_cons_app. rewrite (Hone k v _ _ n Hk (Hv n _ ltac:(lia))).
    change (skip_ws (String "," ?x)) with (String "," x). cbv iota beta. rewrite bool_decide_false, bool_decide_true by done.
    by rewrite Hr by lia.
Qed.

Lemma depth_elems {A} (f : A → Z) x l : x ∈ l → f x ≤ foldr (λ v d, f v `max` d) 0 l.
Proof. induction l as [|y l IH]; [by intros ?%not_elem_of_nil|]. intros [->|Hx]%elem_of_cons; simpl; [lia|]. specialize (IH Hx). lia. Qed.

(** Arrays and objects open with one bracket more. *)
Lemma parse_open (c close : ascii) n d s :
  (c = "["%char ∧ close = "]"%char ∨ c = "{"%char ∧ close = "}"%char) → d < max_depth → (∃ e r, s = String e r ∧ is_space e = false ∧ e ≠ close) →
  parse_value (S n) d (String c s) =
    if bool_decide (c = "["%char) then '(l, rest) ← parse_elems n (d + 1) s; Some (JArr l, rest)
    else '(l, rest) ← parse_members n (d + 1) s; Some (JObj l, rest).
Proof.
  intros Hc Hd (e & r & -> & He & Hne). destruct (Z.leb_spec max_depth d) as [|Hlt]; [lia|]. apply Z.leb_gt in Hlt.
  assert (skip_ws (String e r) = String e r) as Hs by (simpl; by rewrite He).
  destruct Hc as [[-> ->]|[-> ->]]; cbn [parse_value].
  - change (skip_ws (String "[" ?x)) with (String "[" x). cbv iota beta. rewrite bool_decide_false, bool_decide_true by done.
    rewrite Hlt, Hs. by rewrite bool_decide_false.
  - change (skip_ws (String "{" ?x)) with (String "{" x). cbv iota beta. rewrite bool_decide_true, bool_decide_false by done.
    rewrite Hlt, Hs. by rewrite bool_decide_false.
Qed.

Lemma print_reads v d : json_ok v = true → 0 ≤ d → d + json_depth v ≤ max_depth → reads d v.
Proof.
  revert d. induction v as [|b|s|s|l IH|l IH] using json_nested_ind; intros d Hv H0 Hd; simpl in Hv; try done.
  - exists 1%nat. intros [|n] t Hn; [lia|]. done.
  - exists 1%nat. intros [|n] t Hn; [lia|]. by destruct b.
  - exists 1%nat. intros [|n] t Hn; [lia|]. cbn [print_json]. destruct (unquote_quote s t Hv) as (r & -> & Hr). cbn [parse_value].
    change (skip_ws (String dquote r)) with (String dquote r). cbv iota beta. rewrite !bool_decide_false, bool_decide_true by done.
    by rewrite Hr.
  - cbn [json_depth] in Hd. rewrite forallb_forall in Hv. destruct l as [|v l].
    { exists 1%nat. intros [|n] t Hn; [lia|]. cbn. destruct (Z.leb_spec max_depth d); [simpl in Hd; lia|]. done. }
    set (l' := v :: l) in *. destruct (reads_elems (d + 1) l') as [n0 Hr]; [done| |].
    { rewrite Forall_forall in IH |- *. intros x Hx. apply IH; [done|apply Hv; by apply list_elem_of_In|lia|].
      pose proof (depth_elems json_depth x l' Hx). lia. }
    exists (S n0). intros [|n] t Hn; [lia|]. cbn [print_json]. rewrite str_cons_app, str_app_assoc.
    rewrite (parse_open "[" "]"); [|by left| |].
    + rewrite bool_decide_true by done. change ("]" +:+ t) with (String "]" t). by rewrite Hr by lia.
    + assert (0 ≤ foldr (λ v d, json_depth v `max` d) 0 l') by (clear; induction l'; simpl; lia). lia.
    + destruct (print_first v) as (c & r & E & Hc); [apply Hv; by left|]. subst l'. cbn [map]. destruct l; cbn [map commas]; rewrite E; eauto.
  - cbn [json_depth] in Hd. rewrite forallb_forall in Hv. destruct l as [|kv l].
    { exists 1%nat. intros [|n] t Hn; [lia|]. cbn. destruct (Z.leb_spec max_depth d); [simpl in Hd; lia|]. done. }
    set (l' := kv :: l) in *. destruct (reads_members (d + 1) l') as [n0 Hr]; [done| |].
    { rewrite Forall_forall in IH |- *. intros x Hx. destruct (andb_prop _ _ (Hv x ltac:(by apply list_elem_of_In))) as [H1 H2].
      split; [done|]. apply IH; [done..|lia|]. pose proof (depth_elems (λ kv, json_depth kv.2) x l' Hx). simpl in *. lia. }
    exists (S n0). intros [|n] t Hn; [lia|]. cbn [print_json]. rewrite str_cons_app, str_app_assoc.
    rewrite (parse_open "{" "}"); [|by right| |].
    + rewrite bool_decide_false by done. change ("}" +:+ t) with (String "}" t). by rewrite Hr by lia.
    + assert (0 ≤ foldr (λ kv d, json_depth kv.2 `max` d) 0 l') by (clear; induction l'; simpl; lia). lia.
    + subst l'. cbn [map]. unfold quote. destruct l; cbn [map commas]; rewrite !str_cons_app; eauto.
Qed.

(** What is written is read back. *)
Lemma print_parse v : json_ok v = true → json_depth v ≤ max_depth → json_parse (print_json v) = Some v.
Proof.
  intros Hv Hd. destruct (print_reads v 0 Hv ltac:(lia) ltac:(lia)) as [n0 Hr].
  rewrite (json_parse_fuel (S (n0 + 2 * len (print_json v)))) by lia. specialize (Hr (S (n0 + 2 * len (print_json v))) "" ltac:(lia)).
  rewrite str_app_nil_r in Hr. by rewrite Hr.
Qed.
