(* ===== verification/FileSystem.v ===== *)
(** * Files: [path/filepath] and [os] as the daemon uses them

    The file system is a map from paths to nodes.  A path is a list of names,
    resolved from its text the way [filepath.Clean] does (there are no symbolic
    links).  A program is a function of an environment and a [world]: the file
    system, the states it has been in, and the number of system calls made.  The
    environment decides which calls fail, how much of a failing copy is written,
    and the random numbers.  No other process changes the files meanwhile. *)

From Stdlib Require Import Strings.Ascii.
From S2P Require Import Prelude GoNet Cidr GoNetText Json.

(** ** Paths *)

(** [strings.Split] at one character. *)
Fixpoint split_on (sep : ascii) (s : string) : list string :=
  match s with
  | EmptyString => [""]
  | String c s =>
      let l := split_on sep s in
      if bool_decide (c = sep) then "" :: l
      else match l with x :: l => String c x :: l | [] => [String c ""] end
  end.

Record path := mkPath { rooted : bool; names : list string }.

#[global] Instance path_eq_dec : EqDecision path.
Proof. solve_decision. Defined.
#[global] Instance path_countable : Countable path.
Proof. by refine (inj_countable' (λ p, (rooted p, names p)) (λ '(r, n), mkPath r n) _); intros []. Defined.

(** The names of a path, the last one first: empty names and [.] are dropped, [..]
    drops the name before it. *)
Definition clean_name (r : bool) (acc : list string) (x : string) : list string :=
  if bool_decide (x = "" ∨ x = ".") then acc
  else if bool_decide (x = "..") then
    match acc with
    | y :: acc' => if bool_decide (y = "..") then x :: acc else acc'
    | [] => if r then [] else [x]
    end
  else x :: acc.

Definition is_rooted (s : string) : bool := match s with String c _ => bool_decide (c = slash) | EmptyString => false end.

Definition resolve (s : string) : path :=
  mkPath (is_rooted s) (rev (foldl (clean_name (is_rooted s)) [] (split_on slash s))).

Fixpoint join_names (l : list string) : string :=
  match l with [] => "" | [x] => x | x :: l => x +:+ String slash (join_names l) end.

Definition render (p : path) : string :=
  if rooted p then String slash (join_names (names p))
  else if bool_decide (names p = []) then "." else join_names (names p).

(** [filepath.Clean], [filepath.Join] of two elements and [filepath.Dir] *)
Definition Clean (s : string) : string := render (resolve s).

Definition Join (a b : string) : string :=
  if bool_decide (a = "") then if bool_decide (b = "") then "" else Clean b
  else Clean (a +:+ String slash b).

(** The text up to and with the last slash. *)
Fixpoint upto_slash (s : string) : string :=
  match s with
  | EmptyString => ""
  | String c s => if str_has slash s || bool_decide (c = slash) then String c (upto_slash s) else ""
  end.
Definition Dir (s : string) : string := Clean (upto_slash s).

Example path_examples :
  Clean "/a//b/./../c/" = "/a/c" ∧ Clean "" = "." ∧ Clean "/.." = "/" ∧ Clean "../x/.." = ".." ∧
  Join "/opt/cni/bin/" "nv-ipam" = "/opt/cni/bin/nv-ipam" ∧ Join "" "b" = "b" ∧
  Dir "/var/lib/store" = "/var/lib" ∧ Dir "store" = "." ∧ Dir "/store" = "/".
Proof. vm_compute. split_and!; reflexivity. Qed.

(** ** Nodes and system calls *)

Inductive node := File (data : string) (mode : Z) | Directory | Socket.
Abbreviation fs := (gmap path node).

#[global] Instance node_eq_dec : EqDecision node.
Proof. solve_decision. Defined.

Inductive os_error := ENOENT | EEXIST | EIO | EINVAL.
#[global] Instance os_error_eq_dec : EqDecision os_error.
Proof. solve_decision. Defined.

Record io_env := mkEnvIO {
  io_fail : nat → bool;       (* the n-th call fails *)
  io_written : nat → nat;     (* what a failing copy has written *)
  io_random : nat → Z;        (* the numbers of temporary names *)
  io_TempDir : string;
}.

Record world := mkWorld { w_fs : fs; w_past : list fs; w_calls : nat }.
Definition start (f : fs) : world := mkWorld f [] 0.

(** The states of the file system up to now. *)
Definition visited (w : world) : list fs := w_fs w :: w_past w.

(** A program ends with a value or an error. *)
Definition prog (E A : Type) : Type := io_env → world → world * result E A.
Abbreviation io := (prog os_error).

(** A call that the environment lets through acts on the file system. *)
Definition syscall {A} (act : io_env → nat → fs → result os_error (A * fs)) : io A := λ e w,
  let n := w_calls w in
  if io_fail e n then (mkWorld (w_fs w) (w_past w) (S n), Err EIO)
  else match act e n (w_fs w) with
       | Ok (a, g) => (mkWorld g (w_fs w :: w_past w) (S n), Ok a)
       | Err err => (mkWorld (w_fs w) (w_past w) (S n), Err err)
       end.

(** What is at a path; the empty path names nothing. *)
Definition at_path (f : fs) (s : string) : option node := if bool_decide (s = "") then None else f !! resolve s.

Definition Stat (s : string) : io node :=
  syscall (λ _ _ f, match at_path f s with Some n => Ok (n, f) | None => Err ENOENT end).

(** [resolve s] has something in it. *)
Definition has_children (f : fs) (p : path) : bool :=
  existsb (λ kv, bool_decide (rooted kv.1 = rooted p ∧ take (length (names p)) (names kv.1) = names p ∧
                              (length (names p) < length (names kv.1))%nat)) (map_to_list f).

Definition Remove (s : string) : io unit :=
  syscall (λ _ _ f,
    match at_path f s with
    | None => Err ENOENT
    | Some Directory => if has_children f (resolve s) then Err EEXIST else Ok (tt, delete (resolve s) f)
    | Some _ => Ok (tt, delete (resolve s) f)
    end).

Definition is_dir (f : fs) (s : string) : bool := bool_decide (at_path f s = Some Directory).

(** [os.CreateTemp(dir, pattern)] for a pattern without a star: the name of the new
    file, the pattern followed by a random number that is not in use. *)
Fixpoint ends_in_slash (s : string) : bool :=
  match s with
  | EmptyString => false
  | String c EmptyString => bool_decide (c = slash)
  | String _ s => ends_in_slash s
  end.

Definition temp_name (dir pattern : string) (z : Z) : string :=
  (if ends_in_slash dir then dir else dir +:+ String slash "") +:+ pattern +:+ int_string (z mod 2 ^ 32).

Fixpoint try_temp (e : io_env) (f : fs) (dir pattern : string) (tries n : nat) : option string :=
  match tries with
  | O => None
  | S tries =>
      let name := temp_name dir pattern (io_random e n) in
      match at_path f name with None => Some name | Some _ => try_temp e f dir pattern tries (S n) end
  end.

Definition max_tries : nat := Z.to_nat 10000.
Lemma max_tries_S : ∃ k, max_tries = S k.
Proof. unfold max_tries. exists (Z.to_nat 9999). by rewrite <- Z2Nat.inj_succ. Qed.
#[global] Opaque max_tries.

Definition CreateTemp (dir pattern : string) : io string :=
  syscall (λ e n f,
    let dir := if bool_decide (dir = "") then io_TempDir e else dir in
    if str_has slash pattern then Err EINVAL
    else if negb (is_dir f dir) then Err ENOENT
    else match try_temp e f dir pattern max_tries n with
         | None => Err EEXIST
         | Some name => Ok (name, <[resolve name := File "" 384]> f)
         end).

(** [os.Open] for reading: the node; a socket cannot be opened. *)
Definition Open_file (s : string) : io node :=
  syscall (λ _ _ f, match at_path f s with
                    | None => Err ENOENT
                    | Some Socket => Err EIO
                    | Some n => Ok (n, f)
                    end).

Fixpoint str_take (n : nat) (s : string) : string :=
  match n, s with S n, String c s => String c (str_take n s) | _, _ => "" end.

(** [io.Copy] into the new file [name]; one that fails has written a part. *)
Definition set_data (f : fs) (name data : string) : fs :=
  match at_path f name with Some (File _ m) => <[resolve name := File data m]> f | _ => f end.

Definition Copy (name : string) (src : node) : io unit := λ e w,
  let n := w_calls w in
  match src with
  | File data _ =>
      if io_fail e n
      then (mkWorld (set_data (w_fs w) name (str_take (io_written e n) data)) (w_fs w :: w_past w) (S n), Err EIO)
      else (mkWorld (set_data (w_fs w) name data) (w_fs w :: w_past w) (S n), Ok tt)
  | _ => (mkWorld (w_fs w) (w_past w) (S n), Err EIO)
  end.

(** [f.Sync] and [f.Close] of a written file. *)
Definition Flush : io unit := syscall (λ _ _ f, Ok (tt, f)).

Definition Chmod (s : string) (mode : Z) : io unit :=
  syscall (λ _ _ f, match at_path f s with
                    | None => Err ENOENT
                    | Some (File d _) => Ok (tt, <[resolve s := File d mode]> f)
                    | Some _ => Ok (tt, f)
                    end).

(** The directory that has the path. *)
Definition parent (p : path) : path := mkPath (rooted p) (removelast (names p)).

Definition Rename (old new : string) : io unit :=
  syscall (λ _ _ f,
    match at_path f old with
    | None => Err ENOENT
    | Some n =>
        if is_dir f new then Err EEXIST
        else if negb (bool_decide (f !! parent (resolve new) = Some Directory)) then Err ENOENT
        else Ok (tt, <[resolve new := n]> (delete (resolve old) f))
    end).

(** ** Programs *)

Definition ret {E A} (a : A) : prog E A := λ _ w, (w, Ok a).
Definition fail {E A} (err : E) : prog E A := λ _ w, (w, Err err).

(** A call whose error is handled by [h]. *)
Definition attempt {E A B} (m : io A) (h : os_error → prog E B) (k : A → prog E B) : prog E B := λ e w,
  let '(w, r) := m e w in match r with Ok a => k a e w | Err err => h err e w end.

Definition pbind {E A B} (m : prog E A) (k : A → prog E B) : prog E B := λ e w,
  let '(w, r) := m e w in match r with Ok a => k a e w | Err err => (w, Err err) end.

Notation "'let?' x := m 'else' h 'in' k" := (attempt m h (λ x, k))
  (at level 10, x pattern, m at level 100, h at level 100, k at level 200) : ipam_scope.
Notation "'let*' x := m 'in' k" := (pbind m (λ x, k))
  (at level 10, x pattern, m at level 100, k at level 200) : ipam_scope.

(** ** Paths and their text *)

(** A name that stays a name. *)
Definition plain_name (x : string) : Prop := str_has slash x = false ∧ x ≠ "" ∧ x ≠ "." ∧ x ≠ "..".

Lemma split_on_no_sep x : str_has slash x = false → split_on slash x = [x].
Proof.
  induction x as [|c x IH]; [done|]. cbn [str_has]. intros Hc. apply orb_false_iff in Hc as [Hc Hx].
  apply bool_decide_eq_false in Hc. cbn [split_on]. rewrite IH, bool_decide_false by done. done.
Qed.

Lemma split_on_ne s : split_on slash s ≠ [].
Proof. destruct s as [|c s]; simpl; [done|]. case_bool_decide; [done|]. by destruct (split_on slash s). Qed.

Lemma split_on_app a b : split_on slash (a +:+ String slash b) = split_on slash a ++ split_on slash b.
Proof.
  induction a as [|c a IH]; [done|]. rewrite str_cons_app. cbn [split_on]. rewrite IH.
  case_bool_decide; [done|]. pose proof (split_on_ne a). by destruct (split_on slash a).
Qed.

Lemma split_on_names s : Forall (λ x, str_has slash x = false) (split_on slash s).
Proof.
  induction s as [|c s IH]; cbn [split_on]; [by constructor|]. case_bool_decide as Hc; [by constructor|].
  destruct IH as [|x l Hx Hl]; constructor; try done; cbn [str_has]; by rewrite ?Hx, bool_decide_false by congruence.
Qed.

(** The names of a path after cleaning, the last first: plain names, and before them
    as many [..] as were left over. *)
Definition clean_form (r : bool) (acc : list string) : Prop :=
  ∃ l k, acc = l ++ replicate k ".." ∧ Forall plain_name l ∧ (r = true → k = 0%nat).

Lemma clean_name_form r acc x : str_has slash x = false → clean_form r acc → clean_form r (clean_name r acc x).
Proof.
  intros Hx (l & k & -> & Hl & Hr). unfold clean_name. case_bool_decide as H1; [by exists l, k|].
  case_bool_decide as H2.
  - subst x. destruct l as [|y l]; simpl.
    + destruct k as [|k]; simpl.
      * destruct r; [by exists [], 0%nat|]. by exists [], 1%nat.
      * exists [], (S (S k)). split_and!; [done|constructor|]. intros ?. by apply Hr in H.
    + inversion Hl as [|?? (_ & _ & _ & Hy) Hl']; subst. rewrite bool_decide_false by done. by exists l, k.
  - exists (x :: l), k. split_and!; [done| |done]. constructor; [|done]. split_and!; try done; tauto.
Qed.

Lemma resolve_form s : clean_form (is_rooted s) (rev (names (resolve s))).
Proof.
  unfold resolve. cbn [names]. rewrite rev_involutive.
  assert (∀ r l acc, Forall (λ x, str_has slash x = false) l → clean_form r acc → clean_form r (foldl (clean_name r) acc l)) as H.
  { intros r l. induction l as [|x l IH]; intros acc Hl Hacc; [done|]. inversion Hl; subst. simpl.
    apply IH; [done|]. by apply clean_name_form. }
  apply H; [apply split_on_names|]. by exists [], 0%nat.
Qed.

Lemma split_join_names l :
  l ≠ [] → Forall (λ x, str_has slash x = false) l → split_on slash (join_names l) = l.
Proof.
  induction l as [|x [|y l] IH]; intros Hne Hl; inversion Hl as [|?? Hx Hl']; subst; [done|by apply split_on_no_sep|].
  change (join_names (x :: y :: l)) with (x +:+ String slash (join_names (y :: l))).
  rewrite split_on_app, split_on_no_sep, IH by done. done.
Qed.

(** Names in clean form are kept by cleaning. *)
Lemma foldl_clean r acc : clean_form r acc → foldl (clean_name r) [] (rev acc) = acc.
Proof.
  intros (l & k & -> & Hl & Hr). rewrite rev_app_distr, foldl_app.
  assert (foldl (clean_name r) [] (rev (replicate k "..")) = replicate k "..") as ->.
  { destruct r; [by rewrite Hr|]. clear. induction k as [|k IH]; [done|].
    replace (rev (replicate (S k) "..")) with (rev (replicate k "..") ++ [".."]) by done.
    rewrite foldl_app, IH. simpl. by destruct k. }
  induction Hl as [|x l (_ & Hx) Hl IH]; [done|]. simpl rev. rewrite foldl_app, IH. simpl. unfold clean_name.
  by rewrite !bool_decide_false by naive_solver.
Qed.

(** Cleaning does not change what a text names. *)
Lemma resolve_Clean s : resolve (Clean s) = resolve s.
Proof.
  pose proof (resolve_form s) as Hf. unfold Clean. set (p := resolve s) in *.
  assert (rooted p = is_rooted s) as Hr by done. rewrite <- Hr in Hf. clearbody p. clear Hr s.
  destruct p as [r l]. cbn [names rooted] in Hf. pose proof (foldl_clean _ _ Hf) as Hfold. rewrite rev_involutive in Hfold.
  assert (Forall (λ x, str_has slash x = false ∧ x ≠ "") l) as Hl.
  { destruct Hf as (l' & k & E & Hl' & _). apply (f_equal (@rev string)) in E. rewrite rev_involutive in E. subst l.
    apply Forall_rev, Forall_app. split; [eapply Forall_impl; [exact Hl'|]; by intros x (? & ? & _)|]. by apply Forall_replicate. }
  assert (Forall (λ x, str_has slash x = false) l) as Hl' by (eapply Forall_impl; [exact Hl|]; by intros x [? _]).
  unfold render, resolve. cbn [rooted names]. destruct r.
  - cbn [is_rooted]. rewrite bool_decide_true by done. f_equal.
    change (split_on slash (String slash (join_names l))) with ("" :: split_on slash (join_names l)).
    destruct l as [|x l]; [done|]. rewrite split_join_names by done.
    change (foldl (clean_name true) [] ("" :: x :: l)) with (foldl (clean_name true) [] (x :: l)).
    rewrite Hfold. by rewrite rev_involutive.
  - destruct l as [|x l]; [done|]. rewrite bool_decide_false by done.
    assert (is_rooted (join_names (x :: l)) = false) as ->.
    { apply Forall_cons in Hl as [[Hx Hne] _]. destruct x as [|c x]; [done|]. cbn [str_has] in Hx.
      apply orb_false_iff in Hx as [Hc%bool_decide_eq_false _]. destruct l; simpl; by rewrite bool_decide_false by congruence. }
    rewrite split_join_names, Hfold by done. by rewrite rev_involutive.
Qed.

(** A plain name in a directory. *)
Definition in_dir (dir : string) (x : string) : path := mkPath (rooted (resolve dir)) (names (resolve dir) ++ [x]).

Lemma resolve_in_dir dir x : dir ≠ "" → plain_name x → resolve (dir +:+ String slash x) = in_dir dir x.
Proof.
  intros Hd (Hx & Hx'). unfold in_dir, resolve. cbn [rooted names].
  assert (is_rooted (dir +:+ String slash x) = is_rooted dir) as -> by (by destruct dir).
  rewrite split_on_app, foldl_app, (split_on_no_sep x) by done. f_equal. simpl. unfold clean_name at 1.
  rewrite !bool_decide_false by naive_solver. done.
Qed.

Lemma resolve_Join dir x : dir ≠ "" → plain_name x → resolve (Join dir x) = in_dir dir x.
Proof. intros Hd Hx. unfold Join. rewrite bool_decide_false by done. rewrite resolve_Clean. by apply resolve_in_dir. Qed.

Lemma ends_in_slash_spec dir : ends_in_slash dir = true → ∃ d, dir = d +:+ String slash "".
Proof.
  induction dir as [|c dir IH]; [done|]. destruct dir as [|c' dir].
  - simpl. case_bool_decide; [|done]. subst. by exists "".
  - intros (d & ->)%IH. by exists (String c d).
Qed.

Lemma span_digits_no_slash ds : span_digits ds = (ds, "") → str_has slash ds = false.
Proof.
  induction ds as [|c ds IH]; [done|]. simpl. case_bool_decide as Hc; [|done]. destruct (span_digits ds) as [d r].
  intros [= -> ->]. rewrite IH by done. rewrite bool_decide_false; [done|]. intros <-. by destruct Hc.
Qed.

Lemma int_string_no_slash z : 0 ≤ z < 2 ^ 63 → str_has slash (int_string z) = false.
Proof.
  intros Hz. unfold int_string. rewrite (proj2 (Z.ltb_ge _ _)) by lia.
  destruct (print_dec_spec 20 z "") as (ds & -> & _ & Hs & _); [lia..|]. rewrite str_app_nil_r. by apply span_digits_no_slash.
Qed.

(** The name of a temporary file. *)
Lemma resolve_temp dir pattern z :
  dir ≠ "" → plain_name (pattern +:+ int_string (z mod 2 ^ 32)) →
  resolve (temp_name dir pattern z) = in_dir dir (pattern +:+ int_string (z mod 2 ^ 32)).
Proof.
  intros Hd Hp. unfold temp_name. set (x := pattern +:+ _) in *. destruct (ends_in_slash dir) eqn:Es.
  - apply ends_in_slash_spec in Es as (d & ->). rewrite str_app_assoc, str_cons_app, str_nil_app.
    destruct (decide (d = "")) as [->|Hne].
    + rewrite str_nil_app. unfold in_dir, resolve. cbn [is_rooted]. rewrite !bool_decide_true by done. cbn [rooted names]. f_equal.
      change (split_on slash (String slash x)) with ("" :: split_on slash x). destruct Hp as (Hx & Hx').
      rewrite split_on_no_sep by done. simpl. unfold clean_name at 1. by rewrite !bool_decide_false by naive_solver.
    + rewrite resolve_in_dir by done. unfold in_dir, resolve. cbn [rooted names].
      assert (is_rooted (d +:+ String slash "") = is_rooted d) as -> by (by destruct d).
      by rewrite split_on_app, foldl_app.
  - by rewrite str_app_assoc, str_cons_app, str_nil_app, resolve_in_dir.
Qed.

(** ** What calls do *)

Lemma syscall_cases {A} (act : io_env → nat → fs → result os_error (A * fs)) e w :
  let '(w', r) := syscall act e w in
  match r with
  | Err _ => visited w' = visited w
  | Ok a => ∃ g, act e (w_calls w) (w_fs w) = Ok (a, g) ∧ w_fs w' = g ∧ visited w' = g :: visited w
  end.
Proof.
  unfold syscall. destruct (io_fail e (w_calls w)); [done|].
  destruct (act e (w_calls w) (w_fs w)) as [[a g]|err] eqn:E; [|done]. by exists g.
Qed.

Lemma Clean_ne s : Clean s ≠ "".
Proof.
  unfold Clean, render. destruct (rooted _); [done|]. case_bool_decide as Hn; [done|].
  pose proof (resolve_form s) as (l & k & E & Hl & _). set (ns := names (resolve s)) in *.
  assert (Forall (λ x, x ≠ "") ns) as Hns.
  { rewrite <- (rev_involutive ns), E. apply Forall_rev, Forall_app. split; [|by apply Forall_replicate].
    eapply Forall_impl; [exact Hl|]. by intros x (_ & ? & _). }
  destruct ns as [|x [|y ns]]; [done|by apply Forall_cons in Hns as [? _]|]. simpl. by destruct x.
Qed.

Lemma Join_ne a b : a ≠ "" ∨ b ≠ "" → Join a b ≠ "".
Proof. intros H. unfold Join. repeat case_bool_decide; try apply Clean_ne. naive_solver. Qed.

Lemma at_path_Clean f s : at_path f (Clean s) = f !! resolve s.
Proof. unfold at_path. rewrite bool_decide_false by apply Clean_ne. by rewrite resolve_Clean. Qed.

Lemma at_path_Some f s n : at_path f s = Some n → f !! resolve s = Some n.
Proof. unfold at_path. by case_bool_decide. Qed.

Lemma try_temp_spec e f dir pattern tries n name :
  try_temp e f dir pattern tries n = Some name → at_path f name = None ∧ ∃ z, name = temp_name dir pattern z.
Proof.
  revert n. induction tries as [|tries IH]; intros n; simpl; [done|].
  destruct (at_path f (temp_name _ _ _)) eqn:E; [apply IH|]. intros [= <-]. split; [done|]. by eexists.
Qed.

Lemma temp_name_ne dir pattern z : pattern ≠ "" → temp_name dir pattern z ≠ "".
Proof. unfold temp_name. destruct (ends_in_slash dir); destruct dir, pattern; done. Qed.
