(* ===== verification/ApiTypes.v ===== *)
(** * The pool resources: [api/v1alpha1/*_type.go]

    The custom resources a cluster administrator creates (specification) and
    the controller fills in (status).  Of the Kubernetes metadata the program
    reads the name and the namespace. *)

From S2P Require Import Prelude.

(** ** Common types *)

Record ExcludeRange := mkExcludeRange { er_StartIP : string; er_EndIP : string }.

(** The indexes are [int32] values; the code only compares and converts them. *)
Record ExcludeIndexRange := mkExcludeIndexRange { StartIndex : Z; EndIndex : Z }.

Record Route := mkRoute { Dst : string }.

#[global] Instance ExcludeRange_eq_dec : EqDecision ExcludeRange.
Proof. solve_decision. Defined.
#[global] Instance ExcludeIndexRange_eq_dec : EqDecision ExcludeIndexRange.
Proof. solve_decision. Defined.
#[global] Instance Route_eq_dec : EqDecision Route.
Proof. solve_decision. Defined.

(** ** Node selectors ([corev1.NodeSelector]) *)

Record NodeSelectorRequirement := mkRequirement {
  rq_Key : string;
  rq_Operator : string;
  rq_Values : list string;
}.

Record NodeSelectorTerm := mkTerm {
  MatchExpressions : list NodeSelectorRequirement;
  MatchFields : list NodeSelectorRequirement;
}.

Record NodeSelector := mkNodeSelector { NodeSelectorTerms : list NodeSelectorTerm }.

#[global] Instance NodeSelectorRequirement_eq_dec : EqDecision NodeSelectorRequirement.
Proof. solve_decision. Defined.
#[global] Instance NodeSelectorTerm_eq_dec : EqDecision NodeSelectorTerm.
Proof. solve_decision. Defined.
#[global] Instance NodeSelector_eq_dec : EqDecision NodeSelector.
Proof. solve_decision. Defined.

(** ** IPPool *)

Record Allocation := mkAllocation {
  al_NodeName : string;
  al_StartIP : string;
  al_EndIP : string;
}.

Record IPPoolSpec := mkIPPoolSpec {
  Subnet : string;
  PerNodeBlockSize : Z;
  Exclusions : list ExcludeRange;
  PerNodeExclusions : list ExcludeIndexRange;
  Gateway : string;
  ipp_NodeSelector : option NodeSelector;
  DefaultGateway : bool;
  Routes : list Route;
}.

(** [ipp_StatusNil] tells a [nil] slice of allocations from an empty one, which
    [reflect.DeepEqual] does too. *)
Record IPPool := mkIPPool {
  ipp_Name : string;
  ipp_Namespace : string;
  ipp_Spec : IPPoolSpec;
  ipp_Status : list Allocation;
  ipp_StatusNil : bool;
}.

#[global] Instance Allocation_eq_dec : EqDecision Allocation.
Proof. solve_decision. Defined.
#[global] Instance IPPoolSpec_eq_dec : EqDecision IPPoolSpec.
Proof. solve_decision. Defined.
#[global] Instance IPPool_eq_dec : EqDecision IPPool.
Proof. solve_decision. Defined.

Definition ipp_set_status (r : IPPool) (l : list Allocation) : IPPool :=
  mkIPPool (ipp_Name r) (ipp_Namespace r) (ipp_Spec r) l false.

(** ** CIDRPool *)

Record CIDRPoolStaticAllocation := mkStaticAllocation {
  sa_NodeName : string;
  sa_Gateway : string;
  sa_Prefix : string;
}.

Record CIDRPoolAllocation := mkCIDRPoolAllocation {
  ca_NodeName : string;
  ca_Gateway : string;
  ca_Prefix : string;
}.

Record CIDRPoolSpec := mkCIDRPoolSpec {
  CIDR : string;
  GatewayIndex : option Z;
  PerNodeNetworkPrefix : Z;
  cp_Exclusions : list ExcludeRange;
  cp_PerNodeExclusions : list ExcludeIndexRange;
  StaticAllocations : list CIDRPoolStaticAllocation;
  cp_NodeSelector : option NodeSelector;
  cp_DefaultGateway : bool;
  cp_Routes : list Route;
}.

Record CIDRPool := mkCIDRPool {
  cp_Name : string;
  cp_Namespace : string;
  cp_Spec : CIDRPoolSpec;
  cp_Status : list CIDRPoolAllocation;
  cp_StatusNil : bool;
}.

#[global] Instance CIDRPoolAllocation_eq_dec : EqDecision CIDRPoolAllocation.
Proof. solve_decision. Defined.
#[global] Instance CIDRPoolStaticAllocation_eq_dec : EqDecision CIDRPoolStaticAllocation.
Proof. solve_decision. Defined.
#[global] Instance CIDRPoolSpec_eq_dec : EqDecision CIDRPoolSpec.
Proof. solve_decision. Defined.
#[global] Instance CIDRPool_eq_dec : EqDecision CIDRPool.
Proof. solve_decision. Defined.

Definition cp_set_status (r : CIDRPool) (l : list CIDRPoolAllocation) : CIDRPool :=
  mkCIDRPool (cp_Name r) (cp_Namespace r) (cp_Spec r) l false.
