(* ===== verification/ApiCopy.v ===== *)
(** * Copies of API objects: [api/v1alpha1/zz_generated.deepcopy.go]

    The Kubernetes client hands out objects of a cache that is shared, and copies them
    with these functions: what the holder of a copy does to it must not show in the
    object, and the other way round.  The structures are as in [ApiTypes], with locations
    for slices and pointers ([Memory]).  [ObjectMeta], [ListMeta] and [NodeSelector] and
    the functions that copy them are of the Kubernetes libraries: parameters, with the
    law that they are deep copies, and with cells of their own. *)

From S2P Require Import Prelude Memory ApiTypes.

Record TypeMeta := mkTypeMeta { Kind : string; APIVersion : string }.

Section api_copy.
Context {ObjectMeta ListMeta mNodeSelector External : Type}.

(** ** Structures, as they are in memory *)

Record mIPPoolSpec := mkMIPPoolSpec {
  ms_Subnet : string;
  ms_PerNodeBlockSize : Z;
  ms_Exclusions : option loc;
  ms_PerNodeExclusions : option loc;
  ms_Gateway : string;
  ms_NodeSelector : option loc;
  ms_DefaultGateway : bool;
  ms_Routes : option loc;
}.

Record mIPPoolStatus := mkMIPPoolStatus { ms_Allocations : option loc }.

Record mIPPool := mkMIPPool {
  mi_TypeMeta : TypeMeta;
  mi_ObjectMeta : ObjectMeta;
  mi_Spec : mIPPoolSpec;
  mi_Status : mIPPoolStatus;
}.

Record mIPPoolList := mkMIPPoolList {
  ml_TypeMeta : TypeMeta;
  ml_ListMeta : ListMeta;
  ml_Items : option loc;
}.

Record mCIDRPoolSpec := mkMCIDRPoolSpec {
  mc_CIDR : string;
  mc_GatewayIndex : option loc;
  mc_PerNodeNetworkPrefix : Z;
  mc_Exclusions : option loc;
  mc_PerNodeExclusions : option loc;
  mc_StaticAllocations : option loc;
  mc_NodeSelector : option loc;
  mc_DefaultGateway : bool;
  mc_Routes : option loc;
}.

Record mCIDRPoolStatus := mkMCIDRPoolStatus { mc_Allocations : option loc }.

Record mCIDRPool := mkMCIDRPool {
  md_TypeMeta : TypeMeta;
  md_ObjectMeta : ObjectMeta;
  md_Spec : mCIDRPoolSpec;
  md_Status : mCIDRPoolStatus;
}.

Record mCIDRPoolList := mkMCIDRPoolList {
  me_TypeMeta : TypeMeta;
  me_ListMeta : ListMeta;
  me_Items : option loc;
}.

(** ** Cells: arrays, and structures that a pointer refers to *)

Inductive api_cell :=
| CExcludeRanges (xs : list ExcludeRange)
| CExcludeIndexRanges (xs : list ExcludeIndexRange)
| CRoutes (xs : list Route)
| CStaticAllocations (xs : list CIDRPoolStaticAllocation)
| CAllocations (xs : list Allocation)
| CCIDRPoolAllocations (xs : list CIDRPoolAllocation)
| CIPPools (xs : list mIPPool)
| CCIDRPools (xs : list mCIDRPool)
| CInt32 (x : Z)
| CNodeSelector (x : mNodeSelector)
| CAllocation (x : Allocation)
| CCIDRPoolAllocation (x : CIDRPoolAllocation)
| CStaticAllocation (x : CIDRPoolStaticAllocation)
| CExcludeRange (x : ExcludeRange)
| CExcludeIndexRange (x : ExcludeIndexRange)
| CRoute (x : Route)
| CIPPoolSpec (x : mIPPoolSpec)
| CIPPoolStatus (x : mIPPoolStatus)
| CIPPool (x : mIPPool)
| CIPPoolList (x : mIPPoolList)
| CCIDRPoolSpec (x : mCIDRPoolSpec)
| CCIDRPoolStatus (x : mCIDRPoolStatus)
| CCIDRPool (x : mCIDRPool)
| CCIDRPoolList (x : mCIDRPoolList)
| CExternal (x : External).

#[local] Ltac a_cell c o := by refine {| to_cell := c; of_cell := o |}; [|intros [] ? [= ->]].

#[global] Instance exclude_ranges_cell : Cell api_cell (list ExcludeRange).
Proof. a_cell CExcludeRanges (λ c, match c with CExcludeRanges x => Some x | _ => None end). Defined.
#[global] Instance index_ranges_cell : Cell api_cell (list ExcludeIndexRange).
Proof. a_cell CExcludeIndexRanges (λ c, match c with CExcludeIndexRanges x => Some x | _ => None end). Defined.
#[global] Instance routes_cell : Cell api_cell (list Route).
Proof. a_cell CRoutes (λ c, match c with CRoutes x => Some x | _ => None end). Defined.
#[global] Instance statics_cell : Cell api_cell (list CIDRPoolStaticAllocation).
Proof. a_cell CStaticAllocations (λ c, match c with CStaticAllocations x => Some x | _ => None end). Defined.
#[global] Instance allocations_cell : Cell api_cell (list Allocation).
Proof. a_cell CAllocations (λ c, match c with CAllocations x => Some x | _ => None end). Defined.
#[global] Instance cidr_allocations_cell : Cell api_cell (list CIDRPoolAllocation).
Proof. a_cell CCIDRPoolAllocations (λ c, match c with CCIDRPoolAllocations x => Some x | _ => None end). Defined.
#[global] Instance ippools_cell : Cell api_cell (list mIPPool).
Proof. a_cell CIPPools (λ c, match c with CIPPools x => Some x | _ => None end). Defined.
#[global] Instance cidrpools_cell : Cell api_cell (list mCIDRPool).
Proof. a_cell CCIDRPools (λ c, match c with CCIDRPools x => Some x | _ => None end). Defined.
#[global] Instance int32_cell : Cell api_cell Z.
Proof. a_cell CInt32 (λ c, match c with CInt32 x => Some x | _ => None end). Defined.
#[global] Instance selector_cell : Cell api_cell mNodeSelector.
Proof. a_cell CNodeSelector (λ c, match c with CNodeSelector x => Some x | _ => None end). Defined.
#[global] Instance allocation_cell : Cell api_cell Allocation.
Proof. a_cell CAllocation (λ c, match c with CAllocation x => Some x | _ => None end). Defined.
#[global] Instance cidr_allocation_cell : Cell api_cell CIDRPoolAllocation.
Proof. a_cell CCIDRPoolAllocation (λ c, match c with CCIDRPoolAllocation x => Some x | _ => None end). Defined.
#[global] Instance static_cell : Cell api_cell CIDRPoolStaticAllocation.
Proof. a_cell CStaticAllocation (λ c, match c with CStaticAllocation x => Some x | _ => None end). Defined.
#[global] Instance exclude_range_cell : Cell api_cell ExcludeRange.
Proof. a_cell CExcludeRange (λ c, match c with CExcludeRange x => Some x | _ => None end). Defined.
#[global] Instance index_range_cell : Cell api_cell ExcludeIndexRange.
Proof. a_cell CExcludeIndexRange (λ c, match c with CExcludeIndexRange x => Some x | _ => None end). Defined.
#[global] Instance route_cell : Cell api_cell Route.
Proof. a_cell CRoute (λ c, match c with CRoute x => Some x | _ => None end). Defined.
#[global] Instance ippool_spec_cell : Cell api_cell mIPPoolSpec.
Proof. a_cell CIPPoolSpec (λ c, match c with CIPPoolSpec x => Some x | _ => None end). Defined.
#[global] Instance ippool_status_cell : Cell api_cell mIPPoolStatus.
Proof. a_cell CIPPoolStatus (λ c, match c with CIPPoolStatus x => Some x | _ => None end). Defined.
#[global] Instance ippool_cell : Cell api_cell mIPPool.
Proof. a_cell CIPPool (λ c, match c with CIPPool x => Some x | _ => None end). Defined.
#[global] Instance ippool_list_cell : Cell api_cell mIPPoolList.
Proof. a_cell CIPPoolList (λ c, match c with CIPPoolList x => Some x | _ => None end). Defined.
#[global] Instance cidrpool_spec_cell : Cell api_cell mCIDRPoolSpec.
Proof. a_cell CCIDRPoolSpec (λ c, match c with CCIDRPoolSpec x => Some x | _ => None end). Defined.
#[global] Instance cidrpool_status_cell : Cell api_cell mCIDRPoolStatus.
Proof. a_cell CCIDRPoolStatus (λ c, match c with CCIDRPoolStatus x => Some x | _ => None end). Defined.
#[global] Instance cidrpool_cell : Cell api_cell mCIDRPool.
Proof. a_cell CCIDRPool (λ c, match c with CCIDRPool x => Some x | _ => None end). Defined.
#[global] Instance cidrpool_list_cell : Cell api_cell mCIDRPoolList.
Proof. a_cell CCIDRPoolList (λ c, match c with CCIDRPoolList x => Some x | _ => None end). Defined.
#[global] Instance external_cell : Cell api_cell External.
Proof. a_cell CExternal (λ c, match c with CExternal x => Some x | _ => None end). Defined.

Abbreviation amem := (mem api_cell).
#[local] Open Scope mem_scope.

(** ** The libraries' copies *)

Context {vObjectMeta vListMeta : Type}.
Context (ObjectMeta_DeepCopyInto : ObjectMeta → amem ObjectMeta) (ListMeta_DeepCopyInto : ListMeta → amem ListMeta).
Context (NodeSelector_DeepCopyInto : mNodeSelector → amem mNodeSelector).
Context (rep_ObjectMeta : @representation api_cell ObjectMeta vObjectMeta) (rep_ListMeta : @representation api_cell ListMeta vListMeta).
Context (rep_NodeSelector : @representation api_cell mNodeSelector NodeSelector).

Record library_laws : Prop := {
  om_local : Local rep_ObjectMeta;
  om_copy : DeepCopy ObjectMeta_DeepCopyInto rep_ObjectMeta;
  lm_local : Local rep_ListMeta;
  lm_copy : DeepCopy ListMeta_DeepCopyInto rep_ListMeta;
  ns_local : Local rep_NodeSelector;
  ns_copy : DeepCopy NodeSelector_DeepCopyInto rep_NodeSelector;
}.

(** ** The functions

    [DeepCopyInto] is the structure that it writes; [DeepCopy] of a pointer, [nil] for [nil]. *)

Definition Allocation_DeepCopyInto (in_ : Allocation) : amem Allocation := mret in_.
Definition Allocation_DeepCopy (in_ : option loc) : amem (option loc) := ptr_copy Allocation_DeepCopyInto in_.

Definition CIDRPoolAllocation_DeepCopyInto (in_ : CIDRPoolAllocation) : amem CIDRPoolAllocation := mret in_.
Definition CIDRPoolAllocation_DeepCopy (in_ : option loc) : amem (option loc) := ptr_copy CIDRPoolAllocation_DeepCopyInto in_.

Definition CIDRPoolStaticAllocation_DeepCopyInto (in_ : CIDRPoolStaticAllocation) : amem CIDRPoolStaticAllocation := mret in_.
Definition CIDRPoolStaticAllocation_DeepCopy (in_ : option loc) : amem (option loc) := ptr_copy CIDRPoolStaticAllocation_DeepCopyInto in_.

Definition ExcludeIndexRange_DeepCopyInto (in_ : ExcludeIndexRange) : amem ExcludeIndexRange := mret in_.
Definition ExcludeIndexRange_DeepCopy (in_ : option loc) : amem (option loc) := ptr_copy ExcludeIndexRange_DeepCopyInto in_.

Definition ExcludeRange_DeepCopyInto (in_ : ExcludeRange) : amem ExcludeRange := mret in_.
Definition ExcludeRange_DeepCopy (in_ : option loc) : amem (option loc) := ptr_copy ExcludeRange_DeepCopyInto in_.

Definition Route_DeepCopyInto (in_ : Route) : amem Route := mret in_.
Definition Route_DeepCopy (in_ : option loc) : amem (option loc) := ptr_copy Route_DeepCopyInto in_.

Definition CIDRPoolSpec_DeepCopyInto (in_ : mCIDRPoolSpec) : amem mCIDRPoolSpec :=
  let% gatewayIndex := ptr_copy (A := Z) mret (mc_GatewayIndex in_) in
  let% exclusions := slice_copy (A := ExcludeRange) (mc_Exclusions in_) in
  let% perNodeExclusions := slice_copy (A := ExcludeIndexRange) (mc_PerNodeExclusions in_) in
  let% staticAllocations := slice_copy (A := CIDRPoolStaticAllocation) (mc_StaticAllocations in_) in
  let% nodeSelector := ptr_copy NodeSelector_DeepCopyInto (mc_NodeSelector in_) in
  let% routes := slice_copy (A := Route) (mc_Routes in_) in
  mret (mkMCIDRPoolSpec (mc_CIDR in_) gatewayIndex (mc_PerNodeNetworkPrefix in_) exclusions perNodeExclusions
    staticAllocations nodeSelector (mc_DefaultGateway in_) routes).
Definition CIDRPoolSpec_DeepCopy (in_ : option loc) : amem (option loc) := ptr_copy CIDRPoolSpec_DeepCopyInto in_.

Definition CIDRPoolStatus_DeepCopyInto (in_ : mCIDRPoolStatus) : amem mCIDRPoolStatus :=
  let% allocations := slice_copy (A := CIDRPoolAllocation) (mc_Allocations in_) in
  mret (mkMCIDRPoolStatus allocations).
Definition CIDRPoolStatus_DeepCopy (in_ : option loc) : amem (option loc) := ptr_copy CIDRPoolStatus_DeepCopyInto in_.

Definition CIDRPool_DeepCopyInto (in_ : mCIDRPool) : amem mCIDRPool :=
  let% objectMeta := ObjectMeta_DeepCopyInto (md_ObjectMeta in_) in
  let% spec := CIDRPoolSpec_DeepCopyInto (md_Spec in_) in
  let% status := CIDRPoolStatus_DeepCopyInto (md_Status in_) in
  mret (mkMCIDRPool (md_TypeMeta in_) objectMeta spec status).
Definition CIDRPool_DeepCopy (in_ : option loc) : amem (option loc) := ptr_copy CIDRPool_DeepCopyInto in_.

(** The interface value is [nil] when the pointer is. *)
Definition CIDRPool_DeepCopyObject (in_ : option loc) : amem (option loc) :=
  let% c := CIDRPool_DeepCopy in_ in match c with Some c => mret (Some c) | None => mret None end.

Definition CIDRPoolList_DeepCopyInto (in_ : mCIDRPoolList) : amem mCIDRPoolList :=
  let% listMeta := ListMeta_DeepCopyInto (me_ListMeta in_) in
  let% items := items_copy CIDRPool_DeepCopyInto (me_Items in_) in
  mret (mkMCIDRPoolList (me_TypeMeta in_) listMeta items).
Definition CIDRPoolList_DeepCopy (in_ : option loc) : amem (option loc) := ptr_copy CIDRPoolList_DeepCopyInto in_.
Definition CIDRPoolList_DeepCopyObject (in_ : option loc) : amem (option loc) :=
  let% c := CIDRPoolList_DeepCopy in_ in match c with Some c => mret (Some c) | None => mret None end.

Definition IPPoolSpec_DeepCopyInto (in_ : mIPPoolSpec) : amem mIPPoolSpec :=
  let% exclusions := slice_copy (A := ExcludeRange) (ms_Exclusions in_) in
  let% perNodeExclusions := slice_copy (A := ExcludeIndexRange) (ms_PerNodeExclusions in_) in
  let% nodeSelector := ptr_copy NodeSelector_DeepCopyInto (ms_NodeSelector in_) in
  let% routes := slice_copy (A := Route) (ms_Routes in_) in
  mret (mkMIPPoolSpec (ms_Subnet in_) (ms_PerNodeBlockSize in_) exclusions perNodeExclusions (ms_Gateway in_)
    nodeSelector (ms_DefaultGateway in_) routes).
Definition IPPoolSpec_DeepCopy (in_ : option loc) : amem (option loc) := ptr_copy IPPoolSpec_DeepCopyInto in_.

Definition IPPoolStatus_DeepCopyInto (in_ : mIPPoolStatus) : amem mIPPoolStatus :=
  let% allocations := slice_copy (A := Allocation) (ms_Allocations in_) in
  mret (mkMIPPoolStatus allocations).
Definition IPPoolStatus_DeepCopy (in_ : option loc) : amem (option loc) := ptr_copy IPPoolStatus_DeepCopyInto in_.

Definition IPPool_DeepCopyInto (in_ : mIPPool) : amem mIPPool :=
  let% objectMeta := ObjectMeta_DeepCopyInto (mi_ObjectMeta in_) in
  let% spec := IPPoolSpec_DeepCopyInto (mi_Spec in_) in
  let% status := IPPoolStatus_DeepCopyInto (mi_Status in_) in
  mret (mkMIPPool (mi_TypeMeta in_) objectMeta spec status).
Definition IPPool_DeepCopy (in_ : option loc) : amem (option loc) := ptr_copy IPPool_DeepCopyInto in_.
Definition IPPool_DeepCopyObject (in_ : option loc) : amem (option loc) :=
  let% c := IPPool_DeepCopy in_ in match c with Some c => mret (Some c) | None => mret None end.

Definition IPPoolList_DeepCopyInto (in_ : mIPPoolList) : amem mIPPoolList :=
  let% listMeta := ListMeta_DeepCopyInto (ml_ListMeta in_) in
  let% items := items_copy IPPool_DeepCopyInto (ml_Items in_) in
  mret (mkMIPPoolList (ml_TypeMeta in_) listMeta items).
Definition IPPoolList_DeepCopy (in_ : option loc) : amem (option loc) := ptr_copy IPPoolList_DeepCopyInto in_.
Definition IPPoolList_DeepCopyObject (in_ : option loc) : amem (option loc) :=
  let% c := IPPoolList_DeepCopy in_ in match c with Some c => mret (Some c) | None => mret None end.

(** ** What the objects stand for *)

Record vIPPool := mkVIPPool {
  vi_TypeMeta : TypeMeta;
  vi_ObjectMeta : vObjectMeta;
  vi_Spec : IPPoolSpec;
  vi_Status : option (list Allocation);
}.

Record vCIDRPool := mkVCIDRPool {
  vc_TypeMeta : TypeMeta;
  vc_ObjectMeta : vObjectMeta;
  vc_Spec : CIDRPoolSpec;
  vc_Status : option (list CIDRPoolAllocation);
}.

Definition rep_IPPoolSpec : @representation api_cell mIPPoolSpec IPPoolSpec := λ L h x v,
  ∃ es ids ns rs, rep_slice L h (ms_Exclusions x) es ∧ rep_slice L h (ms_PerNodeExclusions x) ids ∧
    rep_ptr rep_NodeSelector L h (ms_NodeSelector x) ns ∧ rep_slice L h (ms_Routes x) rs ∧
    v = mkIPPoolSpec (ms_Subnet x) (ms_PerNodeBlockSize x) es ids (ms_Gateway x) ns (ms_DefaultGateway x) rs.

Definition rep_CIDRPoolSpec : @representation api_cell mCIDRPoolSpec CIDRPoolSpec := λ L h x v,
  ∃ gi es ids ss ns rs, rep_ptr rep_value L h (mc_GatewayIndex x) gi ∧ rep_slice L h (mc_Exclusions x) es ∧
    rep_slice L h (mc_PerNodeExclusions x) ids ∧ rep_slice L h (mc_StaticAllocations x) ss ∧
    rep_ptr rep_NodeSelector L h (mc_NodeSelector x) ns ∧ rep_slice L h (mc_Routes x) rs ∧
    v = mkCIDRPoolSpec (mc_CIDR x) gi (mc_PerNodeNetworkPrefix x) es ids ss ns (mc_DefaultGateway x) rs.

Definition rep_IPPoolStatus : @representation api_cell mIPPoolStatus (option (list Allocation)) := λ L h x v,
  rep_nilable L h (ms_Allocations x) v.

Definition rep_CIDRPoolStatus : @representation api_cell mCIDRPoolStatus (option (list CIDRPoolAllocation)) := λ L h x v,
  rep_nilable L h (mc_Allocations x) v.

Definition rep_IPPool : @representation api_cell mIPPool vIPPool := λ L h x v,
  ∃ om sp al, rep_ObjectMeta L h (mi_ObjectMeta x) om ∧ rep_IPPoolSpec L h (mi_Spec x) sp ∧
    rep_IPPoolStatus L h (mi_Status x) al ∧ v = mkVIPPool (mi_TypeMeta x) om sp al.

Definition rep_CIDRPool : @representation api_cell mCIDRPool vCIDRPool := λ L h x v,
  ∃ om sp al, rep_ObjectMeta L h (md_ObjectMeta x) om ∧ rep_CIDRPoolSpec L h (md_Spec x) sp ∧
    rep_CIDRPoolStatus L h (md_Status x) al ∧ v = mkVCIDRPool (md_TypeMeta x) om sp al.

Definition rep_IPPoolList : @representation api_cell mIPPoolList (TypeMeta * vListMeta * list vIPPool) := λ L h x v,
  ∃ lm ids, rep_ListMeta L h (ml_ListMeta x) lm ∧ rep_items rep_IPPool L h (ml_Items x) ids ∧ v = (ml_TypeMeta x, lm, ids).

Definition rep_CIDRPoolList : @representation api_cell mCIDRPoolList (TypeMeta * vListMeta * list vCIDRPool) := λ L h x v,
  ∃ lm ids, rep_ListMeta L h (me_ListMeta x) lm ∧ rep_items rep_CIDRPool L h (me_Items x) ids ∧ v = (me_TypeMeta x, lm, ids).

(** ** Lemmas *)

(** The fields of a structure, one by one. *)
Ltac open_rep H := hnf in H; repeat match type of H with ∃ x, _ => destruct H as [? H] end; destruct_and! H; subst.
Ltac close_rep := hnf; repeat match goal with |- ∃ _, _ => eexists end; split_and!.
Ltac local_fields :=
  intros ? ? ? ? ? ? HL Hk Hx; open_rep Hx; close_rep; try reflexivity; (eapply local; [exact HL|exact Hk|eassumption]).

#[local] Instance rep_IPPoolStatus_local : Local rep_IPPoolStatus.
Proof. intros L L' h h' x v. apply rep_nilable_local. Qed.
#[local] Instance rep_CIDRPoolStatus_local : Local rep_CIDRPoolStatus.
Proof. intros L L' h h' x v. apply rep_nilable_local. Qed.

#[local] Instance IPPoolStatus_copies : DeepCopy IPPoolStatus_DeepCopyInto rep_IPPoolStatus.
Proof. apply copy_by_fields. unfold rep_IPPoolStatus, IPPoolStatus_DeepCopyInto. intros. copy_fields. simpl. copied_field. Qed.
#[local] Instance CIDRPoolStatus_copies : DeepCopy CIDRPoolStatus_DeepCopyInto rep_CIDRPoolStatus.
Proof. apply copy_by_fields. unfold rep_CIDRPoolStatus, CIDRPoolStatus_DeepCopyInto. intros. copy_fields. simpl. copied_field. Qed.

Section laws.
Context (laws : library_laws).
#[local] Instance om_local' : Local rep_ObjectMeta := om_local laws.
#[local] Instance om_copy' : DeepCopy ObjectMeta_DeepCopyInto rep_ObjectMeta := om_copy laws.
#[local] Instance lm_local' : Local rep_ListMeta := lm_local laws.
#[local] Instance lm_copy' : DeepCopy ListMeta_DeepCopyInto rep_ListMeta := lm_copy laws.
#[local] Instance ns_local' : Local rep_NodeSelector := ns_local laws.
#[local] Instance ns_copy' : DeepCopy NodeSelector_DeepCopyInto rep_NodeSelector := ns_copy laws.

#[local] Instance rep_IPPoolSpec_local : Local rep_IPPoolSpec.
Proof. local_fields. Qed.
#[local] Instance rep_CIDRPoolSpec_local : Local rep_CIDRPoolSpec.
Proof. local_fields. Qed.
#[local] Instance rep_IPPool_local : Local rep_IPPool.
Proof. local_fields. Qed.
#[local] Instance rep_CIDRPool_local : Local rep_CIDRPool.
Proof. local_fields. Qed.
#[local] Instance rep_IPPoolList_local : Local rep_IPPoolList.
Proof. local_fields. Qed.
#[local] Instance rep_CIDRPoolList_local : Local rep_CIDRPoolList.
Proof. local_fields. Qed.

Ltac copy_structure := copy_fields; close_rep; simpl; try copied_field; try reflexivity.

#[local] Instance IPPoolSpec_copies : DeepCopy IPPoolSpec_DeepCopyInto rep_IPPoolSpec.
Proof. apply copy_by_fields. intros L h x v Hx. open_rep Hx. unfold IPPoolSpec_DeepCopyInto. copy_structure. Qed.
#[local] Instance CIDRPoolSpec_copies : DeepCopy CIDRPoolSpec_DeepCopyInto rep_CIDRPoolSpec.
Proof. apply copy_by_fields. intros L h x v Hx. open_rep Hx. unfold CIDRPoolSpec_DeepCopyInto. copy_structure. Qed.
#[local] Instance IPPool_copies : DeepCopy IPPool_DeepCopyInto rep_IPPool.
Proof. apply copy_by_fields. intros L h x v Hx. open_rep Hx. unfold IPPool_DeepCopyInto. copy_structure. Qed.
#[local] Instance CIDRPool_copies : DeepCopy CIDRPool_DeepCopyInto rep_CIDRPool.
Proof. apply copy_by_fields. intros L h x v Hx. open_rep Hx. unfold CIDRPool_DeepCopyInto. copy_structure. Qed.
#[local] Instance IPPoolList_copies : DeepCopy IPPoolList_DeepCopyInto rep_IPPoolList.
Proof. apply copy_by_fields. intros L h x v Hx. open_rep Hx. unfold IPPoolList_DeepCopyInto. copy_structure. Qed.
#[local] Instance CIDRPoolList_copies : DeepCopy CIDRPoolList_DeepCopyInto rep_CIDRPoolList.
Proof. apply copy_by_fields. intros L h x v Hx. open_rep Hx. unfold CIDRPoolList_DeepCopyInto. copy_structure. Qed.

(** What it means that a copy and its original have nothing in common: the copy stands
    for the same value; it still does whatever happens to memory that existed before, the
    original included, and the original does whatever happens to the memory of the copy. *)
Definition independent {V} (f : option loc → amem (option loc)) (R : @representation api_cell (option loc) V) : Prop :=
  ∀ L h p v, R L h p v →
    ∃ p' h', f p h = Some (p', h') ∧ (p = None ↔ p' = None) ∧ h ⊆ h' ∧ R (fresh_in h h') h' p' v ∧
      (∀ h2, keeps (fresh_in h h') h' h2 → R (fresh_in h h') h2 p' v) ∧
      (∀ h2, h ⊆ h2 → R L h2 p v).

Lemma object_independent {A V} `{Cell api_cell A} (f : A → amem A) (R : @representation api_cell A V) `{!Local R} `{!DeepCopy f R} :
  independent (λ p, let% c := ptr_copy f p in match c with Some c => mret (Some c) | None => mret None end) (rep_ptr R).
Proof.
  intros L h p v Hp. destruct (deep_copy (R := rep_ptr R) L h p v Hp) as (p' & h' & E & Hs & Hp'). exists p', h'.
  rewrite (mem_bind _ _ _ _ _ E). split; [by destruct p'|]. split_and!; try done.
  - by destruct p, v, p'.
  - intros h2 Hk. by eapply (local (R := rep_ptr R)).
  - intros h2 Hs2. by eapply (local_grow (rep_ptr R)).
Qed.

(** C37: The copies of API objects are deep: a copy of an [IPPool], a [CIDRPool] or a list
    of them stands for the same object (a [nil] list of allocations stays [nil]) and
    refers only to memory that did not exist before; nothing that is done to the original
    shows in the copy, and nothing that is done to the copy shows in the original.  The
    copy of [nil] is [nil]. *)
Theorem api_copies_independent :
  independent IPPool_DeepCopyObject (rep_ptr rep_IPPool) ∧ independent CIDRPool_DeepCopyObject (rep_ptr rep_CIDRPool) ∧
  independent IPPoolList_DeepCopyObject (rep_ptr rep_IPPoolList) ∧
  independent CIDRPoolList_DeepCopyObject (rep_ptr rep_CIDRPoolList).
Proof. split_and!; apply object_independent; apply _. Qed.
End laws.
End api_copy.
Arguments api_cell : clear implicits.

(** *** Witness: metadata with a name and a slice of finalizers *)

Abbreviation example_cell := (api_cell (string * option loc) string NodeSelector (list string)).

Definition meta_DeepCopyInto (x : string * option loc) : mem example_cell (string * option loc) :=
  mbind_mem (slice_copy (A := string) x.2) (λ s, mret (x.1, s)).
Definition rep_meta : @representation example_cell (string * option loc) (string * list string) := rep_entry rep_slice.

Lemma example_laws :
  library_laws (External := list string) meta_DeepCopyInto mret mret rep_meta (rep_value (A := string)) (rep_value (A := NodeSelector)).
Proof. split; apply _. Qed.

Definition example_pool : gmap positive example_cell :=
  <[1%positive := CIPPool (mkMIPPool (mkTypeMeta "IPPool" "v1alpha1") ("pool", Some 2%positive)
      (mkMIPPoolSpec "192.168.0.0/16" 100 (Some 3%positive) None "192.168.0.1" None false None) (mkMIPPoolStatus None))]>
  (<[2%positive := CExternal ["finalizer"]]> {[3%positive := CExcludeRanges [mkExcludeRange "192.168.0.2" "192.168.0.9"]]}).
Definition example_pool_value : vIPPool (vObjectMeta := string * list string) :=
  mkVIPPool (mkTypeMeta "IPPool" "v1alpha1") ("pool", ["finalizer"])
    (mkIPPoolSpec "192.168.0.0/16" 100 [mkExcludeRange "192.168.0.2" "192.168.0.9"] [] "192.168.0.1" None false []) None.

Lemma api_copies_independent_witness :
  rep_ptr (rep_IPPool rep_meta (rep_value (A := NodeSelector))) (λ _, True) example_pool (Some 1%positive) (Some example_pool_value) ∧
  ∃ p' h', IPPool_DeepCopyObject meta_DeepCopyInto mret (Some 1%positive) example_pool = Some (p', h') ∧ p' ≠ Some 1%positive ∧
    p' ≠ None.
Proof.
  assert (rep_ptr (rep_IPPool rep_meta (rep_value (A := NodeSelector))) (λ _, True) example_pool (Some 1%positive) (Some example_pool_value)) as Hp.
  { split; [exact I|]. eexists. split; [reflexivity|]. eexists ("pool", ["finalizer"]), _, None. split; [by split; [|split]|].
    split; [|by split]. eexists [_], [], None, []. split_and!; try done. }
  split; [exact Hp|].
  destruct (proj1 (api_copies_independent _ _ _ _ _ _ example_laws) _ _ _ _ Hp) as (p' & h' & E & Hn & _ & Hr & _).
  exists p', h'. split; [exact E|]. split; [|by intros E0%Hn]. intros ->. destruct Hr as [[Hf _] _]. discriminate Hf.
Defined.
