(* ===== verification/Exclusions.v ===== *)
(** * Exclusions and gateways: [api/v1alpha1/helpers.go]

    The helpers shared by the validation, the controller and the node daemon:
    the gateway of a subnet, the number of its host addresses, and the algebra
    of exclusion ranges (conversion from indexes, cover test, clamping,
    merging). *)

From S2P Require Import Prelude GoNet Cidr GoNetText ApiTypes.

(** ** The code *)

Definition GetPossibleIPCount (subnet : IPNet) : Z :=
  let '(setBits, bitsTotal) := Mask_Size (net_Mask subnet) in
  if setBits =? bitsTotal then 1
  else if setBits =? bitsTotal - 1 then 2
  else
    let ipCount := big_Exp2 (bitsTotal - setBits) in
    if negb (is_nil (To4 (net_IP subnet))) then ipCount - 2 else ipCount - 1.

Definition GetGatewayForSubnet (subnet : IPNet) (index : Z) : string :=
  let '(setBits, bitsTotal) := Mask_Size (net_Mask subnet) in
  let maxIndex := GetPossibleIPCount subnet in
  let p2p := bitsTotal - 1 <=? setBits in
  if negb p2p && (index =? 0) then ""
  else
    let maxIndex := if p2p then maxIndex - 1 else maxIndex in
    if big_Cmp maxIndex index <? 0 then ""
    else
      match NextIPWithOffset (net_IP subnet) (Some index) with
      | Err _ => ""
      | Ok gwIP => IP_String gwIP
      end.

Definition ExcludeIndexRangeToExcludeRange (excludeIndexRanges : list ExcludeIndexRange)
    (startIP : string) : list ExcludeRange :=
  if bool_decide (excludeIndexRanges = []) then []
  else
    let rangeStart := ParseIP startIP in
    if is_nil rangeStart then []
    else
      omap (λ r,
        match NextIPWithOffset rangeStart (Some (StartIndex r)) with
        | Err _ => None
        | Ok s =>
            match NextIPWithOffset rangeStart (Some (EndIndex r)) with
            | Err _ => None
            | Ok e => Some (mkExcludeRange (IP_String s) (IP_String e))
            end
        end) excludeIndexRanges.

Definition index_less (a b : ExcludeIndexRange) : bool :=
  if StartIndex a =? StartIndex b then EndIndex a <? EndIndex b
  else StartIndex a <? StartIndex b.

(** The loop over the sorted ranges; [None] is the end of the range. *)
Fixpoint cover_loop (ranges : list ExcludeIndexRange) (coveredThrough lastIndex : Z) : bool :=
  match ranges with
  | [] => false
  | r :: ranges =>
      if (StartIndex r <? 0) || (EndIndex r <? StartIndex r) then false
      else
        let nextUncovered := coveredThrough + 1 in
        if 0 <? big_Cmp (StartIndex r) nextUncovered then false
        else
          let coveredThrough :=
            if 0 <? big_Cmp (EndIndex r) coveredThrough then EndIndex r else coveredThrough in
          if 0 <=? big_Cmp coveredThrough lastIndex then true
          else cover_loop ranges coveredThrough lastIndex
  end.

Definition ExcludeIndexRangesCover (exclusions : list ExcludeIndexRange)
    (lastIndex : option Z) : bool :=
  match lastIndex with
  | None => false
  | Some lastIndex =>
      if (lastIndex <? 0) || bool_decide (exclusions = []) then false
      else cover_loop (sort_by index_less exclusions) (-1) lastIndex
  end.

Definition ClampExcludeRanges (excludeRanges : list ExcludeRange) (startIP endIP : string) :
    list ExcludeRange :=
  if bool_decide (excludeRanges = []) then []
  else
    let rangeStart := ParseIP startIP in
    let rangeEnd := ParseIP endIP in
    if is_nil rangeStart || is_nil rangeEnd then []
    else
      omap (λ r,
        let s := ParseIP (er_StartIP r) in
        let e := ParseIP (er_EndIP r) in
        if is_nil s || is_nil e then None
        else if (0 <? Cmp s rangeEnd) || (Cmp e rangeStart <? 0) then None
        else
          let s := if Cmp s rangeStart <? 0 then rangeStart else s in
          let e := if 0 <? Cmp e rangeEnd then rangeEnd else e in
          Some (mkExcludeRange (IP_String s) (IP_String e))) excludeRanges.

Record excludeRangeIP := mkExcludeRangeIP { startIP : IP; endIP : IP }.

Definition parse_exclude_range (r : ExcludeRange) : option excludeRangeIP :=
  let start := ParseIP (er_StartIP r) in
  let end_ := ParseIP (er_EndIP r) in
  if is_nil start || is_nil end_ then None else Some (mkExcludeRangeIP start end_).

Fixpoint merge_loop (current : excludeRangeIP) (rest : list excludeRangeIP) :
    list excludeRangeIP :=
  match rest with
  | [] => [current]
  | next :: rest =>
      if (0 <=? Cmp (endIP current) (startIP next)) ||
         (Cmp (NextIP (endIP current)) (startIP next) =? 0)
      then
        if Cmp (endIP current) (endIP next) <? 0
        then merge_loop (mkExcludeRangeIP (startIP current) (endIP next)) rest
        else merge_loop current rest
      else current :: merge_loop next rest
  end.

Definition MergeExcludeRanges (excludeRanges : list ExcludeRange) : list ExcludeRange :=
  if bool_decide (excludeRanges = []) then []
  else
    let excludeRangeIPs := omap parse_exclude_range excludeRanges in
    match sort_by (λ a b, Cmp (startIP a) (startIP b) <? 0) excludeRangeIPs with
    | [] => []
    | current :: rest =>
        map (λ r, mkExcludeRange (IP_String (startIP r)) (IP_String (endIP r)))
          (merge_loop current rest)
    end.

Definition ExcludeRange_Contains (er : ExcludeRange) (ipp : IP) : bool :=
  if is_nil ipp then false
  else
    let start := ParseIP (er_StartIP er) in
    let end_ := ParseIP (er_EndIP er) in
    if is_nil start || is_nil end_ then false
    else (Cmp start ipp <=? 0) && (0 <=? Cmp end_ ipp).

Example merge_ex :
  MergeExcludeRanges [mkExcludeRange "10.0.0.9" "10.0.0.20"; mkExcludeRange "10.0.0.1" "10.0.0.3";
    mkExcludeRange "10.0.0.4" "10.0.0.5"] =
  [mkExcludeRange "10.0.0.1" "10.0.0.5"; mkExcludeRange "10.0.0.9" "10.0.0.20"].
Proof. vm_compute. reflexivity. Qed.

Example gateway_ex : GetGatewayForSubnet (net_of F4 (192 * 2 ^ 24) 24) 10 = "192.0.0.10".
Proof. vm_compute. reflexivity. Qed.

(** ** Ranges as sets of addresses *)

(** The range is written with two addresses of the family [f], in order. *)
Definition er_denotes (f : family) (r : ExcludeRange) (s e : Z) : Prop :=
  addr_of (ParseIP (er_StartIP r)) = Some (f, s) ∧
  addr_of (ParseIP (er_EndIP r)) = Some (f, e) ∧ s ≤ e.

Definition er_ok (f : family) (r : ExcludeRange) : Prop := ∃ s e, er_denotes f r s e.

(** The address [x] of family [f] is in one of the ranges. *)
Definition excluded (f : family) (l : list ExcludeRange) (x : Z) : Prop :=
  ∃ r s e, r ∈ l ∧ er_denotes f r s e ∧ s ≤ x ≤ e.

Lemma er_denotes_inj f r s e s' e' :
  er_denotes f r s e → er_denotes f r s' e' → s = s' ∧ e = e'.
Proof. intros (H1 & H2 & _) (H3 & H4 & _). split; congruence. Qed.

Lemma ParseIP_not_nil s f x : addr_of (ParseIP s) = Some (f, x) → is_nil (ParseIP s) = false.
Proof. intros H. apply bool_decide_false. intros E. by rewrite E in H. Qed.

Lemma er_denotes_strings f a b s e :
  addr_of a = Some (f, s) → addr_of b = Some (f, e) → s ≤ e →
  er_denotes f (mkExcludeRange (IP_String a) (IP_String b)) s e.
Proof. intros. split_and!; simpl; by try apply ParseIP_String. Qed.

Definition er_okb (f : family) (r : ExcludeRange) : bool :=
  match addr_of (ParseIP (er_StartIP r)), addr_of (ParseIP (er_EndIP r)) with
  | Some (g, s), Some (h, e) => bool_decide (g = f) && bool_decide (h = f) && (s <=? e)
  | _, _ => false
  end.

Lemma er_okb_ok f l : forallb (er_okb f) l = true → Forall (er_ok f) l.
Proof.
  induction l as [|r l IH]; simpl; [by constructor|]. intros [H ?]%andb_true_iff.
  constructor; [|by apply IH]. unfold er_okb in H.
  destruct (addr_of (ParseIP (er_StartIP r))) as [[g s]|] eqn:Es; [|done].
  destruct (addr_of (ParseIP (er_EndIP r))) as [[h e]|] eqn:Ee; [|done].
  boolify. subst. by exists s, e.
Qed.

(** [Contains] decides membership. *)
Lemma ExcludeRange_Contains_spec f r s e ipp g x :
  er_denotes f r s e → addr_of ipp = Some (g, x) →
  ExcludeRange_Contains r ipp = bool_decide (g = f ∧ s ≤ x ≤ e).
Proof.
  intros (Hs & He & Hle) Hx. unfold ExcludeRange_Contains.
  unfold is_nil at 1. rewrite bool_decide_false by (by eapply addr_of_not_nil).
  rewrite (ParseIP_not_nil _ _ _ Hs), (ParseIP_not_nil _ _ _ He). cbn [orb].
  destruct (decide (g = f)) as [->|Hn].
  - rewrite (Cmp_leb _ _ _ _ _ Hs Hx), (Cmp_geb _ _ _ _ _ He Hx).
    apply eq_true_iff_eq. rewrite andb_true_iff, !Z.leb_le, bool_decide_eq_true. naive_solver.
  - rewrite (Cmp_valid _ _ _ _ _ _ He Hx), (bool_decide_false (f = g)) by congruence.
    rewrite andb_false_r. symmetry. apply bool_decide_false. naive_solver.
Qed.

Lemma ExcludeRange_Contains_invalid r ipp : addr_of ipp = None → ExcludeRange_Contains r ipp = false.
Proof.
  intros H. unfold ExcludeRange_Contains. destruct (is_nil _); [done|]. destruct (_ || _); [done|].
  rewrite (Cmp_invalid_r (ParseIP (er_EndIP r))) by done. apply andb_false_r.
Qed.

Lemma existsb_excluded f l ipp x :
  Forall (er_ok f) l → addr_of ipp = Some (f, x) →
  existsb (λ r, ExcludeRange_Contains r ipp) l = true ↔ excluded f l x.
Proof.
  intros Hl Hx. rewrite existsb_exists. rewrite Forall_forall in Hl. split.
  - intros (r & Hr%list_elem_of_In & HC). destruct (Hl r Hr) as (s & e & Hse).
    rewrite (ExcludeRange_Contains_spec _ _ _ _ _ _ _ Hse Hx), bool_decide_eq_true in HC.
    exists r, s, e. naive_solver.
  - intros (r & s & e & Hr & Hse & Hin). exists r. split; [by apply list_elem_of_In|].
    rewrite (ExcludeRange_Contains_spec _ _ _ _ _ _ _ Hse Hx). by apply bool_decide_true.
Qed.

(** ** Counting hosts and choosing the gateway *)

(** The indexes usable for hosts: all of them in a /31, /32, /127 or /128;
    otherwise neither the network address nor, for IPv4, the broadcast one. *)
Definition host_index (f : family) (ones i : Z) : Prop :=
  if bool_decide (fam_bits f - 1 ≤ ones) then 0 ≤ i < net_size f ones
  else 1 ≤ i < net_size f ones - (match f with F4 => 1 | F6 => 0 end).

#[global] Instance host_index_dec f ones i : Decision (host_index f ones i).
Proof. unfold host_index. destruct (bool_decide _); apply _. Defined.

Lemma GetPossibleIPCount_net f base ones :
  net_ok f base ones →
  GetPossibleIPCount (net_of f base ones) =
  (if bool_decide (fam_bits f - 1 ≤ ones) then net_size f ones
   else net_size f ones - match f with F4 => 2 | F6 => 1 end).
Proof.
  intros Hnet. pose proof Hnet as (Ho & _). unfold GetPossibleIPCount.
  cbn [net_of net_Mask net_IP]. rewrite Mask_Size_mask by done. unfold net_size.
  destruct (Z.eqb_spec ones (fam_bits f)) as [->|].
  { rewrite bool_decide_true, Z.sub_diag by lia. done. }
  destruct (Z.eqb_spec ones (fam_bits f - 1)) as [->|].
  { rewrite bool_decide_true by lia. by replace (fam_bits f - (fam_bits f - 1)) with 1 by lia. }
  rewrite bool_decide_false by lia. rewrite big_Exp2_nonneg by lia.
  rewrite is_nil_To4_ip_of by (by eapply net_ok_base). by destruct f.
Qed.

(** The address with index [i] in a network. *)
Lemma offset_in_net f base ones i :
  net_ok f base ones → 0 ≤ i < net_size f ones →
  NextIPWithOffset (ip_of f base) (Some i) = Ok (ip_of f (base + i)).
Proof.
  intros Hnet Hi. pose proof (net_ok_addr f base ones (base + i) Hnet ltac:(lia)) as Ha.
  rewrite (NextIPWithOffset_valid _ f base) by (lia || by apply addr_of_ip_of; eapply net_ok_base).
  apply addr_ok_range in Ha. by rewrite bool_decide_true by lia.
Qed.

Lemma offset_string f base ones i :
  net_ok f base ones → i < net_size f ones →
  match NextIPWithOffset (ip_of f base) (Some i) with
  | Err _ => "" | Ok gwIP => IP_String gwIP
  end = if decide (0 ≤ i) then addr_string f (base + i) else "".
Proof.
  intros Hnet Hi. destruct (decide (0 ≤ i)).
  - rewrite (offset_in_net f base ones) by (done || lia).
    apply IP_String_addr, addr_of_ip_of. eapply net_ok_addr; [done|lia].
  - by rewrite NextIPWithOffset_neg by lia.
Qed.

Lemma big_Cmp_ltb x y : (big_Cmp x y <? 0) = (x <? y).
Proof. apply eq_true_iff_eq. rewrite !Z.ltb_lt. apply big_Cmp_lt. Qed.
Lemma big_Cmp_gtb x y : (0 <? big_Cmp x y) = (y <? x).
Proof. apply eq_true_iff_eq. rewrite !Z.ltb_lt. apply big_Cmp_gt. Qed.
Lemma big_Cmp_geb x y : (0 <=? big_Cmp x y) = (y <=? x).
Proof. unfold big_Cmp. destruct (Z.compare_spec x y); symmetry; (apply Z.leb_le || apply Z.leb_gt); lia. Qed.

Lemma GetGatewayForSubnet_net f base ones index :
  net_ok f base ones →
  GetGatewayForSubnet (net_of f base ones) index =
  if decide (host_index f ones index) then addr_string f (base + index) else "".
Proof.
  intros Hnet. pose proof Hnet as (Ho & _). unfold GetGatewayForSubnet.
  rewrite GetPossibleIPCount_net by done. cbn [net_of net_Mask net_IP].
  rewrite Mask_Size_mask by done. rewrite big_Cmp_ltb.
  assert (fam_bits f - 1 ≤ ones ∨ 2 ^ 1 ≤ net_size f ones) as Hsz.
  { destruct (decide (fam_bits f - 1 ≤ ones)); [by left|right].
    apply Z.pow_le_mono_r; lia. }
  pose proof (offset_string f base ones index Hnet) as Hoff.
  set (g := match NextIPWithOffset _ _ with Ok gwIP => IP_String gwIP | Err _ => "" end) in *.
  clearbody g.
  destruct (decide (host_index f ones index)) as [H|H]; unfold host_index in H;
    destruct (Z.leb_spec (fam_bits f - 1) ones) as [H1|H1]; cbn [negb andb];
    (rewrite bool_decide_true in H |- * by lia) || (rewrite bool_decide_false in H |- * by lia);
    repeat case_match; boolify; try (done || lia);
    rewrite Hoff by lia; destruct (decide _); (done || lia).
Qed.

(** ** Covering an index range *)

Definition index_covered (l : list ExcludeIndexRange) (i : Z) : Prop :=
  ∃ r, r ∈ l ∧ StartIndex r ≤ i ≤ EndIndex r.

Definition index_range_ok (r : ExcludeIndexRange) : Prop := 0 ≤ StartIndex r ≤ EndIndex r.

Lemma index_covered_cons r l i :
  index_covered (r :: l) i ↔ StartIndex r ≤ i ≤ EndIndex r ∨ index_covered l i.
Proof. unfold index_covered. setoid_rewrite elem_of_cons. naive_solver. Qed.

Lemma index_covered_perm l k i : l ≡ₚ k → index_covered l i → index_covered k i.
Proof. intros E (r & Hr & Hi). exists r. by rewrite <- E. Qed.

Lemma cover_loop_sound l c n :
  cover_loop l c n = true → ∀ i, c < i ≤ n → index_covered l i.
Proof.
  revert c. induction l as [|r l IH]; intros c; cbn [cover_loop]; [done|].
  rewrite !big_Cmp_gtb, big_Cmp_geb. destruct (_ || _) eqn:E1; [done|]. boolify.
  destruct (Z.ltb_spec (c + 1) (StartIndex r)) as [|Hs]; [done|].
  intros Hl i Hi. apply index_covered_cons.
  destruct (decide (i ≤ EndIndex r)); [left; lia|right].
  destruct (Z.ltb_spec c (EndIndex r)) as [Hc|Hc].
  - destruct (Z.leb_spec n (EndIndex r)); [lia|]. apply (IH _ Hl). lia.
  - destruct (Z.leb_spec n c); [lia|]. apply (IH _ Hl). lia.
Qed.

Lemma cover_loop_complete l c n :
  StronglySorted (λ a b, StartIndex a ≤ StartIndex b) l → Forall index_range_ok l →
  c < n → (∀ i, c < i ≤ n → index_covered l i) → cover_loop l c n = true.
Proof.
  intros Hs Hok. revert c. induction Hs as [|r l _ IH Hr]; intros c Hc H.
  { destruct (H n ltac:(lia)) as (? & ?%not_elem_of_nil & _). done. }
  apply Forall_cons in Hok as [Hrok Hok]. cbn [cover_loop].
  rewrite !big_Cmp_gtb, big_Cmp_geb. unfold index_range_ok in Hrok.
  destruct (Z.ltb_spec (StartIndex r) 0); [lia|]. destruct (Z.ltb_spec (EndIndex r) (StartIndex r)); [lia|].
  cbn [orb]. destruct (Z.ltb_spec (c + 1) (StartIndex r)) as [Hgap|_].
  { destruct (H (c + 1) ltac:(lia)) as (r' & [->|Hr']%elem_of_cons & ?); [lia|].
    rewrite Forall_forall in Hr. specialize (Hr _ Hr'). lia. }
  destruct (Z.ltb_spec c (EndIndex r)) as [Hc'|Hc'].
  - destruct (Z.leb_spec n (EndIndex r)) as [|Hn]; [done|]. apply IH; [done..|].
    intros i Hi. destruct (H i ltac:(lia)) as (r' & [->|Hr']%elem_of_cons & ?); [lia|]. by exists r'.
  - destruct (Z.leb_spec n c); [lia|]. apply IH; [done..|].
    intros i Hi. destruct (H i ltac:(lia)) as (r' & [->|Hr']%elem_of_cons & ?); [lia|]. by exists r'.
Qed.

Lemma index_sorted l : StronglySorted (λ a b, StartIndex a ≤ StartIndex b) (sort_by index_less l).
Proof.
  apply sort_by_sorted.
  - intros a b c. lia.
  - intros a b. unfold index_less. case_match; boolify; [lia|]. intros ?; boolify. lia.
  - intros a b. unfold index_less. case_match; boolify; [lia|]. intros ?; boolify. lia.
Qed.

Lemma ExcludeIndexRangesCover_sound l n :
  ExcludeIndexRangesCover l (Some n) = true → 0 ≤ n ∧ ∀ i, 0 ≤ i ≤ n → index_covered l i.
Proof.
  unfold ExcludeIndexRangesCover. destruct (_ || _) eqn:E; [done|]. boolify. intros Hl.
  split; [done|]. intros i Hi. eapply index_covered_perm; [apply (sort_by_perm index_less)|].
  eapply cover_loop_sound; [done|]. lia.
Qed.

Lemma ExcludeIndexRangesCover_complete l n :
  Forall index_range_ok l → 0 ≤ n → (∀ i, 0 ≤ i ≤ n → index_covered l i) →
  ExcludeIndexRangesCover l (Some n) = true.
Proof.
  intros Hok Hn H. unfold ExcludeIndexRangesCover.
  destruct (H 0 ltac:(lia)) as (r & Hr & _).
  rewrite (proj2 (Z.ltb_ge _ _)) by lia. rewrite bool_decide_false by (by intros ->; apply not_elem_of_nil in Hr).
  cbn [orb]. apply cover_loop_complete; [apply index_sorted| |lia|].
  - by rewrite sort_by_perm.
  - intros i Hi. eapply index_covered_perm; [symmetry; apply sort_by_perm|]. apply H. lia.
Qed.

(** ** Index ranges as address ranges *)

Lemma ExcludeIndexRangeToExcludeRange_spec l ips f base :
  addr_of (ParseIP ips) = Some (f, base) →
  ∀ r, r ∈ ExcludeIndexRangeToExcludeRange l ips ↔
    ∃ x, x ∈ l ∧ 0 ≤ StartIndex x ∧ 0 ≤ EndIndex x ∧ base + StartIndex x < 2 ^ fam_bits f ∧
      base + EndIndex x < 2 ^ fam_bits f ∧
      r = mkExcludeRange (IP_String (ip_of f (base + StartIndex x)))
            (IP_String (ip_of f (base + EndIndex x))).
Proof.
  intros Hb r. unfold ExcludeIndexRangeToExcludeRange.
  rewrite (ParseIP_not_nil _ _ _ Hb).
  assert (∀ i ip', NextIPWithOffset (ParseIP ips) (Some i) = Ok ip' ↔
    0 ≤ i ∧ base + i < 2 ^ fam_bits f ∧ ip' = ip_of f (base + i)) as Hoff.
  { intros i ip'. destruct (decide (0 ≤ i)); [|rewrite NextIPWithOffset_neg by lia; naive_solver lia].
    rewrite (NextIPWithOffset_valid _ f base) by done. case_bool_decide; naive_solver. }
  destruct (bool_decide_reflect (l = [])) as [->|_]; [set_solver|].
  rewrite list_elem_of_omap. apply exist_proper. intros x. split.
  - intros [Hx Hr]. split; [done|].
    destruct (NextIPWithOffset _ (Some (StartIndex x))) as [s|] eqn:Es; [|done].
    destruct (NextIPWithOffset _ (Some (EndIndex x))) as [e|] eqn:Ee; [|done].
    apply Hoff in Es, Ee. naive_solver.
  - intros (Hx & ? & ? & ? & ? & ->). split; [done|].
    by rewrite (proj2 (Hoff (StartIndex x) (ip_of f (base + StartIndex x)))),
      (proj2 (Hoff (EndIndex x) (ip_of f (base + EndIndex x)))).
Qed.

(** Index [i] is excluded exactly when the address [base + i] is; the addresses
    are those of a block that lies in the family. *)
Lemma index_excluded_iff f l ips base size i :
  addr_of (ParseIP ips) = Some (f, base) →
  (∀ x, base ≤ x < base + size → addr_ok f x) →
  Forall (λ r, index_range_ok r ∧ EndIndex r < size) l →
  excluded f (ExcludeIndexRangeToExcludeRange l ips) (base + i) ↔ index_covered l i.
Proof.
  intros Hb Hblk Hl. rewrite Forall_forall in Hl.
  pose proof (ExcludeIndexRangeToExcludeRange_spec l ips f base Hb) as HE.
  assert (∀ x, x ∈ l → er_denotes f (mkExcludeRange (IP_String (ip_of f (base + StartIndex x)))
      (IP_String (ip_of f (base + EndIndex x)))) (base + StartIndex x) (base + EndIndex x)) as Hd.
  { intros x Hx. destruct (Hl x Hx) as [[] ?].
    apply er_denotes_strings; [apply addr_of_ip_of, Hblk; lia..|lia]. }
  split.
  - intros (r & s & e & Hr & Hse & Hi). apply HE in Hr as (x & Hx & _ & _ & _ & _ & ->).
    destruct (er_denotes_inj _ _ _ _ _ _ Hse (Hd _ Hx)) as [-> ->].
    exists x. split; [done|lia].
  - intros (x & Hx & Hi). destruct (Hl x Hx) as [[] ?]. eexists _, _, _. split_and!.
    + apply HE. exists x. split_and!; try done; try lia; eapply addr_ok_range, Hblk; lia.
    + by apply Hd.
    + lia.
    + lia.
Qed.

Lemma index_ranges_er_ok f l ips base size :
  addr_of (ParseIP ips) = Some (f, base) →
  (∀ x, base ≤ x < base + size → addr_ok f x) →
  Forall (λ r, index_range_ok r ∧ EndIndex r < size) l →
  Forall (er_ok f) (ExcludeIndexRangeToExcludeRange l ips).
Proof.
  intros Hb Hblk Hl. rewrite Forall_forall in Hl. apply Forall_forall. intros r Hr.
  apply (ExcludeIndexRangeToExcludeRange_spec l ips f base Hb) in Hr as (x & Hx & _ & _ & _ & _ & ->).
  destruct (Hl x Hx) as [[] ?]. eexists _, _.
  apply er_denotes_strings; [apply addr_of_ip_of, Hblk; lia..|lia].
Qed.

(** ** Clamping *)

Section clamp.
Context (f : family) (l : list ExcludeRange) (a b : string) (s e : Z).
Hypothesis Ha : addr_of (ParseIP a) = Some (f, s).
Hypothesis Hb : addr_of (ParseIP b) = Some (f, e).
Hypothesis Hl : Forall (er_ok f) l.
Hypothesis Hse : s ≤ e.

Lemma ClampExcludeRanges_elem r' :
  r' ∈ ClampExcludeRanges l a b ↔
  ∃ r s0 e0, r ∈ l ∧ er_denotes f r s0 e0 ∧ s0 ≤ e ∧ s ≤ e0 ∧
    r' = mkExcludeRange (IP_String (if s0 <? s then ParseIP a else ParseIP (er_StartIP r)))
           (IP_String (if e <? e0 then ParseIP b else ParseIP (er_EndIP r))).
Proof using Ha Hb Hl Hse.
  unfold ClampExcludeRanges. rewrite (ParseIP_not_nil _ _ _ Ha), (ParseIP_not_nil _ _ _ Hb).
  rewrite Forall_forall in Hl. cbn [orb].
  destruct (bool_decide_reflect (l = [])) as [->|_]; [set_solver|].
  rewrite list_elem_of_omap. apply exist_proper. intros r.
  split.
  - intros [Hr H]. destruct (Hl r Hr) as (s0 & e0 & Hd). pose proof Hd as (Hs & He & _).
    rewrite (ParseIP_not_nil _ _ _ Hs), (ParseIP_not_nil _ _ _ He) in H. cbn [orb] in H.
    rewrite (Cmp_gtb _ _ _ _ _ Hs Hb), (Cmp_ltb _ _ _ _ _ He Ha), (Cmp_ltb _ _ _ _ _ Hs Ha),
      (Cmp_gtb _ _ _ _ _ He Hb) in H.
    destruct (_ || _) eqn:E; [done|]. boolify. exists s0, e0. naive_solver.
  - intros (s0 & e0 & Hr & Hd & H1 & H2 & ->). split; [done|]. pose proof Hd as (Hs & He & _).
    rewrite (ParseIP_not_nil _ _ _ Hs), (ParseIP_not_nil _ _ _ He). cbn [orb].
    rewrite (Cmp_gtb _ _ _ _ _ Hs Hb), (Cmp_ltb _ _ _ _ _ He Ha), (Cmp_ltb _ _ _ _ _ Hs Ha),
      (Cmp_gtb _ _ _ _ _ He Hb).
    by rewrite (proj2 (Z.ltb_ge _ _)), (proj2 (Z.ltb_ge _ _)).
Qed.

Lemma clamp_denotes r s0 e0 :
  er_denotes f r s0 e0 → s0 ≤ e → s ≤ e0 →
  er_denotes f (mkExcludeRange (IP_String (if s0 <? s then ParseIP a else ParseIP (er_StartIP r)))
           (IP_String (if e <? e0 then ParseIP b else ParseIP (er_EndIP r)))) (Z.max s0 s) (Z.min e0 e).
Proof using Ha Hb Hse.
  intros (Hs & He & ?) ? ?. apply er_denotes_strings; [| |lia].
  - destruct (Z.ltb_spec s0 s); [by rewrite Z.max_r by lia|by rewrite Z.max_l by lia].
  - destruct (Z.ltb_spec e e0); [by rewrite Z.min_r by lia|by rewrite Z.min_l by lia].
Qed.

Lemma ClampExcludeRanges_er_ok :
  Forall (λ r, ∃ s' e', er_denotes f r s' e' ∧ s ≤ s' ∧ e' ≤ e) (ClampExcludeRanges l a b).
Proof using Ha Hb Hl Hse.
  apply Forall_forall. intros r'. rewrite ClampExcludeRanges_elem.
  intros (r & s0 & e0 & Hr & Hd & ? & ? & ->). eexists _, _. split; [by apply clamp_denotes|lia].
Qed.

Lemma ClampExcludeRanges_excluded x :
  excluded f (ClampExcludeRanges l a b) x ↔ excluded f l x ∧ s ≤ x ≤ e.
Proof using Ha Hb Hl Hse.
  split.
  - intros (r' & s' & e' & Hr' & Hd' & Hx).
    apply ClampExcludeRanges_elem in Hr' as (r & s0 & e0 & Hr & Hd & ? & ? & ->).
    destruct (er_denotes_inj _ _ _ _ _ _ Hd' (clamp_denotes _ _ _ Hd ltac:(done) ltac:(done))) as [-> ->].
    split; [|lia]. exists r, s0, e0. split_and!; (done || lia).
  - intros [(r & s0 & e0 & Hr & Hd & ?) ?].
    pose proof (clamp_denotes _ _ _ Hd ltac:(lia) ltac:(lia)) as Hd'.
    eexists _, _, _. split; [|split; [exact Hd'|lia]].
    apply ClampExcludeRanges_elem. exists r, s0, e0. split_and!; (done || lia).
Qed.
End clamp.

(** ** Merging *)

(** Merging on numbers. *)
Fixpoint zmerge (cur : Z * Z) (l : list (Z * Z)) : list (Z * Z) :=
  match l with
  | [] => [cur]
  | n :: l => if n.1 <=? cur.2 + 1 then zmerge (cur.1, Z.max cur.2 n.2) l else cur :: zmerge n l
  end.

Definition in_ranges (l : list (Z * Z)) (x : Z) : Prop := ∃ r, r ∈ l ∧ r.1 ≤ x ≤ r.2.

(** In order, with a gap of at least one address between neighbours. *)
Definition separated (l : list (Z * Z)) : Prop :=
  StronglySorted (λ a b, a.2 + 1 < b.1) l ∧ Forall (λ r, r.1 ≤ r.2) l.

Lemma in_ranges_cons r l x : in_ranges (r :: l) x ↔ r.1 ≤ x ≤ r.2 ∨ in_ranges l x.
Proof. unfold in_ranges. setoid_rewrite elem_of_cons. naive_solver. Qed.

Lemma zmerge_covers cur l x :
  StronglySorted (λ a b, a.1 ≤ b.1) (cur :: l) → Forall (λ r, r.1 ≤ r.2) (cur :: l) →
  in_ranges (zmerge cur l) x ↔ in_ranges (cur :: l) x.
Proof.
  revert cur. induction l as [|n l IH]; intros cur Hs Hok; [done|]. cbn [zmerge].
  inversion_clear Hs as [|?? Hs' Hc]. inversion_clear Hs' as [|?? Hl Hn].
  inversion_clear Hok as [|?? Hcur Hok']. inversion_clear Hok' as [|?? Hnok Hlok].
  inversion_clear Hc as [|?? Hcn Hcl].
  destruct (Z.leb_spec n.1 (cur.2 + 1)).
  - rewrite IH; [|by constructor|constructor; [simpl; lia|done]].
    rewrite !in_ranges_cons. simpl. destruct (in_ranges_cons n l x). intuition lia.
  - rewrite in_ranges_cons, IH, (in_ranges_cons cur (n :: l)); [done|by constructor..].
Qed.

Lemma zmerge_separated cur l :
  StronglySorted (λ a b, a.1 ≤ b.1) (cur :: l) → Forall (λ r, r.1 ≤ r.2) (cur :: l) →
  separated (zmerge cur l) ∧ Forall (λ r, cur.1 ≤ r.1) (zmerge cur l).
Proof.
  revert cur. induction l as [|n l IH]; intros cur Hs Hok; cbn [zmerge].
  { split; [split; [by repeat constructor|done]|by repeat constructor]. }
  inversion_clear Hs as [|?? Hs' Hc]. inversion_clear Hs' as [|?? Hl Hn].
  inversion_clear Hok as [|?? Hcur Hok']. inversion_clear Hok' as [|?? Hnok Hlok].
  inversion_clear Hc as [|?? Hcn Hcl].
  destruct (Z.leb_spec n.1 (cur.2 + 1)).
  - apply (IH (cur.1, Z.max cur.2 n.2)); constructor; (done || simpl; lia).
  - destruct (IH n) as [[Hsep Hle] Hge]; [by constructor..|].
    assert (Forall (λ r, cur.1 ≤ r.1) (zmerge n l)) as Hcr.
    { eapply Forall_impl; [done|]. simpl. intros; lia. }
    split; [split|]; constructor; try (done || simpl; lia).
    eapply Forall_impl; [exact Hge|]. simpl. intros; lia.
Qed.

(** The parsed range has the numbers [z]. *)
Definition rip_denotes (f : family) (r : excludeRangeIP) (z : Z * Z) : Prop :=
  addr_of (startIP r) = Some (f, z.1) ∧ addr_of (endIP r) = Some (f, z.2).

Lemma addr_of_ip_of_same f x y :
  0 ≤ x < 2 ^ fam_bits f → addr_of (ip_of f x) = Some (f, y) → y = x.
Proof.
  intros Hx [_ H]%addr_of_Some. destruct f.
  - destruct H as [_ <-]. rewrite To4_4 by apply length_ip_of. by apply be_val_ip_of.
  - destruct H as (_ & _ & <-). by apply be_val_ip_of.
Qed.

(** The adjacency test: [b] is the successor of [a]. *)
Lemma NextIP_Cmp_eqb a b f x y :
  addr_of a = Some (f, x) → addr_of b = Some (f, y) → (Cmp (NextIP a) b =? 0) = (y =? x + 1).
Proof.
  intros Ha Hb. pose proof (addr_of_ok _ _ _ Hb) as Hy. pose proof (addr_ok_range _ _ Hy).
  pose proof (addr_ok_range _ _ (addr_of_ok _ _ _ Ha)).
  rewrite (NextIP_valid _ _ _ Ha). destruct (Z.eqb_spec y (x + 1)) as [->|Hn].
  - rewrite bool_decide_true by lia. rewrite (Cmp_eqb _ _ _ _ _ (addr_of_ip_of _ _ Hy) Hb). lia.
  - apply Z.eqb_neq. case_bool_decide; [|by rewrite Cmp_invalid_l].
    destruct (addr_of (ip_of f (x + 1))) as [[g z]|] eqn:Ez; [|by rewrite Cmp_invalid_l].
    rewrite (Cmp_valid _ _ _ _ _ _ Ez Hb). case_bool_decide; [|done]. subst g.
    rewrite big_Cmp_eq. apply addr_of_ip_of_same in Ez; lia.
Qed.

Lemma merge_loop_zmerge f cur zc l zl :
  rip_denotes f cur zc → Forall2 (rip_denotes f) l zl →
  Forall2 (rip_denotes f) (merge_loop cur l) (zmerge zc zl).
Proof.
  intros Hc Hl. revert cur zc Hc. induction Hl as [|n zn l zl Hn Hl IH]; intros cur zc Hc.
  { constructor; [done|constructor]. }
  cbn [merge_loop zmerge]. destruct Hc as [Hc1 Hc2]. pose proof Hn as [Hn1 Hn2].
  rewrite (Cmp_geb _ _ _ _ _ Hc2 Hn1), (Cmp_ltb _ _ _ _ _ Hc2 Hn2),
    (NextIP_Cmp_eqb _ _ _ _ _ Hc2 Hn1).
  replace ((zn.1 <=? zc.2) || (zn.1 =? zc.2 + 1)) with (zn.1 <=? zc.2 + 1) by lia.
  destruct (zn.1 <=? zc.2 + 1); [|constructor; [done|by apply IH]].
  destruct (Z.ltb_spec zc.2 zn.2).
  - rewrite Z.max_r by lia. by apply IH.
  - rewrite Z.max_l by lia. destruct zc. by apply IH.
Qed.

Definition rip_numbers (r : excludeRangeIP) : Z * Z :=
  (default 0 (snd <$> addr_of (startIP r)), default 0 (snd <$> addr_of (endIP r))).

Definition rip_ok (f : family) (r : excludeRangeIP) : Prop :=
  rip_denotes f r (rip_numbers r) ∧ (rip_numbers r).1 ≤ (rip_numbers r).2.

Lemma parse_exclude_range_spec f r s e :
  er_denotes f r s e →
  ∃ p, parse_exclude_range r = Some p ∧ rip_ok f p ∧ rip_numbers p = (s, e).
Proof.
  intros (Hs & He & Hle). unfold parse_exclude_range.
  rewrite (ParseIP_not_nil _ _ _ Hs), (ParseIP_not_nil _ _ _ He). eexists. split; [done|].
  unfold rip_ok, rip_denotes, rip_numbers. cbn [startIP endIP]. by rewrite Hs, He.
Qed.

Lemma parse_exclude_ranges f l :
  Forall (er_ok f) l →
  Forall (rip_ok f) (omap parse_exclude_range l) ∧
  Forall2 (λ r z, er_denotes f r z.1 z.2) l (rip_numbers <$> omap parse_exclude_range l).
Proof.
  induction 1 as [|r l (s & e & Hr) _ [IH1 IH2]]; [by split; constructor|].
  destruct (parse_exclude_range_spec _ _ _ _ Hr) as (p & Hp & Hok & Hn).
  csimpl. rewrite Hp. csimpl. split; constructor; try done. by rewrite Hn.
Qed.

Lemma excluded_in_ranges f l zl x :
  Forall2 (λ r z, er_denotes f r z.1 z.2) l zl → excluded f l x ↔ in_ranges zl x.
Proof.
  intros H. split.
  - intros (r & s & e & Hr & Hd & Hx). destruct (Forall2_elem_l _ _ _ _ H Hr) as (z & Hz & Hd').
    exists z. split; [done|]. by destruct (er_denotes_inj _ _ _ _ _ _ Hd Hd') as [<- <-].
  - intros (z & Hz & Hx). destruct (Forall2_elem_r _ _ _ _ H Hz) as (r & Hr & Hd).
    by exists r, z.1, z.2.
Qed.

#[global] Instance in_ranges_perm : Proper ((≡ₚ) ==> eq ==> iff) in_ranges.
Proof. intros l k E x ? <-. unfold in_ranges. by setoid_rewrite E. Qed.

Definition start_less (a b : Z * Z) : bool := a.1 <? b.1.

Lemma start_sorted l : StronglySorted (λ a b, a.1 ≤ b.1) (sort_by start_less l).
Proof.
  apply sort_by_sorted; unfold start_less; [intros ???; lia|intros ?? ?; boolify; lia..].
Qed.

Lemma sort_rips f l :
  Forall (rip_ok f) l →
  Forall2 (rip_denotes f) (sort_by (λ a b, Cmp (startIP a) (startIP b) <? 0) l)
    (sort_by start_less (rip_numbers <$> l)).
Proof.
  intros Hl. rewrite <- (sort_by_map rip_numbers (λ a b, Cmp (startIP a) (startIP b) <? 0)).
  - apply Forall2_fmap_r, Forall_Forall2_diag. rewrite sort_by_perm.
    eapply Forall_impl; [exact Hl|]. by intros ? [].
  - intros a b Ha Hb. rewrite Forall_forall in Hl.
    destruct (Hl a Ha) as [[Ha1 _] _], (Hl b Hb) as [[Hb1 _] _].
    by apply (Cmp_ltb _ _ _ _ _ Ha1 Hb1).
Qed.

(** [MergeExcludeRanges] returns well-formed ranges, in order and separated by
    gaps, with the same addresses. *)
Lemma MergeExcludeRanges_spec f l :
  Forall (er_ok f) l →
  ∃ zl, Forall2 (λ r z, er_denotes f r z.1 z.2) (MergeExcludeRanges l) zl ∧ separated zl ∧
    ∀ x, in_ranges zl x ↔ excluded f l x.
Proof.
  intros Hl. unfold MergeExcludeRanges.
  destruct (bool_decide_reflect (l = [])) as [->|Hne].
  { exists []. split; [constructor|]. split; [split; constructor|]. intros x.
    rewrite (excluded_in_ranges f [] []) by constructor. done. }
  destruct (parse_exclude_ranges f l Hl) as [Hok Hden].
  set (ps := omap parse_exclude_range l) in *. pose proof (sort_rips f ps Hok) as HS.
  assert (Forall (λ r, r.1 ≤ r.2) (sort_by start_less (rip_numbers <$> ps))) as Hle.
  { rewrite sort_by_perm, Forall_fmap. eapply Forall_impl; [exact Hok|]. by intros ? []. }
  pose proof (start_sorted (rip_numbers <$> ps)) as Hsorted.
  pose proof (sort_by_perm start_less (rip_numbers <$> ps)) as Hp.
  destruct HS as [|c zc rest zrest Hc Hr]; [exists []|exists (zmerge zc zrest)].
  - split; [constructor|]. split; [split; constructor|]. intros x.
    by rewrite (excluded_in_ranges f l _ x Hden), <- Hp.
  - destruct (zmerge_separated zc zrest) as [Hsep _]; [done..|].
    pose proof (merge_loop_zmerge f c zc rest zrest Hc Hr) as HM. split_and!; [|done|].
    + destruct Hsep as [_ Hsep]. clear -HM Hsep. induction HM as [|r z ?? [] ? IH]; [constructor|].
      apply Forall_cons in Hsep as []. constructor; [by apply er_denotes_strings|by apply IH].
    + intros x. rewrite zmerge_covers, (excluded_in_ranges f l _ x Hden) by done.
      by rewrite <- Hp.
Qed.

Lemma MergeExcludeRanges_excluded f l x :
  Forall (er_ok f) l → excluded f (MergeExcludeRanges l) x ↔ excluded f l x.
Proof.
  intros Hl. destruct (MergeExcludeRanges_spec f l Hl) as (zl & Hd & _ & Hx).
  by rewrite (excluded_in_ranges _ _ _ _ Hd).
Qed.

Lemma MergeExcludeRanges_er_ok f l : Forall (er_ok f) l → Forall (er_ok f) (MergeExcludeRanges l).
Proof.
  intros Hl. destruct (MergeExcludeRanges_spec f l Hl) as (zl & Hd & _).
  apply Forall_forall. intros r Hr. destruct (Forall2_elem_l _ _ _ _ Hd Hr) as (z & _ & Hz).
  by eexists _, _.
Qed.

(** Separated ranges that cover an interval cover it with one of them. *)
Lemma separated_cover l s e :
  separated l → s ≤ e → (∀ x, in_ranges l x → s ≤ x ≤ e) →
  (∀ x, s ≤ x ≤ e → in_ranges l x) ↔ l = [(s, e)].
Proof.
  intros [Hsep Hok] Hse Hin. split.
  2:{ intros -> x Hx. exists (s, e). split; [apply list_elem_of_here|done]. }
  intros H. destruct l as [|r l].
  { destruct (H s ltac:(lia)) as (? & ?%not_elem_of_nil & _). done. }
  inversion_clear Hsep as [|?? _ Hr]. apply Forall_cons in Hok as [Hrle Hok].
  rewrite Forall_forall in Hr, Hok.
  assert (r.1 = s) as E1.
  { destruct (H s ltac:(lia)) as (r' & [->|Hr']%elem_of_cons & ?).
    - destruct (Hin r.1) as [? _]; [exists r; split; [apply list_elem_of_here|lia]|lia].
    - destruct (Hin r.1) as [? _]; [exists r; split; [apply list_elem_of_here|lia]|].
      specialize (Hr _ Hr'). lia. }
  assert (r.2 ≤ e) as Hle.
  { destruct (Hin r.2) as [_ ?]; [exists r; split; [apply list_elem_of_here|lia]|lia]. }
  assert (r.2 = e) as E2.
  { destruct (decide (r.2 = e)); [done|].
    destruct (H (r.2 + 1) ltac:(lia)) as (r' & [->|Hr']%elem_of_cons & ?); [lia|].
    specialize (Hr _ Hr'). simpl in Hr. lia. }
  destruct l as [|r' l]; [destruct r; simpl in *; by subst|].
  specialize (Hr r' (list_elem_of_here _ _)). specialize (Hok r' (list_elem_of_here _ _)).
  destruct (Hin r'.1) as [_ ?]; [exists r'; split; [apply list_elem_of_further, list_elem_of_here|lia]|].
  simpl in Hr. lia.
Qed.

Lemma er_ok_app f l k : Forall (er_ok f) l → Forall (er_ok f) k → Forall (er_ok f) (l ++ k).
Proof. apply Forall_app_2. Qed.

Lemma excluded_app f l k x : excluded f (l ++ k) x ↔ excluded f l x ∨ excluded f k x.
Proof. unfold excluded. setoid_rewrite elem_of_app. naive_solver. Qed.

(** The test at the end of [isEntireRangeExcluded] and of
    [isPrefixFullyExcluded]: the merged list is one range that covers the
    addresses from [first] through [last]. *)
Definition single_range_covers (merged : list ExcludeRange) (first last : IP) : bool :=
  match merged with
  | [r] =>
      let excludeStart := ParseIP (er_StartIP r) in
      let excludeEnd := ParseIP (er_EndIP r) in
      if is_nil excludeStart || is_nil excludeEnd then false
      else (Cmp excludeStart first <=? 0) && (0 <=? Cmp excludeEnd last)
  | _ => false
  end.

Lemma single_range_covers_spec f l first last x y :
  addr_of first = Some (f, x) → addr_of last = Some (f, y) → x ≤ y → Forall (er_ok f) l →
  single_range_covers (MergeExcludeRanges (ClampExcludeRanges l (IP_String first) (IP_String last)))
    first last = true ↔ ∀ z, x ≤ z ≤ y → excluded f l z.
Proof.
  intros Hs He Hxy Hall.
  pose proof (ParseIP_String _ _ _ Hs) as Hps. pose proof (ParseIP_String _ _ _ He) as Hpe.
  pose proof (ClampExcludeRanges_er_ok f _ _ _ x y Hps Hpe Hall Hxy) as Hcl.
  assert (Forall (er_ok f) (ClampExcludeRanges l (IP_String first) (IP_String last))) as Hcl'.
  { eapply Forall_impl; [exact Hcl|]. intros ? (s' & e' & Hd & _). by exists s', e'. }
  destruct (MergeExcludeRanges_spec f _ Hcl') as (zl & Hd & Hsep & Hzl).
  assert (∀ z, in_ranges zl z ↔ excluded f l z ∧ x ≤ z ≤ y) as Hin.
  { intros z. by rewrite Hzl, (ClampExcludeRanges_excluded f _ _ _ x y). }
  etrans; [|etrans; [symmetry; apply (separated_cover zl x y Hsep Hxy)|]].
  2:{ intros z Hz. by apply Hin in Hz as [_ ?]. }
  2:{ split; intros HH z Hz; specialize (HH z Hz); [by apply Hin in HH as [? _]|by apply Hin]. }
  destruct Hd as [|r' z l' k (D1 & D2 & D3) Hd]; [done|]. destruct Hd as [|]; [|done].
  unfold single_range_covers. rewrite (ParseIP_not_nil _ _ _ D1), (ParseIP_not_nil _ _ _ D2). cbn [orb].
  rewrite (Cmp_leb _ _ _ _ _ D1 Hs), (Cmp_geb _ _ _ _ _ D2 He), andb_true_iff, !Z.leb_le.
  assert (x ≤ z.1 ∧ z.2 ≤ y) as [? ?].
  { split; [apply (Hin z.1)|apply (Hin z.2)]; exists z; (split; [apply list_elem_of_here|lia]). }
  destruct z as [z1 z2]; simpl in *. split; [intros []; f_equal; f_equal; lia|intros [=]; lia].
Qed.

(** ** Properties *)

(** C30: Merging loses nothing and adds nothing: on well-formed ranges of one
    family, [MergeExcludeRanges] returns well-formed ranges that contain the
    same addresses, in increasing order, with at least one free address
    between any two neighbours. *)
Theorem merge_exclusions_canonical f l :
  Forall (er_ok f) l →
  Forall (er_ok f) (MergeExcludeRanges l) ∧
  (∀ x, excluded f (MergeExcludeRanges l) x ↔ excluded f l x) ∧
  ∀ i j r r' s e s' e', (i < j)%nat → MergeExcludeRanges l !! i = Some r →
    MergeExcludeRanges l !! j = Some r' → er_denotes f r s e → er_denotes f r' s' e' → e + 1 < s'.
Proof.
  intros Hl. split; [by apply MergeExcludeRanges_er_ok|].
  split; [intros; by apply MergeExcludeRanges_excluded|]. intros i j r r' s e s' e' Hij Hi Hj Hr Hr'.
  destruct (MergeExcludeRanges_spec f l Hl) as (zl & Hd & [Hs _] & _).
  destruct (Forall2_lookup_l _ _ _ _ _ Hd Hi) as (z & Hz & Dz).
  destruct (Forall2_lookup_l _ _ _ _ _ Hd Hj) as (z' & Hz' & Dz').
  destruct (er_denotes_inj _ _ _ _ _ _ Hr Dz) as [-> ->].
  destruct (er_denotes_inj _ _ _ _ _ _ Hr' Dz') as [-> ->].
  apply (StronglySorted_lookup _ _ _ _ _ _ Hs Hij Hz Hz').
Qed.

Lemma merge_exclusions_canonical_witness :
  let l := [mkExcludeRange "10.0.0.9" "10.0.0.20"; mkExcludeRange "10.0.0.1" "10.0.0.8"] in
  Forall (er_ok F4) l ∧ MergeExcludeRanges l = [mkExcludeRange "10.0.0.1" "10.0.0.20"] ∧
  (∀ x, excluded F4 (MergeExcludeRanges l) x ↔ excluded F4 l x).
Proof.
  intros l. assert (Forall (er_ok F4) l) as H by (apply er_okb_ok; vm_compute; reflexivity).
  split; [exact H|]. split; [vm_compute; reflexivity|].
  apply (merge_exclusions_canonical F4 _ H).
Defined.

(** [ExcludeIndexRangesCover] is sound for any input, and complete for
    ranges that passed validation: it answers true exactly when every index
    from 0 through [lastIndex] lies in one of the ranges. *)
Theorem index_cover_exact l lastIndex :
  (ExcludeIndexRangesCover l (Some lastIndex) = true →
   0 ≤ lastIndex ∧ ∀ i, 0 ≤ i ≤ lastIndex → index_covered l i) ∧
  (Forall index_range_ok l → 0 ≤ lastIndex → (∀ i, 0 ≤ i ≤ lastIndex → index_covered l i) →
   ExcludeIndexRangesCover l (Some lastIndex) = true).
Proof. split; [apply ExcludeIndexRangesCover_sound|apply ExcludeIndexRangesCover_complete]. Qed.

(** Clamping is intersection: the addresses of [ClampExcludeRanges] are the
    excluded addresses between [startIP] and [endIP], and every range it
    returns is well formed and lies between them. *)
Theorem clamp_exclusions_intersection f l a b s e :
  addr_of (ParseIP a) = Some (f, s) → addr_of (ParseIP b) = Some (f, e) → s ≤ e →
  Forall (er_ok f) l →
  Forall (λ r, ∃ s' e', er_denotes f r s' e' ∧ s ≤ s' ∧ e' ≤ e) (ClampExcludeRanges l a b) ∧
  ∀ x, excluded f (ClampExcludeRanges l a b) x ↔ excluded f l x ∧ s ≤ x ≤ e.
Proof.
  intros Ha Hb Hse Hl. split; [by apply ClampExcludeRanges_er_ok|].
  intros x. by apply ClampExcludeRanges_excluded.
Qed.

Lemma clamp_exclusions_intersection_witness :
  let l := [mkExcludeRange "fd00::1" "fd00::9"; mkExcludeRange "fd00::ff" "fd00::ff"] in
  ClampExcludeRanges l "fd00::5" "fd00::10" = [mkExcludeRange "fd00::5" "fd00::9"] ∧
  ∀ x, excluded F6 (ClampExcludeRanges l "fd00::5" "fd00::10") x ↔
       excluded F6 l x ∧ 253 * 2 ^ 120 + 5 ≤ x ≤ 253 * 2 ^ 120 + 16.
Proof.
  intros l. split; [vm_compute; reflexivity|].
  apply (clamp_exclusions_intersection F6 l "fd00::5" "fd00::10");
    [vm_compute; reflexivity..|lia|apply er_okb_ok; vm_compute; reflexivity].
Defined.

(** The gateway computed for a subnet is the address with the given index
    when the index is a host index, and is empty otherwise; it is always an
    address of the subnet, never the network address of an ordinary subnet,
    and never its IPv4 broadcast address. *)
Theorem gateway_is_host f base ones index :
  net_ok f base ones →
  (host_index f ones index →
   ∃ gw, ParseIP (GetGatewayForSubnet (net_of f base ones) index) = gw ∧
     addr_of gw = Some (f, base + index) ∧ Contains (net_of f base ones) gw = true ∧
     IsBroadcast gw (Some (net_of f base ones)) = Some false ∧
     (ones < fam_bits f - 1 → base + index ≠ base)) ∧
  (¬ host_index f ones index → GetGatewayForSubnet (net_of f base ones) index = "").
Proof.
  intros Hnet. rewrite GetGatewayForSubnet_net by done. split; intros H; [|by rewrite decide_False].
  rewrite decide_True by done.
  pose proof (net_size_pos f ones ltac:(destruct Hnet; lia)).
  assert (0 ≤ index < net_size f ones) as Hi.
  { unfold host_index in H. destruct (bool_decide _); destruct f; lia. }
  pose proof (net_ok_addr f base ones (base + index) Hnet ltac:(lia)) as Hok.
  pose proof (ParseIP_addr_string f (base + index) Hok) as Hgw.
  eexists. split; [done|]. split; [done|]. split.
  { rewrite (Contains_net_of _ _ _ _ _ _ Hnet Hgw). apply bool_decide_true. split; [done|lia]. }
  split; [|intros Ho; unfold host_index in H; rewrite bool_decide_false in H by lia; lia].
  rewrite (IsBroadcast_net _ _ _ _ _ _ Hnet Hgw). f_equal. apply bool_decide_false.
  unfold host_index in H. intros (? & ? & ?). subst. case_bool_decide; simpl in *; lia.
Qed.

Lemma gateway_is_host_witness :
  ∃ gw, ParseIP (GetGatewayForSubnet (net_of F4 (10 * 2 ^ 24) 24) 7) = gw ∧
    addr_of gw = Some (F4, 10 * 2 ^ 24 + 7) ∧ Contains (net_of F4 (10 * 2 ^ 24) 24) gw = true ∧
    IsBroadcast gw (Some (net_of F4 (10 * 2 ^ 24) 24)) = Some false ∧
    (24 < fam_bits F4 - 1 → 10 * 2 ^ 24 + 7 ≠ 10 * 2 ^ 24).
Proof.
  apply (gateway_is_host F4 (10 * 2 ^ 24) 24 7); 
    [split_and!; try done; simpl; lia|apply (bool_decide_unpack _); vm_compute; exact I].
Defined.
