(* ===== verification/Validate.v ===== *)
(** * Validation of the pool resources: [api/v1alpha1/*_validate.go] and the webhooks

    The admission webhook, the controllers and the node daemon call these
    functions before they use a pool; what they accept is the contract under
    which the allocators are proved correct.  The name checks of the CNI
    library and of the Kubernetes API machinery are operations of a class. *)

From S2P Require Import Prelude GoNet Cidr GoNetText ApiTypes Exclusions.

(** ** Field errors ([k8s.io/apimachinery/pkg/util/validation/field]) *)

Inductive path_elem := Child (name : string) | Index (i : nat).
Abbreviation Path := (list path_elem) (only parsing).

Inductive error_type := ErrorTypeInvalid | ErrorTypeRequired | ErrorTypeForbidden.

(** The offending value is left out; a detail made with [fmt.Sprintf] is its
    format string. *)
Record field_error := mkFieldError {
  fe_type : error_type;
  fe_path : Path;
  fe_detail : string;
}.
Abbreviation ErrorList := (list field_error) (only parsing).

Definition Invalid := mkFieldError ErrorTypeInvalid.
Definition Required := mkFieldError ErrorTypeRequired.
Definition Forbidden := mkFieldError ErrorTypeForbidden.

(** [if cond { errList = append(errList, err) }] *)
Definition errIf (cond : bool) (e : field_error) : ErrorList := if cond then [e] else [].

(** Errors of a loop [for i, e := range l]. *)
Definition errEach {A} (check : nat → A → ErrorList) (l : list A) : ErrorList :=
  concat (imap check l).

(** What the code calls of other modules: the CNI network name check
    ([true]: the name is accepted), the label key check and the DNS subdomain
    check (their messages). *)
Class K8sNames := {
  ValidateNetworkName : string → bool;
  ValidateLabelName : string → list string;
  NameIsDNSSubdomain : string → list string;
}.

(** ** Exclusions and routes *)

Definition validateExclusion (subnet : IPNet) (fldPath : Path) (i : nat) (e : ExcludeRange) :
    ErrorList :=
  let path := fldPath ++ [Child "exclusions"; Index i] in
  let startIP := ParseIP (er_StartIP e) in
  let endIP := ParseIP (er_EndIP e) in
  (if is_nil startIP then [Invalid (path ++ [Child "startIP"]) "is invalid IP address"]
   else errIf (negb (Contains subnet startIP))
          (Invalid (path ++ [Child "startIP"]) "is not part of the %s subnet")) ++
  (if is_nil endIP then [Invalid (path ++ [Child "endIP"]) "is invalid IP address"]
   else errIf (negb (Contains subnet endIP))
          (Invalid (path ++ [Child "endIP"]) "is not part of the %s subnet")) ++
  errIf (negb (is_nil startIP) && negb (is_nil endIP) && (Cmp endIP startIP <? 0))
    (Invalid path "endIP should be equal or greater than startIP").

Definition validateExclusions (subnet : IPNet) (exclusions : list ExcludeRange) (fldPath : Path) :
    ErrorList := errEach (validateExclusion subnet fldPath) exclusions.

Definition MaxInt32 : Z := 2147483647.
Definition to_int32 (z : Z) : Z := (z + 2 ^ 31) mod 2 ^ 32 - 2 ^ 31.

Definition validateIndexRange (maxIndex : Z) (msg : string) (fldPath : Path) (i : nat)
    (e : ExcludeIndexRange) : ErrorList :=
  let path := fldPath ++ [Child "perNodeExclusions"; Index i] in
  errIf (StartIndex e <? 0) (Invalid (path ++ [Child "startIndex"]) "must be non-negative") ++
  errIf (EndIndex e <? 0) (Invalid (path ++ [Child "endIndex"]) "must be non-negative") ++
  errIf (EndIndex e <? StartIndex e)
    (Invalid path "endIndex must be greater than or equal to startIndex") ++
  errIf (maxIndex <? StartIndex e) (Invalid (path ++ [Child "startIndex"]) msg) ++
  errIf (maxIndex <? EndIndex e) (Invalid (path ++ [Child "endIndex"]) msg).

Definition perNodeMaxIndex (subnet : IPNet) (perNodeNetworkPrefix : Z) : Z :=
  let '(_, bitsTotal) := Mask_Size (net_Mask subnet) in
  let hostBits := bitsTotal - perNodeNetworkPrefix in
  let ipCount := big_Exp2 hostBits in
  let maxIndexBig := ipCount - 1 in
  if bool_decide (- 2 ^ 63 ≤ maxIndexBig < 2 ^ 63) && (maxIndexBig <? MaxInt32)
  then to_int32 maxIndexBig else MaxInt32.

Definition validatePerNodeExclusions (subnet : IPNet) (perNodeNetworkPrefix : Z)
    (exclusions : list ExcludeIndexRange) (fldPath : Path) : ErrorList :=
  errEach (validateIndexRange (perNodeMaxIndex subnet perNodeNetworkPrefix)
    "index is outside of the per-node subnet range (max: %d)" fldPath) exclusions.

Definition validatePerNodeExclusionsForBlockSize (perNodeBlockSize : Z)
    (exclusions : list ExcludeIndexRange) (fldPath : Path) : ErrorList :=
  let maxIndex :=
    if MaxInt32 <? perNodeBlockSize - 1 then MaxInt32 else to_int32 (perNodeBlockSize - 1) in
  errEach (validateIndexRange maxIndex
    "index is outside of the per-node block range (max: %d)" fldPath) exclusions.

Definition isDefaultRoute (ipNet : IPNet) : bool :=
  (negb (is_nil (To4 (net_IP ipNet))) && bool_decide (IPNet_String ipNet = "0.0.0.0/0")) ||
  (is_nil (To4 (net_IP ipNet)) && bool_decide (IPNet_String ipNet = "::/0")).

Definition validateRoute (network : option IPNet) (defaultGateway : bool) (fldPath : Path)
    (i : nat) (r : Route) : ErrorList :=
  let path := fldPath ++ [Child "routes"; Index i; Child "dst"] in
  match ParseCIDR (Dst r) with
  | None => [Invalid path "is invalid subnet"]
  | Some (_, routeNet) =>
      match network with
      | Some network =>
          errIf (xorb (negb (is_nil (To4 (net_IP routeNet)))) (negb (is_nil (To4 (net_IP network)))))
            (Invalid path "is not same address family IPv4/IPv6")
      | None => []
      end ++
      errIf (defaultGateway && isDefaultRoute routeNet)
        (Invalid path "default route is not allowed if 'defaultGateway' is true")
  end.

Definition validateRoutes (routes : list Route) (network : option IPNet) (defaultGateway : bool)
    (fldPath : Path) : ErrorList :=
  errEach (validateRoute network defaultGateway fldPath) routes.

(** ** Node selectors *)

Section validate.
Context `{K8sNames}.

Definition op_in (op : string) (ops : list string) : bool := bool_decide (op ∈ ops).

Definition validateNodeSelectorRequirement (rq : NodeSelectorRequirement) (fldPath : Path) :
    ErrorList :=
  let values := fldPath ++ [Child "values"] in
  (if op_in (rq_Operator rq) ["In"; "NotIn"] then
     errIf (bool_decide (rq_Values rq = []))
       (Required values "must be specified when `operator` is 'In' or 'NotIn'")
   else if op_in (rq_Operator rq) ["Exists"; "DoesNotExist"] then
     errIf (bool_decide (rq_Values rq ≠ []))
       (Forbidden values "may not be specified when `operator` is 'Exists' or 'DoesNotExist'")
   else if op_in (rq_Operator rq) ["Gt"; "Lt"] then
     errIf (bool_decide (length (rq_Values rq) ≠ 1%nat))
       (Required values "must be specified single value when `operator` is 'Lt' or 'Gt'")
   else [Invalid (fldPath ++ [Child "operator"]) "not a valid selector operator"]) ++
  map (Invalid (fldPath ++ [Child "key"])) (ValidateLabelName (rq_Key rq)).

Definition validateNodeFieldSelectorRequirement (req : NodeSelectorRequirement) (fldPath : Path) :
    ErrorList :=
  (if op_in (rq_Operator req) ["In"; "NotIn"] then
     errIf (bool_decide (length (rq_Values req) ≠ 1%nat))
       (Required (fldPath ++ [Child "values"])
          "must be only one value when `operator` is 'In' or 'NotIn' for node field selector")
   else [Invalid (fldPath ++ [Child "operator"]) "not a valid selector operator"]) ++
  (if bool_decide (rq_Key req = "metadata.name") then
     errEach (λ i v, map (Invalid (fldPath ++ [Child "values"; Index i])) (NameIsDNSSubdomain v))
       (rq_Values req)
   else [Invalid (fldPath ++ [Child "key"]) "not a valid field selector key"]).

Definition validateNodeSelectorTerm (term : NodeSelectorTerm) (fldPath : Path) : ErrorList :=
  errEach (λ j req, validateNodeSelectorRequirement req
    (fldPath ++ [Child "matchExpressions"; Index j])) (MatchExpressions term) ++
  errEach (λ j req, validateNodeFieldSelectorRequirement req
    (fldPath ++ [Child "matchFields"; Index j])) (MatchFields term).

Definition validateNodeSelector (nodeSelector : NodeSelector) (fldPath : Path) : ErrorList :=
  let termFldPath := fldPath ++ [Child "nodeSelectorTerms"] in
  if bool_decide (NodeSelectorTerms nodeSelector = [])
  then [Required termFldPath "must have at least one node selector term"]
  else errEach (λ i term, validateNodeSelectorTerm term (termFldPath ++ [Index i]))
         (NodeSelectorTerms nodeSelector).

(** ** IPPool *)

Definition spec_path (name : string) : Path := [Child "spec"; Child name].

Definition IPPool_Validate (r : IPPool) : ErrorList :=
  let sp := ipp_Spec r in
  let network := snd <$> ParseCIDR (Subnet sp) in
  let parsedGW := if bool_decide (Gateway sp = "") then [] else ParseIP (Gateway sp) in
  errIf (negb (ValidateNetworkName (ipp_Name r)))
    (Invalid [Child "metadata"; Child "name"]
       "invalid IP pool name, should be compatible with CNI network name") ++
  errIf (bool_decide (network = None)) (Invalid (spec_path "subnet") "is invalid subnet") ++
  errIf (PerNodeBlockSize sp <? 1) (Invalid (spec_path "perNodeBlockSize") "must be at least 1") ++
  match network with
  | Some network =>
      errIf ((1 <=? PerNodeBlockSize sp) &&
             (big_Cmp (GetPossibleIPCount network) (PerNodeBlockSize sp) <? 0))
        (Invalid (spec_path "perNodeBlockSize")
           "is larger then amount of IPs available in the subnet") ++
      validateExclusions network (Exclusions sp) [Child "spec"]
  | None => []
  end ++
  (if 1 <=? PerNodeBlockSize sp then
     validatePerNodeExclusionsForBlockSize (PerNodeBlockSize sp) (PerNodeExclusions sp) [Child "spec"]
   else []) ++
  errIf (bool_decide (Gateway sp ≠ "") && is_nil parsedGW)
    (Invalid (spec_path "gateway") "is invalid IP address") ++
  match network with
  | Some network =>
      errIf (negb (is_nil parsedGW) && negb (Contains network parsedGW))
        (Invalid (spec_path "gateway") "is not part of the subnet")
  | None => []
  end ++
  match ipp_NodeSelector sp with
  | Some nodeSelector => validateNodeSelector nodeSelector [Child "spec"]
  | None => []
  end ++
  (if bool_decide (Gateway sp = "") then
     errIf (DefaultGateway sp) (Invalid (spec_path "defaultGateway")
       "cannot be true if spec.gateway is not set") ++
     errIf (bool_decide (Routes sp ≠ [])) (Invalid (spec_path "routes")
       "cannot be set if spec.gateway is not set")
   else []) ++
  validateRoutes (Routes sp) network (DefaultGateway sp) [Child "spec"].

(** ** CIDRPool *)

(** The loop of [validateStaticAllocations]: the errors of entry [i] and what
    it adds to the two counters. *)
Definition validateStaticAllocation (sp : CIDRPoolSpec) (cidr : IPNet) (i : nat)
    (alloc : CIDRPoolStaticAllocation) : ErrorList * option string :=
  let path name := [Child "spec"; Child "staticAllocations"; Index i; Child name] in
  let '(_, parentCIDRTotalBits) := Mask_Size (net_Mask cidr) in
  match ParseCIDR (sa_Prefix alloc) with
  | None => ([Invalid (path "prefix") "is not a valid network prefix"], None)
  | Some (netIP, nodePrefix) =>
      if negb (IP_Equal netIP (net_IP nodePrefix)) then
        ([Invalid (path "prefix") "network prefix has host bits set"], None)
      else
        let key := Some (IPNet_String nodePrefix) in
        if negb (Contains cidr (net_IP nodePrefix)) then
          ([Invalid (path "prefix") "prefix is not part of the pool cidr"], key)
        else
          let '(nodePrefixOnes, nodePrefixTotalBits) := Mask_Size (net_Mask nodePrefix) in
          if negb (parentCIDRTotalBits =? nodePrefixTotalBits) then
            ([Invalid (path "prefix") "ip family doesn't match the pool cidr"], key)
          else if negb (nodePrefixOnes =? PerNodeNetworkPrefix sp) then
            ([Invalid (path "prefix") "prefix size doesn't match spec.perNodeNetworkPrefix"], key)
          else if bool_decide (sa_Gateway alloc ≠ "") then
            let gwIP := ParseIP (sa_Gateway alloc) in
            if is_nil gwIP then ([Invalid (path "gateway") "is not a valid IP"], key)
            else if negb (Contains nodePrefix gwIP) then
              ([Invalid (path "gateway") "is outside of the node prefix"], key)
            else ([], key)
          else ([], key)
  end.

(** [m[k]++] for every key of the list. *)
Definition count_keys (keys : list string) : gmap string Z :=
  foldl (λ m k, <[k := default 0 (m !! k) + 1]> m) ∅ keys.

(** [for k, v := range m { if v > 1 { ... } }]; Go leaves the order open. *)
Definition dup_errors (m : gmap string Z) (msg : string) : ErrorList :=
  concat (map (λ kv : string * Z, errIf (1 <? kv.2)
    (Invalid [Child "spec"; Child "staticAllocations"] msg)) (map_to_list m)).

Definition validateStaticAllocations (r : CIDRPool) (cidr : IPNet) : ErrorList :=
  let sp := cp_Spec r in
  let checked := imap (validateStaticAllocation sp cidr) (StaticAllocations sp) in
  let nodes := count_keys (filter (λ n, n ≠ "") (map sa_NodeName (StaticAllocations sp))) in
  let prefixes := count_keys (omap snd checked) in
  concat (map fst checked) ++
  dup_errors nodes "contains multiple entries for node %s" ++
  dup_errors prefixes "contains multiple entries for prefix %s".

Definition validateCIDR (r : CIDRPool) : ErrorList :=
  let sp := cp_Spec r in
  match ParseCIDR (CIDR sp) with
  | None => [Invalid (spec_path "cidr") "is invalid cidr"]
  | Some (netIP, network) =>
      if negb (IP_Equal netIP (net_IP network)) then
        [Invalid (spec_path "cidr") "network prefix has host bits set"]
      else if match GatewayIndex sp with Some i => i <? 0 | None => false end then
        [Invalid (spec_path "gatewayIndex") "must not be negative"]
      else if PerNodeNetworkPrefix sp <? 0 then
        [Invalid (spec_path "perNodeNetworkPrefix") "must not be negative"]
      else
        let '(setBits, bitsTotal) := Mask_Size (net_Mask network) in
        if (PerNodeNetworkPrefix sp =? 0) || (to_int32 bitsTotal <? PerNodeNetworkPrefix sp) ||
           (PerNodeNetworkPrefix sp <? to_int32 setBits)
        then
          [Invalid (spec_path "perNodeNetworkPrefix")
             "must be less or equal than network prefix size in the 'cidr' field"]
        else
          let firstNodePrefix :=
            mkIPNet (net_IP network) (CIDRMask (PerNodeNetworkPrefix sp) bitsTotal) in
          match GatewayIndex sp with
          | Some i => errIf (bool_decide (GetGatewayForSubnet firstNodePrefix i = ""))
              (Invalid (spec_path "gatewayIndex") "gateway index is outside of the node prefix")
          | None => []
          end ++
          validateExclusions network (cp_Exclusions sp) [Child "spec"] ++
          validatePerNodeExclusions network (PerNodeNetworkPrefix sp)
            (cp_PerNodeExclusions sp) [Child "spec"] ++
          validateStaticAllocations r network
  end.

Definition CIDRPool_Validate (r : CIDRPool) : ErrorList :=
  let sp := cp_Spec r in
  errIf (negb (ValidateNetworkName (cp_Name r)))
    (Invalid [Child "metadata"; Child "name"]
       "invalid CIDR pool name, should be compatible with CNI network name") ++
  validateCIDR r ++
  match cp_NodeSelector sp with
  | Some nodeSelector => validateNodeSelector nodeSelector [Child "spec"]
  | None => []
  end ++
  match GatewayIndex sp with
  | None =>
      errIf (cp_DefaultGateway sp) (Invalid (spec_path "defaultGateway")
        "cannot be true if spec.gatewayIndex is not set") ++
      errIf (bool_decide (cp_Routes sp ≠ [])) (Invalid (spec_path "routes")
        "cannot be set if spec.gatewayIndex is not set")
  | Some _ => []
  end ++
  validateRoutes (cp_Routes sp) (snd <$> ParseCIDR (CIDR sp)) (cp_DefaultGateway sp) [Child "spec"].

(** ** Allocations of a CIDRPool *)

(** The outcome of the loop over the static allocations: [inl] is an early
    return, [inr tt] falls through. *)
Fixpoint checkStatic (a : CIDRPoolAllocation) (computedGW : string)
    (l : list CIDRPoolStaticAllocation) : ErrorList + unit :=
  match l with
  | [] => inr tt
  | staticAlloc :: l =>
      if bool_decide (ca_NodeName a = sa_NodeName staticAlloc) then
        inl
          (errIf (bool_decide (ca_Prefix a ≠ sa_Prefix staticAlloc))
             (Invalid [Child "prefix"] "doesn't match prefix from static allocation %s") ++
           errIf (bool_decide (sa_Gateway staticAlloc ≠ "" ∧ ca_Gateway a ≠ sa_Gateway staticAlloc))
             (Invalid [Child "gateway"] "doesn't match gateway from static allocation %s") ++
           (if bool_decide (sa_Gateway staticAlloc = "") then
              errIf (bool_decide (computedGW ≠ "" ∧ ca_Gateway a ≠ computedGW))
                (Invalid [Child "gateway"] "doesn't match computed gateway %s") ++
              errIf (bool_decide (computedGW = "" ∧ ca_Gateway a ≠ ""))
                (Invalid [Child "gateway"] "gateway expected to be empty")
            else []))
      else if bool_decide (ca_Prefix a = sa_Prefix staticAlloc) then
        inl [Invalid [Child "prefix"] "is statically allocated for different node: %s"]
      else checkStatic a computedGW l
  end.

Definition alloc_conflict (a e : CIDRPoolAllocation) : bool :=
  bool_decide (ca_Gateway a ≠ "" ∧ ca_Gateway a = ca_Gateway e) ||
  bool_decide (ca_Prefix a = ca_Prefix e) || bool_decide (ca_NodeName a = ca_NodeName e).

Fixpoint checkConflicts (a : CIDRPoolAllocation) (alreadyFound : bool)
    (l : list CIDRPoolAllocation) : ErrorList :=
  match l with
  | [] => []
  | e :: l =>
      if alloc_conflict a e then
        if alreadyFound then
          [Invalid [Child "status"] "conflicting allocation found in the pool: %v"]
        else checkConflicts a true l
      else checkConflicts a alreadyFound l
  end.

(** [None]: the dereference of the [nil] result of a failed [ParseCIDR] of the
    pool's own CIDR panics. *)
Definition CIDRPoolAllocation_Validate (a : CIDRPoolAllocation) (pool : CIDRPool) :
    option ErrorList :=
  let errList :=
    errIf (bool_decide (ca_NodeName a = "")) (Invalid [Child "nodeName"] "can't be empty") ++
    errIf (bool_decide (ca_Prefix a = "")) (Invalid [Child "prefix"] "can't be empty") in
  if bool_decide (errList ≠ []) then Some errList
  else
    match ParseCIDR (ca_Prefix a) with
    | None => Some [Invalid [Child "prefix"] "is not a valid network prefix"]
    | Some (netIP, prefixNetwork) =>
        if negb (IP_Equal netIP (net_IP prefixNetwork)) then
          Some [Invalid [Child "prefix"] "network prefix has host bits set"]
        else
          let computedGW :=
            match GatewayIndex (cp_Spec pool) with
            | Some i => GetGatewayForSubnet prefixNetwork i
            | None => ""
            end in
          match checkStatic a computedGW (StaticAllocations (cp_Spec pool)) with
          | inl errs => Some errs
          | inr _ =>
              match ParseCIDR (CIDR (cp_Spec pool)) with
              | None => None
              | Some (_, cidr) =>
                  let '(_, parentCIDRTotalBits) := Mask_Size (net_Mask cidr) in
                  let '(nodePrefixOnes, nodePrefixTotalBits) := Mask_Size (net_Mask prefixNetwork) in
                  if negb (Contains cidr (net_IP prefixNetwork)) then
                    Some [Invalid [Child "prefix"] "is not part of the pool cidr"]
                  else if negb (parentCIDRTotalBits =? nodePrefixTotalBits) then
                    Some [Invalid [Child "prefix"] "ip family is not match with the pool cidr"]
                  else if negb (nodePrefixOnes =? PerNodeNetworkPrefix (cp_Spec pool)) then
                    Some [Invalid [Child "prefix"] "prefix size doesn't match spec.perNodeNetworkPrefix"]
                  else if bool_decide (computedGW ≠ "" ∧ ca_Gateway a ≠ computedGW) then
                    Some [Invalid [Child "gateway"] "doesn't match computed gateway %s"]
                  else if bool_decide (computedGW = "" ∧ ca_Gateway a ≠ "") then
                    Some [Invalid [Child "gateway"] "gateway expected to be empty"]
                  else Some (checkConflicts a false (cp_Status pool))
              end
          end
    end.

(** ** Webhooks

    The receiver is validated; the object passed to the call is not read.
    [None] is acceptance. *)
Definition IPPool_validate (r : IPPool) : option ErrorList :=
  let errList := IPPool_Validate r in
  if bool_decide (length errList = O) then None else Some errList.
Definition IPPool_ValidateCreate (r obj : IPPool) : option ErrorList := IPPool_validate r.
Definition IPPool_ValidateUpdate (r oldObj newObj : IPPool) : option ErrorList := IPPool_validate r.
Definition IPPool_ValidateDelete (r obj : IPPool) : option ErrorList := None.

Definition CIDRPool_validate (r : CIDRPool) : option ErrorList :=
  let errList := CIDRPool_Validate r in
  if bool_decide (length errList = O) then None else Some errList.
Definition CIDRPool_ValidateCreate (r obj : CIDRPool) : option ErrorList := CIDRPool_validate r.
Definition CIDRPool_ValidateUpdate (r oldObj newObj : CIDRPool) : option ErrorList :=
  CIDRPool_validate r.
Definition CIDRPool_ValidateDelete (r obj : CIDRPool) : option ErrorList := None.
End validate.

(** ** When the lists of errors are empty *)

Lemma errIf_nil c e : errIf c e = [] ↔ c = false.
Proof. by destruct c. Qed.

Lemma app_nil {A} (l k : list A) : l ++ k = [] ↔ l = [] ∧ k = [].
Proof. split; [apply app_eq_nil|by intros [-> ->]]. Qed.

Lemma concat_nil {A} (l : list (list A)) : concat l = [] ↔ Forall (λ x, x = []) l.
Proof.
  induction l as [|x l IH]; simpl; [by split; [constructor|]|].
  by rewrite app_nil, IH, Forall_cons.
Qed.

Lemma errEach_nil {A} (check : nat → A → list field_error) l :
  errEach check l = [] ↔ ∀ i x, l !! i = Some x → check i x = [].
Proof.
  unfold errEach. rewrite concat_nil, Forall_lookup. setoid_rewrite list_lookup_imap_Some.
  naive_solver.
Qed.

Lemma errEach_Forall {A} (check : nat → A → list field_error) (P : A → Prop) l :
  (∀ i x, check i x = [] ↔ P x) → errEach check l = [] ↔ Forall P l.
Proof.
  intros H. rewrite errEach_nil, Forall_lookup. setoid_rewrite H. done.
Qed.

(** The subnet of a pool: a network that does not meet the IPv4-mapped block. *)
Definition subnet_denotes (s : string) (f : family) (base ones : Z) : Prop :=
  (∃ ip, ParseCIDR s = Some (ip, net_of f base ones)) ∧ net_ok f base ones.

(** The network of the text [s], where it is one, does not meet the IPv4-mapped block. *)
Definition not_mapped (s : string) : Prop :=
  ∀ ip n, ParseCIDR s = Some (ip, n) → ∃ f base ones, net_ok f base ones ∧ n = net_of f base ones.

Lemma not_mapped_denotes s : not_mapped s → is_Some (ParseCIDR s) → ∃ f base ones, subnet_denotes s f base ones.
Proof.
  intros Hm [[ip n] Hp]. destruct (Hm _ _ Hp) as (f & base & ones & Hn & ->).
  exists f, base, ones. split; [|done]. by exists ip.
Qed.

Definition in_net (f : family) (base ones : Z) (s : string) (x : Z) : Prop :=
  addr_of (ParseIP s) = Some (f, x) ∧ base ≤ x < base + net_size f ones.

(** An exclusion inside the subnet. *)
Definition er_in_net (f : family) (base ones : Z) (e : ExcludeRange) : Prop :=
  ∃ s t, er_denotes f e s t ∧ base ≤ s ∧ t < base + net_size f ones.

Lemma er_in_net_ok f base ones e : er_in_net f base ones e → er_ok f e.
Proof. intros (s & t & H & _). by exists s, t. Qed.

Section spec.
Context (f : family) (base ones : Z).
Hypothesis Hnet : net_ok f base ones.

Lemma parsed_in_net s :
  (is_nil (ParseIP s) = false ∧ Contains (net_of f base ones) (ParseIP s) = true) ↔
  ∃ x, in_net f base ones s x.
Proof using Hnet.
  unfold in_net. split.
  - intros [Hn HC].
    destruct (addr_of (ParseIP s)) as [[g x]|] eqn:E.
    + rewrite (Contains_net_of _ _ _ _ _ _ Hnet E) in HC. boolify. destruct HC as [-> ?]. by exists x.
    + apply is_nil_ParseIP in E. congruence.
  - intros (x & E & Hx). split; [by eapply ParseIP_not_nil|].
    rewrite (Contains_net_of _ _ _ _ _ _ Hnet E). by apply bool_decide_true.
Qed.

Lemma validateExclusion_nil fp i e :
  validateExclusion (net_of f base ones) fp i e = [] ↔ er_in_net f base ones e.
Proof using Hnet.
  unfold validateExclusion. rewrite !app_nil.
  assert (∀ s p1 p2, ((if is_nil (ParseIP s) then [p1] else
     errIf (negb (Contains (net_of f base ones) (ParseIP s))) p2) = []) ↔ ∃ x, in_net f base ones s x) as Hin.
  { intros. rewrite <- parsed_in_net. destruct (is_nil _); [naive_solver|].
    rewrite errIf_nil, negb_false_iff. naive_solver. }
  rewrite !Hin, errIf_nil. unfold er_in_net, er_denotes, in_net. split.
  - intros ([s [Hs ?]] & [t [Ht ?]] & Hc). exists s, t.
    rewrite (ParseIP_not_nil _ _ _ Hs), (ParseIP_not_nil _ _ _ Ht), (Cmp_ltb _ _ _ _ _ Ht Hs) in Hc.
    cbn [negb andb] in Hc. boolify. split_and!; (done || lia).
  - intros (s & t & (Hs & Ht & ?) & ? & ?). split_and!; [exists s|exists t|]; [split; (done || lia)..|].
    rewrite (Cmp_ltb _ _ _ _ _ Ht Hs), (proj2 (Z.ltb_ge _ _)) by lia. by rewrite andb_false_r.
Qed.

Lemma validateExclusions_nil l fp :
  validateExclusions (net_of f base ones) l fp = [] ↔ Forall (er_in_net f base ones) l.
Proof using Hnet. apply errEach_Forall. intros. apply validateExclusion_nil. Qed.
End spec.

Lemma validateIndexRange_nil m msg fp i e :
  validateIndexRange m msg fp i e = [] ↔ index_range_ok e ∧ EndIndex e ≤ m.
Proof.
  unfold validateIndexRange, index_range_ok. rewrite !app_nil, !errIf_nil, !Z.ltb_ge. lia.
Qed.

Lemma to_int32_id z : - 2 ^ 31 ≤ z < 2 ^ 31 → to_int32 z = z.
Proof. intros. unfold to_int32. rewrite Z.mod_small; lia. Qed.

(** The index bounds are the block and prefix sizes, up to the [int32] range of
    the indexes themselves. *)
Definition index_in (size : Z) (e : ExcludeIndexRange) : Prop :=
  index_range_ok e ∧ EndIndex e < size.

Definition int32_range (e : ExcludeIndexRange) : Prop := EndIndex e ≤ MaxInt32.

Lemma index_ranges_nil size m msg fp l :
  m = Z.min (size - 1) MaxInt32 → Forall int32_range l →
  errEach (validateIndexRange m msg fp) l = [] ↔ Forall (index_in size) l.
Proof.
  intros -> Hl. rewrite (errEach_Forall _ (λ e, index_range_ok e ∧ EndIndex e ≤ Z.min (size - 1) MaxInt32)).
  - rewrite !Forall_forall. rewrite Forall_forall in Hl. unfold index_in, int32_range in *.
    split; intros H x Hx; specialize (H x Hx); specialize (Hl x Hx); split; (apply H || lia).
  - intros. apply validateIndexRange_nil.
Qed.

Lemma validatePerNodeExclusionsForBlockSize_nil n l fp :
  1 ≤ n → Forall int32_range l →
  validatePerNodeExclusionsForBlockSize n l fp = [] ↔ Forall (index_in n) l.
Proof.
  intros Hn. apply index_ranges_nil. unfold MaxInt32.
  destruct (Z.ltb_spec 2147483647 (n - 1)); [lia|]. rewrite to_int32_id; lia.
Qed.

Lemma validatePerNodeExclusions_nil f base ones p l fp :
  net_ok f base ones → 0 ≤ p ≤ fam_bits f → Forall int32_range l →
  validatePerNodeExclusions (net_of f base ones) p l fp = [] ↔ Forall (index_in (net_size f p)) l.
Proof.
  intros Hnet Hp. apply index_ranges_nil. unfold perNodeMaxIndex.
  cbn [net_of net_Mask]. rewrite Mask_Size_mask by (destruct Hnet; lia).
  rewrite big_Exp2_nonneg by lia. fold (net_size f p).
  pose proof (net_size_pos f p ltac:(lia)). unfold MaxInt32.
  destruct (Z.ltb_spec (net_size f p - 1) 2147483647).
  - rewrite bool_decide_true by lia. cbn [andb]. rewrite to_int32_id; lia.
  - rewrite andb_false_r. lia.
Qed.

(** ** What a valid IPPool is *)

Definition route_ok (f : family) (defaultGateway : bool) (r : Route) : Prop :=
  ∃ ip n, ParseCIDR (Dst r) = Some (ip, n) ∧ is_nil (To4 (net_IP n)) = bool_decide (f = F6) ∧
    (defaultGateway = true → IPNet_String n ≠ match f with F4 => "0.0.0.0/0" | F6 => "::/0" end).

Lemma isDefaultRoute_family f n :
  is_nil (To4 (net_IP n)) = bool_decide (f = F6) →
  isDefaultRoute n = bool_decide (IPNet_String n = match f with F4 => "0.0.0.0/0" | F6 => "::/0" end).
Proof. intros E. unfold isDefaultRoute. rewrite E. by destruct f; simpl; rewrite ?orb_false_r. Qed.

Lemma validateRoutes_nil f base ones dg l fp :
  net_ok f base ones →
  validateRoutes l (Some (net_of f base ones)) dg fp = [] ↔ Forall (route_ok f dg) l.
Proof.
  intros Hnet. apply errEach_Forall. intros i r. unfold validateRoute, route_ok.
  destruct (ParseCIDR (Dst r)) as [[ip n]|]; [|split; [done|naive_solver]].
  rewrite app_nil, !errIf_nil. cbn [net_of net_IP].
  rewrite is_nil_To4_ip_of by (by eapply net_ok_base).
  split.
  - intros [H1 H2]. assert (is_nil (To4 (net_IP n)) = bool_decide (f = F6)) as E
      by (destruct (is_nil _), (bool_decide _); done).
    exists ip, n. split; [done|]. split; [done|]. intros ->. rewrite (isDefaultRoute_family f) in H2 by done.
    by apply bool_decide_eq_false in H2.
  - intros (? & ? & [= <- <-] & E & Hd). rewrite (isDefaultRoute_family f), E by done. split; [by destruct (bool_decide _)|].
    destruct dg; [|done]. by apply bool_decide_eq_false, Hd.
Qed.

Lemma validate_gateway f base ones gw :
  net_ok f base ones →
  let ip := if bool_decide (gw = "") then [] else ParseIP gw in
  (bool_decide (gw ≠ "") && is_nil ip = false ∧
   negb (is_nil ip) && negb (Contains (net_of f base ones) ip) = false) ↔
  (gw = "" ∨ ∃ x, in_net f base ones gw x).
Proof.
  intros Hnet ip. subst ip. destruct (decide (gw = "")) as [->|Hn]; [naive_solver|].
  rewrite (bool_decide_false (gw = "")), bool_decide_true, <- parsed_in_net by done.
  destruct (is_nil _), (Contains _ _); naive_solver.
Qed.

Lemma no_gateway_nil gw dg (routes : list Route) e1 e2 :
  (if bool_decide (gw = "") then errIf dg e1 ++ errIf (bool_decide (routes ≠ [])) e2 else []) = [] ↔
  (gw = "" → dg = false ∧ routes = []).
Proof.
  case_bool_decide; [|naive_solver]. rewrite app_nil, !errIf_nil, bool_decide_eq_false.
  destruct (decide (routes = [])); naive_solver.
Qed.

Section ippool.
Context `{K8sNames}.

(** The number of addresses of a network that hosts can have: not the network
    address and, for IPv4, not the broadcast address, where there are such. *)
Definition host_count (f : family) (ones : Z) : Z :=
  if bool_decide (fam_bits f - 1 ≤ ones) then net_size f ones else net_size f ones - match f with F4 => 2 | F6 => 1 end.

(** What the validation promises the controller and the node daemon. *)
Record ippool_ok (f : family) (base ones : Z) (r : IPPool) : Prop := {
  ippool_block : 1 ≤ PerNodeBlockSize (ipp_Spec r) ≤ host_count f ones;
  ippool_excl : Forall (er_in_net f base ones) (Exclusions (ipp_Spec r));
  ippool_node_excl :
    Forall (index_in (PerNodeBlockSize (ipp_Spec r))) (PerNodeExclusions (ipp_Spec r));
  ippool_gw : Gateway (ipp_Spec r) = "" ∨ ∃ x, in_net f base ones (Gateway (ipp_Spec r)) x;
  ippool_no_gw : Gateway (ipp_Spec r) = "" → DefaultGateway (ipp_Spec r) = false ∧ Routes (ipp_Spec r) = [];
  ippool_routes : Forall (route_ok f (DefaultGateway (ipp_Spec r))) (Routes (ipp_Spec r));
}.

(** A requirement on the labels of a node: [In] and [NotIn] list values, [Exists]
    and [DoesNotExist] have none, [Gt] and [Lt] compare with one. *)
Definition requirement_ok (rq : NodeSelectorRequirement) : Prop :=
  ((rq_Operator rq = "In" ∨ rq_Operator rq = "NotIn") ∧ rq_Values rq ≠ [] ∨
   (rq_Operator rq = "Exists" ∨ rq_Operator rq = "DoesNotExist") ∧ rq_Values rq = [] ∨
   (rq_Operator rq = "Gt" ∨ rq_Operator rq = "Lt") ∧ length (rq_Values rq) = 1%nat) ∧
  ValidateLabelName (rq_Key rq) = [].

(** A requirement on the fields of a node: its name is, or is not, one name. *)
Definition field_requirement_ok (rq : NodeSelectorRequirement) : Prop :=
  (rq_Operator rq = "In" ∨ rq_Operator rq = "NotIn") ∧ rq_Key rq = "metadata.name" ∧
  ∃ v, rq_Values rq = [v] ∧ NameIsDNSSubdomain v = [].

Definition term_ok (t : NodeSelectorTerm) : Prop :=
  Forall requirement_ok (MatchExpressions t) ∧ Forall field_requirement_ok (MatchFields t).

Definition selector_ok (s : option NodeSelector) : Prop :=
  match s with Some n => NodeSelectorTerms n ≠ [] ∧ Forall term_ok (NodeSelectorTerms n) | None => True end.

Lemma map_nil_iff {A B} (g : A → B) l : map g l = [] ↔ l = [].
Proof. by destruct l. Qed.

Lemma in_pair (s a b : string) : s ∈ [a; b] ↔ s = a ∨ s = b.
Proof. set_solver. Qed.

Lemma validateNodeSelectorRequirement_nil rq fp : validateNodeSelectorRequirement rq fp = [] ↔ requirement_ok rq.
Proof.
  unfold validateNodeSelectorRequirement, requirement_ok, op_in. rewrite app_nil, map_nil_iff.
  split; (intros [H1 H2]; split; [|done]).
  - destruct (bool_decide_reflect (rq_Operator rq ∈ ["In"; "NotIn"])) as [E|_];
      [rewrite errIf_nil, bool_decide_eq_false in H1; rewrite in_pair in E; by left|].
    destruct (bool_decide_reflect (rq_Operator rq ∈ ["Exists"; "DoesNotExist"])) as [E|_];
      [rewrite errIf_nil, bool_decide_eq_false in H1; rewrite in_pair in E; right; left; split; [done|]; by apply dec_stable|].
    destruct (bool_decide_reflect (rq_Operator rq ∈ ["Gt"; "Lt"])) as [E|_]; [|done].
    rewrite errIf_nil, bool_decide_eq_false in H1. rewrite in_pair in E. right; right. split; [done|]. by apply dec_stable.
  - destruct H1 as [[[->| ->] H1]|[[[->| ->] H1]|[[->| ->] H1]]]; simpl; rewrite errIf_nil; apply bool_decide_eq_false; naive_solver.
Qed.

Lemma validateNodeFieldSelectorRequirement_nil rq fp :
  validateNodeFieldSelectorRequirement rq fp = [] ↔ field_requirement_ok rq.
Proof.
  unfold validateNodeFieldSelectorRequirement, field_requirement_ok, op_in. rewrite app_nil. split.
  - intros [H1 H2]. destruct (bool_decide_reflect (rq_Operator rq ∈ ["In"; "NotIn"])) as [E|_]; [|done].
    destruct (bool_decide_reflect (rq_Key rq = "metadata.name")) as [Ek|_]; [|done].
    rewrite errIf_nil, bool_decide_eq_false in H1. rewrite in_pair in E. split; [done|]. split; [done|].
    destruct (rq_Values rq) as [|v [|w l]]; [by destruct H1|exists v|by destruct H1].
    split; [done|]. cbn in H2. by rewrite app_nil_r, map_nil_iff in H2.
  - intros (Ho & Hk & v & Hv & Hd). rewrite (bool_decide_true (rq_Key rq = _)), Hv by done.
    rewrite bool_decide_true by (rewrite in_pair; done). cbn. by rewrite Hd.
Qed.

Lemma validateNodeSelector_nil s fp :
  match s with Some nodeSelector => validateNodeSelector nodeSelector fp | None => [] end = [] ↔ selector_ok s.
Proof.
  destruct s as [n|]; [|done]. unfold validateNodeSelector, selector_ok.
  destruct (bool_decide_reflect (NodeSelectorTerms n = [])) as [E|E]; [naive_solver|].
  rewrite (errEach_Forall _ term_ok); [naive_solver|]. intros i t. unfold validateNodeSelectorTerm, term_ok. rewrite app_nil.
  rewrite (errEach_Forall _ requirement_ok) by (intros; apply validateNodeSelectorRequirement_nil).
  by rewrite (errEach_Forall _ field_requirement_ok) by (intros; apply validateNodeFieldSelectorRequirement_nil).
Qed.

Lemma IPPool_Validate_nil f base ones r :
  subnet_denotes (Subnet (ipp_Spec r)) f base ones →
  Forall int32_range (PerNodeExclusions (ipp_Spec r)) →
  IPPool_Validate r = [] ↔
  ippool_ok f base ones r ∧ ValidateNetworkName (ipp_Name r) = true ∧
  selector_ok (ipp_NodeSelector (ipp_Spec r)).
Proof.
  intros [[ip Hp] Hnet] H32. unfold IPPool_Validate. rewrite Hp. cbn [fmap option_fmap option_map snd].
  rewrite !app_nil, !errIf_nil, validateExclusions_nil, validateRoutes_nil, big_Cmp_ltb by done.
  rewrite negb_false_iff, !Z.ltb_ge, GetPossibleIPCount_net by done. fold (host_count f ones).
  assert (bool_decide (Some (net_of f base ones) = None) = false) as -> by done.
  rewrite validateNodeSelector_nil.
  rewrite no_gateway_nil.
  pose proof (validate_gateway f base ones (Gateway (ipp_Spec r)) Hnet) as Hgw. cbv zeta in Hgw.
  split.
  - intros (? & _ & Hb & [Hc ?] & Hx & Hg1 & Hg2 & ? & ? & ?).
    rewrite (proj2 (Z.leb_le _ _)) in Hc, Hx by done. cbn [andb] in Hc.
    rewrite validatePerNodeExclusionsForBlockSize_nil in Hx by done. boolify.
    split; [|done]. split; try done. by apply Hgw.
  - intros ([Hb ? ? Hg ? ?] & ? & ?). apply Hgw in Hg as [? ?].
    rewrite (proj2 (Z.leb_le _ _)) by lia. cbn [andb].
    rewrite validatePerNodeExclusionsForBlockSize_nil by (lia || done).
    split_and!; try done; apply Z.ltb_ge; lia.
Qed.

(** The validation reports a subnet that is not one. *)
Lemma IPPool_Validate_parses r : IPPool_Validate r = [] → is_Some (ParseCIDR (Subnet (ipp_Spec r))).
Proof.
  unfold IPPool_Validate. rewrite !app_nil. intros (_ & HV & _).
  destruct (ParseCIDR _) as [[ip n]|]; [by eexists|done].
Qed.
End ippool.

(** ** Counting keys *)

Definition occurrences (k : string) (l : list string) : Z := Z.of_nat (length (filter (k =.) l)).

Lemma occurrences_cons k x l :
  occurrences k (x :: l) = (if decide (k = x) then 1 else 0) + occurrences k l.
Proof. unfold occurrences. rewrite filter_cons. destruct (decide (k = x)); simpl; lia. Qed.

Lemma occurrences_0 k l : k ∉ l → occurrences k l = 0.
Proof.
  induction l as [|x l IH]; [done|]. rewrite not_elem_of_cons, occurrences_cons.
  intros [? ?]. by rewrite decide_False, IH.
Qed.

Lemma count_keys_lookup l k :
  count_keys l !! k = if bool_decide (k ∈ l) then Some (occurrences k l) else None.
Proof.
  unfold count_keys.
  assert (∀ m : gmap string Z, foldl (λ m k, <[k := default 0 (m !! k) + 1]> m) m l !! k =
    if bool_decide (k ∈ l) then Some (default 0 (m !! k) + occurrences k l) else m !! k) as H.
  2:{ rewrite H, lookup_empty. simpl. by case_bool_decide. }
  induction l as [|x l IH]; intros m; [done|]. simpl. rewrite IH, occurrences_cons.
  destruct (decide (k = x)) as [->|Hn].
  - rewrite lookup_insert_eq, (bool_decide_true (x ∈ x :: l)) by set_solver. simpl.
    case_bool_decide as Hx; f_equal; [lia|]. rewrite (occurrences_0 x l) by done. lia.
  - rewrite lookup_insert_ne by done.
    rewrite (bool_decide_ext (k ∈ x :: l) (k ∈ l)) by set_solver. case_bool_decide; [f_equal; lia|done].
Qed.

Lemma occurrences_pos k l : k ∈ l → 1 ≤ occurrences k l.
Proof.
  induction l as [|x l IH]; [by intros ?%not_elem_of_nil|]. rewrite occurrences_cons.
  intros [->|H]%elem_of_cons; [rewrite decide_True by done; unfold occurrences; lia|].
  specialize (IH H). destruct (decide _); lia.
Qed.

Lemma NoDup_occurrences l : NoDup l ↔ ∀ k, occurrences k l ≤ 1.
Proof.
  induction l as [|x l IH]; [split; [done|constructor]|]. rewrite NoDup_cons, IH. split.
  - intros [Hx Hl] k. rewrite occurrences_cons. destruct (decide (k = x)) as [->|]; [|apply Hl].
    rewrite occurrences_0 by done. lia.
  - intros H. split.
    + intros Hx%occurrences_pos. specialize (H x). rewrite occurrences_cons, decide_True in H by done. lia.
    + intros k. specialize (H k). rewrite occurrences_cons in H. destruct (decide _); lia.
Qed.

Lemma dup_errors_nil l msg : dup_errors (count_keys l) msg = [] ↔ NoDup l.
Proof.
  unfold dup_errors. rewrite concat_nil, Forall_map, Forall_forall, NoDup_occurrences.
  setoid_rewrite errIf_nil. setoid_rewrite Z.ltb_ge. split.
  - intros H k. destruct (decide (k ∈ l)) as [Hk|Hk].
    + apply (H (k, occurrences k l)), elem_of_map_to_list.
      by rewrite count_keys_lookup, bool_decide_true.
    + rewrite occurrences_0 by done. lia.
  - intros H [k v] Hkv. apply elem_of_map_to_list in Hkv. rewrite count_keys_lookup in Hkv.
    case_bool_decide; simplify_eq. apply H.
Qed.

(** ** What a valid CIDRPool is *)

(** The network of size [/p] at [b] is one of the blocks of the pool. *)
Definition block_of (f : family) (base ones p b : Z) : Prop :=
  net_ok f b p ∧ base ≤ b ∧ b + net_size f p ≤ base + net_size f ones.

Lemma block_of_disjoint f base ones p b b' x :
  p ≤ fam_bits f → block_of f base ones p b → block_of f base ones p b' → b ≠ b' →
  ¬ (b ≤ x < b + net_size f p ∧ b' ≤ x < b' + net_size f p).
Proof.
  intros Hp ((_ & _ & Hb & _) & _) ((_ & _ & Hb' & _) & _) Hne [H1 H2].
  pose proof (net_size_pos f p Hp).
  apply Z.mod_divide in Hb as [k ->]; [|lia]. apply Z.mod_divide in Hb' as [k' ->]; [|lia].
  assert (k = k') by nia. congruence.
Qed.

(** The prefix check of the source: contained address, same total bits, same
    size. *)
Lemma prefix_block f base ones p s ip n :
  net_ok f base ones → ones ≤ p ≤ fam_bits f →
  ParseCIDR s = Some (ip, n) → Contains (net_of f base ones) (net_IP n) = true →
  Mask_Size (net_Mask n) = (p, fam_bits f) →
  ∃ b, n = net_of f b p ∧ block_of f base ones p b.
Proof.
  intros Hnet Hp Hs HC HM.
  destruct (ParseCIDR_net _ _ _ Hs) as (g & x & o & Hx & Ho & _ & ->).
  cbn [net_of net_IP net_Mask] in *. rewrite Mask_Size_mask in HM by done. injection HM as -> Hbits.
  assert (g = f) as -> by (destruct f, g; simpl in *; congruence).
  pose proof (net_size_pos f p ltac:(lia)) as Hpos.
  set (b := x - x mod net_size f p) in *. exists b. split; [done|].
  pose proof (Z.mod_pos_bound x (net_size f p) Hpos).
  pose proof (Z.mod_le x (net_size f p) ltac:(lia) Hpos).
  assert (0 ≤ b < 2 ^ fam_bits f) as Hb by lia.
  assert (b mod net_size f p = 0) as Hal.
  { subst b. rewrite Zminus_mod_idemp_r, Z.sub_diag. apply Z.mod_0_l. lia. }
  assert (base ≤ b < base + net_size f ones) as Hin.
  { destruct (addr_of (ip_of f b)) as [[h y]|] eqn:E.
    - rewrite (Contains_net_of _ _ _ _ _ _ Hnet E), bool_decide_eq_true in HC. destruct HC as [-> ?].
      by apply addr_of_ip_of_same in E as ->.
    - by rewrite (Contains_invalid _ _ _ _ Hnet E) in HC. }
  assert (b + net_size f p ≤ base + net_size f ones) as Hend.
  { pose proof (sub_size f base ones p Hnet Hp) as Hsz. destruct Hnet as (? & ? & Hbase & _).
    assert (0 < sub_count ones p) by (apply Z.pow_pos_nonneg; lia).
    rewrite Hsz in Hbase, Hin |- *. apply Z.mod_divide in Hal as [k Hk]; [|lia].
    apply Z.mod_divide in Hbase as [k' Hk']; [|nia]. rewrite Hk, Hk' in *.
    assert (k < k' * sub_count ones p + sub_count ones p) by nia. nia. }
  split_and!; try done; try lia. split_and!; try done; try lia.
  intros Hf y Hy. destruct Hnet as (_ & _ & _ & Hm). apply Hm; [done|lia].
Qed.

(** A static allocation inside the pool. *)
Definition static_ok (f : family) (base ones p : Z) (a : CIDRPoolStaticAllocation) (b : Z) : Prop :=
  (∃ ip, ParseCIDR (sa_Prefix a) = Some (ip, net_of f b p)) ∧ block_of f base ones p b ∧
  (sa_Gateway a = "" ∨ ∃ x, in_net f b p (sa_Gateway a) x).

Lemma validateStaticAllocation_nil f base ones sp i a errs key :
  net_ok f base ones → ones ≤ PerNodeNetworkPrefix sp ≤ fam_bits f →
  validateStaticAllocation sp (net_of f base ones) i a = (errs, key) → errs = [] →
  ∃ b, static_ok f base ones (PerNodeNetworkPrefix sp) a b ∧
    key = Some (IPNet_String (net_of f b (PerNodeNetworkPrefix sp))).
Proof.
  intros Hnet Hp H ->. unfold validateStaticAllocation in H.
  cbn [net_of net_Mask] in H. rewrite Mask_Size_mask in H by (destruct Hnet; lia).
  destruct (ParseCIDR (sa_Prefix a)) as [[ip n]|] eqn:Es; [|done].
  destruct (negb (IP_Equal _ _)); [done|].
  fold (net_of f base ones) in H.
  destruct (Contains _ (net_IP n)) eqn:HC; [|done]. cbn [negb] in H.
  destruct (Mask_Size (net_Mask n)) as [o t] eqn:HM.
  destruct (Z.eqb_spec (fam_bits f) t) as [<-|]; [|done]. cbn [negb] in H.
  destruct (Z.eqb_spec o (PerNodeNetworkPrefix sp)) as [->|]; [|done]. cbn [negb] in H.
  destruct (prefix_block _ _ _ _ _ _ _ Hnet Hp Es HC HM) as (b & -> & Hb).
  exists b. unfold static_ok. case_bool_decide as Hg.
  - destruct (is_nil (ParseIP (sa_Gateway a))) eqn:Hn; [done|].
    destruct (Contains _ (ParseIP (sa_Gateway a))) eqn:HG; [|done]. cbn [negb] in H.
    simplify_eq. split; [|done]. split; [by eexists|]. split; [done|]. right.
    apply parsed_in_net; [apply Hb|done].
  - simplify_eq. split; [|done]. split; [by eexists|]. split; [done|]. left.
    by destruct (decide (sa_Gateway a = "")).
Qed.

Lemma validateStaticAllocations_nil f base ones r :
  net_ok f base ones → ones ≤ PerNodeNetworkPrefix (cp_Spec r) ≤ fam_bits f →
  validateStaticAllocations r (net_of f base ones) = [] →
  NoDup (filter (λ n, n ≠ "") (map sa_NodeName (StaticAllocations (cp_Spec r)))) ∧
  ∃ bs, Forall2 (static_ok f base ones (PerNodeNetworkPrefix (cp_Spec r)))
    (StaticAllocations (cp_Spec r)) bs ∧ NoDup bs.
Proof.
  intros Hnet Hp. unfold validateStaticAllocations.
  rewrite !app_nil, !dup_errors_nil, concat_nil. intros (HE & Hn & Hk). split; [done|].
  set (sp := cp_Spec r) in *. revert HE Hk.
  generalize (StaticAllocations sp) as l. clear Hn. intros l HE Hk.
  assert (∃ bs, Forall2 (static_ok f base ones (PerNodeNetworkPrefix sp)) l bs ∧
    omap snd (imap (validateStaticAllocation sp (net_of f base ones)) l) =
    map (λ b, IPNet_String (net_of f b (PerNodeNetworkPrefix sp))) bs) as (bs & Hbs & Ho).
  { clear Hk. revert HE. generalize (validateStaticAllocation_nil f base ones sp).
    generalize (validateStaticAllocation sp (net_of f base ones)) as chk.
    induction l as [|a l IH]; intros chk Hchk HE; [by exists []|].
    csimpl in HE. apply Forall_cons in HE as [Ha HE].
    destruct (IH (chk ∘ S)) as (bs & ? & E); [intros i; apply (Hchk (S i))|done|].
    destruct (chk O a) as [errs key] eqn:Ec.
    destruct (Hchk O a errs key Hnet Hp Ec Ha) as (b & Hb & ->).
    exists (b :: bs). split; [by constructor|]. csimpl. rewrite Ec. csimpl. by rewrite <- E. }
  exists bs. split; [done|]. rewrite Ho in Hk. by eapply NoDup_fmap_1.
Qed.

Section cidrpool.
Context `{K8sNames}.

Record cidrpool_ok (f : family) (base ones : Z) (r : CIDRPool) : Prop := {
  cp_prefix : ones ≤ PerNodeNetworkPrefix (cp_Spec r) ≤ fam_bits f ∧ 0 < PerNodeNetworkPrefix (cp_Spec r);
  cp_gwindex : ∀ i, GatewayIndex (cp_Spec r) = Some i → host_index f (PerNodeNetworkPrefix (cp_Spec r)) i;
  cp_excl : Forall (er_in_net f base ones) (cp_Exclusions (cp_Spec r));
  cp_node_excl : Forall (index_in (net_size f (PerNodeNetworkPrefix (cp_Spec r))))
    (cp_PerNodeExclusions (cp_Spec r));
  cp_static_nodes :
    NoDup (filter (λ n, n ≠ "") (map sa_NodeName (StaticAllocations (cp_Spec r))));
  cp_static : ∃ bs, Forall2 (static_ok f base ones (PerNodeNetworkPrefix (cp_Spec r)))
    (StaticAllocations (cp_Spec r)) bs ∧ NoDup bs;
  cp_routes_ok : Forall (route_ok f (cp_DefaultGateway (cp_Spec r))) (cp_Routes (cp_Spec r));
}.

Lemma first_prefix_block f base ones p :
  net_ok f base ones → ones ≤ p ≤ fam_bits f → block_of f base ones p base.
Proof.
  intros Hnet Hp. pose proof (sub_net_ok f base ones p Hnet Hp 0) as H0.
  pose proof (sub_size f base ones p Hnet Hp). pose proof (sub_size_pos f ones p Hp).
  assert (0 < sub_count ones p) by (apply Z.pow_pos_nonneg; lia).
  unfold sub_base in H0. rewrite Z.mul_0_r, Z.add_0_r in H0.
  split; [apply H0; lia|]. split; [lia|nia].
Qed.

Lemma CIDRPool_Validate_ok f base ones r :
  subnet_denotes (CIDR (cp_Spec r)) f base ones →
  Forall int32_range (cp_PerNodeExclusions (cp_Spec r)) →
  CIDRPool_Validate r = [] → cidrpool_ok f base ones r.
Proof.
  intros [[ip Hp] Hnet] H32. unfold CIDRPool_Validate, validateCIDR. rewrite Hp.
  cbn [fmap option_fmap option_map snd net_of net_Mask net_IP]. pose proof Hnet as (Ho & _).
  rewrite Mask_Size_mask by done. rewrite !to_int32_id by (destruct f; simpl in *; lia).
  fold (net_of f base ones). rewrite !app_nil, validateRoutes_nil by done.
  intros (_ & HV & _ & _ & Hr).
  destruct (negb (IP_Equal _ _)); [done|].
  destruct (match GatewayIndex _ with Some i => i <? 0 | None => false end); [done|].
  destruct (Z.ltb_spec (PerNodeNetworkPrefix (cp_Spec r)) 0); [done|].
  destruct (_ || _) eqn:Epn in HV; [done|]. boolify.
  assert (ones ≤ PerNodeNetworkPrefix (cp_Spec r) ≤ fam_bits f) as Hpp by lia.
  rewrite !app_nil, validateExclusions_nil, validatePerNodeExclusions_nil in HV by (done || lia).
  destruct HV as (Hg & ? & ? & HS).
  destruct (validateStaticAllocations_nil _ _ _ _ Hnet Hpp HS) as [? ?].
  split; try done; [lia|]. intros i Hi. rewrite Hi in Hg. rewrite errIf_nil in Hg.
  rewrite CIDRMask_spec in Hg by lia. fold (net_of f base (PerNodeNetworkPrefix (cp_Spec r))) in Hg.
  rewrite GetGatewayForSubnet_net in Hg by (by eapply first_prefix_block).
  destruct (decide (host_index _ _ _)); [done|]. by rewrite bool_decide_true in Hg.
Qed.
End cidrpool.

(** ** Accepted allocations *)

Lemma checkStatic_inl a gw l errs :
  checkStatic a gw l = inl errs → errs = [] →
  ∃ s, s ∈ l ∧ ca_NodeName a = sa_NodeName s ∧ ca_Prefix a = sa_Prefix s.
Proof.
  intros H ->. induction l as [|s l IH]; [done|]. simpl in H. case_bool_decide.
  - injection H as H. rewrite !app_nil, !errIf_nil in H. destruct H as [Hp _]. boolify.
    exists s. split; [apply list_elem_of_here|]. split; [done|].
    by destruct (decide (ca_Prefix a = sa_Prefix s)).
  - case_bool_decide; [done|]. destruct (IH H) as (s' & ? & ?). exists s'. split; [by right|done].
Qed.

Lemma checkStatic_inr a gw l :
  checkStatic a gw l = inr () → ∀ s, s ∈ l → ca_NodeName a ≠ sa_NodeName s ∧ ca_Prefix a ≠ sa_Prefix s.
Proof.
  induction l as [|s l IH]; simpl; [by intros _ s ?%not_elem_of_nil|].
  case_bool_decide; [done|]. case_bool_decide; [done|].
  intros Hl s' [->|Hs]%elem_of_cons; [done|]. by apply IH.
Qed.

Lemma checkConflicts_nil a found l :
  checkConflicts a found l = [] →
  ∀ i j e e', l !! i = Some e → l !! j = Some e' → alloc_conflict a e → alloc_conflict a e' →
  (if found then False else i = j).
Proof.
  revert found. induction l as [|x l IH]; intros found H i j e e' Hi Hj He He'; [done|].
  simpl in H. destruct (alloc_conflict a x) eqn:Ex.
  - destruct found; [done|]. pose proof (IH true H) as IH'.
    destruct i as [|i], j as [|j]; simpl in *; simplify_eq; try done.
    + by destruct (IH' j j e' e').
    + by destruct (IH' i i e e).
    + by destruct (IH' i j e e').
  - destruct i as [|i]; simpl in Hi; [simplify_eq; by rewrite Ex in He|].
    destruct j as [|j]; simpl in Hj; [simplify_eq; by rewrite Ex in He'|].
    specialize (IH found H i j e e' Hi Hj He He'). destruct found; [done|]. by f_equal.
Qed.

Lemma alloc_conflict_self a : alloc_conflict a a = true.
Proof. unfold alloc_conflict. rewrite (bool_decide_true (ca_Prefix a = _)) by done. by rewrite orb_true_r. Qed.

(** How an accepted allocation was accepted: it matched the static entry of its
    node, or no static entry concerns it, its prefix is a block of the pool
    with the computed gateway, and at most one status entry concerns it. *)
Lemma allocation_accepted a pool f base ones :
  subnet_denotes (CIDR (cp_Spec pool)) f base ones → cidrpool_ok f base ones pool →
  CIDRPoolAllocation_Validate a pool = Some [] →
  (∃ gw, checkStatic a gw (StaticAllocations (cp_Spec pool)) = inl []) ∨
  (∃ b, (∃ ip, ParseCIDR (ca_Prefix a) = Some (ip, net_of f b (PerNodeNetworkPrefix (cp_Spec pool)))) ∧
     block_of f base ones (PerNodeNetworkPrefix (cp_Spec pool)) b ∧
     ca_Gateway a = match GatewayIndex (cp_Spec pool) with
       | Some i => GetGatewayForSubnet (net_of f b (PerNodeNetworkPrefix (cp_Spec pool))) i
       | None => "" end ∧
     (∀ s, s ∈ StaticAllocations (cp_Spec pool) →
        ca_NodeName a ≠ sa_NodeName s ∧ ca_Prefix a ≠ sa_Prefix s) ∧
     checkConflicts a false (cp_Status pool) = []).
Proof.
  intros [[ip0 Hcidr] Hnet] Hok. unfold CIDRPoolAllocation_Validate.
  case_bool_decide as He; [intros [= H]; by rewrite H in He|]. clear He.
  destruct (ParseCIDR (ca_Prefix a)) as [[ip n]|] eqn:Ep; [|done].
  destruct (negb (IP_Equal _ _)); [done|].
  destruct (checkStatic _ _ _) as [errs|[]] eqn:Es; [intros [= ->]; left; by eexists|].
  rewrite Hcidr. cbn [net_of net_Mask net_IP]. rewrite Mask_Size_mask by (destruct Hnet; lia).
  fold (net_of f base ones).
  destruct (Mask_Size (net_Mask n)) as [o t] eqn:EM.
  destruct (Contains _ _) eqn:HC; [|done]. cbn [negb].
  destruct (Z.eqb_spec (fam_bits f) t) as [<-|]; [|done].
  destruct (Z.eqb_spec o (PerNodeNetworkPrefix (cp_Spec pool))) as [->|]; [|done]. cbn [negb].
  destruct (cp_prefix _ _ _ _ Hok) as [Hpp _].
  destruct (prefix_block _ _ _ _ _ _ _ Hnet Hpp Ep HC EM) as (b & -> & Hb).
  case_bool_decide as Hg1; [done|]. case_bool_decide as Hg2; [done|]. intros [= Hc]. right.
  exists b. split; [by eexists|]. split; [done|].
  split; [|split; [by eapply checkStatic_inr|done]].
  set (gw := match GatewayIndex _ with Some i => _ | None => "" end) in *. clearbody gw.
  destruct (decide (ca_Gateway a = gw)); [done|]. exfalso.
  destruct (decide (gw = "")) as [->|]; [by apply Hg2|by apply Hg1].
Qed.

(** Distinct static allocations have distinct prefixes. *)
Lemma static_prefix_unique f base ones pool s s' :
  cidrpool_ok f base ones pool → s ∈ StaticAllocations (cp_Spec pool) →
  s' ∈ StaticAllocations (cp_Spec pool) → sa_Prefix s = sa_Prefix s' → s = s'.
Proof.
  intros Hok [i Hi]%list_elem_of_lookup_1 [j Hj]%list_elem_of_lookup_1 E.
  destruct (cp_static _ _ _ _ Hok) as (bs & HF & Hnd). pose proof (cp_prefix _ _ _ _ Hok) as [Hp _].
  destruct (Forall2_lookup_l _ _ _ _ _ HF Hi) as (b & Hb & ([ip Hs] & Hblk & _)).
  destruct (Forall2_lookup_l _ _ _ _ _ HF Hj) as (b' & Hb' & ([ip' Hs'] & Hblk' & _)).
  rewrite E, Hs' in Hs. injection Hs as _ Hn.
  apply ip_of_inj in Hn as [_ <-]; [|by eapply net_ok_base, Hblk'|by eapply net_ok_base, Hblk].
  rewrite (NoDup_lookup _ _ _ _ Hnd Hb Hb') in Hi. congruence.
Qed.

(** Two accepted status entries with one prefix are of one node. *)
Lemma accepted_prefix_owner f base ones pool a b :
  subnet_denotes (CIDR (cp_Spec pool)) f base ones → cidrpool_ok f base ones pool →
  a ∈ cp_Status pool → b ∈ cp_Status pool →
  CIDRPoolAllocation_Validate a pool = Some [] → CIDRPoolAllocation_Validate b pool = Some [] →
  ca_Prefix a = ca_Prefix b → ca_NodeName a = ca_NodeName b.
Proof.
  intros Hs Hok Ha Hb Hva Hvb E.
  destruct (decide (ca_NodeName a = ca_NodeName b)) as [|Hn]; [done|exfalso].
  destruct (allocation_accepted _ _ _ _ _ Hs Hok Hva) as [[gw Hst]|(? & _ & _ & _ & Hns & Hc)];
  destruct (allocation_accepted _ _ _ _ _ Hs Hok Hvb) as [[gw' Hst']|(? & _ & _ & _ & Hns' & _)].
  - destruct (checkStatic_inl _ _ _ _ Hst eq_refl) as (s & Hs1 & Hs2 & Hs3).
    destruct (checkStatic_inl _ _ _ _ Hst' eq_refl) as (s' & Hs1' & Hs2' & Hs3').
    assert (s = s') by (eapply static_prefix_unique; [done..|congruence]). congruence.
  - destruct (checkStatic_inl _ _ _ _ Hst eq_refl) as (s & Hs1 & Hs2 & Hs3).
    destruct (Hns' s Hs1). congruence.
  - destruct (checkStatic_inl _ _ _ _ Hst' eq_refl) as (s & Hs1 & Hs2 & Hs3).
    destruct (Hns s Hs1). congruence.
  - apply list_elem_of_lookup_1 in Ha as [i Hi], Hb as [j Hj].
    assert (i = j) as <-.
    { apply (checkConflicts_nil a false _ Hc i j a b Hi Hj); [by rewrite alloc_conflict_self|].
      unfold alloc_conflict. rewrite (bool_decide_true (ca_Prefix a = _)) by done. by rewrite orb_true_r. }
    congruence.
Qed.

Lemma checkStatic_same_node a b gw gw' l :
  ca_NodeName a = ca_NodeName b → checkStatic a gw l = inl [] → checkStatic b gw' l = inl [] →
  ca_Prefix a = ca_Prefix b.
Proof.
  intros En. induction l as [|s l IH]; simpl; [done|]. rewrite En. case_bool_decide as Hs.
  - intros [= Ha] [= Hb]. rewrite !app_nil, !errIf_nil in Ha, Hb. destruct Ha as [Ha _], Hb as [Hb _].
    boolify. apply dec_stable in Ha, Hb. congruence.
  - case_bool_decide; [done|]. case_bool_decide; [done|]. exact IH.
Qed.

(** Two accepted status entries of one node have one prefix. *)
Lemma accepted_node_prefix f base ones pool a b :
  subnet_denotes (CIDR (cp_Spec pool)) f base ones → cidrpool_ok f base ones pool →
  a ∈ cp_Status pool → b ∈ cp_Status pool →
  CIDRPoolAllocation_Validate a pool = Some [] → CIDRPoolAllocation_Validate b pool = Some [] →
  ca_NodeName a = ca_NodeName b → ca_Prefix a = ca_Prefix b.
Proof.
  intros Hs Hok Ha Hb Hva Hvb E.
  destruct (allocation_accepted _ _ _ _ _ Hs Hok Hva) as [[gw Hst]|(? & _ & _ & _ & Hns & Hc)];
  destruct (allocation_accepted _ _ _ _ _ Hs Hok Hvb) as [[gw' Hst']|(? & _ & _ & _ & Hns' & _)].
  - by eapply checkStatic_same_node.
  - destruct (checkStatic_inl _ _ _ _ Hst eq_refl) as (s & Hs1 & Hs2 & Hs3).
    destruct (Hns' s Hs1). congruence.
  - destruct (checkStatic_inl _ _ _ _ Hst' eq_refl) as (s & Hs1 & Hs2 & Hs3).
    destruct (Hns s Hs1). congruence.
  - apply list_elem_of_lookup_1 in Ha as [i Hi], Hb as [j Hj].
    assert (i = j) as <-; [|congruence].
    apply (checkConflicts_nil a false _ Hc i j a b Hi Hj); [by rewrite alloc_conflict_self|].
    unfold alloc_conflict. rewrite (bool_decide_true (ca_NodeName a = _)) by done. by rewrite orb_true_r.
Qed.

(** The validation reports a CIDR that is not one. *)
Lemma CIDRPool_Validate_parses `{K8sNames} r : CIDRPool_Validate r = [] → is_Some (ParseCIDR (CIDR (cp_Spec r))).
Proof.
  unfold CIDRPool_Validate, validateCIDR. rewrite !app_nil. intros (_ & HV & _).
  destruct (ParseCIDR _) as [[ip n]|]; [by eexists|done].
Qed.

(** An accepted allocation is a block of the pool; a static prefix is accepted
    only for the node it is reserved for. *)
Lemma accepted_block f base ones pool a :
  subnet_denotes (CIDR (cp_Spec pool)) f base ones → cidrpool_ok f base ones pool →
  CIDRPoolAllocation_Validate a pool = Some [] →
  (∃ ip b, ParseCIDR (ca_Prefix a) = Some (ip, net_of f b (PerNodeNetworkPrefix (cp_Spec pool))) ∧
     block_of f base ones (PerNodeNetworkPrefix (cp_Spec pool)) b) ∧
  ∀ s, s ∈ StaticAllocations (cp_Spec pool) → ca_Prefix a = sa_Prefix s → sa_NodeName s = ca_NodeName a.
Proof.
  intros Hs Hok Hv.
  destruct (allocation_accepted _ _ _ _ _ Hs Hok Hv) as [[gw Hst]|(b & [ip Hp] & Hb & _ & Hns & _)].
  - destruct (checkStatic_inl _ _ _ _ Hst eq_refl) as (s & Hs1 & Hs2 & Hs3). split.
    + destruct (cp_static _ _ _ _ Hok) as (bs & HF & _).
      destruct (Forall2_elem_l _ _ _ _ HF Hs1) as (b & _ & [ip Hp] & Hb & _). exists ip, b. by rewrite Hs3.
    + intros s' Hs' E. rewrite Hs2. f_equal. by eapply static_prefix_unique; [..|congruence].
  - split; [by exists ip, b|]. intros s Hs' E. by destruct (Hns s Hs').
Qed.

Lemma accepted_total pool a f base ones :
  subnet_denotes (CIDR (cp_Spec pool)) f base ones → is_Some (CIDRPoolAllocation_Validate a pool).
Proof.
  intros [[ip Hc] _]. unfold CIDRPoolAllocation_Validate. rewrite Hc.
  repeat case_match; done || by eexists.
Qed.

(** ** Properties *)

Section properties.
Context `{K8sNames}.

(** C25: [IPPool.Validate] is exact on every pool whose subnet, if it parses, is not
    an IPv6 network of IPv4-mapped addresses: it reports no error exactly when the
    subnet is a network, the block size is between one and the number of host
    addresses, every exclusion is an ordered range inside the subnet, the per-node
    exclusions are ordered ranges inside the block, the gateway is empty or in the
    subnet, routes are networks of the subnet's family, no default route competes
    with [defaultGateway], routes and [defaultGateway] need a gateway, the name is a
    CNI network name, and a node selector has terms, whose requirements have an
    operator, a key and the number of values that belong together. *)
Theorem ippool_validation_exact r :
  not_mapped (Subnet (ipp_Spec r)) →
  Forall int32_range (PerNodeExclusions (ipp_Spec r)) →
  IPPool_Validate r = [] ↔
  (∃ f base ones, subnet_denotes (Subnet (ipp_Spec r)) f base ones ∧ ippool_ok f base ones r) ∧
  ValidateNetworkName (ipp_Name r) = true ∧
  selector_ok (ipp_NodeSelector (ipp_Spec r)).
Proof.
  intros Hm H32. split.
  - intros HV. destruct (not_mapped_denotes _ Hm (IPPool_Validate_parses _ HV)) as (f & base & ones & Hs).
    destruct (proj1 (IPPool_Validate_nil _ _ _ _ Hs H32) HV) as (Hok & ? & ?). split; [|done]. by exists f, base, ones.
  - intros ((f & base & ones & Hs & Hok) & ? & ?). by apply (IPPool_Validate_nil _ _ _ _ Hs H32).
Qed.

(** C26: The static allocations of a validated CIDRPool are disjoint networks
    of the per-node size inside the pool, each with its gateway inside it. *)
Theorem static_allocations_disjoint f base ones r :
  subnet_denotes (CIDR (cp_Spec r)) f base ones →
  Forall int32_range (cp_PerNodeExclusions (cp_Spec r)) →
  CIDRPool_Validate r = [] →
  ∃ bs, Forall2 (static_ok f base ones (PerNodeNetworkPrefix (cp_Spec r)))
          (StaticAllocations (cp_Spec r)) bs ∧
    ∀ i j b b' x, bs !! i = Some b → bs !! j = Some b' → i ≠ j →
      ¬ (b ≤ x < b + net_size f (PerNodeNetworkPrefix (cp_Spec r)) ∧
         b' ≤ x < b' + net_size f (PerNodeNetworkPrefix (cp_Spec r))).
Proof.
  intros Hs H32 HV. pose proof (CIDRPool_Validate_ok _ _ _ _ Hs H32 HV) as Hok.
  destruct (cp_static _ _ _ _ Hok) as (bs & HF & Hnd). pose proof (cp_prefix _ _ _ _ Hok) as [Hp _].
  exists bs. split; [done|]. intros i j b b' x Hi Hj Hij.
  destruct (Forall2_lookup_r _ _ _ _ _ HF Hi) as (? & _ & (_ & Hb & _)).
  destruct (Forall2_lookup_r _ _ _ _ _ HF Hj) as (? & _ & (_ & Hb' & _)).
  eapply block_of_disjoint; [|exact Hb|exact Hb'|]; [lia|]. intros ->.
  by apply Hij, (NoDup_lookup _ _ _ _ Hnd Hi Hj).
Qed.

(** In a validated CIDRPool whose status entries are all accepted by
    [CIDRPoolAllocation.Validate], no prefix is recorded for two nodes. *)
Theorem status_prefix_single_owner f base ones pool :
  subnet_denotes (CIDR (cp_Spec pool)) f base ones →
  Forall int32_range (cp_PerNodeExclusions (cp_Spec pool)) →
  CIDRPool_Validate pool = [] →
  Forall (λ a, CIDRPoolAllocation_Validate a pool = Some []) (cp_Status pool) →
  ∀ a b, a ∈ cp_Status pool → b ∈ cp_Status pool → ca_Prefix a = ca_Prefix b →
    ca_NodeName a = ca_NodeName b.
Proof.
  intros Hs H32 HV Hall a b Ha Hb E. rewrite Forall_forall in Hall.
  eapply accepted_prefix_owner; eauto. by eapply CIDRPool_Validate_ok.
Qed.

(** The webhook accepts or rejects without looking at the object it was called
    with. *)
Example webhook_ignores_object r obj obj' :
  IPPool_ValidateCreate r obj = IPPool_ValidateCreate r obj'.
Proof. reflexivity. Qed.
End properties.

(** A name check for the concrete pools of the witnesses: names are not empty. *)
Definition nonempty_names : K8sNames := {|
  ValidateNetworkName s := bool_decide (s ≠ "");
  ValidateLabelName s := if bool_decide (s = "") then ["name part must be non-empty"] else [];
  NameIsDNSSubdomain s := if bool_decide (s = "") then ["must not be empty"] else [];
|}.

Definition example_ippool : IPPool := {|
  ipp_Name := "pool1"; ipp_Namespace := "kube-system";
  ipp_Spec := {| Subnet := "192.168.0.0/24"; PerNodeBlockSize := 10;
    Exclusions := [mkExcludeRange "192.168.0.20" "192.168.0.30"];
    PerNodeExclusions := [mkExcludeIndexRange 0 1]; Gateway := "192.168.0.1";
    ipp_NodeSelector := Some (mkNodeSelector [mkTerm [mkRequirement "role" "Exists" []] []]);
    DefaultGateway := true; Routes := [mkRoute "10.0.0.0/8"] |};
  ipp_Status := []; ipp_StatusNil := true;
|}.

Definition example_cidrpool : CIDRPool := {|
  cp_Name := "pool2"; cp_Namespace := "kube-system";
  cp_Spec := {| CIDR := "fd52:2eb5:44::/48"; GatewayIndex := Some 1; PerNodeNetworkPrefix := 120;
    cp_Exclusions := []; cp_PerNodeExclusions := [mkExcludeIndexRange 0 9];
    StaticAllocations := [mkStaticAllocation "node1" "" "fd52:2eb5:44::/120";
                          mkStaticAllocation "" "fd52:2eb5:44::510" "fd52:2eb5:44::500/120"];
    cp_NodeSelector := None; cp_DefaultGateway := false; cp_Routes := [] |};
  cp_Status := [mkCIDRPoolAllocation "node1" "fd52:2eb5:44::1" "fd52:2eb5:44::/120";
                mkCIDRPoolAllocation "node2" "fd52:2eb5:44::101" "fd52:2eb5:44::100/120"];
  cp_StatusNil := false;
|}.

Lemma example_ippool_subnet : subnet_denotes "192.168.0.0/24" F4 (192 * 2 ^ 24 + 168 * 2 ^ 16) 24.
Proof. split; [eexists; vm_compute; reflexivity|apply net_okb_ok; vm_compute; reflexivity]. Qed.

Lemma example_cidrpool_subnet :
  subnet_denotes "fd52:2eb5:44::/48" F6 (0xfd522eb50044 * 2 ^ 80) 48.
Proof. split; [eexists; vm_compute; reflexivity|apply net_okb_ok; vm_compute; reflexivity]. Qed.

Definition bad_subnet_pool : IPPool :=
  mkIPPool "pool1" "kube-system" (mkIPPoolSpec "192.168.0.0" 10 [] [] "" None false []) [] true.

(** A pool that is accepted, and one that is not because its subnet is no network. *)
Lemma ippool_validation_exact_witness :
  ((∃ f base ones, subnet_denotes "192.168.0.0/24" f base ones ∧ ippool_ok f base ones example_ippool) ∧
   selector_ok (H := nonempty_names) (ipp_NodeSelector (ipp_Spec example_ippool))) ∧
  @IPPool_Validate nonempty_names bad_subnet_pool ≠ [].
Proof.
  assert (not_mapped "192.168.0.0/24") as Hm.
  { intros ip n Hp. destruct example_ippool_subnet as [[ip' Hp'] Hn]. rewrite Hp' in Hp. injection Hp as _ <-.
    eexists _, _, _. split; [exact Hn|reflexivity]. }
  split.
  - destruct (@ippool_validation_exact nonempty_names example_ippool Hm) as [H _]; [repeat constructor; by vm_compute|].
    destruct H as (H1 & _ & H2); [vm_compute; reflexivity|]. split; [exact H1|exact H2].
  - intros HV. apply (@ippool_validation_exact nonempty_names bad_subnet_pool) in HV.
    + destruct HV as ((f & base & ones & [[ip Hp] _] & _) & _). vm_compute in Hp. discriminate.
    + intros ip n Hp. vm_compute in Hp. discriminate.
    + constructor.
Defined.

Lemma static_allocations_disjoint_witness :
  ∃ bs, Forall2 (static_ok F6 (0xfd522eb50044 * 2 ^ 80) 48 120)
          (StaticAllocations (cp_Spec example_cidrpool)) bs ∧
    ∀ i j b b' x, bs !! i = Some b → bs !! j = Some b' → i ≠ j →
      ¬ (b ≤ x < b + net_size F6 120 ∧ b' ≤ x < b' + net_size F6 120).
Proof.
  apply (@static_allocations_disjoint nonempty_names F6 (0xfd522eb50044 * 2 ^ 80) 48 example_cidrpool);
    [exact example_cidrpool_subnet|repeat constructor; by vm_compute|vm_compute; reflexivity].
Defined.

Lemma status_prefix_single_owner_witness :
  length (cp_Status example_cidrpool) = 2%nat ∧
  ∀ a b, a ∈ cp_Status example_cidrpool → b ∈ cp_Status example_cidrpool →
    ca_Prefix a = ca_Prefix b → ca_NodeName a = ca_NodeName b.
Proof.
  split; [reflexivity|]. apply (@status_prefix_single_owner nonempty_names F6 (0xfd522eb50044 * 2 ^ 80) 48 example_cidrpool);
    [exact example_cidrpool_subnet|repeat constructor; by vm_compute|vm_compute; reflexivity
    |repeat constructor; vm_compute; reflexivity].
Defined.
