(* ===== verification/CtrlAllocator.v ===== *)
(** * The controller's range allocator: [pkg/ipam-controller/allocator/allocator.go]

    For every IPPool the controller keeps a [PoolAllocator] that hands each node
    a block of [PerNodeBlockSize] consecutive addresses.  It is rebuilt from the
    pool's status on every reconciliation and then extended.

    A nil dereference or an index out of range is [None].  The loop of
    [AllocateFromPool] runs with the binary fuel [alloc_fuel], more than the
    number of IPv6 addresses; [AllocateFromPool_total] shows that it is never
    used up.  [ctxErr k] is what the [k]-th call of [ctx.Err] returns. *)

From S2P Require Import Prelude GoNet Cidr GoNetText ApiTypes Exclusions Validate.

(** ** The code *)

Record AllocatedRange := mkAllocatedRange { StartIP : IP; EndIP : IP }.

Record AllocationConfig := mkAllocationConfig {
  cfg_PoolName : string;
  cfg_Subnet : option IPNet;
  cfg_Gateway : IP;
  cfg_PerNodeBlockSize : Z;
  cfg_NodeSelector : option NodeSelector;
  cfg_ExcludeRanges : list ExcludeRange;
  cfg_PerNodeExclusions : list ExcludeIndexRange;
}.

#[global] Instance AllocatedRange_eq_dec : EqDecision AllocatedRange.
Proof. solve_decision. Defined.
#[global] Instance IPNet_eq_dec : EqDecision IPNet.
Proof. solve_decision. Defined.
#[global] Instance AllocationConfig_eq_dec : EqDecision AllocationConfig.
Proof. solve_decision. Defined.

(** [reflect.DeepEqual] *)
Definition AllocationConfig_Equal (pc other : AllocationConfig) : bool := bool_decide (pc = other).

Record PoolAllocator := mkPoolAllocator {
  pa_cfg : AllocationConfig;
  pa_allocations : gmap string AllocatedRange;
  pa_startIps : gset string;
  pa_lastAllocatedStartIP : IP;
}.

Definition newPoolAllocator (cfg : AllocationConfig) : PoolAllocator :=
  mkPoolAllocator cfg ∅ ∅ [].

(** The sentinel error that [errors.Is] recognises, the error of a cancelled
    context, and the messages of [fmt.Errorf]. *)
Inductive alloc_error :=
| ErrNoFreeRanges
| ErrContext (e : error)
| ErrMsg (e : error).

Definition nextIPWithOffsetOrNil (address : IP) (offset : Z) : IP :=
  match NextIPWithOffset address (Some offset) with Err _ => [] | Ok nextIP => nextIP end.

Definition canUseNetworkAddress (cfg : AllocationConfig) : option bool :=
  subnet ← cfg_Subnet cfg;
  Some (IsPointToPointSubnet subnet || IsSingleIPSubnet subnet).

Definition getFirstStartIP (cfg : AllocationConfig) : option IP :=
  subnet ← cfg_Subnet cfg;
  b ← canUseNetworkAddress cfg;
  Some (if b : bool then net_IP subnet else NextIP (net_IP subnet)).

Definition allocationValid (cfg : AllocationConfig) (startIP endIP : IP) : option bool :=
  if is_nil startIP || is_nil endIP then Some false
  else
    subnet ← cfg_Subnet cfg;
    if negb (Contains subnet endIP) then Some false
    else b ← IsBroadcast endIP (Some subnet); Some (negb b).

Definition isEntireRangeExcluded (cfg : AllocationConfig) (allocRange : AllocatedRange) : bool :=
  let excludeRangesFromPerNodeExclusions :=
    ExcludeIndexRangeToExcludeRange (cfg_PerNodeExclusions cfg) (IP_String (StartIP allocRange)) in
  let allExcludeRanges := cfg_ExcludeRanges cfg ++ excludeRangesFromPerNodeExclusions in
  let allExcludeRanges :=
    ClampExcludeRanges allExcludeRanges (IP_String (StartIP allocRange))
      (IP_String (EndIP allocRange)) in
  single_range_covers (MergeExcludeRanges allExcludeRanges) (StartIP allocRange) (EndIP allocRange).

(** The scan of the merged ranges for one that contains both ends. *)
Definition findContaining (ranges : list ExcludeRange) (a b : IP) : option ExcludeRange :=
  List.find (λ r, ExcludeRange_Contains r a && ExcludeRange_Contains r b) ranges.

Definition getNextNonExcludedCandidates (cfg : AllocationConfig) (currentStartIP currentEndIP : IP) :
    result error (IP * IP) :=
  if is_nil currentStartIP || is_nil currentEndIP then Ok ([], [])
  else
    let nextStartIP := NextIP currentEndIP in
    let lastBlockIndex := cfg_PerNodeBlockSize cfg - 1 in
    let nextEndIP := nextIPWithOffsetOrNil nextStartIP lastBlockIndex in
    if is_nil nextStartIP || is_nil nextEndIP then Ok ([], [])
    else
      let mergedRanges := MergeExcludeRanges (cfg_ExcludeRanges cfg) in
      match findContaining mergedRanges nextStartIP nextEndIP with
      | Some excludeRange =>
          let nextFreeIP := NextIP (ParseIP (er_EndIP excludeRange)) in
          if is_nil nextFreeIP then Ok ([], [])
          else
            match Distance nextStartIP nextFreeIP with
            | Err e => Err e
            | Ok distance =>
                let blockSize := cfg_PerNodeBlockSize cfg in
                let blocksToSkip := Z.quot distance blockSize in
                let ipsToSkip := blocksToSkip * blockSize in
                match NextIPWithOffset nextStartIP (Some ipsToSkip) with
                | Err e => Err e
                | Ok nextStartIP =>
                    Ok (nextStartIP, nextIPWithOffsetOrNil nextStartIP lastBlockIndex)
                end
            end
      | None => Ok (nextStartIP, nextEndIP)
      end.

Section AllocateFromPool.
Context (ctxErr : Z → option error) (pa : PoolAllocator).

Let cfg := pa_cfg pa.
Let lastBlockIndex := cfg_PerNodeBlockSize cfg - 1.

(** One iteration of the loop on [(startIP, endIP)] and the number of calls of
    [ctx.Err] so far; it leaves the loop with a candidate, an error or a panic. *)
Definition alloc_step (s : IP * IP * Z) : (IP * IP * Z) + option (result alloc_error (IP * IP)) :=
  let '(startIP, endIP, k) := s in
  match allocationValid cfg startIP endIP with
  | None => inr None
  | Some false => inr (Some (Ok (startIP, endIP)))
  | Some true =>
      match ctxErr k with
      | Some err => inr (Some (Err (ErrContext err)))
      | None =>
          let skip := let next := NextIP endIP in
                      inl (next, nextIPWithOffsetOrNil next lastBlockIndex, k + 1) in
          if bool_decide (IP_String startIP ∈ pa_startIps pa) then skip
          else if isEntireRangeExcluded cfg (mkAllocatedRange startIP endIP) then
            match getNextNonExcludedCandidates cfg startIP endIP with
            | Err err => inr (Some (Err (ErrMsg "failed to skip excluded range: %w")))
            | Ok (startIP, endIP) => inl (startIP, endIP, k + 1)
            end
          else if (cfg_PerNodeBlockSize cfg =? 1) && negb (is_nil (cfg_Gateway cfg)) &&
                  IP_Equal startIP (cfg_Gateway cfg)
          then skip
          else inr (Some (Ok (startIP, endIP)))
      end
  end.

Definition alloc_fuel : positive := 2 ^ 130.
Arguments alloc_fuel : simpl never.

Definition AllocateFromPool (node : string) : option (PoolAllocator * result alloc_error AllocatedRange) :=
  match pa_allocations pa !! node with
  | Some existingAlloc => Some (pa, Ok existingAlloc)
  | None =>
      if cfg_PerNodeBlockSize cfg <=? 0 then Some (pa, Err (ErrMsg "per-node block size must be positive"))
      else
        let blockSize := cfg_PerNodeBlockSize cfg in
        if ExcludeIndexRangesCover (cfg_PerNodeExclusions cfg) (Some lastBlockIndex)
        then Some (pa, Err ErrNoFreeRanges)
        else
          startIP ← (if is_nil (pa_lastAllocatedStartIP pa) then getFirstStartIP cfg
                     else Some (nextIPWithOffsetOrNil (pa_lastAllocatedStartIP pa) blockSize));
          let endIP := nextIPWithOffsetOrNil startIP lastBlockIndex in
          match loop alloc_step alloc_fuel (startIP, endIP, 0) with
          | inl _ => None
          | inr None => None
          | inr (Some (Err err)) => Some (pa, Err err)
          | inr (Some (Ok (startIP, endIP))) =>
              valid ← allocationValid cfg startIP endIP;
              if negb valid then Some (pa, Err ErrNoFreeRanges)
              else
                let a := mkAllocatedRange startIP endIP in
                Some (mkPoolAllocator cfg (<[node := a]> (pa_allocations pa))
                        ({[IP_String startIP]} ∪ pa_startIps pa) startIP, Ok a)
          end
  end.
End AllocateFromPool.

(** [None] is a panic on a [nil] subnet. *)
Definition checkAllocation (cfg : AllocationConfig) (allocRange : AllocatedRange) :
    option (result error unit) :=
  if cfg_PerNodeBlockSize cfg <=? 0 then Some (Err "per-node block size must be positive")
  else
    subnet ← cfg_Subnet cfg;
    if negb (Contains subnet (StartIP allocRange)) || negb (Contains subnet (EndIP allocRange)) then
      Some (Err "invalid allocation allocators: start or end IP is out of the subnet")
    else if Cmp (EndIP allocRange) (StartIP allocRange) <? 0 then
      Some (Err "invalid allocation allocators: start IP must be less or equal to end IP")
    else
      match Distance (net_IP subnet) (StartIP allocRange) with
      | Err _ => Some (Err "failed to calculate allocation offset: %w")
      | Ok distanceFromNetworkStart =>
          let blockSize := cfg_PerNodeBlockSize cfg in
          b ← canUseNetworkAddress cfg;
          if (if b : bool then negb (distanceFromNetworkStart mod blockSize =? 0)
              else (distanceFromNetworkStart <? 1) ||
                   negb ((distanceFromNetworkStart - 1) mod blockSize =? 0))
          then Some (Err "invalid start IP offset")
          else
            match Distance (StartIP allocRange) (EndIP allocRange) with
            | Err _ => Some (Err "failed to calculate allocation size: %w")
            | Ok allocationSize =>
                if negb (big_Cmp allocationSize (blockSize - 1) =? 0) then Some (Err "ip count mismatch")
                else if (cfg_PerNodeBlockSize cfg =? 1) && negb (is_nil (cfg_Gateway cfg)) &&
                        IP_Equal (StartIP allocRange) (cfg_Gateway cfg)
                then Some (Err "gw can't be allocated when perNodeBlockSize is 1")
                else if isEntireRangeExcluded cfg allocRange then Some (Err "entire range is excluded")
                else Some (Ok tt)
            end
      end.

Definition load (pa : PoolAllocator) (nodeName : string) (allocRange : AllocatedRange) :
    option (PoolAllocator * result error unit) :=
  r ← checkAllocation (pa_cfg pa) allocRange;
  match r with
  | Err e => Some (pa, Err e)
  | Ok _ =>
      if bool_decide (IP_String (StartIP allocRange) ∈ pa_startIps pa)
      then Some (pa, Err "range overlaps")
      else Some (mkPoolAllocator (pa_cfg pa) (<[nodeName := allocRange]> (pa_allocations pa))
                   ({[IP_String (StartIP allocRange)]} ∪ pa_startIps pa)
                   (pa_lastAllocatedStartIP pa), Ok tt)
  end.

Definition ippool_config (p : IPPool) : AllocationConfig := {|
  cfg_PoolName := ipp_Name p;
  cfg_Subnet := snd <$> ParseCIDR (Subnet (ipp_Spec p));
  cfg_Gateway := ParseIP (Gateway (ipp_Spec p));
  cfg_PerNodeBlockSize := PerNodeBlockSize (ipp_Spec p);
  cfg_NodeSelector := ipp_NodeSelector (ipp_Spec p);
  cfg_ExcludeRanges := Exclusions (ipp_Spec p);
  cfg_PerNodeExclusions := PerNodeExclusions (ipp_Spec p);
|}.

(** One status entry: ignored when the node does not match, an address does not
    parse or [load] refuses it. *)
Definition loadAllocation (nodes : gset string) (pa : PoolAllocator) (alloc : Allocation) :
    option PoolAllocator :=
  if negb (bool_decide (al_NodeName alloc ∈ nodes)) then Some pa
  else
    let nodeAllocStart := ParseIP (al_StartIP alloc) in
    let nodeAllocEnd := ParseIP (al_EndIP alloc) in
    if is_nil nodeAllocStart || is_nil nodeAllocEnd then Some pa
    else fst <$> load pa (al_NodeName alloc) (mkAllocatedRange nodeAllocStart nodeAllocEnd).

Fixpoint loadAllocations (nodes : gset string) (pa : PoolAllocator) (l : list Allocation) :
    option PoolAllocator :=
  match l with
  | [] => Some pa
  | alloc :: l => pa ← loadAllocation nodes pa alloc; loadAllocations nodes pa l
  end.

Definition CreatePoolAllocatorFromIPPool (p : IPPool) (nodes : gset string) : option PoolAllocator :=
  loadAllocations nodes (newPoolAllocator (ippool_config p)) (ipp_Status p).

(** A run on a concrete pool: exclusions, a loaded allocation, a new one. *)
Example allocate_example :
  let p := ipp_set_status example_ippool [mkAllocation "node1" "192.168.0.1" "192.168.0.10"] in
  match CreatePoolAllocatorFromIPPool p {["node1"; "node2"]} with
  | Some pa => match AllocateFromPool (λ _, None) pa "node2" with
               | Some (_, Ok r) => Some (IP_String (StartIP r), IP_String (EndIP r))
               | _ => None
               end
  | None => None
  end = Some ("192.168.0.11", "192.168.0.20").
Proof. vm_compute. reflexivity. Qed.

(** ** Blocks of a subnet *)

Record cfg_ok (f : family) (base ones : Z) (cfg : AllocationConfig) : Prop := {
  cfg_subnet : cfg_Subnet cfg = Some (net_of f base ones);
  cfg_net : net_ok f base ones;
  cfg_block : 1 ≤ cfg_PerNodeBlockSize cfg;
  cfg_excl : Forall (er_in_net f base ones) (cfg_ExcludeRanges cfg);
  cfg_node_excl : Forall (index_in (cfg_PerNodeBlockSize cfg)) (cfg_PerNodeExclusions cfg);
  cfg_gw : cfg_Gateway cfg = [] ∨ ∃ g x, addr_of (cfg_Gateway cfg) = Some (g, x);
}.

(** The bytes of a number, [nil] beyond the last address of the family. *)
Definition start_ip (f : family) (x : Z) : IP := if x <? 2 ^ fam_bits f then ip_of f x else [].

Section blocks.
Context (f : family) (base ones : Z) (cfg : AllocationConfig).
Hypothesis Hcfg : cfg_ok f base ones cfg.

(** The first block starts after the network address, except in /31, /32,
    /127 and /128 networks. *)
Definition first_start : Z := if bool_decide (fam_bits f - 1 ≤ ones) then base else base + 1.
Definition bstart (i : Z) : Z := first_start + i * cfg_PerNodeBlockSize cfg.
Definition bend (i : Z) : Z := bstart i + cfg_PerNodeBlockSize cfg - 1.
Definition bend_ip (x : Z) : IP := nextIPWithOffsetOrNil (start_ip f x) (cfg_PerNodeBlockSize cfg - 1).

(** The block lies among the usable addresses of the subnet. *)
Definition usable (i : Z) : Prop := 0 ≤ i ∧ bend i ≤ last_addr f base ones.

Definition fully_excluded (x : Z) : Prop :=
  ∀ z, x ≤ z ≤ x + cfg_PerNodeBlockSize cfg - 1 →
    excluded f (cfg_ExcludeRanges cfg) z ∨ index_covered (cfg_PerNodeExclusions cfg) (z - x).

Definition gateway_block (x : Z) : Prop :=
  cfg_PerNodeBlockSize cfg = 1 ∧ addr_of (cfg_Gateway cfg) = Some (f, x).

Lemma size_pos : 0 < net_size f ones.
Proof using Hcfg. apply net_size_pos. destruct (cfg_net _ _ _ _ Hcfg). lia. Qed.

Lemma last_addr_bounds : base ≤ last_addr f base ones < base + net_size f ones.
Proof using Hcfg.
  pose proof size_pos. unfold last_addr. destruct (_ && _) eqn:E; [|lia]. boolify.
  assert (2 ^ 2 ≤ net_size f ones); [|lia]. apply Z.pow_le_mono_r; [lia|].
  replace (fam_bits f) with 32; [lia|]. by rewrite H0.
Qed.

Lemma first_start_bounds : base ≤ first_start ≤ base + net_size f ones.
Proof using Hcfg. pose proof size_pos. unfold first_start. case_bool_decide; lia. Qed.

Lemma size_range : base + net_size f ones ≤ 2 ^ fam_bits f.
Proof using Hcfg.
  destruct (cfg_net _ _ _ _ Hcfg) as (Ho & Hb & Hm & _). pose proof size_pos as Hs.
  assert (2 ^ fam_bits f = net_size f ones * 2 ^ ones) as Hp.
  { unfold net_size. rewrite <- Z.pow_add_r by lia. f_equal. lia. }
  apply Z.mod_divide in Hm as [k Hk]; [|lia]. rewrite Hp in Hb |- *. rewrite Hk in Hb |- *.
  assert (k < 2 ^ ones) by nia. nia.
Qed.

(** Every number up to the one after the subnet is an address or overflows. *)
Lemma near_addr x : base ≤ x ≤ base + net_size f ones → x < 2 ^ fam_bits f → addr_ok f x.
Proof using Hcfg.
  intros Hx Hlt. destruct (cfg_net _ _ _ _ Hcfg) as (Ho & Hb & Hm & Hmap). split; [lia|].
  intros Hf. by apply Hmap.
Qed.

Lemma start_ip_near x :
  base ≤ x ≤ base + net_size f ones →
  (x < 2 ^ fam_bits f ∧ start_ip f x = ip_of f x ∧ addr_of (start_ip f x) = Some (f, x)) ∨
  (x = 2 ^ fam_bits f ∧ start_ip f x = []).
Proof using Hcfg.
  intros Hx. pose proof size_range. unfold start_ip. destruct (Z.ltb_spec x (2 ^ fam_bits f)).
  - left. split_and!; [done..|]. by apply addr_of_ip_of, near_addr.
  - right. split; [lia|done].
Qed.

Lemma start_ip_in x :
  base ≤ x < base + net_size f ones → start_ip f x = ip_of f x ∧ addr_of (start_ip f x) = Some (f, x).
Proof using Hcfg.
  intros Hx. pose proof size_range. destruct (start_ip_near x) as [(? & ? & ?)|[? ?]]; [lia|done|lia].
Qed.

Lemma start_ip_small x : x < 2 ^ fam_bits f → start_ip f x = ip_of f x.
Proof. intros. unfold start_ip. by rewrite (proj2 (Z.ltb_lt _ _)). Qed.

Lemma NextIP_start ip x :
  addr_of ip = Some (f, x) → NextIP ip = start_ip f (x + 1).
Proof.
  intros H. rewrite (NextIP_valid _ _ _ H). unfold start_ip.
  case_bool_decide; destruct (Z.ltb_spec (x + 1) (2 ^ fam_bits f)); (done || lia).
Qed.

Lemma offset_start ip x d :
  addr_of ip = Some (f, x) → 0 ≤ d → nextIPWithOffsetOrNil ip d = start_ip f (x + d).
Proof.
  intros H Hd. unfold nextIPWithOffsetOrNil. rewrite (NextIPWithOffset_valid _ _ _ _ H Hd).
  unfold start_ip. case_bool_decide; destruct (Z.ltb_spec (x + d) (2 ^ fam_bits f)); (done || lia).
Qed.

Lemma offset_nil d : nextIPWithOffsetOrNil [] d = [].
Proof.
  unfold nextIPWithOffsetOrNil. by destruct (NextIPWithOffset_invalid [] (Some d) addr_of_nil) as [e ->].
Qed.

Lemma canUseNetworkAddress_net :
  canUseNetworkAddress cfg = Some (bool_decide (fam_bits f - 1 ≤ ones)).
Proof using Hcfg.
  unfold canUseNetworkAddress. rewrite (cfg_subnet _ _ _ _ Hcfg). simpl.
  destruct (cfg_net _ _ _ _ Hcfg) as (Ho & _).
  rewrite IsPointToPointSubnet_net, IsSingleIPSubnet_net by done. f_equal.
  apply eq_true_iff_eq. rewrite orb_true_iff, !Z.eqb_eq, bool_decide_eq_true. lia.
Qed.

Lemma getFirstStartIP_net : getFirstStartIP cfg = Some (start_ip f first_start).
Proof using Hcfg.
  unfold getFirstStartIP. rewrite canUseNetworkAddress_net, (cfg_subnet _ _ _ _ Hcfg). simpl. f_equal.
  pose proof size_pos. destruct (start_ip_in base) as [E1 E2]; [lia|].
  unfold first_start. case_bool_decide; [by rewrite E1|]. apply NextIP_start. by rewrite <- E1.
Qed.

Lemma Contains_start y :
  base ≤ y < 2 ^ fam_bits f →
  Contains (net_of f base ones) (ip_of f y) = bool_decide (y < base + net_size f ones).
Proof using Hcfg.
  intros Hy. pose proof (cfg_net _ _ _ _ Hcfg) as Hnet. pose proof (net_ok_base _ _ _ Hnet) as [? _].
  destruct (addr_of (ip_of f y)) as [[g z]|] eqn:Ez.
  - rewrite (Contains_net_of _ _ _ _ _ _ Hnet Ez). apply bool_decide_ext.
    destruct (decide (g = f)) as [->|Hg].
    + apply addr_of_ip_of_same in Ez as ->; [|lia]. split; [lia|]. intros ?. split; [done|lia].
    + split; [naive_solver|]. intros Hlt'. rewrite addr_of_ip_of in Ez by (apply near_addr; lia). congruence.
  - rewrite (Contains_invalid _ _ _ _ Hnet Ez). symmetry. apply bool_decide_false. intros ?.
    rewrite addr_of_ip_of in Ez by (apply near_addr; lia). congruence.
Qed.

Lemma allocationValid_start x :
  base ≤ x ≤ base + net_size f ones →
  allocationValid cfg (start_ip f x) (bend_ip x) =
  Some (bool_decide (x + cfg_PerNodeBlockSize cfg - 1 ≤ last_addr f base ones)).
Proof using Hcfg.
  intros Hx. pose proof last_addr_bounds. pose proof size_range. pose proof (cfg_block _ _ _ _ Hcfg).
  unfold bend_ip. destruct (start_ip_near x Hx) as [(Hlt & E & Ha)|(-> & ->)].
  2:{ rewrite bool_decide_false by lia. done. }
  rewrite (offset_start _ _ _ Ha) by lia.
  replace (x + (cfg_PerNodeBlockSize cfg - 1)) with (x + cfg_PerNodeBlockSize cfg - 1) by lia.
  set (y := x + _ - 1) in *. unfold allocationValid. rewrite E, is_nil_ip_of. cbn [orb].
  rewrite (cfg_subnet _ _ _ _ Hcfg). cbn [mbind option_bind]. unfold start_ip.
  destruct (Z.ltb_spec y (2 ^ fam_bits f)) as [Hy|Hy]; [|by rewrite bool_decide_false by lia].
  rewrite is_nil_ip_of, Contains_start by lia.
  case_bool_decide as Hin; cbn [negb]; [|by rewrite bool_decide_false by lia].
  rewrite (IsBroadcast_net _ _ _ _ f y (cfg_net _ _ _ _ Hcfg)) by (apply addr_of_ip_of, near_addr; lia).
  cbn [mbind option_bind]. f_equal.
  rewrite <- bool_decide_not. apply bool_decide_ext. unfold last_addr. fold y.
  case_bool_decide as Ef; cbn [andb]; [|split; [lia|by intros _ (? & _)]].
  destruct (Z.ltb_spec ones 31); [|split; [lia|intros _ (_ & _ & ? & _); lia]].
  split; [|intros ? (_ & _ & _ & ?); lia]. intros Hn.
  destruct (decide (y = base + net_size f ones - 1)); [by destruct Hn|lia].
Qed.
Lemma excl_er_ok : Forall (er_ok f) (cfg_ExcludeRanges cfg).
Proof using Hcfg.
  eapply Forall_impl; [apply (cfg_excl _ _ _ _ Hcfg)|]. intros r. apply er_in_net_ok.
Qed.

(** The exclusion test of a block in the subnet. *)
Lemma isEntireRangeExcluded_block r x :
  addr_of (StartIP r) = Some (f, x) →
  addr_of (EndIP r) = Some (f, x + cfg_PerNodeBlockSize cfg - 1) →
  base ≤ x → x + cfg_PerNodeBlockSize cfg - 1 < base + net_size f ones →
  isEntireRangeExcluded cfg r = true ↔ fully_excluded x.
Proof using Hcfg.
  intros Hs He Hx Hy. pose proof (cfg_block _ _ _ _ Hcfg). pose proof size_range.
  pose proof (ParseIP_String _ _ _ Hs) as Hps.
  assert (∀ z, x ≤ z < x + cfg_PerNodeBlockSize cfg → addr_ok f z) as Hblk
    by (intros; apply near_addr; lia).
  unfold isEntireRangeExcluded, fully_excluded. rewrite (single_range_covers_spec f _ _ _ _ _ Hs He).
  - setoid_rewrite excluded_app. split; intros HH z Hz; specialize (HH z Hz);
      pose proof (index_excluded_iff f (cfg_PerNodeExclusions cfg) _ x (cfg_PerNodeBlockSize cfg) (z - x)
        Hps Hblk (cfg_node_excl _ _ _ _ Hcfg)) as Hi;
      replace (x + (z - x)) with z in Hi by lia; by rewrite Hi in *.
  - lia.
  - apply er_ok_app; [apply excl_er_ok|].
    eapply index_ranges_er_ok; [done..|]. apply (cfg_node_excl _ _ _ _ Hcfg).
Qed.

Lemma bstart_bounds i :
  0 ≤ i → bend i ≤ last_addr f base ones →
  base ≤ bstart i ∧ bend i < base + net_size f ones ∧ base ≤ bstart (i + 1) ≤ base + net_size f ones ∧
  bstart (i + 1) = bend i + 1.
Proof using Hcfg.
  intros Hi He. pose proof last_addr_bounds. pose proof first_start_bounds.
  pose proof (cfg_block _ _ _ _ Hcfg). unfold bend, bstart in *. nia.
Qed.

Lemma bstart_mono i j : i ≤ j → bstart i ≤ bstart j.
Proof using Hcfg. intros. pose proof (cfg_block _ _ _ _ Hcfg). unfold bstart. nia. Qed.

(** The two ends of a usable block. *)
Lemma block_ips i :
  usable i →
  start_ip f (bstart i) = ip_of f (bstart i) ∧ bend_ip (bstart i) = ip_of f (bend i) ∧
  addr_of (ip_of f (bstart i)) = Some (f, bstart i) ∧ addr_of (ip_of f (bend i)) = Some (f, bend i).
Proof using Hcfg.
  intros [Hi He]. destruct (bstart_bounds i Hi He) as (H1 & H2 & H3 & H4).
  pose proof (cfg_block _ _ _ _ Hcfg). assert (bstart i ≤ bend i) by (unfold bend; lia).
  destruct (start_ip_in (bstart i)) as [E1 A1]; [lia|]. destruct (start_ip_in (bend i)) as [E2 A2]; [lia|].
  unfold bend_ip. rewrite (offset_start _ _ _ A1) by lia.
  replace (bstart i + (cfg_PerNodeBlockSize cfg - 1)) with (bend i) by (unfold bend; lia).
  rewrite E1, E2 in *. done.
Qed.

(** A merged exclusion that contains both ends of the candidate at [x]. *)
Lemma findContaining_spec x r :
  base ≤ x ≤ base + net_size f ones → is_nil (start_ip f x) = false → is_nil (bend_ip x) = false →
  findContaining (MergeExcludeRanges (cfg_ExcludeRanges cfg)) (start_ip f x) (bend_ip x) = Some r →
  ∃ rs re, er_denotes f r rs re ∧ rs ≤ x ∧ x + cfg_PerNodeBlockSize cfg - 1 ≤ re ∧
    re < base + net_size f ones ∧ ∀ z, rs ≤ z ≤ re → excluded f (cfg_ExcludeRanges cfg) z.
Proof using Hcfg.
  intros Hx Hs He Hf. apply List.find_some in Hf as [Hr Hc]. boolify.
  apply list_elem_of_In in Hr. pose proof excl_er_ok as Hok.
  pose proof (MergeExcludeRanges_er_ok f _ Hok) as Hmok. rewrite Forall_forall in Hmok.
  destruct (Hmok r Hr) as (rs & re & Hd). exists rs, re. pose proof (cfg_block _ _ _ _ Hcfg).
  destruct (start_ip_near x Hx) as [(Hlt & E & Ha)|(_ & E)]; [|by rewrite E in Hs].
  rewrite (ExcludeRange_Contains_spec _ _ _ _ _ _ _ Hd Ha) in H. boolify. destruct H as [_ H].
  unfold bend_ip in *. rewrite (offset_start _ _ _ Ha) in * by lia.
  set (y := x + (cfg_PerNodeBlockSize cfg - 1)) in *. unfold start_ip in H0, He.
  destruct (Z.ltb_spec y (2 ^ fam_bits f)) as [Hy|]; [|done].
  assert (∀ z, rs ≤ z ≤ re → excluded f (cfg_ExcludeRanges cfg) z) as Hex.
  { intros z Hz. apply (MergeExcludeRanges_excluded f _ z Hok). by exists r, rs, re. }
  assert (y ≤ re) as Hye.
  { pose proof (net_ok_base _ _ _ (cfg_net _ _ _ _ Hcfg)) as [? _].
    destruct (addr_of (ip_of f y)) as [[g z]|] eqn:Ez.
    - rewrite (ExcludeRange_Contains_spec _ _ _ _ _ _ _ Hd Ez) in H0. boolify. destruct H0 as [-> ?].
      apply addr_of_ip_of_same in Ez as ->; lia.
    - by rewrite (ExcludeRange_Contains_invalid _ _ Ez) in H0. }
  split_and!; try done; try lia. destruct (Hex re) as (r0 & s0 & e0 & Hr0 & Hd0 & ?); [lia|].
  pose proof (cfg_excl _ _ _ _ Hcfg) as HF. rewrite Forall_forall in HF.
  destruct (HF r0 Hr0) as (s1 & e1 & Hd1 & ? & ?).
  destruct (er_denotes_inj _ _ _ _ _ _ Hd0 Hd1) as [-> ->]. lia.
Qed.
(** The candidates after block [i]: those of a later block, with only excluded
    blocks in between, or none because no usable block is left. *)
Definition next_ok (i : Z) (c : IP * IP) : Prop :=
  (∃ k, 0 ≤ k ∧ c = (start_ip f (bstart (i + 1 + k)), bend_ip (bstart (i + 1 + k))) ∧
     base ≤ bstart (i + 1 + k) ≤ base + net_size f ones ∧
     ∀ j, i + 1 ≤ j < i + 1 + k → fully_excluded (bstart j)) ∨
  (c = ([], []) ∧ ∀ j, i + 1 ≤ j → usable j → fully_excluded (bstart j)).

Lemma skip_excluded i r rs re :
  usable i → er_denotes f r rs re → rs ≤ bstart (i + 1) → bend (i + 1) ≤ re →
  re < base + net_size f ones → (∀ z, rs ≤ z ≤ re → excluded f (cfg_ExcludeRanges cfg) z) →
  is_nil (start_ip f (bstart (i + 1))) = false →
  ∃ c, (if is_nil (NextIP (ParseIP (er_EndIP r))) then Ok ([], [])
        else match Distance (start_ip f (bstart (i + 1))) (NextIP (ParseIP (er_EndIP r))) with
             | Err e => Err e
             | Ok distance =>
                 match NextIPWithOffset (start_ip f (bstart (i + 1)))
                   (Some (Z.quot distance (cfg_PerNodeBlockSize cfg) * cfg_PerNodeBlockSize cfg)) with
                 | Err e => Err e
                 | Ok n => Ok (n, nextIPWithOffsetOrNil n (cfg_PerNodeBlockSize cfg - 1))
                 end
             end) = Ok c ∧ next_ok i c.
Proof using Hcfg.
  intros [Hi Hu] (_ & Hre & _) Hrs Hend Hlt Hex Hs.
  destruct (bstart_bounds i Hi Hu) as (H1 & H2 & H3 & H4).
  pose proof last_addr_bounds as Hla. pose proof size_range. pose proof (cfg_block _ _ _ _ Hcfg) as Hbs.
  rewrite (NextIP_start _ _ Hre). unfold bend in Hend.
  destruct (start_ip_near (re + 1)) as [(Hlt' & E & Ha)|(Emax & ->)]; [lia| |].
  - destruct (start_ip_near (bstart (i + 1)) H3) as [(_ & E' & Ha')|(_ & E')]; [|by rewrite E' in Hs].
    assert (is_nil (start_ip f (re + 1)) = false) as -> by (rewrite E; apply is_nil_ip_of).
    rewrite (Distance_same _ _ _ _ _ Ha' Ha), (proj2 (Z.leb_le _ _)) by lia.
    rewrite Z.quot_div_nonneg by lia.
    set (d := re + 1 - bstart (i + 1)) in *. set (b := cfg_PerNodeBlockSize cfg) in *.
    pose proof (Z.mul_div_le d b ltac:(lia)). pose proof (Z.div_le_lower_bound d b 1 ltac:(lia) ltac:(lia)).
    assert (bstart (i + 1 + d / b) = bstart (i + 1) + d / b * b) as Ek by (unfold bstart; fold b; lia).
    rewrite (NextIPWithOffset_valid _ _ _ _ Ha') by nia. rewrite <- Ek.
    rewrite bool_decide_true by lia. eexists. split; [done|]. left. exists (d / b).
    assert (start_ip f (bstart (i + 1 + d / b)) = ip_of f (bstart (i + 1 + d / b))) as ->.
    { apply start_ip_small. lia. }
    split; [lia|]. split; [|split; [lia|]].
    + unfold bend_ip. fold b. by rewrite start_ip_small by lia.
    + intros j Hj z Hz. left. apply Hex. fold b in Hz.
      assert (bstart (i + 1) ≤ bstart j) by (apply bstart_mono; lia).
      assert (bstart j + b ≤ bstart (i + 1 + d / b)) by (unfold bstart; fold b; nia). lia.
  - eexists. split; [done|]. right. split; [done|]. intros j Hj [_ Huj] z Hz. left. apply Hex.
    assert (bstart (i + 1) ≤ bstart j) by (apply bstart_mono; lia). unfold bend in Huj. lia.
Qed.

Lemma getNextNonExcludedCandidates_spec i :
  usable i →
  ∃ c, getNextNonExcludedCandidates cfg (ip_of f (bstart i)) (ip_of f (bend i)) = Ok c ∧ next_ok i c.
Proof using Hcfg.
  intros Hu. pose proof Hu as [Hi He]. destruct (bstart_bounds i Hi He) as (H1 & H2 & H3 & H4).
  destruct (block_ips i Hu) as (_ & _ & _ & Ae). pose proof last_addr_bounds. pose proof size_range.
  unfold getNextNonExcludedCandidates. rewrite !is_nil_ip_of, (NextIP_start _ _ Ae), <- H4. cbn [orb].
  fold (bend_ip (bstart (i + 1))).
  assert (bend_ip (bstart (i + 1)) = [] ∨ start_ip f (bstart (i + 1)) = [] → ∀ j, i + 1 ≤ j → ¬ usable j) as Hno.
  { intros Hnil j Hj [_ Hu']. pose proof (allocationValid_start (bstart (i + 1)) H3) as HV.
    unfold allocationValid in HV.
    rewrite bool_decide_true in HV by (pose proof (bstart_mono _ _ Hj); unfold bend in Hu'; lia).
    destruct Hnil as [Hnil|Hnil]; rewrite Hnil in HV; [by rewrite orb_true_r in HV|done]. }
  destruct (is_nil (start_ip f (bstart (i + 1)))) eqn:Es; cbn [orb].
  { eexists. split; [done|]. right. split; [done|]. intros j Hj Hu'. exfalso.
    apply (Hno (or_intror (bool_decide_eq_true_1 _ Es)) j Hj Hu'). }
  destruct (is_nil (bend_ip (bstart (i + 1)))) eqn:Ee.
  { eexists. split; [done|]. right. split; [done|]. intros j Hj Hu'. exfalso.
    apply (Hno (or_introl (bool_decide_eq_true_1 _ Ee)) j Hj Hu'). }
  destruct (findContaining _ _ _) as [r|] eqn:Ef.
  - destruct (findContaining_spec _ _ H3 Es Ee Ef) as (rs & re & Hd & ? & ? & ? & Hex).
    by apply (skip_excluded i r rs re).
  - eexists. split; [done|]. left. exists 0. rewrite Z.add_0_r. split_and!; try done; lia.
Qed.
#[export] Instance gateway_block_dec x : Decision (gateway_block x).
Proof. unfold gateway_block. apply _. Defined.

Lemma fully_excluded_dec i : usable i → fully_excluded (bstart i) ∨ ¬ fully_excluded (bstart i).
Proof using Hcfg.
  intros Hu. destruct (block_ips i Hu) as (_ & _ & As & Ae). destruct Hu as [Hi He].
  destruct (bstart_bounds i Hi He) as (? & ? & _).
  rewrite <- (isEntireRangeExcluded_block (mkAllocatedRange (ip_of f (bstart i)) (ip_of f (bend i))))
    by (done || unfold bend in *; lia).
  destruct (isEntireRangeExcluded _ _); auto.
Qed.

Lemma gateway_check ip x :
  addr_of ip = Some (f, x) →
  ((cfg_PerNodeBlockSize cfg =? 1) && negb (is_nil (cfg_Gateway cfg)) &&
   IP_Equal ip (cfg_Gateway cfg)) = true ↔ gateway_block x.
Proof using Hcfg.
  intros Hx. unfold gateway_block. rewrite !andb_true_iff, Z.eqb_eq, negb_true_iff.
  destruct (cfg_gw _ _ _ _ Hcfg) as [->|(g & y & Hg)]; [rewrite addr_of_nil; naive_solver|].
  rewrite (IP_Equal_addr _ _ _ _ _ _ Hx Hg), bool_decide_eq_true, Hg.
  assert (is_nil (cfg_Gateway cfg) = false) as ->; [|naive_solver].
  apply bool_decide_false. by eapply addr_of_not_nil.
Qed.

(** *** The loop of [AllocateFromPool] *)

Section search.
Context (ctxErr : Z → option error) (pa : PoolAllocator).
Hypothesis Hpa : pa_cfg pa = cfg.

(** A block that may be handed out. *)
Definition free_block (i : Z) : Prop :=
  usable i ∧ (IP_String (ip_of f (bstart i)) ∉ pa_startIps pa) ∧
  ¬ fully_excluded (bstart i) ∧ ¬ gateway_block (bstart i).

Definition search_inv (i0 : Z) (s : IP * IP * Z) : Prop :=
  (∃ i, i0 ≤ i ∧ s.1 = (start_ip f (bstart i), bend_ip (bstart i)) ∧
     base ≤ bstart i ≤ base + net_size f ones ∧ ∀ j, i0 ≤ j < i → ¬ free_block j) ∨
  (s.1 = ([], []) ∧ ∀ j, i0 ≤ j → ¬ free_block j).

Definition search_done (i0 : Z) (r : option (result alloc_error (IP * IP))) : Prop :=
  match r with
  | None => False
  | Some (Err e) => ∃ k c, e = ErrContext c ∧ ctxErr k = Some c
  | Some (Ok c) =>
      (∃ i, i0 ≤ i ∧ free_block i ∧ c = (ip_of f (bstart i), ip_of f (bend i)) ∧
         ∀ j, i0 ≤ j < i → ¬ free_block j) ∨
      (allocationValid cfg c.1 c.2 = Some false ∧ ∀ j, i0 ≤ j → ¬ free_block j)
  end.

(** Addresses left behind the candidate. *)
Definition search_measure (s : IP * IP * Z) : Z :=
  match addr_of s.1.1 with Some (_, x) => base + net_size f ones - x | None => 0 end.

(** What a step does on the candidate of a usable block. *)
Lemma alloc_step_usable i k :
  usable i →
  match alloc_step ctxErr pa (ip_of f (bstart i), ip_of f (bend i), k) with
  | inr r => r = Some (Ok (ip_of f (bstart i), ip_of f (bend i))) ∧ free_block i ∨
             ∃ e, r = Some (Err (ErrContext e)) ∧ ctxErr k = Some e
  | inl (s, e, _) => ¬ free_block i ∧ next_ok i (s, e)
  end.
Proof using Hcfg Hpa.
  intros Hu. pose proof Hu as [Hi He]. destruct (bstart_bounds i Hi He) as (H1 & H2 & H3 & H4).
  destruct (block_ips i Hu) as (Es & Ee & As & Ae). pose proof (cfg_block _ _ _ _ Hcfg) as Hbs.
  pose proof (allocationValid_start (bstart i) ltac:(unfold bend in H2; lia)) as HV.
  rewrite Es, Ee, bool_decide_true in HV by (unfold bend in He; lia).
  cbn [alloc_step]. rewrite Hpa, HV. destruct (ctxErr k) as [err|]; [right; by eexists|].
  assert (next_ok i (NextIP (ip_of f (bend i)),
    nextIPWithOffsetOrNil (NextIP (ip_of f (bend i))) (cfg_PerNodeBlockSize cfg - 1))) as Hnext.
  { left. exists 0. rewrite Z.add_0_r, (NextIP_start _ _ Ae), <- H4. split_and!; (done || lia). }
  case_bool_decide as Ht; [by split; [intros (_ & ? & _)|]|].
  destruct (isEntireRangeExcluded _ _) eqn:Ex.
  { apply (isEntireRangeExcluded_block _ (bstart i)) in Ex; [|done|done|lia|unfold bend in H2; lia].
    destruct (getNextNonExcludedCandidates_spec i Hu) as ([s e] & -> & Hc).
    split; [intros (_ & _ & Hx & _); by apply Hx|done]. }
  assert (¬ fully_excluded (bstart i)) as Hne.
  { intros HX. apply (isEntireRangeExcluded_block (mkAllocatedRange (ip_of f (bstart i)) (ip_of f (bend i))))
      in HX; [congruence|done|done|lia|unfold bend in H2; lia]. }
  destruct (_ && _) eqn:Eg.
  { apply (gateway_check _ _ As) in Eg. split; [intros (_ & _ & _ & Hx); by apply Hx|done]. }
  left. split; [done|]. split_and!; try done. intros Hg. apply (gateway_check _ _ As) in Hg. congruence.
Qed.

Lemma next_ok_inv i0 i c k :
  i0 ≤ i → next_ok i c → ¬ free_block i → (∀ j, i0 ≤ j < i → ¬ free_block j) →
  search_inv i0 (c, k).
Proof using Hcfg.
  intros Hi Hn Hf Hno. destruct Hn as [(n & ? & -> & ? & Hx)|(-> & Hx)].
  - left. exists (i + 1 + n). split_and!; try done; try lia. intros j Hj Hfj.
    destruct (decide (j < i)); [apply (Hno j); [lia|done]|]. destruct (decide (j = i)) as [->|]; [done|].
    destruct Hfj as (_ & _ & Hne & _). apply Hne, Hx. lia.
  - right. split; [done|]. intros j Hj Hfj. destruct (decide (j < i)); [apply (Hno j); [lia|done]|].
    destruct (decide (j = i)) as [->|]; [done|].
    destruct Hfj as (Hu & _ & Hne & _). apply Hne, Hx; [lia|done].
Qed.

Lemma search_measure_start x k e :
  base ≤ x ≤ base + net_size f ones → search_measure (start_ip f x, e, k) = base + net_size f ones - x.
Proof using Hcfg.
  intros Hx. unfold search_measure. pose proof size_range.
  destruct (start_ip_near x Hx) as [(_ & _ & E)|(-> & E)]; cbn [fst]; rewrite E; [done|].
  rewrite addr_of_nil. lia.
Qed.

Lemma alloc_step_spec i0 s :
  0 ≤ i0 → search_inv i0 s →
  match alloc_step ctxErr pa s with
  | inl s' => search_inv i0 s' ∧ 0 ≤ search_measure s' < search_measure s
  | inr r => search_done i0 r
  end.
Proof using Hcfg Hpa.
  destruct s as [[s e] k]. intros Hi0 [(i & Hi & Ec & Hx & Hno)|[Ec Hno]]; cbn [fst] in Ec; simplify_eq.
  2:{ cbn. right. by split. }
  destruct (decide (bend i ≤ last_addr f base ones)) as [He|He].
  - assert (usable i) as Hu by (split; [lia|done]). destruct (block_ips i Hu) as (-> & -> & As & _).
    pose proof (alloc_step_usable i k Hu) as H.
    destruct (alloc_step _ _ _) as [[[s' e'] k']|r].
    + destruct H as [Hf Hn]. split; [by eapply next_ok_inv|].
      assert (search_measure (ip_of f (bstart i), ip_of f (bend i), k) = base + net_size f ones - bstart i) as ->
        by (unfold search_measure; cbn [fst]; by rewrite As).
      destruct (bstart_bounds i ltac:(lia) He) as (H1 & H2 & H3 & H4).
      pose proof (cfg_block _ _ _ _ Hcfg).
      destruct Hn as [(n & ? & [= -> ->] & ? & _)|([= -> ->] & _)].
      * rewrite search_measure_start by done. pose proof (bstart_mono (i + 1) (i + 1 + n) ltac:(lia)).
        unfold bend in H4. lia.
      * unfold search_measure. cbn [fst]. rewrite addr_of_nil. unfold bend in H2. lia.
    + destruct H as [[-> Hf]|(e & -> & Hk)]; [|by exists k, e]. left. by exists i.
  - pose proof (allocationValid_start (bstart i) Hx) as HV.
    rewrite bool_decide_false in HV by (unfold bend in He; lia).
    cbn [alloc_step]. rewrite Hpa, HV. right. split; [done|]. intros j Hj Hf.
    destruct (decide (j < i)); [apply (Hno j); [lia|done]|]. destruct Hf as [[_ Hu] _].
    pose proof (bstart_mono i j ltac:(lia)). unfold bend in *. lia.
Qed.

(** The loop terminates within its fuel, in a state that meets [search_done]. *)
Lemma search_total i0 s e :
  0 ≤ i0 → search_inv i0 (s, e, 0) →
  ∃ r, loop (alloc_step ctxErr pa) alloc_fuel (s, e, 0) = inr r ∧ search_done i0 r.
Proof using Hcfg Hpa.
  intros Hi0 HI.
  destruct (loop_total (alloc_step ctxErr pa) (search_inv i0) search_measure) with
    (p := alloc_fuel) (s := (s, e, 0)) as [r Hr]; [|done| |].
  - intros x x' Hx Ex. pose proof (alloc_step_spec i0 x Hi0 Hx) as H. by rewrite Ex in H.
  - unfold search_measure. cbn [fst].
    assert (2 ^ fam_bits f ≤ 2 ^ 128) by (apply Z.pow_le_mono_r; [lia|apply fam_bits_le]).
    assert (Z.pos alloc_fuel = 2 ^ 130) as -> by (vm_compute; reflexivity).
    pose proof size_range. destruct (addr_of s) as [[g x]|] eqn:Ea; [|lia].
    pose proof (addr_ok_range _ _ (addr_of_ok _ _ _ Ea)). lia.
  - exists r. split; [done|]. apply loop_exits in Hr.
    eapply (exits_inv _ (search_inv i0)); [| |exact HI|exact Hr].
    + intros x x' Hx Ex. pose proof (alloc_step_spec i0 x Hi0 Hx) as H. rewrite Ex in H. by destruct H.
    + intros x r' Hx Ex. pose proof (alloc_step_spec i0 x Hi0 Hx) as H. by rewrite Ex in H.
Qed.
End search.

(** ** The state of the allocator *)

(** The range is block [i] of the subnet. *)
Definition range_block (r : AllocatedRange) (i : Z) : Prop :=
  addr_of (StartIP r) = Some (f, bstart i) ∧ addr_of (EndIP r) = Some (f, bend i) ∧
  0 ≤ i ∧ bend i < base + net_size f ones.

Record pa_inv (pa : PoolAllocator) : Prop := {
  inv_cfg : pa_cfg pa = cfg;
  inv_block : ∀ node r, pa_allocations pa !! node = Some r →
    ∃ i, range_block r i ∧ ¬ fully_excluded (bstart i) ∧ ¬ gateway_block (bstart i) ∧
      IP_String (StartIP r) ∈ pa_startIps pa;
  inv_distinct : ∀ n n' r r', pa_allocations pa !! n = Some r → pa_allocations pa !! n' = Some r' →
    IP_String (StartIP r) = IP_String (StartIP r') → n = n';
  inv_cursor : pa_lastAllocatedStartIP pa = [] ∨
    ∃ c, addr_of (pa_lastAllocatedStartIP pa) = Some (f, bstart c) ∧ usable c ∧
      ∀ j, 0 ≤ j ≤ c → ¬ free_block pa j;
}.

Lemma newPoolAllocator_inv : pa_inv (newPoolAllocator cfg).
Proof. split; simpl; [done|intros ??; by rewrite lookup_empty|intros ????; by rewrite lookup_empty|by left]. Qed.

(** Recording a new range whose start is not taken. *)
Definition record_range (pa : PoolAllocator) (node : string) (r : AllocatedRange) (last : IP) :=
  mkPoolAllocator (pa_cfg pa) (<[node := r]> (pa_allocations pa))
    ({[IP_String (StartIP r)]} ∪ pa_startIps pa) last.

Lemma record_range_eq pa node r last :
  pa_inv pa →
  mkPoolAllocator cfg (<[node:=r]> (pa_allocations pa)) ({[IP_String (StartIP r)]} ∪ pa_startIps pa) last =
  record_range pa node r last.
Proof. intros Hinv. unfold record_range. by rewrite (inv_cfg _ Hinv). Qed.

Lemma free_block_mono pa node r last j : free_block (record_range pa node r last) j → free_block pa j.
Proof. unfold free_block. simpl. set_solver. Qed.

Lemma record_range_inv pa node r i last :
  pa_inv pa → range_block r i → ¬ fully_excluded (bstart i) → ¬ gateway_block (bstart i) →
  IP_String (StartIP r) ∉ pa_startIps pa →
  (last = pa_lastAllocatedStartIP pa ∨
   ∃ c, addr_of last = Some (f, bstart c) ∧ usable c ∧ ∀ j, 0 ≤ j ≤ c → ¬ free_block (record_range pa node r last) j) →
  pa_inv (record_range pa node r last).
Proof.
  intros [Hc Hb Hd Hcur] Hr Hx Hg Hnew Hlast. split; simpl; [done| | |].
  - intros n r' [[<- <-]|[? Hn]]%lookup_insert_Some; [exists i; set_solver|].
    destruct (Hb n r' Hn) as (i' & ?). exists i'. set_solver.
  - assert (∀ n r', pa_allocations pa !! n = Some r' → IP_String (StartIP r) ≠ IP_String (StartIP r')) as Hne.
    { intros n r' Hn E. destruct (Hb n r' Hn) as (_ & _ & _ & _ & Hin). by rewrite <- E in Hin. }
    intros n n' r1 r2 [[<- <-]|[? Hn]]%lookup_insert_Some [[<- <-]|[? Hn']]%lookup_insert_Some E; [done|..].
    + by destruct (Hne n' r2 Hn').
    + by destruct (Hne n r1 Hn).
    + by eapply Hd.
  - destruct Hlast as [->|Hl]; [|by right]. destruct Hcur as [|(c & ? & ? & Hf)]; [by left|right].
    exists c. split_and!; [done..|]. intros j Hj Hfj. apply free_block_mono in Hfj. by apply (Hf j).
Qed.

(** The specification of [AllocateFromPool]. *)
Definition allocate_spec (ctxErr : Z → option error) (pa : PoolAllocator) (node : string)
    (pa' : PoolAllocator) (r : result alloc_error AllocatedRange) : Prop :=
  match pa_allocations pa !! node with
  | Some a => pa' = pa ∧ r = Ok a
  | None =>
      match r with
      | Ok a => ∃ i, free_block pa i ∧ (∀ j, 0 ≤ j < i → ¬ free_block pa j) ∧
          a = mkAllocatedRange (ip_of f (bstart i)) (ip_of f (bend i)) ∧
          pa' = record_range pa node a (StartIP a)
      | Err ErrNoFreeRanges => pa' = pa ∧ ∀ j, 0 ≤ j → ¬ free_block pa j
      | Err (ErrContext e) => pa' = pa ∧ ∃ k, ctxErr k = Some e
      | Err (ErrMsg _) => False
      end
  end.

(** Where the search starts, and that nothing free lies before. *)
Lemma search_start pa :
  pa_inv pa →
  ∃ i0 s, 0 ≤ i0 ∧ (∀ j, 0 ≤ j < i0 → ¬ free_block pa j) ∧
    (if is_nil (pa_lastAllocatedStartIP pa) then getFirstStartIP cfg
     else Some (nextIPWithOffsetOrNil (pa_lastAllocatedStartIP pa) (cfg_PerNodeBlockSize cfg))) = Some s ∧
    search_inv pa i0 (s, nextIPWithOffsetOrNil s (cfg_PerNodeBlockSize cfg - 1), 0).
Proof using Hcfg.
  intros Hinv. pose proof (cfg_block _ _ _ _ Hcfg).
  assert (∀ i, 0 ≤ i → base ≤ bstart i ≤ base + net_size f ones →
    search_inv pa i (start_ip f (bstart i), bend_ip (bstart i), 0)) as Hin.
  { intros i Hi Hb. left. exists i. split_and!; try done; try lia. }
  destruct (inv_cursor _ Hinv) as [->|(c & Ha & Hu & Hf)].
  - exists 0, (start_ip f first_start). pose proof first_start_bounds.
    assert (bstart 0 = first_start) as E by (unfold bstart; lia).
    split_and!; [done|lia|apply getFirstStartIP_net|]. rewrite <- E in *. by apply Hin.
  - destruct Hu as [Hc He]. destruct (bstart_bounds c Hc He) as (? & ? & ? & Hn).
    exists (c + 1), (start_ip f (bstart (c + 1))). split_and!; [lia|intros; apply Hf; lia| |apply Hin; lia].
    unfold is_nil. rewrite bool_decide_false by (by eapply addr_of_not_nil).
    rewrite (offset_start _ _ _ Ha) by lia. do 2 f_equal. unfold bstart. lia.
Qed.

Lemma AllocateFromPool_spec ctxErr pa node :
  pa_inv pa → ∃ pa' r, AllocateFromPool ctxErr pa node = Some (pa', r) ∧ allocate_spec ctxErr pa node pa' r.
Proof using Hcfg.
  intros Hinv. pose proof (inv_cfg _ Hinv) as Hpa. pose proof (cfg_block _ _ _ _ Hcfg).
  unfold AllocateFromPool, allocate_spec. rewrite Hpa.
  destruct (pa_allocations pa !! node) as [a|]; [by eexists _, _|].
  rewrite (proj2 (Z.leb_gt _ _)) by lia.
  destruct (ExcludeIndexRangesCover _ _) eqn:Ec.
  { apply ExcludeIndexRangesCover_sound in Ec as [_ Ec]. eexists _, _. split; [done|].
    split; [done|]. intros j _ (_ & _ & Hne & _). apply Hne. intros z Hz. right. apply Ec. lia. }
  destruct (search_start pa Hinv) as (i0 & s & Hi0 & Hno & -> & Hs). cbn [mbind option_bind].
  destruct (search_total ctxErr pa Hpa i0 _ _ Hi0 Hs) as (r & -> & Hd).
  destruct r as [[[s' e']|err]|]; [| |done]; simpl in Hd.
  - destruct Hd as [(i & Hi & Hf & [= -> ->] & Hmin)|[-> Hnone]].
    + pose proof Hf as (Hu & _). destruct (block_ips i Hu) as (Es & Ee & _ & _).
      destruct Hu as [Hi' He]. destruct (bstart_bounds i Hi' He) as (? & ? & _ & _).
      pose proof (allocationValid_start (bstart i) ltac:(unfold bend in *; lia)) as HV.
      rewrite Es, Ee, bool_decide_true in HV by (unfold bend in He; lia). rewrite HV. simpl.
      eexists _, _. split; [done|]. exists i. split_and!; try done.
      * intros j Hj. destruct (decide (j < i0)); [apply Hno; lia|apply Hmin; lia].
      * unfold record_range. by rewrite Hpa.
    + simpl. eexists _, _. split; [done|]. split; [done|]. intros j Hj.
      destruct (decide (j < i0)); [apply Hno; lia|apply Hnone; lia].
  - destruct Hd as (k & c & -> & Hk). eexists _, _. split; [done|]. split; [done|]. by exists k.
Qed.

Lemma AllocateFromPool_inv ctxErr pa node pa' r :
  pa_inv pa → AllocateFromPool ctxErr pa node = Some (pa', r) → pa_inv pa'.
Proof using Hcfg.
  intros Hinv HA. destruct (AllocateFromPool_spec ctxErr pa node Hinv) as (pa0 & r0 & E & Hs).
  rewrite E in HA. injection HA as -> ->. unfold allocate_spec in Hs.
  destruct (pa_allocations pa !! node); [by destruct Hs as [-> _]|].
  destruct r as [a|[|e|e]]; [|by destruct Hs as [-> _]..|done].
  destruct Hs as (i & Hf & Hmin & -> & ->). pose proof Hf as (Hu & Hns & Hne & Hg).
  destruct (block_ips i Hu) as (_ & _ & As & Ae). pose proof Hu as [Hi He].
  destruct (bstart_bounds i Hi He) as (_ & ? & _).
  apply (record_range_inv _ _ _ i); try done.
  right. exists i. split_and!; [done..|]. intros j Hj Hfj.
  destruct (decide (j = i)) as [->|]; [|apply (Hmin j); [lia|]; by eapply free_block_mono].
  destruct Hfj as (_ & Hn & _). simpl in Hn. set_solver.
Qed.
(** *** Loading existing ranges *)

Lemma Contains_inv ip :
  Contains (net_of f base ones) ip = true ↔
  ∃ x, addr_of ip = Some (f, x) ∧ base ≤ x < base + net_size f ones.
Proof using Hcfg.
  pose proof (cfg_net _ _ _ _ Hcfg) as Hnet. split.
  - destruct (addr_of ip) as [[g x]|] eqn:E.
    + rewrite (Contains_net_of _ _ _ _ _ _ Hnet E), bool_decide_eq_true. intros [-> ?]. by exists x.
    + by rewrite (Contains_invalid _ _ _ _ Hnet E).
  - intros (x & E & Hx). rewrite (Contains_net_of _ _ _ _ _ _ Hnet E). by apply bool_decide_true.
Qed.

(** The offset test on the distance from the network address. *)
Lemma offset_check x :
  base ≤ x →
  (if bool_decide (fam_bits f - 1 ≤ ones) then negb ((x - base) mod cfg_PerNodeBlockSize cfg =? 0)
   else (x - base <? 1) || negb ((x - base - 1) mod cfg_PerNodeBlockSize cfg =? 0)) = false ↔
  ∃ i, 0 ≤ i ∧ x = bstart i.
Proof using Hcfg.
  intros Hx. pose proof (cfg_block _ _ _ _ Hcfg) as Hb. unfold bstart, first_start.
  assert (∀ d, d mod cfg_PerNodeBlockSize cfg = 0 ↔ ∃ i, d = i * cfg_PerNodeBlockSize cfg) as Hm.
  { intros d. rewrite Z.mod_divide by lia. done. }
  case_bool_decide.
  - rewrite negb_false_iff, Z.eqb_eq, Hm. split; intros [i Hi]; exists i; [nia|destruct Hi; lia].
  - rewrite orb_false_iff, negb_false_iff, Z.eqb_eq, Z.ltb_ge, Hm. split.
    + intros [? [i Hi]]. exists i. nia.
    + intros (i & ? & ->). split; [nia|]. exists i. lia.
Qed.

Lemma checkAllocation_spec r :
  ∃ res, checkAllocation cfg r = Some res ∧
    (res = Ok tt ↔ ∃ i, range_block r i ∧ ¬ fully_excluded (bstart i) ∧ ¬ gateway_block (bstart i)).
Proof using Hcfg.
  pose proof (cfg_block _ _ _ _ Hcfg) as Hb. pose proof size_range. pose proof size_pos.
  unfold checkAllocation. rewrite (proj2 (Z.leb_gt _ _)), (cfg_subnet _ _ _ _ Hcfg) by lia.
  cbn [mbind option_bind].
  assert (∀ ip y, addr_of ip = Some (f, y) → base ≤ y < base + net_size f ones →
    Contains (net_of f base ones) ip = true) as HC by (intros; apply Contains_inv; eauto).
  destruct (_ || _) eqn:Ein.
  { eexists. split; [done|]. split; [done|]. intros (i & (As & Ae & ? & ?) & _).
    pose proof first_start_bounds. assert (base ≤ bstart i ≤ bend i) by (unfold bend, bstart; nia).
    rewrite (HC _ _ As), (HC _ _ Ae) in Ein by lia. done. }
  apply orb_false_iff in Ein as [Hs%negb_false_iff He%negb_false_iff].
  apply Contains_inv in Hs as (x & As & Hx), He as (y & Ae & Hy).
  rewrite (Cmp_ltb _ _ _ _ _ Ae As).
  assert (∀ i, range_block r i → x = bstart i ∧ y = bend i) as Hrb.
  { intros i (As' & Ae' & _). split; congruence. }
  destruct (Z.ltb_spec y x).
  { eexists. split; [done|]. split; [done|]. intros (i & Hr & _).
    destruct (Hrb i Hr) as [-> ->]. unfold bend in *. lia. }
  cbn [net_of net_IP]. destruct (start_ip_in base) as [E1 E2]; [lia|]. rewrite E1 in E2.
  rewrite (Distance_same _ _ _ _ _ E2 As), (proj2 (Z.leb_le _ _)), canUseNetworkAddress_net by lia.
  cbn [mbind option_bind]. destruct (if bool_decide _ then _ else _) eqn:Eo.
  { eexists. split; [done|]. split; [done|]. intros (i & Hr & _). destruct (Hrb i Hr) as [-> ->].
    rewrite (proj2 (offset_check (bstart i) ltac:(lia))) in Eo; [done|]. exists i. split; [apply Hr|done]. }
  apply offset_check in Eo as (i & Hi & ->); [|lia].
  rewrite (Distance_same _ _ _ _ _ As Ae), (proj2 (Z.leb_le _ _)) by lia.
  destruct (Z.eqb_spec (big_Cmp (y - bstart i) (cfg_PerNodeBlockSize cfg - 1)) 0) as [Ez|Ez]; cbn [negb].
  2:{ eexists. split; [done|]. split; [done|]. intros (i' & Hr & _). exfalso. apply Ez, big_Cmp_eq.
      destruct (Hrb i' Hr) as [E ->]. unfold bend. lia. }
  rewrite big_Cmp_eq in Ez. assert (y = bend i) as -> by (unfold bend; lia).
  assert (∀ i', range_block r i' → bstart i' = bstart i) as Huniq by (intros i' (? & _); congruence).
  destruct (_ && _) eqn:Eg.
  { apply (gateway_check _ _ As) in Eg. eexists. split; [done|]. split; [done|].
    intros (i' & Hr & _ & Hg). by rewrite (Huniq i' Hr) in Hg. }
  assert (isEntireRangeExcluded cfg r = true ↔ fully_excluded (bstart i)) as Hex
    by (apply isEntireRangeExcluded_block; [done|done|lia|unfold bend in Hy; lia]).
  destruct (isEntireRangeExcluded cfg r).
  { eexists. split; [done|]. split; [done|]. intros (i' & Hr & Hne & _). rewrite (Huniq i' Hr) in Hne.
    by destruct Hne; apply Hex. }
  eexists. split; [done|]. split; [|done]. intros _. exists i. split; [by split_and!; try done; lia|].
  split; [by rewrite <- Hex|]. rewrite <- (gateway_check _ _ As). by rewrite Eg.
Qed.
Lemma load_spec pa node r :
  pa_inv pa →
  ∃ pa' res, load pa node r = Some (pa', res) ∧ pa_inv pa' ∧
    match res with
    | Err _ => pa' = pa
    | Ok _ => pa' = record_range pa node r (pa_lastAllocatedStartIP pa) ∧
              IP_String (StartIP r) ∉ pa_startIps pa
    end.
Proof using Hcfg.
  intros Hinv. unfold load. rewrite (inv_cfg _ Hinv).
  destruct (checkAllocation_spec r) as (res & -> & Hres). cbn [mbind option_bind].
  destruct res as [[]|e]; [|by eexists _, _].
  destruct (proj1 Hres eq_refl) as (i & Hb & Hx & Hg).
  case_bool_decide as Hin; [by eexists _, _|]. eexists _, _. split; [done|].
  rewrite record_range_eq by done. split; [|done]. apply (record_range_inv pa node r i); auto.
Qed.

Lemma loadAllocation_inv nodes pa a :
  pa_inv pa → ∃ pa', loadAllocation nodes pa a = Some pa' ∧ pa_inv pa'.
Proof using Hcfg.
  intros Hinv. unfold loadAllocation. destruct (negb _); [by eexists|]. destruct (_ || _); [by eexists|].
  destruct (load_spec pa (al_NodeName a) (mkAllocatedRange (ParseIP (al_StartIP a)) (ParseIP (al_EndIP a))) Hinv)
    as (pa' & res & -> & ? & _). by eexists.
Qed.

Lemma loadAllocations_inv nodes l pa :
  pa_inv pa → ∃ pa', loadAllocations nodes pa l = Some pa' ∧ pa_inv pa'.
Proof using Hcfg.
  revert pa. induction l as [|a l IH]; intros pa Hinv; [by eexists|]. simpl.
  destruct (loadAllocation_inv nodes pa a Hinv) as (pa' & -> & Hinv'). by apply IH.
Qed.

(** Two ranges in an allocator share an address only if they are of one node. *)
Lemma ranges_disjoint pa n n' r r' x :
  pa_inv pa → pa_allocations pa !! n = Some r → pa_allocations pa !! n' = Some r' →
  ∀ s e s' e', addr_of (StartIP r) = Some (f, s) → addr_of (EndIP r) = Some (f, e) →
    addr_of (StartIP r') = Some (f, s') → addr_of (EndIP r') = Some (f, e') →
    s ≤ x ≤ e → s' ≤ x ≤ e' → n = n'.
Proof using Hcfg.
  intros Hinv Hn Hn' s e s' e' Hs He Hs' He' Hx Hx'. pose proof (cfg_block _ _ _ _ Hcfg).
  destruct (inv_block _ Hinv n r Hn) as (i & (A1 & A2 & _) & _).
  destruct (inv_block _ Hinv n' r' Hn') as (i' & (A1' & A2' & _) & _).
  assert (i = i') as <-.
  { assert (s = bstart i ∧ e = bend i ∧ s' = bstart i' ∧ e' = bend i') as (-> & -> & -> & ->)
      by (split_and!; congruence). unfold bend, bstart in *. nia. }
  apply (inv_distinct _ Hinv n n' r r' Hn Hn').
  by rewrite (IP_String_addr _ _ _ A1), (IP_String_addr _ _ _ A1').
Qed.
End blocks.

Lemma ippool_config_ok f base ones p :
  subnet_denotes (Subnet (ipp_Spec p)) f base ones → ippool_ok f base ones p →
  cfg_ok f base ones (ippool_config p).
Proof.
  intros [[ip Hs] Hnet] [? ? ? ? ? ?]. split; simpl; try done; [by rewrite Hs|lia|].
  destruct (is_nil (ParseIP (Gateway (ipp_Spec p)))) eqn:E; unfold is_nil in E; boolify; [by left|].
  right. destruct (ParseIP_valid _ E) as (g & x & ? & _). eauto.
Qed.

(** ** Executions

    The allocators the controller can have for a pool: created from its status,
    then extended by calls of [AllocateFromPool]. *)
Inductive reachable (p : IPPool) (nodes : gset string) : PoolAllocator → Prop :=
| reach_create pa : CreatePoolAllocatorFromIPPool p nodes = Some pa → reachable p nodes pa
| reach_allocate ctxErr node pa pa' r :
    reachable p nodes pa → AllocateFromPool ctxErr pa node = Some (pa', r) → reachable p nodes pa'.

Lemma CreatePoolAllocatorFromIPPool_inv f base ones p nodes :
  cfg_ok f base ones (ippool_config p) →
  ∃ pa, CreatePoolAllocatorFromIPPool p nodes = Some pa ∧ pa_inv f base ones (ippool_config p) pa.
Proof. intros Hcfg. apply loadAllocations_inv; [done|]. apply newPoolAllocator_inv. Qed.

Lemma reachable_inv f base ones p nodes pa :
  cfg_ok f base ones (ippool_config p) → reachable p nodes pa → pa_inv f base ones (ippool_config p) pa.
Proof.
  intros Hcfg. induction 1 as [pa Hc|ctxErr node pa pa' r _ IH HA].
  - destruct (CreatePoolAllocatorFromIPPool_inv f base ones p nodes Hcfg) as (pa' & E & ?). congruence.
  - by eapply AllocateFromPool_inv.
Qed.

(** ** Properties *)

(** C10: For a pool that passed validation, in every state the controller can
    reach, the ranges of different nodes have no address in common, and every
    range is a full block inside the subnet that is not entirely excluded. *)
Theorem node_ranges_disjoint f base ones p nodes pa :
  subnet_denotes (Subnet (ipp_Spec p)) f base ones → ippool_ok f base ones p → reachable p nodes pa →
  (∀ n r, pa_allocations pa !! n = Some r →
     ∃ i, range_block f base ones (ippool_config p) r i ∧
       ¬ fully_excluded f (ippool_config p) (bstart f base ones (ippool_config p) i)) ∧
  ∀ n n' r r', n ≠ n' → pa_allocations pa !! n = Some r → pa_allocations pa !! n' = Some r' →
    ∀ x s e s' e', addr_of (StartIP r) = Some (f, s) → addr_of (EndIP r) = Some (f, e) →
      addr_of (StartIP r') = Some (f, s') → addr_of (EndIP r') = Some (f, e') →
      ¬ (s ≤ x ≤ e ∧ s' ≤ x ≤ e').
Proof.
  intros Hs Hok Hr. pose proof (ippool_config_ok _ _ _ _ Hs Hok) as Hcfg.
  pose proof (reachable_inv _ _ _ _ _ _ Hcfg Hr) as Hinv. split.
  - intros n r Hn. destruct (inv_block _ _ _ _ _ Hinv n r Hn) as (i & ? & ? & _). by exists i.
  - intros n n' r r' Hne Hn Hn' x s e s' e' ? ? ? ? [? ?]. apply Hne.
    by eapply (ranges_disjoint f base ones _ Hcfg pa n n' r r' x).
Qed.


Definition example_status_pool : IPPool :=
  ipp_set_status example_ippool
    [mkAllocation "node1" "192.168.0.1" "192.168.0.10"; mkAllocation "node2" "192.168.0.31" "192.168.0.40"].

Definition example_allocator : PoolAllocator :=
  default (newPoolAllocator (ippool_config example_status_pool))
    (CreatePoolAllocatorFromIPPool example_status_pool {["node1"; "node2"; "node3"]}).

Lemma example_reachable : reachable example_status_pool {["node1"; "node2"; "node3"]} example_allocator.
Proof. apply reach_create. vm_compute. reflexivity. Qed.

Lemma example_status_ok :
  ippool_ok F4 (192 * 2 ^ 24 + 168 * 2 ^ 16) 24 example_status_pool.
Proof.
  apply (@IPPool_Validate_nil nonempty_names _ _ _ example_status_pool);
    [exact example_ippool_subnet|repeat constructor; by vm_compute|vm_compute; reflexivity].
Qed.

Lemma node_ranges_disjoint_witness :
  ∃ r r', pa_allocations example_allocator !! "node1" = Some r ∧
    pa_allocations example_allocator !! "node2" = Some r' ∧
    ∀ x s e s' e', addr_of (StartIP r) = Some (F4, s) → addr_of (EndIP r) = Some (F4, e) →
      addr_of (StartIP r') = Some (F4, s') → addr_of (EndIP r') = Some (F4, e') →
      ¬ (s ≤ x ≤ e ∧ s' ≤ x ≤ e').
Proof.
  destruct (node_ranges_disjoint F4 (192 * 2 ^ 24 + 168 * 2 ^ 16) 24 example_status_pool _ _
    example_ippool_subnet example_status_ok example_reachable) as [_ H].
  eexists _, _. split; [vm_compute; reflexivity|]. split; [vm_compute; reflexivity|].
  apply (H "node1" "node2"); [done|vm_compute; reflexivity..].
Defined.

