(* ===== verification/CtrlIPPool.v ===== *)
(** * The IPPool and Node controllers:
      [pkg/ipam-controller/controllers/{ippool/ippool.go,node/node.go}]

    A reconciliation reads the pool and the nodes, rebuilds the allocator from
    the pool's status and writes the new status.  What the Kubernetes client
    returns is an input; the calls that change the cluster are a list of
    actions.  [MatchNodeSelectorTerms] of the scheduling helpers is a
    parameter. *)

From S2P Require Import Prelude GoNet Cidr GoNetText ApiTypes Exclusions Validate CtrlAllocator.

(** ** The environment of a controller *)

Record Node := mkNode { node_Name : string; node_Labels : list (string * string) }.

(** The result of [r.Get]: an object, "not found", or another error. *)
Inductive get_result (A : Type) :=
| Found (a : A)
| NotFound
| GetError (e : error).
Arguments Found {A} a.
Arguments NotFound {A}.
Arguments GetError {A} e.

Record Request := mkRequest { req_Namespace : string; req_Name : string }.

(** The selector match of [k8s.io/component-helpers]. *)
Class NodeMatcher := MatchNodeSelectorTerms : Node → NodeSelector → result error bool.

(** [nodeNames[i] < nodeNames[j]]: byte-wise order of Go strings. *)
Definition str_less (a b : string) : bool := String.ltb a b.

Section matching.
Context `{NodeMatcher}.

(** The names of the nodes the selector matches; a node whose match fails is
    skipped. *)
Definition matchingNodeNames (sel : option NodeSelector) (nodes : list Node) : list string :=
  omap (λ node,
    match sel with
    | None => Some (node_Name node)
    | Some sel =>
        match MatchNodeSelectorTerms node sel with
        | Ok true => Some (node_Name node)
        | Ok false => None
        | Err _ => None
        end
    end) nodes.
End matching.

(** ** IPPool *)

Inductive ippool_action :=
| UpdateIPPoolStatus (pool : IPPool)
| IPPoolEvent (reason msg : string).

(** What the client answers during one reconciliation. *)
Record IPPoolClient := mkIPPoolClient {
  ipc_get : get_result IPPool;
  ipc_nodes : result error (list Node);
  ipc_update : IPPool → option error;
}.

Section ippool.
Context `{K8sNames} `{NodeMatcher}.

Definition handleInvalidSpec (c : IPPoolClient) (pool : IPPool) :
    list ippool_action * option error :=
  let pool := ipp_set_status pool [] in
  match ipc_update c pool with
  | Some err2 => ([UpdateIPPoolStatus pool], Some err2)
  | None => ([UpdateIPPoolStatus pool; IPPoolEvent "InvalidSpec" "errList.ToAggregate()"], None)
  end.

(** The loop over the node names: the events, and the allocations or the error
    that ends the reconciliation.  [ctxErr n] belongs to the [n]-th call of
    [AllocateFromPool]. *)
Fixpoint allocateNodes (ctxErr : nat → Z → option error) (pa : PoolAllocator) (names : list string) :
    option (list ippool_action * result error (list Allocation)) :=
  match names with
  | [] => Some ([], Ok [])
  | name :: names =>
      '(pa, r) ← AllocateFromPool (ctxErr O) pa name;
      match r with
      | Err ErrNoFreeRanges =>
          '(evs, res) ← allocateNodes (λ n, ctxErr (S n)) pa names;
          Some (IPPoolEvent "NoFreeRanges" "failed to allocate IPs on Node: %s" :: evs, res)
      | Err (ErrContext err) | Err (ErrMsg err) => Some ([], Err err)
      | Ok a =>
          '(evs, res) ← allocateNodes (λ n, ctxErr (S n)) pa names;
          let alloc := mkAllocation name (IP_String (StartIP a)) (IP_String (EndIP a)) in
          Some (evs, rbind res (λ l, Ok (alloc :: l)))
      end
  end.

Definition IPPool_Reconcile (ctxErr : nat → Z → option error) (poolsNamespace : string)
    (c : IPPoolClient) (req : Request) : option (list ippool_action * option error) :=
  if negb (bool_decide (req_Namespace req = poolsNamespace)) then Some ([], None)
  else
    match ipc_get c with
    | NotFound => Some ([], None)
    | GetError err => Some ([], Some err)
    | Found pool =>
        if negb (bool_decide (IPPool_Validate pool = [])) then Some (handleInvalidSpec c pool)
        else
          match ipc_nodes c with
          | Err err => Some ([], Some err)
          | Ok nodeList =>
              let nodeNames :=
                sort_by str_less (matchingNodeNames (ipp_NodeSelector (ipp_Spec pool)) nodeList) in
              pa ← CreatePoolAllocatorFromIPPool pool (list_to_set nodeNames);
              '(evs, res) ← allocateNodes ctxErr pa nodeNames;
              match res with
              | Err err => Some (evs, Some err)
              | Ok allocations =>
                  if negb (ipp_StatusNil pool) && bool_decide (ipp_Status pool = allocations)
                  then Some (evs, None)
                  else
                    let pool := ipp_set_status pool allocations in
                    Some (evs ++ [UpdateIPPoolStatus pool], ipc_update c pool)
              end
          end
    end.
End ippool.

(** ** Nodes: a change of any node triggers every pool of the namespace *)

Inductive node_action := EnqueueIPPool (req : Request) | EnqueueCIDRPool (req : Request).

Definition Node_Reconcile (poolsNamespace : string) (get : get_result Node)
    (ipPools cidrPools : result error (list string)) : list node_action * option error :=
  match get with
  | GetError err => ([], Some err)
  | Found _ | NotFound =>
      match ipPools with
      | Err err => ([], Some err)
      | Ok ips =>
          let sent := map (λ n, EnqueueIPPool (mkRequest poolsNamespace n)) ips in
          match cidrPools with
          | Err err => (sent, Some err)
          | Ok cidrs => (sent ++ map (λ n, EnqueueCIDRPool (mkRequest poolsNamespace n)) cidrs, None)
          end
      end
  end.

(** ** Lemmas *)

Section reconcile.
Context (f : family) (base ones : Z) (cfg : AllocationConfig).
Hypothesis Hcfg : cfg_ok f base ones cfg.

(** The taken starts are exactly those of the recorded ranges. *)
Definition exact (pa : PoolAllocator) : Prop :=
  ∀ s, s ∈ pa_startIps pa → ∃ n r, pa_allocations pa !! n = Some r ∧ s = IP_String (StartIP r).

Lemma record_range_exact pa node r last :
  exact pa → pa_allocations pa !! node = None → exact (record_range pa node r last).
Proof.
  intros Hex Hn s. simpl. rewrite elem_of_union, elem_of_singleton. intros [->|Hs].
  - exists node, r. by rewrite lookup_insert_eq.
  - destruct (Hex s Hs) as (n & r' & Hn' & ->). exists n, r'. split; [|done].
    rewrite lookup_insert_ne; [done|congruence].
Qed.

(** The status entry of a node. *)
Definition entry (pa : PoolAllocator) (name : string) : option Allocation :=
  (λ a, mkAllocation name (IP_String (StartIP a)) (IP_String (EndIP a))) <$> pa_allocations pa !! name.

(** No name is left without a range while a block is free. *)
Definition served (pa : PoolAllocator) (names : list string) : Prop :=
  ∀ name, name ∈ names → pa_allocations pa !! name = None →
    ∀ j, 0 ≤ j → ¬ free_block f base ones cfg pa j.

(** A later state: more ranges, fewer free blocks. *)
Record extends (pa pa' : PoolAllocator) (names : list string) : Prop := {
  ext_inv : pa_inv f base ones cfg pa';
  ext_exact : exact pa';
  ext_sub : pa_allocations pa ⊆ pa_allocations pa';
  ext_dom : ∀ n, is_Some (pa_allocations pa' !! n) → is_Some (pa_allocations pa !! n) ∨ n ∈ names;
  ext_free : ∀ j, free_block f base ones cfg pa' j → free_block f base ones cfg pa j;
}.

Lemma allocate_extends pa name :
  pa_inv f base ones cfg pa → exact pa →
  ∃ pa' r, AllocateFromPool (λ _, None) pa name = Some (pa', r) ∧ extends pa pa' [name] ∧
    (r = Err ErrNoFreeRanges ∧ pa_allocations pa' !! name = None ∧
       (∀ j, 0 ≤ j → ¬ free_block f base ones cfg pa' j) ∨
     ∃ a, r = Ok a ∧ pa_allocations pa' !! name = Some a).
Proof using Hcfg.
  intros Hinv Hex. destruct (AllocateFromPool_spec f base ones cfg Hcfg (λ _, None) pa name Hinv)
    as (pa' & r & E & Hs). exists pa', r. split; [done|].
  pose proof (AllocateFromPool_inv f base ones cfg Hcfg _ _ _ _ _ Hinv E) as Hinv'.
  assert (extends pa pa [name]) as Hrefl by (split; auto).
  unfold allocate_spec in Hs. destruct (pa_allocations pa !! name) as [a|] eqn:En.
  { destruct Hs as [-> ->]. split; [done|]. right. by exists a. }
  destruct r as [a|[|e|e]]; [|by destruct Hs as [-> ?]; split; [|left]|by destruct Hs as [_ [? ?]]|done].
  destruct Hs as (i & Hf & Hmin & -> & ->). split; [|right; eexists; split; [done|apply lookup_insert_eq]].
  split; [done|by apply record_range_exact|by apply insert_subseteq| |].
  - intros n [x Hx]. cbn [record_range pa_allocations] in Hx.
    apply lookup_insert_Some in Hx as [[<- _]|[_ Hx]]; [right; set_solver|left; by eexists].
  - intros j. by apply free_block_mono.
Qed.

Lemma extends_trans pa1 pa2 pa3 l l' :
  extends pa1 pa2 l → extends pa2 pa3 l' → extends pa1 pa3 (l ++ l').
Proof.
  intros [] []. split; [done..|by etrans| |auto]. intros n Hn. rewrite elem_of_app.
  destruct (ext_dom1 n Hn) as [Hn'|]; [|by auto]. destruct (ext_dom0 n Hn'); auto.
Qed.

Lemma entry_extends pa pa' names name :
  extends pa pa' names → is_Some (pa_allocations pa !! name) → entry pa' name = entry pa name.
Proof.
  intros Hext [a Ha]. unfold entry. rewrite Ha.
  by rewrite (lookup_weaken _ _ _ _ Ha (ext_sub _ _ _ Hext)).
Qed.

(** The loop over the nodes: every node gets its entry unless no block is free
    in the end. *)
Lemma allocateNodes_spec names pa :
  NoDup names → pa_inv f base ones cfg pa → exact pa →
  ∃ evs pa', allocateNodes (λ _ _, None) pa names = Some (evs, Ok (omap (entry pa') names)) ∧
    extends pa pa' names ∧ served pa' names ∧ Forall (λ a, ∀ p, a ≠ UpdateIPPoolStatus p) evs.
Proof using Hcfg.
  revert pa. induction names as [|name names IH]; intros pa Hnd Hinv Hex.
  { exists [], pa. split; [done|]. split; [split; auto|].
    split; [by intros ? ?%not_elem_of_nil|constructor]. }
  apply NoDup_cons in Hnd as [Hni Hnd]. simpl.
  destruct (allocate_extends pa name Hinv Hex) as (pa1 & r & -> & Hext1 & Hr). simpl.
  destruct (IH pa1 Hnd (ext_inv _ _ _ Hext1) (ext_exact _ _ _ Hext1)) as (evs & pa2 & E & Hext2 & Hsv & Hev).
  pose proof (extends_trans _ _ _ _ _ Hext1 Hext2) as Hext.
  assert (pa_allocations pa2 !! name = pa_allocations pa1 !! name) as Hsame.
  { destruct (pa_allocations pa1 !! name) as [a|] eqn:E1.
    - by eapply lookup_weaken, (ext_sub _ _ _ Hext2).
    - destruct (pa_allocations pa2 !! name) as [a|] eqn:E2; [|done].
      destruct (ext_dom _ _ _ Hext2 name) as [[? ?]|?]; [by eexists|congruence|done]. }
  destruct Hr as [(-> & Hn & Hnf)|(a & -> & Ha)]; rewrite E; simpl.
  - eexists _, pa2. split; [by unfold entry at 2; rewrite Hsame, Hn|]. split; [done|].
    split; [|by constructor]. intros n [->|Hn']%elem_of_cons Hn2 j Hj Hf; [|by eapply Hsv].
    by apply (Hnf j Hj), (ext_free _ _ _ Hext2).
  - eexists _, pa2. split; [by unfold entry at 2; rewrite Hsame, Ha|]. split; [done|].
    split; [|done]. intros n [->|Hn']%elem_of_cons Hn2 j Hj Hf; [congruence|by eapply Hsv].
Qed.

(** Where every node has its range or nothing is free, the loop changes nothing. *)
Lemma allocateNodes_stable names pa :
  pa_inv f base ones cfg pa → served pa names →
  ∃ evs, allocateNodes (λ _ _, None) pa names = Some (evs, Ok (omap (entry pa) names)) ∧
    Forall (λ a, ∀ p, a ≠ UpdateIPPoolStatus p) evs.
Proof using Hcfg.
  intros Hinv. induction names as [|name names IH]; intros Hsv; [by exists []|]. simpl.
  destruct IH as (evs & E & Hev); [intros n Hn; apply Hsv; by right|].
  destruct (AllocateFromPool_spec f base ones cfg Hcfg (λ _, None) pa name Hinv) as (pa' & r & -> & Hs). simpl.
  unfold allocate_spec in Hs. unfold entry at 1.
  destruct (pa_allocations pa !! name) as [a|] eqn:En.
  - destruct Hs as [-> ->]. rewrite E. simpl. by eexists.
  - destruct r as [a|[|e|e]]; [|destruct Hs as [-> _]; rewrite E; simpl; eexists; by split; [|constructor]
      |by destruct Hs as [_ [? ?]]|done].
    destruct Hs as (i & Hf & _). exfalso.
    apply (Hsv name (list_elem_of_here _ _) En i); [apply Hf|done].
Qed.
(** *** Loading a status back *)

Definition entry_ok (e : Allocation) : Prop :=
  ∃ i, al_StartIP e = addr_string f (bstart f base ones cfg i) ∧
    al_EndIP e = addr_string f (bend f base ones cfg i) ∧ 0 ≤ i ∧
    bend f base ones cfg i < base + net_size f ones ∧
    ¬ fully_excluded f cfg (bstart f base ones cfg i) ∧ ¬ gateway_block f cfg (bstart f base ones cfg i).

Lemma entry_Some pa n e :
  entry pa n = Some e ↔
  ∃ r, pa_allocations pa !! n = Some r ∧ e = mkAllocation n (IP_String (StartIP r)) (IP_String (EndIP r)).
Proof. unfold entry. destruct (pa_allocations pa !! n) as [r|]; naive_solver. Qed.

Lemma entry_name pa n e : entry pa n = Some e → al_NodeName e = n.
Proof. by intros (r & _ & ->)%entry_Some. Qed.

Lemma entry_valid pa n e : pa_inv f base ones cfg pa → entry pa n = Some e → entry_ok e.
Proof.
  intros Hinv (r & Hr & ->)%entry_Some.
  destruct (inv_block _ _ _ _ _ Hinv n r Hr) as (i & (As & Ae & ? & ?) & ? & ? & _).
  exists i. simpl. by rewrite (IP_String_addr _ _ _ As), (IP_String_addr _ _ _ Ae).
Qed.

Lemma load_entry nodes pa e :
  pa_inv f base ones cfg pa → exact pa → entry_ok e → al_NodeName e ∈ nodes →
  entry pa (al_NodeName e) = None → al_StartIP e ∉ pa_startIps pa →
  ∃ pa', loadAllocation nodes pa e = Some pa' ∧ pa_inv f base ones cfg pa' ∧ exact pa' ∧
    entry pa' (al_NodeName e) = Some e ∧ (∀ n, n ≠ al_NodeName e → entry pa' n = entry pa n) ∧
    pa_startIps pa' = {[al_StartIP e]} ∪ pa_startIps pa.
Proof using Hcfg.
  destruct e as [n s t]. intros Hinv Hex (i & Es & Et & Hi & Hb & Hx & Hg) Hn Hnew Hs. simpl in *.
  assert (pa_allocations pa !! n = None) as Hnone by (unfold entry in Hnew; by destruct (pa_allocations pa !! n)).
  pose proof (first_start_bounds f base ones cfg Hcfg). pose proof (cfg_block _ _ _ _ Hcfg).
  pose proof (size_range f base ones cfg Hcfg).
  assert (∀ x, base ≤ x < base + net_size f ones → addr_ok f x) as Hok
    by (intros; eapply near_addr; [done|lia..]).
  assert (base ≤ bstart f base ones cfg i ≤ bend f base ones cfg i) as Hle by (unfold bend, bstart; nia).
  pose proof (ParseIP_addr_string f _ (Hok (bstart f base ones cfg i) ltac:(lia))) as As.
  pose proof (ParseIP_addr_string f _ (Hok (bend f base ones cfg i) ltac:(lia))) as Ae.
  rewrite <- Es in As. rewrite <- Et in Ae.
  unfold loadAllocation. simpl. rewrite bool_decide_true by done. cbn [negb].
  rewrite (ParseIP_not_nil _ _ _ As), (ParseIP_not_nil _ _ _ Ae). cbn [orb].
  set (r := mkAllocatedRange (ParseIP s) (ParseIP t)).
  assert (IP_String (StartIP r) = s ∧ IP_String (EndIP r) = t) as [Ers Ert].
  { subst r. simpl. rewrite (IP_String_addr _ _ _ As), (IP_String_addr _ _ _ Ae). by rewrite Es, Et. }
  unfold load. rewrite (inv_cfg _ _ _ _ _ Hinv).
  destruct (checkAllocation_spec f base ones cfg Hcfg r) as (res & -> & Hres). cbn [mbind option_bind].
  rewrite (proj2 Hres) by (by exists i). rewrite bool_decide_false by (by rewrite Ers).
  eexists. split; [done|]. cbn [fst]. rewrite (record_range_eq f base ones cfg) by done.
  split; [apply (record_range_inv f base ones cfg Hcfg pa n r i); try done; [by rewrite Ers|by left]|].
  split; [by apply record_range_exact|]. unfold entry.
  cbn [record_range pa_allocations pa_startIps]. rewrite lookup_insert_eq. cbn [fmap option_fmap option_map].
  rewrite Ers, Ert. split; [done|]. split; [|done]. intros n' Hn'. by rewrite lookup_insert_ne by congruence.
Qed.

Lemma load_entries nodes l pa :
  pa_inv f base ones cfg pa → exact pa → Forall entry_ok l →
  NoDup (map al_NodeName l) → NoDup (map al_StartIP l) →
  Forall (λ e, al_NodeName e ∈ nodes ∧ entry pa (al_NodeName e) = None ∧ al_StartIP e ∉ pa_startIps pa) l →
  ∃ pa', loadAllocations nodes pa l = Some pa' ∧ pa_inv f base ones cfg pa' ∧ exact pa' ∧
    (∀ e, e ∈ l → entry pa' (al_NodeName e) = Some e) ∧
    (∀ n, n ∉ map al_NodeName l → entry pa' n = entry pa n) ∧
    pa_startIps pa' = list_to_set (map al_StartIP l) ∪ pa_startIps pa.
Proof using Hcfg.
  revert pa. induction l as [|e l IH]; intros pa Hinv Hex Hok Hn Hs Hfr; simpl.
  { exists pa. split_and!; try done; [by intros ? ?%not_elem_of_nil|set_solver]. }
  apply Forall_cons in Hok as [Hok Hoks]. apply Forall_cons in Hfr as [(H1 & H2 & H3) Hfr].
  apply NoDup_cons in Hn as [Hn Hns]. apply NoDup_cons in Hs as [Hs Hss].
  destruct (load_entry nodes pa e Hinv Hex Hok H1 H2 H3) as (pa1 & -> & Hinv1 & Hex1 & He & Hne & Hst). simpl.
  destruct (IH pa1 Hinv1 Hex1 Hoks Hns Hss) as (pa2 & -> & Hinv2 & Hex2 & He2 & Hne2 & Hst2).
  { rewrite Forall_forall in Hfr |- *. intros e' He'. destruct (Hfr e' He') as (? & ? & ?).
    assert (al_NodeName e' ≠ al_NodeName e) as Hd.
    { intros E. apply Hn. rewrite <- E. by apply list_elem_of_fmap_2. }
    split; [done|]. rewrite Hne, Hst by done. split; [done|].
    rewrite elem_of_union, elem_of_singleton. intros [E|]; [|done].
    apply Hs. rewrite <- E. by apply (list_elem_of_fmap_2 al_StartIP). }
  exists pa2. split_and!; try done.
  - intros e' [->|He']%elem_of_cons; [|by apply He2]. by rewrite Hne2.
  - intros n [? ?]%not_elem_of_cons. rewrite Hne2 by done. by apply Hne.
  - rewrite Hst2, Hst. simpl. set_solver.
Qed.

(** Loading a status without duplicate nodes keeps the starts exact, and only
    names of the given set are recorded. *)
Lemma loadAllocations_exact nodes l pa pa' :
  pa_inv f base ones cfg pa → exact pa → NoDup (map al_NodeName l) →
  Forall (λ e, pa_allocations pa !! al_NodeName e = None) l →
  (∀ n, is_Some (pa_allocations pa !! n) → n ∈ nodes) →
  loadAllocations nodes pa l = Some pa' →
  exact pa' ∧ ∀ n, is_Some (pa_allocations pa' !! n) → n ∈ nodes.
Proof using Hcfg.
  revert pa. induction l as [|e l IH]; intros pa Hinv Hex Hn Hfr Hdom; simpl; [by intros [= <-]|].
  apply NoDup_cons in Hn as [Hn Hns]. apply Forall_cons in Hfr as [Hf Hfr].
  unfold loadAllocation. case_bool_decide as Hin; cbn [negb]; [|simpl; by apply IH].
  destruct (_ || _); [simpl; by apply IH|].
  destruct (load_spec f base ones cfg Hcfg pa (al_NodeName e)
    (mkAllocatedRange (ParseIP (al_StartIP e)) (ParseIP (al_EndIP e))) Hinv) as (pa1 & res & -> & Hinv1 & Hr).
  simpl. destruct res as [u|]; [|subst pa1; by apply IH]. destruct Hr as [-> _]. apply IH; [done| |done| |].
  - by apply record_range_exact.
  - rewrite Forall_forall in Hfr |- *. intros e' He'. simpl. rewrite lookup_insert_ne; [by apply Hfr|].
    intros E. apply Hn. rewrite E. by apply list_elem_of_fmap_2.
  - intros n [x Hx]. simpl in Hx. apply lookup_insert_Some in Hx as [[<- _]|[_ Hx]]; [done|]. apply Hdom. by eexists.
Qed.
End reconcile.

Lemma entry_list_names pa names :
  NoDup names → NoDup (map al_NodeName (omap (entry pa) names)) ∧
  ∀ e, e ∈ omap (entry pa) names → al_NodeName e ∈ names.
Proof.
  assert (∀ (l : list string) e, e ∈ omap (entry pa) l → al_NodeName e ∈ l) as Hin.
  { intros l e (n & Hn & He)%list_elem_of_omap. by rewrite (entry_name _ _ _ He). }
  intros Hnd. split; [|apply Hin]. induction Hnd as [|n names Hn _ IH]; csimpl; [constructor|].
  destruct (entry pa n) as [e|] eqn:E; [|done]. csimpl. apply NoDup_cons. split; [|done].
  rewrite (entry_name _ _ _ E). intros (e' & He' & Hin')%list_elem_of_fmap. apply Hn. rewrite He'. by apply Hin.
Qed.

Lemma entry_list_starts f base ones cfg pa names :
  pa_inv f base ones cfg pa → NoDup names → NoDup (map al_StartIP (omap (entry pa) names)).
Proof.
  intros Hinv Hnd. induction Hnd as [|n names Hn Hnd IH]; csimpl; [constructor|].
  destruct (entry pa n) as [e|] eqn:E; [|done]. csimpl. apply NoDup_cons. split; [|done].
  intros (e' & He' & (n' & Hn' & E')%list_elem_of_omap)%list_elem_of_fmap. apply Hn.
  apply entry_Some in E as (r & Hr & ->), E' as (r' & Hr' & ->). simpl in He'.
  by rewrite (inv_distinct _ _ _ _ _ Hinv n n' r r' Hr Hr' He').
Qed.

(** The status of a good state loads back to an allocator that computes it
    again. *)
Lemma status_reload f base ones cfg pa names :
  cfg_ok f base ones cfg → pa_inv f base ones cfg pa → exact pa → served f base ones cfg pa names →
  (∀ n, is_Some (pa_allocations pa !! n) → n ∈ names) → NoDup names →
  let status := omap (entry pa) names in
  ∃ pa2 evs, loadAllocations (list_to_set names) (newPoolAllocator cfg) status = Some pa2 ∧
    allocateNodes (λ _ _, None) pa2 names = Some (evs, Ok status) ∧
    Forall (λ a, ∀ p, a ≠ UpdateIPPoolStatus p) evs.
Proof.
  intros Hcfg Hinv Hex Hsv Hdom Hnn status. destruct (entry_list_names pa names Hnn) as [Hn1 Hn2].
  destruct (load_entries f base ones cfg Hcfg (list_to_set names) status
    (newPoolAllocator cfg)) as (pa2 & E2 & Hinv2 & _ & He2 & Hne2 & Hst2);
    [apply newPoolAllocator_inv|done| |done|by eapply entry_list_starts| |].
  { apply Forall_forall. intros e (n & _ & He)%list_elem_of_omap. by eapply entry_valid. }
  { apply Forall_forall. intros e He. split_and!; [set_solver|done|set_solver]. }
  assert (∀ n, n ∈ names → entry pa2 n = entry pa n) as Hent.
  { intros n Hn. destruct (entry pa n) as [e|] eqn:E.
    - rewrite <- (entry_name _ _ _ E). apply He2, list_elem_of_omap. by exists n.
    - rewrite Hne2; [done|]. intros (e & -> & (n' & _ & E')%list_elem_of_omap)%list_elem_of_fmap.
      rewrite (entry_name _ _ _ E') in E. congruence. }
  destruct (allocateNodes_stable f base ones cfg Hcfg names pa2 Hinv2) as (evs & EA & Hev).
  { intros n Hn Hnone j Hj (Hu & Hin & Hx & Hg). apply (Hsv n Hn) with (j := j); [|done|].
    - specialize (Hent n Hn). unfold entry in Hent. rewrite Hnone in Hent.
      by destruct (pa_allocations pa !! n).
    - split_and!; [done| |done..]. intros Hin'. apply Hin. rewrite Hst2.
      destruct (Hex _ Hin') as (n' & r & Hr & ->). apply elem_of_union_l, elem_of_list_to_set, list_elem_of_fmap.
      eexists. split; [|apply list_elem_of_omap; exists n'; split;
        [apply Hdom; by eexists|unfold entry; by rewrite Hr]]. done. }
  exists pa2, evs. split; [done|]. split; [|done]. rewrite EA. do 3 f_equal.
  unfold status. clear -Hent. induction names as [|n l IH]; [done|]. csimpl.
  rewrite (Hent n), IH; [done|intros; apply Hent; by right|by left].
Qed.

Section properties.
Context `{K8sNames} `{NodeMatcher}.

Definition never : nat → Z → option error := λ _ _, None.

(** A client that serves [pool] and [nodes], and whose updates succeed. *)
Definition client_of (pool : IPPool) (nodes : list Node) : IPPoolClient :=
  mkIPPoolClient (Found pool) (Ok nodes) (λ _, None).

Definition sorted_names (pool : IPPool) (nodes : list Node) : list string :=
  sort_by str_less (matchingNodeNames (ipp_NodeSelector (ipp_Spec pool)) nodes).

Lemma matching_nodup sel nodes : NoDup (map node_Name nodes) → NoDup (matchingNodeNames sel nodes).
Proof.
  induction nodes as [|n nodes IH]; csimpl; [constructor|]. intros [Hn Hnd]%NoDup_cons.
  assert (∀ x, x ∈ matchingNodeNames sel nodes → x ∈ map node_Name nodes) as Hin.
  { intros x (n' & Hn' & E)%list_elem_of_omap. apply list_elem_of_fmap. exists n'. split; [|done].
    repeat case_match; congruence. }
  unfold matchingNodeNames in *. csimpl.
  destruct (match sel with Some _ => _ | None => _ end) as [x|] eqn:E; [|by apply IH].
  assert (x = node_Name n) as -> by (repeat case_match; congruence).
  apply NoDup_cons. split; [|by apply IH]. intros Hx. by apply Hn, Hin.
Qed.

Lemma sorted_names_nodup pool nodes : NoDup (map node_Name nodes) → NoDup (sorted_names pool nodes).
Proof. intros. unfold sorted_names. rewrite sort_by_perm. by apply matching_nodup. Qed.

(** What a reconciliation computes: an allocator in a good state, whose entries
    for the matching nodes are the new status. *)
Lemma reconcile_spec f base ones pool nodes ns name :
  subnet_denotes (Subnet (ipp_Spec pool)) f base ones → IPPool_Validate pool = [] →
  cfg_ok f base ones (ippool_config pool) → NoDup (map node_Name nodes) →
  NoDup (map al_NodeName (ipp_Status pool)) →
  ∃ evs pa, let names := sorted_names pool nodes in
    let status := omap (entry pa) names in
    IPPool_Reconcile never ns (client_of pool nodes) (mkRequest ns name) =
      Some (if negb (ipp_StatusNil pool) && bool_decide (ipp_Status pool = status) then evs
            else evs ++ [UpdateIPPoolStatus (ipp_set_status pool status)], None) ∧
    Forall (λ a, ∀ p, a ≠ UpdateIPPoolStatus p) evs ∧
    pa_inv f base ones (ippool_config pool) pa ∧ exact pa ∧ served f base ones (ippool_config pool) pa names ∧
    ∀ n, is_Some (pa_allocations pa !! n) → n ∈ names.
Proof.
  intros Hs HV Hcfg Hnd Hst. unfold IPPool_Reconcile, never. cbn [req_Namespace client_of ipc_get ipc_nodes ipc_update].
  rewrite bool_decide_true, HV by done. cbn [negb]. rewrite bool_decide_true by done. cbn [negb].
  fold (sorted_names pool nodes). set (names := sorted_names pool nodes).
  destruct (CreatePoolAllocatorFromIPPool_inv f base ones pool (list_to_set names) Hcfg) as (pa0 & E0 & Hinv0).
  rewrite E0. cbn [mbind option_bind].
  destruct (loadAllocations_exact f base ones (ippool_config pool) Hcfg (list_to_set names) (ipp_Status pool)
    (newPoolAllocator (ippool_config pool)) pa0) as [Hex0 Hdom0]; try done.
  { apply newPoolAllocator_inv. } { apply Forall_true. done. } { intros n [? Hn]. done. }
  destruct (allocateNodes_spec f base ones (ippool_config pool) Hcfg names pa0
    (sorted_names_nodup pool nodes Hnd) Hinv0 Hex0) as (evs & pa & -> & Hext & Hsv & Hev).
  cbn [mbind option_bind]. exists evs, pa. cbv zeta. split; [by destruct (_ && _)|].
  split; [done|]. split; [apply Hext|]. split; [apply Hext|]. split; [done|].
  intros n Hn. destruct (ext_dom _ _ _ _ _ _ _ Hext n Hn) as [Hn'|]; [|done].
  apply Hdom0 in Hn'. set_solver.
Qed.

Lemma ippool_valid_cfg f base ones pool :
  subnet_denotes (Subnet (ipp_Spec pool)) f base ones →
  Forall int32_range (PerNodeExclusions (ipp_Spec pool)) → IPPool_Validate pool = [] →
  cfg_ok f base ones (ippool_config pool).
Proof.
  intros Hs H32 HV. apply ippool_config_ok; [done|]. by apply (IPPool_Validate_nil f base ones pool Hs H32).
Qed.

(** The status of a reconciliation. *)
Lemma reconcile_status_spec f base ones pool nodes ns name :
  subnet_denotes (Subnet (ipp_Spec pool)) f base ones →
  Forall int32_range (PerNodeExclusions (ipp_Spec pool)) → IPPool_Validate pool = [] →
  NoDup (map node_Name nodes) → NoDup (map al_NodeName (ipp_Status pool)) →
  let cfg := ippool_config pool in let names := sorted_names pool nodes in
  ∃ evs status,
    IPPool_Reconcile never ns (client_of pool nodes) (mkRequest ns name) =
      Some (if negb (ipp_StatusNil pool) && bool_decide (ipp_Status pool = status) then evs
            else evs ++ [UpdateIPPoolStatus (ipp_set_status pool status)], None) ∧
    Forall (λ a, ∀ p, a ≠ UpdateIPPoolStatus p) evs ∧
    Forall (entry_ok f base ones cfg) status ∧ NoDup (map al_NodeName status) ∧
    NoDup (map al_StartIP status) ∧ (∀ e, e ∈ status → al_NodeName e ∈ names) ∧
    ∀ n, n ∈ names → n ∉ map al_NodeName status →
      ∀ i, usable f base ones cfg i → fully_excluded f cfg (bstart f base ones cfg i) ∨
        gateway_block f cfg (bstart f base ones cfg i) ∨
        addr_string f (bstart f base ones cfg i) ∈ map al_StartIP status.
Proof.
  intros Hs H32 HV Hnd Hst cfg names. pose proof (ippool_valid_cfg _ _ _ _ Hs H32 HV) as Hcfg.
  destruct (reconcile_spec f base ones pool nodes ns name Hs HV Hcfg Hnd Hst)
    as (evs & pa & HR & Hev & Hinv & Hex & Hsv & Hdom). fold names cfg in HR, Hinv, Hsv, Hdom.
  exists evs, (omap (entry pa) names). split; [done|]. split; [done|].
  pose proof (sorted_names_nodup pool nodes Hnd) as Hnn.
  destruct (entry_list_names pa names Hnn) as [Hn1 Hn2].
  split_and!; try done; [|by eapply entry_list_starts|].
  { apply Forall_forall. intros e (n & _ & He)%list_elem_of_omap. by eapply entry_valid. }
  intros n Hn Hno i Hu.
  assert (pa_allocations pa !! n = None) as Hnone.
  { destruct (pa_allocations pa !! n) as [r|] eqn:E; [|done]. exfalso. apply Hno, list_elem_of_fmap.
    eexists. split; [|apply list_elem_of_omap; exists n; split; [done|unfold entry; by rewrite E]]. done. }
  destruct (decide (addr_string f (bstart f base ones cfg i) ∈ pa_startIps pa)) as [Hin|Hin].
  - right; right. destruct (Hex _ Hin) as (n' & r & Hr & ->). apply list_elem_of_fmap.
    eexists. split; [|apply list_elem_of_omap; exists n'; split;
      [apply Hdom; by eexists|unfold entry; by rewrite Hr]]. done.
  - destruct (fully_excluded_dec f base ones cfg Hcfg i Hu) as [Hx|Hx]; [by left|right; left].
    destruct (decide (gateway_block f cfg (bstart f base ones cfg i))) as [|Hg]; [done|exfalso].
    destruct (block_ips f base ones cfg Hcfg i Hu) as (_ & _ & As & _).
    apply (Hsv n Hn Hnone i); [apply Hu|]. split; [done|]. split; [|done].
    by rewrite (IP_String_addr _ _ _ As).
Qed.

(** A reconciliation of a valid pool succeeds and its status is right: the
    entries are for matching nodes, one each, on different usable blocks that
    are not entirely excluded; a matching node without an entry means that
    every usable block is in the status, entirely excluded, or the gateway's. *)
Theorem ippool_reconcile_status f base ones pool nodes ns name :
  subnet_denotes (Subnet (ipp_Spec pool)) f base ones →
  Forall int32_range (PerNodeExclusions (ipp_Spec pool)) → IPPool_Validate pool = [] →
  NoDup (map node_Name nodes) → NoDup (map al_NodeName (ipp_Status pool)) →
  let cfg := ippool_config pool in let names := sorted_names pool nodes in
  ∃ evs status,
    IPPool_Reconcile never ns (client_of pool nodes) (mkRequest ns name) =
      Some (if negb (ipp_StatusNil pool) && bool_decide (ipp_Status pool = status) then evs
            else evs ++ [UpdateIPPoolStatus (ipp_set_status pool status)], None) ∧
    Forall (entry_ok f base ones cfg) status ∧ NoDup (map al_NodeName status) ∧
    NoDup (map al_StartIP status) ∧ (∀ e, e ∈ status → al_NodeName e ∈ names) ∧
    ∀ n, n ∈ names → n ∉ map al_NodeName status →
      ∀ i, usable f base ones cfg i → fully_excluded f cfg (bstart f base ones cfg i) ∨
        gateway_block f cfg (bstart f base ones cfg i) ∨
        addr_string f (bstart f base ones cfg i) ∈ map al_StartIP status.
Proof.
  intros Hs H32 HV Hnd Hst cfg names.
  destruct (reconcile_status_spec f base ones pool nodes ns name Hs H32 HV Hnd Hst) as (evs & status & HR & _ & Hfacts).
  by exists evs, status.
Qed.

(** A second reconciliation finds the status it would write. *)
Lemma reconcile_again f base ones pool nodes ns name ns' name' :
  subnet_denotes (Subnet (ipp_Spec pool)) f base ones →
  Forall int32_range (PerNodeExclusions (ipp_Spec pool)) → IPPool_Validate pool = [] →
  NoDup (map node_Name nodes) → NoDup (map al_NodeName (ipp_Status pool)) →
  ∃ evs evs' status,
    IPPool_Reconcile never ns (client_of pool nodes) (mkRequest ns name) =
      Some (if negb (ipp_StatusNil pool) && bool_decide (ipp_Status pool = status) then evs
            else evs ++ [UpdateIPPoolStatus (ipp_set_status pool status)], None) ∧
    IPPool_Reconcile never ns' (client_of (ipp_set_status pool status) nodes) (mkRequest ns' name') =
      Some (evs', None) ∧
    Forall (λ a, ∀ p, a ≠ UpdateIPPoolStatus p) (evs ++ evs') ∧ NoDup (map al_NodeName status).
Proof.
  intros Hs H32 HV Hnd Hst. pose proof (ippool_valid_cfg _ _ _ _ Hs H32 HV) as Hcfg.
  destruct (reconcile_spec f base ones pool nodes ns name Hs HV Hcfg Hnd Hst)
    as (evs & pa & HR & Hev & Hinv & Hex & Hsv & Hdom).
  set (names := sorted_names pool nodes) in *. set (status := omap (entry pa) names) in *.
  destruct (status_reload f base ones (ippool_config pool) pa names)
    as (pa2 & evs' & E2 & EA & Hev'); [done..|by apply sorted_names_nodup|]. fold status in E2, EA.
  exists evs, evs', status. split; [done|].
  split; [|split; [by apply Forall_app|by apply (entry_list_names pa names), sorted_names_nodup]].
  unfold IPPool_Reconcile, never. cbn [req_Namespace client_of ipc_get ipc_nodes ipc_update].
  rewrite bool_decide_true by done. cbn [negb].
  assert (IPPool_Validate (ipp_set_status pool status) = []) as -> by exact HV.
  rewrite bool_decide_true by done. cbn [negb ipp_set_status ipp_Spec ipp_Status ipp_StatusNil].
  fold (sorted_names pool nodes). fold names. unfold CreatePoolAllocatorFromIPPool.
  change (ippool_config (ipp_set_status pool status)) with (ippool_config pool).
  cbn [ipp_set_status ipp_Status]. rewrite E2. cbn [mbind option_bind]. rewrite EA. cbn [mbind option_bind].
  by rewrite bool_decide_true.
Qed.
(** Reconciliation converges in one step: reconciling the pool with the
    status just computed leaves the status as it is. *)
Theorem ippool_reconcile_idempotent f base ones pool nodes ns name :
  subnet_denotes (Subnet (ipp_Spec pool)) f base ones →
  Forall int32_range (PerNodeExclusions (ipp_Spec pool)) → IPPool_Validate pool = [] →
  NoDup (map node_Name nodes) → NoDup (map al_NodeName (ipp_Status pool)) →
  ∃ evs evs' status,
    IPPool_Reconcile never ns (client_of pool nodes) (mkRequest ns name) =
      Some (if negb (ipp_StatusNil pool) && bool_decide (ipp_Status pool = status) then evs
            else evs ++ [UpdateIPPoolStatus (ipp_set_status pool status)], None) ∧
    IPPool_Reconcile never ns (client_of (ipp_set_status pool status) nodes) (mkRequest ns name) =
      Some (evs', None) ∧
    Forall (λ a, ∀ p, a ≠ UpdateIPPoolStatus p) (evs ++ evs').
Proof.
  intros Hs H32 HV Hnd Hst.
  destruct (reconcile_again f base ones pool nodes ns name ns name Hs H32 HV Hnd Hst) as (evs & evs' & status & H1 & H2 & H3 & _).
  by exists evs, evs', status.
Qed.
End properties.

(** A matcher for concrete nodes: the keys of some term are all present. *)
Definition exists_matcher : NodeMatcher := λ node sel,
  Ok (existsb (λ t, forallb (λ r, bool_decide (rq_Key r ∈ map fst (node_Labels node))) (MatchExpressions t))
        (NodeSelectorTerms sel)).

Definition example_nodes : list Node :=
  [mkNode "node3" [("role", "worker")]; mkNode "node1" [("role", "worker")];
   mkNode "master" []; mkNode "node2" [("role", "worker")]].

Lemma example_status_denotes :
  subnet_denotes (Subnet (ipp_Spec example_status_pool)) F4 (192 * 2 ^ 24 + 168 * 2 ^ 16) 24.
Proof. exact example_ippool_subnet. Qed.

Lemma ippool_reconcile_status_witness :
  ∃ evs status,
    @IPPool_Reconcile nonempty_names exists_matcher never "ns" (client_of example_status_pool example_nodes)
      (mkRequest "ns" "pool1") =
    Some (if bool_decide (ipp_Status example_status_pool = status) then evs
          else evs ++ [UpdateIPPoolStatus (ipp_set_status example_status_pool status)], None) ∧
    NoDup (map al_NodeName status) ∧ NoDup (map al_StartIP status).
Proof.
  destruct (@ippool_reconcile_status nonempty_names exists_matcher F4 (192 * 2 ^ 24 + 168 * 2 ^ 16) 24
    example_status_pool example_nodes "ns" "pool1" example_status_denotes)
    as (evs & status & E & _ & Hn & Hs & _).
  - repeat constructor; by vm_compute.
  - vm_compute; reflexivity.
  - apply (bool_decide_unpack _); vm_compute; exact I.
  - apply (bool_decide_unpack _); vm_compute; exact I.
  - exists evs, status. split; [exact E|]. split; [exact Hn|exact Hs].
Defined.

Lemma ippool_reconcile_idempotent_witness :
  ∃ evs evs' status,
    @IPPool_Reconcile nonempty_names exists_matcher never "ns" (client_of example_status_pool example_nodes)
      (mkRequest "ns" "pool1") =
    Some (if bool_decide (ipp_Status example_status_pool = status) then evs
          else evs ++ [UpdateIPPoolStatus (ipp_set_status example_status_pool status)], None) ∧
    @IPPool_Reconcile nonempty_names exists_matcher never "ns"
      (client_of (ipp_set_status example_status_pool status) example_nodes) (mkRequest "ns" "pool1") =
    Some (evs', None).
Proof.
  destruct (@ippool_reconcile_idempotent nonempty_names exists_matcher F4 (192 * 2 ^ 24 + 168 * 2 ^ 16) 24
    example_status_pool example_nodes "ns" "pool1" example_status_denotes)
    as (evs & evs' & status & E & E' & _).
  - repeat constructor; by vm_compute.
  - vm_compute; reflexivity.
  - apply (bool_decide_unpack _); vm_compute; exact I.
  - apply (bool_decide_unpack _); vm_compute; exact I.
  - exists evs, evs', status. split; [exact E|exact E'].
Defined.

(** The run itself: node3 gets the first free block. *)
Example reconcile_run :
  @IPPool_Reconcile nonempty_names exists_matcher never "ns" (client_of example_status_pool example_nodes)
    (mkRequest "ns" "pool1") =
  Some ([UpdateIPPoolStatus (ipp_set_status example_status_pool
           [mkAllocation "node1" "192.168.0.1" "192.168.0.10";
            mkAllocation "node2" "192.168.0.31" "192.168.0.40";
            mkAllocation "node3" "192.168.0.11" "192.168.0.20"])], None).
Proof. vm_compute. reflexivity. Qed.
