(* ===== verification/CtrlCIDRPool.v ===== *)
(** * The CIDRPool controller: [pkg/ipam-controller/controllers/cidrpool/cidrpool.go]

    A reconciliation keeps the valid allocations of the status, gives every
    other matching node its static prefix or the next free prefix of the pool,
    and writes the status sorted by node name.  [None] is a panic; the search
    for a free prefix runs with the fuel of the IPPool allocator. *)

From S2P Require Import Prelude GoNet Cidr GoNetText ApiTypes Exclusions Validate CtrlAllocator CtrlIPPool.

(** ** The code *)

Inductive prefix_error := errNoFreePrefixes | ErrPrefix (e : error).

Definition lastUsableIndex (parent : IPNet) (prefixSize : Z) : Z :=
  let '(_, totalBits) := Mask_Size (net_Mask parent) in
  let hostBits := totalBits - prefixSize in
  let lastIndex := big_Exp2 hostBits - 1 in
  if negb (is_nil (To4 (net_IP parent))) && (1 <? hostBits) then lastIndex - 1 else lastIndex.

(** The loop over the merged exclusions; [furthestEnd] is [nil] at first. *)
Fixpoint overlap_loop (firstIP lastIP : IP) (exclusions : list ExcludeRange) (furthestEnd : IP) : IP :=
  match exclusions with
  | [] => furthestEnd
  | exclusion :: exclusions =>
      let startIP := ParseIP (er_StartIP exclusion) in
      let endIP := ParseIP (er_EndIP exclusion) in
      if is_nil startIP || is_nil endIP || (Cmp endIP firstIP <? 0)
      then overlap_loop firstIP lastIP exclusions furthestEnd
      else if 0 <? Cmp startIP lastIP then furthestEnd
      else
        let furthestEnd :=
          if is_nil furthestEnd || (0 <? Cmp endIP furthestEnd) then endIP else furthestEnd in
        overlap_loop firstIP lastIP exclusions furthestEnd
  end.

Definition overlappingExclusionEnd (prefix : IPNet) (exclusions : list ExcludeRange) : option IP :=
  lastIP ← LastIP prefix;
  Some (overlap_loop (net_IP prefix) lastIP exclusions []).

Definition isPrefixFullyExcluded (prefix : string) (pool : CIDRPool) : option bool :=
  '(_, ipn) ← ParseCIDR prefix;
  let firstIP := net_IP ipn in
  lastIP ← LastIP ipn;
  let excludeRanges :=
    cp_Exclusions (cp_Spec pool) ++
    ExcludeIndexRangeToExcludeRange (cp_PerNodeExclusions (cp_Spec pool)) (IP_String firstIP) in
  let excludeRanges := ClampExcludeRanges excludeRanges (IP_String firstIP) (IP_String lastIP) in
  Some (single_range_covers (MergeExcludeRanges excludeRanges) firstIP lastIP).

(** Two maps from one list: by node name and by prefix. *)
Definition getStaticAllocationsMaps (pool : CIDRPool) :
    gmap string CIDRPoolStaticAllocation * gmap string CIDRPoolStaticAllocation :=
  foldl (λ m alloc, (<[sa_NodeName alloc := alloc]> m.1, <[sa_Prefix alloc := alloc]> m.2))
    (∅, ∅) (StaticAllocations (cp_Spec pool)).

Definition allocMaps : Type := gmap string CIDRPoolAllocation * gmap string CIDRPoolAllocation.

(** The loop of [getValidExistingAllocationsMaps]. *)
Fixpoint keepAllocations (pool : CIDRPool) (nodes : list string) (l : list CIDRPoolAllocation)
    (m : allocMaps) : option allocMaps :=
  match l with
  | [] => Some m
  | alloc :: l =>
      if negb (bool_decide (ca_NodeName alloc ∈ nodes)) then keepAllocations pool nodes l m
      else
        errList ← CIDRPoolAllocation_Validate alloc pool;
        if bool_decide (errList ≠ []) then keepAllocations pool nodes l m
        else
          fullyExcluded ← isPrefixFullyExcluded (ca_Prefix alloc) pool;
          if fullyExcluded : bool then keepAllocations pool nodes l m
          else keepAllocations pool nodes l
                 (<[ca_NodeName alloc := alloc]> m.1, <[ca_Prefix alloc := alloc]> m.2)
  end.

Definition getValidExistingAllocationsMaps (pool : CIDRPool) (nodes : list string) :
    option allocMaps := keepAllocations pool nodes (cp_Status pool) (∅, ∅).

(** [None] of the inner option: no static allocation for the node. *)
Definition getStaticAllocationForNodeIfExist (node : string) (pool : CIDRPool)
    (staticAllocationsByNodeName : gmap string CIDRPoolStaticAllocation) :
    option (option CIDRPoolAllocation) :=
  match staticAllocationsByNodeName !! node with
  | None => Some None
  | Some staticAlloc =>
      gateway ←
        match GatewayIndex (cp_Spec pool) with
        | Some index =>
            if bool_decide (sa_Gateway staticAlloc = "") then
              '(_, nodeSubnet) ← ParseCIDR (sa_Prefix staticAlloc);
              Some (GetGatewayForSubnet nodeSubnet index)
            else Some (sa_Gateway staticAlloc)
        | None => Some (sa_Gateway staticAlloc)
        end;
      Some (Some (mkCIDRPoolAllocation (sa_NodeName staticAlloc) gateway (sa_Prefix staticAlloc)))
  end.

Section getNewAllocationForNode.
Context (ctxErr : Z → option error) (pool : CIDRPool)
  (allocByPrefix : gmap string CIDRPoolAllocation)
  (staticAllocByPrefix : gmap string CIDRPoolStaticAllocation)
  (mergedExclusions : list ExcludeRange).

(** One iteration on the iterator and the number of calls of [ctx.Err]: the loop
    ends with a prefix, with [nil], with an error, or with a panic. *)
Definition prefix_step (s : option SubnetIterator * Z) :
    (option SubnetIterator * Z) + option (result error (option IPNet) * option SubnetIterator) :=
  let '(it, k) := s in
  match ctxErr k with
  | Some err => inr (Some (Err err, it))
  | None =>
      match SubnetIterator_Next it with
      | (None, it) => inr (Some (Ok None, it))
      | (Some nodePrefix, it) =>
          let key := IPNet_String nodePrefix in
          if bool_decide (is_Some (allocByPrefix !! key)) then inl (it, k + 1)
          else if bool_decide (is_Some (staticAllocByPrefix !! key)) then inl (it, k + 1)
          else
            match isPrefixFullyExcluded key pool with
            | None => inr None
            | Some true =>
                match overlappingExclusionEnd nodePrefix mergedExclusions with
                | None => inr None
                | Some exclusionEnd =>
                    if is_nil exclusionEnd then inl (it, k + 1)
                    else
                      match SubnetIterator_AdvancePastIP it exclusionEnd with
                      | Err _ => inr (Some (Err "failed to skip excluded prefixes: %w", it))
                      | Ok it => inl (it, k + 1)
                      end
                end
            | Some false => inr (Some (Ok (Some nodePrefix), it))
            end
      end
  end.

Definition getNewAllocationForNode (subnetIterator : option SubnetIterator) (node : string)
    (perNodePrefixFullyExcluded : bool) :
    option (result prefix_error CIDRPoolAllocation * option SubnetIterator) :=
  match ctxErr 0 with
  | Some err => Some (Err (ErrPrefix err), subnetIterator)
  | None =>
      if perNodePrefixFullyExcluded then Some (Err errNoFreePrefixes, subnetIterator)
      else
        match loop prefix_step alloc_fuel (subnetIterator, 1) with
        | inl _ => None
        | inr None => None
        | inr (Some (Err err, it)) => Some (Err (ErrPrefix err), it)
        | inr (Some (Ok None, it)) => Some (Err errNoFreePrefixes, it)
        | inr (Some (Ok (Some nodePrefix), it)) =>
            let gateway :=
              match GatewayIndex (cp_Spec pool) with
              | Some index => GetGatewayForSubnet nodePrefix index
              | None => ""
              end in
            Some (Ok (mkCIDRPoolAllocation node gateway (IPNet_String nodePrefix)), it)
        end
  end.
End getNewAllocationForNode.

(** ** Reconcile *)

Inductive cidrpool_action :=
| UpdateCIDRPoolStatus (pool : CIDRPool)
| CIDRPoolEvent (reason msg : string).

Record CIDRPoolClient := mkCIDRPoolClient {
  cpc_get : get_result CIDRPool;
  cpc_nodes : result error (list Node);
  cpc_update : CIDRPool → option error;
}.

(** The loop over the nodes.  [ctxErr n] belongs to the [n]-th node. *)
Fixpoint allocatePrefixes (ctxErr : nat → Z → option error) (pool : CIDRPool)
    (statics : gmap string CIDRPoolStaticAllocation * gmap string CIDRPoolStaticAllocation)
    (mergedExclusions : list ExcludeRange) (perNodePrefixFullyExcluded : bool)
    (it : option SubnetIterator) (m : allocMaps) (nodes : list string) :
    option (list cidrpool_action * result error allocMaps) :=
  match nodes with
  | [] => Some ([], Ok m)
  | node :: nodes =>
      let continue it m :=
        allocatePrefixes (λ n, ctxErr (S n)) pool statics mergedExclusions
          perNodePrefixFullyExcluded it m nodes in
      if bool_decide (is_Some (m.1 !! node)) then continue it m
      else
        static ← getStaticAllocationForNodeIfExist node pool statics.1;
        match static with
        | Some nodeAlloc =>
            continue it (<[node := nodeAlloc]> m.1, <[ca_Prefix nodeAlloc := nodeAlloc]> m.2)
        | None =>
            '(r, it) ← getNewAllocationForNode (ctxErr O) pool m.2 statics.2 mergedExclusions it node
                         perNodePrefixFullyExcluded;
            match r with
            | Ok nodeAlloc =>
                continue it (<[node := nodeAlloc]> m.1, <[ca_Prefix nodeAlloc := nodeAlloc]> m.2)
            | Err errNoFreePrefixes =>
                '(evs, res) ← continue it m;
                Some (CIDRPoolEvent "NoFreePrefixes"
                        "failed to allocated prefix for Node: %s, no free prefixes" :: evs, res)
            | Err (ErrPrefix err) => Some ([], Err err)
            end
        end
  end.

Definition sortedAllocations (m : gmap string CIDRPoolAllocation) : list CIDRPoolAllocation :=
  sort_by (λ a b, str_less (ca_NodeName a) (ca_NodeName b)) (snd <$> map_to_list m).

Section reconcile.
Context `{K8sNames} `{NodeMatcher}.

Definition cidr_handleInvalidSpec (c : CIDRPoolClient) (pool : CIDRPool) :
    list cidrpool_action * option error :=
  let pool := cp_set_status pool [] in
  match cpc_update c pool with
  | Some err2 => ([UpdateCIDRPoolStatus pool], Some err2)
  | None => ([UpdateCIDRPoolStatus pool; CIDRPoolEvent "InvalidSpec" "errList.ToAggregate()"], None)
  end.

Definition getMatchingNodes (nodes : result error (list Node)) (nodeSelector : option NodeSelector) :
    result error (list string) :=
  rbind nodes (λ nodeList, Ok (sort_by str_less (matchingNodeNames nodeSelector nodeList))).

Definition CIDRPool_Reconcile (ctxErr : nat → Z → option error) (poolsNamespace : string)
    (c : CIDRPoolClient) (req : Request) : option (list cidrpool_action * option error) :=
  if negb (bool_decide (req_Namespace req = poolsNamespace)) then Some ([], None)
  else
    match cpc_get c with
    | NotFound => Some ([], None)
    | GetError err => Some ([], Some err)
    | Found pool =>
        if negb (bool_decide (CIDRPool_Validate pool = [])) then Some (cidr_handleInvalidSpec c pool)
        else
          match getMatchingNodes (cpc_nodes c) (cp_NodeSelector (cp_Spec pool)) with
          | Err err => Some ([], Some err)
          | Ok nodes =>
              let cidrNetwork := snd <$> ParseCIDR (CIDR (cp_Spec pool)) in
              m ← getValidExistingAllocationsMaps pool nodes;
              let statics := getStaticAllocationsMaps pool in
              match NewSubnetIterator cidrNetwork (PerNodeNetworkPrefix (cp_Spec pool)) with
              | Err _ => Some ([], Some "failed to create subnet iterator: %w")
              | Ok subnetIterator =>
                  let mergedExclusions := MergeExcludeRanges (cp_Exclusions (cp_Spec pool)) in
                  network ← cidrNetwork;
                  let perNodePrefixFullyExcluded :=
                    ExcludeIndexRangesCover (cp_PerNodeExclusions (cp_Spec pool))
                      (Some (lastUsableIndex network (PerNodeNetworkPrefix (cp_Spec pool)))) in
                  '(evs, res) ← allocatePrefixes ctxErr pool statics mergedExclusions
                                  perNodePrefixFullyExcluded (Some subnetIterator) m nodes;
                  match res with
                  | Err err => Some (evs, Some err)
                  | Ok m =>
                      let allocations := sortedAllocations m.1 in
                      if negb (cp_StatusNil pool) && bool_decide (cp_Status pool = allocations)
                      then Some (evs, None)
                      else
                        let pool := cp_set_status pool allocations in
                        Some (evs ++ [UpdateCIDRPoolStatus pool], cpc_update c pool)
                  end
              end
          end
    end.
End reconcile.

Definition cidr_client (pool : CIDRPool) (nodes : list Node) : CIDRPoolClient :=
  mkCIDRPoolClient (Found pool) (Ok nodes) (λ _, None).

Example cidr_reconcile_run :
  @CIDRPool_Reconcile nonempty_names exists_matcher never "ns"
    (cidr_client (cp_set_status example_cidrpool []) example_nodes) (mkRequest "ns" "pool2") =
  Some ([UpdateCIDRPoolStatus (cp_set_status example_cidrpool
    [mkCIDRPoolAllocation "master" "fd52:2eb5:44::101" "fd52:2eb5:44::100/120";
     mkCIDRPoolAllocation "node1" "fd52:2eb5:44::1" "fd52:2eb5:44::/120";
     mkCIDRPoolAllocation "node2" "fd52:2eb5:44::201" "fd52:2eb5:44::200/120";
     mkCIDRPoolAllocation "node3" "fd52:2eb5:44::301" "fd52:2eb5:44::300/120"])], None).
Proof. vm_compute. reflexivity. Qed.

(** A static prefix that is not in the form [IPNet.String] gives it, here with
    capital letters, is not recognised as taken: two nodes get one network. *)
Definition uppercase_pool : CIDRPool := {|
  cp_Name := "pool2"; cp_Namespace := "kube-system";
  cp_Spec := {| CIDR := "fd52::/48"; GatewayIndex := None; PerNodeNetworkPrefix := 120;
    cp_Exclusions := []; cp_PerNodeExclusions := [];
    StaticAllocations := [mkStaticAllocation "node1" "" "FD52::/120"];
    cp_NodeSelector := None; cp_DefaultGateway := false; cp_Routes := [] |};
  cp_Status := []; cp_StatusNil := true;
|}.

Example static_prefix_duplicated :
  @CIDRPool_Reconcile nonempty_names exists_matcher never "ns"
    (cidr_client uppercase_pool [mkNode "node1" []; mkNode "node2" []]) (mkRequest "ns" "pool2") =
  Some ([UpdateCIDRPoolStatus (cp_set_status uppercase_pool
    [mkCIDRPoolAllocation "node1" "" "FD52::/120"; mkCIDRPoolAllocation "node2" "" "fd52::/120"])], None) ∧
  (snd <$> ParseCIDR "FD52::/120") = (snd <$> ParseCIDR "fd52::/120").
Proof. split; vm_compute; reflexivity. Qed.

(** ** Prefixes of the pool *)

Lemma static_maps_spec l (m : gmap string CIDRPoolStaticAllocation * gmap string CIDRPoolStaticAllocation) :
  let r := foldl (λ m alloc, (<[sa_NodeName alloc := alloc]> m.1, <[sa_Prefix alloc := alloc]> m.2)) m l in
  (∀ n a, r.1 !! n = Some a → m.1 !! n = Some a ∨ a ∈ l ∧ sa_NodeName a = n) ∧
  (∀ s a, r.2 !! s = Some a → m.2 !! s = Some a ∨ a ∈ l ∧ sa_Prefix a = s) ∧
  (∀ s, is_Some (m.2 !! s) → is_Some (r.2 !! s)) ∧ (∀ a, a ∈ l → is_Some (r.2 !! sa_Prefix a)).
Proof.
  revert m. induction l as [|x l IH]; intros m r; simpl in r.
  { split_and!; [by left|by left|done|by intros ? ?%not_elem_of_nil]. }
  destruct (IH (<[sa_NodeName x:=x]> m.1, <[sa_Prefix x:=x]> m.2)) as (H1 & H2 & H3 & H4). fold r in H1, H2, H3, H4.
  assert (is_Some (r.2 !! sa_Prefix x)) as Hx by (apply H3; simpl; by rewrite lookup_insert_eq).
  split_and!.
  - intros n a [E|[? ?]]%H1; [|right; set_solver]. simpl in E.
    apply lookup_insert_Some in E as [[<- <-]|[_ E]]; [right; set_solver|by left].
  - intros n a [E|[? ?]]%H2; [|right; set_solver]. simpl in E.
    apply lookup_insert_Some in E as [[<- <-]|[_ E]]; [right; set_solver|by left].
  - intros s0 Hs0. apply H3. simpl. destruct (decide (s0 = sa_Prefix x)) as [->|];
      [by rewrite lookup_insert_eq|by rewrite lookup_insert_ne].
  - intros a [->|Ha]%elem_of_cons; [done|by apply H4].
Qed.


Section prefixes.
Context (f : family) (base ones : Z) (pool : CIDRPool).
Hypothesis Hok : cidrpool_ok f base ones pool.
Hypothesis Hnet : net_ok f base ones.

Abbreviation p := (PerNodeNetworkPrefix (cp_Spec pool)) (only parsing).

Lemma prefix_bounds : ones ≤ p ≤ fam_bits f.
Proof using Hok. apply (cp_prefix _ _ _ _ Hok). Qed.

(** The usable addresses of the prefix at [b] are all excluded. *)
Definition prefix_excluded (b : Z) : Prop :=
  ∀ z, b ≤ z ≤ last_addr f b p →
    excluded f (cp_Exclusions (cp_Spec pool)) z ∨ index_covered (cp_PerNodeExclusions (cp_Spec pool)) (z - b).

Lemma excl_ok : Forall (er_ok f) (cp_Exclusions (cp_Spec pool)).
Proof using Hok.
  eapply Forall_impl; [apply (cp_excl _ _ _ _ Hok)|]. intros r. apply er_in_net_ok.
Qed.

Lemma last_addr_range b : p ≤ fam_bits f → b ≤ last_addr f b p < b + net_size f p.
Proof using Hok.
  intros Hp. pose proof (net_size_pos f p Hp). unfold last_addr. destruct (_ && _) eqn:E; [|lia]. boolify.
  assert (2 ^ 2 ≤ net_size f p); [|lia]. apply Z.pow_le_mono_r; [lia|].
  replace (fam_bits f) with 32; [lia|]. by rewrite H0.
Qed.

Lemma isPrefixFullyExcluded_block s ip b :
  ParseCIDR s = Some (ip, net_of f b p) → block_of f base ones p b →
  ∃ v, isPrefixFullyExcluded s pool = Some v ∧ (v = true ↔ prefix_excluded b).
Proof using Hok.
  intros Hs [Hb Hin]. pose proof prefix_bounds as Hp. pose proof (last_addr_range b ltac:(lia)) as Hl.
  unfold isPrefixFullyExcluded. rewrite Hs. cbn [mbind option_bind]. rewrite LastIP_net by done.
  cbn [mbind option_bind net_of net_IP]. eexists. split; [done|].
  assert (∀ z, b ≤ z < b + net_size f p → addr_ok f z) as Hblk by (intros; by eapply net_ok_addr).
  pose proof (addr_of_ip_of _ _ (Hblk b ltac:(lia))) as As.
  pose proof (addr_of_ip_of _ _ (Hblk (last_addr f b p) ltac:(lia))) as Ae.
  rewrite (single_range_covers_spec f _ _ _ _ _ As Ae); [|lia|].
  - unfold prefix_excluded. setoid_rewrite excluded_app. split; intros HH z Hz; specialize (HH z Hz);
      pose proof (index_excluded_iff f (cp_PerNodeExclusions (cp_Spec pool)) _ b (net_size f p) (z - b)
        (ParseIP_String _ _ _ As) Hblk (cp_node_excl _ _ _ _ Hok)) as Hi;
      replace (b + (z - b)) with z in Hi by lia; by rewrite Hi in *.
  - apply er_ok_app; [apply excl_ok|].
    eapply index_ranges_er_ok; [by apply ParseIP_String|done|]. apply (cp_node_excl _ _ _ _ Hok).
Qed.

(** The end that [overlappingExclusionEnd] returns: everything between the last
    address of the prefix and that end is excluded. *)
Definition end_ok (b : Z) (e : IP) : Prop :=
  e = [] ∨ ∃ y, addr_of e = Some (f, y) ∧
    ∀ z, last_addr f b p < z ≤ y → excluded f (cp_Exclusions (cp_Spec pool)) z.

Lemma overlap_loop_ok b l first last furthest :
  addr_of first = Some (f, b) → addr_of last = Some (f, last_addr f b p) →
  (∀ r s e, r ∈ l → er_denotes f r s e → ∀ z, s ≤ z ≤ e → excluded f (cp_Exclusions (cp_Spec pool)) z) →
  Forall (er_ok f) l → end_ok b furthest → end_ok b (overlap_loop first last l furthest).
Proof.
  intros Hf Hl Hex Hwf. revert furthest. induction Hwf as [|r l (s & e & Hd) _ IH]; intros furthest Hfur; [done|].
  simpl. pose proof Hd as (Hs & He & _). rewrite (ParseIP_not_nil _ _ _ Hs), (ParseIP_not_nil _ _ _ He).
  cbn [orb]. assert (∀ furthest, end_ok b furthest → end_ok b (overlap_loop first last l furthest)) as IH'.
  { apply IH. intros r' s' e' Hr'. apply Hex. by right. }
  destruct (Cmp _ _ <? 0); [by apply IH'|]. rewrite (Cmp_gtb _ _ _ _ _ Hs Hl).
  destruct (Z.ltb_spec (last_addr f b p) s); [done|].
  destruct (is_nil furthest || _); apply IH'; [|done]. right. exists e. split; [done|].
  intros z Hz. apply (Hex r s e); [by left|done|lia].
Qed.

Lemma overlappingExclusionEnd_ok b :
  block_of f base ones p b →
  ∃ e, overlappingExclusionEnd (net_of f b p) (MergeExcludeRanges (cp_Exclusions (cp_Spec pool))) = Some e ∧
    end_ok b e.
Proof using Hok.
  intros [Hb Hin]. pose proof prefix_bounds as Hp. pose proof (last_addr_range b ltac:(lia)) as Hl.
  unfold overlappingExclusionEnd. rewrite LastIP_net by done. cbn [mbind option_bind net_of net_IP].
  eexists. split; [done|]. apply overlap_loop_ok.
  - apply addr_of_ip_of. eapply net_ok_addr; [done|lia].
  - apply addr_of_ip_of. eapply net_ok_addr; [done|lia].
  - intros r s e Hr Hd z Hz. apply (MergeExcludeRanges_excluded f _ z excl_ok). by exists r, s, e.
  - apply MergeExcludeRanges_er_ok, excl_ok.
  - by left.
Qed.

(** *** The search for a prefix *)

Section search.
Context (ctxErr : Z → option error) (m2 : gmap string CIDRPoolAllocation)
  (st2 : gmap string CIDRPoolStaticAllocation).

Definition prefix_key (j : Z) : string := IPNet_String (sub_net f base p j).

Definition free_prefix (j : Z) : Prop :=
  0 ≤ j < sub_count ones p ∧ m2 !! prefix_key j = None ∧ st2 !! prefix_key j = None ∧
  ¬ prefix_excluded (sub_base f base p j).

Definition cursor_inv (i0 i : Z) (it : option SubnetIterator) : Prop :=
  it = Some (iter_at f base ones p i) ∧ i0 ≤ i ≤ sub_count ones p ∧ ∀ j, i0 ≤ j < i → ¬ free_prefix j.

Definition psearch_inv (i0 : Z) (s : option SubnetIterator * Z) : Prop := ∃ i, cursor_inv i0 i s.1.

Definition psearch_done (i0 : Z) (r : option (result error (option IPNet) * option SubnetIterator)) : Prop :=
  match r with
  | None => False
  | Some (Err e, it) => ∃ k, ctxErr k = Some e
  | Some (Ok None, it) => cursor_inv i0 (sub_count ones p) it
  | Some (Ok (Some n), it) => ∃ j, n = sub_net f base p j ∧ i0 ≤ j ∧ free_prefix j ∧
      it = Some (iter_at f base ones p (j + 1)) ∧ ∀ j', i0 ≤ j' < j → ¬ free_prefix j'
  end.

Definition psearch_measure (s : option SubnetIterator * Z) : Z :=
  match s.1 with Some it => it_subnetCount it - it_nextIndex it | None => 0 end.

Lemma sub_block j : 0 ≤ j < sub_count ones p → block_of f base ones p (sub_base f base p j).
Proof using Hnet Hok.
  intros Hj. pose proof prefix_bounds as Hp. pose proof (sub_size f base ones p Hnet Hp) as Hs.
  pose proof (sub_size_pos f ones p Hp). split; [by apply (sub_net_ok f base ones p)|].
  rewrite Hs. unfold sub_base. nia.
Qed.

(** Skipping past an exclusion that ends at [y] skips excluded prefixes only. *)
Lemma skip_prefixes i0 i y :
  0 ≤ i0 ≤ i → i < sub_count ones p → ¬ free_prefix i → (∀ j, i0 ≤ j < i → ¬ free_prefix j) →
  (∀ z, last_addr f (sub_base f base p i) p < z ≤ y → excluded f (cp_Exclusions (cp_Spec pool)) z) →
  let i' := if y + 1 <? base then i + 1
            else Z.min (sub_count ones p) (Z.max (i + 1) ((y + 1 - base) / net_size f p)) in
  i < i' ≤ sub_count ones p ∧ ∀ j, i0 ≤ j < i' → ¬ free_prefix j.
Proof using Hok.
  intros Hi Hlt Hnf Hno Hex i'. pose proof prefix_bounds as Hp. pose proof (sub_size_pos f ones p Hp) as Hs.
  split; [subst i'; case_match; lia|]. intros j Hj Hf.
  destruct (decide (j < i)); [apply (Hno j); [lia|done]|]. destruct (decide (j = i)) as [->|]; [done|].
  destruct Hf as (_ & _ & _ & Hne). apply Hne. intros z Hz. left. apply Hex.
  pose proof (last_addr_range (sub_base f base p i) ltac:(lia)).
  pose proof (last_addr_range (sub_base f base p j) ltac:(lia)).
  assert (j < (y + 1 - base) / net_size f p) as Hj' by (subst i'; case_match; lia).
  pose proof (Z.mul_div_le (y + 1 - base) (net_size f p) Hs).
  assert ((j + 1) * net_size f p ≤ y + 1 - base) by nia.
  unfold sub_base in *. split; nia.
Qed.
Abbreviation step := (prefix_step ctxErr pool m2 st2
  (MergeExcludeRanges (cp_Exclusions (cp_Spec pool)))) (only parsing).

Lemma prefix_step_at i0 i k :
  0 ≤ i0 → cursor_inv i0 i (Some (iter_at f base ones p i)) →
  match step (Some (iter_at f base ones p i), k) with
  | inl (it, _) => ∃ i', i < i' ∧ cursor_inv i0 i' it
  | inr r => psearch_done i0 r
  end.
Proof using Hnet Hok.
  intros Hi0 (_ & Hi & Hno). pose proof prefix_bounds as Hp. cbn [prefix_step].
  destruct (ctxErr k) as [err|] eqn:Ek; [by exists k|].
  destruct (decide (i < sub_count ones p)) as [Hlt|Hge].
  2:{ rewrite Next_end by lia. assert (i = sub_count ones p) as -> by lia. split_and!; (done || lia). }
  rewrite (Next_at f base ones p Hnet Hp) by lia.
  pose proof (sub_block i ltac:(lia)) as Hb. fold (prefix_key i).
  assert (∀ i', i < i' ≤ sub_count ones p → ¬ free_prefix i → (∀ j, i < j < i' → ¬ free_prefix j) →
    cursor_inv i0 i' (Some (iter_at f base ones p i'))) as Hadv.
  { intros i' Hi' Hf Hj. split_and!; try done; try lia. intros j Hj'.
    destruct (decide (j < i)); [apply Hno; lia|]. destruct (decide (j = i)) as [->|]; [done|apply Hj; lia]. }
  assert (¬ free_prefix i → cursor_inv i0 (i + 1) (Some (iter_at f base ones p (i + 1)))) as Hnext.
  { intros Hf. apply Hadv; [lia|done|lia]. }
  case_bool_decide as Hm.
  { exists (i + 1). split; [lia|]. apply Hnext. intros (_ & E & _). rewrite E in Hm. by destruct Hm. }
  case_bool_decide as Hst.
  { exists (i + 1). split; [lia|]. apply Hnext. intros (_ & _ & E & _). rewrite E in Hst. by destruct Hst. }
  destruct (isPrefixFullyExcluded_block (prefix_key i) _ (sub_base f base p i)
    (ParseCIDR_String _ _ _ (proj1 Hb)) Hb) as (v & -> & Hv).
  destruct v.
  - assert (¬ free_prefix i) as Hf by (intros (_ & _ & _ & Hne); by apply Hne, Hv).
    destruct (overlappingExclusionEnd_ok _ Hb) as (e & Ee & He). unfold sub_net. rewrite Ee.
    destruct He as [->|(y & Hy & Hex)]; [exists (i + 1); split; [lia|by apply Hnext]|].
    unfold is_nil. rewrite bool_decide_false by (by eapply addr_of_not_nil).
    rewrite (AdvancePastIP_at f base ones p Hnet Hp (i + 1) e y) by (done || lia).
    destruct (skip_prefixes i0 i y ltac:(lia) Hlt Hf Hno Hex) as [Hi' Hno']. cbv zeta in *.
    eexists. split; [|split; [done|split; [|exact Hno']]]; lia.
  - exists i. split_and!; try done; [lia|]. split_and!; try done; [lia|..].
    + by destruct (m2 !! prefix_key i); [destruct Hm|].
    + by destruct (st2 !! prefix_key i); [destruct Hst|].
    + by rewrite <- Hv.
Qed.

Lemma prefix_step_spec i0 s :
  0 ≤ i0 → psearch_inv i0 s →
  match step s with
  | inl s' => psearch_inv i0 s' ∧ 0 ≤ psearch_measure s' < psearch_measure s
  | inr r => psearch_done i0 r
  end.
Proof using Hnet Hok.
  destruct s as [it k]. intros Hi0 [i Hc]. pose proof Hc as (E & _). simpl in E. subst it.
  pose proof (prefix_step_at i0 i k Hi0 Hc) as H. destruct (step _) as [[it' k']|r]; [|done].
  destruct H as (i' & Hlt & Hc'). pose proof Hc' as (E & ? & _). simpl in E. subst it'.
  split; [by exists i'|]. unfold psearch_measure. cbn [fst iter_at it_subnetCount it_nextIndex]. lia.
Qed.

Lemma psearch_total i0 it k :
  0 ≤ i0 → psearch_inv i0 (it, k) →
  ∃ r, loop step alloc_fuel (it, k) = inr r ∧ psearch_done i0 r.
Proof using Hnet Hok.
  intros Hi0 HI. pose proof prefix_bounds as Hp.
  destruct (loop_total step (psearch_inv i0) psearch_measure) with
    (p := alloc_fuel) (s := (it, k)) as [r Hr]; [|done| |].
  - intros x x' Hx Ex. pose proof (prefix_step_spec i0 x Hi0 Hx) as H. by rewrite Ex in H.
  - destruct HI as (i & E & ? & _). simpl in E. subst it.
    unfold psearch_measure. cbn [fst iter_at it_subnetCount it_nextIndex].
    assert (Z.pos alloc_fuel = 2 ^ 130) as -> by (vm_compute; reflexivity).
    pose proof (fam_bits_le f). destruct Hnet as (? & _).
    assert (sub_count ones p ≤ 2 ^ 128) by (apply Z.pow_le_mono_r; lia). lia.
  - exists r. split; [done|]. apply loop_exits in Hr.
    eapply (exits_inv _ (psearch_inv i0)); [| |exact HI|exact Hr].
    + intros x x' Hx Ex. pose proof (prefix_step_spec i0 x Hi0 Hx) as H. rewrite Ex in H. by destruct H.
    + intros x r' Hx Ex. pose proof (prefix_step_spec i0 x Hi0 Hx) as H. by rewrite Ex in H.
Qed.
End search.
(** *** The static allocations *)

Abbreviation statics := (getStaticAllocationsMaps pool) (only parsing).

Lemma static_by_node n a :
  statics.1 !! n = Some a → a ∈ StaticAllocations (cp_Spec pool) ∧ sa_NodeName a = n.
Proof.
  intros H. destruct (static_maps_spec (StaticAllocations (cp_Spec pool)) (∅, ∅)) as (H1 & _).
  destruct (H1 n a H) as [E|]; [|done]. cbn [fst] in E; by rewrite lookup_empty in E.
Qed.

Lemma static_by_prefix a : a ∈ StaticAllocations (cp_Spec pool) → is_Some (statics.2 !! sa_Prefix a).
Proof. apply (static_maps_spec (StaticAllocations (cp_Spec pool)) (∅, ∅)). Qed.

(** *** The maps of allocations *)

(** The text of a prefix is the one [IPNet.String] prints. *)
Definition canonical (s : string) : Prop := ∀ ip n, ParseCIDR s = Some (ip, n) → s = IPNet_String n.

Hypothesis Hst : Forall (λ a, canonical (sa_Prefix a)) (StaticAllocations (cp_Spec pool)).
Hypothesis Hstatus : Forall (λ a, canonical (ca_Prefix a)) (cp_Status pool).
Hypothesis Hsub : subnet_denotes (CIDR (cp_Spec pool)) f base ones.

Lemma block_index b : block_of f base ones p b → ∃ j, 0 ≤ j < sub_count ones p ∧ b = sub_base f base p j.
Proof using Hnet Hok.
  intros ((_ & _ & Hb & _) & H1 & H2). pose proof prefix_bounds as Hp.
  pose proof (sub_size f base ones p Hnet Hp) as Hs. pose proof (sub_size_pos f ones p Hp) as Hpos.
  assert (0 < sub_count ones p) by (apply Z.pow_pos_nonneg; lia).
  destruct Hnet as (_ & _ & Hbase & _). rewrite Hs in Hbase, H2.
  apply Z.mod_divide in Hb as [k Hk]; [|lia]. apply Z.mod_divide in Hbase as [k' Hk']; [|nia].
  exists (k - k' * sub_count ones p). unfold sub_base. split; nia.
Qed.

Lemma canonical_key s ip b :
  canonical s → ParseCIDR s = Some (ip, net_of f b p) → block_of f base ones p b →
  ∃ j, 0 ≤ j < sub_count ones p ∧ s = prefix_key j.
Proof using Hnet Hok.
  intros Hc Hs Hb. destruct (block_index b Hb) as (j & Hj & ->). exists j. split; [done|]. by apply (Hc ip).
Qed.

Lemma static_key a :
  a ∈ StaticAllocations (cp_Spec pool) → ∃ j, 0 ≤ j < sub_count ones p ∧ sa_Prefix a = prefix_key j.
Proof using Hnet Hok Hst.
  intros Ha. destruct (cp_static _ _ _ _ Hok) as (bs & HF & _).
  destruct (Forall2_elem_l _ _ _ _ HF Ha) as (b & _ & [ip Hp] & Hb & _).
  rewrite Forall_forall in Hst. eapply canonical_key; [by apply Hst|done|done].
Qed.

Lemma prefix_key_inj j j' :
  0 ≤ j < sub_count ones p → 0 ≤ j' < sub_count ones p → prefix_key j = prefix_key j' → j = j'.
Proof using Hnet Hok.
  intros Hj Hj' E. pose proof (sub_block j Hj) as [Hb _]. pose proof (sub_block j' Hj') as [Hb' _].
  pose proof (ParseCIDR_String _ _ _ Hb) as P. unfold prefix_key, sub_net in E. rewrite E in P.
  rewrite (ParseCIDR_String _ _ _ Hb') in P. injection P as _ E'.
  apply ip_of_inj in E' as [_ E']; [|by eapply net_ok_base..].
  pose proof (sub_size_pos f ones p prefix_bounds). unfold sub_base in E'. nia.
Qed.

Record maps_inv (m : allocMaps) : Prop := {
  mi_name : ∀ n a, m.1 !! n = Some a → ca_NodeName a = n;
  mi_block : ∀ n a, m.1 !! n = Some a → ∃ j, 0 ≤ j < sub_count ones p ∧ ca_Prefix a = prefix_key j;
  mi_prefix : ∀ n a, m.1 !! n = Some a → is_Some (m.2 !! ca_Prefix a);
  mi_exact : ∀ s, is_Some (m.2 !! s) → ∃ n a, m.1 !! n = Some a ∧ ca_Prefix a = s;
  mi_unique : ∀ n n' a a', m.1 !! n = Some a → m.1 !! n' = Some a' → ca_Prefix a = ca_Prefix a' → n = n';
  mi_static : ∀ n a s, m.1 !! n = Some a → s ∈ StaticAllocations (cp_Spec pool) →
    ca_Prefix a = sa_Prefix s → sa_NodeName s = n;
}.

Definition add_alloc (m : allocMaps) (a : CIDRPoolAllocation) : allocMaps :=
  (<[ca_NodeName a := a]> m.1, <[ca_Prefix a := a]> m.2).

(** Recording an allocation whose prefix no other node has; the node is new or
    had the same prefix. *)
Lemma add_alloc_inv m a j :
  maps_inv m → 0 ≤ j < sub_count ones p → ca_Prefix a = prefix_key j →
  (∀ a', m.1 !! ca_NodeName a = Some a' → ca_Prefix a' = ca_Prefix a) →
  (∀ n a', m.1 !! n = Some a' → ca_Prefix a' = ca_Prefix a → n = ca_NodeName a) →
  (∀ s, s ∈ StaticAllocations (cp_Spec pool) → ca_Prefix a = sa_Prefix s → sa_NodeName s = ca_NodeName a) →
  maps_inv (add_alloc m a).
Proof using.
  intros [H1 H2 H3 H4 H5 H6] Hj Hkey Hsame Hother Hstatic.
  assert (∀ s, is_Some (m.2 !! s) → is_Some (<[ca_Prefix a:=a]> m.2 !! s)) as Hmono.
  { intros s Hs. destruct (decide (s = ca_Prefix a)) as [->|]; [by rewrite lookup_insert_eq|by rewrite lookup_insert_ne]. }
  split; simpl.
  - intros n x [[<- <-]|[_ ?]]%lookup_insert_Some; auto.
  - intros n x [[<- <-]|[_ ?]]%lookup_insert_Some; eauto.
  - intros n x [[<- <-]|[_ ?]]%lookup_insert_Some; [by rewrite lookup_insert_eq|]. apply Hmono. eauto.
  - intros s [x [[<- <-]|[Hne Hx]]%lookup_insert_Some]; [exists (ca_NodeName a), a; by rewrite lookup_insert_eq|].
    destruct (H4 s ltac:(by eexists)) as (n & a' & Hn & E). exists n, a'.
    destruct (decide (n = ca_NodeName a)) as [->|]; [|by rewrite lookup_insert_ne].
    rewrite (Hsame a' Hn) in E. congruence.
  - intros n n' x x' [[<- <-]|[? Hn]]%lookup_insert_Some [[<- <-]|[? Hn']]%lookup_insert_Some E; [done| | |eauto].
    + by rewrite (Hother n' x' Hn').
    + by rewrite (Hother n x Hn).
  - intros n x s [[<- <-]|[? Hn]]%lookup_insert_Some; eauto.
Qed.
(** *** Keeping the valid allocations of the status *)

Definition kept (nodes : list string) (m : allocMaps) : Prop :=
  ∀ n a, m.1 !! n = Some a → a ∈ cp_Status pool ∧ n ∈ nodes ∧ CIDRPoolAllocation_Validate a pool = Some [] ∧
    isPrefixFullyExcluded (ca_Prefix a) pool = Some false.

Lemma keepAllocations_spec nodes l m :
  (∀ a, a ∈ l → a ∈ cp_Status pool) → maps_inv m → kept nodes m →
  ∃ m', keepAllocations pool nodes l m = Some m' ∧ maps_inv m' ∧ kept nodes m'.
Proof using Hnet Hok Hstatus Hsub.
  revert m. induction l as [|a l IH]; intros m Hl Hm Hk; simpl; [by exists m|].
  assert (∀ a', a' ∈ l → a' ∈ cp_Status pool) as Hl' by (intros; apply Hl; by right).
  case_bool_decide as Hn; cbn [negb]; [|by apply IH].
  destruct (accepted_total pool a f base ones Hsub) as [errs Ev]. rewrite Ev. cbn [mbind option_bind].
  case_bool_decide as He; [by apply IH|]. subst errs.
  destruct (accepted_block f base ones pool a Hsub Hok Ev) as [(ip & b & Hp & Hb) Hs].
  destruct (isPrefixFullyExcluded_block _ _ _ Hp Hb) as (v & Hv & _). rewrite Hv. cbn [mbind option_bind].
  destruct v; [by apply IH|]. pose proof (Hl a ltac:(by left)) as Ha.
  destruct (canonical_key (ca_Prefix a) ip b) as (j & Hj & Hkey); [by rewrite Forall_forall in Hstatus; apply Hstatus|done..|].
  fold (add_alloc m a). apply IH; [done| |].
  - apply (add_alloc_inv m a j); try done.
    + intros a' Ha'. destruct (Hk _ _ Ha') as (? & _ & ? & _).
      eapply (accepted_node_prefix f base ones pool a' a); try done. by apply (mi_name _ Hm).
    + intros n a' Hn' E. destruct (Hk _ _ Hn') as (? & _ & ? & _). rewrite <- (mi_name _ Hm n a' Hn').
      by eapply (accepted_prefix_owner f base ones pool a' a).
  - intros n x. cbn [add_alloc fst]. intros [[<- <-]|[_ Hx]]%lookup_insert_Some; [done|by apply Hk].
Qed.

(** *** The loop over the nodes *)

Definition all_excluded (b : bool) : Prop :=
  b = true → ∀ j, 0 ≤ j < sub_count ones p → prefix_excluded (sub_base f base p j).

(** No matching node is without a prefix while one is free. *)
Definition prefix_served (nodes : list string) (m : allocMaps) : Prop :=
  ∀ n, n ∈ nodes → m.1 !! n = None → ∀ j, ¬ free_prefix m.2 statics.2 j.

Lemma free_prefix_mono m m' st j :
  (∀ s, is_Some (m !! s) → is_Some (m' !! s)) → free_prefix m' st j → free_prefix m st j.
Proof.
  intros Hsub' (? & Hn & ? & ?). split_and!; try done; try lia.
  destruct (m !! prefix_key j) eqn:E; [|done]. destruct (Hsub' (prefix_key j)) as [? E']; [by eexists|congruence].
Qed.

Lemma insert_is_Some {A} (m : gmap string A) k x s : is_Some (m !! s) → is_Some (<[k:=x]> m !! s).
Proof. intros Hs. destruct (decide (s = k)) as [->|]; [by rewrite lookup_insert_eq|by rewrite lookup_insert_ne]. Qed.

Lemma getNew_spec m2 st2 ex i node :
  all_excluded ex → 0 ≤ i → cursor_inv m2 st2 0 i (Some (iter_at f base ones p i)) →
  ∃ r it i', getNewAllocationForNode (λ _, None) pool m2 st2
      (MergeExcludeRanges (cp_Exclusions (cp_Spec pool))) (Some (iter_at f base ones p i)) node ex = Some (r, it) ∧
    it = Some (iter_at f base ones p i') ∧ 0 ≤ i' ≤ sub_count ones p ∧
    match r with
    | Ok a => ∃ j, free_prefix m2 st2 j ∧ i' = j + 1 ∧ ca_NodeName a = node ∧ ca_Prefix a = prefix_key j ∧
        ca_Gateway a = match GatewayIndex (cp_Spec pool) with
          | Some index => GetGatewayForSubnet (sub_net f base p j) index | None => "" end ∧
        ∀ j', 0 ≤ j' < j → ¬ free_prefix m2 st2 j'
    | Err e => e = errNoFreePrefixes ∧ (∀ j, ¬ free_prefix m2 st2 j) ∧ ∀ j', 0 ≤ j' < i' → ¬ free_prefix m2 st2 j'
    end.
Proof using Hnet Hok.
  intros Hex Hi Hc. unfold getNewAllocationForNode. pose proof Hc as (_ & Hib & Hbefore).
  destruct ex.
  { eexists _, _, i. split; [done|]. split; [done|]. split; [lia|]. split; [done|]. split; [|done].
    intros j (Hj & _ & _ & Hne). by apply Hne, Hex. }
  destruct (psearch_total (λ _, None) m2 st2 i (Some (iter_at f base ones p i)) 1) as (r & -> & Hr); [done| |].
  { exists i. split_and!; (done || lia). }
  destruct r as [[[[n|]|e] it]|]; simpl in Hr; [..|by destruct Hr|done].
  - destruct Hr as (j & -> & Hj & Hf & -> & Hno). eexists _, _, (j + 1). split; [done|]. split; [done|].
    split; [destruct Hf; lia|]. exists j. split_and!; try done.
    intros j' Hj'. destruct (decide (j' < i)); [apply Hbefore; lia|apply Hno; lia].
  - destruct Hr as (-> & _ & Hno). eexists _, _, (sub_count ones p). split; [done|]. split; [done|].
    assert (∀ j, ¬ free_prefix m2 st2 j) as Hall.
    { intros j Hf. pose proof Hf as ((? & ?) & _).
      destruct (decide (j < i)); [apply (Hbefore j); [lia|done]|apply (Hno j); [lia|done]]. }
    split; [lia|]. split; [done|]. split; [done|]. intros; apply Hall.
Qed.

Lemma getStatic_spec node :
  (∃ a, getStaticAllocationForNodeIfExist node pool statics.1 = Some (Some a) ∧ ca_NodeName a = node ∧
     ∃ s, s ∈ StaticAllocations (cp_Spec pool) ∧ sa_NodeName s = node ∧ ca_Prefix a = sa_Prefix s) ∨
  getStaticAllocationForNodeIfExist node pool statics.1 = Some None.
Proof using Hnet Hok.
  unfold getStaticAllocationForNodeIfExist. destruct (statics.1 !! node) as [s|] eqn:E; [|by right].
  destruct (static_by_node _ _ E) as [Hs Hn]. left.
  destruct (cp_static _ _ _ _ Hok) as (bs & HF & _).
  destruct (Forall2_elem_l _ _ _ _ HF Hs) as (b & _ & [ip Hp] & _). rewrite Hp.
  destruct (GatewayIndex (cp_Spec pool)); [case_bool_decide|]; eexists; (split; [done|]);
    (split; [done|]); exists s; done.
Qed.
(** The allocation [a] of the node [n] is the static one, or a free prefix. *)
Definition made (m : allocMaps) (n : string) (a : CIDRPoolAllocation) : Prop :=
  getStaticAllocationForNodeIfExist n pool statics.1 = Some (Some a) ∨
  getStaticAllocationForNodeIfExist n pool statics.1 = Some None ∧
  ∃ j, free_prefix m.2 statics.2 j ∧ ca_Prefix a = prefix_key j ∧
    ca_Gateway a = match GatewayIndex (cp_Spec pool) with
      | Some index => GetGatewayForSubnet (sub_net f base p j) index | None => "" end.

(** What the loop achieves for [nodes] from [m]. *)
Record outcome (m : allocMaps) (nodes : list string) (m' : allocMaps) : Prop := {
  oc_inv : maps_inv m';
  oc_sub : m.1 ⊆ m'.1;
  oc_mono : ∀ s, is_Some (m.2 !! s) → is_Some (m'.2 !! s);
  oc_dom : ∀ n, is_Some (m'.1 !! n) → is_Some (m.1 !! n) ∨ n ∈ nodes;
  oc_served : prefix_served nodes m';
  oc_new : ∀ n a, m'.1 !! n = Some a → m.1 !! n = Some a ∨ made m n a;
  oc_static : ∀ n, n ∈ nodes → m'.1 !! n = None → getStaticAllocationForNodeIfExist n pool statics.1 = Some None;
}.

Lemma made_mono m m' n a : (∀ s, is_Some (m.2 !! s) → is_Some (m'.2 !! s)) → made m' n a → made m n a.
Proof.
  intros Hmono [Hs|(Hs & j & Hf & Hj)]; [by left|right]. split; [done|]. exists j. split; [|done]. by eapply free_prefix_mono.
Qed.

Lemma outcome_skip m node nodes m' :
  outcome m nodes m' → (m'.1 !! node = None → ∀ j, ¬ free_prefix m'.2 statics.2 j) →
  (m'.1 !! node = None → getStaticAllocationForNodeIfExist node pool statics.1 = Some None) →
  outcome m (node :: nodes) m'.
Proof.
  intros [] Hn Hst'. split; try done.
  - intros n Hn'. destruct (oc_dom0 n Hn'); [by left|right; by right].
  - intros n [->|Hn']%elem_of_cons; [done|by apply oc_served0].
  - intros n [->|Hn']%elem_of_cons; [done|by apply oc_static0].
Qed.

Lemma outcome_add m a nodes m' :
  m.1 !! ca_NodeName a = None → made m (ca_NodeName a) a → outcome (add_alloc m a) nodes m' →
  outcome m (ca_NodeName a :: nodes) m'.
Proof.
  intros Hnew Hmade [Hinv Hsub' Hmono Hdom Hsv Hnw Hstc].
  assert (m'.1 !! ca_NodeName a = Some a) as Ha by (eapply (lookup_weaken (add_alloc m a).1); [apply lookup_insert_eq|done]).
  split; [done| | | | | |].
  - etrans; [|exact Hsub']. by apply insert_subseteq.
  - intros s Hs. by apply Hmono, insert_is_Some.
  - intros n Hn. destruct (Hdom n Hn) as [[x Hx]|?]; [|right; by right]. simpl in Hx.
    apply lookup_insert_Some in Hx as [[<- _]|[_ Hx]]; [right; by left|left; by eexists].
  - intros n [->|Hn]%elem_of_cons Hnone; [congruence|exact (Hsv n Hn Hnone)].
  - intros n x Hx. destruct (Hnw n x Hx) as [Hl|Hl].
    + simpl in Hl. apply lookup_insert_Some in Hl as [[<- <-]|[_ Hl]]; [by right|by left].
    + right. eapply made_mono; [|exact Hl]. intros s. apply insert_is_Some.
  - intros n [->|Hn]%elem_of_cons Hnone; [congruence|by apply Hstc].
Qed.

Lemma add_static_inv m a s :
  maps_inv m → m.1 !! ca_NodeName a = None → s ∈ StaticAllocations (cp_Spec pool) →
  sa_NodeName s = ca_NodeName a → ca_Prefix a = sa_Prefix s → maps_inv (add_alloc m a).
Proof using Hnet Hok Hst.
  intros Hm Hnew Hs Hn Hp. destruct (static_key s Hs) as (j & Hj & Hkey).
  apply (add_alloc_inv m a j); try done; [congruence|by rewrite Hnew| |].
  - intros n a' Hn' E. rewrite <- Hn. symmetry. apply (mi_static _ Hm n a' s Hn' Hs). congruence.
  - intros s' Hs' E. rewrite <- Hn. f_equal. eapply static_prefix_unique; [done..|congruence].
Qed.

Lemma add_new_inv m a j :
  maps_inv m → m.1 !! ca_NodeName a = None → free_prefix m.2 statics.2 j → ca_Prefix a = prefix_key j →
  maps_inv (add_alloc m a).
Proof.
  intros Hm Hnew (Hj & Hm2 & Hs2 & _) Hkey. apply (add_alloc_inv m a j); try done; [by rewrite Hnew| |].
  - intros n a' Hn E. destruct (mi_prefix _ Hm n a' Hn) as [x Hx]. rewrite E, Hkey in Hx. congruence.
  - intros s Hs E. destruct (static_by_prefix s Hs) as [x Hx]. rewrite <- E, Hkey in Hx. congruence.
Qed.

Lemma allocatePrefixes_spec nodes m i ex :
  maps_inv m → all_excluded ex → cursor_inv m.2 statics.2 0 i (Some (iter_at f base ones p i)) →
  ∃ evs m', allocatePrefixes (λ _ _, None) pool statics
      (MergeExcludeRanges (cp_Exclusions (cp_Spec pool))) ex (Some (iter_at f base ones p i)) m nodes =
      Some (evs, Ok m') ∧
    outcome m nodes m' ∧ Forall (λ a, ∀ q, a ≠ UpdateCIDRPoolStatus q) evs.
Proof using Hnet Hok Hst.
  revert m i. induction nodes as [|node nodes IH]; intros m i Hm Hex Hc; cbn [allocatePrefixes].
  { exists [], m. split; [done|]. split; [|constructor].
    split; try done; [by left|by intros ? ?%not_elem_of_nil|by left|by intros ? ?%not_elem_of_nil]. }
  pose proof Hc as (_ & Hi & Hno).
  assert (∀ a, ∀ j, 0 ≤ j < i → ¬ free_prefix (add_alloc m a).2 statics.2 j) as Hno'.
  { intros a j Hj Hf. apply (Hno j Hj). eapply free_prefix_mono; [|exact Hf]. intros. by apply insert_is_Some. }
  case_bool_decide as Hexist.
  { destruct (IH m i Hm Hex Hc) as (evs & m' & E & Ho & Hev). exists evs, m'. split_and!; try done.
    destruct Hexist as [a Ha]. apply outcome_skip; [done|..]; by rewrite (lookup_weaken _ _ _ _ Ha (oc_sub _ _ _ Ho)). }
  assert (m.1 !! node = None) as Hnew by (destruct (m.1 !! node); [by destruct Hexist|done]).
  destruct (getStatic_spec node) as [(a & Hgs & <- & s & Hs & Hsn & Hsp)|Hgs]; rewrite Hgs; cbn [mbind option_bind].
  { destruct (IH (add_alloc m a) i) as (evs & m' & E & Ho & Hev); [by eapply add_static_inv|done|by split; [|split; [|apply Hno']]|].
    exists evs, m'. split; [done|]. split; [apply outcome_add; [done|by left|done]|done]. }
  destruct (getNew_spec m.2 statics.2 ex i node Hex ltac:(lia) Hc) as (r & it & i' & -> & -> & Hi' & Hr).
  cbn [mbind option_bind]. destruct r as [a|e].
  - destruct Hr as (j & Hf & -> & <- & Hkey & Hgw & Hmin).
    destruct (IH (add_alloc m a) (j + 1)) as (evs & m' & E & Ho & Hev); [by eapply add_new_inv|done| |].
    2:{ exists evs, m'. split; [done|]. split; [|done]. apply outcome_add; [done| |done]. right. split; [done|]. by exists j. }
    split_and!; try done; try lia. intros j' Hj' Hf'. destruct (decide (j' = j)) as [->|].
    + destruct Hf' as (_ & Hx & _). unfold add_alloc in Hx. simpl in Hx. by rewrite Hkey, lookup_insert_eq in Hx.
    + apply (Hmin j'); [lia|]. eapply free_prefix_mono; [|exact Hf']. intros. by apply insert_is_Some.
  - destruct Hr as (-> & Hnone & Hbefore).
    destruct (IH m i' Hm Hex) as (evs & m' & -> & Ho & Hev); [by split; [|split]|]. cbn [mbind option_bind].
    eexists _, m'. split; [done|]. split; [|by constructor]. apply outcome_skip; [done| |done].
    intros _ j Hf. apply (Hnone j). eapply free_prefix_mono; [apply (oc_mono _ _ _ Ho)|done].
Qed.
End prefixes.

Lemma lastUsableIndex_net f base ones p b :
  net_ok f base ones → p ≤ fam_bits f →
  lastUsableIndex (net_of f base ones) p = last_addr f b p - b.
Proof.
  intros Hnet Hp. pose proof Hnet as (Ho & _). unfold lastUsableIndex. cbn [net_of net_Mask net_IP].
  rewrite Mask_Size_mask, big_Exp2_nonneg, is_nil_To4_ip_of by (done || lia || by eapply net_ok_base).
  fold (net_size f p). unfold last_addr. destruct f; simpl.
  - destruct (Z.ltb_spec 1 (32 - p)), (Z.ltb_spec p 31); lia.
  - lia.
Qed.

Lemma sortedAllocations_elem m a : a ∈ sortedAllocations m ↔ ∃ n, m !! n = Some a.
Proof.
  unfold sortedAllocations. rewrite sort_by_perm, list_elem_of_fmap. split.
  - intros ([n x] & -> & Hx%elem_of_map_to_list). by exists n.
  - intros [n Hn]. exists (n, a). split; [done|by apply elem_of_map_to_list].
Qed.

Section properties.
Context `{K8sNames} `{NodeMatcher}.

Definition cidr_names (pool : CIDRPool) (nodes : list Node) : list string :=
  sort_by str_less (matchingNodeNames (cp_NodeSelector (cp_Spec pool)) nodes).

(** Prefixes are written the way the controller itself writes them. *)
Definition canonical_pool (pool : CIDRPool) : Prop :=
  Forall (λ a, canonical (sa_Prefix a)) (StaticAllocations (cp_Spec pool)) ∧
  Forall (λ a, canonical (ca_Prefix a)) (cp_Status pool).

(** What a reconciliation computes: the entries that are kept, and the result of the loop. *)
Lemma cidr_reconcile_parts f base ones pool nodes ns name :
  subnet_denotes (CIDR (cp_Spec pool)) f base ones →
  Forall int32_range (cp_PerNodeExclusions (cp_Spec pool)) → CIDRPool_Validate pool = [] →
  canonical_pool pool →
  ∃ evs m0 m, let status := sortedAllocations m.1 in
    CIDRPool_Reconcile never ns (cidr_client pool nodes) (mkRequest ns name) =
      Some (if negb (cp_StatusNil pool) && bool_decide (cp_Status pool = status) then evs
            else evs ++ [UpdateCIDRPoolStatus (cp_set_status pool status)], None) ∧
    Forall (λ a, ∀ q, a ≠ UpdateCIDRPoolStatus q) evs ∧
    getValidExistingAllocationsMaps pool (cidr_names pool nodes) = Some m0 ∧ maps_inv f base ones pool m0 ∧
    kept pool (cidr_names pool nodes) m0 ∧ outcome f base ones pool m0 (cidr_names pool nodes) m.
Proof.
  intros Hs H32 HV [Hc1 Hc2]. pose proof (CIDRPool_Validate_ok f base ones pool Hs H32 HV) as Hok.
  pose proof Hs as [[ip Hcidr] Hnet]. pose proof (cp_prefix _ _ _ _ Hok) as [Hp _].
  unfold CIDRPool_Reconcile, never. cbn [req_Namespace cidr_client cpc_get cpc_nodes cpc_update].
  rewrite bool_decide_true, HV by done. cbn [negb]. rewrite bool_decide_true by done.
  cbn [negb getMatchingNodes rbind]. fold (cidr_names pool nodes). set (names := cidr_names pool nodes).
  destruct (keepAllocations_spec f base ones pool Hok Hnet Hc2 Hs names (cp_Status pool) (∅, ∅))
    as (m0 & E0 & Hm0 & Hk0); [done|split; simpl; intros *; rewrite lookup_empty; try done; by intros [? ?]
      |intros n a; simpl; by rewrite lookup_empty|].
  unfold getValidExistingAllocationsMaps. rewrite E0, Hcidr. cbn [mbind option_bind fmap option_fmap option_map snd].
  rewrite (NewSubnetIterator_net f base ones _ Hnet Hp). cbn [mbind option_bind].
  destruct (allocatePrefixes_spec f base ones pool Hok Hnet Hc1 names m0 0
    (ExcludeIndexRangesCover (cp_PerNodeExclusions (cp_Spec pool))
       (Some (lastUsableIndex (net_of f base ones) (PerNodeNetworkPrefix (cp_Spec pool))))) Hm0)
    as (evs & m & -> & Hout & Hev).
  { intros Hcov j _ z Hz. right. apply ExcludeIndexRangesCover_sound in Hcov as [_ Hcov]. apply Hcov.
    rewrite (lastUsableIndex_net f base ones _ (sub_base f base (PerNodeNetworkPrefix (cp_Spec pool)) j)) by (done || lia).
    lia. }
  { split_and!; [done|done|apply Z.pow_nonneg; lia|lia]. }
  cbn [mbind option_bind]. exists evs, m0, m. cbv zeta. split; [by destruct (_ && _)|]. done.
Qed.

Lemma cidr_reconcile_spec f base ones pool nodes ns name :
  subnet_denotes (CIDR (cp_Spec pool)) f base ones →
  Forall int32_range (cp_PerNodeExclusions (cp_Spec pool)) → CIDRPool_Validate pool = [] →
  canonical_pool pool →
  ∃ evs m, let status := sortedAllocations m.1 in
    CIDRPool_Reconcile never ns (cidr_client pool nodes) (mkRequest ns name) =
      Some (if negb (cp_StatusNil pool) && bool_decide (cp_Status pool = status) then evs
            else evs ++ [UpdateCIDRPoolStatus (cp_set_status pool status)], None) ∧
    Forall (λ a, ∀ q, a ≠ UpdateCIDRPoolStatus q) evs ∧
    maps_inv f base ones pool m ∧ prefix_served f base ones pool (cidr_names pool nodes) m ∧
    (∀ n, is_Some (m.1 !! n) → n ∈ cidr_names pool nodes).
Proof.
  intros Hs H32 HV Hc.
  destruct (cidr_reconcile_parts f base ones pool nodes ns name Hs H32 HV Hc) as (evs & m0 & m & HR & Hev & _ & _ & Hk & [Hinv _ _ Hdom Hsv _ _]).
  exists evs, m. cbv zeta. split_and!; try done. intros n Hn. destruct (Hdom n Hn) as [[a Ha]|]; [|done]. by apply (Hk n a).
Qed.

(** The networks of the entries: each is a prefix of the pool, for one of the [names],
    and two nodes share no address. *)
Definition entries_disjoint (f : family) (base ones : Z) (pool : CIDRPool) (names : list string)
    (status : list CIDRPoolAllocation) : Prop :=
  let p := PerNodeNetworkPrefix (cp_Spec pool) in
  (∀ a, a ∈ status → ca_NodeName a ∈ names ∧
     ∃ ip b, ParseCIDR (ca_Prefix a) = Some (ip, net_of f b p) ∧ block_of f base ones p b) ∧
  ∀ a a', a ∈ status → a' ∈ status → ca_NodeName a ≠ ca_NodeName a' →
    ∃ ip ip' b b', ParseCIDR (ca_Prefix a) = Some (ip, net_of f b p) ∧
      ParseCIDR (ca_Prefix a') = Some (ip', net_of f b' p) ∧
      ∀ x, ¬ (b ≤ x < b + net_size f p ∧ b' ≤ x < b' + net_size f p).

(** A name without an entry: no prefix of the pool is left. *)
Definition entries_complete (f : family) (base ones : Z) (pool : CIDRPool) (names : list string)
    (status : list CIDRPoolAllocation) : Prop :=
  ∀ n, n ∈ names → n ∉ map ca_NodeName status →
    ∀ j, 0 ≤ j < sub_count ones (PerNodeNetworkPrefix (cp_Spec pool)) →
      prefix_key f base pool j ∈ map ca_Prefix status ∨
      prefix_key f base pool j ∈ map sa_Prefix (StaticAllocations (cp_Spec pool)) ∨
      prefix_excluded f pool (sub_base f base (PerNodeNetworkPrefix (cp_Spec pool)) j).

Section entries.
Context (f : family) (base ones : Z) (pool : CIDRPool) (names : list string) (m : allocMaps).
Hypothesis Hok : cidrpool_ok f base ones pool.
Hypothesis Hnet : net_ok f base ones.
Hypothesis Hinv : maps_inv f base ones pool m.

Lemma maps_disjoint : (∀ n, is_Some (m.1 !! n) → n ∈ names) → entries_disjoint f base ones pool names (sortedAllocations m.1).
Proof using Hok Hnet Hinv.
  intros Hdom. unfold entries_disjoint. set (p := PerNodeNetworkPrefix (cp_Spec pool)). cbv zeta. pose proof (cp_prefix _ _ _ _ Hok) as [Hp _]. fold p in Hp.
  assert (∀ n a, m.1 !! n = Some a → ∃ j, 0 ≤ j < sub_count ones p ∧
    ParseCIDR (ca_Prefix a) = Some (To16 (ip_of f (sub_base f base p j)), net_of f (sub_base f base p j) p) ∧
    block_of f base ones p (sub_base f base p j)) as Hblk.
  { intros n a Hn. destruct (mi_block _ _ _ _ _ Hinv n a Hn) as (j & Hj & ->).
    pose proof (sub_block f base ones pool Hok Hnet j Hj) as Hb. exists j. split; [done|].
    split; [apply ParseCIDR_String, Hb|done]. }
  split.
  - intros a [n Hn]%sortedAllocations_elem. rewrite (mi_name _ _ _ _ _ Hinv n a Hn).
    split; [apply Hdom; by eexists|]. destruct (Hblk n a Hn) as (j & _ & ? & ?). eauto.
  - intros a a' [n Hn]%sortedAllocations_elem [n' Hn']%sortedAllocations_elem Hne.
    destruct (Hblk n a Hn) as (j & Hj & E & B), (Hblk n' a' Hn') as (j' & Hj' & E' & B').
    eexists _, _, _, _. split; [exact E|]. split; [exact E'|]. intros x.
    apply (block_of_disjoint f base ones p); [lia|done|done|]. intros Eb. apply Hne.
    rewrite (mi_name _ _ _ _ _ Hinv n a Hn), (mi_name _ _ _ _ _ Hinv n' a' Hn').
    apply (mi_unique _ _ _ _ _ Hinv n n' a a' Hn Hn').
    destruct (mi_block _ _ _ _ _ Hinv n a Hn) as (i & Hi & Ka).
    destruct (mi_block _ _ _ _ _ Hinv n' a' Hn') as (i' & Hi' & Ka').
    rewrite Ka, Ka' in *. f_equal.
    assert (∀ i b, 0 ≤ i < sub_count ones p → ParseCIDR (prefix_key f base pool i) = Some (To16 (ip_of f b), net_of f b p) →
      net_ok f b p → sub_base f base p i = b) as Hinj.
    { intros i0 b0 Hi0 E0 Hb0. pose proof (sub_block f base ones pool Hok Hnet i0 Hi0) as [Hb1 _].
      unfold prefix_key, sub_net in E0. rewrite (ParseCIDR_String _ _ _ Hb1) in E0. injection E0 as _ E0.
      apply ip_of_inj in E0 as [_ ?]; [done|by eapply net_ok_base..]. }
    pose proof (Hinj i _ Hi E (proj1 B)) as E1. pose proof (Hinj i' _ Hi' E' (proj1 B')) as E2.
    rewrite Eb, <- E2 in E1. unfold sub_base in E1. pose proof (sub_size_pos f ones p Hp). nia.
Qed.

Lemma maps_complete : prefix_served f base ones pool names m → entries_complete f base ones pool names (sortedAllocations m.1).
Proof using Hok Hnet Hinv.
  intros Hsv n Hn Hno j Hj.
  assert (m.1 !! n = None) as Hnone.
  { destruct (m.1 !! n) as [a|] eqn:E; [|done]. exfalso. apply Hno, list_elem_of_fmap. exists a.
    split; [by rewrite (mi_name _ _ _ _ _ Hinv n a E)|]. apply sortedAllocations_elem. by exists n. }
  destruct (m.2 !! prefix_key f base pool j) as [x|] eqn:Em.
  { left. destruct (mi_exact _ _ _ _ _ Hinv (prefix_key f base pool j)) as (n' & a & Ha & E); [by eexists|].
    apply list_elem_of_fmap. exists a. split; [done|]. apply sortedAllocations_elem. by exists n'. }
  right. destruct ((getStaticAllocationsMaps pool).2 !! prefix_key f base pool j) as [x|] eqn:Est.
  { left. destruct (static_maps_spec (StaticAllocations (cp_Spec pool)) (∅, ∅)) as (_ & H2 & _).
    destruct (H2 _ _ Est) as [E|[Hx E]]; [cbn [snd] in E; by rewrite lookup_empty in E|].
    apply list_elem_of_fmap. by exists x. }
  right. pose proof (sub_block f base ones pool Hok Hnet j Hj) as Hb.
  destruct (isPrefixFullyExcluded_block f base ones pool Hok (prefix_key f base pool j) _ _
    (ParseCIDR_String _ _ _ (proj1 Hb)) Hb) as (v & _ & Hv).
  destruct v; [by apply Hv|]. exfalso. apply (Hsv n Hn Hnone j). split_and!; try done; try lia.
  by rewrite <- Hv.
Qed.
End entries.

(** C12: A reconciliation of a valid CIDRPool whose static and published prefixes
    are written canonically gives every node its own network: each entry is for a
    matching node and has a prefix of the pool, and the networks of two entries of
    different nodes have no address in common.  The condition is needed: see
    [static_prefix_duplicated]. *)
Theorem cidr_prefixes_disjoint f base ones pool nodes ns name :
  subnet_denotes (CIDR (cp_Spec pool)) f base ones →
  Forall int32_range (cp_PerNodeExclusions (cp_Spec pool)) → CIDRPool_Validate pool = [] →
  canonical_pool pool →
  let p := PerNodeNetworkPrefix (cp_Spec pool) in
  ∃ evs status,
    CIDRPool_Reconcile never ns (cidr_client pool nodes) (mkRequest ns name) =
      Some (if negb (cp_StatusNil pool) && bool_decide (cp_Status pool = status) then evs
            else evs ++ [UpdateCIDRPoolStatus (cp_set_status pool status)], None) ∧
    (∀ a, a ∈ status → ca_NodeName a ∈ cidr_names pool nodes ∧
       ∃ ip b, ParseCIDR (ca_Prefix a) = Some (ip, net_of f b p) ∧ block_of f base ones p b) ∧
    ∀ a a', a ∈ status → a' ∈ status → ca_NodeName a ≠ ca_NodeName a' →
      ∃ ip ip' b b', ParseCIDR (ca_Prefix a) = Some (ip, net_of f b p) ∧
        ParseCIDR (ca_Prefix a') = Some (ip', net_of f b' p) ∧
        ∀ x, ¬ (b ≤ x < b + net_size f p ∧ b' ≤ x < b' + net_size f p).
Proof.
  intros Hs H32 HV Hc p. pose proof (CIDRPool_Validate_ok f base ones pool Hs H32 HV) as Hok. pose proof Hs as [_ Hnet].
  destruct (cidr_reconcile_spec f base ones pool nodes ns name Hs H32 HV Hc) as (evs & m & HR & _ & Hinv & _ & Hdom).
  exists evs, (sortedAllocations m.1). split; [done|]. by apply (maps_disjoint f base ones pool).
Qed.

(** No node is left out without need: a matching node has no entry only if
    every prefix of the pool is in the status, reserved by a static allocation,
    or has all its usable addresses excluded. *)
Theorem cidr_reconcile_complete f base ones pool nodes ns name :
  subnet_denotes (CIDR (cp_Spec pool)) f base ones →
  Forall int32_range (cp_PerNodeExclusions (cp_Spec pool)) → CIDRPool_Validate pool = [] →
  canonical_pool pool →
  ∃ evs status,
    CIDRPool_Reconcile never ns (cidr_client pool nodes) (mkRequest ns name) =
      Some (if negb (cp_StatusNil pool) && bool_decide (cp_Status pool = status) then evs
            else evs ++ [UpdateCIDRPoolStatus (cp_set_status pool status)], None) ∧
    ∀ n, n ∈ cidr_names pool nodes → n ∉ map ca_NodeName status →
      ∀ j, 0 ≤ j < sub_count ones (PerNodeNetworkPrefix (cp_Spec pool)) →
        prefix_key f base pool j ∈ map ca_Prefix status ∨
        prefix_key f base pool j ∈ map sa_Prefix (StaticAllocations (cp_Spec pool)) ∨
        prefix_excluded f pool (sub_base f base (PerNodeNetworkPrefix (cp_Spec pool)) j).
Proof.
  intros Hs H32 HV Hc. pose proof (CIDRPool_Validate_ok f base ones pool Hs H32 HV) as Hok. pose proof Hs as [_ Hnet].
  destruct (cidr_reconcile_spec f base ones pool nodes ns name Hs H32 HV Hc) as (evs & m & HR & _ & Hinv & Hsv & _).
  exists evs, (sortedAllocations m.1). split; [done|]. by apply (maps_complete f base ones pool).
Qed.
End properties.

Definition canonicalb (s : string) : bool :=
  match ParseCIDR s with Some (_, n) => bool_decide (s = IPNet_String n) | None => true end.

Lemma canonicalb_ok {A} (key : A → string) l :
  forallb (λ a, canonicalb (key a)) l = true → Forall (λ a, canonical (key a)) l.
Proof.
  induction l as [|x l IH]; simpl; [constructor|]. intros [Hx Hl]%andb_true_iff.
  constructor; [|by apply IH]. intros ip n E. unfold canonicalb in Hx. rewrite E in Hx. by boolify.
Qed.

Lemma example_canonical : canonical_pool example_cidrpool.
Proof. split; apply canonicalb_ok; vm_compute; reflexivity. Qed.

Lemma cidr_prefixes_disjoint_witness :
  ∃ evs status,
    @CIDRPool_Reconcile nonempty_names exists_matcher never "ns" (cidr_client example_cidrpool example_nodes)
      (mkRequest "ns" "pool2") =
      Some (if bool_decide (cp_Status example_cidrpool = status) then evs
            else evs ++ [UpdateCIDRPoolStatus (cp_set_status example_cidrpool status)], None) ∧
    ∀ a a', a ∈ status → a' ∈ status → ca_NodeName a ≠ ca_NodeName a' →
      ∃ ip ip' b b', ParseCIDR (ca_Prefix a) = Some (ip, net_of F6 b 120) ∧
        ParseCIDR (ca_Prefix a') = Some (ip', net_of F6 b' 120) ∧
        ∀ x, ¬ (b ≤ x < b + net_size F6 120 ∧ b' ≤ x < b' + net_size F6 120).
Proof.
  destruct (@cidr_prefixes_disjoint nonempty_names exists_matcher F6 (0xfd522eb50044 * 2 ^ 80) 48
    example_cidrpool example_nodes "ns" "pool2" example_cidrpool_subnet) as (evs & status & E & _ & Hd).
  - repeat constructor; by vm_compute.
  - vm_compute; reflexivity.
  - exact example_canonical.
  - exists evs, status. split; [exact E|exact Hd].
Defined.

Lemma cidr_reconcile_complete_witness :
  ∃ evs status,
    @CIDRPool_Reconcile nonempty_names exists_matcher never "ns" (cidr_client example_cidrpool example_nodes)
      (mkRequest "ns" "pool2") =
      Some (if bool_decide (cp_Status example_cidrpool = status) then evs
            else evs ++ [UpdateCIDRPoolStatus (cp_set_status example_cidrpool status)], None).
Proof.
  destruct (@cidr_reconcile_complete nonempty_names exists_matcher F6 (0xfd522eb50044 * 2 ^ 80) 48
    example_cidrpool example_nodes "ns" "pool2" example_cidrpool_subnet) as (evs & status & E & _).
  - repeat constructor; by vm_compute.
  - vm_compute; reflexivity.
  - exact example_canonical.
  - exists evs, status. exact E.
Defined.
