(* ===== verification/CIDRStable.v ===== *)
(** * A second reconciliation of a CIDRPool

    The status a reconciliation computes is accepted entirely by the next one: its
    entries are valid and do not conflict, and what was not free stays so.  Hence
    the controller of CIDRPools comes to rest like that of IPPools. *)

From S2P Require Import Prelude GoNet Cidr GoNetText ApiTypes Exclusions Validate CtrlAllocator CtrlIPPool CtrlCIDRPool.

(** Different positions of a list without duplicates have different keys. *)
Lemma NoDup_filter_key {A} (key : A → string) l x y :
  NoDup (filter (λ n, n ≠ "") (map key l)) → x ∈ l → y ∈ l → key x = key y → key x ≠ "" → x = y.
Proof.
  induction l as [|z l IH]; [by intros _ ?%not_elem_of_nil|]. csimpl. intros Hnd Hx Hy E Hne.
  assert (∀ w, w ∈ l → key w = key z → key z ≠ "" → False) as Hz.
  { intros w Hw Ew Hnz. rewrite filter_cons_True in Hnd by done. apply NoDup_cons in Hnd as [Hn _]. apply Hn.
    apply list_elem_of_filter. split; [done|]. rewrite <- Ew. by apply list_elem_of_fmap_2. }
  assert (NoDup (filter (λ n, n ≠ "") (map key l))) as Hnd'.
  { destruct (decide (key z ≠ "")); [rewrite filter_cons_True in Hnd by done; by apply NoDup_cons in Hnd as [_ ?]|].
    by rewrite filter_cons_False in Hnd. }
  apply elem_of_cons in Hx as [->|Hx], Hy as [->|Hy]; [done|..].
  - exfalso. by apply (Hz y).
  - exfalso. apply (Hz x); [done..|congruence].
  - by apply IH.
Qed.

(** The map by node has every node of the list. *)
Lemma static_map_nodes l (m : gmap string CIDRPoolStaticAllocation * gmap string CIDRPoolStaticAllocation) n :
  (foldl (λ m alloc, (<[sa_NodeName alloc := alloc]> m.1, <[sa_Prefix alloc := alloc]> m.2)) m l).1 !! n = None →
  m.1 !! n = None ∧ ∀ s, s ∈ l → sa_NodeName s ≠ n.
Proof.
  revert m. induction l as [|x l IH]; intros m; simpl; [intros E; split; [done|by intros ? ?%not_elem_of_nil]|].
  intros [E Hl]%IH. simpl in E. apply lookup_insert_None in E as [E Hne]. split; [done|].
  intros s [->|Hs]%elem_of_cons; [done|by apply Hl].
Qed.

(** An entry that is accepted by the entry of its node. *)
Lemma checkStatic_gateway a gw l :
  checkStatic a gw l = inl [] →
  ∃ s, s ∈ l ∧ sa_NodeName s = ca_NodeName a ∧ ca_Prefix a = sa_Prefix s ∧
    ca_Gateway a = if bool_decide (sa_Gateway s = "") then gw else sa_Gateway s.
Proof.
  induction l as [|s l IH]; [done|]. simpl. case_bool_decide as Hn.
  - intros [= H]. rewrite !app_nil, !errIf_nil in H. destruct H as (Hp & Hg & Hrest). exists s.
    split; [apply list_elem_of_here|]. split; [done|]. apply bool_decide_eq_false in Hp, Hg.
    split; [by apply dec_stable|]. case_bool_decide as He.
    + rewrite app_nil, !errIf_nil in Hrest. destruct Hrest as [H1%bool_decide_eq_false H2%bool_decide_eq_false].
      destruct (decide (gw = "")) as [->|]; [|apply dec_stable; tauto]. apply dec_stable. tauto.
    + apply dec_stable. tauto.
  - case_bool_decide; [done|]. intros (s' & ? & ?)%IH. exists s'. split; [by right|done].
Qed.

(** At most one entry of a list without duplicates conflicts. *)
Lemma checkConflicts_ok a l :
  NoDup l → (∀ e, e ∈ l → alloc_conflict a e = true → e = a) → checkConflicts a false l = [].
Proof.
  intros Hnd Hl.
  assert (∀ k, a ∉ k → (∀ e, e ∈ k → alloc_conflict a e = true → e = a) → checkConflicts a true k = []) as Hk.
  { induction k as [|x k IH]; intros Ha Hx; [done|]. simpl. destruct (alloc_conflict a x) eqn:E.
    - exfalso. apply Ha. rewrite <- (Hx x (list_elem_of_here _ _) E). apply list_elem_of_here.
    - apply IH; [set_solver|]. intros e He. apply Hx. by right. }
  induction Hnd as [|x l Hx Hnd IH]; [done|]. simpl. destruct (alloc_conflict a x) eqn:E.
  - rewrite (Hl x (list_elem_of_here _ _) E) in Hx. apply Hk; [done|]. intros e He. apply Hl. by right.
  - apply IH. intros e He. apply Hl. by right.
Qed.

Section stable.
Context (f : family) (base ones : Z) (pool : CIDRPool).
Hypothesis Hok : cidrpool_ok f base ones pool.
Hypothesis Hsub : subnet_denotes (CIDR (cp_Spec pool)) f base ones.
Hypothesis Hst : Forall (λ a, canonical (sa_Prefix a)) (StaticAllocations (cp_Spec pool)).

Abbreviation p := (PerNodeNetworkPrefix (cp_Spec pool)).
Abbreviation statics := (StaticAllocations (cp_Spec pool)).
Abbreviation key := (prefix_key f base pool).
Abbreviation start := (sub_base f base p).

(** The gateway of the prefix with index [j], as it is computed. *)
Definition gateway_of (j : Z) : string :=
  match GatewayIndex (cp_Spec pool) with Some i => GetGatewayForSubnet (sub_net f base p j) i | None => "" end.

(** What an entry can be: the static one of its node, or a prefix that no static
    allocation concerns. *)
Definition entry_static (s : CIDRPoolStaticAllocation) (j : Z) (a : CIDRPoolAllocation) : Prop :=
  s ∈ statics ∧ sa_NodeName s = ca_NodeName a ∧ ca_Prefix a = sa_Prefix s ∧ sa_Prefix s = key j ∧
  ca_Gateway a = if bool_decide (sa_Gateway s = "") then gateway_of j else sa_Gateway s.

Definition entry_dynamic (j : Z) (a : CIDRPoolAllocation) : Prop :=
  (∀ s, s ∈ statics → ca_NodeName a ≠ sa_NodeName s ∧ ca_Prefix a ≠ sa_Prefix s) ∧
  ca_Prefix a = key j ∧ ca_Gateway a = gateway_of j ∧ ¬ prefix_excluded f pool (start j).

Definition entry_is (j : Z) (a : CIDRPoolAllocation) : Prop :=
  0 ≤ j < sub_count ones p ∧ ca_NodeName a ≠ "" ∧ ((∃ s, entry_static s j a) ∨ entry_dynamic j a).

Lemma key_block j : 0 ≤ j < sub_count ones p → block_of f base ones p (start j).
Proof using Hok Hsub. intros. by apply (sub_block f base ones pool Hok (proj2 Hsub)). Qed.

Lemma key_parse j :
  0 ≤ j < sub_count ones p → ParseCIDR (key j) = Some (To16 (ip_of f (start j)), net_of f (start j) p).
Proof using Hok Hsub. intros Hj. apply ParseCIDR_String, (key_block j Hj). Qed.

(** The static allocation of a node is unique. *)
Lemma static_node_unique s s' :
  s ∈ statics → s' ∈ statics → sa_NodeName s = sa_NodeName s' → sa_NodeName s ≠ "" → s = s'.
Proof using Hok. apply NoDup_filter_key, (cp_static_nodes _ _ _ _ Hok). Qed.

Lemma static_index s : s ∈ statics → ∃ j, 0 ≤ j < sub_count ones p ∧ sa_Prefix s = key j.
Proof using Hok Hsub Hst. apply (static_key f base ones pool Hok (proj2 Hsub) Hst). Qed.

Lemma key_inj j j' : 0 ≤ j < sub_count ones p → 0 ≤ j' < sub_count ones p → key j = key j' → j = j'.
Proof using Hok Hsub. apply (prefix_key_inj f base ones pool Hok (proj2 Hsub)). Qed.

(** *** Where entries come from *)

Lemma getStatic_static n a :
  getStaticAllocationForNodeIfExist n pool (getStaticAllocationsMaps pool).1 = Some (Some a) →
  ca_NodeName a = n ∧ ∃ s j, 0 ≤ j < sub_count ones p ∧ entry_static s j a.
Proof using Hok Hsub Hst.
  intros E. unfold getStaticAllocationForNodeIfExist in E.
  destruct ((getStaticAllocationsMaps pool).1 !! n) as [s|] eqn:El; [|done].
  destruct (static_by_node pool n s El) as [Hs Hn]. destruct (static_index s Hs) as (j & Hj & Hk).
  rewrite Hk, (key_parse j Hj) in E. apply bind_Some in E as (gw & Hgw & E). injection E as <-. simpl. split; [done|].
  exists s, j. split; [done|]. split_and!; try done. simpl.
  unfold gateway_of. destruct (GatewayIndex (cp_Spec pool)) as [i|].
  - case_bool_decide; by injection Hgw as <-.
  - injection Hgw as <-. by case_bool_decide.
Qed.

(** The entry of a node with a static allocation is determined by it. *)
Lemma static_entry_eq s j j' a b :
  0 ≤ j < sub_count ones p → entry_static s j a → entry_is j' b → ca_NodeName b = ca_NodeName a → b = a.
Proof using Hok Hsub.
  intros Hj (Hs & Hn & Hp & Hk & Hg) (Hj' & Hne & Hcase) En.
  destruct Hcase as [(s' & Hs' & Hn' & Hp' & Hk' & Hg')|(Hno & _)]; [|destruct (Hno s Hs); congruence].
  assert (s' = s) as -> by (apply static_node_unique; [done|done|congruence|congruence]).
  assert (j' = j) as -> by (apply key_inj; congruence). destruct a, b. simpl in *. congruence.
Qed.

Lemma getStatic_none n :
  getStaticAllocationForNodeIfExist n pool (getStaticAllocationsMaps pool).1 = Some None →
  ∀ s, s ∈ statics → sa_NodeName s ≠ n.
Proof.
  intros E. unfold getStaticAllocationForNodeIfExist in E.
  destruct ((getStaticAllocationsMaps pool).1 !! n) as [s|] eqn:El; [|by apply static_map_nodes in El as [_ ?]].
  apply bind_Some in E as (gw & _ & [=]).
Qed.

Lemma made_entry m n a :
  n ≠ "" → ca_NodeName a = n → made f base ones pool m n a → ∃ j, entry_is j a.
Proof using Hok Hsub Hst.
  intros Hne Hn [Hs|(Hs & j & (Hj & _ & Hs2 & Hx) & Hk & Hgw)].
  { destruct (getStatic_static n a Hs) as (_ & s & j & Hj & Hsa). exists j. split; [done|]. split; [congruence|]. left. by exists s. }
  exists j. split; [done|]. split; [congruence|]. right. split_and!; try done.
  intros s Hin. split; [rewrite Hn; apply not_eq_sym; by eapply getStatic_none|]. rewrite Hk. intros E.
  destruct (static_by_prefix pool s Hin) as [x Hx']. congruence.
Qed.

Lemma kept_entry a :
  canonical (ca_Prefix a) → CIDRPoolAllocation_Validate a pool = Some [] → isPrefixFullyExcluded (ca_Prefix a) pool = Some false →
  ∃ j, entry_is j a.
Proof using Hok Hsub Hst.
  intros Hc Hv Hx. destruct (accepted_block f base ones pool a Hsub Hok Hv) as [(ip & b & Hp & Hb) _].
  destruct (canonical_key f base ones pool Hok (proj2 Hsub) _ ip b Hc Hp Hb) as (j & Hj & Hk).
  destruct (isPrefixFullyExcluded_block f base ones pool Hok _ ip b Hp Hb) as (v & Hv' & Hexcl).
  rewrite Hx in Hv'. injection Hv' as <-.
  assert (b = start j) as ->.
  { rewrite Hk, (key_parse j Hj) in Hp. injection Hp as _ Hp. symmetry.
    by apply ip_of_inj in Hp as [_ ?]; [|eapply net_ok_base, key_block|eapply net_ok_base, Hb]. }
  exists j. split; [done|]. unfold CIDRPoolAllocation_Validate in Hv. rewrite Hp in Hv.
  destruct (bool_decide (_ ≠ [])) eqn:He; [injection Hv as Hv; by rewrite Hv in He|].
  apply bool_decide_eq_false, dec_stable, app_nil in He as [He _]. rewrite errIf_nil in He. apply bool_decide_eq_false in He.
  split; [done|]. destruct (negb _); [done|]. fold (sub_net f base p j) in Hv. fold (gateway_of j) in Hv.
  destruct (checkStatic _ _ _) as [errs|[]] eqn:Es.
  - injection Hv as ->. left. destruct (checkStatic_gateway _ _ _ Es) as (s & Hs & Hn & Hps & Hg). exists s.
    split_and!; try done. congruence.
  - right. split; [by eapply checkStatic_inr|]. split; [done|]. split; [|by intros ?%Hexcl].
    destruct (ParseCIDR (CIDR _)) as [[? cidr]|]; [|done]. destruct (Mask_Size _), (Mask_Size _).
    destruct (negb _); [done|]. destruct (negb _); [done|]. destruct (negb _); [done|].
    destruct (bool_decide (gateway_of j ≠ "" ∧ _)) eqn:G1; [done|]. destruct (bool_decide (gateway_of j = "" ∧ _)) eqn:G2; [done|].
    apply bool_decide_eq_false in G1, G2. apply dec_stable. intros Hng.
    destruct (decide (gateway_of j = "")); [apply G2|apply G1]; split; congruence.
Qed.

(** *** Entries do not conflict *)

Lemma gateway_in j a :
  entry_is j a → ca_Gateway a ≠ "" →
  ∃ x, addr_of (ParseIP (ca_Gateway a)) = Some (f, x) ∧ start j ≤ x < start j + net_size f p.
Proof using Hok Hsub.
  intros (Hj & _ & Hcase). destruct (key_block j Hj) as [Hnb Hb].
  assert (gateway_of j ≠ "" → ∃ x, addr_of (ParseIP (gateway_of j)) = Some (f, x) ∧ start j ≤ x < start j + net_size f p) as Hgw.
  { unfold gateway_of. destruct (GatewayIndex (cp_Spec pool)) as [i|]; [|done]. unfold sub_net.
    rewrite GetGatewayForSubnet_net by done. destruct (decide (host_index f p i)) as [Hh|]; [|done]. intros _.
    exists (start j + i). unfold host_index in Hh.
    assert (0 ≤ i < net_size f p) by (destruct (bool_decide _); [lia|destruct f; lia]). split; [|lia].
    apply ParseIP_addr_string. eapply net_ok_addr; [done|lia]. }
  destruct Hcase as [(s & Hs & _ & _ & Hk & ->)|(_ & _ & -> & _)]; [|done]. case_bool_decide as He; [done|]. intros _.
  destruct (cp_static _ _ _ _ Hok) as (bs & HF & _). destruct (Forall2_elem_l _ _ _ _ HF Hs) as (b & _ & [ip Hp] & Hb' & [?|[x Hx]]); [done|].
  rewrite Hk, (key_parse j Hj) in Hp. injection Hp as _ Hp.
  apply ip_of_inj in Hp as [_ <-]; [|by eapply net_ok_base|eapply net_ok_base, Hb']. by exists x.
Qed.

Lemma entry_prefix j a : entry_is j a → ca_Prefix a = key j.
Proof. intros (_ & _ & [(s & _ & _ & -> & ? & _)|(_ & ? & _)]); done. Qed.

(** Two entries that conflict are for one node or one prefix. *)
Lemma conflict_prefix j j' a e :
  entry_is j a → entry_is j' e → alloc_conflict a e = true → ca_Prefix a = ca_Prefix e ∨ ca_NodeName a = ca_NodeName e.
Proof using Hok Hsub.
  intros Ha He Hc. unfold alloc_conflict in Hc. apply orb_true_iff in Hc as [Hc|Hn]; [|right; by boolify].
  apply orb_true_iff in Hc as [Hc|Hn]; [|left; by boolify]. apply bool_decide_eq_true in Hc as [Hne Hg]. left.
  destruct (gateway_in j a Ha Hne) as (x & Hx & Hxb). destruct (gateway_in j' e He ltac:(congruence)) as (y & Hy & Hyb).
  rewrite Hg, Hy in Hx. injection Hx as <-. rewrite (entry_prefix j a Ha), (entry_prefix j' e He). f_equal.
  destruct Ha as [Hj _], He as [Hj' _]. destruct (decide (start j = start j')) as [E|Hd].
  - pose proof (sub_size_pos f ones p (proj1 (cp_prefix _ _ _ _ Hok))). unfold sub_base in E. nia.
  - exfalso. apply (block_of_disjoint f base ones p (start j) (start j') y); try done; [|by apply key_block..].
    apply (cp_prefix _ _ _ _ Hok).
Qed.

(** *** Entries are accepted *)

Lemma checkStatic_static s j a :
  entry_static s j a → ca_NodeName a ≠ "" → checkStatic a (gateway_of j) statics = inl [].
Proof using Hok.
  intros (Hs & Hn & Hp & Hk & Hg) Hne.
  assert (∀ l, (∀ x, x ∈ l → x ∈ statics) → s ∈ l → checkStatic a (gateway_of j) l = inl []) as Hl; [|by apply Hl].
  induction l as [|x l IH]; intros Hsub' Hin; [by apply not_elem_of_nil in Hin|]. simpl.
  pose proof (Hsub' x (list_elem_of_here _ _)) as Hx. destruct (bool_decide_reflect (ca_NodeName a = sa_NodeName x)) as [Hxn|Hxn].
  - assert (x = s) as -> by (apply static_node_unique; [done|done|congruence|by rewrite <- Hxn]).
    rewrite (bool_decide_false (_ ≠ _)) by (intros H; by apply H). f_equal. rewrite Hg. destruct (bool_decide_reflect (sa_Gateway s = "")) as [He|He]; simpl.
    + rewrite bool_decide_false by tauto. simpl. by rewrite !bool_decide_false by naive_solver.
    + rewrite bool_decide_false by naive_solver. done.
  - destruct (bool_decide_reflect (ca_Prefix a = sa_Prefix x)) as [Hxp|Hxp].
    + exfalso. apply Hxn. rewrite <- Hn. f_equal. symmetry. eapply static_prefix_unique; [done..|congruence].
    + apply IH; [intros; apply Hsub'; by right|]. apply elem_of_cons in Hin as [->|]; [congruence|done].
Qed.

Lemma checkStatic_dynamic a gw l :
  (∀ s, s ∈ l → ca_NodeName a ≠ sa_NodeName s ∧ ca_Prefix a ≠ sa_Prefix s) → checkStatic a gw l = inr ().
Proof.
  induction l as [|s l IH]; intros Hl; [done|]. simpl. destruct (Hl s (list_elem_of_here _ _)).
  rewrite !bool_decide_false by done. apply IH. intros. apply Hl. by right.
Qed.

Lemma entry_validates j a l :
  entry_is j a → NoDup l → (∀ e, e ∈ l → alloc_conflict a e = true → e = a) →
  CIDRPoolAllocation_Validate a (cp_set_status pool l) = Some [].
Proof using Hok Hsub.
  intros He Hnd Hl. pose proof He as (Hj & Hne & Hcase). pose proof (entry_prefix j a He) as Hk.
  destruct (key_block j Hj) as [Hnb (Hb1 & Hb2)]. pose proof (net_ok_base _ _ _ Hnb) as Hab.
  unfold CIDRPoolAllocation_Validate. rewrite Hk, (key_parse j Hj).
  rewrite (bool_decide_false (ca_NodeName a = "")) by done.
  rewrite (bool_decide_false (key j = "")) by (intros E; pose proof (key_parse j Hj) as H; by rewrite E in H).
  cbn [errIf app]. rewrite bool_decide_false by (intros H; by apply H). cbn [net_of net_IP].
  rewrite (IP_Equal_addr _ _ _ _ _ _ (addr_of_To16_ip_of _ _ Hab) (addr_of_ip_of _ _ Hab)), bool_decide_true by done. cbn [negb].
  fold (net_of f (start j) p). fold (sub_net f base p j). cbn [cp_set_status cp_Spec]. fold (gateway_of j).
  destruct Hcase as [(s & Hs)|(Hns & _ & Hg & _)]; [by rewrite (checkStatic_static s j a)|].
  rewrite checkStatic_dynamic by done. destruct Hsub as [[ip Hc] Hnet]. rewrite Hc.
  pose proof (cp_prefix _ _ _ _ Hok) as [Hp _]. pose proof Hnet as (Ho & _). pose proof (net_size_pos f p ltac:(lia)).
  cbn [sub_net net_of net_Mask net_IP]. rewrite !Mask_Size_mask by lia.
  fold (net_of f base ones). rewrite (Contains_net_of _ _ _ _ _ _ Hnet (addr_of_ip_of _ _ Hab)), bool_decide_true by (split; [done|lia]).
  rewrite !Z.eqb_refl. cbn [negb].
  rewrite (bool_decide_false (gateway_of j ≠ "" ∧ _)) by (intros [_ H']; by apply H').
  rewrite (bool_decide_false (gateway_of j = "" ∧ _)) by (intros [E H']; apply H'; congruence). f_equal. cbn [cp_Status]. by apply checkConflicts_ok.
Qed.

(** *** The second pass *)

Lemma keep_complete pl nodes l m m' :
  keepAllocations pl nodes l m = Some m' → NoDup (map ca_NodeName l) →
  (∀ a, a ∈ l → ca_NodeName a ∈ nodes ∧ CIDRPoolAllocation_Validate a pl = Some []) →
  (∀ a, a ∈ l → isPrefixFullyExcluded (ca_Prefix a) pl = Some false → m'.1 !! ca_NodeName a = Some a) ∧
  (∀ n, n ∉ map ca_NodeName l → m'.1 !! n = m.1 !! n).
Proof.
  revert m. induction l as [|a l IH]; intros m E Hnd Hl; [injection E as <-; split; [by intros ? ?%not_elem_of_nil|done]|].
  simpl in Hnd. apply NoDup_cons in Hnd as [Hn Hnd]. destruct (Hl a (list_elem_of_here _ _)) as [Hin Hv]. simpl in E.
  rewrite bool_decide_true, Hv in E by done. cbn [negb mbind option_bind] in E. rewrite bool_decide_false in E by (intros H; by apply H).
  apply bind_Some in E as (x & Hx & E).
  assert (keepAllocations pl nodes l (if x then m else (<[ca_NodeName a:=a]> m.1, <[ca_Prefix a:=a]> m.2)) = Some m') as E'
    by (by destruct x). clear E. destruct (IH _ E' Hnd ltac:(intros; apply Hl; by right)) as [IH1 IH2]. split.
  - intros b [->|Hb]%elem_of_cons Hxb; [|by apply IH1]. rewrite Hx in Hxb. injection Hxb as ->.
    rewrite IH2 by done. simpl. by rewrite lookup_insert_eq.
  - intros n [Hna Hnl]%not_elem_of_cons. rewrite IH2 by done. destruct x; [done|]. simpl. by rewrite lookup_insert_ne.
Qed.

Section second.
Context (names : list string) (m0 m : allocMaps).
Hypothesis Hout : outcome f base ones pool m0 names m.
Hypothesis Hdom : ∀ n, is_Some (m.1 !! n) → n ∈ names.
Hypothesis Hent : ∀ n a, m.1 !! n = Some a → ∃ j, entry_is j a.
Hypothesis Hne : ∀ n, n ∈ names → n ≠ "".

Abbreviation status := (sortedAllocations m.1).
Abbreviation pool' := (cp_set_status pool status).

Lemma status_elem a : a ∈ status ↔ m.1 !! ca_NodeName a = Some a.
Proof using Hout.
  pose proof (oc_inv _ _ _ _ _ _ _ Hout) as Hinv. rewrite sortedAllocations_elem. split; [|by eexists].
  intros [n Hn]. by rewrite (mi_name _ _ _ _ _ Hinv n a Hn).
Qed.

Lemma status_names : NoDup (map ca_NodeName status).
Proof using Hout.
  pose proof (oc_inv _ _ _ _ _ _ _ Hout) as Hinv. unfold sortedAllocations. rewrite sort_by_perm.
  assert (map ca_NodeName (snd <$> map_to_list m.1) = fst <$> map_to_list m.1) as ->.
  { rewrite List.map_map. apply map_ext_in. intros [n a] Hin%list_elem_of_In%elem_of_map_to_list. simpl.
    by apply (mi_name _ _ _ _ _ Hinv). }
  apply NoDup_fst_map_to_list.
Qed.

Lemma status_validates a : a ∈ status → ca_NodeName a ∈ names ∧ CIDRPoolAllocation_Validate a pool' = Some [].
Proof using Hout Hdom Hent Hok Hsub.
  intros Ha. pose proof (proj1 (status_elem a) Ha) as Hl. split; [apply Hdom; by eexists|].
  destruct (Hent _ _ Hl) as [j Hj]. apply (entry_validates j a); [done|eapply NoDup_fmap_1, status_names|].
  intros e He%status_elem Hc. destruct (Hent _ _ He) as [j' Hj'].
  pose proof (oc_inv _ _ _ _ _ _ _ Hout) as Hinv.
  assert (ca_NodeName a = ca_NodeName e) as En; [|congruence].
  destruct (conflict_prefix j j' a e Hj Hj' Hc) as [E|]; [|done]. by eapply (mi_unique _ _ _ _ _ Hinv).
Qed.

(** An entry that is not kept is static and excluded. *)
Lemma kept_or_static (m0' : allocMaps) :
  (∀ a, a ∈ status → isPrefixFullyExcluded (ca_Prefix a) pool' = Some false → m0'.1 !! ca_NodeName a = Some a) →
  ∀ n a j, m.1 !! n = Some a → entry_is j a →
  m0'.1 !! n = Some a ∨ prefix_excluded f pool (start j) ∧ ∃ s, entry_static s j a.
Proof using Hout Hok Hsub.
  intros Hfull n a j Hn Hj. pose proof (oc_inv _ _ _ _ _ _ _ Hout) as Hinv. pose proof (mi_name _ _ _ _ _ Hinv n a Hn) as En.
  pose proof Hj as (Hjr & _ & Hcase). destruct (isPrefixFullyExcluded_block f base ones pool Hok (key j) _ (start j) (key_parse j Hjr) (key_block j Hjr)) as (v & Hv & Hx).
  rewrite <- (entry_prefix j a Hj) in Hv. destruct v.
  - right. split; [by apply Hx|]. destruct Hcase as [|(_ & _ & _ & Hnx)]; [done|]. by destruct Hnx; apply Hx.
  - left. rewrite <- En. apply Hfull; [|done]. apply status_elem. congruence.
Qed.

(** The second pass computes the same entries. *)
Lemma second_pass m0' m' :
  getValidExistingAllocationsMaps pool' names = Some m0' → kept pool' names m0' → maps_inv f base ones pool' m0' →
  outcome f base ones pool' m0' names m' → m'.1 = m.1.
Proof using Hout Hdom Hent Hne Hok Hsub Hst.
  intros Ek Hk Hi0 Hout'. pose proof (oc_inv _ _ _ _ _ _ _ Hout) as Hinv.
  destruct (keep_complete pool' names status (∅, ∅) m0' Ek status_names status_validates) as [Hfull _].
  assert (∀ n a, m0'.1 !! n = Some a → m.1 !! n = Some a) as Hsub0.
  { intros n a Hn. destruct (Hk n a Hn) as (Ha & _). apply status_elem in Ha. by rewrite (mi_name _ _ _ _ _ Hi0 n a Hn) in Ha. }
  pose proof (kept_or_static m0' Hfull) as Hcase. pose proof (oc_sub _ _ _ _ _ _ _ Hout') as Hsub1.
  assert (∀ n a, m'.1 !! n = Some a → m.1 !! n = Some a) as Hle.
  { intros n a Ha. assert (n ∈ names) as Hn
      by (destruct (oc_dom _ _ _ _ _ _ _ Hout' n ltac:(by eexists)) as [[x Hx]|]; [by apply (Hk n x)|done]).
    destruct (oc_new _ _ _ _ _ _ _ Hout' n a Ha) as [|[Hs|(Hs & j & Hf & _)]]; [by apply Hsub0|..].
    - change (getStaticAllocationForNodeIfExist n pool (getStaticAllocationsMaps pool).1 = Some (Some a)) in Hs.
      destruct (m.1 !! n) as [b|] eqn:E; [|by rewrite (oc_static _ _ _ _ _ _ _ Hout n Hn E) in Hs].
      f_equal. destruct (getStatic_static n a Hs) as (Han & s & j & Hjr & Hsa). destruct (Hent n b E) as [j' Hj'].
      apply (static_entry_eq s j j'); [done|done|done|]. rewrite (mi_name _ _ _ _ _ Hinv n b E). congruence.
    - destruct (m.1 !! n) as [b|] eqn:E.
      + destruct (Hent n b E) as [j' Hj']. destruct (Hcase n b j' E Hj') as [H0|(_ & s & Hs' & Hsn & _)].
        * pose proof (lookup_weaken _ _ _ _ H0 Hsub1). congruence.
        * exfalso. apply (getStatic_none n Hs s Hs'). rewrite Hsn. by apply (mi_name _ _ _ _ _ Hinv).
      + exfalso. apply (oc_served _ _ _ _ _ _ _ Hout n Hn E j). destruct Hf as (Hj & H2 & H3 & H4). split; [exact Hj|]. split; [|split; [exact H3|exact H4]].
        destruct (m.2 !! key j) as [x|] eqn:Ex; [|done]. exfalso.
        destruct (mi_exact _ _ _ _ _ Hinv (key j)) as (n' & b' & Hb' & Hkb); [by eexists|]. destruct (Hent n' b' Hb') as [j' Hj'].
        assert (j' = j) as -> by (apply key_inj; [apply Hj'|exact Hj|]; by rewrite <- (entry_prefix j' b' Hj')).
        destruct (Hcase n' b' j Hb' Hj') as [H0|[Hx _]]; [|done].
        destruct (mi_prefix _ _ _ _ _ Hi0 n' b' H0) as [y Hy]. rewrite Hkb in Hy. unfold prefix_key in *. simpl in *. congruence. }
  apply map_eq. intros n. destruct (m'.1 !! n) as [a|] eqn:E'; [symmetry; by apply Hle|].
  destruct (m.1 !! n) as [a|] eqn:E; [|done]. exfalso. destruct (Hent n a E) as [j Hj].
  destruct (Hcase n a j E Hj) as [H0|(_ & s & Hs' & Hsn & _)].
  - pose proof (lookup_weaken _ _ _ _ H0 Hsub1). congruence.
  - pose proof (oc_static _ _ _ _ _ _ _ Hout' n ltac:(apply Hdom; by eexists) E') as Hs.
    apply (getStatic_none n Hs s Hs'). rewrite Hsn. by apply (mi_name _ _ _ _ _ Hinv).
Qed.
End second.
End stable.

Section again.
Context `{K8sNames} `{NodeMatcher}.

Lemma cidr_names_ne pool nodes n :
  Forall (λ x, node_Name x ≠ "") nodes → n ∈ cidr_names pool nodes → n ≠ "".
Proof.
  intros Hn. unfold cidr_names. rewrite sort_by_perm. intros (x & Hx & E)%list_elem_of_omap.
  rewrite Forall_forall in Hn. specialize (Hn x Hx). repeat case_match; congruence.
Qed.

(** A second reconciliation finds the status it would write. *)
Lemma cidr_reconcile_again f base ones pool nodes ns name ns' name' :
  subnet_denotes (CIDR (cp_Spec pool)) f base ones →
  Forall int32_range (cp_PerNodeExclusions (cp_Spec pool)) → CIDRPool_Validate pool = [] →
  canonical_pool pool → Forall (λ n, node_Name n ≠ "") nodes →
  ∃ evs evs' status,
    CIDRPool_Reconcile never ns (cidr_client pool nodes) (mkRequest ns name) =
      Some (if negb (cp_StatusNil pool) && bool_decide (cp_Status pool = status) then evs
            else evs ++ [UpdateCIDRPoolStatus (cp_set_status pool status)], None) ∧
    CIDRPool_Reconcile never ns' (cidr_client (cp_set_status pool status) nodes) (mkRequest ns' name') = Some (evs', None) ∧
    Forall (λ a, ∀ q, a ≠ UpdateCIDRPoolStatus q) (evs ++ evs') ∧ canonical_pool (cp_set_status pool status).
Proof.
  intros Hs H32 HV Hc Hn. pose proof (CIDRPool_Validate_ok f base ones pool Hs H32 HV) as Hok. pose proof Hc as [Hc1 Hc2].
  destruct (cidr_reconcile_parts f base ones pool nodes ns name Hs H32 HV Hc) as (evs & m0 & m & HR & Hev & E0 & Hi0 & Hk & Hout).
  set (names := cidr_names pool nodes) in *. pose proof (λ n, cidr_names_ne pool nodes n Hn) as Hne.
  assert (∀ n, is_Some (m.1 !! n) → n ∈ names) as Hdom.
  { intros n Hm. destruct (oc_dom _ _ _ _ _ _ _ Hout n Hm) as [[a Ha]|]; [|done]. by apply (Hk n a). }
  pose proof (oc_inv _ _ _ _ _ _ _ Hout) as Hinv.
  assert (∀ n a, m.1 !! n = Some a → ∃ j, entry_is f base ones pool j a) as Hent.
  { intros n a Ha. destruct (oc_new _ _ _ _ _ _ _ Hout n a Ha) as [Hm0|Hm].
    - destruct (Hk n a Hm0) as (Ha' & _ & Hv & Hx). apply (kept_entry f base ones pool Hok Hs Hc1); [|done|done].
      rewrite Forall_forall in Hc2. by apply Hc2.
    - apply (made_entry f base ones pool Hok Hs Hc1 m0 n a); [|by apply (mi_name _ _ _ _ _ Hinv)|done].
      apply Hne, Hdom. by eexists. }
  set (status := sortedAllocations m.1) in *.
  assert (canonical_pool (cp_set_status pool status)) as Hc'.
  { split; [done|]. apply Forall_forall. intros a [n Ha]%sortedAllocations_elem. destruct (Hent n a Ha) as [j Hj].
    rewrite (entry_prefix f base ones pool j a Hj). intros ip net Hp. destruct Hj as [Hj _].
    rewrite (key_parse f base ones pool Hok Hs j Hj) in Hp. by injection Hp as _ <-. }
  destruct (cidr_reconcile_parts f base ones (cp_set_status pool status) nodes ns' name' Hs H32 HV Hc')
    as (evs' & m0' & m' & HR' & Hev' & E0' & Hi0' & Hk' & Hout').
  assert (m'.1 = m.1) as Em by (by eapply (second_pass f base ones pool Hok Hs Hc1 names m0 m)).
  exists evs, evs', status. split; [done|]. split; [|split; [by apply Forall_app|done]].
  rewrite HR', Em. by rewrite bool_decide_true.
Qed.
End again.
