(* ===== verification/NodeTypes.v ===== *)
(** * The data of the node store: [pkg/ipam-node/types/{types,checksum}.go]

    Reservations per pool, and the checksum that protects the file.  Go maps are
    [gmap]s (a [nil] map reads as an empty one); a time is a number of
    nanoseconds, the zero time [None].  The JSON encoder is an operation of the
    class [RootCodec], with the behaviour the store relies on as its laws. *)

From Stdlib Require Import Strings.Byte.
From S2P Require Import Prelude GoNet Cidr.

(** ** Reservations *)

Record ReservationMetadata := mkMetadata {
  CreateTime : string;
  PodUUID : string;
  PodName : string;
  PodNamespace : string;
  DeviceID : string;
  PoolConfigSnapshot : string;
}.

Record Reservation := mkReservation {
  ContainerID : string;
  InterfaceName : string;
  IPAddress : IP;
  Metadata : ReservationMetadata;
  ReleasedAt : option Z;
}.

Record PoolReservations := mkPoolReservations {
  pr_Name : string;
  Entries : gmap string Reservation;
  LastPoolConfig : string;
  LastReservedIP : IP;
}.

Record Root := mkRoot {
  Version : Z;
  Checksum : Z;
  Pools : gmap string PoolReservations;
}.

Definition ImplementedVersion : Z := 1.

Definition NewRoot : Root := mkRoot ImplementedVersion 0 ∅.

Definition NewPoolReservations (name : string) : PoolReservations := mkPoolReservations name ∅ "" [].

Definition IsReleased (r : Reservation) : bool :=
  match ReleasedAt r with Some _ => true | None => false end.

Definition set_CreateTime (m : ReservationMetadata) (t : string) : ReservationMetadata :=
  mkMetadata t (PodUUID m) (PodName m) (PodNamespace m) (DeviceID m) (PoolConfigSnapshot m).

Definition set_ReleasedAt (r : Reservation) (t : option Z) : Reservation :=
  mkReservation (ContainerID r) (InterfaceName r) (IPAddress r) (Metadata r) t.

Definition set_Checksum (r : Root) (c : Z) : Root := mkRoot (Version r) c (Pools r).

(** ** Deep copies: the same values in new maps and slices *)

Definition ReservationMetadata_DeepCopy (m : ReservationMetadata) : ReservationMetadata :=
  mkMetadata (CreateTime m) (PodUUID m) (PodName m) (PodNamespace m) (DeviceID m) (PoolConfigSnapshot m).

Definition Reservation_DeepCopy (r : Reservation) : Reservation :=
  mkReservation (ContainerID r) (InterfaceName r) (map id (IPAddress r))
    (ReservationMetadata_DeepCopy (Metadata r)) (ReleasedAt r).

Definition PoolReservations_DeepCopy (p : PoolReservations) : PoolReservations :=
  mkPoolReservations (pr_Name p) (Reservation_DeepCopy <$> Entries p) (LastPoolConfig p)
    (map id (LastReservedIP p)).

Definition Root_DeepCopy (r : Root) : Root :=
  mkRoot (Version r) (Checksum r) (PoolReservations_DeepCopy <$> Pools r).

Lemma Reservation_DeepCopy_id r : Reservation_DeepCopy r = r.
Proof. destruct r as [? ? ? [] ?]. unfold Reservation_DeepCopy. simpl. by rewrite map_id. Qed.

Lemma PoolReservations_DeepCopy_id p : PoolReservations_DeepCopy p = p.
Proof.
  destruct p as [n e c l]. unfold PoolReservations_DeepCopy. simpl. f_equal; [|apply map_id].
  apply map_eq. intros k. rewrite lookup_fmap. destruct (e !! k); simpl; [|done].
  by rewrite Reservation_DeepCopy_id.
Qed.

Lemma Root_DeepCopy_id r : Root_DeepCopy r = r.
Proof.
  destruct r as [v c p]. unfold Root_DeepCopy. simpl. f_equal.
  apply map_eq. intros k. rewrite lookup_fmap. destruct (p !! k); simpl; [|done].
  by rewrite PoolReservations_DeepCopy_id.
Qed.

(** ** FNV-1a, 32 bits ([hash/fnv]) *)

Definition fnv32a (data : list byte) : Z :=
  foldl (λ h b, Z.lxor h (byte_val b) * 16777619 mod 2 ^ 32) 2166136261 data.

Example fnv32a_foobar : fnv32a [x66; x6f; x6f; x62; x61; x72] = 0xbf9cf968.
Proof. vm_compute. reflexivity. Qed.

Lemma fnv32a_range data : 0 ≤ fnv32a data < 2 ^ 32.
Proof.
  unfold fnv32a. induction data as [|b data IH] using rev_ind; [done|].
  rewrite foldl_app. simpl foldl. apply Z.mod_pos_bound. lia.
Qed.

(** ** Normal forms

    [net.IP] is written as text and read back in its 16-byte form, so the file
    determines addresses only up to their form. *)

Definition norm_reservation (r : Reservation) : Reservation :=
  mkReservation (ContainerID r) (InterfaceName r) (NormalizeIP (IPAddress r)) (Metadata r) (ReleasedAt r).
Definition norm_pool (p : PoolReservations) : PoolReservations :=
  mkPoolReservations (pr_Name p) (norm_reservation <$> Entries p) (LastPoolConfig p)
    (NormalizeIP (LastReservedIP p)).
Definition norm_root (r : Root) : Root := mkRoot (Version r) (Checksum r) (norm_pool <$> Pools r).

Definition root_equiv (r r' : Root) : Prop := norm_root r = norm_root r'.

#[global] Instance root_equiv_equivalence : Equivalence root_equiv.
Proof. split; repeat intro; unfold root_equiv in *; congruence. Qed.

(** ** The JSON codec

    [Marshal] is [None] on an encoding error, [Unmarshal] on a decoding error. *)
Class RootCodec := {
  Marshal : Root → option (list byte);
  Unmarshal : list byte → option Root;
}.

(** Every address of the data is [nil] or valid. *)
Definition ip_text_ok (ip : IP) : Prop := ip = [] ∨ is_Some (addr_of ip).
Definition root_texts_ok (r : Root) : Prop :=
  map_Forall (λ _ p, ip_text_ok (LastReservedIP p) ∧
                     map_Forall (λ _ e, ip_text_ok (IPAddress e)) (Entries p)) (Pools r).

(** No reservation has a release time. *)
Definition no_releases (r : Root) : Prop :=
  map_Forall (λ _ p, map_Forall (λ _ e, ReleasedAt e = None) (Entries p)) (Pools r).

(** What the store relies on: decoding gives back an equivalent value, and equal
    values up to the form of addresses have one encoding, which is not empty;
    [net.IP.MarshalText] fails on an address that is neither [nil] nor 4 or 16
    bytes long, and [net.IP.UnmarshalText] gives no such address; the only other
    value the encoder can refuse is a time.  Strings are valid UTF-8, as the
    strings of protobuf messages and Kubernetes objects are: the encoder keeps
    those. *)
Class RootCodecLaws `{RootCodec} := {
  Marshal_texts_ok : ∀ r data, Marshal r = Some data → root_texts_ok r;
  Unmarshal_Marshal : ∀ r data, Marshal r = Some data → 
    ∃ r', Unmarshal data = Some r' ∧ root_equiv r' r ∧ root_texts_ok r';
  Marshal_proper : ∀ r r', root_texts_ok r → root_texts_ok r' → root_equiv r r' → Marshal r = Marshal r';
  Marshal_not_empty : ∀ r data, Marshal r = Some data → data ≠ [];
  Marshal_total : ∀ r, root_texts_ok r → no_releases r → is_Some (Marshal r);
  Unmarshal_texts_ok : ∀ data r, Unmarshal data = Some r → root_texts_ok r;
}.

(** ** The checksum *)

Definition strip_released (p : PoolReservations) : PoolReservations :=
  mkPoolReservations (pr_Name p) ((λ e, set_ReleasedAt e None) <$> Entries p) (LastPoolConfig p)
    (LastReservedIP p).

Section checksum.
Context `{RootCodec}.

(** [None] is the panic on an encoding error. *)
Definition getChecksum (r : Root) : option Z :=
  let stripped := set_Checksum (Root_DeepCopy r) 0 in
  let stripped := mkRoot (Version stripped) (Checksum stripped) (strip_released <$> Pools stripped) in
  data ← Marshal stripped;
  Some (fnv32a data).

Definition NewChecksum (r : Root) : option Z := getChecksum r.

(** [true]: the checksum matches. *)
Definition Verify (cs : Z) (r : Root) : option bool :=
  c ← NewChecksum r; Some (cs =? c).

Lemma norm_strip p : norm_pool (strip_released p) = strip_released (norm_pool p).
Proof.
  destruct p as [n e c l]. unfold norm_pool, strip_released. simpl. f_equal.
  rewrite <- !map_fmap_compose. done.
Qed.

Lemma strip_texts_ok r c :
  root_texts_ok r → root_texts_ok (mkRoot (Version r) c (strip_released <$> Pools r)).
Proof.
  intros Hr k p. simpl. rewrite lookup_fmap_Some. intros (q & <- & Hq).
  destruct (Hr _ _ Hq) as [H1 H2]. split; [done|]. simpl.
  intros k' e. rewrite lookup_fmap_Some. intros (e' & <- & He'). exact (H2 _ _ He').
Qed.

Lemma NewChecksum_equiv `{!RootCodecLaws} r r' c c' :
  root_texts_ok r → root_texts_ok r' →
  root_equiv (set_Checksum r c) (set_Checksum r' c') → NewChecksum r = NewChecksum r'.
Proof.
  intros O O' E. unfold NewChecksum, getChecksum. rewrite !Root_DeepCopy_id. simpl.
  rewrite (Marshal_proper _ (mkRoot (Version r') 0 (strip_released <$> Pools r'))); [done|by apply strip_texts_ok..|].
  unfold root_equiv, norm_root in *. simpl in *. injection E as -> _ E. f_equal.
  rewrite <- !map_fmap_compose.
  rewrite !(map_fmap_ext (norm_pool ∘ strip_released) (strip_released ∘ norm_pool)) by (intros; apply norm_strip).
  by rewrite !map_fmap_compose, E.
Qed.

(** [NewChecksum] does not panic on data with proper addresses. *)
Lemma NewChecksum_total `{!RootCodecLaws} r : root_texts_ok r → is_Some (NewChecksum r).
Proof.
  intros Hr. unfold NewChecksum, getChecksum. rewrite Root_DeepCopy_id. simpl.
  destruct (Marshal_total (mkRoot (Version r) 0 (strip_released <$> Pools r))) as [data ->]; [by apply strip_texts_ok| |by eexists].
  intros k p. simpl. rewrite lookup_fmap_Some. intros (q & <- & _). intros k' e. simpl. rewrite lookup_fmap_Some.
  by intros (e' & <- & _).
Qed.

(** A change of [Checksum] or [ReleasedAt] does not change the checksum, so an
    older binary that drops the field accepts the file. *)
Lemma NewChecksum_ReleasedAt r :
  NewChecksum (mkRoot (Version r) (Checksum r) (strip_released <$> Pools r)) = NewChecksum r.
Proof.
  unfold NewChecksum, getChecksum. rewrite !Root_DeepCopy_id. simpl. do 3 f_equal.
  rewrite <- map_fmap_compose. apply map_fmap_ext. intros k p _.
  destruct p as [n e c l]. unfold strip_released. simpl. f_equal. rewrite <- map_fmap_compose. done.
Qed.
End checksum.

(** ** A codec

    An instance of the class: every value has a number (its fields are
    countable), written down in bits. *)
#[global] Instance byte_countable : Countable byte :=
  inj_countable' byte_val byte_of byte_of_val.
#[global] Instance ReservationMetadata_eq_dec : EqDecision ReservationMetadata.
Proof. solve_decision. Defined.
#[global] Instance Reservation_eq_dec : EqDecision Reservation.
Proof. solve_decision. Defined.
#[global] Instance PoolReservations_eq_dec : EqDecision PoolReservations.
Proof. solve_decision. Defined.
#[global] Instance Root_eq_dec : EqDecision Root.
Proof. solve_decision. Defined.

#[global] Program Instance ReservationMetadata_countable : Countable ReservationMetadata :=
  inj_countable' (λ m, (CreateTime m, PodUUID m, PodName m, (PodNamespace m, DeviceID m, PoolConfigSnapshot m)))
    (λ x, let '(a, b, c, (d, e, f)) := x in mkMetadata a b c d e f) _.
Next Obligation. by intros []. Qed.
#[global] Program Instance Reservation_countable : Countable Reservation :=
  inj_countable' (λ r, (ContainerID r, InterfaceName r, (IPAddress r, Metadata r, ReleasedAt r)))
    (λ x, let '(a, b, (c, d, e)) := x in mkReservation a b c d e) _.
Next Obligation. by intros []. Qed.
#[global] Program Instance PoolReservations_countable : Countable PoolReservations :=
  inj_countable' (λ p, (pr_Name p, Entries p, (LastPoolConfig p, LastReservedIP p)))
    (λ x, let '(a, b, (c, d)) := x in mkPoolReservations a b c d) _.
Next Obligation. by intros []. Qed.
#[global] Program Instance Root_countable : Countable Root :=
  inj_countable' (λ r, (Version r, Checksum r, Pools r)) (λ x, let '(a, b, c) := x in mkRoot a b c) _.
Next Obligation. by intros []. Qed.

Fixpoint bits_to_bytes (p : positive) : list byte :=
  match p with xH => [x02] | xO q => x00 :: bits_to_bytes q | xI q => x01 :: bits_to_bytes q end.
Fixpoint bytes_to_bits (l : list byte) : option positive :=
  match l with
  | [x02] => Some xH
  | x00 :: l => xO <$> bytes_to_bits l
  | x01 :: l => xI <$> bytes_to_bits l
  | _ => None
  end.
Lemma bytes_to_bits_to_bytes p : bytes_to_bits (bits_to_bytes p) = Some p.
Proof. induction p as [q IH|q IH|]; simpl; rewrite ?IH; done. Qed.

#[global] Instance ip_text_ok_dec ip : Decision (ip_text_ok ip).
Proof. unfold ip_text_ok. apply _. Defined.
#[global] Instance root_texts_ok_dec r : Decision (root_texts_ok r).
Proof. unfold root_texts_ok. apply _. Defined.

Definition bits_codec : RootCodec := {|
  Marshal r := if decide (root_texts_ok r) then Some (bits_to_bytes (encode (norm_root r))) else None;
  Unmarshal data := p ← bytes_to_bits data; r ← decode p;
                    if decide (root_texts_ok r) then Some r else None;
|}.

Lemma NormalizeIP_idemp ip : NormalizeIP (NormalizeIP ip) = NormalizeIP ip.
Proof. apply NormalizeIP_equiv, NormalizeIP_idem. Qed.

Lemma norm_root_idemp r : norm_root (norm_root r) = norm_root r.
Proof.
  destruct r as [v c ps]. unfold norm_root. simpl. f_equal. rewrite <- map_fmap_compose.
  apply map_fmap_ext. intros _ [n e l i] _. unfold norm_pool. simpl. rewrite NormalizeIP_idemp. f_equal.
  rewrite <- map_fmap_compose. apply map_fmap_ext. intros _ [] _.
  unfold norm_reservation. simpl. by rewrite NormalizeIP_idemp.
Qed.

Lemma NormalizeIP_text_ok ip : ip_text_ok (NormalizeIP ip).
Proof.
  destruct (addr_of ip) as [[f x]|] eqn:E.
  - right. rewrite (NormalizeIP_idem ip : addr_of _ = addr_of _), E. eauto.
  - left. by apply NormalizeIP_invalid.
Qed.

Lemma norm_root_texts_ok r : root_texts_ok (norm_root r).
Proof.
  intros k p. simpl. rewrite lookup_fmap_Some. intros (q & <- & _). split; [apply NormalizeIP_text_ok|].
  intros k' e. simpl. rewrite lookup_fmap_Some. intros (e' & <- & _). apply NormalizeIP_text_ok.
Qed.

#[global] Instance bits_codec_laws : @RootCodecLaws bits_codec.
Proof.
  split; simpl; intros r.
  - intros data. by case_decide.
  - intros data. case_decide; [|done]. intros [= <-].
    exists (norm_root r). rewrite bytes_to_bits_to_bytes. simpl. rewrite decode_encode. simpl.
    rewrite decide_True by apply norm_root_texts_ok.
    split_and!; [done|apply norm_root_idemp|apply norm_root_texts_ok].
  - intros r' H H' E. rewrite !decide_True by done. by rewrite E.
  - intros data. case_decide; [|done]. intros [= <-]. by destruct (encode (norm_root r)).
  - intros Hr _. rewrite decide_True by done. by eexists.
  - intros r'. destruct (bytes_to_bits r) as [p|]; [|done]. simpl. destruct (decode p) as [r0|]; [|done]. simpl.
    case_decide; [|done]. by intros [= <-].
Qed.
