(* ===== verification/Store.v ===== *)
(** * The node's reservation store: [pkg/ipam-node/store/store.go]

    A store hands out one session at a time.  A session works on a copy of the
    data; [Commit] writes the copy to the file and makes it the data of the
    store, [Cancel] drops it.  An operation on a closed session panics: [None].
    The current time is an argument (nanoseconds and its RFC 3339 text). *)

From Stdlib Require Import Strings.Byte.
From S2P Require Import Prelude GoNet Cidr NodeTypes.

(** ** Sessions *)

Record session := mkSession {
  tmpData : Root;
  isModified : bool;
  isClosed : bool;
}.

Inductive reserve_error := ErrReservationAlreadyExist | ErrIPAlreadyReserved.

Record Clock := mkClock { clock_ns : Z; clock_text : string }.

Definition newStore (persistedData : Root) : session := mkSession (Root_DeepCopy persistedData) false false.

(** [s.checkClosed()] before the operation. *)
Definition checkClosed {A} (s : session) (k : A) : option A := if isClosed s then None else Some k.

Definition getKey (id ifName : string) : string := id +:+ "_" +:+ ifName.

Definition getPoolData (poolKey : string) (layout : Root) : PoolReservations :=
  match Pools layout !! poolKey with
  | Some res => res
  | None => NewPoolReservations poolKey
  end.

Definition updatePoolData (s : session) (poolKey : string) (poolData : PoolReservations) : session :=
  let t := tmpData s in
  mkSession (mkRoot (Version t) (Checksum t) (<[poolKey := poolData]> (Pools t))) true (isClosed s).

Definition Reserve (now : Clock) (s : session) (poolKey id ifName : string)
    (meta : ReservationMetadata) (address : IP) : option (session * option reserve_error) :=
  checkClosed s (
    let reservationKey := getKey id ifName in
    let poolData := getPoolData poolKey (tmpData s) in
    if bool_decide (is_Some (Entries poolData !! reservationKey))
    then (s, Some ErrReservationAlreadyExist)
    else if existsb (λ r, IP_Equal address (IPAddress r.2)) (map_to_list (Entries poolData))
    then (s, Some ErrIPAlreadyReserved)
    else
      let reservation :=
        mkReservation id ifName address (set_CreateTime meta (clock_text now)) None in
      let poolData :=
        mkPoolReservations (pr_Name poolData) (<[reservationKey := reservation]> (Entries poolData))
          (PoolConfigSnapshot meta) address in
      (updatePoolData s poolKey poolData, None)).

Definition ListReservations (s : session) (poolKey : string) : option (list Reservation) :=
  checkClosed s (snd <$> map_to_list (Entries (getPoolData poolKey (tmpData s)))).

Definition ListPools (s : session) : option (list string) :=
  checkClosed s (fst <$> map_to_list (Pools (tmpData s))).

Definition RemovePool (s : session) (poolKey : string) : option session :=
  checkClosed s (
    let t := tmpData s in
    mkSession (mkRoot (Version t) (Checksum t) (delete poolKey (Pools t))) true (isClosed s)).

Definition GetLastReservedIP (s : session) (poolKey : string) : option IP :=
  checkClosed s (LastReservedIP (getPoolData poolKey (tmpData s))).

Definition SetLastReservedIP (s : session) (poolKey : string) (ip : IP) : option session :=
  checkClosed s (
    let poolData := getPoolData poolKey (tmpData s) in
    updatePoolData s poolKey
      (mkPoolReservations (pr_Name poolData) (Entries poolData) (LastPoolConfig poolData) ip)).

(** [time.Since]: the difference saturates at the range of [time.Duration]. *)
Definition time_Since (now t : Z) : Z := Z.max (- 2 ^ 63) (Z.min (2 ^ 63 - 1) (now - t)).

Definition ReleaseReservationByID (now : Clock) (s : session) (poolKey id ifName : string)
    (cooldown : Z) : option (session * bool) :=
  checkClosed s (
    let key := getKey id ifName in
    let poolData := getPoolData poolKey (tmpData s) in
    let set_entries es :=
      updatePoolData s poolKey
        (mkPoolReservations (pr_Name poolData) es (LastPoolConfig poolData) (LastReservedIP poolData)) in
    match Entries poolData !! key with
    | None => (s, false)
    | Some reservation =>
        let expired :=
          match ReleasedAt reservation with
          | Some t => cooldown <=? time_Since (clock_ns now) t
          | None => false
          end in
        if (0 <? cooldown) && IsReleased reservation && negb expired then (s, false)
        else
          let remove := (cooldown <=? 0) || expired in
          if remove then (set_entries (delete key (Entries poolData)), remove)
          else
            (set_entries (<[key := set_ReleasedAt reservation (Some (clock_ns now))]> (Entries poolData)),
             remove)
    end).

Definition GetReservationByID (s : session) (poolKey id ifName : string) : option (option Reservation) :=
  checkClosed s (
    match Entries (getPoolData poolKey (tmpData s)) !! getKey id ifName with
    | None => None
    | Some reservation => if IsReleased reservation then None else Some reservation
    end).

(** ** The store *)

(** The file ([None]: it does not exist), the data in memory, the lock. *)
Record store := mkStore {
  disk : option (list byte);
  persistedData : option Root;
  locked : bool;
}.

Section store.
Context `{RootCodec}.

(** [None] is the panic of [NewChecksum]; [readable]: [os.ReadFile] gives no other
    error than a missing file. *)
Definition loadFromDisk (readable : bool) (file : option (list byte)) : option (result error Root) :=
  if negb readable then Some (Err "failed to read store persistedData: %v")
  else
  match file with
  | None | Some [] => Some (Ok NewRoot)
  | Some data =>
      match Unmarshal data with
      | None => Some (Err "failed to unmarshal store persistedData: %v")
      | Some dst =>
          if Checksum dst =? 0 then Some (Err "checksum not set in store file")
          else
            ok ← Verify (Checksum dst) dst;
            if ok : bool then Some (Ok dst) else Some (Err "store file corrupted, checksum mismatch")
      end
  end.

(** [Open] blocks while the lock is held: there is no result then. *)
Inductive open_result :=
| Opened (m : store) (s : session)
| OpenFailed (m : store) (e : error)
| OpenBlocks.

Definition Open (readable : bool) (m : store) : option open_result :=
  if locked m then Some OpenBlocks
  else
    match persistedData m with
    | Some r => Some (Opened (mkStore (disk m) (Some r) true) (newStore r))
    | None =>
        r ← loadFromDisk readable (disk m);
        match r with
        | Err e => Some (OpenFailed (mkStore (disk m) None false) e)
        | Ok r => Some (Opened (mkStore (disk m) (Some r) true) (newStore r))
        end
    end.

(** [writeToDisk]: [renameio] replaces the file or leaves it ([writable]). *)
Definition writeToDisk (writable : bool) (file : option (list byte)) (src : Root) :
    option (option (list byte) * Root * option error) :=
  c ← NewChecksum src;
  let src := set_Checksum src c in
  match Marshal src with
  | None => Some (file, src, Some "failed to marshal store persistedData: %v")
  | Some data =>
      if writable then Some (Some data, src, None)
      else Some (file, src, Some "failed to write store persistedData: %v")
  end.

Definition close (s : session) (t : Root) : session := mkSession t (isModified s) true.

Definition Commit (writable : bool) (m : store) (s : session) : option (store * session * option error) :=
  if isClosed s then None
  else if negb (isModified s) then
    Some (mkStore (disk m) (persistedData m) false, close s (tmpData s), None)
  else
    '(file, t, err) ← writeToDisk writable (disk m) (tmpData s);
    match err with
    | Some err => Some (mkStore file (persistedData m) false, close s t, Some err)
    | None => Some (mkStore file (Some t) false, close s t, None)
    end.

Definition Cancel (m : store) (s : session) : option (store * session) :=
  if isClosed s then None
  else Some (mkStore (disk m) (persistedData m) false, close s (tmpData s)).
End store.

(** ** The store as a state machine

    The state is the store and the session that is open, if any.  A [restart] is
    a crash or a stop of the process: the memory is lost, the file is kept. *)

Inductive op :=
| OpReserve (poolKey id ifName : string) (meta : ReservationMetadata) (address : IP)
| OpRelease (poolKey id ifName : string) (cooldown : Z)
| OpRemovePool (poolKey : string)
| OpSetLast (poolKey : string) (ip : IP).

Definition run_op (now : Clock) (s : session) (o : op) : option session :=
  match o with
  | OpReserve poolKey id ifName meta address => fst <$> Reserve now s poolKey id ifName meta address
  | OpRelease poolKey id ifName cooldown => fst <$> ReleaseReservationByID now s poolKey id ifName cooldown
  | OpRemovePool poolKey => RemovePool s poolKey
  | OpSetLast poolKey ip => SetLastReservedIP s poolKey ip
  end.

Fixpoint run_ops (s : session) (os : list (Clock * op)) : option session :=
  match os with
  | [] => Some s
  | (now, o) :: os => s' ← run_op now s o; run_ops s' os
  end.

Section machine.
Context `{RootCodec}.

Inductive step : store * option session → store * option session → Prop :=
| step_open readable m m' s : Open readable m = Some (Opened m' s) → step (m, None) (m', Some s)
| step_open_failed readable m m' e : Open readable m = Some (OpenFailed m' e) → step (m, None) (m', None)
| step_op now o m s s' : run_op now s o = Some s' → step (m, Some s) (m, Some s')
| step_commit writable m m' s s' err :
    Commit writable m s = Some (m', s', err) → step (m, Some s) (m', None)
| step_cancel m m' s s' : Cancel m s = Some (m', s') → step (m, Some s) (m', None)
| step_restart m os : step (m, os) (mkStore (disk m) None false, None).

(** A first start: there is no file, or an empty one. *)
Inductive initial : store * option session → Prop :=
| initial_intro file : file = None ∨ file = Some [] → initial (mkStore file None false, None).

Definition reachable (x : store * option session) : Prop := ∃ x0, initial x0 ∧ rtc step x0 x.
End machine.

(** ** Lemmas *)

Lemma IP_Equal_sym a b : IP_Equal a b = IP_Equal b a.
Proof.
  unfold IP_Equal. destruct (decide (length a = length b)) as [E|E].
  - rewrite (bool_decide_true (length a = _)), (bool_decide_true (length b = _)) by congruence.
    by apply bool_decide_ext.
  - rewrite (bool_decide_false (length a = _)), (bool_decide_false (length b = _)) by congruence.
    repeat case_bool_decide; solve [tauto | destruct_and?; congruence].
Qed.

(** Two addresses that are not the same stay so in the form the file has. *)
Lemma IP_Equal_normalize a b :
  ip_text_ok a → ip_text_ok b → IP_Equal (NormalizeIP a) (NormalizeIP b) = IP_Equal a b.
Proof.
  assert (∀ f x, IP_Equal [] (ip_of f x) = false) as H0.
  { intros f x. unfold IP_Equal. rewrite length_ip_of. by destruct f. }
  assert (∀ c f x, addr_of c = Some (f, x) → IP_Equal [] c = false) as H1.
  { intros c f x E. destruct (addr_of_shape _ _ _ E) as [[-> ->]|[[-> ->]|(-> & -> & _)]]; try apply H0.
    unfold IP_Equal. by rewrite !length_app, length_ip_of. }
  intros [->|[[f x] Ha]] [->|[[g y] Hb]].
  - done.
  - rewrite (NormalizeIP_valid _ _ _ Hb), NormalizeIP_invalid by done. rewrite H0. by erewrite H1.
  - rewrite (NormalizeIP_valid _ _ _ Ha), (NormalizeIP_invalid []) by done.
    rewrite IP_Equal_sym, H0, IP_Equal_sym. by erewrite H1.
  - rewrite (NormalizeIP_valid _ _ _ Ha), (NormalizeIP_valid _ _ _ Hb).
    rewrite (IP_Equal_addr _ _ _ _ _ _ Ha Hb).
    apply IP_Equal_addr; apply addr_of_ip_of; by eapply addr_of_ok.
Qed.

(** No address is reserved twice in the pool. *)
Definition entries_unique (es : gmap string Reservation) : Prop :=
  ∀ k k' r r', es !! k = Some r → es !! k' = Some r' → k ≠ k' →
    IP_Equal (IPAddress r) (IPAddress r') = false.
Definition root_unique (r : Root) : Prop := map_Forall (λ _ p, entries_unique (Entries p)) (Pools r).

Lemma entries_unique_empty : entries_unique ∅.
Proof. intros k k' r r' E. by rewrite lookup_empty in E. Qed.

Lemma entries_unique_insert es k r :
  entries_unique es → (∀ k' r', es !! k' = Some r' → k' ≠ k → IP_Equal (IPAddress r) (IPAddress r') = false) →
  entries_unique (<[k := r]> es).
Proof.
  intros Hes Hr k1 k2 r1 r2. rewrite !lookup_insert_Some.
  intros [[<- <-]|[N1 E1]] [[<- <-]|[N2 E2]] N.
  - done.
  - by apply (Hr k2).
  - rewrite IP_Equal_sym. by apply (Hr k1).
  - by apply (Hes k1 k2).
Qed.

Lemma entries_unique_delete es k : entries_unique es → entries_unique (delete k es).
Proof.
  intros Hes k1 k2 r1 r2 E1 E2. apply lookup_delete_Some in E1 as [_ E1], E2 as [_ E2]. by apply Hes.
Qed.

Lemma getPoolData_unique poolKey r : root_unique r → entries_unique (Entries (getPoolData poolKey r)).
Proof.
  intros Hr. unfold getPoolData. destruct (Pools r !! poolKey) eqn:E; [by apply (Hr poolKey)|apply entries_unique_empty].
Qed.

Lemma updatePoolData_unique s poolKey p :
  root_unique (tmpData s) → entries_unique (Entries p) → root_unique (tmpData (updatePoolData s poolKey p)).
Proof. intros Hs Hp. simpl. by apply map_Forall_insert_2. Qed.

(** The address scan of [Reserve]. *)
Lemma address_free es address :
  existsb (λ r : string * Reservation, IP_Equal address (IPAddress r.2)) (map_to_list es) = false ↔
  ∀ k r, es !! k = Some r → IP_Equal address (IPAddress r) = false.
Proof.
  rewrite <- not_true_iff_false, existsb_exists. split.
  - intros H k r E. apply not_true_iff_false. intros Heq. apply H. exists (k, r). split; [|done].
    by apply list_elem_of_In, elem_of_map_to_list.
  - intros H ([k r] & Hin & Heq). apply list_elem_of_In, elem_of_map_to_list in Hin. simpl in Heq.
    by rewrite (H _ _ Hin) in Heq.
Qed.

(** The pool as the operations of a session see it. *)
Definition pool_of (s : session) (poolKey : string) : PoolReservations := getPoolData poolKey (tmpData s).

Lemma pool_of_update s poolKey p k :
  pool_of (updatePoolData s poolKey p) k = if decide (k = poolKey) then p else pool_of s k.
Proof.
  unfold pool_of, getPoolData. simpl. case_decide.
  - subst. by rewrite lookup_insert_eq.
  - by rewrite lookup_insert_ne by done.
Qed.

(** [ReleaseReservationByID] either does nothing, removes the entry, or marks it. *)
Lemma Release_cases now s poolKey id ifName cooldown s' b :
  ReleaseReservationByID now s poolKey id ifName cooldown = Some (s', b) →
  let key := getKey id ifName in
  let p := pool_of s poolKey in
  let upd es := updatePoolData s poolKey (mkPoolReservations (pr_Name p) es (LastPoolConfig p) (LastReservedIP p)) in
  match Entries p !! key with
  | None => s' = s ∧ b = false
  | Some r =>
      let expired := match ReleasedAt r with Some t => cooldown <=? time_Since (clock_ns now) t | None => false end in
      if (cooldown <=? 0) || expired then s' = upd (delete key (Entries p)) ∧ b = true
      else if IsReleased r then s' = s ∧ b = false
      else s' = upd (<[key := set_ReleasedAt r (Some (clock_ns now))]> (Entries p)) ∧ b = false
  end.
Proof.
  unfold ReleaseReservationByID, checkClosed. case_match; [done|]. unfold pool_of. cbv zeta.
  destruct (Entries _ !! _) as [r|]; [|by intros [= <- <-]].
  destruct (match ReleasedAt r with Some t => _ | None => _ end); simpl.
  - rewrite !andb_false_r, orb_true_r. by intros [= <- <-].
  - rewrite andb_true_r, orb_false_r. rewrite Z.ltb_antisym.
    destruct (cooldown <=? 0); simpl; [by intros [= <- <-]|]. destruct (IsReleased r); by intros [= <- <-].
Qed.

Lemma run_op_unique now s o s' :
  root_unique (tmpData s) → run_op now s o = Some s' → root_unique (tmpData s').
Proof.
  intros Hs. destruct o as [pk id ifn meta a|pk id ifn c|pk|pk ip]; simpl.
  - unfold Reserve, checkClosed. case_match; [done|]. simpl. case_bool_decide as Hk; [by intros [= <-]|].
    destruct (existsb _ _) eqn:Ha; [by intros [= <-]|]. intros [= <-].
    apply updatePoolData_unique; [done|]. simpl. apply entries_unique_insert; [by apply getPoolData_unique|].
    intros k' r' E _. simpl. by eapply address_free.
  - destruct (ReleaseReservationByID now s pk id ifn c) as [[s1 b]|] eqn:E; [|done]. intros [= <-].
    apply Release_cases in E. simpl in E.
    pose proof (getPoolData_unique pk _ Hs) as Hp. fold (pool_of s pk) in Hp.
    destruct (Entries _ !! _) as [r|] eqn:Er; [|by destruct E as [-> _]].
    destruct (_ || _); [|destruct (IsReleased r)]; destruct E as [-> _]; [|done|].
    + apply updatePoolData_unique; [done|]. by apply entries_unique_delete.
    + apply updatePoolData_unique; [done|]. apply entries_unique_insert; [done|].
      intros k' r' E N. simpl. by apply (Hp (getKey id ifn) k').
  - unfold RemovePool, checkClosed. case_match; [done|]. intros [= <-]. simpl.
    by apply map_Forall_delete.
  - unfold SetLastReservedIP, checkClosed. case_match; [done|]. intros [= <-].
    apply updatePoolData_unique; [done|]. by apply getPoolData_unique.
Qed.

Lemma run_op_closed now s o s' : run_op now s o = Some s' → isClosed s = false ∧ isClosed s' = false.
Proof.
  destruct o as [pk id ifn meta a|pk id ifn c|pk|pk ip]; simpl.
  - unfold Reserve, checkClosed. case_match; [done|]. simpl. case_bool_decide; [by intros [= <-]|].
    destruct (existsb _ _); by intros [= <-].
  - unfold ReleaseReservationByID, checkClosed. case_match; [done|]. simpl.
    destruct (Entries _ !! _); [|by intros [= <-]]. destruct (_ && _ && _); [by intros [= <-]|].
    destruct (_ || _); by intros [= <-].
  - unfold RemovePool, checkClosed. case_match; [done|]. by intros [= <-].
  - unfold SetLastReservedIP, checkClosed. case_match; [done|]. by intros [= <-].
Qed.

(** A session is marked modified by every operation that changes its data. *)
Lemma run_op_unmodified now s o s' :
  run_op now s o = Some s' → isModified s' = false → s' = s ∧ isModified s = false.
Proof.
  destruct o as [pk id ifn meta a|pk id ifn c|pk|pk ip]; simpl.
  - unfold Reserve, checkClosed. case_match; [done|]. simpl. case_bool_decide; [by intros [= <-]|].
    destruct (existsb _ _); by intros [= <-].
  - unfold ReleaseReservationByID, checkClosed. case_match; [done|]. simpl.
    destruct (Entries _ !! _); [|by intros [= <-]]. destruct (_ && _ && _); [by intros [= <-]|].
    destruct (_ || _); by intros [= <-].
  - unfold RemovePool, checkClosed. case_match; [done|]. by intros [= <-].
  - unfold SetLastReservedIP, checkClosed. case_match; [done|]. by intros [= <-].
Qed.

(** ** What the file holds *)

Definition empty_file (d : option (list byte)) : Prop := d = None ∨ d = Some [].

Lemma root_equiv_unique r r' :
  root_equiv r r' → root_texts_ok r → root_texts_ok r' → root_unique r → root_unique r'.
Proof.
  intros E O O' Hr k p' Hp'.
  assert (norm_pool <$> Pools r !! k = norm_pool <$> Pools r' !! k) as Ek.
  { rewrite <- !lookup_fmap. unfold root_equiv, norm_root in E. injection E as _ _ E. by rewrite E. }
  rewrite Hp' in Ek. destruct (Pools r !! k) as [p|] eqn:Hp; [|done]. simpl in Ek.
  assert (norm_reservation <$> Entries p = norm_reservation <$> Entries p') as Ee by (by injection Ek).
  destruct (O _ _ Hp) as [_ Op]. destruct (O' _ _ Hp') as [_ Op']. specialize (Hr _ _ Hp). simpl in Hr.
  assert (∀ i e', Entries p' !! i = Some e' →
    ∃ e, Entries p !! i = Some e ∧ NormalizeIP (IPAddress e) = NormalizeIP (IPAddress e')) as Hl.
  { intros i e' He'. assert ((norm_reservation <$> Entries p) !! i = Some (norm_reservation e')) as Hi
      by (by rewrite Ee, lookup_fmap, He').
    apply lookup_fmap_Some in Hi as (e & Hn & He). exists e. split; [done|]. by injection Hn. }
  intros i j ei ej Hi Hj N.
  destruct (Hl _ _ Hi) as (fi & Hfi & Ei). destruct (Hl _ _ Hj) as (fj & Hfj & Ej).
  rewrite <- (IP_Equal_normalize _ _ (Op' _ _ Hi) (Op' _ _ Hj)), <- Ei, <- Ej.
  rewrite (IP_Equal_normalize _ _ (Op _ _ Hfi) (Op _ _ Hfj)). by apply (Hr i j).
Qed.

Lemma root_equiv_entries r r' pk' k' y' :
  root_equiv r r' → Entries (getPoolData pk' r') !! k' = Some y' →
  ∃ y, Entries (getPoolData pk' r) !! k' = Some y ∧ norm_reservation y = norm_reservation y'.
Proof.
  intros E Hy. unfold getPoolData in *. destruct (Pools r' !! pk') as [p'|] eqn:Hp'; [|simpl in Hy; by rewrite lookup_empty in Hy].
  assert ((norm_pool <$> Pools r) !! pk' = Some (norm_pool p')) as Hl
    by (unfold root_equiv, norm_root in E; injection E as _ _ E; by rewrite E, lookup_fmap, Hp').
  apply lookup_fmap_Some in Hl as (p & Ep & ->). simpl in *.
  assert ((norm_reservation <$> Entries p) !! k' = Some (norm_reservation y')) as Hl2
    by (assert (norm_reservation <$> Entries p = norm_reservation <$> Entries p') as -> by (by injection Ep); by rewrite lookup_fmap, Hy).
  apply lookup_fmap_Some in Hl2 as (y & Ey & Hy2). by exists y.
Qed.

Section machine_lemmas.
Context `{RootCodecLaws}.

(** The file holds [r], up to the form of addresses. *)
Definition on_disk (d : option (list byte)) (r : Root) : Prop :=
  root_texts_ok r ∧
  ((empty_file d ∧ r = NewRoot) ∨
   ∃ data r0, d = Some data ∧ Marshal r0 = Some data ∧ root_equiv r0 r ∧ NewChecksum r0 = Some (Checksum r0)).

Lemma NewRoot_texts_ok : root_texts_ok NewRoot.
Proof. intros k p. simpl. by rewrite lookup_empty. Qed.

Lemma NewRoot_unique : root_unique NewRoot.
Proof. intros k p. simpl. by rewrite lookup_empty. Qed.

(** Loading gives back the data, unless its hash happens to be 0. *)
Lemma loadFromDisk_on_disk d r :
  on_disk d r →
  (Checksum r = 0 ∧ ¬ empty_file d → loadFromDisk true d = Some (Err "checksum not set in store file")) ∧
  (Checksum r ≠ 0 ∨ empty_file d →
     ∃ r', loadFromDisk true d = Some (Ok r') ∧ root_equiv r' r ∧ root_texts_ok r').
Proof.
  intros [Or [[He ->]|(data & r0 & -> & Hm & E & Hc)]].
  { split; [tauto|]. intros _. exists NewRoot. split; [by destruct He; subst d|]. done. }
  pose proof (Marshal_not_empty _ _ Hm) as Hne. pose proof (Marshal_texts_ok _ _ Hm) as O0.
  destruct (Unmarshal_Marshal _ _ Hm) as (r' & Hu & E' & O').
  assert (Checksum r' = Checksum r0 ∧ Checksum r0 = Checksum r) as [C1 C2]
    by (unfold root_equiv, norm_root in E, E'; split; congruence).
  assert (NewChecksum r' = Some (Checksum r0)) as Hv.
  { rewrite <- Hc. eapply (NewChecksum_equiv _ _ (Checksum r') (Checksum r0)); [done..|].
    unfold root_equiv, norm_root, set_Checksum in *. simpl. congruence. }
  assert (¬ empty_file (Some data)) as Hf by (intros [?|?]; [done|congruence]).
  unfold loadFromDisk. simpl. destruct data as [|x data]; [done|]. rewrite Hu, C1, C2. unfold Verify. rewrite Hv. simpl.
  split; [by intros [-> _]|]. intros [Hz|?]; [|done].
  rewrite (proj2 (Z.eqb_neq _ _) Hz), C2, Z.eqb_refl. exists r'. split_and!; [done| |done]. by etrans.
Qed.

Lemma NewChecksum_set_Checksum r c : NewChecksum (set_Checksum r c) = NewChecksum r.
Proof. unfold NewChecksum, getChecksum. by rewrite !Root_DeepCopy_id. Qed.

(** A successful write: the file holds the data, with its checksum. *)
Lemma writeToDisk_on_disk writable d src d' t :
  writeToDisk writable d src = Some (d', t, None) → on_disk d' t ∧ Pools t = Pools src.
Proof.
  unfold writeToDisk. destruct (NewChecksum src) as [c|] eqn:Hc; [|done]. simpl.
  destruct (Marshal _) as [data|] eqn:Hm; [|done]. destruct writable; [|done]. intros [= <- <-].
  split; [|done]. split; [by eapply Marshal_texts_ok|]. right. exists data, (set_Checksum src c).
  split_and!; [done..|]. by rewrite NewChecksum_set_Checksum.
Qed.

Lemma writeToDisk_failed writable d src d' t e :
  writeToDisk writable d src = Some (d', t, Some e) → d' = d.
Proof.
  unfold writeToDisk. destruct (NewChecksum src); [|done]. simpl.
  destruct (Marshal _); [|by intros [= <- _ _]]. destruct writable; [done|]. by intros [= <- _ _].
Qed.

(** ** The invariant of the machine *)

Definition stored (d : option (list byte)) (r : Root) : Prop := on_disk d r ∧ root_unique r.

Definition machine_inv (x : store * option session) : Prop :=
  let '(m, os) := x in
  locked m = bool_decide (is_Some os) ∧
  (∃ r, stored (disk m) r) ∧
  match persistedData m with Some r => stored (disk m) r | None => os = None end ∧
  match os with
  | Some s =>
      isClosed s = false ∧ root_unique (tmpData s) ∧
      (isModified s = false → persistedData m = Some (tmpData s))
  | None => True
  end.

(** What is loaded is what the file holds. *)
Lemma load_equiv readable d x x' :
  on_disk d x → loadFromDisk readable d = Some (Ok x') → root_equiv x' x ∧ root_texts_ok x'.
Proof.
  intros Hd Hl. destruct readable; [|done]. pose proof (loadFromDisk_on_disk _ _ Hd) as [Hz Hnz].
  assert (Checksum x ≠ 0 ∨ empty_file d) as Hc.
  { destruct (decide (Checksum x = 0)) as [Z0|]; [|by left].
    destruct d as [[|b d]|]; [right; by right| |right; by left]. exfalso.
    rewrite Hz in Hl by (split; [done|by intros [?|?]]). done. }
  destruct (Hnz Hc) as (x1 & E1 & E & O). rewrite E1 in Hl. by simplify_eq.
Qed.
Lemma on_disk_load d r r' readable :
  stored d r → loadFromDisk readable d = Some (Ok r') → stored d r'.
Proof.
  intros [Hd Hu] Hl. destruct (load_equiv _ _ _ _ Hd Hl) as [E O].
  destruct Hd as [Or Hd]. split; [|by eapply root_equiv_unique; [symmetry|..]]. split; [done|].
  destruct Hd as [[He ->]|(data & r0 & -> & Hm & E0 & Hc0)].
  - left. split; [done|]. destruct readable; [|done]. destruct He as [-> | ->]; cbn in Hl; congruence.
  - right. exists data, r0. split_and!; [done..| |done]. etrans; [done|]. by symmetry.
Qed.

Lemma initial_inv x : initial x → machine_inv x.
Proof.
  intros [file Hf]. simpl. split_and!; try done. exists NewRoot. split; [|apply NewRoot_unique].
  split; [apply NewRoot_texts_ok|]. by left.
Qed.

Lemma newStore_tmpData r : tmpData (newStore r) = r.
Proof. apply Root_DeepCopy_id. Qed.

Lemma step_inv x y : machine_inv x → step x y → machine_inv y.
Proof.
  intros HI Hstep.
  destruct Hstep as [rd m m' s Ho|rd m m' e Ho|now o m s s' Ho|w m m' s s' err Hc|m m' s s' Hc|m os];
    destruct HI as (Hl & (r0 & Hr0) & Hp & Hs).
  - unfold Open in Ho. rewrite Hl in Ho. simpl in Ho. destruct (persistedData m) as [r|].
    + simplify_eq. simpl. rewrite Root_DeepCopy_id. split_and!; eauto; by eapply proj2.
    + destruct (loadFromDisk rd (disk m)) as [[r|]|] eqn:E; simplify_eq/=.
      pose proof (on_disk_load _ _ _ _ Hr0 E) as Hst. rewrite Root_DeepCopy_id. split_and!; eauto; by eapply proj2.
  - unfold Open in Ho. rewrite Hl in Ho. simpl in Ho. destruct (persistedData m) as [r|]; [done|].
    destruct (loadFromDisk rd (disk m)) as [[r|]|] eqn:E; simplify_eq/=. split_and!; eauto.
  - simpl in *. pose proof (run_op_closed _ _ _ _ Ho) as [_ Hcl]. split_and!; eauto.
    + by destruct (persistedData m).
    + eapply run_op_unique; [|done]. tauto.
    + intros Hm. destruct Hs as (_ & _ & Hs). apply (run_op_unmodified _ _ _ _ Ho) in Hm as [-> ?]. auto.
  - simpl in *. destruct (persistedData m) as [r|] eqn:Hpr; [|done]. unfold Commit in Hc.
    destruct Hs as (Hcl & Hu & _). rewrite Hcl in Hc. destruct (isModified s); simpl in Hc.
    + destruct (writeToDisk _ _ _) as [[[d t] e]|] eqn:Hw; [|done]. simpl in Hc. destruct e as [e|]; simplify_eq/=.
      * apply writeToDisk_failed in Hw as ->. rewrite Hpr. split_and!; eauto.
      * apply writeToDisk_on_disk in Hw as [Hd Ht].
        assert (stored d t) by (split; [done|]; unfold root_unique; by rewrite Ht). split_and!; eauto.
    + simplify_eq/=. rewrite Hpr. split_and!; eauto.
  - simpl in *. destruct (persistedData m) as [r|] eqn:Hpr; [|done]. unfold Cancel in Hc.
    destruct (isClosed s); simplify_eq/=. rewrite Hpr. split_and!; eauto.
  - simpl. split_and!; eauto.
Qed.

Lemma machine_reachable_inv x : reachable x → machine_inv x.
Proof. intros (x0 & Hx0 & Hs). apply initial_inv in Hx0. induction Hs; eauto using step_inv. Qed.
End machine_lemmas.

(** ** The cooldown of a released reservation *)

(** Operations that do not drop the entry [key] of [poolKey] before [c]. *)
Definition respects (poolKey key : string) (c : Z) (o : op) : Prop :=
  match o with
  | OpRelease pk id ifName cooldown => pk = poolKey → getKey id ifName = key → c ≤ cooldown
  | OpRemovePool pk => pk ≠ poolKey
  | _ => True
  end.

Lemma run_op_cooldown now s o s' poolKey key r t c :
  Entries (pool_of s poolKey) !! key = Some r → ReleasedAt r = Some t → 0 < c →
  clock_ns now - t < c → respects poolKey key c o → run_op now s o = Some s' →
  Entries (pool_of s' poolKey) !! key = Some r.
Proof.
  intros Hr Ht Hc Hn Ho. destruct o as [pk id ifn meta a|pk id ifn cd|pk|pk ip]; simpl in *.
  - unfold Reserve, checkClosed. case_match; [done|]. simpl. fold (pool_of s pk).
    case_bool_decide as Hk; [by intros [= <-]|]. destruct (existsb _ _); [by intros [= <-]|]. intros [= <-].
    rewrite pool_of_update. case_decide; [|done]. subst. simpl. rewrite lookup_insert_ne; [done|].
    intros <-. apply Hk. eauto.
  - destruct (ReleaseReservationByID now s pk id ifn cd) as [[s1 b]|] eqn:E; [|done]. intros [= <-].
    apply Release_cases in E. simpl in E.
    destruct (decide (pk = poolKey ∧ getKey id ifn = key)) as [[-> <-]|Hne].
    + rewrite Hr, Ht in E. assert (c ≤ cd) as Hcd by auto. rewrite (proj2 (Z.leb_gt _ _)) in E by lia.
      unfold time_Since in E. rewrite (proj2 (Z.leb_gt _ _)) in E by lia. unfold IsReleased in E. rewrite Ht in E.
      simpl in E. by destruct E as [-> _].
    + destruct (Entries (pool_of s pk) !! getKey id ifn); [|by destruct E as [-> _]].
      destruct (_ || _); [|destruct (IsReleased _)]; destruct E as [-> _]; [|done|];
        rewrite pool_of_update; (case_decide; [|done]); subst; simpl;
        rewrite ?lookup_delete_ne, ?lookup_insert_ne by naive_solver; done.
  - unfold RemovePool, checkClosed. case_match; [done|]. intros [= <-]. unfold pool_of, getPoolData in *. simpl.
    by rewrite lookup_delete_ne.
  - unfold SetLastReservedIP, checkClosed. case_match; [done|]. intros [= <-]. rewrite pool_of_update.
    case_decide; [|done]. by subst.
Qed.

Lemma run_ops_steps `{RootCodec} m s os s' :
  run_ops s os = Some s' → rtc step (m, Some s) (m, Some s').
Proof.
  revert s. induction os as [|[now o] os IH]; intros s; simpl; [intros [= <-]; apply rtc_refl|].
  destruct (run_op now s o) as [s1|] eqn:E; [|done]. intros Hr. eapply rtc_l; [by eapply step_op|]. by apply IH.
Qed.

Lemma run_ops_cooldown s os s' poolKey key r t c :
  Entries (pool_of s poolKey) !! key = Some r → ReleasedAt r = Some t → 0 < c → isClosed s = false →
  Forall (λ x, clock_ns x.1 - t < c ∧ respects poolKey key c x.2) os → run_ops s os = Some s' →
  isClosed s' = false ∧ Entries (pool_of s' poolKey) !! key = Some r.
Proof.
  intros Hr Ht Hc Hcl Hos. revert s Hr Hcl. induction Hos as [|[now o] os [Hn Ho] _ IH]; intros s Hr Hcl; simpl.
  - by intros [= <-].
  - destruct (run_op now s o) as [s1|] eqn:E; [|done]. apply IH; [by eapply run_op_cooldown|].
    by eapply run_op_closed.
Qed.

(** The session refuses every reservation of the address [a], does not report the
    reservation [key] to its former owner, and drops it on a release after [t + c]. *)
Definition cooling (s : session) (poolKey id ifName : string) (t c : Z) (a : IP) : Prop :=
  GetReservationByID s poolKey id ifName = Some None ∧
  (∀ now id' ifName' meta, ∃ e, Reserve now s poolKey id' ifName' meta a = Some (s, Some e)) ∧
  (∀ now, c ≤ clock_ns now - t → ∃ s',
     ReleaseReservationByID now s poolKey id ifName c = Some (s', true) ∧
     Entries (pool_of s' poolKey) !! getKey id ifName = None).

Lemma entry_cooling s poolKey id ifName r t c a :
  isClosed s = false → Entries (pool_of s poolKey) !! getKey id ifName = Some r → ReleasedAt r = Some t →
  0 < c < 2 ^ 63 → IP_Equal a (IPAddress r) = true → cooling s poolKey id ifName t c a.
Proof.
  intros Hcl Hr Ht Hc Ha. split_and!.
  - unfold GetReservationByID, checkClosed. rewrite Hcl. fold (pool_of s poolKey). rewrite Hr.
    unfold IsReleased. by rewrite Ht.
  - intros now id' ifName' meta. unfold Reserve, checkClosed. rewrite Hcl. fold (pool_of s poolKey).
    case_bool_decide; [by eexists|]. destruct (existsb _ _) eqn:E; [by eexists|].
    rewrite address_free in E. by rewrite (E _ _ Hr) in Ha.
  - intros now Hn. destruct (ReleaseReservationByID now s poolKey id ifName c) as [[s1 b]|] eqn:E.
    + apply Release_cases in E. simpl in E. rewrite Hr, Ht in E.
      unfold time_Since in E. rewrite (proj2 (Z.leb_le c (Z.max _ _))) in E by lia. rewrite orb_true_r in E.
      destruct E as [-> ->]. eexists. split; [done|]. rewrite pool_of_update, decide_True by done. simpl.
      apply lookup_delete_eq.
    + unfold ReleaseReservationByID, checkClosed in E. rewrite Hcl in E. done.
Qed.

(** The release of an active reservation, with a cooldown: it is only marked. *)
Lemma Release_active now s poolKey id ifName r c :
  isClosed s = false → Entries (pool_of s poolKey) !! getKey id ifName = Some r → ReleasedAt r = None → 0 < c →
  ∃ s1, ReleaseReservationByID now s poolKey id ifName c = Some (s1, false) ∧ isClosed s1 = false ∧
    Entries (pool_of s1 poolKey) !! getKey id ifName = Some (set_ReleasedAt r (Some (clock_ns now))).
Proof.
  intros Hcl Hr Ht Hc. destruct (ReleaseReservationByID now s poolKey id ifName c) as [[s1 b]|] eqn:E.
  - pose proof E as E0. apply Release_cases in E. simpl in E. unfold IsReleased in E. rewrite Hr, Ht in E.
    rewrite (proj2 (Z.leb_gt _ _)) in E by done. destruct E as [-> ->]. eexists. split; [done|]. split; [done|].
    rewrite pool_of_update, decide_True by done. apply lookup_insert_eq.
  - unfold ReleaseReservationByID, checkClosed in E. by rewrite Hcl in E.
Qed.

Lemma Release_marked now s poolKey id ifName r c s1 :
  Entries (pool_of s poolKey) !! getKey id ifName = Some r → ReleasedAt r = None → 0 < c →
  ReleaseReservationByID now s poolKey id ifName c = Some (s1, false) → isModified s1 = true.
Proof.
  intros Hr Ht Hc E. apply Release_cases in E. simpl in E. unfold IsReleased in E. rewrite Hr, Ht in E.
  rewrite (proj2 (Z.leb_gt _ _)) in E by done. by destruct E as [-> _].
Qed.

Lemma run_ops_modified s os s' : run_ops s os = Some s' → isModified s = true → isModified s' = true.
Proof.
  revert s. induction os as [|[now o] os IH]; intros s; simpl; [by intros [= <-]|].
  destruct (run_op now s o) as [s1|] eqn:E; [|done]. intros Hrun Hm. apply (IH s1 Hrun).
  destruct (isModified s1) eqn:Hm1; [done|]. apply (run_op_unmodified _ _ _ _ E) in Hm1 as [_ ?]. congruence.
Qed.

Lemma IP_Equal_text_ok a b : IP_Equal a b = true → ip_text_ok b → ip_text_ok a.
Proof.
  intros E Hb. destruct (decide (length a = length b)) as [El|El].
  - unfold IP_Equal in E. rewrite bool_decide_true in E by done. by apply bool_decide_eq_true in E as ->.
  - right. assert (length a = 4%nat ∨ length a = 16%nat) as Hl.
    { unfold IP_Equal in E. rewrite bool_decide_false in E by done. repeat case_bool_decide; naive_solver. }
    unfold addr_of. case_bool_decide as H4; [by eexists|]. case_bool_decide as H6; [by eexists|]. exfalso.
    destruct Hl as [Hl|Hl]; [|done]. unfold To4 in H4. rewrite bool_decide_true in H4 by done. by subst a.
Qed.

(** ** The cooldown across sessions *)

Section cooldown.
Context `{RootCodecLaws} (poolKey key : string) (t c : Z) (r : Reservation).

(** The steps of the store before [t + c]: sessions are opened, committed with or
    without success and cancelled, the process restarts, and the operations of a
    session do not drop the reservation by a smaller cooldown or with its pool. *)
Inductive cool_step : store * option session → store * option session → Prop :=
| cool_op now o m s s' :
    clock_ns now - t < c → respects poolKey key c o → run_op now s o = Some s' → cool_step (m, Some s) (m, Some s')
| cool_other x y : step x y → x.2 = None ∨ y.2 = None → cool_step x y.

(** The reservation is in the data, up to the form of its address. *)
Definition has_entry (d : Root) : Prop :=
  ∃ e, Entries (getPoolData poolKey d) !! key = Some e ∧ norm_reservation e = norm_reservation r ∧ ip_text_ok (IPAddress e).

Lemma has_entry_equiv d d' : root_equiv d' d → root_texts_ok d' → has_entry d → has_entry d'.
Proof using Type.
  intros E O (e & He & Hn & _). destruct (root_equiv_entries _ _ _ _ _ E He) as (e' & He' & Hn').
  exists e'. split; [done|]. split; [congruence|]. unfold getPoolData in He'.
  destruct (Pools d' !! poolKey) as [p|] eqn:Hp; [|simpl in He'; by rewrite lookup_empty in He'].
  by apply (proj2 (O _ _ Hp) key).
Qed.

Lemma has_entry_pools d d' : Pools d' = Pools d → has_entry d → has_entry d'.
Proof using Type. intros E (e & He). exists e. unfold getPoolData in *. by rewrite E. Qed.

(** A store whose data, in the file and in memory, has the reservation. *)
Definition cool_store (m : store) : Prop :=
  (∃ d, stored (disk m) d ∧ has_entry d) ∧ ∀ d, persistedData m = Some d → has_entry d.

Definition cool_inv (x : store * option session) : Prop :=
  machine_inv x ∧ cool_store x.1 ∧ ∀ s, x.2 = Some s → has_entry (tmpData s).

(** A commit writes the reservation of its session. *)
Lemma commit_written w m s m' s' :
  machine_inv (m, Some s) → has_entry (tmpData s) → isModified s = true → Commit w m s = Some (m', s', None) → cool_store m'.
Proof using Type*.
  intros HI Hs Hmod Hc. unfold Commit in Hc. destruct (isClosed s); [done|]. rewrite Hmod in Hc. simpl in Hc.
  destruct (writeToDisk _ _ _) as [[[d' x] err']|] eqn:Hw; [|done]. simpl in Hc. destruct err'; simplify_eq/=.
  apply writeToDisk_on_disk in Hw as [Hw1 Hw2]. apply (has_entry_pools _ x) in Hs; [|done].
  split; [|by intros ? [= <-]]. exists x. split; [|done]. split; [done|].
  destruct HI as (_ & _ & _ & _ & Hu & _). unfold root_unique. by rewrite Hw2.
Qed.

(** What a commit has written has a text. *)
Lemma committed_text w m s m' s' e :
  Entries (pool_of s poolKey) !! key = Some e → isModified s = true → Commit w m s = Some (m', s', None) →
  ip_text_ok (IPAddress e).
Proof using Type*.
  intros He Hmod Hc. unfold Commit in Hc. destruct (isClosed s); [done|]. rewrite Hmod in Hc. simpl in Hc.
  destruct (writeToDisk _ _ _) as [[[d' x] err']|] eqn:Hw; [|done]. simpl in Hc. destruct err'; simplify_eq/=.
  apply writeToDisk_on_disk in Hw as [[O _] Hp]. unfold pool_of, getPoolData in He. rewrite <- Hp in He.
  destruct (Pools x !! poolKey) as [p|] eqn:E; [|simpl in He; by rewrite lookup_empty in He].
  by apply (proj2 (O _ _ E) key).
Qed.

Lemma commit_cool w m s m' s' err :
  machine_inv (m, Some s) → cool_store m → has_entry (tmpData s) → Commit w m s = Some (m', s', err) → cool_store m'.
Proof using Type*.
  intros HI Hm Hs Hc. destruct (isModified s) eqn:Hmod, err as [err|]; [|by eapply commit_written|..];
    unfold Commit in Hc; destruct (isClosed s); try done; rewrite Hmod in Hc; simpl in Hc; [|by simplify_eq/=..].
  destruct (writeToDisk _ _ _) as [[[d' x] err']|] eqn:Hw; [|done]. simpl in Hc. destruct err'; simplify_eq/=.
  by apply writeToDisk_failed in Hw as ->.
Qed.

Lemma open_cool rd m m' s :
  cool_store m → Open rd m = Some (Opened m' s) → cool_store m' ∧ has_entry (tmpData s).
Proof using Type*.
  intros [(d & [Hd Hu] & He) Hp] Ho. unfold Open in Ho. destruct (locked m); [done|].
  destruct (persistedData m) as [x|]; simplify_eq/=.
  - rewrite Root_DeepCopy_id. split; [|by apply Hp]. split; [by exists d|done].
  - destruct (loadFromDisk rd (disk m)) as [[x|]|] eqn:El; simplify_eq/=.
    destruct (load_equiv _ _ _ _ Hd El) as [E O]. assert (has_entry x) by (by eapply has_entry_equiv).
    rewrite Root_DeepCopy_id. split; [|done]. split; [by exists d|by intros ? [= <-]].
Qed.

Lemma cool_step_inv x y : ReleasedAt r = Some t → 0 < c → cool_inv x → cool_step x y → cool_inv y.
Proof using Type*.
  intros Ht Hc (HI & Hm & Hs) Hxy. split.
  { destruct Hxy as [now o m s s' _ _ Ho|]; [|by eapply step_inv]. eapply step_inv; [done|]. by eapply step_op. }
  destruct Hxy as [now o m s s' Hn Ho Hrun|x y Hxy Hnone]; simpl in *.
  - split; [done|]. intros s1 [= <-]. destruct (Hs s eq_refl) as (e & Hle & Hne & Hte).
    exists e. split; [|done]. assert (ReleasedAt e = Some t) by (injection Hne; congruence).
    by eapply run_op_cooldown.
  - destruct Hxy as [rd m m' s Ho|rd m m' e Ho|now o m s s' Ho|w m m' s s' err Hco|m m' s s' Hca|m os]; simpl in *.
    + destruct (open_cool _ _ _ _ Hm Ho). split; [done|]. by intros ? [= <-].
    + split; [|done]. unfold Open in Ho. destruct (locked m); [done|]. destruct Hm as [Hd Hp]. destruct (persistedData m); [done|].
      by destruct (loadFromDisk rd (disk m)) as [[]|]; simplify_eq/=.
    + by destruct Hnone.
    + split; [|done]. eapply (commit_cool w m s); [exact HI|done|by apply Hs|exact Hco].
    + split; [|done]. unfold Cancel in Hca. by destruct (isClosed s); simplify_eq/=.
    + split; [|done]. by destruct Hm.
Qed.

(** Every session that is opened refuses the address. *)
Lemma cool_inv_cooling id ifName m s a :
  key = getKey id ifName → ReleasedAt r = Some t → 0 < c < 2 ^ 63 → IP_Equal a (IPAddress r) = true → ip_text_ok (IPAddress r) →
  cool_inv (m, Some s) → cooling s poolKey id ifName t c a.
Proof using Type*.
  intros Hkey Ht Hc Ha Hr ((_ & _ & _ & Hcl & _) & _ & Hs). destruct (Hs s eq_refl) as (e & He & Hn & Hte). rewrite Hkey in He.
  apply (entry_cooling s poolKey id ifName e); [done|done| |done|]; [injection Hn; congruence|].
  pose proof (IP_Equal_text_ok _ _ Ha Hr). rewrite <- IP_Equal_normalize by done.
  assert (NormalizeIP (IPAddress e) = NormalizeIP (IPAddress r)) as -> by (by injection Hn).
  by rewrite IP_Equal_normalize.
Qed.
End cooldown.

(** ** Properties *)

Section properties.
Context `{RootCodecLaws}.

(** C7: In every state the store can reach from a first start, through any
    sequence of openings, operations, commits (with failing writes), cancels and
    restarts of the process, the lock is held exactly while a session is open,
    that session is not closed, and no address is reserved twice in a pool,
    neither in the session nor in the data of the store. *)
Theorem store_addresses_unique m os :
  reachable (m, os) →
  (locked m = true ↔ is_Some os) ∧
  (∀ s, os = Some s → isClosed s = false ∧ root_unique (tmpData s)) ∧
  (∀ r, persistedData m = Some r → root_unique r).
Proof.
  intros Hr. apply machine_reachable_inv in Hr as (Hl & _ & Hp & Hs). split_and!.
  - rewrite Hl. by apply bool_decide_eq_true.
  - intros s ->. tauto.
  - intros r E. rewrite E in Hp. apply Hp.
Qed.

(** C13: A commit is durable and atomic.  When [Commit] reports success, the data
    of the session is the data of the store, and a new process that reads the
    file opens the same data up to the form of addresses, unless the hash of the
    data is 0, which [Open] then refuses; when it reports an error, the file and
    the data of the store are as before.  The lock is released in both cases. *)
Theorem commit_durable writable m s m' s' err :
  reachable (m, Some s) → Commit writable m s = Some (m', s', err) →
  let m0 := mkStore (disk m') None false in
  locked m' = false ∧
  match err with
  | Some _ => disk m' = disk m ∧ persistedData m' = persistedData m
  | None =>
      ∃ r, persistedData m' = Some r ∧ Pools r = Pools (tmpData s) ∧
        (Checksum r ≠ 0 ∨ empty_file (disk m') →
           ∃ r', Open true m0 = Some (Opened (mkStore (disk m') (Some r') true) (newStore r')) ∧
                 root_equiv r' r) ∧
        (Checksum r = 0 ∧ ¬ empty_file (disk m') →
           Open true m0 = Some (OpenFailed m0 "checksum not set in store file"))
  end.
Proof.
  intros Hr Hc m0. assert (machine_inv (m', None)) as HI
    by (eapply step_inv; [by apply machine_reachable_inv|by eapply step_commit]).
  apply machine_reachable_inv in Hr as (_ & _ & _ & Hcl & _ & Hmod).
  destruct HI as (Hl & _ & Hp & _). split; [done|].
  assert (match err with Some _ => disk m' = disk m ∧ persistedData m' = persistedData m
          | None => ∃ r, persistedData m' = Some r ∧ Pools r = Pools (tmpData s) end) as HC.
  { unfold Commit in Hc. rewrite Hcl in Hc. destruct (isModified s); simpl in Hc; [|simplify_eq/=; eauto].
    destruct (writeToDisk _ _ _) as [[[d t] e]|] eqn:Hw; [|done]. simpl in Hc. destruct e as [e|]; simplify_eq/=.
    - by apply writeToDisk_failed in Hw as ->.
    - apply writeToDisk_on_disk in Hw as [_ Ht]. eauto. }
  destruct err; [done|]. destruct HC as (r & E & Ht). exists r. rewrite E in Hp. destruct Hp as [Hd _].
  destruct (loadFromDisk_on_disk _ _ Hd) as [Hz Hnz]. split_and!; [done..| |].
  - intros Hc0. destruct (Hnz Hc0) as (r' & El & Er & _). exists r'. split; [|done].
    unfold Open. simpl. by rewrite El.
  - intros Hc0. unfold Open. simpl. by rewrite Hz.
Qed.
End properties.

(** [Reserve] on an open session: it reports an existing reservation exactly
    when the key is in use, released or not, a reserved address exactly when the
    address is held under another key, and changes nothing then; otherwise the
    reservation is what [GetReservationByID] finds, the address is the last one
    reserved, and no other key or pool changes. *)
Theorem reserve_exact now s pk id ifn meta a :
  isClosed s = false →
  ∃ s' e, Reserve now s pk id ifn meta a = Some (s', e) ∧
    (e = Some ErrReservationAlreadyExist ↔ is_Some (Entries (pool_of s pk) !! getKey id ifn)) ∧
    (e = Some ErrIPAlreadyReserved ↔
       Entries (pool_of s pk) !! getKey id ifn = None ∧
       ∃ k r, Entries (pool_of s pk) !! k = Some r ∧ IP_Equal a (IPAddress r) = true) ∧
    (e ≠ None → s' = s) ∧
    (e = None →
       GetReservationByID s' pk id ifn =
         Some (Some (mkReservation id ifn a (set_CreateTime meta (clock_text now)) None)) ∧
       GetLastReservedIP s' pk = Some a ∧
       (∀ k, k ≠ getKey id ifn → Entries (pool_of s' pk) !! k = Entries (pool_of s pk) !! k) ∧
       (∀ pk', pk' ≠ pk → pool_of s' pk' = pool_of s pk')).
Proof.
  intros Ho. unfold Reserve, checkClosed. rewrite Ho. fold (pool_of s pk).
  case_bool_decide as Hk; [|destruct (existsb _ _) eqn:Ha].
  - eexists _, _. split; [done|]. split_and!; try done. split; [done|]. intros [E _]. rewrite E in Hk. by destruct Hk.
  - apply eq_None_not_Some in Hk. rewrite Hk. eexists _, _. split; [done|]. split_and!; try done.
    split; [|done]. intros _. split; [done|].
    apply existsb_exists in Ha as ([k r] & Hin & Heq). exists k, r. split; [|done].
    by apply list_elem_of_In, elem_of_map_to_list in Hin.
  - apply eq_None_not_Some in Hk. rewrite Hk. eexists _, _. split; [done|]. split_and!; try done.
    + split; [done|]. intros [_ (k & r & E & Heq)]. rewrite address_free in Ha. by rewrite (Ha _ _ E) in Heq.
    + intros _. unfold GetReservationByID, GetLastReservedIP, checkClosed. simpl isClosed. rewrite Ho.
      fold (pool_of (updatePoolData s pk (mkPoolReservations (pr_Name (pool_of s pk))
        (<[getKey id ifn := mkReservation id ifn a (set_CreateTime meta (clock_text now)) None]> (Entries (pool_of s pk)))
        (PoolConfigSnapshot meta) a)) pk).
      rewrite pool_of_update, decide_True by done. simpl. rewrite lookup_insert_eq. split_and!; [done..| |].
      * intros k N. by rewrite lookup_insert_ne.
      * intros pk' N. by rewrite pool_of_update, decide_False.
Qed.

(** C20: The cooldown is a floor on the reuse of an address.  The release of an
    active reservation with a cooldown [c] reports that nothing was removed and
    only marks the reservation with the time of the release.  Until [c] elapses,
    through the operations of the session and, once its commit has succeeded,
    through all later sessions (operations, commits that succeed or fail, cancels,
    restarts of the process), as long as releases of that reservation ask for at
    least [c] and its pool is not removed: the reservation stays with its first
    release time, its address cannot be reserved under any key, and it is not
    reported to its former owner; a release once the cooldown has elapsed removes
    it. *)
Theorem cooldown_floor `{RootCodecLaws} now0 m s poolKey id ifName r c a :
  reachable (m, Some s) → Entries (pool_of s poolKey) !! getKey id ifName = Some r → ReleasedAt r = None →
  0 < c < 2 ^ 63 → IP_Equal a (IPAddress r) = true →
  let t := clock_ns now0 in
  let released := set_ReleasedAt r (Some t) in
  ∃ s1, ReleaseReservationByID now0 s poolKey id ifName c = Some (s1, false) ∧
    ∀ os s2, run_ops s1 os = Some s2 →
      Forall (λ x, clock_ns x.1 - t < c ∧ respects poolKey (getKey id ifName) c x.2) os →
      Entries (pool_of s2 poolKey) !! getKey id ifName = Some released ∧ cooling s2 poolKey id ifName t c a ∧
      ∀ writable m1 s2', Commit writable m s2 = Some (m1, s2', None) →
        ∀ m' s', rtc (cool_step poolKey (getKey id ifName) t c) (m1, None) (m', Some s') →
          cooling s' poolKey id ifName t c a ∧
          ∃ e, Entries (pool_of s' poolKey) !! getKey id ifName = Some e ∧ norm_reservation e = norm_reservation released.
Proof.
  intros Hr He Hrel Hc Ha t released. pose proof (machine_reachable_inv _ Hr) as (_ & _ & _ & Hcl & _).
  destruct (Release_active now0 s poolKey id ifName r c Hcl He Hrel) as (s1 & E1 & Hcl1 & He1); [lia|].
  exists s1. split; [done|]. intros os s2 Hrun Hos.
  destruct (run_ops_cooldown _ _ _ _ _ _ t c He1 eq_refl ltac:(lia) Hcl1 Hos Hrun) as [Hcl2 He2]. fold released in He2.
  split; [done|]. split; [by eapply entry_cooling|]. intros w m1 s2' Hcom m' s' Hsteps.
  assert (machine_inv (m, Some s2)) as HI.
  { apply machine_reachable_inv. destruct Hr as (x0 & Hx0 & Hx). exists x0. split; [done|]. etrans; [done|].
    eapply rtc_l; [eapply (step_op now0 (OpRelease poolKey id ifName c)); simpl; by rewrite E1|]. by eapply run_ops_steps. }
  assert (isModified s2 = true) as Hmod.
  { apply (run_ops_modified _ _ _ Hrun). eapply (Release_marked now0 s poolKey id ifName r c); [done|done|lia|done]. }
  assert (ip_text_ok (IPAddress released)) as Htext by (by eapply committed_text).
  assert (cool_inv poolKey (getKey id ifName) released (m1, None)) as Hinv.
  { split; [eapply step_inv; [exact HI|by eapply step_commit]|]. split; [|done].
    eapply (commit_written _ _ _ _ m s2); [done| |done|done]. by exists released. }
  assert (cool_inv poolKey (getKey id ifName) released (m', Some s')) as Hend.
  { clear -Hinv Hsteps Hc H0. revert Hinv. induction Hsteps as [|x y z Hxy _ IH]; [done|].
    intros Hx. apply IH. eapply (cool_step_inv _ _ t c); [done|lia|done|done]. }
  split; [by eapply (cool_inv_cooling poolKey (getKey id ifName) t c released)|].
  destruct Hend as (_ & _ & Hs). destruct (Hs s' eq_refl) as (e & Hle & Hne & _). by exists e.
Qed.

(** *** Witnesses *)

Definition example_meta : ReservationMetadata := mkMetadata "" "uid" "pod" "ns" "dev" "snap".
Definition example_ip (x : Z) : IP := ip_of F4 (192 * 2 ^ 24 + 168 * 2 ^ 16 + x).
Definition at_ns (t : Z) : Clock := mkClock t "2024-01-01T00:00:00Z".
Definition example_ops : list (Clock * op) :=
  [ (at_ns 0, OpReserve "pool" "c1" "net1" example_meta (example_ip 5));
    (at_ns 1, OpReserve "pool" "c2" "net1" example_meta (example_ip 6));
    (at_ns 2, OpRelease "pool" "c1" "net1" 100);
    (at_ns 3, OpReserve "pool" "c3" "net1" example_meta (example_ip 5)) ].
Definition example_session : session :=
  match run_ops (newStore NewRoot) example_ops with Some s => s | None => newStore NewRoot end.

Definition example_store : store := mkStore None (Some NewRoot) true.

Lemma ops_reachable `{RootCodec} os s :
  run_ops (newStore NewRoot) os = Some s → reachable (example_store, Some s).
Proof.
  intros E. exists (mkStore None None false, None). split; [apply initial_intro; by left|].
  eapply rtc_l; [apply (step_open true); reflexivity|]. exact (run_ops_steps _ _ os _ E).
Qed.

Lemma example_session_reachable `{RootCodec} : reachable (example_store, Some example_session).
Proof. apply (ops_reachable example_ops). vm_compute. reflexivity. Qed.

Lemma store_addresses_unique_witness :
  reachable (H := bits_codec) (example_store, Some example_session) ∧
  root_unique (tmpData example_session) ∧ size (Entries (pool_of example_session "pool")) = 2%nat.
Proof.
  split_and!; [apply example_session_reachable| |vm_compute; reflexivity].
  refine (proj2 (proj1 (proj2 (store_addresses_unique (H := bits_codec) example_store (Some example_session) _))
    example_session eq_refl)). apply example_session_reachable.
Defined.

Definition small_session : session :=
  match run_op (mkClock 0 "") (newStore NewRoot)
          (OpReserve "p" "c" "i" (mkMetadata "" "" "" "" "" "") (ip_of F4 1)) with
  | Some s => s | None => newStore NewRoot end.

Lemma commit_durable_witness :
  let c := bits_codec in
  reachable (example_store, Some small_session) ∧
  ∃ m' s', Commit true example_store small_session = Some (m', s', None) ∧
    ∃ r, persistedData m' = Some r ∧ Pools r = Pools (tmpData small_session) ∧ Checksum r ≠ 0.
Proof.
  intros c. assert (reachable (example_store, Some small_session)) as Hr
    by (apply (ops_reachable [(mkClock 0 "", OpReserve "p" "c" "i" (mkMetadata "" "" "" "" "" "") (ip_of F4 1))]);
        reflexivity).
  split; [exact Hr|].
  assert (match Commit true example_store small_session with
          | Some (m', s', None) => match persistedData m' with Some r => negb (Checksum r =? 0) | None => false end
          | _ => false end = true) as Hv by (vm_compute; reflexivity).
  destruct (Commit true example_store small_session) as [[[m' s'] [err|]]|] eqn:E;
    [discriminate Hv| |discriminate Hv].
  destruct (commit_durable true example_store small_session m' s' None Hr E) as [_ (r & Er & Hp & _)].
  exists m', s'. split; [reflexivity|]. exists r. split; [exact Er|]. split; [exact Hp|].
  rewrite Er in Hv. apply negb_true_iff, Z.eqb_neq in Hv. exact Hv.
Defined.

Lemma reserve_exact_witness :
  isClosed example_session = false ∧
  ∃ s' e, Reserve (at_ns 9) example_session "pool" "c4" "net1" example_meta (example_ip 7) = Some (s', e).
Proof.
  split; [vm_compute; reflexivity|].
  destruct (reserve_exact (at_ns 9) example_session "pool" "c4" "net1" example_meta (example_ip 7)) as (s' & e & E & _);
    [vm_compute; reflexivity|].
  exists s', e. exact E.
Defined.

Definition cooling_ops : list (Clock * op) :=
  [ (mkClock 0 "", OpReserve "p" "c" "i" (mkMetadata "" "" "" "" "" "") (ip_of F4 1)) ].
Definition active_session : session :=
  match run_ops (newStore NewRoot) cooling_ops with Some s => s | None => newStore NewRoot end.
Definition later_ops : list (Clock * op) :=
  [ (mkClock 50 "", OpReserve "p" "d" "i" (mkMetadata "" "" "" "" "" "") (ip_of F4 1)); (mkClock 60 "", OpRelease "p" "c" "i" 100) ].

(** The state after the release, the later operations, the commit, a restart and a
    new session. *)
Definition reopened `{RootCodec} : option (session * store * store * session) :=
  '(s1, _) ← ReleaseReservationByID (mkClock 2 "") active_session "p" "c" "i" 100;
  s2 ← run_ops s1 later_ops;
  '(m1, _, err) ← Commit true example_store s2;
  match err, Open true (mkStore (disk m1) None false) with
  | None, Some (Opened m' s') => Some (s2, m1, m', s')
  | _, _ => None
  end.

Lemma cooldown_floor_witness :
  ∃ m' s', (∃ s2 m1, reopened (H := bits_codec) = Some (s2, m1, m', s')) ∧ cooling s' "p" "c" "i" 2 100 (ip_of F4 1).
Proof.
  destruct (reopened (H := bits_codec)) as [[[[s2 m1] m'] s']|] eqn:E; [|vm_compute in E; discriminate].
  exists m', s'. split; [exists s2, m1; reflexivity|].
  destruct (cooldown_floor (H := bits_codec) (mkClock 2 "") example_store active_session "p" "c" "i"
    (mkReservation "c" "i" (ip_of F4 1) (mkMetadata "" "" "" "" "" "") None) 100 (ip_of F4 1)) as (s1 & E1 & H);
    [apply (ops_reachable cooling_ops); vm_compute; reflexivity|vm_compute; reflexivity|reflexivity|split; vm_compute; reflexivity|vm_compute; reflexivity|].
  unfold reopened in E. rewrite E1 in E. cbn [mbind option_bind] in E.
  destruct (run_ops s1 later_ops) as [s2'|] eqn:E2; [|discriminate]. cbn [mbind option_bind] in E.
  destruct (Commit true example_store s2') as [[[m1' s2''] [err|]]|] eqn:E3; [discriminate| |discriminate].
  cbn [mbind option_bind] in E. destruct (Open true (mkStore (disk m1') None false)) as [[m2 s3| |]|] eqn:E4; try discriminate.
  injection E as <- <- <- <-. destruct (H later_ops s2' E2) as (_ & _ & Hlater); [repeat constructor; simpl; solve [lia | vm_compute; discriminate | vm_compute; reflexivity]|].
  apply (Hlater true m1' s2'' E3 m2 s3). eapply rtc_l; [apply cool_other; [apply step_restart|left; reflexivity]|].
  apply rtc_once, cool_other; [eapply step_open; exact E4|left; reflexivity].
Defined.
