(* ===== verification/StoreMemory.v ===== *)
(** * The store in memory: [pkg/ipam-node/{types/types.go,types/checksum.go,store/store.go}]

    [Store] passes the data of a session as a value.  In the code the store and the
    session hold pointers to a [Root], whose pools, entries and addresses are maps and
    slices: the promise that [Cancel] reverts everything rests on [DeepCopy].  Here the
    same functions work on memory ([Memory]), and [session_memory_refines] shows that
    they do what the functions on values do. *)

From Stdlib Require Import Strings.Byte.
From S2P Require Import Prelude Memory GoNet Cidr NodeTypes Store.

(** ** Structures, as they are in memory

    A slice and a map are a location, [None] when they are [nil]. *)

Record mReservation := mkMReservation {
  m_ContainerID : string;
  m_InterfaceName : string;
  m_IPAddress : option loc;
  m_Metadata : ReservationMetadata;
  m_ReleasedAt : option Z;
}.

Record mPoolReservations := mkMPool {
  m_Name : string;
  m_Entries : option loc;
  m_LastPoolConfig : string;
  m_LastReservedIP : option loc;
}.

Record mRoot := mkMRoot {
  m_Version : Z;
  m_Checksum : Z;
  m_Pools : option loc;
}.

Inductive store_cell :=
| CBytes (b : list byte)
| CEntries (m : gmap string mReservation)
| CPools (m : gmap string mPoolReservations)
| CRoot (r : mRoot).

#[global] Instance bytes_cell : Cell store_cell (list byte).
Proof. by refine {| to_cell := CBytes; of_cell c := match c with CBytes x => Some x | _ => None end |}; [|intros [] ? [= ->]]. Defined.
#[global] Instance entries_cell : Cell store_cell (gmap string mReservation).
Proof. by refine {| to_cell := CEntries; of_cell c := match c with CEntries x => Some x | _ => None end |}; [|intros [] ? [= ->]]. Defined.
#[global] Instance pools_cell : Cell store_cell (gmap string mPoolReservations).
Proof. by refine {| to_cell := CPools; of_cell c := match c with CPools x => Some x | _ => None end |}; [|intros [] ? [= ->]]. Defined.
#[global] Instance root_cell : Cell store_cell mRoot.
Proof. by refine {| to_cell := CRoot; of_cell c := match c with CRoot x => Some x | _ => None end |}; [|intros [] ? [= ->]]. Defined.

Abbreviation smem := (mem store_cell).
Abbreviation sheap := (gmap positive store_cell).
#[local] Open Scope mem_scope.

Lemma load_root l r (h : sheap) : h !! l = Some (CRoot r) → load l h = Some (r, h).
Proof. apply (mem_load (H := root_cell)). Qed.
Lemma store_root l r r' (h : sheap) : h !! l = Some (CRoot r) → store_at l r' h = Some (tt, <[l := CRoot r']> h).
Proof. apply (mem_store (H := root_cell)). Qed.

(** ** Copies *)

Definition m_Reservation_DeepCopy (r : mReservation) : smem mReservation :=
  let% ip := slice_copy (A := byte) (m_IPAddress r) in
  mret (mkMReservation (m_ContainerID r) (m_InterfaceName r) ip (ReservationMetadata_DeepCopy (m_Metadata r)) (m_ReleasedAt r)).

Definition m_PoolReservations_DeepCopy (p : mPoolReservations) : smem mPoolReservations :=
  let% entries := map_copy m_Reservation_DeepCopy (m_Entries p) in
  let% ip := slice_copy (A := byte) (m_LastReservedIP p) in
  mret (mkMPool (m_Name p) entries (m_LastPoolConfig p) ip).

Definition m_Root_DeepCopy (l : loc) : smem loc :=
  let% r := load (A := mRoot) l in
  let% pools := map_copy m_PoolReservations_DeepCopy (m_Pools r) in
  alloc (mkMRoot (m_Version r) (m_Checksum r) pools).

(** ** Reading everything, as [json.Marshal] does *)

Definition m_read_reservation (r : mReservation) : smem Reservation :=
  let% ip := slice_read (A := byte) (m_IPAddress r) in
  mret (mkReservation (m_ContainerID r) (m_InterfaceName r) ip (m_Metadata r) (m_ReleasedAt r)).

Definition m_read_pool (p : mPoolReservations) : smem PoolReservations :=
  let% es := map_read m_read_reservation (m_Entries p) in
  let% ip := slice_read (A := byte) (m_LastReservedIP p) in
  mret (mkPoolReservations (m_Name p) es (m_LastPoolConfig p) ip).

Definition m_read_root (l : loc) : smem Root :=
  let% r := load (A := mRoot) l in
  let% ps := map_read m_read_pool (m_Pools r) in
  mret (mkRoot (m_Version r) (m_Checksum r) ps).

(** ** Sessions *)

Record mSession := mkMSession {
  ms_persistedData : loc;
  ms_tmpData : loc;
  ms_isModified : bool;
  ms_isClosed : bool;
}.

Definition m_newStore (persistentData : loc) : smem mSession :=
  let% tmp := m_Root_DeepCopy persistentData in
  mret (mkMSession persistentData tmp false false).

(** A panic on a closed session. *)
Definition m_checkClosed {A} (s : mSession) (k : smem A) : smem A := if ms_isClosed s then mfail else k.

(** [NewPoolReservations]; the caller has the only reference. *)
Definition m_NewPoolReservations (name : string) : smem mPoolReservations :=
  let% l := alloc (∅ : gmap string mReservation) in mret (mkMPool name (Some l) "" None).

(** [&res] is a copy of the structure, with the same map and slice. *)
Definition m_getPoolData (poolKey : string) (layout : loc) : smem mPoolReservations :=
  let% r := load (A := mRoot) layout in
  let% ps := map_load (m_Pools r) in
  match ps !! poolKey with
  | Some res =>
      match m_Entries res with
      | Some _ => mret res
      | None =>
          let% l := alloc (∅ : gmap string mReservation) in
          mret (mkMPool (m_Name res) (Some l) (m_LastPoolConfig res) (m_LastReservedIP res))
      end
  | None => m_NewPoolReservations poolKey
  end.

(** An assignment to an element: it panics on a [nil] map. *)
Definition map_assign `{Cell store_cell (gmap string A)} (p : option loc) (k : string) (x : A) : smem unit :=
  match p with
  | None => mfail
  | Some l => let% m := load (A := gmap string A) l in store_at l (<[k := x]> m)
  end.

Definition map_delete `{Cell store_cell (gmap string A)} (p : option loc) (k : string) : smem unit :=
  match p with
  | None => mret tt
  | Some l => let% m := load (A := gmap string A) l in store_at l (delete k m)
  end.

Definition m_updatePoolData (s : mSession) (poolKey : string) (poolData : mPoolReservations) : smem mSession :=
  let% r := load (A := mRoot) (ms_tmpData s) in
  let% _ := map_assign (m_Pools r) poolKey poolData in
  mret (mkMSession (ms_persistedData s) (ms_tmpData s) true (ms_isClosed s)).

(** The loop over the entries in [Reserve]. *)
Fixpoint m_any_equal (address : IP) (rs : list (string * mReservation)) : smem bool :=
  match rs with
  | [] => mret false
  | (_, r) :: rs =>
      let% ip := slice_read (A := byte) (m_IPAddress r) in
      if IP_Equal address ip then mret true else m_any_equal address rs
  end.

Definition m_Reserve (now : Clock) (s : mSession) (poolKey id ifName : string)
    (meta : ReservationMetadata) (address : option loc) : smem (mSession * option reserve_error) :=
  m_checkClosed s (
    let reservationKey := getKey id ifName in
    let% poolData := m_getPoolData poolKey (ms_tmpData s) in
    let% es := map_load (A := mReservation) (m_Entries poolData) in
    if bool_decide (is_Some (es !! reservationKey)) then mret (s, Some ErrReservationAlreadyExist)
    else
      let% a := slice_read (A := byte) address in
      let% equal := m_any_equal a (map_to_list es) in
      if equal : bool then mret (s, Some ErrIPAlreadyReserved)
      else
        let poolData := mkMPool (m_Name poolData) (m_Entries poolData) (PoolConfigSnapshot meta) address in
        let reservation := mkMReservation id ifName address (set_CreateTime meta (clock_text now)) None in
        let% _ := map_assign (m_Entries poolData) reservationKey reservation in
        let% s := m_updatePoolData s poolKey poolData in
        mret (s, None)).

Definition m_RemovePool (s : mSession) (poolKey : string) : smem mSession :=
  m_checkClosed s (
    let% r := load (A := mRoot) (ms_tmpData s) in
    let% _ := map_delete (A := mPoolReservations) (m_Pools r) poolKey in
    mret (mkMSession (ms_persistedData s) (ms_tmpData s) true (ms_isClosed s))).

Definition m_SetLastReservedIP (s : mSession) (poolKey : string) (ip : option loc) : smem mSession :=
  m_checkClosed s (
    let% poolData := m_getPoolData poolKey (ms_tmpData s) in
    m_updatePoolData s poolKey
      (mkMPool (m_Name poolData) (m_Entries poolData) (m_LastPoolConfig poolData) ip)).

Definition m_ReleaseReservationByID (now : Clock) (s : mSession) (poolKey id ifName : string)
    (cooldown : Z) : smem (mSession * bool) :=
  m_checkClosed s (
    let key := getKey id ifName in
    let% poolData := m_getPoolData poolKey (ms_tmpData s) in
    let% es := map_load (A := mReservation) (m_Entries poolData) in
    match es !! key with
    | None => mret (s, false)
    | Some r =>
        let released := match m_ReleasedAt r with Some _ => true | None => false end in
        let expired :=
          match m_ReleasedAt r with Some t => cooldown <=? time_Since (clock_ns now) t | None => false end in
        if (0 <? cooldown) && released && negb expired then mret (s, false)
        else
          let remove := (cooldown <=? 0) || expired in
          let% _ :=
            (if remove then map_delete (A := mReservation) (m_Entries poolData) key
             else map_assign (m_Entries poolData) key
                    (mkMReservation (m_ContainerID r) (m_InterfaceName r) (m_IPAddress r) (m_Metadata r) (Some (clock_ns now)))) in
          let% s := m_updatePoolData s poolKey poolData in
          mret (s, remove)
    end).

Definition m_GetLastReservedIP (s : mSession) (poolKey : string) : smem (option loc) :=
  m_checkClosed s (let% poolData := m_getPoolData poolKey (ms_tmpData s) in mret (m_LastReservedIP poolData)).

(** A copy of the structure; its address is the slice of the session. *)
Definition m_GetReservationByID (s : mSession) (poolKey id ifName : string) : smem (option mReservation) :=
  m_checkClosed s (
    let% poolData := m_getPoolData poolKey (ms_tmpData s) in
    let% es := map_load (A := mReservation) (m_Entries poolData) in
    match es !! getKey id ifName with
    | None => mret None
    | Some r => mret (match m_ReleasedAt r with Some _ => None | None => Some r end)
    end).

Definition m_Cancel (s : mSession) : smem mSession :=
  m_checkClosed s (mret (mkMSession (ms_persistedData s) (ms_tmpData s) (ms_isModified s) true)).

(** ** The checksum, and [Commit] *)

Section commit.
Context `{RootCodec}.

Fixpoint mem_iter {A} (f : A → smem unit) (l : list A) : smem unit :=
  match l with [] => mret tt | x :: l => let% _ := f x in mem_iter f l end.

(** [entry.ReleasedAt = time.Time{}; pool.Entries[key] = entry] in the two loops. *)
Definition m_strip_entry (r : mReservation) : mReservation :=
  mkMReservation (m_ContainerID r) (m_InterfaceName r) (m_IPAddress r) (m_Metadata r) None.

Definition m_strip_pool (p : mPoolReservations) : smem unit :=
  let% es := map_load (A := mReservation) (m_Entries p) in
  mem_iter (λ kr, map_assign (m_Entries p) kr.1 (m_strip_entry kr.2)) (map_to_list es).

Definition m_getChecksum (l : loc) : smem Z :=
  let% stripped := m_Root_DeepCopy l in
  let% r := load (A := mRoot) stripped in
  let% _ := store_at stripped (mkMRoot (m_Version r) 0 (m_Pools r)) in
  let% ps := map_load (A := mPoolReservations) (m_Pools r) in
  let% _ := mem_iter (λ kp, m_strip_pool kp.2) (map_to_list ps) in
  let% v := m_read_root stripped in
  match Marshal v with None => mfail | Some data => mret (fnv32a data) end.

Definition m_writeToDisk (writable : bool) (file : option (list byte)) (src : loc) :
    smem (option (list byte) * option error) :=
  let% c := m_getChecksum src in
  let% r := load (A := mRoot) src in
  let% _ := store_at src (mkMRoot (m_Version r) c (m_Pools r)) in
  let% v := m_read_root src in
  match Marshal v with
  | None => mret (file, Some "failed to marshal store persistedData: %v")
  | Some data =>
      if writable then mret (Some data, None) else mret (file, Some "failed to write store persistedData: %v")
  end.

Definition m_Commit (writable : bool) (file : option (list byte)) (s : mSession) :
    smem (option (list byte) * mSession * option error) :=
  m_checkClosed s (
    let closed := mkMSession (ms_persistedData s) (ms_tmpData s) (ms_isModified s) true in
    if negb (ms_isModified s) then mret (file, closed, None)
    else
      let% fe := m_writeToDisk writable file (ms_tmpData s) in
      match fe with
      | (file, Some err) => mret (file, closed, Some err)
      | (file, None) =>
          let% t := load (A := mRoot) (ms_tmpData s) in
          let% _ := store_at (ms_persistedData s) t in
          mret (file, closed, None)
      end).
End commit.

(** ** What memory stands for *)

Definition anywhere : area := λ _, True.

Definition rep_reservation : @representation store_cell mReservation Reservation := λ L h r v,
  ∃ ip, rep_slice L h (m_IPAddress r) ip ∧
    v = mkReservation (m_ContainerID r) (m_InterfaceName r) ip (m_Metadata r) (m_ReleasedAt r).

Definition rep_pool : @representation store_cell mPoolReservations PoolReservations := λ L h p v,
  ∃ es ip, rep_map rep_reservation L h (m_Entries p) es ∧ rep_slice L h (m_LastReservedIP p) ip ∧
    v = mkPoolReservations (m_Name p) es (m_LastPoolConfig p) ip.

(** [loadFromDisk] gives data whose map of pools is not [nil]. *)
Definition rep_root : @representation store_cell loc Root := λ L h l v,
  L l ∧ ∃ r ps, h !! l = Some (CRoot r) ∧ is_Some (m_Pools r) ∧ rep_map rep_pool L h (m_Pools r) ps ∧
    v = mkRoot (m_Version r) (m_Checksum r) ps.

#[global] Instance rep_reservation_local : Local rep_reservation.
Proof. intros L L' h h' r v HL Hk (ip & Hip & ->). exists ip. split; [|done]. by eapply (local (R := rep_slice)). Qed.

#[global] Instance rep_pool_local : Local rep_pool.
Proof.
  intros L L' h h' p v HL Hk (es & ip & Hes & Hip & ->). exists es, ip. split_and!; [| |done].
  - by eapply (local (R := rep_map rep_reservation)).
  - by eapply (local (R := rep_slice)).
Qed.

#[global] Instance Reservation_deep_copy : DeepCopy m_Reservation_DeepCopy rep_reservation.
Proof.
  intros L h r v (ip & Hip & ->). destruct (deep_copy (R := rep_slice) L h _ _ Hip) as (s & h' & E & Hs & Hr).
  eexists _, h'. unfold m_Reservation_DeepCopy. rewrite (mem_bind _ _ _ _ _ E). split; [done|]. split; [done|].
  exists ip. split; [done|]. by destruct (m_Metadata r).
Qed.

#[global] Instance PoolReservations_deep_copy : DeepCopy m_PoolReservations_DeepCopy rep_pool.
Proof.
  intros L h p v (es & ip & Hes & Hip & ->).
  destruct (deep_copy (R := rep_map rep_reservation) L h _ _ Hes) as (e & h1 & E1 & Hs1 & He).
  destruct (deep_copy (R := rep_slice) L h1 _ _ (local_grow rep_slice L h h1 _ _ Hs1 Hip)) as (s & h2 & E2 & Hs2 & Hr).
  eexists _, h2. unfold m_PoolReservations_DeepCopy. rewrite (mem_bind _ _ _ _ _ E1), (mem_bind _ _ _ _ _ E2).
  split; [done|]. split; [by etrans|]. exists es, ip. split_and!; [| |done].
  - eapply (local (R := rep_map rep_reservation)); [|by apply keeps_sub|exact He]. intros l. by apply fresh_in_l.
  - eapply (local (R := rep_slice)); [|apply keeps_refl|exact Hr]. intros l. by apply fresh_in_r.
Qed.

#[global] Instance reservation_reads : Reads m_read_reservation rep_reservation.
Proof.
  intros L h r v (ip & Hip & ->). unfold m_read_reservation.
  by rewrite (mem_bind _ _ _ _ _ (reads (R := rep_slice) L h _ _ Hip)).
Qed.

#[global] Instance pool_reads : Reads m_read_pool rep_pool.
Proof.
  intros L h p v (es & ip & Hes & Hip & ->). unfold m_read_pool.
  by rewrite (mem_bind _ _ _ _ _ (map_reads _ _ _ _ _ _ _ Hes)), (mem_bind _ _ _ _ _ (reads (R := rep_slice) L h _ _ Hip)).
Qed.

#[global] Instance root_reads : Reads m_read_root rep_root.
Proof.
  intros L h l v (_ & r & ps & Hr & _ & Hps & ->). unfold m_read_root.
  by rewrite (mem_bind _ _ _ _ _ (load_root l r h Hr)), (mem_bind _ _ _ _ _ (map_reads _ _ _ _ _ _ _ Hps)).
Qed.

(** ** The data of a session

    [working h0 h l v]: the session that started in the memory [h0] has its data at [l],
    and it stands for [v]; the structures and maps that its operations write to did not
    exist in [h0], and no two pools have one map of entries.  Addresses are never written
    to and may be shared. *)

Definition owner (h0 : sheap) (ps : gmap string mPoolReservations) (k : string) (le : loc) : Prop :=
  h0 !! le = None ∧ ∀ k' p', ps !! k' = Some p' → m_Entries p' = Some le → k' = k.

Record working_at (h0 h : sheap) (l : loc) (v : Root) (r : mRoot) (lp : loc) (ps : gmap string mPoolReservations) : Prop := {
  w_root : h !! l = Some (CRoot r);
  w_new : h0 !! l = None ∧ h0 !! lp = None;
  w_pools : m_Pools r = Some lp ∧ h !! lp = Some (CPools ps);
  w_header : Version v = m_Version r ∧ Checksum v = m_Checksum r;
  w_owner : ∀ k p le, ps !! k = Some p → m_Entries p = Some le → owner h0 ps k le;
  w_rep : map_Forall2 (λ _, rep_pool anywhere h) ps (Pools v);
}.

Definition working (h0 h : sheap) (l : loc) (v : Root) : Prop := ∃ r lp ps, working_at h0 h l v r lp ps.

Lemma rep_pool_weaken (L : area) h p v : rep_pool L h p v → rep_pool anywhere h p v.
Proof. intros Hp. eapply (local (R := rep_pool)); [|apply keeps_refl|exact Hp]. done. Qed.

Lemma working_grow h0 h h' l v r lp ps : h ⊆ h' → working_at h0 h l v r lp ps → working_at h0 h' l v r lp ps.
Proof.
  intros Hs [? ? [? ?] ? ? Hr]. split; try done; [by eapply lookup_weaken| |].
  - split; [done|by eapply lookup_weaken].
  - eapply map_Forall2_impl; [exact Hr|]. intros k p w. by apply (local_grow rep_pool).
Qed.

Lemma working_root h0 h l v : working h0 h l v → rep_root anywhere h l v.
Proof.
  intros (r & lp & ps & [Hr _ [E Hp] [E1 E2] _ Hrep]). split; [done|]. exists r, (Pools v). rewrite E.
  split_and!; [done|by eexists| |by destruct v; simpl in *; subst]. split; [done|]. exists ps. split; [done|exact Hrep].
Qed.

(** [DeepCopy] gives a session its data. *)
Lemma Root_DeepCopy_working L h l v :
  rep_root L h l v → ∃ l' h', m_Root_DeepCopy l h = Some (l', h') ∧ h ⊆ h' ∧ working h h' l' v.
Proof.
  intros (_ & r & vs & Hr & Hsome & Hps & ->).
  destruct (map_copy_separate m_PoolReservations_DeepCopy rep_pool _ _ h _ _ Hps)
    as (p' & h1 & Lf & E1 & Hs1 & Hdj & Hsub & Hrep & Hp' & Hl'). destruct (Hp' Hsome) as [lp ->].
  destruct Hrep as (_ & ps & Hlp & Hrep). destruct (Hl' lp eq_refl) as [[Hnew _] _].
  destruct (alloc_spec (mkMRoot (m_Version r) (m_Checksum r) (Some lp)) h1) as (l' & E2 & Hn & Hs2).
  eexists l', _. unfold m_Root_DeepCopy. rewrite (mem_bind _ _ _ _ _ (load_root l r h Hr)), (mem_bind _ _ _ _ _ E1).
  split; [exact E2|]. split; [by etrans|]. eexists _, lp, ps.
  split; simpl; [by rewrite lookup_insert_eq|split; [by eapply lookup_weaken_None|done]|split; [done|by eapply lookup_weaken]|done| |].
  - assert (∀ k p le, ps !! k = Some p → m_Entries p = Some le → Lf k le) as HL.
    { intros k p le Hk Hle. specialize (Hrep k). rewrite Hk in Hrep. destruct (vs !! k) as [w|]; inversion Hrep as [? ? Hw|]; subst.
      destruct Hw as (es & ip & Hes & _). rewrite Hle in Hes. apply Hes. }
    intros k p le Hk Hle. split; [by apply (Hsub k), (HL k p)|]. intros k' q Hk' Hq.
    eapply Hdj; [by eapply HL|by eapply HL].
  - eapply map_Forall2_impl; [exact Hrep|]. intros k p w Hw. eapply rep_pool_weaken, (local_grow rep_pool); [exact Hs2|exact Hw].
Qed.

(** ** Writes *)

Definition bytes_kept (h h' : sheap) : Prop := ∀ l b, h !! l = Some (CBytes b) → h' !! l = Some (CBytes b).

Lemma bytes_kept_write h l c c' :
  h !! l = Some c → (∀ b, c ≠ CBytes b) → bytes_kept h (<[l := c']> h).
Proof. intros Hl Hc l' b Hb. rewrite lookup_insert_ne; [done|]. intros <-. by destruct (Hc b); simplify_eq. Qed.

Lemma bytes_kept_trans h1 h2 h3 : bytes_kept h1 h2 → bytes_kept h2 h3 → bytes_kept h1 h3.
Proof. intros H1 H2 l b Hb. by apply H2, H1. Qed.

Lemma slice_kept h h' s ip : bytes_kept h h' → rep_slice anywhere h s ip → rep_slice anywhere h' s ip.
Proof. intros Hk. destruct s as [l|]; [|done]. intros [_ Hl]. split; [done|by apply Hk]. Qed.

Lemma reservation_kept h h' r v : bytes_kept h h' → rep_reservation anywhere h r v → rep_reservation anywhere h' r v.
Proof. intros Hk (ip & Hip & ->). exists ip. split; [by eapply slice_kept|done]. Qed.

Lemma entries_kept h h' (m : gmap string mReservation) es :
  bytes_kept h h' → map_Forall2 (λ _, rep_reservation anywhere h) m es → map_Forall2 (λ _, rep_reservation anywhere h') m es.
Proof. intros Hk Hm. eapply map_Forall2_impl; [exact Hm|]. intros k r v. by apply reservation_kept. Qed.

Lemma pool_kept h h' p v :
  bytes_kept h h' → (∀ le, m_Entries p = Some le → h' !! le = h !! le) →
  rep_pool anywhere h p v → rep_pool anywhere h' p v.
Proof.
  intros Hk He (es & ip & Hes & Hip & ->). exists es, ip. split_and!; [|by eapply slice_kept|done].
  destruct (m_Entries p) as [le|]; [|done]. destruct Hes as (_ & m & Hm & Hr). split; [done|]. exists m.
  split; [by rewrite He|]. by eapply entries_kept.
Qed.

(** A pool with its own map of entries, as [getPoolData] gives it. *)
Definition pool_at (h : sheap) (p : mPoolReservations) (le : loc) (m : gmap string mReservation) (v : PoolReservations) : Prop :=
  m_Entries p = Some le ∧ h !! le = Some (CEntries m) ∧ map_Forall2 (λ _, rep_reservation anywhere h) m (Entries v) ∧
  rep_slice anywhere h (m_LastReservedIP p) (LastReservedIP v) ∧ m_Name p = pr_Name v ∧ m_LastPoolConfig p = LastPoolConfig v.

Lemma pool_at_rep h p le m v : pool_at h p le m v → rep_pool anywhere h p v.
Proof.
  intros (E & Hm & Hr & Hs & E1 & E2). exists (Entries v), (LastReservedIP v). rewrite E.
  split_and!; [|done|by destruct v; simpl in *; subst]. split; [done|]. by exists m.
Qed.

(** The entries of a pool are written, and then the pool is put into the map of pools. *)
Lemma pool_written h0 h l v r lp ps k le m m' p' v' :
  working_at h0 h l v r lp ps → owner h0 ps k le → h !! le = Some (CEntries m) →
  pool_at (<[le := CEntries m']> h) p' le m' v' →
  working_at h0 (<[lp := CPools (<[k := p']> ps)]> (<[le := CEntries m']> h)) l
    (mkRoot (Version v) (Checksum v) (<[k := v']> (Pools v))) r lp (<[k := p']> ps).
Proof.
  intros [Hr Hnew [E Hp] Hv Ho Hrep] [Hle Hown] Hm Hat. pose proof Hat as (E' & _).
  assert (le ≠ lp ∧ le ≠ l ∧ lp ≠ l) as (N1 & N2 & N3) by (split_and!; intros ->; simplify_eq).
  assert (bytes_kept h (<[le := CEntries m']> h)) as K1 by by eapply bytes_kept_write.
  assert (bytes_kept (<[le := CEntries m']> h) (<[lp := CPools (<[k := p']> ps)]> (<[le := CEntries m']> h))) as K2
    by by eapply bytes_kept_write; [by rewrite lookup_insert_ne|].
  split; try done.
  - by rewrite !lookup_insert_ne.
  - by rewrite lookup_insert_eq.
  - intros k1 p1 le1. rewrite lookup_insert_Some. intros [[<- <-]|[N Hk1]] Hle1.
    + rewrite E' in Hle1. simplify_eq. split; [done|]. intros k2 p2. rewrite lookup_insert_Some.
      intros [[<- <-]|[_ Hk2]]; [done|by apply Hown].
    + destruct (Ho _ _ _ Hk1 Hle1) as [Hn1 Hu]. split; [done|]. intros k2 p2. rewrite lookup_insert_Some.
      intros [[<- <-]|[_ Hk2]]; [|by eauto]. rewrite E'. intros [= <-]. symmetry. by eapply Hown.
  - simpl. intros k1. destruct (decide (k = k1)) as [<-|N]; [rewrite !lookup_insert_eq; constructor|rewrite !lookup_insert_ne by done].
    + eapply pool_kept; [exact K2| |by eapply pool_at_rep]. intros le1. rewrite E'. intros [= <-]. by rewrite lookup_insert_ne.
    + specialize (Hrep k1). destruct (ps !! k1) as [p1|] eqn:Ek1; inversion Hrep as [? v1 Hr1|]; subst; constructor.
      eapply pool_kept; [by eapply bytes_kept_trans; [exact K1|exact K2]| |exact Hr1]. intros le1 Hle1.
      assert (le1 ≠ le) by (intros ->; by destruct N; symmetry; eapply Hown).
      assert (le1 ≠ lp) by (intros ->; destruct Hr1 as (es & ip & Hes & _); rewrite Hle1 in Hes;
        destruct Hes as (_ & m1 & Hm1 & _); by rewrite Hp in Hm1).
      by rewrite !lookup_insert_ne.
Qed.

Lemma pool_removed h0 h l v r lp ps k :
  working_at h0 h l v r lp ps →
  working_at h0 (<[lp := CPools (delete k ps)]> h) l (mkRoot (Version v) (Checksum v) (delete k (Pools v))) r lp (delete k ps).
Proof.
  intros [Hr Hnew [E Hp] Hv Ho Hrep]. assert (lp ≠ l) as N by (intros ->; simplify_eq). split; try done.
  - by rewrite lookup_insert_ne.
  - by rewrite lookup_insert_eq.
  - intros k1 p1 le1 [_ Hk1]%lookup_delete_Some Hle1. destruct (Ho _ _ _ Hk1 Hle1) as [Hn Hu]. split; [done|].
    intros k2 p2 [_ Hk2]%lookup_delete_Some. by apply Hu.
  - simpl. intros k1. destruct (decide (k = k1)) as [<-|N1]; [rewrite !lookup_delete_eq; constructor|rewrite !lookup_delete_ne by done].
    specialize (Hrep k1). destruct (ps !! k1) as [p1|] eqn:Ek1; inversion Hrep as [? v1 Hr1|]; subst; constructor.
    eapply pool_kept; [by eapply bytes_kept_write| |exact Hr1]. intros le1 Hle1. rewrite lookup_insert_ne; [done|].
    intros <-. destruct Hr1 as (es & ip & Hes & _). rewrite Hle1 in Hes. destruct Hes as (_ & m1 & Hm1 & _). by rewrite Hp in Hm1.
Qed.

(** ** Operations *)

Lemma getPoolData_spec h0 h l v r lp ps k :
  h0 ⊆ h → working_at h0 h l v r lp ps →
  ∃ p h' le m, m_getPoolData k l h = Some (p, h') ∧ h ⊆ h' ∧ working_at h0 h' l v r lp ps ∧ owner h0 ps k le ∧
    pool_at h' p le m (getPoolData k v).
Proof.
  intros H0 Hw. pose proof Hw as [Hr Hnew [E Hp] Hv Ho Hrep]. unfold m_getPoolData, getPoolData.
  rewrite (mem_bind _ _ _ _ _ (load_root _ _ _ Hr)), E. unfold map_load.
  rewrite (mem_bind _ _ _ _ _ (mem_load (H := pools_cell) lp ps h Hp)). specialize (Hrep k).
  destruct (alloc_spec (∅ : gmap string mReservation) h) as (le & Ea & Hn & Hs).
  assert (owner h0 ps k le) as Hown.
  { split; [by eapply lookup_weaken_None|]. intros k1 p1 Hk1 Hle1. destruct Hw as [_ _ _ _ _ Hrep']. specialize (Hrep' k1).
    rewrite Hk1 in Hrep'. inversion Hrep' as [? w Hw|]. destruct Hw as (es & ip & Hes & _). rewrite Hle1 in Hes.
    destruct Hes as (_ & m1 & Hm1 & _). congruence. }
  destruct (ps !! k) as [p|] eqn:Ek; inversion Hrep as [? w Hw' E1 E2|]; subst.
  - destruct Hw' as (es & ip & Hes & Hip & ->). destruct (m_Entries p) as [le'|] eqn:Ele.
    + destruct Hes as (_ & m & Hm & Hes). exists p, h, le', m. split_and!; try done. by apply (Ho k p).
    + simpl in Hes. subst es. rewrite (mem_bind _ _ _ _ _ Ea). eexists _, _, le, ∅.
      split; [done|]. split; [done|]. split; [by eapply working_grow|]. split; [done|].
      split_and!; try done; simpl; [by rewrite lookup_insert_eq|apply map_Forall2_empty|by eapply (local_grow rep_slice)].
  - unfold m_NewPoolReservations. rewrite (mem_bind _ _ _ _ _ Ea). eexists _, _, le, ∅.
    split; [done|]. split; [done|]. split; [by eapply working_grow|]. split; [done|].
    split_and!; try done; simpl; [by rewrite lookup_insert_eq|apply map_Forall2_empty].
Qed.

(** A session in memory and a session as a value. *)
Definition sim (h0 h : sheap) (ms : mSession) (s : session) : Prop :=
  h0 ⊆ h ∧ working h0 h (ms_tmpData ms) (tmpData s) ∧ ms_isModified ms = isModified s ∧ ms_isClosed ms = isClosed s.

Lemma sim_grow h0 h h' ms s : h ⊆ h' → sim h0 h ms s → sim h0 h' ms s.
Proof.
  intros Hs (H0 & (r & lp & ps & Hw) & Hf). split; [by etrans|]. split; [|done]. exists r, lp, ps. by eapply working_grow.
Qed.

Lemma updatePoolData_spec h0 h ms s r lp ps k le m m' p' v' :
  h0 ⊆ h → working_at h0 h (ms_tmpData ms) (tmpData s) r lp ps → ms_isClosed ms = isClosed s →
  owner h0 ps k le → h !! le = Some (CEntries m) → pool_at (<[le := CEntries m']> h) p' le m' v' →
  ∃ h', m_updatePoolData ms k p' (<[le := CEntries m']> h) =
      Some (mkMSession (ms_persistedData ms) (ms_tmpData ms) true (ms_isClosed ms), h') ∧
    sim h0 h' (mkMSession (ms_persistedData ms) (ms_tmpData ms) true (ms_isClosed ms)) (updatePoolData s k v').
Proof.
  intros H0 Hw Hc Hown Hm Hat. pose proof (pool_written _ _ _ _ _ _ _ _ _ _ _ _ _ Hw Hown Hm Hat) as Hw'.
  destruct Hw as [Hr [_ Hnew] [E Hp] _ _ _]. eexists. unfold m_updatePoolData. split.
  - rewrite (mem_bind _ _ _ r (<[le := CEntries m']> h)) by (apply load_root; rewrite lookup_insert_ne; [done|]; intros ->; simplify_eq).
    rewrite E. unfold map_assign. assert (<[le := CEntries m']> h !! lp = Some (CPools ps)) as Hp'
      by (rewrite lookup_insert_ne; [done|]; intros ->; simplify_eq).
    erewrite mem_bind; [reflexivity|]. rewrite (mem_bind _ _ _ _ _ (mem_load (H := pools_cell) lp ps _ Hp')).
    by apply (mem_store (H := pools_cell) lp ps).
  - split; [by apply insert_subseteq_r, insert_subseteq_r; [|apply Hown|]|]. split; [|done]. by exists r, lp, (<[k := p']> ps).
Qed.

Lemma SetLastReservedIP_sim h0 h ms s k a ip s' :
  sim h0 h ms s → rep_slice anywhere h a ip → SetLastReservedIP s k ip = Some s' →
  ∃ ms' h', m_SetLastReservedIP ms k a h = Some (ms', h') ∧ ms_persistedData ms' = ms_persistedData ms ∧ sim h0 h' ms' s'.
Proof.
  intros (H0 & (r & lp & ps & Hw) & Hm & Hc) Ha. unfold SetLastReservedIP, checkClosed, m_SetLastReservedIP, m_checkClosed.
  rewrite Hc. destruct (isClosed s) eqn:Ec; [done|]. intros [= <-].
  destruct (getPoolData_spec h0 h _ _ _ _ _ k H0 Hw) as (p & h1 & le & m & E1 & Hs & Hw1 & Hown & Hat).
  rewrite (mem_bind _ _ _ _ _ E1). destruct Hat as (Ele & Hle & Hes & Hip & En & El).
  rewrite <- (insert_id h1 le _ Hle). eapply updatePoolData_spec in Hw1 as (h2 & E2 & Hsim); [..|exact Hle|].
  - eexists _, h2. split; [exact E2|]. split; [done|exact Hsim].
  - by etrans.
  - congruence.
  - done.
  - rewrite (insert_id h1 le _ Hle). split_and!; try done. by eapply (local_grow rep_slice).
Qed.

Lemma RemovePool_sim h0 h ms s k s' :
  sim h0 h ms s → RemovePool s k = Some s' →
  ∃ ms' h', m_RemovePool ms k h = Some (ms', h') ∧ ms_persistedData ms' = ms_persistedData ms ∧ sim h0 h' ms' s'.
Proof.
  intros (H0 & (r & lp & ps & Hw) & Hm & Hc). unfold RemovePool, checkClosed, m_RemovePool, m_checkClosed.
  rewrite Hc. destruct (isClosed s) eqn:Ec; [done|]. intros [= <-]. pose proof (pool_removed _ _ _ _ _ _ _ k Hw) as Hw'.
  destruct Hw as [Hr [_ Hnew] [E Hp] _ _ _]. rewrite (mem_bind _ _ _ _ _ (load_root _ _ _ Hr)), E. unfold map_delete.
  eexists _, _. split; [|split].
  - erewrite mem_bind; [reflexivity|]. rewrite (mem_bind _ _ _ _ _ (mem_load (H := pools_cell) lp ps _ Hp)).
    by apply (mem_store (H := pools_cell) lp ps).
  - done.
  - split; [by apply insert_subseteq_r|]. split; [|done]. by exists r, lp, (delete k ps).
Qed.

(** The loop of [Reserve] finds an equal address when there is one. *)
Lemma any_equal_spec h a rs vs :
  Forall2 (λ kr kv : string * _, rep_reservation anywhere h kr.2 kv.2) rs vs →
  m_any_equal a rs h = Some (existsb (λ v : string * Reservation, IP_Equal a (IPAddress v.2)) vs, h).
Proof.
  induction 1 as [|[k r] [k' v] rs vs (ip & Hip & Ev) _ IH]; [done|]. simpl in *.
  rewrite (mem_bind _ _ _ _ _ (reads (R := rep_slice) _ h _ _ Hip)), Ev. simpl. by destruct (IP_Equal a ip).
Qed.

Lemma existsb_perm {A} (f : A → bool) l l' : l ≡ₚ l' → existsb f l = existsb f l'.
Proof. induction 1; simpl; [done|congruence|by rewrite !orb_assoc, (orb_comm (f y))|congruence]. Qed.

Lemma entries_any_equal h a m es :
  map_Forall2 (λ _ : string, rep_reservation anywhere h) m es →
  m_any_equal a (map_to_list m) h = Some (existsb (λ v : string * Reservation, IP_Equal a (IPAddress v.2)) (map_to_list es), h).
Proof.
  intros (vs & Hvs & Ek & <-)%map_Forall2_list.
  rewrite (existsb_perm _ (map_to_list (list_to_map vs)) vs) by (apply map_to_list_to_map; rewrite Ek; apply NoDup_fst_map_to_list).
  apply any_equal_spec. eapply Forall2_impl; [exact Hvs|]. by intros [] [] (_ & _ & ?).
Qed.

Lemma entries_lookup h (m : gmap string mReservation) es k :
  map_Forall2 (λ _, rep_reservation anywhere h) m es → option_Forall2 (rep_reservation anywhere h) (m !! k) (es !! k).
Proof. intros Hm. apply Hm. Qed.

Lemma map_assign_entries h le m k r :
  h !! le = Some (CEntries m) → map_assign (Some le) k r h = Some (tt, <[le := CEntries (<[k := r]> m)]> h).
Proof.
  intros Hm. unfold map_assign. rewrite (mem_bind _ _ _ _ _ (mem_load (H := entries_cell) le m h Hm)).
  by apply (mem_store (H := entries_cell) le m).
Qed.

Lemma map_delete_entries h le m k :
  h !! le = Some (CEntries m) → map_delete (A := mReservation) (Some le) k h = Some (tt, <[le := CEntries (delete k m)]> h).
Proof.
  intros Hm. unfold map_delete. rewrite (mem_bind _ _ _ _ _ (mem_load (H := entries_cell) le m h Hm)).
  by apply (mem_store (H := entries_cell) le m).
Qed.

Lemma map_load_entries h le m : h !! le = Some (CEntries m) → map_load (A := mReservation) (Some le) h = Some (m, h).
Proof. intros Hm. by apply (mem_load (H := entries_cell)). Qed.

(** The operation has read a pool, and changes nothing. *)
Ltac session_unchanged ms h := simplify_eq; exists ms, h; split_and!; [done..|by eapply sim_grow].

Lemma Reserve_sim now h0 h ms s k id ifn meta a ip s' e :
  sim h0 h ms s → rep_slice anywhere h a ip → Reserve now s k id ifn meta ip = Some (s', e) →
  ∃ ms' h', m_Reserve now ms k id ifn meta a h = Some ((ms', e), h') ∧ ms_persistedData ms' = ms_persistedData ms ∧ sim h0 h' ms' s'.
Proof.
  intros Hsim Ha. pose proof Hsim as (H0 & (r & lp & ps & Hw) & Hm & Hc). unfold Reserve, checkClosed, m_Reserve, m_checkClosed.
  rewrite Hc. destruct (isClosed s) eqn:Ec; [done|]. intros [= HR].
  destruct (getPoolData_spec h0 h _ _ _ _ _ k H0 Hw) as (p & h1 & le & m & E1 & Hs & Hw1 & Hown & Hat).
  rewrite (mem_bind _ _ _ _ _ E1). destruct Hat as (Ele & Hle & Hes & Hip & En & El).
  rewrite Ele, (mem_bind _ _ _ _ _ (map_load_entries _ _ _ Hle)).
  assert (is_Some (m !! getKey id ifn) ↔ is_Some (Entries (getPoolData k (tmpData s)) !! getKey id ifn)) as Hk
    by (destruct (entries_lookup _ _ _ (getKey id ifn) Hes); by split; eauto).
  rewrite (bool_decide_ext _ _ Hk). case_bool_decide as Hd; [session_unchanged ms h1|].
  assert (rep_slice anywhere h1 a ip) as Ha1 by by eapply (local_grow rep_slice).
  rewrite (mem_bind _ _ _ _ _ (reads (R := rep_slice) _ h1 _ _ Ha1)), (mem_bind _ _ _ _ _ (entries_any_equal _ ip _ _ Hes)).
  destruct (existsb _ _); [session_unchanged ms h1|]. simplify_eq.
  cbn [m_Entries]. rewrite (mem_bind _ _ _ _ _ (map_assign_entries _ _ _ _ _ Hle)).
  assert (∀ m', bytes_kept h1 (<[le := CEntries m']> h1)) as Kb by by intros; eapply bytes_kept_write.
  eapply updatePoolData_spec in Hw1 as (h2 & E2 & Hs2); [..|exact Hle|].
  - eexists _, h2. rewrite (mem_bind _ _ _ _ _ E2). split; [done|]. split; [done|exact Hs2].
  - by etrans.
  - congruence.
  - done.
  - split_and!; simpl; try done; [by rewrite lookup_insert_eq| |by eapply slice_kept].
    apply map_Forall2_insert_2; [|by eapply entries_kept]. exists ip. split; [by eapply slice_kept|done].
Qed.

Lemma Release_sim now h0 h ms s k id ifn cooldown s' b :
  sim h0 h ms s → ReleaseReservationByID now s k id ifn cooldown = Some (s', b) →
  ∃ ms' h', m_ReleaseReservationByID now ms k id ifn cooldown h = Some ((ms', b), h') ∧
    ms_persistedData ms' = ms_persistedData ms ∧ sim h0 h' ms' s'.
Proof.
  intros Hsim. pose proof Hsim as (H0 & (r & lp & ps & Hw) & Hm & Hc).
  unfold ReleaseReservationByID, checkClosed, m_ReleaseReservationByID, m_checkClosed.
  rewrite Hc. destruct (isClosed s) eqn:Ec; [done|]. intros [= HR].
  destruct (getPoolData_spec h0 h _ _ _ _ _ k H0 Hw) as (p & h1 & le & m & E1 & Hs & Hw1 & Hown & Hat).
  rewrite (mem_bind _ _ _ _ _ E1). destruct Hat as (Ele & Hle & Hes & Hip & En & El).
  rewrite Ele, (mem_bind _ _ _ _ _ (map_load_entries _ _ _ Hle)).
  destruct (entries_lookup _ _ _ (getKey id ifn) Hes) as [x v (a & Ha & ->)|];
    [|session_unchanged ms h1].
  unfold IsReleased in HR. simpl in HR. destruct (_ && _ && negb _); [session_unchanged ms h1|].
  assert (∀ m', bytes_kept h1 (<[le := CEntries m']> h1)) as Kb by by intros; eapply bytes_kept_write.
  destruct (_ || _); simplify_eq.
  - rewrite (mem_bind _ _ _ _ _ (map_delete_entries _ _ _ _ Hle)).
    eapply updatePoolData_spec in Hw1 as (h2 & E2 & Hs2); [..|exact Hle|]; [|by etrans|congruence|done|].
    + eexists _, h2. rewrite (mem_bind _ _ _ _ _ E2). split; [done|]. split; [done|exact Hs2].
    + split_and!; simpl; try done; [by rewrite lookup_insert_eq| |by eapply slice_kept].
      apply map_Forall2_delete. by eapply entries_kept.
  - rewrite (mem_bind _ _ _ _ _ (map_assign_entries _ _ _ _ _ Hle)).
    eapply updatePoolData_spec in Hw1 as (h2 & E2 & Hs2); [..|exact Hle|]; [|by etrans|congruence|done|].
    + eexists _, h2. rewrite (mem_bind _ _ _ _ _ E2). split; [done|]. split; [done|exact Hs2].
    + split_and!; simpl; try done; [by rewrite lookup_insert_eq| |by eapply slice_kept].
      apply map_Forall2_insert_2; [|by eapply entries_kept]. exists a. split; [by eapply slice_kept|done].
Qed.

(** What the session reports; memory may grow, by the map of a pool that has none. *)
Lemma GetLastReservedIP_sim h0 h ms s k ip :
  sim h0 h ms s → GetLastReservedIP s k = Some ip →
  ∃ a h', m_GetLastReservedIP ms k h = Some (a, h') ∧ sim h0 h' ms s ∧ rep_slice anywhere h' a ip.
Proof.
  intros Hsim. pose proof Hsim as (H0 & (r & lp & ps & Hw) & Hm & Hc).
  unfold GetLastReservedIP, checkClosed, m_GetLastReservedIP, m_checkClosed. rewrite Hc. destruct (isClosed s); [done|]. intros [= <-].
  destruct (getPoolData_spec h0 h _ _ _ _ _ k H0 Hw) as (p & h1 & le & m & E1 & Hs & _ & _ & _ & _ & _ & Hip & _).
  exists (m_LastReservedIP p), h1. rewrite (mem_bind _ _ _ _ _ E1). split_and!; [done|by eapply sim_grow|done].
Qed.

Lemma GetReservationByID_sim h0 h ms s k id ifn v :
  sim h0 h ms s → GetReservationByID s k id ifn = Some v →
  ∃ x h', m_GetReservationByID ms k id ifn h = Some (x, h') ∧ sim h0 h' ms s ∧ option_Forall2 (rep_reservation anywhere h') x v.
Proof.
  intros Hsim. pose proof Hsim as (H0 & (r & lp & ps & Hw) & Hm & Hc).
  unfold GetReservationByID, checkClosed, m_GetReservationByID, m_checkClosed. rewrite Hc. destruct (isClosed s); [done|]. intros [= <-].
  destruct (getPoolData_spec h0 h _ _ _ _ _ k H0 Hw) as (p & h1 & le & m & E1 & Hs & _ & _ & Ele & Hle & Hes & _).
  rewrite (mem_bind _ _ _ _ _ E1), Ele, (mem_bind _ _ _ _ _ (map_load_entries _ _ _ Hle)).
  destruct (entries_lookup _ _ _ (getKey id ifn) Hes) as [x v Hx|]; eexists _, h1; (split; [done|]; split; [by eapply sim_grow|]);
    [|constructor]. pose proof Hx as (a & Ha & ->). unfold IsReleased. simpl. destruct (m_ReleasedAt x); by constructor.
Qed.

(** ** The checksum *)

Lemma foldl_insert_lookup {A} (f : A → A) (xs : list (string * A)) (m : gmap string A) k :
  NoDup xs.*1 → foldl (λ m kx, <[kx.1 := f kx.2]> m) m xs !! k =
    match (list_to_map xs : gmap string A) !! k with Some x => Some (f x) | None => m !! k end.
Proof.
  revert m. induction xs as [|[k' x] xs IH]; intros m Hnd; [done|]. csimpl in Hnd. apply NoDup_cons in Hnd as [Hn Hnd].
  simpl. rewrite (IH _ Hnd). destruct (decide (k' = k)) as [<-|N].
  - rewrite not_elem_of_list_to_map_1 by done. by rewrite !lookup_insert_eq.
  - by rewrite !lookup_insert_ne.
Qed.

Lemma foldl_insert_all {A} (f : A → A) (m : gmap string A) :
  foldl (λ m kx, <[kx.1 := f kx.2]> m) m (map_to_list m) = f <$> m.
Proof.
  apply map_eq. intros k. rewrite foldl_insert_lookup by apply NoDup_fst_map_to_list. rewrite list_to_map_to_list, lookup_fmap.
  by destruct (m !! k).
Qed.

Lemma strip_loop h le m xs :
  h !! le = Some (CEntries m) →
  mem_iter (λ kr, map_assign (Some le) kr.1 (m_strip_entry kr.2)) xs h =
    Some (tt, <[le := CEntries (foldl (λ m kx, <[kx.1 := m_strip_entry kx.2]> m) m xs)]> h).
Proof.
  revert h m. induction xs as [|[k x] xs IH]; intros h m Hm; cbn [mem_iter foldl]; [by rewrite insert_id|].
  cbn [fst snd]. rewrite (mem_bind _ _ _ _ _ (map_assign_entries _ _ _ _ _ Hm)). rewrite (IH _ (<[k := m_strip_entry x]> m)) by apply lookup_insert_eq.
  by rewrite insert_insert_eq.
Qed.

Lemma strip_entries_rep h (m : gmap string mReservation) es :
  map_Forall2 (λ _, rep_reservation anywhere h) m es →
  map_Forall2 (λ _, rep_reservation anywhere h) (m_strip_entry <$> m) ((λ e, set_ReleasedAt e None) <$> es).
Proof.
  intros Hm k. rewrite !lookup_fmap. destruct (entries_lookup _ _ _ k Hm) as [x v (a & Ha & ->)|]; constructor. by exists a.
Qed.

Lemma working_pool h0 h l v r lp ps k p :
  working_at h0 h l v r lp ps → ps !! k = Some p → ∃ w, Pools v !! k = Some w ∧ rep_pool anywhere h p w.
Proof. intros [_ _ _ _ _ Hrep] Hk. specialize (Hrep k). rewrite Hk in Hrep. inversion Hrep as [? w Hw E1 E2|]. by exists w. Qed.

Lemma strip_pool_spec h0 h l v r lp ps k p :
  h0 ⊆ h → working_at h0 h l v r lp ps → ps !! k = Some p →
  ∃ h', m_strip_pool p h = Some (tt, h') ∧ h0 ⊆ h' ∧
    working_at h0 h' l (mkRoot (Version v) (Checksum v) (alter strip_released k (Pools v))) r lp ps.
Proof.
  intros H0 Hw Hk. destruct (working_pool _ _ _ _ _ _ _ _ _ Hw Hk) as (w & Ew & es & ip & Hes & Hip & ->). unfold m_strip_pool.
  assert (alter strip_released k (Pools v) = <[k := strip_released (mkPoolReservations (m_Name p) es (m_LastPoolConfig p) ip)]> (Pools v)) as Ea.
  { apply map_eq. intros k'. destruct (decide (k = k')) as [<-|N]; [by rewrite lookup_alter_eq, lookup_insert_eq, Ew|].
    by rewrite lookup_alter_ne, lookup_insert_ne. }
  rewrite Ea. unfold strip_released. simpl. destruct (m_Entries p) as [le|] eqn:Ele.
  - destruct Hes as (_ & m & Hm & Hes). rewrite (mem_bind _ _ _ _ _ (map_load_entries _ _ _ Hm)), (strip_loop _ _ m) by done.
    rewrite foldl_insert_all. pose proof Hw as [_ [_ Hnew] [_ Hp] _ Ho _]. pose proof (Ho _ _ _ Hk Ele) as Hown.
    assert (bytes_kept h (<[le := CEntries (m_strip_entry <$> m)]> h)) as Kb by by eapply bytes_kept_write.
    eexists. split; [done|]. split; [by apply insert_subseteq_r; [apply Hown|]|].
    eapply pool_written in Hw; [|exact Hown|exact Hm|].
    + rewrite (insert_id ps k p Hk), insert_id in Hw; [exact Hw|]. rewrite lookup_insert_ne; [done|]. intros ->. by simplify_eq.
    + split_and!; try done; simpl; [by rewrite lookup_insert_eq| |by eapply slice_kept].
      eapply entries_kept; [exact Kb|]. by apply strip_entries_rep.
  - simpl in Hes. subst es. exists h. split; [done|]. split; [done|]. rewrite fmap_empty.
    destruct v as [vv vc vp]. simpl in *. by rewrite insert_id.
Qed.

Lemma foldl_alter_lookup {A B} (f : A → A) (xs : list (string * B)) (m : gmap string A) k :
  NoDup xs.*1 → foldl (λ m kx, alter f kx.1 m) m xs !! k = if decide (k ∈ xs.*1) then f <$> m !! k else m !! k.
Proof.
  revert m. induction xs as [|[k' x] xs IH]; intros m Hnd; [done|]. csimpl in *. apply NoDup_cons in Hnd as [Hn Hnd].
  rewrite (IH _ Hnd). destruct (decide (k = k')) as [->|N].
  - rewrite decide_False by done. rewrite decide_True by apply list_elem_of_here. apply lookup_alter_eq.
  - rewrite lookup_alter_ne by done. repeat case_decide; set_solver.
Qed.

Lemma strip_pools_loop h0 h l v r lp ps xs :
  h0 ⊆ h → working_at h0 h l v r lp ps → (∀ kp, kp ∈ xs → ps !! kp.1 = Some kp.2) →
  ∃ h', mem_iter (λ kp, m_strip_pool kp.2) xs h = Some (tt, h') ∧ h0 ⊆ h' ∧
    working_at h0 h' l (mkRoot (Version v) (Checksum v) (foldl (λ m kp, alter strip_released kp.1 m) (Pools v) xs)) r lp ps.
Proof.
  revert h v. induction xs as [|[k p] xs IH]; intros h v H0 Hw Hxs; cbn [mem_iter foldl]; [exists h; by destruct v|].
  destruct (strip_pool_spec h0 h l v r lp ps k p) as (h1 & E1 & H1 & Hw1); [done..|by apply (Hxs (k, p)), list_elem_of_here|].
  destruct (IH h1 _ H1 Hw1) as (h2 & E2 & H2 & Hw2); [by intros kp Hkp; apply Hxs; right|].
  exists h2. rewrite (mem_bind _ _ _ _ _ E1). done.
Qed.

Lemma root_written h0 h l v r lp ps c :
  working_at h0 h l v r lp ps →
  working_at h0 (<[l := CRoot (mkMRoot (m_Version r) c (m_Pools r))]> h) l (set_Checksum v c) (mkMRoot (m_Version r) c (m_Pools r)) lp ps.
Proof.
  intros [Hr Hnew [E Hp] [Hv _] Ho Hrep]. split; try done; simpl.
  - by rewrite lookup_insert_eq.
  - split; [done|]. rewrite lookup_insert_ne; [done|]. intros ->. by simplify_eq.
  - eapply map_Forall2_impl; [exact Hrep|]. intros k p w Hw. eapply pool_kept; [by eapply bytes_kept_write| |exact Hw].
    intros le Hle. destruct Hw as (es & ip & Hes & _). rewrite Hle in Hes. destruct Hes as (_ & m & Hm & _).
    rewrite lookup_insert_ne; [done|]. intros ->. by rewrite Hr in Hm.
Qed.

Section commit_lemmas.
Context `{RootCodec}.

(** The checksum is computed on a copy: memory grows, and nothing else. *)
Lemma getChecksum_spec L h l v :
  rep_root L h l v → ∃ h', h ⊆ h' ∧ m_getChecksum l h = (λ c, (c, h')) <$> getChecksum v.
Proof.
  intros Hl. destruct (Root_DeepCopy_working L h l v Hl) as (l1 & h1 & E1 & Hs1 & r & lp & ps & Hw).
  pose proof (root_written _ _ _ _ _ _ _ 0 Hw) as Hw1. pose proof Hw as [Hr [Hn _] [E Hp] _ _ Hrep].
  destruct (strip_pools_loop h _ l1 _ _ lp ps (map_to_list ps) (insert_subseteq_r _ _ _ _ Hn Hs1) Hw1) as (h2 & E2 & Hs2 & Hw2);
    [by intros [k p] Hkp%elem_of_map_to_list|].
  exists h2. split; [done|]. unfold m_getChecksum. rewrite (mem_bind _ _ _ _ _ E1), (mem_bind _ _ _ _ _ (load_root _ _ _ Hr)).
  rewrite (mem_bind _ _ _ _ _ (store_root _ _ _ _ Hr)), E. cbn [map_load]. destruct Hw1 as [_ _ [_ Hp1] _ _ _]. rewrite E in Hp1.
  rewrite (mem_bind _ _ _ _ _ (mem_load (H := pools_cell) lp ps _ Hp1)). rewrite E in E2. rewrite (mem_bind _ _ _ _ _ E2).
  assert (working h h2 l1 (mkRoot (Version v) 0 (strip_released <$> Pools v))) as Hw3.
  { eexists _, lp, ps. replace (strip_released <$> Pools v) with (foldl (λ m kp, alter strip_released kp.1 m) (Pools v) (map_to_list ps));
      [exact Hw2|]. apply map_eq. intros k. rewrite foldl_alter_lookup by apply NoDup_fst_map_to_list. rewrite lookup_fmap.
    case_decide as Hk; [done|]. specialize (Hrep k). destruct (ps !! k) as [p|] eqn:Ek; inversion Hrep; [|done].
    destruct Hk. apply list_elem_of_fmap. exists (k, p). split; [done|]. by apply elem_of_map_to_list. }
  rewrite (mem_bind _ _ _ _ _ (reads (R := rep_root) _ _ _ _ (working_root _ _ _ _ Hw3))).
  unfold getChecksum. rewrite Root_DeepCopy_id. simpl. by destruct (Marshal _).
Qed.

Lemma writeToDisk_sim writable file h0 h l v :
  h0 ⊆ h → working h0 h l v →
  match writeToDisk writable file v with
  | None => m_writeToDisk writable file l h = None
  | Some (file', t, err) =>
      ∃ h', m_writeToDisk writable file l h = Some ((file', err), h') ∧ h0 ⊆ h' ∧ working h0 h' l t
  end.
Proof.
  intros H0 Hw. destruct (getChecksum_spec _ h l v (working_root _ _ _ _ Hw)) as (h1 & Hs1 & E1).
  destruct Hw as (r & lp & ps & Hw). unfold writeToDisk, NewChecksum, m_writeToDisk.
  destruct (getChecksum v) as [c|]; [|unfold mbind_mem; by rewrite E1]. simpl in E1. cbn [mbind option_bind].
  apply (working_grow _ _ h1) in Hw; [|done]. pose proof (root_written _ _ _ _ _ _ _ c Hw) as Hw1. destruct Hw as [Hr [Hn _] _ _ _ _].
  assert (h0 ⊆ <[l := CRoot (mkMRoot (m_Version r) c (m_Pools r))]> h1) as H1 by (apply insert_subseteq_r; [done|by etrans]).
  rewrite (mem_bind _ _ _ _ _ E1), (mem_bind _ _ _ _ _ (load_root _ _ _ Hr)), (mem_bind _ _ _ _ _ (store_root _ _ _ _ Hr)).
  rewrite (mem_bind _ _ _ _ _ (reads (R := rep_root) _ _ _ _ (working_root _ _ _ _ (ex_intro _ _ (ex_intro _ _ (ex_intro _ _ Hw1)))))).
  destruct (Marshal _); [destruct writable|]; (eexists; split; [reflexivity|]; split; [done|]); by eexists _, _, _.
Qed.

(** [*s.persistedData = *s.tmpData] *)
Lemma commit_assign h0 h l p v c :
  h0 ⊆ h → h0 !! p = Some (CRoot c) → working h0 h l v →
  ∃ t h', load l h = Some (t, h) ∧ store_at p (t : mRoot) h = Some (tt, h') ∧ rep_root anywhere h' p v ∧
    ∀ l' x, l' ≠ p → h0 !! l' = Some x → h' !! l' = Some x.
Proof.
  intros H0 Hp (r & lp & ps & Hw). pose proof Hw as [Hr Hnew [E Hps] [E1 E2] _ Hrep]. pose proof (lookup_weaken _ _ _ _ Hp H0) as Hp'.
  assert (bytes_kept h (<[p := CRoot r]> h)) as Kb by by eapply bytes_kept_write.
  eexists r, _. split; [by apply load_root|]. split; [by apply (store_root p c)|]. split; cycle 1.
  { intros l' x N Hx. rewrite lookup_insert_ne by done. by eapply lookup_weaken. }
  split; [done|]. exists r, (Pools v). rewrite lookup_insert_eq, E. split_and!; [done|by eexists| |by destruct v; simpl in *; subst].
  split; [done|]. exists ps. rewrite lookup_insert_ne by (intros ->; simplify_eq). split; [done|].
  eapply map_Forall2_impl; [exact Hrep|]. intros k q w Hq. eapply pool_kept; [exact Kb| |exact Hq]. intros le Hle.
  destruct Hq as (es & ip & Hes & _). rewrite Hle in Hes. destruct Hes as (_ & m & Hm & _).
  rewrite lookup_insert_ne; [done|]. intros <-. by rewrite Hp' in Hm.
Qed.
End commit_lemmas.

(** ** Runs of operations

    The caller gets its addresses somewhere: in new memory, or in memory that exists. *)
Class Caller := argument : IP → smem (option loc).
Class CallerLaws `{Caller} : Prop :=
  argument_spec : ∀ ip h, ∃ a h', argument ip h = Some (a, h') ∧ h ⊆ h' ∧ rep_slice anywhere h' a ip.

Section runs.
Context `{CallerLaws}.

Definition m_run_op (now : Clock) (s : mSession) (o : op) : smem mSession :=
  match o with
  | OpReserve poolKey id ifName meta address =>
      let% a := argument address in let% x := m_Reserve now s poolKey id ifName meta a in mret x.1
  | OpRelease poolKey id ifName cooldown => let% x := m_ReleaseReservationByID now s poolKey id ifName cooldown in mret x.1
  | OpRemovePool poolKey => m_RemovePool s poolKey
  | OpSetLast poolKey ip => let% a := argument ip in m_SetLastReservedIP s poolKey a
  end.

Fixpoint m_run_ops (s : mSession) (os : list (Clock * op)) : smem mSession :=
  match os with
  | [] => mret s
  | (now, o) :: os => let% s' := m_run_op now s o in m_run_ops s' os
  end.

Lemma run_op_sim now h0 h ms s o s' :
  sim h0 h ms s → run_op now s o = Some s' →
  ∃ ms' h', m_run_op now ms o h = Some (ms', h') ∧ ms_persistedData ms' = ms_persistedData ms ∧ sim h0 h' ms' s'.
Proof.
  intros Hsim. destruct o as [k id ifn meta ip|k id ifn cd|k|k ip]; simpl.
  - destruct (Reserve now s k id ifn meta ip) as [[s1 e]|] eqn:E; [|done]. intros [= <-].
    destruct (argument_spec ip h) as (a & h1 & Ea & Hs & Ha). rewrite (mem_bind _ _ _ _ _ Ea).
    destruct (Reserve_sim _ h0 h1 ms s _ _ _ _ a _ _ _ (sim_grow _ _ _ _ _ Hs Hsim) Ha E) as (ms' & h' & E' & Hp & Hs').
    rewrite (mem_bind _ _ _ _ _ E'). by exists ms', h'.
  - destruct (ReleaseReservationByID now s k id ifn cd) as [[s1 b]|] eqn:E; [|done]. intros [= <-].
    destruct (Release_sim _ _ _ _ _ _ _ _ _ _ _ Hsim E) as (ms' & h' & E' & Hp & Hs').
    rewrite (mem_bind _ _ _ _ _ E'). by exists ms', h'.
  - by apply RemovePool_sim.
  - intros E. destruct (argument_spec ip h) as (a & h1 & Ea & Hs & Ha). rewrite (mem_bind _ _ _ _ _ Ea).
    by apply (SetLastReservedIP_sim h0 h1 ms s k a ip); [eapply sim_grow|..].
Qed.

Lemma run_op_total now s o : isClosed s = false → ∃ s', run_op now s o = Some s' ∧ isClosed s' = false.
Proof.
  intros Ho. assert (is_Some (run_op now s o)) as [s' E].
  { destruct o; simpl; unfold Reserve, ReleaseReservationByID, RemovePool, SetLastReservedIP, checkClosed; rewrite Ho; by eexists. }
  exists s'. split; [done|]. by eapply run_op_closed.
Qed.

Lemma run_ops_sim h0 h ms s os :
  sim h0 h ms s → isClosed s = false →
  ∃ ms' h' s', m_run_ops ms os h = Some (ms', h') ∧ run_ops s os = Some s' ∧ isClosed s' = false ∧
    ms_persistedData ms' = ms_persistedData ms ∧ sim h0 h' ms' s'.
Proof.
  revert h ms s. induction os as [|[now o] os IH]; intros h ms s Hsim Ho; simpl; [by exists ms, h, s|].
  destruct (run_op_total now s o Ho) as (s1 & E1 & Ho1). rewrite E1.
  destruct (run_op_sim now h0 h ms s o s1 Hsim E1) as (ms1 & h1 & Em & Hp & Hsim1). rewrite (mem_bind _ _ _ _ _ Em).
  destruct (IH h1 ms1 s1 Hsim1 Ho1) as (ms2 & h2 & s2 & E2 & Er & Ho2 & Hp2 & Hsim2).
  exists ms2, h2, s2. split_and!; try done. congruence.
Qed.

Lemma Commit_sim `{RootCodec} writable file h0 h ms s pers :
  sim h0 h ms s → isClosed s = false → rep_root anywhere h0 (ms_persistedData ms) pers →
  match Commit writable (mkStore file (Some pers) true) s with
  | None => m_Commit writable file ms h = None
  | Some (m', s', err) =>
      ∃ ms' h' r, m_Commit writable file ms h = Some ((disk m', ms', err), h') ∧ ms_isClosed ms' = true ∧
        persistedData m' = Some r ∧ rep_root anywhere h' (ms_persistedData ms) r ∧
        (∀ l c, l ≠ ms_persistedData ms → h0 !! l = Some c → h' !! l = Some c)
  end.
Proof.
  intros (Hsub & Hw & Hmod & Hcl) Ho Hp. unfold Commit, m_Commit, m_checkClosed. rewrite Hcl, Ho, Hmod.
  assert (∀ h', h0 ⊆ h' → rep_root anywhere h' (ms_persistedData ms) pers) as Hkept.
  { intros h' Hs. destruct Hp as (_ & r & vs & Hr & Hsome & Hps & ->). split; [done|]. exists r, vs.
    split_and!; [by eapply lookup_weaken|done|by eapply (local_grow (rep_map rep_pool))|done]. }
  destruct (isModified s); cbn [negb]; [|eexists _, h, pers; split_and!; try done; [by apply Hkept|]; intros l c _ Hl; by eapply lookup_weaken].
  pose proof (writeToDisk_sim writable file h0 h _ _ Hsub Hw) as HW. cbn [disk]. destruct (writeToDisk _ _ _) as [[[f t] err]|]; cycle 1.
  { cbn [mbind option_bind]. unfold mbind_mem. by rewrite HW. }
  destruct HW as (h1 & E1 & Hsub1 & Hw1). cbn [mbind option_bind]. destruct err as [e|].
  - eexists _, h1, pers. rewrite (mem_bind _ _ _ _ _ E1). split_and!; try done; [by apply Hkept|]. intros l c _ Hl. by eapply lookup_weaken.
  - destruct Hp as (_ & c & vs & Hc & _). destruct (commit_assign h0 h1 _ _ t c Hsub1 Hc Hw1) as (x & h2 & E2 & E3 & Hr & Hk).
    eexists _, h2, t. rewrite (mem_bind _ _ _ _ _ E1), (mem_bind _ _ _ _ _ E2), (mem_bind _ _ _ _ _ E3). done.
Qed.
End runs.

(** ** Properties *)

Section properties.
Context `{RootCodec} `{CallerLaws}.

(** C8: The session in memory does what the session on values does, and shares nothing
    it writes to with the data of the store.  A session is opened on data at [p] that
    stands for [pers] (parts of it may be shared), and any operations run.  They end, and
    the session has the same data and the same flags as a session on values; all memory
    that existed before is as it was, so [Cancel] leaves the data of the store.  [Commit]
    panics, fails or succeeds as it does on values and writes the same file; the store
    then has the data it has on values, at the place where it was, and nothing else that
    existed before has changed. *)
Theorem session_memory_refines h0 p pers os :
  rep_root anywhere h0 p pers →
  ∃ ms h s,
    (let% ms := m_newStore p in m_run_ops ms os) h0 = Some (ms, h) ∧ run_ops (newStore pers) os = Some s ∧
    rep_root anywhere h (ms_tmpData ms) (tmpData s) ∧ ms_isModified ms = isModified s ∧ h0 ⊆ h ∧
    (∃ ms', m_Cancel ms h = Some (ms', h) ∧ ms_isClosed ms' = true) ∧
    ∀ writable file,
      match Commit writable (mkStore file (Some pers) true) s with
      | None => m_Commit writable file ms h = None
      | Some (m', s', err) =>
          ∃ ms' h' r, m_Commit writable file ms h = Some ((disk m', ms', err), h') ∧ ms_isClosed ms' = true ∧
            persistedData m' = Some r ∧ rep_root anywhere h' p r ∧
            (∀ l c, l ≠ p → h0 !! l = Some c → h' !! l = Some c)
      end.
Proof.
  intros Hp. destruct (Root_DeepCopy_working _ h0 p pers Hp) as (l1 & h1 & E1 & Hs1 & Hw).
  assert (sim h0 h1 (mkMSession p l1 false false) (newStore pers)) as Hsim
    by (split_and!; [done| |done..]; unfold newStore; by rewrite Root_DeepCopy_id).
  destruct (run_ops_sim h0 h1 _ _ os Hsim eq_refl) as (ms & h & s & Em & Er & Ho & Ep & Hsim2). simpl in Ep.
  exists ms, h, s. unfold m_newStore. erewrite mem_bind; [|rewrite (mem_bind _ _ _ _ _ E1); reflexivity].
  pose proof Hsim2 as (Hsub & Hw2 & Hmod & Hcl). split; [exact Em|]. split; [exact Er|]. split; [by eapply working_root|].
  split; [done|]. split; [done|]. split; [unfold m_Cancel, m_checkClosed; rewrite Hcl, Ho; by eexists|].
  intros writable file. pose proof (Commit_sim writable file h0 h ms s pers Hsim2 Ho) as HC. rewrite Ep in HC. by apply HC.
Qed.
End properties.

(** *** Witness *)

Definition new_caller : Caller := λ ip, let% l := alloc ip in mret (Some l).

#[global] Instance new_caller_laws : @CallerLaws new_caller.
Proof.
  intros ip h. destruct (alloc_spec ip h) as (l & E & _ & Hs). exists (Some l), (<[l := to_cell ip]> h). unfold argument, new_caller.
  rewrite (mem_bind _ _ _ _ _ E). split_and!; [done..|split; [done|apply lookup_insert_eq]].
Qed.

(** The data of a store that has one pool without reservations, whose map is [nil]. *)
Definition example_heap : sheap :=
  <[1%positive := CRoot (mkMRoot 1 0 (Some 2%positive))]> (<[2%positive := CPools {["pool" := mkMPool "pool" None "" None]}]> ∅).
Definition example_data : Root := mkRoot 1 0 {["pool" := NewPoolReservations "pool"]}.

Lemma session_memory_refines_witness :
  rep_root anywhere example_heap 1%positive example_data ∧
  ∃ ms h, (let% ms := m_newStore 1%positive in m_run_ops (H := new_caller) ms example_ops) example_heap = Some (ms, h) ∧
    example_heap ⊆ h ∧ ms_isModified ms = true.
Proof.
  assert (rep_root anywhere example_heap 1%positive example_data) as Hr.
  { split; [done|]. eexists _, {["pool" := NewPoolReservations "pool"]}. split; [reflexivity|]. split; [by eexists|].
    split; [|reflexivity]. split; [done|]. exists {["pool" := mkMPool "pool" None "" None]}. split; [reflexivity|].
    apply map_Forall2_singleton. by exists ∅, []. }
  split; [exact Hr|].
  destruct (session_memory_refines (H := bits_codec) (H0 := new_caller) example_heap 1%positive example_data example_ops Hr)
    as (ms & h & s & E & Er & _ & Em & Hs & _).
  exists ms, h. split; [exact E|]. split; [exact Hs|]. rewrite Em.
  assert (isModified <$> run_ops (newStore example_data) example_ops = Some true) as Ev by (vm_compute; reflexivity).
  rewrite Er in Ev. simpl in Ev. congruence.
Defined.
