(* ===== verification/SessionRuns.v ===== *)
(** * Runs of store operations

    What the clients of the store (the handlers, the cleaner) have in common: the
    operations a client makes on its session form a run, whose operations satisfy
    the promise [P] of the client.  A run keeps the data writable, so opening and
    closing a session never panics, and a session that is opened, run and closed
    is a path of the machine of [Store]. *)

From S2P Require Import Prelude GoNet Cidr NodeTypes Store.

(** ** Runs *)

Definition runs_with (P : Clock → op → Prop) (s s' : session) : Prop :=
  ∃ os, run_ops s os = Some s' ∧ Forall (λ x, P x.1 x.2) os.

Lemma run_ops_app s os os' : run_ops s (os ++ os') = s' ← run_ops s os; run_ops s' os'.
Proof.
  revert s. induction os as [|[now o] os IH]; intros s; simpl; [done|].
  destruct (run_op now s o); simpl; [apply IH|done].
Qed.

#[global] Instance runs_with_preorder P : PreOrder (runs_with P).
Proof.
  split; [by exists []|]. intros s1 s2 s3 (os & E & H) (os' & E' & H'). exists (os ++ os').
  rewrite run_ops_app, E. split; [done|]. by apply Forall_app.
Qed.

Lemma runs_with_op (P : Clock → op → Prop) now o s s' : P now o → run_op now s o = Some s' → runs_with P s s'.
Proof. intros HP E. exists [(now, o)]. simpl. rewrite E. split; [done|]. by repeat constructor. Qed.

Lemma runs_with_mono (P Q : Clock → op → Prop) s s' :
  (∀ now o, P now o → Q now o) → runs_with P s s' → runs_with Q s s'.
Proof. intros HPQ (os & E & H). exists os. split; [done|]. eapply Forall_impl; [done|]. intros []; apply HPQ. Qed.

(** A property every operation keeps is kept by a run. *)
Lemma runs_with_inv (P : Clock → op → Prop) (I : session → Prop) s s' :
  (∀ now o s s', P now o → I s → run_op now s o = Some s' → I s') → I s → runs_with P s s' → I s'.
Proof.
  intros Hop HI (os & E & H). revert s HI E. induction H as [|[now o] os Ho _ IH]; intros s HI E; simpl in E.
  - by simplify_eq.
  - destruct (run_op now s o) as [s1|] eqn:E1; [|done]. simpl in E. eauto.
Qed.

Lemma runs_with_open P s s' : isClosed s = false → runs_with P s s' → isClosed s' = false.
Proof. apply (runs_with_inv P (λ s, isClosed s = false)). intros. by eapply run_op_closed. Qed.

Lemma runs_with_unmodified P s s' :
  runs_with P s s' → isModified s' = false → s' = s.
Proof.
  intros (os & E & _). revert s E. induction os as [|[now o] os IH]; intros s E Hm; simpl in E; [by simplify_eq|].
  destruct (run_op now s o) as [s1|] eqn:E1; [|done]. simpl in E. pose proof (IH _ E Hm) as ->.
  by apply (run_op_unmodified _ _ _ _ E1).
Qed.

(** ** The data stays writable *)

Definition op_texts_ok (o : op) : Prop :=
  match o with OpReserve _ _ _ _ a => ip_text_ok a | OpSetLast _ ip => ip_text_ok ip | _ => True end.

Definition pool_texts_ok (p : PoolReservations) : Prop :=
  ip_text_ok (LastReservedIP p) ∧ map_Forall (λ _ e, ip_text_ok (IPAddress e)) (Entries p).

Lemma pool_of_texts_ok s pk : root_texts_ok (tmpData s) → pool_texts_ok (pool_of s pk).
Proof.
  intros Hs. unfold pool_of, getPoolData. destruct (Pools (tmpData s) !! pk) as [p|] eqn:E; [by apply (Hs pk)|].
  split; [by left|]. apply map_Forall_empty.
Qed.

Lemma update_texts_ok s pk p :
  root_texts_ok (tmpData s) → pool_texts_ok p → root_texts_ok (tmpData (updatePoolData s pk p)).
Proof. intros Hs Hp. by apply map_Forall_insert_2. Qed.

Lemma run_op_texts_ok now o s s' :
  op_texts_ok o → root_texts_ok (tmpData s) → run_op now s o = Some s' → root_texts_ok (tmpData s').
Proof.
  intros Ho Hs. destruct o as [pk id ifn meta a|pk id ifn c|pk|pk ip]; simpl in *;
    pose proof (pool_of_texts_ok s pk Hs) as [Hp1 Hp2].
  - unfold Reserve, checkClosed. case_match; [done|]. simpl. case_bool_decide; [by intros [= <-]|].
    destruct (existsb _ _); [by intros [= <-]|]. intros [= <-]. apply update_texts_ok; [done|]. split; [done|].
    by apply map_Forall_insert_2.
  - destruct (ReleaseReservationByID now s pk id ifn c) as [[s1 b]|] eqn:E; [|done]. intros [= <-].
    apply Release_cases in E. simpl in E. destruct (Entries _ !! _) as [r|] eqn:Er; [|by destruct E as [-> _]].
    destruct (_ || _); [|destruct (IsReleased r)]; destruct E as [-> _]; [|done|]; (apply update_texts_ok; [done|]);
      (split; [done|]); [by apply map_Forall_delete|apply map_Forall_insert_2; [|done]]. by apply (Hp2 _ _ Er).
  - unfold RemovePool, checkClosed. case_match; [done|]. intros [= <-]. by apply map_Forall_delete.
  - unfold SetLastReservedIP, checkClosed. case_match; [done|]. intros [= <-]. by apply update_texts_ok.
Qed.

Lemma runs_with_texts_ok (P : Clock → op → Prop) s s' :
  (∀ now o, P now o → op_texts_ok o) → root_texts_ok (tmpData s) → runs_with P s s' → root_texts_ok (tmpData s').
Proof. intros HP. apply (runs_with_inv P (λ s, root_texts_ok (tmpData s))). eauto using run_op_texts_ok. Qed.

(** ** Opening and closing a session *)

Section sessions.
Context `{RootCodecLaws}.

Lemma runs_with_steps P m s s' : runs_with P s s' → rtc step (m, Some s) (m, Some s').
Proof. intros (os & E & _). by eapply run_ops_steps. Qed.

(** The data a session starts from: in memory, or in the file. *)
Definition loaded (m : store) (r : Root) : Prop :=
  persistedData m = Some r ∨ (persistedData m = None ∧ loadFromDisk true (disk m) = Some (Ok r)).

(** [m'] is [m], up to data read into memory. *)
Definition same_data (m m' : store) : Prop :=
  m' = m ∨ ∃ r, loaded m r ∧ m' = mkStore (disk m) (Some r) false.

Lemma loadFromDisk_total readable d : is_Some (loadFromDisk readable d).
Proof.
  unfold loadFromDisk. destruct readable; [|by eexists]. simpl. destruct d as [[|b d]|]; [by eexists..| |by eexists].
  destruct (Unmarshal (b :: d)) as [r|] eqn:E; [|by eexists]. destruct (_ =? 0); [by eexists|].
  unfold Verify. destruct (NewChecksum_total r) as [c ->]; [by eapply Unmarshal_texts_ok|]. simpl. case_match; by eexists.
Qed.

Lemma Open_total readable m :
  locked m = false →
  (∃ e, Open readable m = Some (OpenFailed m e)) ∨
  ∃ r, loaded m r ∧ Open readable m = Some (Opened (mkStore (disk m) (Some r) true) (newStore r)).
Proof.
  intros Hl. unfold Open, loaded. rewrite Hl. destruct m as [d [r|] l]; simpl in *; [right; eauto|].
  destruct (loadFromDisk_total readable d) as [res E]. rewrite E. simpl. subst l. destruct res as [r|e].
  - right. exists r. split; [|done]. right. split; [done|]. by destruct readable.
  - left. by eexists.
Qed.

(** Committing the data of a run. *)
Lemma Commit_total writable m s :
  isClosed s = false → root_texts_ok (tmpData s) →
  ∃ m' s' err, Commit writable m s = Some (m', s', err) ∧ locked m' = false ∧
    match err with
    | Some _ => disk m' = disk m ∧ persistedData m' = persistedData m
    | None => if isModified s then ∃ r, persistedData m' = Some r ∧ Pools r = Pools (tmpData s)
              else disk m' = disk m ∧ persistedData m' = persistedData m
    end.
Proof.
  intros Hc Ht. unfold Commit. rewrite Hc. destruct (isModified s); simpl; [|by eauto 9].
  unfold writeToDisk. destruct (NewChecksum_total _ Ht) as [c ->]. simpl.
  destruct (Marshal _) as [data|]; simpl; [destruct writable; simpl|]; eauto 10.
Qed.

(** Why a session cannot be opened: nothing is in memory, and the file cannot be
    read or has no data. *)
Definition open_refused (readable : bool) (m : store) : Prop :=
  persistedData m = None ∧ (readable = false ∨ ∀ r, ¬ loaded m r).

Lemma Open_error readable m m' e : Open readable m = Some (OpenFailed m' e) → open_refused readable m.
Proof.
  unfold Open, open_refused, loaded. destruct (locked m); [done|]. destruct (persistedData m); [done|]. intros E. split; [done|].
  destruct readable; [right|by left]. intros r [?|[_ El]]; [done|]. by rewrite El in E.
Qed.

(** Why a commit fails: the file cannot be written, or the data has no JSON form. *)
Definition commit_refused (writable : bool) (s : session) : Prop :=
  writable = false ∨ ∃ c, NewChecksum (tmpData s) = Some c ∧ Marshal (set_Checksum (tmpData s) c) = None.

Lemma Commit_error writable m s m' s' e : Commit writable m s = Some (m', s', Some e) → commit_refused writable s.
Proof.
  unfold Commit, writeToDisk, commit_refused. destruct (isClosed s); [done|]. destruct (isModified s); [|done]. simpl.
  destruct (NewChecksum (tmpData s)) as [c|]; [|done]. simpl. destruct (Marshal _) eqn:E; [|by eauto].
  destruct writable; [done|by left].
Qed.

(** A session that is opened, run, and closed by [Commit] or [Cancel]. *)
Lemma session_committed P m readable writable r s :
  loaded m r → Open readable m = Some (Opened (mkStore (disk m) (Some r) true) (newStore r)) →
  (∀ now o, P now o → op_texts_ok o) → root_texts_ok r → runs_with P (newStore r) s →
  ∃ m' s' err, Commit writable (mkStore (disk m) (Some r) true) s = Some (m', s', err) ∧
    rtc step (m, None) (m', None) ∧ locked m' = false ∧
    match err with
    | Some _ => same_data m m'
    | None => ∃ r', persistedData m' = Some r' ∧ Pools r' = Pools (tmpData s)
    end.
Proof.
  intros Hl Ho HP Hr Hrun.
  assert (isClosed s = false) as Hc by (by eapply runs_with_open; [|done]).
  assert (root_texts_ok (tmpData s)) as Ht
    by (eapply runs_with_texts_ok; [done| |done]; by rewrite newStore_tmpData).
  destruct (Commit_total writable (mkStore (disk m) (Some r) true) s Hc Ht) as (m' & s' & err & E & Hlk & Herr).
  exists m', s', err. split_and!; [done| |done|].
  - eapply rtc_l; [by eapply step_open|]. eapply rtc_r; [by eapply runs_with_steps|]. by eapply step_commit.
  - destruct m' as [d p l]. simpl in *. destruct err as [err|].
    + destruct Herr as [-> ->]. right. exists r. split; [done|]. by subst l.
    + destruct (isModified s) eqn:Hm; [done|]. destruct Herr as [_ ->]. exists r. split; [done|].
      by rewrite (runs_with_unmodified _ _ _ Hrun Hm), newStore_tmpData.
Qed.

Lemma session_cancelled P m readable r s :
  loaded m r → Open readable m = Some (Opened (mkStore (disk m) (Some r) true) (newStore r)) →
  runs_with P (newStore r) s →
  ∃ m' s', Cancel (mkStore (disk m) (Some r) true) s = Some (m', s') ∧
    rtc step (m, None) (m', None) ∧ locked m' = false ∧ same_data m m'.
Proof.
  intros Hl Ho Hrun. assert (isClosed s = false) as Hc by (by eapply runs_with_open; [|done]).
  assert (∃ m' s', Cancel (mkStore (disk m) (Some r) true) s = Some (m', s') ∧ m' = mkStore (disk m) (Some r) false)
    as (m' & s' & E & Em) by (unfold Cancel; rewrite Hc; eauto).
  exists m', s'. split_and!; [done| |by subst m'|right; by exists r].
  eapply rtc_l; [by eapply step_open|]. eapply rtc_r; [by eapply runs_with_steps|]. by eapply step_cancel.
Qed.

Lemma loaded_inv m r : machine_inv (m, None) → loaded m r → stored (disk m) r.
Proof.
  intros (_ & (r0 & Hr0) & Hp & _) [E|[E El]]; [by rewrite E in Hp|]. by eapply on_disk_load.
Qed.

Lemma stored_texts_ok d r : stored d r → root_texts_ok r.
Proof. by intros [[? _] _]. Qed.
End sessions.
