(* ===== verification/RangeSet.v ===== *)
(** * Address ranges of the node allocator: [pkg/ipam-node/allocator/{range,range_set}.go]

    A range is an inclusive interval of addresses of a subnet, with the gateway
    the iterator skips.  A range set is a list of disjoint ranges of one family.
    [Canonicalize] puts a range in its standard form or rejects it; the panic of
    [LastIP] is [None]. *)

From S2P Require Import Prelude GoNet Cidr GoNetText.

Record Range := mkRange {
  RangeStart : IP;
  RangeEnd : IP;
  Subnet : IPNet;
  Gateway : IP;
}.

Abbreviation RangeSet := (list Range) (only parsing).

(** [addr] is a pointer; the result is the address written back. *)
Definition CanonicalizeIP (addr : option IP) : result error IP :=
  match addr with
  | None => Err "IP can't be nil"
  | Some addr =>
      let normalizedIP := NormalizeIP addr in
      if is_nil normalizedIP then Err "IP %s not v4 nor v6" else Ok normalizedIP
  end.

#[global] Arguments CanonicalizeIP : simpl never.

Definition Range_Contains (r : Range) (addr : IP) : bool :=
  match CanonicalizeIP (Some addr) with
  | Err _ => false
  | Ok addr =>
      if negb (bool_decide (length addr = length (net_IP (Subnet r)))) then false
      else if negb (Contains (Subnet r) addr) then false
      else if Cmp addr (RangeStart r) <? 0 then false
      else if 0 <? Cmp addr (RangeEnd r) then false
      else true
  end.

#[global] Arguments Range_Contains : simpl never.

Definition Range_Overlaps (r r1 : Range) : bool :=
  if negb (bool_decide (length (RangeStart r) = length (RangeStart r1))) then false
  else Range_Contains r (RangeStart r1) || Range_Contains r (RangeEnd r1) ||
       Range_Contains r1 (RangeStart r) || Range_Contains r1 (RangeEnd r).

Definition Range_String (r : Range) : string := IP_String (RangeStart r) +:+ "-" +:+ IP_String (RangeEnd r).

Definition set_Subnet_IP (r : Range) (ip : IP) : Range :=
  mkRange (RangeStart r) (RangeEnd r) (mkIPNet ip (net_Mask (Subnet r))) (Gateway r).
Definition set_Gateway (r : Range) (ip : IP) : Range := mkRange (RangeStart r) (RangeEnd r) (Subnet r) ip.
Definition set_RangeStart (r : Range) (ip : IP) : Range := mkRange ip (RangeEnd r) (Subnet r) (Gateway r).
Definition set_RangeEnd (r : Range) (ip : IP) : Range := mkRange (RangeStart r) ip (Subnet r) (Gateway r).

(** The default of [RangeStart]. *)
Definition default_RangeStart (r : Range) : result error Range :=
  if IsPointToPointSubnet (Subnet r) || IsSingleIPSubnet (Subnet r)
  then Ok (set_RangeStart r (net_IP (Subnet r)))
  else
    let start := NextIP (net_IP (Subnet r)) in
    if is_nil start then Err "computed RangeStart is not a valid IP" else Ok (set_RangeStart r start).

Definition Range_Canonicalize (r : Range) : option (result error Range) :=
  let checked : result error Range := (
    let! ip := CanonicalizeIP (Some (net_IP (Subnet r))) in
    let r := set_Subnet_IP r ip in
    if negb (bool_decide (length (net_IP (Subnet r)) = length (net_Mask (Subnet r))))
    then Err "IPNet IP and Mask version mismatch"
    else
      let networkIP := IP_Mask (net_IP (Subnet r)) (net_Mask (Subnet r)) in
      if negb (IP_Equal (net_IP (Subnet r)) networkIP)
      then Err "network has host bits set. Expected subnet address is %s"
      else
        let! r := if is_nil (Gateway r) then Ok r
                  else (let! gw := CanonicalizeIP (Some (Gateway r)) in Ok (set_Gateway r gw)) in
        if is_nil (RangeStart r) then default_RangeStart r
        else
          let! ip := CanonicalizeIP (Some (RangeStart r)) in
          let r := set_RangeStart r ip in
          if negb (Range_Contains r (RangeStart r)) then Err "RangeStart %s not in network %s" else Ok r)%ipam in
  match checked with
  | Err e => Some (Err e)
  | Ok r =>
      if is_nil (RangeEnd r) then ip ← LastIP (Subnet r); Some (Ok (set_RangeEnd r ip))
      else Some (
        let! ip := CanonicalizeIP (Some (RangeEnd r)) in
        let r := set_RangeEnd r ip in
        if negb (Range_Contains r (RangeEnd r)) then Err "RangeEnd %s not in network %s" else Ok r)%ipam
  end.

(** ** Range sets *)

Definition RangeSet_String (s : RangeSet) : string := String.concat "," (Range_String <$> s).

Definition RangeFor (s : RangeSet) (addr : IP) : result error Range :=
  (let! addr := CanonicalizeIP (Some addr) in
   match List.find (λ r, Range_Contains r addr) s with
   | Some r => Ok r
   | None => Err (IP_String addr +:+ " not in range set " +:+ RangeSet_String s)
   end)%ipam.

Definition RangeSet_Contains (s : RangeSet) (addr : IP) : bool := is_ok (RangeFor s addr).

Definition RangeSet_Overlaps (s p1 : RangeSet) : bool :=
  existsb (λ r, existsb (λ r1, Range_Overlaps r r1) p1) s.

(** The first loop: canonical ranges, all of the family of the first. *)
Fixpoint canonicalize_ranges (fam : option nat) (s : RangeSet) : option (result error RangeSet) :=
  match s with
  | [] => Some (Ok [])
  | r :: s =>
      r ← Range_Canonicalize r;
      match r with
      | Err e => Some (Err e)
      | Ok r =>
          let fam' := length (RangeStart r) in
          if match fam with Some fam => negb (bool_decide (fam = fam')) | None => false end
          then Some (Err "mixed address families")
          else
            rest ← canonicalize_ranges (Some (default fam' fam)) s;
            Some (let! rest := rest in Ok (r :: rest))%ipam
      end
  end.

(** The second loop: the first pair of ranges that overlap. *)
Fixpoint overlapping_pair (s : RangeSet) : option (Range * Range) :=
  match s with
  | [] => None
  | r1 :: s =>
      match List.find (λ r2, Range_Overlaps r1 r2) s with
      | Some r2 => Some (r1, r2)
      | None => overlapping_pair s
      end
  end.

Definition RangeSet_Canonicalize (s : RangeSet) : option (result error RangeSet) :=
  match s with
  | [] => Some (Err "empty range set")
  | _ =>
      s ← canonicalize_ranges None s;
      Some (
        let! s := s in
        match overlapping_pair s with
        | Some (r1, r2) => Err ("subnets " +:+ Range_String r1 +:+ " and " +:+ Range_String r2 +:+ " overlap")
        | None => Ok s
        end)%ipam
  end.

(** ** What a canonical range denotes *)

(** [r] is the interval [lo, hi] of the network [base/ones], in standard form. *)
Record range_of (f : family) (base ones lo hi : Z) (r : Range) : Prop := {
  ro_net : net_ok f base ones;
  ro_subnet : Subnet r = net_of f base ones;
  ro_start : RangeStart r = ip_of f lo;
  ro_end : RangeEnd r = ip_of f hi;
  ro_lo : base ≤ lo < base + net_size f ones;
  ro_hi : base ≤ hi < base + net_size f ones;
  ro_gw : Gateway r = [] ∨ ∃ g y, addr_ok g y ∧ Gateway r = ip_of g y;
}.

Lemma CanonicalizeIP_valid ip f x : addr_of ip = Some (f, x) → CanonicalizeIP (Some ip) = Ok (ip_of f x).
Proof. intros H. unfold CanonicalizeIP. by rewrite (NormalizeIP_valid _ _ _ H), is_nil_ip_of. Qed.

Lemma CanonicalizeIP_invalid ip : addr_of ip = None → ∃ e, CanonicalizeIP (Some ip) = Err e.
Proof. intros H. unfold CanonicalizeIP. rewrite NormalizeIP_invalid by done. eauto. Qed.

Lemma CanonicalizeIP_Ok ip ip' :
  CanonicalizeIP (Some ip) = Ok ip' → ∃ f x, addr_of ip = Some (f, x) ∧ ip' = ip_of f x.
Proof.
  destruct (addr_of ip) as [[f x]|] eqn:E.
  - rewrite (CanonicalizeIP_valid _ _ _ E). intros [= <-]. eauto.
  - by destruct (CanonicalizeIP_invalid _ E) as [e ->].
Qed.

Lemma ip_of_length_inj f g x y : length (ip_of f x) = length (ip_of g y) → f = g.
Proof. rewrite !length_ip_of. by destruct f, g. Qed.

(** Membership, whatever the two ends are. *)
Lemma Range_Contains_net f base ones r ip g x :
  net_ok f base ones → Subnet r = net_of f base ones → addr_of ip = Some (g, x) →
  Range_Contains r ip = bool_decide (g = f ∧ base ≤ x < base + net_size f ones) &&
                        negb (Cmp ip (RangeStart r) <? 0) && negb (0 <? Cmp ip (RangeEnd r)).
Proof.
  intros Hn Hs Hip. unfold Range_Contains. rewrite (CanonicalizeIP_valid _ _ _ Hip), Hs.
  pose proof (addr_of_ip_of _ _ (addr_of_ok _ _ _ Hip)) as Hx.
  assert (ip_equiv (ip_of g x) ip) as Heq by (unfold ip_equiv; by rewrite Hx).
  rewrite (Contains_net_of _ _ _ _ _ _ Hn Hx). rewrite !(Cmp_proper _ _ Heq _ _ (reflexivity _)).
  simpl net_IP. destruct (decide (g = f)) as [->|Hne].
  - rewrite (bool_decide_true (length _ = _)) by (by rewrite !length_ip_of). simpl.
    by destruct (bool_decide _), (_ <? 0), (0 <? _).
  - rewrite (bool_decide_false (length _ = _)) by (intros E; by apply ip_of_length_inj in E).
    rewrite bool_decide_false by tauto. done.
Qed.

Lemma Range_Contains_invalid r ip : addr_of ip = None → Range_Contains r ip = false.
Proof. intros H. unfold Range_Contains. by destruct (CanonicalizeIP_invalid _ H) as [e ->]. Qed.

(** A canonical range contains exactly its interval. *)
Lemma Range_Contains_spec f base ones lo hi r ip :
  range_of f base ones lo hi r →
  Range_Contains r ip = true ↔ ∃ x, addr_of ip = Some (f, x) ∧ lo ≤ x ≤ hi.
Proof.
  intros [Hn Hs Hst He Hlo Hhi _]. destruct (addr_of ip) as [[g x]|] eqn:Hip.
  2: { rewrite Range_Contains_invalid by done. split; [done|]. by intros (? & ? & _). }
  rewrite (Range_Contains_net _ _ _ _ _ _ _ Hn Hs Hip), Hst, He.
  pose proof (addr_of_ip_of _ _ (net_ok_addr _ _ _ _ Hn Hlo)) as Al.
  pose proof (addr_of_ip_of _ _ (net_ok_addr _ _ _ _ Hn Hhi)) as Ah.
  case_bool_decide as Hg; simpl.
  - destruct Hg as [-> Hx]. rewrite (Cmp_ltb _ _ _ _ _ Hip Al), (Cmp_gtb _ _ _ _ _ Hip Ah).
    rewrite andb_true_iff, !negb_true_iff, !Z.ltb_ge. split; [eauto|]. by intros (? & [= <-] & ?).
  - split; [done|]. intros (? & [= -> <-] & ?). exfalso. apply Hg. split; [done|lia].
Qed.

Lemma is_nil_valid ip f x : addr_of ip = Some (f, x) → is_nil ip = false.
Proof. intros H. apply bool_decide_false. intros ->. by rewrite addr_of_nil in H. Qed.

Lemma gateway_normal gw g :
  gw = [] ∨ is_Some (addr_of gw) → g = NormalizeIP gw →
  g = [] ∨ ∃ f y, addr_ok f y ∧ g = ip_of f y.
Proof.
  intros [->|[[f y] H]] ->; [by left|]. right. exists f, y.
  rewrite (NormalizeIP_valid _ _ _ H). split; [by eapply addr_of_ok|done].
Qed.

(** The network checks of [Canonicalize] pass on a network. *)
Lemma canonical_net f base ones ip :
  net_ok f base ones → addr_of ip = Some (f, base) →
  IP_Equal (ip_of f base) (IP_Mask (ip_of f base) (mask_loop (fam_len f) ones)) = true.
Proof.
  intros Hn Hip. rewrite (IP_Mask_base f base ones ones); [apply IP_Equal_refl|done|]. destruct Hn. lia.
Qed.

Lemma canonical_gateway r :
  Gateway r = [] ∨ is_Some (addr_of (Gateway r)) →
  (if is_nil (Gateway r) then Ok r
   else rbind (CanonicalizeIP (Some (Gateway r))) (λ gw, Ok (set_Gateway r gw))) =
  Ok (E := error) (set_Gateway r (NormalizeIP (Gateway r))).
Proof.
  intros [E|[[f x] H]].
  - rewrite E. destruct r. simpl in *. by subst.
  - rewrite (is_nil_valid _ _ _ H), (CanonicalizeIP_valid _ _ _ H). simpl. by rewrite (NormalizeIP_valid _ _ _ H).
Qed.

(** Both ends given: the range is accepted exactly when it is a nonempty
    interval of the network. *)
Lemma Range_Canonicalize_given f base ones ip gw start fs lo stop fe hi :
  net_ok f base ones → addr_of ip = Some (f, base) → gw = [] ∨ is_Some (addr_of gw) →
  addr_of start = Some (fs, lo) → addr_of stop = Some (fe, hi) →
  let res := Range_Canonicalize (mkRange start stop (mkIPNet ip (mask_loop (fam_len f) ones)) gw) in
  if decide (fs = f ∧ fe = f ∧ base ≤ lo ≤ hi ∧ hi < base + net_size f ones)
  then res = Some (Ok (mkRange (ip_of f lo) (ip_of f hi) (net_of f base ones) (NormalizeIP gw)))
  else ∃ e, res = Some (Err e).
Proof.
  intros Hn Hip Hgw Hs He. cbv zeta. unfold Range_Canonicalize. simpl.
  rewrite (CanonicalizeIP_valid _ _ _ Hip). simpl.
  rewrite bool_decide_true by (by rewrite length_ip_of, length_mask_loop). simpl.
  rewrite (canonical_net _ _ _ _ Hn Hip). cbn [negb].
  pose proof (canonical_gateway
    (mkRange start stop (mkIPNet (ip_of f base) (mask_loop (fam_len f) ones)) gw) Hgw) as HG. simpl in HG.
  unfold set_Subnet_IP. simpl. rewrite HG. simpl.
  rewrite (is_nil_valid _ _ _ Hs), (CanonicalizeIP_valid _ _ _ Hs). simpl.
  pose proof (addr_of_ip_of _ _ (addr_of_ok _ _ _ Hs)) as As.
  pose proof (addr_of_ip_of _ _ (addr_of_ok _ _ _ He)) as Ae.
  erewrite Range_Contains_net by (first [exact Hn|reflexivity|exact As]). simpl.
  set (c1 := negb (Cmp _ _ <? 0)). set (c2 := negb (0 <? Cmp _ _)).
  assert (c1 = true) as -> by (unfold c1; rewrite (Cmp_ltb _ _ _ _ _ As As), Z.ltb_irrefl; done).
  rewrite andb_true_r. case_bool_decide as Hin; simpl.
  2: { rewrite decide_False by (intros (-> & _ & ? & ?); apply Hin; split; [done|lia]). eauto. }
  destruct Hin as [-> Hlo]. destruct c2 eqn:Hc2; simpl.
  2: { rewrite decide_False; [by eauto|]. intros (_ & -> & ? & _). unfold c2 in Hc2.
       rewrite (Cmp_gtb _ _ _ _ _ As He), negb_false_iff, Z.ltb_lt in Hc2. lia. }
  rewrite (is_nil_valid _ _ _ He), (CanonicalizeIP_valid _ _ _ He). simpl.
  erewrite Range_Contains_net by (first [exact Hn|reflexivity|exact Ae]). simpl.
  case_bool_decide as Hin; simpl.
  2: { rewrite decide_False by (intros (_ & -> & ? & ?); apply Hin; split; [done|lia]). eauto. }
  destruct Hin as [-> Hhi]. unfold c2 in Hc2. rewrite (Cmp_gtb _ _ _ _ _ As He), negb_true_iff, Z.ltb_ge in Hc2.
  rewrite decide_True by (split_and!; try done; lia).
  rewrite (Cmp_ltb _ _ _ _ _ Ae As), (Cmp_gtb _ _ _ _ _ Ae Ae), Z.ltb_irrefl, (proj2 (Z.ltb_ge _ _)) by lia.
  done.
Qed.

(** ** Range sets with both ends of every range given *)

(** What a range says before it is checked: the network, and the two ends with
    their families. *)
Record rspec := mkRspec {
  rs_f : family; rs_base : Z; rs_ones : Z;
  rs_fs : family; rs_lo : Z;
  rs_fe : family; rs_hi : Z;
}.

Record given (i : rspec) (r : Range) : Prop := {
  gv_net : net_ok (rs_f i) (rs_base i) (rs_ones i);
  gv_ip : addr_of (net_IP (Subnet r)) = Some (rs_f i, rs_base i);
  gv_mask : net_Mask (Subnet r) = mask_loop (fam_len (rs_f i)) (rs_ones i);
  gv_gw : Gateway r = [] ∨ is_Some (addr_of (Gateway r));
  gv_start : addr_of (RangeStart r) = Some (rs_fs i, rs_lo i);
  gv_end : addr_of (RangeEnd r) = Some (rs_fe i, rs_hi i);
}.

(** A nonempty interval of the network. *)
Definition accepts (i : rspec) : Prop :=
  rs_fs i = rs_f i ∧ rs_fe i = rs_f i ∧ rs_base i ≤ rs_lo i ≤ rs_hi i ∧
  rs_hi i < rs_base i + net_size (rs_f i) (rs_ones i).
#[global] Instance accepts_dec i : Decision (accepts i).
Proof. unfold accepts. apply _. Defined.

Definition range_is (i : rspec) (r : Range) : Prop :=
  range_of (rs_f i) (rs_base i) (rs_ones i) (rs_lo i) (rs_hi i) r ∧ rs_lo i ≤ rs_hi i.

Definition apart (i j : rspec) : Prop := rs_hi i < rs_lo j ∨ rs_hi j < rs_lo i.

Lemma Range_Canonicalize_spec i r :
  given i r →
  if decide (accepts i) then ∃ r', Range_Canonicalize r = Some (Ok r') ∧ range_is i r' ∧ Gateway r' = NormalizeIP (Gateway r)
  else ∃ e, Range_Canonicalize r = Some (Err e).
Proof.
  intros [Hn Hip Hm Hgw Hs He]. destruct r as [st sp [ip m] gw]. simpl in *. subst m.
  pose proof (Range_Canonicalize_given _ _ _ _ _ _ _ _ _ _ _ Hn Hip Hgw Hs He) as H. simpl in H.
  destruct (decide (accepts i)) as [Hd|Hd]; [rewrite decide_True in H by done|by rewrite decide_False in H by done].
  eexists. split; [done|]. split; [|done]. destruct Hd as (_ & _ & ? & ?). split; [|lia].
  split; simpl; try done; try lia. by eapply gateway_normal.
Qed.

Lemma range_is_start_len i r : range_is i r → length (RangeStart r) = fam_len (rs_f i).
Proof. intros [H _]. rewrite (ro_start _ _ _ _ _ _ H). apply length_ip_of. Qed.

Lemma fam_len_inj f g : fam_len f = fam_len g → f = g.
Proof. by destruct f, g. Qed.

Definition all_ok (fam : option family) (l : list rspec) : Prop :=
  Forall accepts l ∧ ∃ f, (fam = None ∨ fam = Some f) ∧ Forall (λ i, rs_f i = f) l.

Lemma canonicalize_ranges_spec (fam : option family) l s :
  Forall2 given l s →
  match canonicalize_ranges (fam_len <$> fam) s with
  | Some (Ok s') => all_ok fam l ∧ Forall2 range_is l s'
  | Some (Err _) => ¬ all_ok fam l
  | None => False
  end.
Proof.
  intros H. revert fam. induction H as [|i r l s Hg _ IH]; intros fam; simpl.
  { split; [|constructor]. split; [constructor|]. exists (default F4 fam). destruct fam; eauto. }
  pose proof (Range_Canonicalize_spec _ _ Hg) as Hr. case_decide as Ha.
  2: { destruct Hr as [e ->]. simpl. intros [Hf _]. by inversion Hf. }
  destruct Hr as (r' & -> & Hr & _). simpl. rewrite (range_is_start_len _ _ Hr).
  assert (fam_len <$> Some (default (rs_f i) fam) = Some (default (fam_len (rs_f i)) (fam_len <$> fam))) as Efam
    by (by destruct fam).
  destruct (match fam_len <$> fam with Some _ => _ | None => _ end) eqn:Hfam.
  - destruct fam as [g|]; [|done]. simpl in Hfam. boolify. intros [_ (f & [?|?] & Hf)]; [done|]. simplify_eq.
    inversion Hf; subst. congruence.
  - rewrite <- Efam.
    assert (default (rs_f i) fam = rs_f i) as Ed.
    { destruct fam as [g|]; [|done]. simpl in Hfam. boolify. by apply fam_len_inj. }
    specialize (IH (Some (default (rs_f i) fam))). rewrite Ed in IH. rewrite Ed.
    destruct (canonicalize_ranges _ s) as [[s'|e]|]; simpl; [| |done].
    + destruct IH as [[Hac (f & [?|[= <-]] & Hf)] Hs]; [done|].
      split; [|by constructor]. split; [by constructor|]. exists (rs_f i). split; [|by constructor].
      destruct fam; [right; by rewrite <- Ed|by left].
    + intros [Hac (f & Hff & Hf)]. apply IH. inversion Hac; inversion Hf; subst.
      split; [done|]. exists (rs_f i). split; [by right|done].
Qed.

(** Overlap of canonical ranges of one family. *)
Lemma Range_Overlaps_spec i j r r1 :
  range_is i r → range_is j r1 → rs_f i = rs_f j → Range_Overlaps r r1 = false ↔ apart i j.
Proof.
  intros [Hi Hli] [Hj Hlj] Ef. unfold Range_Overlaps.
  rewrite bool_decide_true by (rewrite !range_is_start_len with (i := i) by done; symmetry;
    rewrite (range_is_start_len j) by done; by rewrite Ef).
  cbn [negb]. rewrite !orb_false_iff, <- !not_true_iff_false.
  pose proof (ro_net _ _ _ _ _ _ Hi) as Ni. pose proof (ro_net _ _ _ _ _ _ Hj) as Nj.
  pose proof (addr_of_ip_of _ _ (net_ok_addr _ _ _ _ Ni (ro_lo _ _ _ _ _ _ Hi))) as A1.
  pose proof (addr_of_ip_of _ _ (net_ok_addr _ _ _ _ Ni (ro_hi _ _ _ _ _ _ Hi))) as A2.
  pose proof (addr_of_ip_of _ _ (net_ok_addr _ _ _ _ Nj (ro_lo _ _ _ _ _ _ Hj))) as A3.
  pose proof (addr_of_ip_of _ _ (net_ok_addr _ _ _ _ Nj (ro_hi _ _ _ _ _ _ Hj))) as A4.
  rewrite !(Range_Contains_spec _ _ _ _ _ r _ Hi), !(Range_Contains_spec _ _ _ _ _ r1 _ Hj).
  rewrite (ro_start _ _ _ _ _ _ Hi), (ro_end _ _ _ _ _ _ Hi), (ro_start _ _ _ _ _ _ Hj), (ro_end _ _ _ _ _ _ Hj).
  rewrite A1, A2, A3, A4, Ef.
  assert (∀ x a b, (∃ y, Some (rs_f j, x) = Some (rs_f j, y) ∧ a ≤ y ≤ b) ↔ a ≤ x ≤ b) as Hex.
  { intros x a b. split; [by intros (y & [= <-] & ?)|eauto]. }
  rewrite !Hex. unfold apart. lia.
Qed.

Lemma overlapping_pair_spec l s f :
  Forall2 range_is l s → Forall (λ i, rs_f i = f) l →
  overlapping_pair s = None ↔ ForallOrdPairs apart l.
Proof.
  intros H. induction H as [|i r l s Hi His IH]; intros Hf; simpl; [split; [constructor|done]|].
  inversion Hf as [|? ? Hfi Hf']; subst. specialize (IH Hf').
  assert (List.find (λ r2, Range_Overlaps r r2) s = None ↔ Forall (apart i) l) as Hfind.
  { clear IH Hf. induction His as [|j r1 l s Hj _ IH2]; simpl; [split; [constructor|done]|].
    inversion Hf' as [|? ? Hfj Hf'']; subst.
    pose proof (Range_Overlaps_spec _ _ _ _ Hi Hj (eq_sym Hfj)) as Ho.
    rewrite Forall_cons. destruct (Range_Overlaps r r1).
    - split; [done|]. intros [Ha _]. by apply Ho in Ha.
    - rewrite IH2 by done. tauto. }
  destruct (List.find _ s) eqn:E.
  - split; [done|]. intros Hp. inversion Hp as [|? ? Ha]; subst. by apply Hfind in Ha.
  - rewrite IH. split; [intros Hp; apply FOP_cons; [by apply (proj1 Hfind)|done]|]. intros Hp. by inversion Hp.
Qed.

Lemma RangeFor_find s ip g x :
  addr_of ip = Some (g, x) →
  RangeSet_Contains s ip = existsb (λ r, Range_Contains r ip) s.
Proof.
  intros Hip. unfold RangeSet_Contains, RangeFor. rewrite (CanonicalizeIP_valid _ _ _ Hip). simpl.
  assert (∀ r, Range_Contains r (ip_of g x) = Range_Contains r ip) as E.
  { intros r. unfold Range_Contains. rewrite (CanonicalizeIP_valid _ _ _ Hip).
    by rewrite (CanonicalizeIP_valid _ _ _ (addr_of_ip_of _ _ (addr_of_ok _ _ _ Hip))). }
  generalize (IP_String (ip_of g x) +:+ " not in range set " +:+ RangeSet_String s). intros e.
  induction s as [|r s IH]; simpl; [done|]. rewrite E. by destruct (Range_Contains r ip).
Qed.

(** Membership in a canonical set. *)
Lemma RangeSet_Contains_spec l s ip :
  Forall2 range_is l s →
  RangeSet_Contains s ip = true ↔ ∃ i x, i ∈ l ∧ addr_of ip = Some (rs_f i, x) ∧ rs_lo i ≤ x ≤ rs_hi i.
Proof.
  intros H. destruct (addr_of ip) as [[g x]|] eqn:Hip.
  2: { unfold RangeSet_Contains, RangeFor. destruct (CanonicalizeIP_invalid _ Hip) as [e ->]. simpl.
       split; [done|]. by intros (? & ? & _ & ? & _). }
  rewrite (RangeFor_find _ _ _ _ Hip), existsb_exists. split.
  - intros (r & Hr%list_elem_of_In & Hc). destruct (Forall2_elem_r _ _ _ _ H Hr) as (i & Hi & Hri & _).
    destruct (proj1 (Range_Contains_spec _ _ _ _ _ _ _ Hri) Hc) as (y & E & ?). exists i, y.
    split_and!; [done|congruence|lia..].
  - intros (i & y & Hi & E & ?). destruct (Forall2_elem_l _ _ _ _ H Hi) as (r & Hr & Hri & _).
    exists r. split; [by apply list_elem_of_In|]. apply (Range_Contains_spec _ _ _ _ _ _ _ Hri).
    exists y. split; [congruence|done].
Qed.

(** A set that [Canonicalize] accepts. *)
Definition set_ok (l : list rspec) : Prop := all_ok None l ∧ ForallOrdPairs apart l.

Lemma RangeSet_Canonicalize_spec l s :
  l ≠ [] → Forall2 given l s →
  (set_ok l ∧ ∃ s', RangeSet_Canonicalize s = Some (Ok s') ∧ Forall2 range_is l s') ∨
  (¬ set_ok l ∧ ∃ e, RangeSet_Canonicalize s = Some (Err e)).
Proof.
  intros Hne Hg. destruct s as [|r0 s0]; [by inversion Hg; subst|]. unfold RangeSet_Canonicalize.
  pose proof (canonicalize_ranges_spec None l _ Hg) as H. cbn [fmap option_fmap option_map] in H.
  destruct (canonicalize_ranges None (r0 :: s0)) as [[s'|e]|]; cbn [mbind option_bind rbind]; [| |done].
  - destruct H as [[Ha (f & Hf & Hall)] Hr]. pose proof (overlapping_pair_spec _ _ _ Hr Hall) as Ho.
    destruct (overlapping_pair s') as [[r1 r2]|] eqn:E.
    + right. split; [|by eexists]. intros [_ Hp]. by apply Ho in Hp.
    + left. split; [|by eexists]. split; [split; [done|by exists f]|]. by apply (proj1 Ho).
  - right. split; [|by eexists]. by intros [? _].
Qed.

(** ** Ranges that leave an end open *)

(** Nothing panics on ranges of networks. *)
Definition of_net (r : Range) : Prop := ∃ f base ones, net_ok f base ones ∧ Subnet r = net_of f base ones.

Lemma Range_Canonicalize_total r : of_net r → is_Some (Range_Canonicalize r).
Proof.
  intros (f & base & ones & Hn & Hs). unfold Range_Canonicalize.
  set (checked := rbind _ _).
  assert (match checked with Ok r' => Subnet r' = net_of f base ones | Err _ => True end) as Hc.
  { unfold checked. clear checked. rewrite Hs. cbn [net_IP net_of].
    rewrite (CanonicalizeIP_valid _ f base) by (apply addr_of_ip_of; by eapply net_ok_base). cbn [rbind].
    destruct (negb _); [done|]. destruct (negb _); [done|].
    assert (Subnet (set_Subnet_IP r (ip_of f base)) = net_of f base ones) as E by (unfold set_Subnet_IP; by rewrite Hs).
    revert E. generalize (set_Subnet_IP r (ip_of f base)). intros r0 E.
    assert (∀ r1 : Range, Subnet r1 = net_of f base ones →
      match (if is_nil (RangeStart r1) then default_RangeStart r1
             else rbind (CanonicalizeIP (Some (RangeStart r1))) (λ ip,
               if negb (Range_Contains (set_RangeStart r1 ip) (RangeStart (set_RangeStart r1 ip)))
               then Err "RangeStart %s not in network %s" else Ok (set_RangeStart r1 ip)))
      with Ok r' => Subnet r' = net_of f base ones | Err _ => True end) as Hst.
    { intros r1 E1. destruct (is_nil (RangeStart r1)).
      - unfold default_RangeStart. destruct (_ || _); [exact E1|]. cbv zeta. destruct (is_nil _); [exact I|exact E1].
      - destruct (CanonicalizeIP _); simpl; [|exact I]. destruct (negb _); [exact I|exact E1]. }
    destruct (is_nil (Gateway r0)); [by apply Hst|].
    destruct (CanonicalizeIP (Some (Gateway r0))); cbn [rbind]; [|done]. by apply Hst. }
  destruct checked as [r'|e]; [|by eexists]. destruct (is_nil (RangeEnd r')); [|by eexists].
  rewrite Hc, (LastIP_net _ _ _ Hn). by eexists.
Qed.

Lemma canonicalize_ranges_total fam s : Forall of_net s → is_Some (canonicalize_ranges fam s).
Proof.
  intros H. revert fam. induction H as [|r s Hr _ IH]; intros fam; simpl; [by eexists|].
  destruct (Range_Canonicalize_total _ Hr) as [[r'|e] ->]; simpl; [|by eexists]. destruct (match fam with Some _ => _ | None => _ end); [by eexists|].
  destruct (IH (Some (default (length (RangeStart r')) fam))) as [rest ->]. by eexists.
Qed.

Lemma RangeSet_Canonicalize_total s : Forall of_net s → is_Some (RangeSet_Canonicalize s).
Proof.
  intros H. unfold RangeSet_Canonicalize. destruct s; [by eexists|].
  destruct (canonicalize_ranges_total None _ H) as [rest ->]. by eexists.
Qed.

Lemma RangeSet_Canonicalize_one r :
  RangeSet_Canonicalize [r] =
    match Range_Canonicalize r with Some (Ok r) => Some (Ok [r]) | Some (Err e) => Some (Err e) | None => None end.
Proof. unfold RangeSet_Canonicalize. simpl. by destruct (Range_Canonicalize r) as [[]|]. Qed.

(** Every range of an accepted set has been accepted. *)
Lemma canonicalize_ranges_each fam s s' :
  canonicalize_ranges fam s = Some (Ok s') → Forall2 (λ r r', Range_Canonicalize r = Some (Ok r')) s s'.
Proof.
  revert fam s'. induction s as [|r s IH]; intros fam s'; simpl; [intros [= <-]; constructor|].
  destruct (Range_Canonicalize r) as [[r'|e]|] eqn:E; simpl; [|done..]. destruct (match fam with Some _ => _ | None => _ end); [done|].
  destruct (canonicalize_ranges _ s) as [[s1|e]|] eqn:E1; simpl; [|done..]. intros [= <-]. constructor; [done|]. by eapply IH.
Qed.

Lemma RangeSet_Canonicalize_each s s' :
  RangeSet_Canonicalize s = Some (Ok s') → Forall2 (λ r r', Range_Canonicalize r = Some (Ok r')) s s'.
Proof.
  unfold RangeSet_Canonicalize. destruct s as [|r s]; [done|].
  destruct (canonicalize_ranges None (r :: s)) as [[s1|e]|] eqn:E1; cbn [mbind option_bind rbind]; [|done..].
  destruct (overlapping_pair s1) as [[]|]; [done|]. intros [= <-]. by eapply canonicalize_ranges_each.
Qed.

(** ** Properties *)


Definition example_v4 (x : Z) : Z := 192 * 2 ^ 24 + 168 * 2 ^ 16 + x.
Definition example_range (lo hi : Z) : Range :=
  mkRange (v4InV6Prefix ++ ip_of F4 (example_v4 lo)) (ip_of F4 (example_v4 hi)) (net_of F4 (example_v4 0) 24) [].
Definition example_rspec (lo hi : Z) : rspec :=
  mkRspec F4 (example_v4 0) 24 F4 (example_v4 lo) F4 (example_v4 hi).

Lemma example_given lo hi :
  addr_of (RangeStart (example_range lo hi)) = Some (F4, example_v4 lo) →
  addr_of (RangeEnd (example_range lo hi)) = Some (F4, example_v4 hi) →
  given (example_rspec lo hi) (example_range lo hi).
Proof.
  intros H1 H2. split; [by apply net_okb_ok|vm_compute; reflexivity|done|by left|done..].
Qed.


(** Exclusions that overlap, which the validation of a pool allows, are not a
    range set the node accepts. *)
Example overlapping_exclusions_rejected :
  RangeSet_Canonicalize [example_range 2 9; example_range 5 12] =
    Some (Err "subnets 192.168.0.2-192.168.0.9 and 192.168.0.5-192.168.0.12 overlap").
Proof. vm_compute. reflexivity. Qed.

(** A range that starts on the broadcast address and gives no end is accepted,
    although it is empty. *)
Example broadcast_start_empty_range :
  ∃ r, Range_Canonicalize (mkRange (ip_of F4 (example_v4 255)) [] (net_of F4 (example_v4 0) 24) []) = Some (Ok r) ∧
       Cmp (RangeEnd r) (RangeStart r) = -1.
Proof. eexists. split; vm_compute; reflexivity. Qed.
