(* ===== verification/NodeAllocator.v ===== *)
(** * The node's address allocator: [pkg/ipam-node/allocator/allocator.go]

    [Allocate] walks the range set round-robin from the last reserved address and
    reserves the first address that is free.  The store session is an interface
    ([SessionOps], with its promises in [SessionLaws]); the session of [Store] is
    an instance.  [None] is a panic (an operation on a closed session, an index
    out of range) or a loop that has run out of its fuel, which the theorems
    exclude. *)

From S2P Require Import Prelude GoNet Cidr NodeTypes Store RangeSet.

(** ** The session interface *)

Class SessionOps (S : Type) := {
  s_Reserve : S → string → string → string → ReservationMetadata → IP → option (S * option reserve_error);
  s_GetLastReservedIP : S → string → option IP;
  s_SetLastReservedIP : S → string → IP → option S;
}.

(** What the session shows: that it is open, whether a pool has a reservation
    for an interface, and whether an address is taken in a pool. *)
Class SessionView (S : Type) := {
  s_open : S → Prop;
  s_has : S → string → string → string → Prop;
  s_taken : S → string → IP → bool;
}.

(** What the allocator relies on. *)
Class SessionLaws (S : Type) `{SessionOps S, SessionView S} := {
  s_Last_open : ∀ s pk, s_open s → ∃ ip, s_GetLastReservedIP s pk = Some ip;
  s_SetLast_open : ∀ s pk ip, s_open s → ∃ s', s_SetLastReservedIP s pk ip = Some s' ∧
    s_open s' ∧ s_GetLastReservedIP s' pk = Some ip ∧
    (∀ pk' id ifn, s_has s' pk' id ifn ↔ s_has s pk' id ifn) ∧
    (∀ pk' a, s_taken s' pk' a = s_taken s pk' a);
  s_Reserve_exact : ∀ s pk id ifn meta a, s_open s →
    ∃ s' e, s_Reserve s pk id ifn meta a = Some (s', e) ∧
      (e = Some ErrReservationAlreadyExist ↔ s_has s pk id ifn) ∧
      (e = Some ErrIPAlreadyReserved ↔ ¬ s_has s pk id ifn ∧ s_taken s pk a = true) ∧
      (e ≠ None → s' = s) ∧
      (e = None → s_open s' ∧ s_has s' pk id ifn ∧ s_GetLastReservedIP s' pk = Some a ∧
         ∀ pk' b, s_taken s' pk' b = s_taken s pk' b || (bool_decide (pk' = pk) && IP_Equal b a));
}.

(** ** The allocator *)

Record IPConfig := mkIPConfig { Address : IPNet; ic_Gateway : IP }.

Inductive alloc_error :=
| ErrNoFreeAddresses
| ErrReserve (e : reserve_error)
| ErrStaticIP (ip : IP) (e : reserve_error)  (* failed to allocate staticIP %s: %w *)
| ErrNoRangeForStaticIP (ip : IP).

Record RangeIter := mkRangeIter {
  it_rangeSet : RangeSet;
  rangeIdx : nat;
  cur : IP;
  startIP : IP;
}.

Definition StartIP (i : RangeIter) : IP := startIP i.

Definition is_gateway (r : Range) (ip : IP) : bool := negb (is_nil (Gateway r)) && IP_Equal ip (Gateway r).

(** One run of the body of [Next]: [inl] is the recursive call, on an address
    that is the gateway; [inr None] a panic. *)
Definition Next_body (i : RangeIter) : RangeIter + option (RangeIter * option (IPNet * IP)) :=
  let yield (i : RangeIter) (r : Range) :=
    if is_gateway r (cur i) then inl i
    else inr (Some (i, Some (mkIPNet (cur i) (net_Mask (Subnet r)), Gateway r))) in
  match it_rangeSet i !! rangeIdx i with
  | None => inr None
  | Some r =>
      if is_nil (cur i)
      then yield (mkRangeIter (it_rangeSet i) (rangeIdx i) (RangeStart r) (RangeStart r)) r
      else
        let nextIP := NextIP (cur i) in
        let '(idx, c) :=
          if IP_Equal (cur i) (RangeEnd r) || is_nil nextIP
          then (((rangeIdx i + 1) mod length (it_rangeSet i))%nat, None)
          else (rangeIdx i, Some nextIP) in
        match it_rangeSet i !! idx with
        | None => inr None
        | Some r =>
            let c := default (RangeStart r) c in
            if is_nil (startIP i) then yield (mkRangeIter (it_rangeSet i) idx c c) r
            else
              let i' := mkRangeIter (it_rangeSet i) idx c (startIP i) in
              if IP_Equal c (startIP i) then inr (Some (i', None)) else yield i' r
        end
  end.

(** More than the addresses of the ranges. *)
Definition iter_fuel (s : RangeSet) : positive := Z.to_pos (Z.of_nat (length s) * 2 ^ 128 + 2).

Definition RangeIter_Next (i : RangeIter) : option (RangeIter * option (IPNet * IP)) :=
  match loop Next_body (iter_fuel (it_rangeSet i)) i with inl _ => None | inr r => r end.

Section allocator.
Context {S : Type} `{SessionOps S}.

Record allocator := mkAllocator {
  rangeSet : RangeSet;
  a_session : S;
  poolKey : string;
  exclusions : option RangeSet;
}.

Definition getIter (a : allocator) : option RangeIter :=
  lastReservedIP ← s_GetLastReservedIP (a_session a) (poolKey a);
  let startFromLastReservedIP :=
    if is_nil lastReservedIP then false else RangeSet_Contains (rangeSet a) lastReservedIP in
  if startFromLastReservedIP then
    Some match list_find (λ r, Range_Contains r lastReservedIP = true) (rangeSet a) with
         | Some (i, _) => mkRangeIter (rangeSet a) i lastReservedIP []
         | None => mkRangeIter (rangeSet a) 0 [] []
         end
  else
    r ← rangeSet a !! 0%nat;
    Some (mkRangeIter (rangeSet a) 0 [] (RangeStart r)).

Definition excluded (a : allocator) (ip : IP) : bool :=
  match exclusions a with Some e => RangeSet_Contains e ip | None => false end.

(** One turn of the loop of [Allocate]. *)
Definition Allocate_body (a : allocator) (id ifName : string) (meta : ReservationMetadata)
    (x : RangeIter * S) : RangeIter * S + option (S * result alloc_error IPConfig) :=
  let '(iter, session) := x in
  match RangeIter_Next iter with
  | None => inr None
  | Some (iter, None) => inr (Some (session, Err ErrNoFreeAddresses))
  | Some (iter, Some (reservedIP, gw)) =>
      if excluded a (net_IP reservedIP) then inl (iter, session)
      else
        match s_Reserve session (poolKey a) id ifName meta (net_IP reservedIP) with
        | None => inr None
        | Some (session, None) => inr (Some (session, Ok (mkIPConfig reservedIP gw)))
        | Some (session, Some ErrIPAlreadyReserved) => inl (iter, session)
        | Some (session, Some err) => inr (Some (session, Err (ErrReserve err)))
        end
  end.

Definition allocateStaticIP (a : allocator) (id ifName : string) (meta : ReservationMetadata) (staticIP : IP) :
    option (S * result alloc_error IPConfig) :=
  match List.find (λ r, Contains (Subnet r) staticIP) (rangeSet a) with
  | None => Some (a_session a, Err (ErrNoRangeForStaticIP staticIP))
  | Some r =>
      lastReservedIP ← s_GetLastReservedIP (a_session a) (poolKey a);
      '(session, err) ← s_Reserve (a_session a) (poolKey a) id ifName meta staticIP;
      match err with
      | Some err => Some (session, Err (ErrStaticIP staticIP err))
      | None =>
          session ← s_SetLastReservedIP session (poolKey a) lastReservedIP;
          Some (session, Ok (mkIPConfig (mkIPNet staticIP (net_Mask (Subnet r))) (Gateway r)))
      end
  end.

Definition Allocate (a : allocator) (id ifName : string) (meta : ReservationMetadata) (staticIP : IP) :
    option (S * result alloc_error IPConfig) :=
  if negb (is_nil staticIP) then allocateStaticIP a id ifName meta staticIP
  else
    iter ← getIter a;
    match loop (Allocate_body a id ifName meta) (iter_fuel (rangeSet a)) (iter, a_session a) with
    | inl _ => None
    | inr r => r
    end.
End allocator.

(** ** The session of the store *)

#[global] Instance session_ops (now : Clock) : SessionOps session := {|
  s_Reserve s pk id ifn meta a := Reserve now s pk id ifn meta a;
  s_GetLastReservedIP := GetLastReservedIP;
  s_SetLastReservedIP := SetLastReservedIP;
|}.

Definition session_has (s : session) (pk id ifn : string) : Prop :=
  is_Some (Entries (pool_of s pk) !! getKey id ifn).
Definition session_taken (s : session) (pk : string) (a : IP) : bool :=
  existsb (λ r, IP_Equal a (IPAddress r.2)) (map_to_list (Entries (pool_of s pk))).

Lemma session_taken_true s pk a :
  session_taken s pk a = true ↔ ∃ k r, Entries (pool_of s pk) !! k = Some r ∧ IP_Equal a (IPAddress r) = true.
Proof.
  unfold session_taken. rewrite existsb_exists. split.
  - intros ([k r] & Hin & E). exists k, r. split; [|done]. by apply elem_of_map_to_list, list_elem_of_In.
  - intros (k & r & Hin & E). exists (k, r). split; [|done]. by apply list_elem_of_In, elem_of_map_to_list.
Qed.

#[global] Instance session_view : SessionView session := {|
  s_open s := isClosed s = false;
  s_has := session_has;
  s_taken := session_taken;
|}.

#[global] Instance session_laws (now : Clock) : @SessionLaws session (session_ops now) session_view.
Proof.
  split; simpl.
  - intros s pk Ho. unfold GetLastReservedIP, checkClosed. rewrite Ho. eauto.
  - intros s pk ip Ho. unfold SetLastReservedIP, GetLastReservedIP, checkClosed. rewrite Ho.
    eexists. split; [done|]. fold (pool_of s pk).
    assert (∀ pk', Entries (pool_of (updatePoolData s pk (mkPoolReservations (pr_Name (pool_of s pk))
      (Entries (pool_of s pk)) (LastPoolConfig (pool_of s pk)) ip)) pk') = Entries (pool_of s pk')) as E.
    { intros pk'. rewrite pool_of_update. by case_decide; [subst|]. }
    split_and!; [done| |intros; unfold session_has; by rewrite E|intros; unfold session_taken; by rewrite E].
    simpl. rewrite Ho. unfold getPoolData. simpl. by rewrite lookup_insert_eq.
  - intros s pk id ifn meta a Ho. unfold Reserve, checkClosed. rewrite Ho. fold (pool_of s pk).
    fold (session_taken s pk a). fold (session_has s pk id ifn).
    case_bool_decide as Hk; [|destruct (session_taken s pk a) eqn:Ha].
    + eexists _, _. split; [done|]. split_and!; naive_solver.
    + eexists _, _. split; [done|]. split_and!; naive_solver.
    + eexists _, _. split; [done|]. split_and!; try naive_solver. intros _.
      assert (∀ pk', Entries (pool_of (updatePoolData s pk (mkPoolReservations (pr_Name (pool_of s pk))
        (<[getKey id ifn:=mkReservation id ifn a (set_CreateTime meta (clock_text now)) None]> (Entries (pool_of s pk)))
        (PoolConfigSnapshot meta) a)) pk') = if decide (pk' = pk)
        then <[getKey id ifn:=mkReservation id ifn a (set_CreateTime meta (clock_text now)) None]> (Entries (pool_of s pk))
        else Entries (pool_of s pk')) as E.
      { intros pk'. rewrite pool_of_update. by case_decide. }
      split_and!; [done| | |].
      * unfold session_has. rewrite E, decide_True by done. rewrite lookup_insert_eq. eauto.
      * unfold GetLastReservedIP, checkClosed, getPoolData. simpl. rewrite Ho. by rewrite lookup_insert_eq.
      * intros pk' b. apply eq_true_iff_eq. rewrite orb_true_iff, andb_true_iff, bool_decide_eq_true, !session_taken_true.
        rewrite E. destruct (decide (pk' = pk)) as [->|Hne]; [|naive_solver].
        apply eq_None_not_Some in Hk. split.
        -- intros (k & r & Hl & Heq). apply lookup_insert_Some in Hl as [[_ <-]|[_ Hl]]; eauto.
        -- intros [(k & r & Hl & Heq)|[_ Heq]].
           ++ exists k, r. split; [|done]. rewrite lookup_insert_ne; [done|]. intros <-. congruence.
           ++ eexists _, _. split; [apply lookup_insert_eq|done].
Qed.

(** ** The ring of addresses

    The addresses of the ranges in order, numbered from 0: [ring_get l 0 q] is
    the range and the address numbered [q]. *)

Definition rs_size (i : rspec) : Z := rs_hi i - rs_lo i + 1.

Fixpoint ring_size (l : list rspec) : Z :=
  match l with [] => 0 | i :: l => rs_size i + ring_size l end.

Fixpoint ring_get (l : list rspec) (k : nat) (q : Z) : option (nat * Z) :=
  match l with
  | [] => None
  | i :: l => if q <? rs_size i then Some (k, rs_lo i + q) else ring_get l (S k) (q - rs_size i)
  end.

Definition nonempty (i : rspec) : Prop := rs_lo i ≤ rs_hi i.

Lemma ring_size_nonneg l : Forall nonempty l → 0 ≤ ring_size l.
Proof. induction 1 as [|i l Hi _ IH]; simpl; [done|]. unfold nonempty in Hi. unfold rs_size. lia. Qed.

Lemma ring_get_total l k q : Forall nonempty l → 0 ≤ q < ring_size l → ∃ j x, ring_get l k q = Some (j, x).
Proof.
  intros H. revert k q. induction H as [|i l Hi _ IH]; intros k q Hq; simpl in *; [lia|].
  destruct (Z.ltb_spec q (rs_size i)); [eauto|]. apply IH. lia.
Qed.

(** An address numbered [q] belongs to its range. *)
Lemma ring_get_lookup l k q j x :
  Forall nonempty l → 0 ≤ q → ring_get l k q = Some (j, x) →
  ∃ i, l !! (j - k)%nat = Some i ∧ (k ≤ j)%nat ∧ rs_lo i ≤ x ≤ rs_hi i.
Proof.
  intros H. revert k q. induction H as [|i l Hi _ IH]; intros k q Hq; simpl; [done|].
  destruct (Z.ltb_spec q (rs_size i)) as [Hlt|Hge].
  - intros [= <- <-]. exists i. rewrite Nat.sub_diag. unfold rs_size in Hlt. split_and!; [done|lia..].
  - intros E. destruct (IH (S k) (q - rs_size i) ltac:(lia) E) as (i' & Hi' & Hk & Hx).
    exists i'. replace (j - k)%nat with (S (j - S k)) by lia. split_and!; [done|lia..].
Qed.

(** Every address of a range has a number. *)
Lemma ring_get_index l k j i x :
  Forall nonempty l → l !! j = Some i → rs_lo i ≤ x ≤ rs_hi i →
  ∃ q, 0 ≤ q < ring_size l ∧ ring_get l k q = Some ((k + j)%nat, x).
Proof.
  intros H. revert k j. induction H as [|i' l Hi Hl IH]; intros k j Hj Hx; simpl; [done|].
  pose proof (ring_size_nonneg _ Hl). destruct j as [|j]; simpl in Hj.
  - simplify_eq. exists (x - rs_lo i). unfold rs_size. split; [lia|].
    rewrite (proj2 (Z.ltb_lt _ _)) by lia. do 2 f_equal; lia.
  - destruct (IH (S k) j Hj Hx) as (q & Hq & E). exists (q + rs_size i'). unfold nonempty, rs_size in *.
    split; [lia|]. rewrite (proj2 (Z.ltb_ge _ _)) by lia.
    replace (q + (rs_hi i' - rs_lo i' + 1) - (rs_hi i' - rs_lo i' + 1)) with q by lia. rewrite E. do 2 f_equal. lia.
Qed.

(** The next number: the next address of the range, or the start of the next range. *)
Lemma ring_get_succ l k q j x i :
  Forall nonempty l → 0 ≤ q → ring_get l k q = Some (j, x) → l !! (j - k)%nat = Some i →
  (x < rs_hi i → q + 1 < ring_size l ∧ ring_get l k (q + 1) = Some (j, x + 1)) ∧
  (x = rs_hi i →
     match l !! S (j - k)%nat with
     | Some i' => q + 1 < ring_size l ∧ ring_get l k (q + 1) = Some (S j, rs_lo i')
     | None => q + 1 = ring_size l
     end).
Proof.
  intros H. revert k q. induction H as [|i0 l Hi Hl IH]; intros k q Hq; simpl; [done|].
  pose proof (ring_size_nonneg _ Hl).
  destruct (Z.ltb_spec q (rs_size i0)) as [Hlt|Hge].
  - intros [= <- <-]. rewrite Nat.sub_diag. intros [= ->]. unfold rs_size in *. split; intros Hx.
    + rewrite (proj2 (Z.ltb_lt _ _)) by lia. split; [lia|]. do 2 f_equal. lia.
    + simpl. destruct l as [|i' l]; simpl.
      * simpl in *. lia.
      * inversion Hl as [|? ? Hi' Hl']; subst. unfold nonempty, rs_size in *.
        pose proof (ring_size_nonneg _ Hl'). rewrite (proj2 (Z.ltb_ge _ _)) by lia.
        rewrite (proj2 (Z.ltb_lt _ _)) by lia. split; [simpl in *; unfold rs_size in *; lia|]. do 2 f_equal. lia.
  - intros E. destruct (ring_get_lookup l (S k) (q - rs_size i0) j x Hl ltac:(lia) E) as (i' & Hi' & Hk & _).
    replace (j - k)%nat with (S (j - S k)) by lia. simpl. intros Hl1.
    destruct (IH (S k) (q - rs_size i0) ltac:(lia) E Hl1) as [H1 H2].
    replace (q + 1 - rs_size i0) with (q - rs_size i0 + 1) by lia. split; intros Hx.
    + destruct (H1 Hx). rewrite (proj2 (Z.ltb_ge _ _)) by lia. split; [lia|done].
    + specialize (H2 Hx). destruct (l !! S (j - S k)) eqn:E2.
      * destruct H2. rewrite (proj2 (Z.ltb_ge _ _)) by lia. split; [lia|done].
      * lia.
Qed.

Lemma ring_get_0 i l :
  l !! 0%nat = Some i → nonempty i → ring_get l 0 0 = Some (0%nat, rs_lo i).
Proof.
  intros Hl H. destruct l; simplify_eq/=. unfold nonempty in H.
  rewrite (proj2 (Z.ltb_lt _ _)) by (unfold rs_size; lia). by rewrite Z.add_0_r.
Qed.

Lemma ring_size_pos l : Forall nonempty l → l ≠ [] → 0 < ring_size l.
Proof.
  intros H. destruct H as [|i l Hi Hl]; [done|]. intros _. simpl.
  pose proof (ring_size_nonneg _ Hl). unfold nonempty, rs_size in *. lia.
Qed.

Lemma ForallOrdPairs_lookup {A} (R : A → A → Prop) l j j' x y :
  ForallOrdPairs R l → (j < j')%nat → l !! j = Some x → l !! j' = Some y → R x y.
Proof.
  intros H. revert j j'. induction H as [|z l H0 _ IH]; intros j j' Hlt Hj Hj'; [done|].
  destruct j' as [|j']; [lia|]. simpl in Hj'. destruct j as [|j]; simpl in Hj.
  - simplify_eq. rewrite Forall_forall in H0. apply H0. by eapply list_elem_of_lookup_2.
  - eapply (IH j j'); [lia|done..].
Qed.

Lemma ring_get_inv l k q j x i :
  Forall nonempty l → 0 ≤ q → ring_get l k q = Some (j, x) → l !! (j - k)%nat = Some i →
  q = ring_size (take (j - k) l) + (x - rs_lo i).
Proof.
  intros H. revert k q. induction H as [|i0 l Hi Hl IH]; intros k q Hq; simpl; [done|].
  destruct (Z.ltb_spec q (rs_size i0)) as [Hlt|Hge].
  - intros [= <- <-]. rewrite Nat.sub_diag. intros [= ->]. simpl. lia.
  - intros E. destruct (ring_get_lookup l (S k) (q - rs_size i0) j x Hl ltac:(lia) E) as (i' & Hi' & Hk & _).
    replace (j - k)%nat with (S (j - S k)) by lia. simpl. intros Hl1.
    specialize (IH (S k) (q - rs_size i0) ltac:(lia) E Hl1). lia.
Qed.

Lemma ring_size_bound l rs :
  Forall2 range_is l rs → ring_size l ≤ Z.of_nat (length rs) * 2 ^ 128.
Proof.
  induction 1 as [|i r l0 rs0 [Hri Hlo] _ IH]; simpl ring_size; [done|].
  pose proof (ro_net _ _ _ _ _ _ Hri) as Hn. pose proof (ro_lo _ _ _ _ _ _ Hri) as H1.
  pose proof (ro_hi _ _ _ _ _ _ Hri) as H2.
  pose proof (net_ok_addr _ _ _ _ Hn H1) as [? _]. pose proof (net_ok_addr _ _ _ _ Hn H2) as [? _].
  assert (2 ^ fam_bits (rs_f i) ≤ 2 ^ 128) by (apply Z.pow_le_mono_r; [lia|apply fam_bits_le]).
  unfold rs_size. cbn [length]. rewrite Nat2Z.inj_succ. lia.
Qed.

Section iterator.
Context (l : list rspec) (rs : RangeSet) (f : family).
Hypothesis Hr : Forall2 range_is l rs.
Hypothesis Hf : Forall (λ i, rs_f i = f) l.
Hypothesis Hap : ForallOrdPairs apart l.
Hypothesis Hne : l ≠ [].

Abbreviation N := (ring_size l).

(** The address numbered [q], modulo the number of addresses. *)
Definition ring (q : Z) : option (nat * Z) := ring_get l 0 (q mod N).

Lemma all_nonempty : Forall nonempty l.
Proof using Hr.
  apply Forall_forall. intros i Hi. destruct (Forall2_elem_l _ _ _ _ Hr Hi) as (r & _ & _ & H). exact H.
Qed.

Lemma ring_pos : 0 < N.
Proof using Hr Hne. apply ring_size_pos; [apply all_nonempty|done]. Qed.

Lemma ring_total q : ∃ j x, ring q = Some (j, x).
Proof using Hr Hne.
  apply ring_get_total; [apply all_nonempty|]. apply Z.mod_pos_bound, ring_pos.
Qed.

Lemma ring_mod q : ring (q mod N) = ring q.
Proof. unfold ring. by rewrite Zmod_mod. Qed.

(** The range and the interval of a number. *)
Lemma ring_lookup q j x :
  ring q = Some (j, x) →
  ∃ i r, l !! j = Some i ∧ rs !! j = Some r ∧ range_is i r ∧ rs_f i = f ∧ rs_lo i ≤ x ≤ rs_hi i ∧
         addr_ok f x.
Proof using Hr Hf Hne.
  intros E. pose proof (Z.mod_pos_bound q N ring_pos) as Hq.
  destruct (ring_get_lookup l 0 (q mod N) j x all_nonempty ltac:(lia) E) as (i & Hi & _ & Hx).
  rewrite Nat.sub_0_r in Hi. destruct (Forall2_lookup_l _ _ _ _ _ Hr Hi) as (r & Hrj & Hri).
  exists i, r. assert (rs_f i = f) as Hfi by (by eapply Forall_lookup_1 in Hf).
  split_and!; try done; try lia. destruct Hri as [Hri _]. rewrite <- Hfi.
  pose proof (ro_lo _ _ _ _ _ _ Hri). pose proof (ro_hi _ _ _ _ _ _ Hri).
  eapply net_ok_addr; [by apply (ro_net _ _ _ _ _ _ Hri)|lia].
Qed.

(** An address is in one range only, so it has one number. *)
Lemma apart_lookup j j' i i' :
  l !! j = Some i → l !! j' = Some i' → j ≠ j' → apart i i'.
Proof using Hap.
  intros Hj Hj' Hn. destruct (decide (j < j')%nat) as [Hlt|Hge].
  - exact (ForallOrdPairs_lookup _ _ _ _ _ _ Hap Hlt Hj Hj').
  - assert (j' < j)%nat as Hlt by lia.
    destruct (ForallOrdPairs_lookup _ _ _ _ _ _ Hap Hlt Hj' Hj); [by right|by left].
Qed.

Lemma ring_inj q q' j j' x :
  0 ≤ q < N → 0 ≤ q' < N → ring q = Some (j, x) → ring q' = Some (j', x) → q = q'.
Proof using Hr Hf Hap Hne.
  intros Hq Hq' E E'. destruct (ring_lookup _ _ _ E) as (i & _ & Hi & _ & _ & _ & Hx & _).
  destruct (ring_lookup _ _ _ E') as (i' & _ & Hi' & _ & _ & _ & Hx' & _).
  destruct (decide (j = j')) as [<-|Hn].
  2: { destruct (apart_lookup _ _ _ _ Hi Hi' Hn); lia. }
  simplify_eq. unfold ring in *. rewrite Z.mod_small in E, E' by lia.
  rewrite (ring_get_inv l 0 q j x i all_nonempty ltac:(lia) E) by (by rewrite Nat.sub_0_r).
  rewrite (ring_get_inv l 0 q' j x i all_nonempty ltac:(lia) E') by (by rewrite Nat.sub_0_r). done.
Qed.

(** The move of [Next] from an address of the ring is to the next number. *)
Lemma advance_spec c j q x :
  ring q = Some (j, x) → addr_of c = Some (f, x) →
  ∃ r idx c' r' x', rs !! j = Some r ∧
    (if IP_Equal c (RangeEnd r) || is_nil (NextIP c)
     then (((j + 1) mod length rs)%nat, None) else (j, Some (NextIP c))) = (idx, c') ∧
    rs !! idx = Some r' ∧ default (RangeStart r') c' = ip_of f x' ∧ ring (q + 1) = Some (idx, x').
Proof using Hr Hf Hne.
  intros E Hc. destruct (ring_lookup _ _ _ E) as (i & r & Hi & Hrj & [Hri _] & Hfi & Hx & Hok).
  pose proof (ro_hi _ _ _ _ _ _ Hri) as Hhi. pose proof (ro_net _ _ _ _ _ _ Hri) as Hnet.
  pose proof (net_ok_addr _ _ _ _ Hnet Hhi) as Hok2.
  pose proof (Z.mod_pos_bound q N ring_pos) as Hq.
  destruct (ring_get_succ l 0 (q mod N) j x i all_nonempty ltac:(lia) E) as [H1 H2]; [by rewrite Nat.sub_0_r|].
  rewrite Nat.sub_0_r in H2.
  assert (ring (q + 1) = ring_get l 0 ((q mod N + 1) mod N)) as Hring
    by (unfold ring; by rewrite Zplus_mod_idemp_l).
  exists r. rewrite (ro_end _ _ _ _ _ _ Hri), (IP_Equal_addr _ _ _ _ _ _ Hc (addr_of_ip_of _ _ Hok2)).
  destruct (decide (x = rs_hi i)) as [Heq|Hlt].
  - rewrite bool_decide_true by done. simpl. specialize (H2 Heq).
    pose proof (Forall2_length _ _ _ Hr) as Hlen. pose proof (lookup_lt_Some _ _ _ Hi).
    destruct (l !! S j) as [i'|] eqn:Hi'.
    + destruct H2 as [Hb Hg]. destruct (Forall2_lookup_l _ _ _ _ _ Hr Hi') as (r' & Hrj' & Hri').
      pose proof (lookup_lt_Some _ _ _ Hi').
      exists (S j), None, r', (rs_lo i'). rewrite Nat.mod_small by lia. replace (j + 1)%nat with (S j) by lia.
      assert (rs_f i' = f) as Hfi' by (by eapply Forall_lookup_1 in Hf). destruct Hri' as [Hri' _].
      split_and!; try done; [simpl; rewrite (ro_start _ _ _ _ _ _ Hri'); by rewrite Hfi'|].
      rewrite Hring, Z.mod_small by lia. done.
    + apply lookup_ge_None in Hi'. replace (j + 1)%nat with (length rs) by lia. rewrite Nat.Div0.mod_same.
      destruct (lookup_lt_is_Some_2 l 0%nat) as [i0 Hi0]; [lia|].
      destruct (Forall2_lookup_l _ _ _ _ _ Hr Hi0) as (r0 & Hr0 & Hri0 & Hlo0).
      exists 0%nat, None, r0, (rs_lo i0).
      assert (rs_f i0 = f) as Hfi0 by (by eapply Forall_lookup_1 in Hf).
      split_and!; try done; [simpl; rewrite (ro_start _ _ _ _ _ _ Hri0); by rewrite Hfi0|].
      rewrite Hring, H2, Z.mod_same by (pose proof ring_pos; lia). by apply ring_get_0.
  - rewrite bool_decide_false by (intros [_ ?]; done). rewrite (NextIP_valid _ _ _ Hc).
    destruct Hok2 as [Hb2 _]. rewrite Hfi in Hb2. rewrite bool_decide_true by lia. rewrite is_nil_ip_of. simpl.
    destruct (H1 ltac:(lia)) as [Hb Hg]. exists j, (Some (ip_of f (x + 1))), r, (x + 1).
    split_and!; try done. rewrite Hring, Z.mod_small by lia. done.
Qed.

(** The iterator has visited the numbers [s], ..., [s + d] (none for [d = -1]). *)
Definition iter_state (it : RangeIter) (s d : Z) : Prop :=
  it_rangeSet it = rs ∧ 0 ≤ s < N ∧ -1 ≤ d < N ∧
  (d = -1 →
     (cur it = [] ∧ rangeIdx it = 0%nat ∧ s = 0) ∨
     (startIP it = [] ∧ ∃ x, addr_of (cur it) = Some (f, x) ∧ ring (s - 1) = Some (rangeIdx it, x))) ∧
  (0 ≤ d →
     ∃ x js xs, addr_of (cur it) = Some (f, x) ∧ ring (s + d) = Some (rangeIdx it, x) ∧
       addr_of (startIP it) = Some (f, xs) ∧ ring s = Some (js, xs)).

(** What [Next] does with the number [q]. *)
Definition visits (it' : RangeIter) (q : Z) (res : RangeIter + option (RangeIter * option (IPNet * IP))) : Prop :=
  ∃ j x r, ring q = Some (j, x) ∧ rs !! j = Some r ∧
    res = if is_gateway r (ip_of f x) then inl it'
          else inr (Some (it', Some (mkIPNet (ip_of f x) (net_Mask (Subnet r)), Gateway r))).

Lemma ring_addr q j x : ring q = Some (j, x) → addr_of (ip_of f x) = Some (f, x).
Proof using Hr Hf Hne.
  intros E. destruct (ring_lookup _ _ _ E) as (_ & _ & _ & _ & _ & _ & _ & Hok). by apply addr_of_ip_of.
Qed.

Lemma iter_state_running idx x st s d js xs :
  0 ≤ s < N → 0 ≤ d < N → ring (s + d) = Some (idx, x) → ring s = Some (js, xs) →
  addr_of st = Some (f, xs) → iter_state (mkRangeIter rs idx (ip_of f x) st) s d.
Proof using Hr Hf Hne.
  intros Hs Hd E Es Hst. unfold iter_state. simpl. split_and!; try done; try lia.
  intros _. exists x, js, xs. split_and!; try done. by eapply ring_addr.
Qed.

Lemma Next_body_spec it s d :
  iter_state it s d →
  if d + 1 =? N then ∃ it', Next_body it = inr (Some (it', None))
  else ∃ it', iter_state it' s (d + 1) ∧ visits it' (s + d + 1) (Next_body it).
Proof using Hr Hf Hap Hne.
  intros (Hset & Hs & Hd & Hfresh & Hrun). pose proof ring_pos as HN. unfold Next_body. rewrite Hset.
  destruct (decide (d = -1)) as [->|Hd0].
  - rewrite (proj2 (Z.eqb_neq _ _)) by lia. replace (s + -1 + 1) with s by lia. change (-1 + 1) with 0.
    destruct (Hfresh eq_refl) as [(Hc & Hi & ->)|(Hst & x & Hx & E)].
    + rewrite Hc, Hi. destruct (ring_total 0) as (j & x & E). unfold ring in E. rewrite Z.mod_0_l in E by lia.
      destruct (lookup_lt_is_Some_2 l 0%nat) as [i0 Hi0]; [by destruct l; [|simpl; lia]|].
      destruct (Forall2_lookup_l _ _ _ _ _ Hr Hi0) as (r0 & Hr0 & Hri0 & Hlo0).
      rewrite (ring_get_0 _ _ Hi0 Hlo0) in E. simplify_eq. rewrite Hr0. simpl.
      assert (rs_f i0 = f) as Hfi0 by (by eapply Forall_lookup_1 in Hf).
      assert (ring 0 = Some (0%nat, rs_lo i0)) as E0
        by (unfold ring; rewrite Z.mod_0_l by lia; by apply ring_get_0).
      rewrite (ro_start _ _ _ _ _ _ Hri0), Hfi0. eexists. split; [|exists 0%nat, (rs_lo i0), r0; done].
      eapply iter_state_running; [done|lia|done..|]. by eapply ring_addr.
    + destruct (advance_spec _ _ _ _ E Hx) as (r & idx & c' & r' & x' & H1 & H2 & H3 & H4 & H5).
      rewrite H1, (is_nil_valid _ _ _ Hx), H2, H3, Hst, H4. simpl.
      replace (s - 1 + 1) with s in H5 by lia. eexists. split; [|exists idx, x', r'; done].
      eapply iter_state_running; [done|lia| |done|]; [by rewrite Z.add_0_r|by eapply ring_addr].
  - destruct (Hrun ltac:(lia)) as (x & js & xs & Hx & E & Hst & Es).
    destruct (advance_spec _ _ _ _ E Hx) as (r & idx & c' & r' & x' & H1 & H2 & H3 & H4 & H5).
    rewrite H1, (is_nil_valid _ _ _ Hx), H2, H3, H4, (is_nil_valid _ _ _ Hst).
    rewrite (IP_Equal_addr _ _ _ _ _ _ (ring_addr _ _ _ H5) Hst).
    destruct (Z.eqb_spec (d + 1) N) as [Hlast|Hmore].
    + replace (s + d + 1) with (s + N) in H5 by lia.
      assert (ring (s + N) = ring s) as Ew by (unfold ring; replace (s + N) with (s + 1 * N) by lia; by rewrite Z_mod_plus_full).
      rewrite Ew, Es in H5. simplify_eq. rewrite bool_decide_true by done. eauto.
    + assert (x' ≠ xs) as Hne'.
      { intros ->. rewrite <- ring_mod in H5. pose proof (Z.mod_pos_bound (s + d + 1) N HN).
        pose proof (ring_inj _ _ _ _ _ ltac:(done) Hs H5 Es) as Eq.
        pose proof (Z.div_mod (s + d + 1) N ltac:(lia)) as Hdm. rewrite Eq in Hdm.
        destruct (Z.le_gt_cases ((s + d + 1) / N) 0); nia. }
      rewrite bool_decide_false by tauto. simpl. eexists. split; [|exists idx, x', r'; done].
      eapply iter_state_running; [done|lia| |done..]. by replace (s + (d + 1)) with (s + d + 1) by lia.
Qed.

Definition gw_at (q : Z) : bool :=
  match ring q with
  | Some (j, x) => match rs !! j with Some r => is_gateway r (ip_of f x) | None => false end
  | None => false
  end.

(** [Next] gives the next number whose address is not the gateway. *)
Lemma Next_spec it s d :
  iter_state it s d →
  (∃ it', RangeIter_Next it = Some (it', None) ∧ ∀ e, d < e < N → gw_at (s + e) = true) ∨
  (∃ it' d' j x r, d < d' < N ∧ iter_state it' s d' ∧ ring (s + d') = Some (j, x) ∧ rs !! j = Some r ∧
     RangeIter_Next it = Some (it', Some (mkIPNet (ip_of f x) (net_Mask (Subnet r)), Gateway r)) ∧
     gw_at (s + d') = false ∧ ∀ e, d < e < d' → gw_at (s + e) = true).
Proof using Hr Hf Hap Hne.
  intros Hst. pose proof Hst as (Hset & Hs & Hd & _). unfold RangeIter_Next. rewrite Hset.
  assert (∃ res, loop Next_body (iter_fuel rs) it = inr res) as [res Hres].
  { eapply (loop_total_rel _ (λ it n, ∃ d, iter_state it s d ∧ n = N - d)) with (n := N - d).
    - intros it1 n it2 (d1 & H1 & ->) E. pose proof (Next_body_spec _ _ _ H1) as HN.
      destruct (d1 + 1 =? N); [destruct HN as [? E2]; rewrite E in E2; done|].
      destruct HN as (it' & Hst' & j & x & r & _ & _ & E2). rewrite E in E2.
      destruct (is_gateway _ _); [|done]. injection E2 as <-. exists (N - (d1 + 1)).
      pose proof Hst' as (_ & _ & ? & _). split; [by exists (d1 + 1)|lia].
    - eauto.
    - unfold iter_fuel. pose proof (ring_size_bound _ _ Hr). rewrite Z2Pos.id by lia. lia. }
  rewrite Hres. apply loop_exits in Hres.
  cut (∀ it res, exits Next_body it res → ∀ d0, d ≤ d0 → iter_state it s d0 →
    (∀ e, d < e ≤ d0 → gw_at (s + e) = true) →
    (∃ it', res = Some (it', None) ∧ ∀ e, d < e < N → gw_at (s + e) = true) ∨
    (∃ it' d' j x r, d < d' < N ∧ iter_state it' s d' ∧ ring (s + d') = Some (j, x) ∧ rs !! j = Some r ∧
       res = Some (it', Some (mkIPNet (ip_of f x) (net_Mask (Subnet r)), Gateway r)) ∧
       gw_at (s + d') = false ∧ ∀ e, d < e < d' → gw_at (s + e) = true)).
  { intros Hcut. apply (Hcut _ _ Hres d); [lia|done|]. intros e He. lia. }
  clear it Hst Hset res Hres. induction 1 as [it res E|it it1 res E _ IH]; intros d0 Hd0 Hst Hgw;
    pose proof Hst as (_ & _ & Hb & _); pose proof (Next_body_spec _ _ _ Hst) as HN;
    destruct (Z.eqb_spec (d0 + 1) N) as [Hlast|Hmore].
  - destruct HN as [it' E']. rewrite E' in E. simplify_eq. left. eexists. split; [done|].
    intros e He. apply Hgw. lia.
  - destruct HN as (it' & Hst' & j & x & r & Hx & Hrj & E'). rewrite E' in E. right.
    destruct (is_gateway r (ip_of f x)) eqn:Hg; [done|]. injection E as <-.
    replace (s + d0 + 1) with (s + (d0 + 1)) in Hx by lia.
    exists it', (d0 + 1), j, x, r. split_and!; try done; try lia.
    + unfold gw_at. by rewrite Hx, Hrj.
    + intros e He. apply Hgw. lia.
  - destruct HN as [it' E']. by rewrite E' in E.
  - destruct HN as (it' & Hst' & j & x & r & Hx & Hrj & E'). rewrite E' in E.
    destruct (is_gateway r (ip_of f x)) eqn:Hg; [|done]. injection E as <-.
    apply (IH (d0 + 1)); [lia|done|]. intros e He.
    destruct (decide (e = d0 + 1)) as [->|]; [|apply Hgw; lia].
    replace (s + (d0 + 1)) with (s + d0 + 1) by lia. unfold gw_at. by rewrite Hx, Hrj.
Qed.

(** ** The start of the walk *)

Section walk.
Context {S : Type} `{HS : SessionLaws S} (a : allocator (S := S)).
Hypothesis Ha : rangeSet a = rs.
Hypothesis Hopen : s_open (a_session a).

(** Where the walk starts: after the last reserved address when the ranges have it, at the
    first address of the first range when they do not. *)
Definition starts (s : Z) : Prop :=
  0 ≤ s < N ∧ ∃ last, s_GetLastReservedIP (a_session a) (poolKey a) = Some last ∧
    ((∃ q j y, addr_of last = Some (f, y) ∧ 0 ≤ q < N ∧ ring q = Some (j, y) ∧ s = (q + 1) mod N) ∨
     ((∀ q j y, addr_of last = Some (f, y) → 0 ≤ q < N → ring q ≠ Some (j, y)) ∧ s = 0)).

Lemma last_in_ranges last :
  RangeSet_Contains rs last = true →
  ∃ j r y q, list_find (λ r, Range_Contains r last = true) rs = Some (j, r) ∧
    addr_of last = Some (f, y) ∧ 0 ≤ q < N ∧ ring q = Some (j, y).
Proof using Hr Hf.
  intros Hc. destruct (addr_of last) as [[g y]|] eqn:Hl.
  2: { destruct (proj1 (RangeSet_Contains_spec _ _ _ Hr) Hc) as (? & ? & _ & E & _). congruence. }
  rewrite (RangeFor_find _ _ _ _ Hl), existsb_exists in Hc. destruct Hc as (r0 & Hr0 & Hc0).
  destruct (list_find_elem_of (λ r, Range_Contains r last = true) rs r0) as [[j r] Ej]; [by apply list_elem_of_In|done|].
  apply list_find_Some in Ej as Ej'. destruct Ej' as (Hj & Hcr & _).
  destruct (Forall2_lookup_r _ _ _ _ _ Hr Hj) as (i & Hi & Hri).
  assert (rs_f i = f) as Hfi by (by eapply Forall_lookup_1 in Hf).
  destruct (proj1 (Range_Contains_spec _ _ _ _ _ _ _ (proj1 Hri)) Hcr) as (y' & Ey & Hy).
  rewrite Hl, Hfi in Ey. injection Ey as -> ->.
  destruct (ring_get_index l 0 j i y' all_nonempty Hi Hy) as (q & Hq & E).
  exists j, r, y', q. split_and!; try done; try lia. unfold ring. by rewrite Z.mod_small.
Qed.

Lemma getIter_spec : ∃ it s, getIter a = Some it ∧ iter_state it s (-1) ∧ starts s.
Proof using Hr Hf Hap Hne HS Ha Hopen.
  pose proof ring_pos as HN. destruct (s_Last_open (a_session a) (poolKey a) Hopen) as [last El].
  unfold getIter. rewrite El, Ha. cbn [mbind option_bind].
  destruct (if is_nil last then false else RangeSet_Contains rs last) eqn:Hc.
  - destruct (is_nil last); [done|]. destruct (last_in_ranges _ Hc) as (j & r & y & q & -> & Hy & Hq & E).
    eexists _, ((q + 1) mod N). split; [done|]. pose proof (Z.mod_pos_bound (q + 1) N HN).
    split; [|split; [done|]; exists last; split; [done|]; left; by exists q, j, y].
    unfold iter_state. simpl. split_and!; try done; try lia. intros _. right. split; [done|].
      exists y. split; [done|]. unfold ring in *. rewrite Zminus_mod_idemp_l. by replace (q + 1 - 1) with q by lia.
  - destruct (lookup_lt_is_Some_2 l 0%nat) as [i0 Hi0]; [by destruct l; [|simpl; lia]|].
    destruct (Forall2_lookup_l _ _ _ _ _ Hr Hi0) as (r0 & Hr0 & _). rewrite Hr0. simpl.
    eexists _, 0. split; [done|]. split; [|split; [lia|]; exists last; split; [done|]; right; split; [|done]].
    + unfold iter_state. simpl. split_and!; try done; try lia. intros _. by left.
    + intros q j y Hy Hq E.
      assert (RangeSet_Contains rs last = true) as Hin.
      { apply (RangeSet_Contains_spec _ _ _ Hr). destruct (ring_lookup _ _ _ E) as (i & _ & Hi & _ & _ & Hfi & Hx & _).
        exists i, y. rewrite Hfi. split_and!; try done; try lia. by eapply list_elem_of_lookup_2. }
      rewrite (is_nil_valid _ _ _ Hy) in Hc. congruence.
Qed.

(** ** The walk *)

Context (id ifName : string) (meta : ReservationMetadata).

(** The address numbered [q] can be handed out. *)
Definition free_at (q : Z) : Prop :=
  gw_at q = false ∧
  ∃ j x, ring q = Some (j, x) ∧ excluded a (ip_of f x) = false ∧
    s_taken (a_session a) (poolKey a) (ip_of f x) = false.

(** The walk goes past the address numbered [q]. *)
Definition passed (q : Z) : Prop :=
  gw_at q = true ∨
  ∃ j x, ring q = Some (j, x) ∧
    (excluded a (ip_of f x) = true ∨
     (¬ s_has (a_session a) (poolKey a) id ifName ∧ s_taken (a_session a) (poolKey a) (ip_of f x) = true)).

Lemma passed_not_free q : passed q → ¬ free_at q.
Proof. intros [?|(j & x & E & Hb)] [? (j' & x' & E' & ? & ?)]; [congruence|]. rewrite E in E'. simplify_eq. naive_solver congruence. Qed.

Definition outcome (s : Z) (res : option (S * result alloc_error IPConfig)) : Prop :=
  (res = Some (a_session a, Err ErrNoFreeAddresses) ∧ ∀ e, 0 ≤ e < N → passed (s + e)) ∨
  ∃ d j x r, 0 ≤ d < N ∧ ring (s + d) = Some (j, x) ∧ rs !! j = Some r ∧
    (∀ e, 0 ≤ e < d → passed (s + e)) ∧ gw_at (s + d) = false ∧ excluded a (ip_of f x) = false ∧
    ((s_has (a_session a) (poolKey a) id ifName ∧
      res = Some (a_session a, Err (ErrReserve ErrReservationAlreadyExist))) ∨
     (¬ s_has (a_session a) (poolKey a) id ifName ∧
      s_taken (a_session a) (poolKey a) (ip_of f x) = false ∧
      ∃ s', s_Reserve (a_session a) (poolKey a) id ifName meta (ip_of f x) = Some (s', None) ∧
        res = Some (s', Ok (mkIPConfig (mkIPNet (ip_of f x) (net_Mask (Subnet r))) (Gateway r))))).

(** One turn of the loop. *)
Lemma Allocate_body_spec it s d :
  iter_state it s d → (∀ e, 0 ≤ e ≤ d → passed (s + e)) →
  match Allocate_body a id ifName meta (it, a_session a) with
  | inl (it', session) =>
      session = a_session a ∧ ∃ d', d < d' < N ∧ iter_state it' s d' ∧ ∀ e, 0 ≤ e ≤ d' → passed (s + e)
  | inr res => outcome s res
  end.
Proof using Hr Hf Hap Hne HS Hopen.
  intros Hst Hp. pose proof Hst as (_ & Hs & Hd & _). unfold Allocate_body.
  destruct (Next_spec _ _ _ Hst) as [(it' & -> & Hgw)|(it' & d' & j & x & r & Hd' & Hst' & E & Hrj & -> & Hg & Hgw)].
  { left. split; [done|]. intros e He. destruct (decide (e ≤ d)); [apply Hp; lia|]. left. apply Hgw. lia. }
  assert (∀ e, 0 ≤ e < d' → passed (s + e)) as Hp'.
  { intros e He. destruct (decide (e ≤ d)); [apply Hp; lia|]. left. apply Hgw. lia. }
  assert (passed (s + d') → ∀ e, 0 ≤ e ≤ d' → passed (s + e)) as Hp2.
  { intros Hd2 e He. destruct (decide (e = d')) as [->|]; [done|]. apply Hp'. lia. }
  simpl net_IP. destruct (excluded a (ip_of f x)) eqn:Hex.
  { split; [done|]. exists d'. split_and!; try done; try lia. apply Hp2. right. exists j, x. eauto. }
  destruct (s_Reserve_exact (a_session a) (poolKey a) id ifName meta (ip_of f x) Hopen)
    as (s' & e & Er & He1 & He2 & He3 & _). rewrite Er.
  destruct e as [[]|].
  - rewrite (He3 ltac:(done)). right. exists d', j, x, r. split_and!; try done; try lia. left.
    split; [by apply He1|done].
  - rewrite (He3 ltac:(done)). split; [done|]. exists d'. split_and!; try done; try lia. apply Hp2. right. exists j, x.
    split; [done|]. right. by apply He2.
  - right. exists d', j, x, r. split_and!; try done; try lia. right.
    assert (¬ s_has (a_session a) (poolKey a) id ifName) as Hno by (intros ?%He1; done). split_and!; [done| |eauto].
    destruct (s_taken _ _ _) eqn:Et; [|done]. assert (None = Some ErrIPAlreadyReserved) by (by apply He2). done.
Qed.

Lemma Allocate_spec : ∃ s, starts s ∧ outcome s (Allocate a id ifName meta []).
Proof using Hr Hf Hap Hne HS Ha Hopen.
  destruct getIter_spec as (it & s & Hit & Hst & Hs). exists s. split; [done|].
  unfold Allocate. cbn [is_nil negb bool_decide decide_rel]. rewrite Hit. cbn [mbind option_bind]. rewrite Ha.
  set (I := λ (x : RangeIter * S) (n : Z), x.2 = a_session a ∧
    ∃ d, iter_state x.1 s d ∧ (∀ e, 0 ≤ e ≤ d → passed (s + e)) ∧ n = N - d).
  assert (∀ x n y, I x n → Allocate_body a id ifName meta x = inl y → ∃ n', I y n' ∧ 0 ≤ n' < n) as Hstep.
  { intros [it1 s1] n [it2 s2] (Es & d & H1 & Hp & ->) E. simpl in Es. subst s1. simpl in H1.
    pose proof (Allocate_body_spec _ _ _ H1 Hp) as HB. rewrite E in HB. destruct HB as (-> & d' & Hd' & H2 & Hp').
    exists (N - d'). pose proof H1 as (_ & _ & ? & _). split; [|lia]. split; [done|]. by exists d'. }
  assert (I (it, a_session a) (N + 1)) as HI0.
  { split; [done|]. exists (-1). split_and!; [done| |lia]. intros e He. lia. }
  destruct (loop_total_rel _ I Hstep (iter_fuel rs) (it, a_session a) (N + 1) HI0) as [res Hres].
  { unfold iter_fuel. pose proof (ring_size_bound _ _ Hr). pose proof ring_pos. rewrite Z2Pos.id by lia. lia. }
  rewrite Hres. apply loop_exits in Hres.
  apply (exits_inv (Allocate_body a id ifName meta) (λ x, ∃ n, I x n) (outcome s) (it, a_session a)); [| |by eexists|done].
  - intros x y (n & Hx) E. destruct (Hstep _ _ _ Hx E) as (n' & ? & _). eauto.
  - intros [it1 s1] res' (n & Es & d & H1 & Hp & _) E. cbn [fst snd] in Es, H1. subst s1.
    pose proof (Allocate_body_spec _ _ _ H1 Hp) as HB. by rewrite E in HB.
Qed.
End walk.
End iterator.

(** ** Properties *)

(** Ranges in their standard form: nonempty intervals of one family, disjoint. *)
Record canonical_set (l : list rspec) (rs : RangeSet) (f : family) : Prop := {
  cs_ranges : Forall2 range_is l rs;
  cs_family : Forall (λ i, rs_f i = f) l;
  cs_apart : ForallOrdPairs apart l;
  cs_nonempty : l ≠ [];
}.

Lemma find_first {A} (P : A → bool) l x :
  List.find P l = Some x →
  ∃ j, l !! j = Some x ∧ P x = true ∧ ∀ j' y, (j' < j)%nat → l !! j' = Some y → P y = false.
Proof.
  induction l as [|y l IH]; simpl; [done|]. destruct (P y) eqn:E.
  - intros [= <-]. exists 0%nat. split_and!; try done. intros; lia.
  - intros Hx. destruct (IH Hx) as (j & Hj & Hp & Hf). exists (S j). split_and!; try done.
    intros [|j'] z Hlt Hz; simpl in Hz; [by simplify_eq|]. eapply (Hf j'); [lia|done].
Qed.

Lemma ring_shift l rs f s q :
  canonical_set l rs f → 0 ≤ s < ring_size l → ∃ e, 0 ≤ e < ring_size l ∧ ring l (s + e) = ring l q.
Proof.
  intros [Hr Hf Ha Hne] Hs. pose proof (ring_pos _ _ Hr Hne) as HN.
  exists ((q - s) mod ring_size l). split; [by apply Z.mod_pos_bound|].
  unfold ring. rewrite Zplus_mod_idemp_r. by replace (s + (q - s)) with q by lia.
Qed.

(** C11: [Allocate] without a requested address, on ranges in standard form and
    an open session, always returns.  It hands out the first free address of the
    ranges in the round-robin order that starts after the last reserved address, or at
    the first address of the first range when no address of the ranges was reserved last
    (free: not the gateway of its range, not excluded, not reserved in the
    pool), reserves it in the session, and returns it with the mask and the
    gateway of its range; it reports that there is no free address only when no
    address is free, and an existing reservation only when the pool has one for
    the interface, and leaves the session as it was then. *)
Theorem allocate_first_free {S} `{SessionLaws S} l rs f (a : allocator (S := S)) id ifName meta :
  canonical_set l rs f → rangeSet a = rs → s_open (a_session a) →
  ∃ s, starts l f a s ∧
    match Allocate a id ifName meta [] with
    | Some (s', Ok c) =>
        ∃ d j x r, 0 ≤ d < ring_size l ∧ ring l (s + d) = Some (j, x) ∧ rs !! j = Some r ∧
          c = mkIPConfig (mkIPNet (ip_of f x) (net_Mask (Subnet r))) (Gateway r) ∧
          free_at l rs f a (s + d) ∧ (∀ e, 0 ≤ e < d → ¬ free_at l rs f a (s + e)) ∧
          s_open s' ∧ s_has s' (poolKey a) id ifName ∧ s_GetLastReservedIP s' (poolKey a) = Some (ip_of f x) ∧
          ∀ pk b, s_taken s' pk b =
            s_taken (a_session a) pk b || (bool_decide (pk = poolKey a) && IP_Equal b (ip_of f x))
    | Some (s', Err ErrNoFreeAddresses) => s' = a_session a ∧ ∀ q, ¬ free_at l rs f a q
    | Some (s', Err (ErrReserve ErrReservationAlreadyExist)) =>
        s' = a_session a ∧ s_has (a_session a) (poolKey a) id ifName
    | _ => False
    end.
Proof.
  intros Hcs Ha Ho. pose proof Hcs as [Hr Hf Hap Hne].
  destruct (Allocate_spec l rs f Hr Hf Hap Hne a Ha Ho id ifName meta) as (s & Hs & Hout). exists s. split; [done|].
  destruct Hout as [[-> Hp]|(d & j & x & r & Hd & E & Hrj & Hp & Hg & Hex & [[Hh ->]|(Hh & Ht & s' & Er & ->)])].
  - split; [done|]. intros q Hq. destruct (ring_shift _ _ _ s q Hcs (proj1 Hs)) as (e & He & Eq).
    apply (passed_not_free l rs f a id ifName (s + e)); [by apply Hp|].
    unfold free_at, gw_at in *. by rewrite Eq.
  - done.
  - destruct (s_Reserve_exact (a_session a) (poolKey a) id ifName meta (ip_of f x) Ho) as (s1 & e & Er1 & _ & _ & _ & Hn).
    rewrite Er in Er1. simplify_eq. destruct (Hn eq_refl) as (Ho' & Hh' & Hl' & Ht').
    exists d, j, x, r. split_and!; try done; try lia.
    + split; [done|]. by exists j, x.
    + intros e He. eapply passed_not_free. by apply Hp.
Qed.

(** C32: [Allocate] with a requested address: it is refused when no range has it
    in its subnet, and with the error of the session when that refuses it;
    otherwise exactly this address is reserved, with the mask and the gateway of
    the first range whose subnet has it, and the round-robin position is kept. *)
Theorem allocate_static_exact {S} `{SessionLaws S} (a : allocator (S := S)) id ifName meta ip :
  ip ≠ [] → s_open (a_session a) →
  match Allocate a id ifName meta ip with
  | Some (s', Ok c) =>
      ∃ r j, rangeSet a !! j = Some r ∧ Contains (Subnet r) ip = true ∧
        (∀ j' r', (j' < j)%nat → rangeSet a !! j' = Some r' → Contains (Subnet r') ip = false) ∧
        c = mkIPConfig (mkIPNet ip (net_Mask (Subnet r))) (Gateway r) ∧
        ¬ s_has (a_session a) (poolKey a) id ifName ∧ s_taken (a_session a) (poolKey a) ip = false ∧
        s_open s' ∧ s_has s' (poolKey a) id ifName ∧ s_taken s' (poolKey a) ip = true ∧
        s_GetLastReservedIP s' (poolKey a) = s_GetLastReservedIP (a_session a) (poolKey a)
  | Some (s', Err (ErrStaticIP ip' e)) =>
      s' = a_session a ∧ ip' = ip ∧ (∃ r, r ∈ rangeSet a ∧ Contains (Subnet r) ip = true) ∧
      (e = ErrReservationAlreadyExist ↔ s_has (a_session a) (poolKey a) id ifName) ∧
      (e = ErrIPAlreadyReserved →
         ¬ s_has (a_session a) (poolKey a) id ifName ∧ s_taken (a_session a) (poolKey a) ip = true)
  | Some (s', Err (ErrNoRangeForStaticIP ip')) =>
      s' = a_session a ∧ ip' = ip ∧ ∀ r, r ∈ rangeSet a → Contains (Subnet r) ip = false
  | _ => False
  end.
Proof.
  intros Hip Ho. unfold Allocate. rewrite (bool_decide_false (ip = []) Hip : is_nil ip = false). cbn [negb].
  unfold allocateStaticIP. destruct (List.find _ _) as [r|] eqn:Hfind.
  2: { split_and!; try done. intros r Hr. apply (find_none _ _ Hfind). by apply list_elem_of_In. }
  destruct (find_first _ _ _ Hfind) as (j & Hj & Hc & Hfirst).
  destruct (s_Last_open (a_session a) (poolKey a) Ho) as [last El]. rewrite El. cbn [mbind option_bind].
  destruct (s_Reserve_exact (a_session a) (poolKey a) id ifName meta ip Ho)
    as (s1 & e & Er & He1 & He2 & He3 & He4). rewrite Er. cbn [mbind option_bind].
  destruct e as [e|].
  - rewrite (He3 ltac:(done)). split_and!; try done.
    + exists r. split; [by eapply list_elem_of_lookup_2|done].
    + rewrite <- He1. split; [by intros ->|by intros [=]].
    + intros ->. by apply He2.
  - destruct (He4 eq_refl) as (Ho1 & Hh1 & Hl1 & Ht1).
    destruct (s_SetLast_open s1 (poolKey a) last Ho1) as (s2 & -> & Ho2 & Hl2 & Hh2 & Ht2). cbn [mbind option_bind].
    exists r, j. split_and!; try done.
    + intros Hh%He1. done.
    + destruct (s_taken (a_session a) (poolKey a) ip) eqn:Et; [|done].
      assert (¬ s_has (a_session a) (poolKey a) id ifName) by (intros Hh%He1; done).
      assert (None = Some ErrIPAlreadyReserved) by (by apply He2). done.
    + by apply Hh2.
    + rewrite Ht2, Ht1, bool_decide_true, IP_Equal_refl by done. apply orb_true_r.
Qed.

(** *** Witnesses *)

Definition canon_range (lo hi : Z) (gw : IP) : Range :=
  mkRange (ip_of F4 (example_v4 lo)) (ip_of F4 (example_v4 hi)) (net_of F4 (example_v4 0) 24) gw.

Lemma canon_range_is lo hi gw :
  0 ≤ lo → lo ≤ hi → hi < 256 → gw = [] ∨ (∃ g y, addr_ok g y ∧ gw = ip_of g y) →
  range_is (example_rspec lo hi) (canon_range lo hi gw).
Proof.
  intros. split; [|simpl; unfold example_v4; lia]. split; simpl; try done; unfold net_size, example_v4; simpl; try lia.
Qed.

Definition example_set : RangeSet := [canon_range 2 9 (ip_of F4 (example_v4 2)); canon_range 20 21 []].
Definition example_allocator : allocator (S := session) :=
  mkAllocator example_set example_session "pool" (Some [canon_range 7 8 []]).

Lemma example_set_canonical : canonical_set [example_rspec 2 9; example_rspec 20 21] example_set F4.
Proof.
  split.
  - constructor; [apply canon_range_is; try lia; right; exists F4, (example_v4 2); repeat split; vm_compute; congruence|].
    constructor; [apply canon_range_is; try lia; by left|constructor].
  - by repeat constructor.
  - repeat constructor.
  - done.
Qed.

(** After [.6], the walk passes the exclusions [.7] and [.8]. *)
Lemma allocate_first_free_witness :
  ∃ s' c, Allocate (H := session_ops (at_ns 9)) example_allocator "c9" "net1" example_meta [] = Some (s', Ok c) ∧
    Address c = mkIPNet (ip_of F4 (example_v4 9)) (mask_loop 4 24) ∧
    session_taken s' "pool" (ip_of F4 (example_v4 9)) = true.
Proof.
  destruct (allocate_first_free (H := session_ops (at_ns 9)) (H0 := session_view) (H1 := session_laws (at_ns 9)) [example_rspec 2 9; example_rspec 20 21] example_set F4
    example_allocator "c9" "net1" example_meta example_set_canonical eq_refl ltac:(vm_compute; reflexivity)) as (s & Hs & HA).
  destruct (Allocate (H := session_ops (at_ns 9)) example_allocator "c9" "net1" example_meta []) as [[s' [c|e]]|] eqn:E.
  - exists s', c. split; [reflexivity|]. vm_compute in E. injection E as <- <-. split; vm_compute; reflexivity.
  - vm_compute in E. discriminate.
  - destruct HA.
Defined.

Lemma allocate_static_exact_witness :
  ∃ s' c, Allocate (H := session_ops (at_ns 9)) example_allocator "c9" "net1" example_meta (ip_of F4 (example_v4 77)) =
            Some (s', Ok c) ∧
    GetLastReservedIP s' "pool" = GetLastReservedIP example_session "pool".
Proof.
  pose proof (allocate_static_exact (H := session_ops (at_ns 9)) (H0 := session_view) (H1 := session_laws (at_ns 9)) example_allocator "c9" "net1" example_meta
    (ip_of F4 (example_v4 77)) ltac:(discriminate) ltac:(vm_compute; reflexivity)) as HA.
  destruct (Allocate (H := session_ops (at_ns 9)) example_allocator "c9" "net1" example_meta (ip_of F4 (example_v4 77)))
    as [[s' [c|e]]|] eqn:E.
  - exists s', c. split; [reflexivity|]. destruct HA as (r & j & _ & _ & _ & _ & _ & _ & _ & _ & _ & HL). exact HL.
  - vm_compute in E. discriminate.
  - destruct HA.
Defined.
