(* ===== verification/PoolManager.v ===== *)
(** * The node's pool configurations: [pkg/pool/manager.go], [pkg/common]

    The controllers of the node write the configuration of each pool under its
    key, the handlers and the cleaner read it.  The manager is a map under a
    lock: every operation is one step.  [GetPools] hands out the map itself. *)

From S2P Require Import Prelude GoNet Cidr GoNetText Json JsonText.

(** ** Keys ([pkg/common]) *)

Definition PoolTypeIPPool : string := "ippool".
Definition PoolTypeCIDRPool : string := "cidrpool".

Definition GetPoolKey (poolName poolType : string) : string :=
  if bool_decide (poolType = "") || bool_decide (poolType = PoolTypeIPPool) then poolName
  else poolType +:+ "/" +:+ poolName.

(** ** Pools *)

Record ExclusionRange := mkExclusionRange { xr_StartIP : string; xr_EndIP : string }.

Record Pool := mkPool {
  p_Name : string;
  p_Subnet : string;
  p_StartIP : string;
  p_EndIP : string;
  p_Gateway : string;
  p_Exclusions : list ExclusionRange;
  p_Routes : list string;
  p_DefaultGateway : bool;
}.

Definition manager := gmap string Pool.

Definition NewManager : manager := ∅.
Definition UpdatePool (m : manager) (key : string) (pool : Pool) : manager := <[key := pool]> m.
Definition RemovePool (m : manager) (key : string) : manager := delete key m.
Definition GetPoolByKey (m : manager) (key : string) : option Pool := m !! key.
Definition GetPools (m : manager) : gmap string Pool := m.

(** ** Lemmas *)

Lemma GetPoolByKey_UpdatePool m k p : GetPoolByKey (UpdatePool m k p) k = Some p.
Proof. apply lookup_insert_eq. Qed.
Lemma GetPoolByKey_UpdatePool_ne m k p k' : k' ≠ k → GetPoolByKey (UpdatePool m k p) k' = GetPoolByKey m k'.
Proof. intros. by apply lookup_insert_ne. Qed.
Lemma GetPoolByKey_RemovePool m k : GetPoolByKey (RemovePool m k) k = None.
Proof. apply lookup_delete_eq. Qed.
Lemma GetPoolByKey_RemovePool_ne m k k' : k' ≠ k → GetPoolByKey (RemovePool m k) k' = GetPoolByKey m k'.
Proof. intros. by apply lookup_delete_ne. Qed.

Definition has_slash (s : string) : bool := str_has slash s.

Lemma has_slash_app a b : has_slash (a +:+ b) = has_slash a || has_slash b.
Proof. apply str_has_app. Qed.

(** A Kubernetes name has no ["/"], so the keys of the two kinds of pools never
    meet. *)
Lemma GetPoolKey_inj n n' t t' :
  has_slash n = false → has_slash n' = false →
  t ∈ [PoolTypeIPPool; PoolTypeCIDRPool] → t' ∈ [PoolTypeIPPool; PoolTypeCIDRPool] →
  GetPoolKey n t = GetPoolKey n' t' → n = n' ∧ t = t'.
Proof.
  intros Hn Hn' Ht Ht'. assert (t = PoolTypeIPPool ∨ t = PoolTypeCIDRPool) as [-> | ->] by set_solver;
    assert (t' = PoolTypeIPPool ∨ t' = PoolTypeCIDRPool) as [-> | ->] by set_solver; unfold GetPoolKey.
  - done.
  - intros E. change (n = PoolTypeCIDRPool +:+ "/" +:+ n') in E. rewrite E, !has_slash_app in Hn. done.
  - intros E. change (PoolTypeCIDRPool +:+ "/" +:+ n = n') in E. rewrite <- E, !has_slash_app in Hn'. done.
  - intros E. change (PoolTypeCIDRPool +:+ ("/" +:+ n) = PoolTypeCIDRPool +:+ ("/" +:+ n')) in E.
    apply (inj (String.append _)) in E. by apply (inj (String.append "/")) in E.
Qed.

(** ** The text of a pool

    [Pool.String] is the JSON text that is stored with every allocation; the name is
    not part of it.  A [nil] slice is written as [null]: whether a slice is [nil] is
    not part of [Pool], so it is an argument. *)

Definition slice_json {A} (isNil : bool) (f : A → json) (l : list A) : json :=
  if isNil && bool_decide (length l = 0%nat) then JNull else JArr (map f l).

Definition exclusion_json (r : ExclusionRange) : json :=
  JObj [("startIP", JStr (xr_StartIP r)); ("endIP", JStr (xr_EndIP r))].

Definition pool_json (nilExclusions nilRoutes : bool) (p : Pool) : json :=
  JObj [("subnet", JStr (p_Subnet p)); ("startIP", JStr (p_StartIP p)); ("endIP", JStr (p_EndIP p));
        ("gateway", JStr (p_Gateway p)); ("exclusions", slice_json nilExclusions exclusion_json (p_Exclusions p));
        ("routes", slice_json nilRoutes (λ dst, JObj [("dst", JStr dst)]) (p_Routes p));
        ("defaultGateway", JBool (p_DefaultGateway p))].

Definition Pool_String (nilExclusions nilRoutes : bool) (p : Pool) : string :=
  print_json (pool_json nilExclusions nilRoutes p).

Example Pool_String_example :
  Pool_String false false (mkPool "p" "192.168.0.0/16" "192.168.0.1" "192.168.0.2" "" [mkExclusionRange "a" "b"] [] true) =
  "{" +:+ quoted "subnet" +:+ ":" +:+ quoted "192.168.0.0/16" +:+ "," +:+ quoted "startIP" +:+ ":" +:+ quoted "192.168.0.1" +:+ "," +:+
  quoted "endIP" +:+ ":" +:+ quoted "192.168.0.2" +:+ "," +:+ quoted "gateway" +:+ ":" +:+ quoted "" +:+ "," +:+
  quoted "exclusions" +:+ ":[{" +:+ quoted "startIP" +:+ ":" +:+ quoted "a" +:+ "," +:+ quoted "endIP" +:+ ":" +:+ quoted "b" +:+ "}]," +:+
  quoted "routes" +:+ ":[]," +:+ quoted "defaultGateway" +:+ ":true}".
Proof. vm_compute. reflexivity. Qed.

(** The strings are UTF-8. *)
Definition pool_utf8 (p : Pool) : bool :=
  forallb utf8_valid ([p_Subnet p; p_StartIP p; p_EndIP p; p_Gateway p] ++ map xr_StartIP (p_Exclusions p) ++
    map xr_EndIP (p_Exclusions p) ++ p_Routes p).

Lemma slice_json_ok {A} (f : A → json) isNil l : (∀ x, x ∈ l → json_ok (f x) = true) → json_ok (slice_json isNil f l) = true.
Proof.
  intros Hl. unfold slice_json. destruct (_ && _); [done|]. simpl. apply forallb_forall.
  intros v Hv%list_elem_of_In. apply list_elem_of_fmap in Hv as (x & -> & Hx). by apply Hl.
Qed.

Lemma slice_json_depth {A} (f : A → json) isNil l d : 0 ≤ d → (∀ x, json_depth (f x) = d) → json_depth (slice_json isNil f l) ≤ d + 1.
Proof.
  intros H0 Hf. unfold slice_json. destruct (_ && _); [simpl; lia|]. simpl.
  assert (foldr (λ v d, json_depth v `max` d) 0 (map f l) ≤ d); [|lia]. induction l as [|x l IH]; simpl; [done|]. rewrite Hf. lia.
Qed.

Lemma slice_json_inj {A} (f : A → json) isNil isNil' l l' :
  (∀ x y, f x = f y → x = y) → slice_json isNil f l = slice_json isNil' f l' → l = l'.
Proof.
  intros Hf. unfold slice_json.
  destruct (_ && bool_decide (length l = _)) eqn:E1, (_ && bool_decide (length l' = _)) eqn:E2; try done.
  - apply andb_true_iff in E1 as [_ E1], E2 as [_ E2]. boolify. by destruct l, l'.
  - intros [= E]. clear E1 E2. revert l' E. induction l as [|x l IH]; intros [|y l'] [=]; [done|]. f_equal; auto.
Qed.

Lemma pool_json_inj x r x' r' p p' : p_Name p = p_Name p' → pool_json x r p = pool_json x' r' p' → p = p'.
Proof.
  destruct p as [n s a b g e l d], p' as [n' s' a' b' g' e' l' d']. simpl. intros -> E. injection E as -> -> -> -> Ee El ->.
  apply slice_json_inj in Ee as ->; [|intros [] []; by intros [= -> ->]]. apply slice_json_inj in El as ->; [done|by intros ? ? [=]].
Qed.

(** C38: The snapshot of the configuration that is stored with an allocation is
    complete: the text parses as JSON to exactly the fields of the pool, so two
    configurations of a pool with the same text are equal. *)
Theorem pool_snapshot_complete nilX nilR p :
  pool_utf8 p = true →
  json_parse (Pool_String nilX nilR p) = Some (pool_json nilX nilR p) ∧
  ∀ nilX' nilR' p', pool_utf8 p' = true → p_Name p = p_Name p' →
    Pool_String nilX nilR p = Pool_String nilX' nilR' p' → p = p'.
Proof.
  assert (∀ x r q, pool_utf8 q = true → json_parse (Pool_String x r q) = Some (pool_json x r q)) as Hp.
  { intros x r q Hq. unfold pool_utf8 in Hq. rewrite !forallb_app in Hq. simpl in Hq.
    apply andb_true_iff in Hq as [Hs Hq]. apply andb_true_iff in Hq as [Ha Hq]. apply andb_true_iff in Hq as [Hb Hr].
    rewrite forallb_forall in Ha, Hb, Hr. apply print_parse.
    - assert (json_ok (slice_json x exclusion_json (p_Exclusions q)) = true) as E1.
      { apply slice_json_ok. intros y Hy. simpl. rewrite Ha, Hb by (apply list_elem_of_In; by apply list_elem_of_fmap_2). done. }
      assert (json_ok (slice_json r (λ dst, JObj [("dst", JStr dst)]) (p_Routes q)) = true) as E2.
      { apply slice_json_ok. intros y Hy. simpl. rewrite Hr by (by apply list_elem_of_In). done. }
      unfold pool_json. cbn [json_ok forallb fst snd]. rewrite E1, E2. rewrite !andb_true_iff in Hs. destruct Hs as (-> & -> & -> & -> & _). done.
    - pose proof (slice_json_depth exclusion_json x (p_Exclusions q) 1 ltac:(done) (λ _, eq_refl)).
      pose proof (slice_json_depth (λ dst, JObj [("dst", JStr dst)]) r (p_Routes q) 1 ltac:(done) (λ _, eq_refl)).
      unfold pool_json, max_depth. cbn [json_depth foldr snd]. lia. }
  intros Hu. split; [by apply Hp|]. intros x' r' p' Hu' Hn E. pose proof (Hp nilX nilR p Hu) as E1.
  rewrite E, (Hp x' r' p' Hu') in E1. apply (inj Some) in E1. symmetry. by eapply pool_json_inj.
Qed.

Lemma pool_snapshot_complete_witness :
  let p := mkPool "p" "192.168.0.0/16" "192.168.0.1" "192.168.0.2" "<gw>" [mkExclusionRange "a" "b"] ["::/0"] true in
  json_parse (Pool_String false true p) = Some (pool_json false true p).
Proof. intros p. exact (proj1 (pool_snapshot_complete false true p eq_refl)). Defined.
