(* ===== verification/NodeControllers.v ===== *)
(** * The pool controllers of the node:
      [pkg/ipam-node/controllers/{ippool/ippool.go,cidrpool/cidrpool.go}]

    A reconciliation reads a pool resource and writes the part of it that
    belongs to the node to the pool manager, or removes it there.  [None] is a
    panic. *)

From S2P Require Import Prelude GoNet Cidr GoNetText ApiTypes Exclusions Validate CtrlIPPool PoolManager.

(** [buildPerNodeExclusions], the same function in both packages. *)
Definition buildPerNodeExclusions (ranges : list ExcludeIndexRange) (startIP endIP : string) :
    list ExclusionRange :=
  if bool_decide (ranges = []) then []
  else
    let excludeRanges := ExcludeIndexRangeToExcludeRange ranges startIP in
    let excludeRanges := ClampExcludeRanges excludeRanges startIP endIP in
    map (λ e, mkExclusionRange (er_StartIP e) (er_EndIP e)) excludeRanges.

(** ** IPPool *)

Definition ippool_node_pool (ipPool : IPPool) (alloc : Allocation) : Pool :=
  let sp := ipp_Spec ipPool in
  mkPool (ipp_Name ipPool) (Subnet sp) (al_StartIP alloc) (al_EndIP alloc) (Gateway sp)
    (map (λ e, mkExclusionRange (er_StartIP e) (er_EndIP e)) (Exclusions sp) ++
     buildPerNodeExclusions (PerNodeExclusions sp) (al_StartIP alloc) (al_EndIP alloc))
    (map Dst (Routes sp)) (DefaultGateway sp).

Definition Node_IPPool_Reconcile (nodeName : string) (get : get_result IPPool) (m : manager) (req : Request) :
    manager * option error :=
  let poolKey := GetPoolKey (req_Name req) PoolTypeIPPool in
  match get with
  | NotFound => (RemovePool m poolKey, None)
  | GetError err => (m, Some err)
  | Found ipPool =>
      match List.find (λ alloc, bool_decide (al_NodeName alloc = nodeName)) (ipp_Status ipPool) with
      | Some alloc => (UpdatePool m poolKey (ippool_node_pool ipPool alloc), None)
      | None => (RemovePool m poolKey, None)
      end
  end.

(** ** CIDRPool *)

Definition buildExclusions (ranges : list ExcludeRange) (nodeSubnet : IPNet) (firstIP lastIP : IP) :
    list ExclusionRange :=
  omap (λ r,
    let rangeStartIP := ParseIP (er_StartIP r) in
    let rangeEndIP := ParseIP (er_EndIP r) in
    if is_nil rangeEndIP || is_nil rangeStartIP then None
    else
      let containsStart := Contains nodeSubnet rangeStartIP in
      let containsEnd := Contains nodeSubnet rangeEndIP in
      if negb containsStart && negb containsEnd then None
      else
        Some (mkExclusionRange
          (if negb containsStart then IP_String firstIP else er_StartIP r)
          (if negb containsEnd then IP_String lastIP else er_EndIP r))) ranges.

Definition cidrpool_node_pool (cidrPool : CIDRPool) (alloc : CIDRPoolAllocation) : option Pool :=
  let sp := cp_Spec cidrPool in
  match ParseCIDR (ca_Prefix alloc) with
  | None => None
  | Some (_, nodeSubnet) =>
      let startIP := NextIP (net_IP nodeSubnet) in
      let startIP :=
        if IsPointToPointSubnet nodeSubnet || IsSingleIPSubnet nodeSubnet then net_IP nodeSubnet else startIP in
      endIP ← LastIP nodeSubnet;
      Some (mkPool (cp_Name cidrPool) (ca_Prefix alloc) (IP_String startIP) (IP_String endIP) (ca_Gateway alloc)
        (buildExclusions (cp_Exclusions sp) nodeSubnet startIP endIP ++
         buildPerNodeExclusions (cp_PerNodeExclusions sp) (IP_String (net_IP nodeSubnet)) (IP_String endIP))
        (map Dst (cp_Routes sp)) (cp_DefaultGateway sp))
  end.

Section cidrpool.
Context `{K8sNames}.

Definition Node_CIDRPool_Reconcile (nodeName : string) (get : get_result CIDRPool) (m : manager) (req : Request) :
    option (manager * option error) :=
  let poolKey := GetPoolKey (req_Name req) PoolTypeCIDRPool in
  match get with
  | NotFound => Some (RemovePool m poolKey, None)
  | GetError err => Some (m, Some err)
  | Found cidrPool =>
      if negb (bool_decide (CIDRPool_Validate cidrPool = [])) then Some (RemovePool m poolKey, None)
      else
        match List.find (λ alloc, bool_decide (ca_NodeName alloc = nodeName)) (cp_Status cidrPool) with
        | None => Some (RemovePool m poolKey, None)
        | Some alloc =>
            errList ← CIDRPoolAllocation_Validate alloc cidrPool;
            if negb (bool_decide (errList = [])) then Some (RemovePool m poolKey, None)
            else
              p ← cidrpool_node_pool cidrPool alloc;
              Some (UpdatePool m poolKey p, None)
        end
  end.
End cidrpool.

(** ** What the configuration excludes *)

Definition er_of (x : ExclusionRange) : ExcludeRange := mkExcludeRange (xr_StartIP x) (xr_EndIP x).

(** The address [x] is excluded by the configuration. *)
Definition cfg_excluded (f : family) (l : list ExclusionRange) (x : Z) : Prop := excluded f (map er_of l) x.

Lemma map_er_of l : map er_of (map (λ e, mkExclusionRange (er_StartIP e) (er_EndIP e)) l) = l.
Proof. rewrite List.map_map. rewrite <- (map_id l) at 2. apply map_ext. by intros []. Qed.

Lemma cfg_excluded_app f l k x : cfg_excluded f (l ++ k) x ↔ cfg_excluded f l x ∨ cfg_excluded f k x.
Proof. unfold cfg_excluded. rewrite map_app. apply excluded_app. Qed.

(** Index-based exclusions, counted from the start address and kept inside the
    range. *)
Lemma buildPerNodeExclusions_spec f l a b s e size x :
  addr_of (ParseIP a) = Some (f, s) → addr_of (ParseIP b) = Some (f, e) → s ≤ e →
  (∀ x, s ≤ x < s + size → addr_ok f x) →
  Forall (λ r, index_range_ok r ∧ EndIndex r < size) l →
  cfg_excluded f (buildPerNodeExclusions l a b) x ↔ s ≤ x ≤ e ∧ index_covered l (x - s).
Proof.
  intros Ha Hb Hse Hblk Hl. unfold cfg_excluded, buildPerNodeExclusions. case_bool_decide as Hnil.
  - subst l. simpl. split; [by intros (r & ? & ? & Hr%not_elem_of_nil & _)|].
    intros [_ (r & Hr%not_elem_of_nil & _)]. done.
  - rewrite map_er_of, (ClampExcludeRanges_excluded f _ a b s e); try done.
    + replace x with (s + (x - s)) at 1 by lia. rewrite (index_excluded_iff f l a s size); [tauto|done..].
    + by eapply index_ranges_er_ok.
Qed.

(** The first address the node hands out. *)
Definition first_addr (f : family) (base ones : Z) : Z :=
  if fam_bits f - 1 <=? ones then base else base + 1.

Lemma first_addr_in f base ones :
  net_ok f base ones → base ≤ first_addr f base ones < base + net_size f ones.
Proof.
  intros (Ho & _). unfold first_addr, net_size. destruct (Z.leb_spec (fam_bits f - 1) ones).
  - pose proof (Z.pow_pos_nonneg 2 (fam_bits f - ones)). lia.
  - pose proof (Z.pow_le_mono_r 2 1 (fam_bits f - ones)). lia.
Qed.

Lemma last_addr_in f base ones :
  net_ok f base ones → base ≤ last_addr f base ones < base + net_size f ones.
Proof.
  intros (Ho & _). unfold last_addr, net_size. destruct (bool_decide (f = F4) && (ones <? 31)) eqn:E.
  - boolify. subst f. simpl. pose proof (Z.pow_le_mono_r 2 1 (32 - ones)). simpl in *. lia.
  - pose proof (Z.pow_pos_nonneg 2 (fam_bits f - ones)). lia.
Qed.

Lemma first_last_le f base ones : net_ok f base ones → first_addr f base ones ≤ last_addr f base ones.
Proof.
  intros Hn. pose proof (first_addr_in _ _ _ Hn). pose proof (last_addr_in _ _ _ Hn). destruct Hn as (Ho & _).
  unfold first_addr, last_addr, net_size in *. destruct (Z.leb_spec (fam_bits f - 1) ones); [lia|].
  destruct (bool_decide (f = F4) && (ones <? 31)) eqn:E; [|lia].
  boolify. subst f. simpl in *. pose proof (Z.pow_le_mono_r 2 2 (32 - ones)). simpl in *. lia.
Qed.

Section node_prefix.
Context (f : family) (base ones : Z).
Hypothesis Hnet : net_ok f base ones.

Abbreviation first := (first_addr f base ones).
Abbreviation last := (last_addr f base ones).

Lemma addr_first : addr_of (ip_of f first) = Some (f, first).
Proof using Hnet. apply addr_of_ip_of. eapply net_ok_addr; [done|]. by apply first_addr_in. Qed.

Lemma addr_last : addr_of (ip_of f last) = Some (f, last).
Proof using Hnet. apply addr_of_ip_of. eapply net_ok_addr; [done|]. by apply last_addr_in. Qed.

(** The exclusion [r] does not reach past both ends of the node's network. *)
Definition not_around (r : ExcludeRange) : Prop :=
  ∀ s e, er_denotes f r s e → base ≤ s ∨ e < base + net_size f ones.

(** On the addresses the node hands out, [buildExclusions] excludes what the
    pool excludes. *)
Lemma buildExclusions_spec l x :
  Forall (er_ok f) l → Forall not_around l → first ≤ x ≤ last →
  cfg_excluded f (buildExclusions l (net_of f base ones) (ip_of f first) (ip_of f last)) x ↔ excluded f l x.
Proof using Hnet.
  intros Hok Hna Hx. rewrite Forall_forall in Hok, Hna. unfold cfg_excluded, buildExclusions.
  pose proof (first_addr_in _ _ _ Hnet) as Hf. pose proof (last_addr_in _ _ _ Hnet) as Hl.
  assert (∀ r s e, r ∈ l → er_denotes f r s e →
    is_nil (ParseIP (er_EndIP r)) || is_nil (ParseIP (er_StartIP r)) = false ∧
    Contains (net_of f base ones) (ParseIP (er_StartIP r)) = bool_decide (base ≤ s < base + net_size f ones) ∧
    Contains (net_of f base ones) (ParseIP (er_EndIP r)) = bool_decide (base ≤ e < base + net_size f ones)) as Hc.
  { intros r s e Hr (Hs & He & _). rewrite (ParseIP_not_nil _ _ _ Hs), (ParseIP_not_nil _ _ _ He).
    rewrite (Contains_net_of _ _ _ _ _ _ Hnet Hs), (Contains_net_of _ _ _ _ _ _ Hnet He).
    split_and!; [done|apply bool_decide_ext; tauto..]. }
  split.
  - intros (r' & s' & e' & Hr' & Hd' & Hx'). apply list_elem_of_fmap in Hr' as (xr & -> & Hxr).
    apply list_elem_of_omap in Hxr as (r & Hr & Hsome). destruct (Hok r Hr) as (s & e & Hd).
    destruct (Hc _ _ _ Hr Hd) as (Hnil & Hcs & Hce). rewrite Hnil, Hcs, Hce in Hsome.
    exists r, s, e. split_and!; [done..| |];
      repeat case_bool_decide; simpl in Hsome; simplify_eq; destruct Hd as (Hs & He & Hse), Hd' as (Hs' & He' & _);
      simpl in Hs', He'; rewrite ?(ParseIP_String _ _ _ addr_first), ?(ParseIP_String _ _ _ addr_last) in Hs', He';
      rewrite ?Hs in Hs'; rewrite ?He in He'; simplify_eq; lia.
  - intros (r & s & e & Hr & Hd & Hxs). pose proof (Hna r Hr s e Hd) as Hn.
    destruct (Hc _ _ _ Hr Hd) as (Hnil & Hcs & Hce). pose proof Hd as (Hs & He & Hse).
    exists (er_of (mkExclusionRange
        (if negb (bool_decide (base ≤ s < base + net_size f ones)) then IP_String (ip_of f first) else er_StartIP r)
        (if negb (bool_decide (base ≤ e < base + net_size f ones)) then IP_String (ip_of f last) else er_EndIP r))),
      (if bool_decide (base ≤ s < base + net_size f ones) then s else first),
      (if bool_decide (base ≤ e < base + net_size f ones) then e else last).
    split_and!.
    + apply list_elem_of_fmap_2, list_elem_of_omap. exists r. split; [done|]. rewrite Hnil, Hcs, Hce.
      repeat case_bool_decide; simpl; (done || lia).
    + repeat case_bool_decide; (split_and!; simpl;
        [first [done|by apply ParseIP_String, addr_first]|first [done|by apply ParseIP_String, addr_last]|lia]).
    + clear Hcs Hce. case_bool_decide; lia.
    + clear Hcs Hce. case_bool_decide; lia.
Qed.

Lemma cidrpool_node_pool_spec cidrPool alloc :
  (∃ ip, ParseCIDR (ca_Prefix alloc) = Some (ip, net_of f base ones)) →
  ∃ p, cidrpool_node_pool cidrPool alloc = Some p ∧
    p_Subnet p = ca_Prefix alloc ∧ p_Gateway p = ca_Gateway alloc ∧
    p_StartIP p = IP_String (ip_of f first) ∧ p_EndIP p = IP_String (ip_of f last) ∧
    p_Exclusions p =
      buildExclusions (cp_Exclusions (cp_Spec cidrPool)) (net_of f base ones) (ip_of f first) (ip_of f last) ++
      buildPerNodeExclusions (cp_PerNodeExclusions (cp_Spec cidrPool)) (IP_String (ip_of f base)) (IP_String (ip_of f last)).
Proof using Hnet.
  intros [ip Hp]. unfold cidrpool_node_pool. rewrite Hp, (LastIP_net _ _ _ Hnet). cbn [mbind option_bind].
  pose proof Hnet as (Ho & Hb & _). rewrite IsPointToPointSubnet_net, IsSingleIPSubnet_net by done.
  assert ((if (ones =? fam_bits f - 1) || (ones =? fam_bits f) then net_IP (net_of f base ones)
           else NextIP (net_IP (net_of f base ones))) = ip_of f first) as ->; [|eexists; done].
  simpl net_IP. unfold first_addr. destruct (Z.leb_spec (fam_bits f - 1) ones) as [H1|H1].
  - assert ((ones =? fam_bits f - 1) || (ones =? fam_bits f) = true) as ->; [|done].
    apply orb_true_iff. rewrite !Z.eqb_eq. lia.
  - assert ((ones =? fam_bits f - 1) || (ones =? fam_bits f) = false) as ->.
    { apply orb_false_iff. rewrite !Z.eqb_neq. lia. }
    rewrite (NextIP_valid _ f base) by (apply addr_of_ip_of; by eapply net_ok_base).
    pose proof (first_addr_in _ _ _ Hnet) as Hf. pose proof (net_ok_addr _ _ _ _ Hnet Hf) as [Hb1 _].
    unfold first_addr in Hb1. rewrite (proj2 (Z.leb_gt _ _)) in Hb1 by done.
    by rewrite bool_decide_true by lia.
Qed.
End node_prefix.

(** ** Properties *)

(** The node's controller for IPPools.  When the status of the pool has a
    range for the node, the node is configured with this range, the subnet and
    the gateway of the pool, and inside the range it excludes exactly the
    addresses the pool excludes and those whose index from the start of the range
    is in a per-node exclusion; otherwise the configuration is removed.  No other
    pool is touched. *)
Theorem node_ippool_config nodeName pool m req f size :
  let sp := ipp_Spec pool in
  let key := GetPoolKey (req_Name req) PoolTypeIPPool in
  let '(m', err) := Node_IPPool_Reconcile nodeName (Found pool) m req in
  err = None ∧
  (∀ k, k ≠ key → GetPoolByKey m' k = GetPoolByKey m k) ∧
  ((∀ a, a ∈ ipp_Status pool → al_NodeName a ≠ nodeName) → GetPoolByKey m' key = None) ∧
  ((∃ a, a ∈ ipp_Status pool ∧ al_NodeName a = nodeName) →
    ∃ a p, a ∈ ipp_Status pool ∧ al_NodeName a = nodeName ∧ GetPoolByKey m' key = Some p ∧
      p_Subnet p = Subnet sp ∧ p_Gateway p = Gateway sp ∧
      p_StartIP p = al_StartIP a ∧ p_EndIP p = al_EndIP a ∧
      ∀ s e x, addr_of (ParseIP (al_StartIP a)) = Some (f, s) → addr_of (ParseIP (al_EndIP a)) = Some (f, e) →
        s ≤ x ≤ e → (∀ y, s ≤ y < s + size → addr_ok f y) → Forall (index_in size) (PerNodeExclusions sp) →
        cfg_excluded f (p_Exclusions p) x ↔
        excluded f (Exclusions sp) x ∨ index_covered (PerNodeExclusions sp) (x - s)).
Proof.
  cbv zeta. unfold Node_IPPool_Reconcile.
  destruct (List.find _ _) as [a|] eqn:E.
  - apply find_some in E as [Ha%list_elem_of_In Hn]. boolify. cbv beta iota.
    split_and!; [done|intros k Hk; by rewrite GetPoolByKey_UpdatePool_ne|intros Hno; by destruct (Hno a Ha)|].
    intros _. exists a, (ippool_node_pool pool a). split_and!; try done; [apply GetPoolByKey_UpdatePool|].
    intros s e x Hs He Hx Hblk Hidx. simpl p_Exclusions. rewrite cfg_excluded_app.
    rewrite (buildPerNodeExclusions_spec f _ _ _ s e size) by (done || lia).
    unfold cfg_excluded. rewrite map_er_of. naive_solver lia.
  - cbv beta iota.
    split_and!; [done|intros k Hk; by rewrite GetPoolByKey_RemovePool_ne|intros _; apply GetPoolByKey_RemovePool|].
    intros (a & Ha%list_elem_of_In & Hn). exfalso. apply (find_none _ _ E) in Ha.
    by rewrite bool_decide_true in Ha.
Qed.

(** The reconciliation of a CIDRPool does not panic: what could is reached only
    for a valid pool and an accepted entry. *)
Lemma Node_CIDRPool_total `{K8sNames} nodeName pool m req :
  not_mapped (CIDR (cp_Spec pool)) → Forall int32_range (cp_PerNodeExclusions (cp_Spec pool)) →
  is_Some (Node_CIDRPool_Reconcile nodeName (Found pool) m req).
Proof.
  intros Hm H32. unfold Node_CIDRPool_Reconcile. case_bool_decide as HV; cbn [negb]; [|by eexists].
  destruct (List.find _ _) as [a|]; [|by eexists].
  destruct (not_mapped_denotes _ Hm (CIDRPool_Validate_parses _ HV)) as (f & base & ones & Hs).
  destruct (accepted_total pool a _ _ _ Hs) as [errs Ee]. rewrite Ee. cbn [mbind option_bind].
  case_bool_decide as He; cbn [negb]; [|by eexists]. subst errs.
  pose proof (CIDRPool_Validate_ok _ _ _ _ Hs H32 HV) as Hok.
  destruct (accepted_block _ _ _ _ _ Hs Hok Ee) as [(ip & b & Hp & Hb) _]. destruct Hb as (Hnb & _).
  destruct (cidrpool_node_pool_spec f b _ Hnb pool a ltac:(eauto)) as (p & -> & _). by eexists.
Qed.

(** C33: The node's controller for CIDRPools never panics on a pool whose CIDR is a
    network.  It configures the node only from a valid pool and an accepted
    status entry of the node: the node hands out the usable addresses of its
    prefix, a block of the pool, and, where no exclusion of the pool reaches past
    both ends of the prefix, excludes exactly the addresses the pool excludes and
    those whose index in the prefix is in a per-node exclusion.  In all other
    cases the configuration is removed.  No other pool is touched. *)
Theorem node_cidrpool_config `{K8sNames} nodeName pool m req f base ones :
  subnet_denotes (CIDR (cp_Spec pool)) f base ones →
  Forall int32_range (cp_PerNodeExclusions (cp_Spec pool)) →
  let sp := cp_Spec pool in
  let q := PerNodeNetworkPrefix sp in
  let key := GetPoolKey (req_Name req) PoolTypeCIDRPool in
  let entry := List.find (λ a, bool_decide (ca_NodeName a = nodeName)) (cp_Status pool) in
  ∃ m', Node_CIDRPool_Reconcile nodeName (Found pool) m req = Some (m', None) ∧
    (∀ k, k ≠ key → GetPoolByKey m' k = GetPoolByKey m k) ∧
    (is_Some (GetPoolByKey m' key) ↔
       CIDRPool_Validate pool = [] ∧ ∃ a, entry = Some a ∧ CIDRPoolAllocation_Validate a pool = Some []) ∧
    (∀ p, GetPoolByKey m' key = Some p →
       ∃ a b, entry = Some a ∧ block_of f base ones q b ∧ p_Subnet p = ca_Prefix a ∧ p_Gateway p = ca_Gateway a ∧
         p_StartIP p = IP_String (ip_of f (first_addr f b q)) ∧ p_EndIP p = IP_String (ip_of f (last_addr f b q)) ∧
         ∀ x, first_addr f b q ≤ x ≤ last_addr f b q → Forall (not_around f b q) (cp_Exclusions sp) →
           cfg_excluded f (p_Exclusions p) x ↔
           excluded f (cp_Exclusions sp) x ∨ index_covered (cp_PerNodeExclusions sp) (x - b)).
Proof.
  intros Hs H32. cbv zeta. unfold Node_CIDRPool_Reconcile. set (key := GetPoolKey _ _).
  assert (∀ (P : Prop) (Q : Pool → Prop), ¬ P → ∃ m', Some (RemovePool m key, None) = Some (m', @None error) ∧
    (∀ k, k ≠ key → GetPoolByKey m' k = GetPoolByKey m k) ∧ (is_Some (GetPoolByKey m' key) ↔ P) ∧
    ∀ p, GetPoolByKey m' key = Some p → Q p) as Hrem.
  { intros P Q HP. exists (RemovePool m key). rewrite GetPoolByKey_RemovePool.
    split_and!; [done|intros k Hk; by rewrite GetPoolByKey_RemovePool_ne| |done].
    split; [by intros []|by intros ?%HP]. }
  case_bool_decide as HV; cbn [negb]; [|apply Hrem; by intros [? _]].
  destruct (List.find _ _) as [a|] eqn:Ea; [|apply Hrem; by intros [_ (? & ? & _)]].
  destruct (accepted_total pool a _ _ _ Hs) as [errs Ee]. rewrite Ee. cbn [mbind option_bind].
  case_bool_decide as He; cbn [negb]; [|apply Hrem; intros [_ (? & [= <-] & Hx)]; congruence].
  subst errs. pose proof (CIDRPool_Validate_ok _ _ _ _ Hs H32 HV) as Hok.
  destruct (accepted_block _ _ _ _ _ Hs Hok Ee) as [(ip & b & Hp & Hb) _]. pose proof Hb as (Hnb & Hb1 & Hb2).
  destruct (cidrpool_node_pool_spec f b _ Hnb pool a ltac:(eauto)) as (p & -> & Hsub & Hgw & Hst & Hen & Hex).
  cbn [mbind option_bind]. exists (UpdatePool m key p). rewrite GetPoolByKey_UpdatePool. split_and!.
  - done.
  - intros k Hk. by rewrite GetPoolByKey_UpdatePool_ne.
  - split; [|by eexists]. intros _. split; [done|]. by exists a.
  - intros ? [= <-]. exists a, b. split_and!; try done. intros x Hx Hna. rewrite Hex, cfg_excluded_app.
    assert (Forall (er_ok f) (cp_Exclusions (cp_Spec pool))) as Hero
      by (eapply Forall_impl; [exact (cp_excl _ _ _ _ Hok)|]; intros; by eapply er_in_net_ok).
    rewrite (buildExclusions_spec f b _ Hnb _ x Hero Hna Hx).
    pose proof (first_addr_in _ _ _ Hnb). pose proof (last_addr_in _ _ _ Hnb).
    rewrite (buildPerNodeExclusions_spec f _ _ _ b (last_addr f b (PerNodeNetworkPrefix (cp_Spec pool)))
      (net_size f (PerNodeNetworkPrefix (cp_Spec pool)))).
    + naive_solver lia.
    + apply ParseIP_String, addr_of_ip_of. by eapply net_ok_base.
    + apply ParseIP_String. by apply addr_last.
    + lia.
    + intros y Hy. by eapply net_ok_addr.
    + apply (cp_node_excl _ _ _ _ Hok).
Qed.

(** *** Witnesses and examples *)

Definition node_cidrpool (exclusions : list ExcludeRange) : CIDRPool :=
  mkCIDRPool "pool" "kube-system"
    (mkCIDRPoolSpec "192.168.0.0/16" (Some 1) 24 exclusions [mkExcludeIndexRange 20 21] [] None false [])
    [mkCIDRPoolAllocation "node1" "192.168.1.1" "192.168.1.0/24"] false.

Definition node_config (exclusions : list ExcludeRange) : option Pool :=
  match @Node_CIDRPool_Reconcile nonempty_names "node1" (Found (node_cidrpool exclusions)) NewManager
          (mkRequest "kube-system" "pool") with
  | Some (m, _) => GetPoolByKey m "cidrpool/pool"
  | None => None
  end.

Lemma node_cidrpool_config_witness :
  ∃ m', @Node_CIDRPool_Reconcile nonempty_names "node1"
          (Found (node_cidrpool [mkExcludeRange "192.168.0.250" "192.168.1.10"])) NewManager
          (mkRequest "kube-system" "pool") = Some (m', None) ∧ is_Some (GetPoolByKey m' "cidrpool/pool").
Proof.
  assert (subnet_denotes "192.168.0.0/16" F4 (192 * 2 ^ 24 + 168 * 2 ^ 16) 16) as Hsub
    by (split; [eexists; vm_compute; reflexivity|apply net_okb_ok; vm_compute; reflexivity]).
  assert (Forall int32_range [mkExcludeIndexRange 20 21]) as H32 by (repeat constructor; vm_compute; discriminate).
  destruct (@node_cidrpool_config nonempty_names "node1" (node_cidrpool [mkExcludeRange "192.168.0.250" "192.168.1.10"])
    NewManager (mkRequest "kube-system" "pool") F4 (192 * 2 ^ 24 + 168 * 2 ^ 16) 16 Hsub H32) as (m' & E & _ & Hs & _).
  exists m'. split; [exact E|]. apply Hs. split; [vm_compute; reflexivity|].
  exists (mkCIDRPoolAllocation "node1" "192.168.1.1" "192.168.1.0/24"). split; vm_compute; reflexivity.
Defined.

Example node_config_example :
  p_Exclusions <$> node_config [mkExcludeRange "192.168.0.250" "192.168.1.10"] =
    Some [mkExclusionRange "192.168.1.1" "192.168.1.10"; mkExclusionRange "192.168.1.20" "192.168.1.21"].
Proof. vm_compute. reflexivity. Qed.

(** An exclusion of the pool that reaches past both ends of the node's prefix is
    dropped: the node hands out addresses the pool excludes. *)
Example covering_exclusion_dropped :
  p_Exclusions <$> node_config [mkExcludeRange "192.168.0.250" "192.168.2.10"] =
    Some [mkExclusionRange "192.168.1.20" "192.168.1.21"].
Proof. vm_compute. reflexivity. Qed.

(** An exclusion of the pool that ends on the network address of the node's
    prefix becomes a range that ends before it starts. *)
Example network_address_exclusion_inverted :
  p_Exclusions <$> node_config [mkExcludeRange "192.168.0.250" "192.168.1.0"] =
    Some [mkExclusionRange "192.168.1.1" "192.168.1.0"; mkExclusionRange "192.168.1.20" "192.168.1.21"].
Proof. vm_compute. reflexivity. Qed.
