(* ===== verification/Handlers.v ===== *)
(** * The gRPC handlers of the node daemon:
      [pkg/ipam-node/handlers/{handlers,allocate,deallocate,isallocated}.go]

    A handler validates the request, opens a store session, does its work and
    closes the session: [Commit] without an error, [Cancel] with one.  The
    allocator is the one of [NodeAllocator].  What the environment decides (the
    time, a cancelled request, a failing read or write of the file) is an input.
    [None] is a panic or a blocked [Open].  Logging is left out. *)

From Stdlib Require Import Strings.Byte Strings.Ascii.
From stdpp Require Import pretty.
From S2P Require Import Prelude GoNet Cidr GoNetText NodeTypes Store PoolManager RangeSet NodeAllocator.

(** ** Requests, responses, errors *)

Inductive code := InvalidArgument | NotFound | AlreadyExists | ResourceExhausted | Internal | Canceled.

Record status := mkStatus { st_code : code; st_msg : string }.

Inductive PoolType := POOL_TYPE_UNSPECIFIED | POOL_TYPE_IPPOOL | POOL_TYPE_CIDRPOOL | POOL_TYPE_OTHER (n : Z).

Record IPAMMetadata := mkIPAMMetadata {
  K8SPodName : string;
  K8SPodNamespace : string;
  K8SPodUid : string;
  DeviceId : string;
}.

Record IPAMFeatures := mkIPAMFeatures {
  AllocateDefaultGateway : bool;
  AllocateIpWithIndex : option Z;
}.

Record IPAMParameters := mkIPAMParameters {
  pa_Pools : list string;
  CniContainerid : string;
  CniIfname : string;
  pa_Metadata : option IPAMMetadata;
  pa_PoolType : PoolType;
  RequestedIps : list string;
  Features : option IPAMFeatures;
}.

Record AllocationInfo := mkAllocationInfo {
  ai_Pool : string;
  ai_Ip : string;
  ai_PoolType : PoolType;
  ai_Gateway : string;
  ai_Routes : list string;
}.

Record PoolAlloc := mkPoolAlloc { pal_Pool : string; pal_IPConfig : IPConfig; pal_Routes : list IPNet }.

(** ** Common parts *)

Definition fieldIsRequiredError (field : string) : status := mkStatus InvalidArgument (field +:+ " is required field").
Definition fieldsIsInvalidError (field : string) : status := mkStatus InvalidArgument (field +:+ " is invalid").

(** The index of the first element the check rejects. *)
Fixpoint first_bad {A} (ok : A → bool) (i : nat) (l : list A) : option nat :=
  match l with
  | [] => None
  | x :: l => if ok x then first_bad ok (S i) l else Some i
  end.

(** [None]: the request is valid. *)
Definition validateReq (params : option IPAMParameters) : option status :=
  match params with
  | None => Some (fieldIsRequiredError "parameters")
  | Some params =>
      if bool_decide (length (pa_Pools params) = 0%nat) || bool_decide (2 < length (pa_Pools params))%nat
      then Some (fieldsIsInvalidError "parameters.pools")
      else
        match first_bad (λ p, bool_decide (p ≠ "")) 0 (pa_Pools params) with
        | Some i => Some (fieldsIsInvalidError ("parameters.pools[" +:+ pretty i +:+ "]"))
        | None =>
            if bool_decide (CniContainerid params = "") then Some (fieldIsRequiredError "parameters.cni_containerid")
            else if bool_decide (CniIfname params = "") then Some (fieldIsRequiredError "parameters.cni_ifname")
            else
              match pa_Metadata params with
              | None => Some (fieldIsRequiredError "parameters.metadata")
              | Some md =>
                  if bool_decide (K8SPodName md = "")
                  then Some (fieldIsRequiredError "parameters.metadata.k8s_pod_name")
                  else if bool_decide (K8SPodNamespace md = "")
                  then Some (fieldIsRequiredError "parameters.metadata.k8s_pod_namespace")
                  else
                    match first_bad (λ v, negb (is_nil (ParseIP v))) 0 (RequestedIps params) with
                    | Some i => Some (fieldsIsInvalidError ("parameters.requested_ips[" +:+ pretty i +:+ "]"))
                    | None =>
                        if match Features params with
                           | Some ft => AllocateDefaultGateway ft && negb (bool_decide (RequestedIps params = []))
                           | None => false
                           end
                        then Some (mkStatus InvalidArgument
                          "parameters.features.allocate_default_gateway can't be used together with static IPs")
                        else None
                    end
              end
        end
  end.

Definition setDefaultsToParams (p : IPAMParameters) : IPAMParameters :=
  match pa_PoolType p with
  | POOL_TYPE_UNSPECIFIED =>
      mkIPAMParameters (pa_Pools p) (CniContainerid p) (CniIfname p) (pa_Metadata p) POOL_TYPE_IPPOOL
        (RequestedIps p) (Features p)
  | _ => p
  end.

Definition poolTypeAsString (t : PoolType) : string :=
  match t with POOL_TYPE_CIDRPOOL => PoolTypeCIDRPool | _ => PoolTypeIPPool end.

(** The environment of one request. *)
Record Env := mkEnv {
  env_now : Clock;
  env_canceled : bool;
  env_readable : bool;
  env_writable : bool;
}.

Definition checkReqIsCanceled (e : Env) : option status :=
  if env_canceled e then Some (mkStatus Canceled "request has been canceled") else None.

Record Handlers := mkHandlers {
  poolConfReader : manager;
  releaseCooldown : Z;
}.

Section store.
Context `{RootCodec}.

Definition openStore (e : Env) (st : store) : option (store * result status session) :=
  r ← Open (env_readable e) st;
  match r with
  | Opened st s => Some (st, Ok s)
  | OpenFailed st _ => Some (st, Err (mkStatus Internal "failed to open store"))
  | OpenBlocks => None
  end.

Definition closeSession (e : Env) (st : store) (s : session) (err : option status) :
    option (store * option status) :=
  match err with
  | None =>
      '(st, _, cerr) ← Commit (env_writable e) st s;
      Some (st, match cerr with Some _ => Some (mkStatus Internal "failed to close session") | None => None end)
  | Some err => '(st, _) ← Cancel st s; Some (st, Some err)
  end.

(** The frame the three handlers share: [work] changes the session and answers. *)
Definition with_session {A} (e : Env) (st : store) (req : option IPAMParameters)
    (work : IPAMParameters → session → option (session * result status A)) :
    option (store * result status A) :=
  match validateReq req, req with
  | Some err, _ => Some (st, Err err)
  | None, None => None
  | None, Some params =>
      let params := setDefaultsToParams params in
      '(st, s) ← openStore e st;
      match s with
      | Err err => Some (st, Err err)
      | Ok s =>
          match checkReqIsCanceled e with
          | Some err =>
              '(st, err) ← closeSession e st s (Some err);
              match err with Some err => Some (st, Err err) | None => None end
          | None =>
              '(s, r) ← work params s;
              '(st, cerr) ← closeSession e st s match r with Ok _ => None | Err err => Some err end;
              match cerr, r with
              | Some err, _ => Some (st, Err err)
              | None, Ok a => Some (st, Ok a)
              | None, Err _ => None
              end
          end
      end
  end.
End store.

(** ** IsAllocated and Deallocate *)

Fixpoint isAllocated_pools (params : IPAMParameters) (pools : list string) (s : session) :
    option (session * result status unit) :=
  match pools with
  | [] => Some (s, Ok tt)
  | poolName :: pools =>
      let poolType := poolTypeAsString (pa_PoolType params) in
      res ← GetReservationByID s (GetPoolKey poolName poolType) (CniContainerid params) (CniIfname params);
      match res with
      | None => Some (s, Err (mkStatus NotFound
          ("reservation for pool " +:+ quoted poolName +:+ ", poolType " +:+ quoted poolType +:+ " not found")))
      | Some _ => isAllocated_pools params pools s
      end
  end.

Fixpoint deallocate_pools (now : Clock) (h : Handlers) (params : IPAMParameters) (pools : list string) (s : session) :
    option (session * result status unit) :=
  match pools with
  | [] => Some (s, Ok tt)
  | poolName :: pools =>
      let poolKey := GetPoolKey poolName (poolTypeAsString (pa_PoolType params)) in
      '(s, _) ← ReleaseReservationByID now s poolKey (CniContainerid params) (CniIfname params) (releaseCooldown h);
      deallocate_pools now h params pools s
  end.

(** ** Routes *)

(** [bytes.Compare] *)
Fixpoint bytes_Compare (a b : list byte) : Z :=
  match a, b with
  | [], [] => 0
  | [], _ :: _ => -1
  | _ :: _, [] => 1
  | x :: a, y :: b =>
      if byte_val x <? byte_val y then -1 else if byte_val y <? byte_val x then 1 else bytes_Compare a b
  end.

(** [slices.SortFunc] as an insertion sort, its algorithm up to 12 elements: the
    sorted part is kept in reverse, a new element moves left past the greater ones.
    On longer slices the algorithm is another one; where the comparison is a total
    order on what tells the elements apart (routes of one family, [RoutesSpec]) the
    result is the same, for it is the only sorted arrangement. *)
Fixpoint insert_right {A} (cmp : A → A → Z) (x : A) (rl : list A) : list A :=
  match rl with
  | [] => [x]
  | y :: rl' => if cmp x y <? 0 then y :: insert_right cmp x rl' else x :: rl
  end.
Definition SortFunc {A} (cmp : A → A → Z) (l : list A) : list A :=
  rev (foldl (λ rl x, insert_right cmp x rl) [] l).

(** [slices.CompactFunc]: an element equal to its predecessor is dropped. *)
Fixpoint compact_after {A} (eq : A → A → bool) (prev : A) (l : list A) : list A :=
  match l with
  | [] => []
  | x :: l => if eq x prev then compact_after eq x l else x :: compact_after eq x l
  end.
Definition CompactFunc {A} (eq : A → A → bool) (l : list A) : list A :=
  match l with [] => [] | x :: l => x :: compact_after eq x l end.

Definition route_cmp (a b : IPNet) : Z :=
  if negb (IP_Equal (net_IP a) (net_IP b)) then bytes_Compare (net_IP a) (net_IP b)
  else bytes_Compare (net_Mask a) (net_Mask b).

Definition route_eq (a b : IPNet) : bool :=
  IP_Equal (net_IP a) (net_IP b) && bool_decide (net_Mask a = net_Mask b).

Definition sortAndDedupIPNets (slice : list IPNet) : list IPNet :=
  if bool_decide (slice = []) then slice else CompactFunc route_eq (SortFunc route_cmp slice).

(** [net.IPv4(0, 0, 0, 0)] is the 16-byte form. *)
Definition createDefaultRoute (gateway : IP) : IPNet :=
  if negb (is_nil (To4 gateway)) then mkIPNet (v4InV6Prefix ++ replicate 4 x00) (CIDRMask 0 32)
  else mkIPNet (replicate 16 x00) (CIDRMask 0 128).

Fixpoint parse_routes (routesCfg : list string) : result status (list IPNet) :=
  match routesCfg with
  | [] => Ok []
  | dst :: routesCfg =>
      match ParseCIDR dst with
      | None => Err (mkStatus InvalidArgument
          ("unexpected Route destination format, received value: " +:+ dst +:+ ", error: invalid CIDR address: " +:+ dst))
      | Some (_, ipNet) => (let! rest := parse_routes routesCfg in Ok (ipNet :: rest))%ipam
      end
  end.

Definition getRoutes (gateway : IP) (routesCfg : list string) (defaultGateway : bool) :
    result status (list IPNet) :=
  if is_nil gateway then Ok []
  else
    (let! routes := parse_routes routesCfg in
     let routes := if defaultGateway then routes ++ [createDefaultRoute gateway] else routes in
     Ok (sortAndDedupIPNets routes))%ipam.

(** ** Allocate *)

(** The range, its start, the subnet and the gateway a pool configuration names. *)
Definition newRangeSetAndDependenciesForPoolCfg (poolCfg : Pool) : result string (RangeSet * IP * IPNet * IP) :=
  let rangeStart := ParseIP (p_StartIP poolCfg) in
  if is_nil rangeStart then Err "invalid rangeStart"
  else
    let rangeEnd := ParseIP (p_EndIP poolCfg) in
    if is_nil rangeEnd then Err "invalid rangeEnd"
    else
      match ParseCIDR (p_Subnet poolCfg) with
      | None => Err "invalid subnet"
      | Some (_, subnet) =>
          if bool_decide (net_IP subnet = []) || bool_decide (net_Mask subnet = []) then Err "invalid subnet"
          else
            let gateway := ParseIP (p_Gateway poolCfg) in
            Ok ([mkRange rangeStart rangeEnd subnet gateway], rangeStart, subnet, gateway)
      end.

Definition setAllocMetadata (allocMeta : ReservationMetadata) (paramsMetadata : option IPAMMetadata) :
    ReservationMetadata :=
  match paramsMetadata with
  | Some md => mkMetadata (CreateTime allocMeta) (K8SPodUid md) (K8SPodName md) (K8SPodNamespace md) (DeviceId md)
                 (PoolConfigSnapshot allocMeta)
  | None => allocMeta
  end.

Definition in_pool (poolName poolType : string) : string :=
  quoted poolName +:+ ", poolType " +:+ quoted poolType.

(** The first of the three errors the allocation wraps, if any ([errors.Is]). *)
Definition wrapped_error (err : alloc_error) : option reserve_error :=
  match err with ErrReserve e | ErrStaticIP _ e => Some e | _ => None end.

Definition specificError (err : alloc_error) (poolName poolType : string) : status :=
  match wrapped_error err, err with
  | Some ErrReservationAlreadyExist, _ =>
      mkStatus AlreadyExists ("allocation already exist in the pool " +:+ in_pool poolName poolType)
  | _, ErrNoFreeAddresses => mkStatus ResourceExhausted ("no free addresses in the pool " +:+ in_pool poolName poolType)
  | Some ErrIPAlreadyReserved, _ =>
      mkStatus ResourceExhausted ("requested IP is already reserved in the pool " +:+ in_pool poolName poolType)
  | _, _ => mkStatus Internal ("failed to allocate IP address in pool " +:+ in_pool poolName poolType)
  end.

Definition poolCfgError (pool poolType : string) : status :=
  mkStatus Internal ("invalid config for pool " +:+ in_pool pool poolType).

(** The address a request asks for in a pool ([[]]: any). *)
Definition selectStaticIP (params : IPAMParameters) (requestedIPs : list IP) (poolName poolType : string)
    (rangeSet : RangeSet) (rangeStart : IP) (subnet : IPNet) (gateway : IP) : result status IP :=
  let selectedStaticIP := default [] (List.find (λ ipAddr, Contains subnet ipAddr) requestedIPs) in
  match Features params with
  | None => Ok selectedStaticIP
  | Some features =>
      (let! selectedStaticIP :=
         if AllocateDefaultGateway features then
           if is_nil gateway
           then Err (mkStatus InvalidArgument
             ("pool without gateway can't be used with allocate_default_gateway feature,pool " +:+ in_pool poolName poolType))
           else Ok gateway
         else Ok selectedStaticIP in
       match AllocateIpWithIndex features with
       | None => Ok selectedStaticIP
       | Some index =>
           let outside := mkStatus InvalidArgument
             ("requested IP index " +:+ quoted (pretty index) +:+ " is outside of the given chunk") in
           match NextIPWithOffset rangeStart (Some index) with
           | Err _ => Err outside
           | Ok selectedIP =>
               if IP_Equal selectedIP gateway
               then Err (mkStatus InvalidArgument ("requested IP index " +:+ quoted (pretty index) +:+
                 " is the actual gateway, use allocate_default_gateway feature instead"))
               else if negb (RangeSet_Contains rangeSet selectedIP) then Err outside
               else Ok selectedIP
           end
       end)%ipam
  end.

Definition exclusion_ranges (subnet : IPNet) (l : list ExclusionRange) : RangeSet :=
  map (λ e, mkRange (ParseIP (xr_StartIP e)) (ParseIP (xr_EndIP e)) subnet []) l.

Section allocate.
(** [Pool.String]: the JSON text of the pool, which the store keeps. *)
Context (Pool_String : Pool → string).

Definition allocateInPool (now : Clock) (h : Handlers) (poolName : string) (session : session)
    (params : IPAMParameters) (requestedIPs : list IP) : option (Store.session * result status PoolAlloc) :=
  let poolType := poolTypeAsString (pa_PoolType params) in
  let poolKey := GetPoolKey poolName poolType in
  let fail err := Some (session, Err err) in
  match GetPoolByKey (poolConfReader h) poolKey with
  | None => fail (mkStatus NotFound ("configuration for pool " +:+ in_pool poolName poolType +:+ " not found"))
  | Some poolCfg =>
      match newRangeSetAndDependenciesForPoolCfg poolCfg with
      | Err _ => fail (poolCfgError poolName poolType)
      | Ok (rangeSet, rangeStart, subnet, gateway) =>
          canonical ← RangeSet_Canonicalize rangeSet;
          match canonical with
          | Err _ => fail (poolCfgError poolName poolType)
          | Ok rangeSet =>
              match selectStaticIP params requestedIPs poolName poolType rangeSet rangeStart subnet gateway with
              | Err err => fail err
              | Ok selectedStaticIP =>
                  let exclusionRangeSet := exclusion_ranges subnet (p_Exclusions poolCfg) in
                  exclusions ← (if (0 <? length exclusionRangeSet)%nat then RangeSet_Canonicalize exclusionRangeSet
                                else Some (Ok exclusionRangeSet));
                  match exclusions with
                  | Err _ => fail (poolCfgError poolName poolType)
                  | Ok exclusionRangeSet =>
                      let alloc := mkAllocator rangeSet session poolKey (Some exclusionRangeSet) in
                      let allocMeta := mkMetadata (clock_text now) "" "" "" "" (Pool_String poolCfg) in
                      let allocMeta := setAllocMetadata allocMeta (pa_Metadata params) in
                      '(session, result) ← Allocate (H := session_ops now) alloc (CniContainerid params)
                                             (CniIfname params) allocMeta selectedStaticIP;
                      match result with
                      | Err err => Some (session, Err (specificError err poolName poolType))
                      | Ok result =>
                          let result :=
                            match Features params with
                            | Some ft => if AllocateDefaultGateway ft then mkIPConfig (Address result) [] else result
                            | None => result
                            end in
                          Some (session,
                            (let! routes := getRoutes (ic_Gateway result) (p_Routes poolCfg) (p_DefaultGateway poolCfg) in
                             Ok (mkPoolAlloc poolName result routes))%ipam)
                      end
                  end
              end
          end
      end
  end.

Fixpoint allocate_pools (now : Clock) (h : Handlers) (params : IPAMParameters) (requestedIPs : list IP)
    (pools : list string) (session : session) : option (Store.session * result status (list PoolAlloc)) :=
  match pools with
  | [] => Some (session, Ok [])
  | poolName :: pools =>
      '(session, alloc) ← allocateInPool now h poolName session params requestedIPs;
      match alloc with
      | Err err => Some (session, Err err)
      | Ok alloc =>
          '(session, rest) ← allocate_pools now h params requestedIPs pools session;
          Some (session, (let! rest := rest in Ok (alloc :: rest))%ipam)
      end
  end.

Definition allocate (now : Clock) (h : Handlers) (params : IPAMParameters) (session : session) :
    option (Store.session * result status (list PoolAlloc)) :=
  let requestedIPs := ParseIP <$> RequestedIps params in
  '(session, result) ← allocate_pools now h params requestedIPs (pa_Pools params) session;
  Some (session,
    (let! result := result in
     match List.find (λ ipAddr, negb (existsb (λ r, IP_Equal (net_IP (Address (pal_IPConfig r))) ipAddr) result))
             requestedIPs with
     | Some ipAddr => Err (mkStatus InvalidArgument
         ("not all requested static IPs can be allocated from the ranges available on the node, ip " +:+
          IP_String ipAddr +:+ " has no matching Pool"))
     | None => Ok result
     end)%ipam).

(** The response for one allocation. *)
Definition allocationInfo (poolType : PoolType) (r : PoolAlloc) : AllocationInfo :=
  let c := pal_IPConfig r in
  if is_nil (ic_Gateway c)
  then mkAllocationInfo (pal_Pool r) (IPNet_String (Address c)) poolType "" []
  else mkAllocationInfo (pal_Pool r) (IPNet_String (Address c)) poolType (IP_String (ic_Gateway c))
         (IPNet_String <$> pal_Routes r).
End allocate.

(** ** The handlers *)

Section handlers.
Context `{RootCodec} (Pool_String : Pool → string).

(** [allocate] and the response made of its result. *)
Definition allocate_reply (now : Clock) (h : Handlers) (params : IPAMParameters) (session : session) :
    option (Store.session * result status (list AllocationInfo)) :=
  '(session, result) ← allocate Pool_String now h params session;
  Some (session, (let! result := result in Ok (map (allocationInfo (pa_PoolType params)) result))%ipam).

Definition Handlers_Allocate (e : Env) (h : Handlers) (st : store) (req : option IPAMParameters) :
    option (store * result status (list AllocationInfo)) :=
  with_session e st req (allocate_reply (env_now e) h).

Definition Handlers_Deallocate (e : Env) (h : Handlers) (st : store) (req : option IPAMParameters) :
    option (store * result status unit) :=
  with_session e st req (λ params session, deallocate_pools (env_now e) h params (pa_Pools params) session).

Definition Handlers_IsAllocated (e : Env) (h : Handlers) (st : store) (req : option IPAMParameters) :
    option (store * result status unit) :=
  with_session e st req (λ params session, isAllocated_pools params (pa_Pools params) session).
End handlers.
