(* ===== verification/RoutesSpec.v ===== *)
(** * The routes of an allocation: [getRoutes] of [pkg/ipam-node/handlers/allocate.go]

    The routes of a pool are returned sorted, without duplicates, and with the
    default route when the pool asks for it.  A network is known by its key: the
    number of its address and the number of its mask. *)

From Stdlib Require Import Strings.Byte.
From S2P Require Import Prelude GoNet Cidr GoNetText PoolManager RangeSet Handlers.

(** ** Keys *)

Definition net_key (n : IPNet) : Z * Z :=
  (match addr_of (net_IP n) with Some (_, x) => x | None => 0 end, be_val (net_Mask n)).

Definition key_lt (a b : Z * Z) : Prop := a.1 < b.1 ∨ (a.1 = b.1 ∧ a.2 < b.2).

#[global] Instance key_lt_dec a b : Decision (key_lt a b).
Proof. unfold key_lt. apply _. Defined.

#[global] Instance key_lt_trans : Transitive key_lt.
Proof. intros [a a'] [b b'] [c c']. unfold key_lt. simpl. lia. Qed.

Lemma key_total a b : key_lt a b ∨ a = b ∨ key_lt b a.
Proof.
  destruct a as [a a'], b as [b b']. unfold key_lt. simpl.
  destruct (Z.lt_trichotomy a b) as [?|[->|?]]; [by left; left| |right; right; by left].
  destruct (Z.lt_trichotomy a' b') as [?|[->|?]]; auto.
Qed.

Lemma key_lt_irrefl a : ¬ key_lt a a.
Proof. unfold key_lt. lia. Qed.

(** ** Sorting and compacting by key *)

Section sort.
Context {A : Type} (key : A → Z * Z) (cmp : A → A → Z) (eq : A → A → bool) (P : A → Prop).
Hypothesis Hcmp : ∀ x y, P x → P y → (cmp x y <? 0) = bool_decide (key_lt (key x) (key y)).
Hypothesis Heq : ∀ x y, P x → P y → eq x y = bool_decide (key x = key y).

Abbreviation ge x y := (¬ key_lt (key x) (key y)).

Lemma insert_right_perm x rl : insert_right cmp x rl ≡ₚ x :: rl.
Proof using Type.
  induction rl as [|y rl IH]; simpl; [done|]. destruct (cmp x y <? 0); [|done]. rewrite IH. constructor.
Qed.

Lemma insert_right_sorted x rl :
  P x → Forall P rl → StronglySorted (λ a b, ge a b) rl → StronglySorted (λ a b, ge a b) (insert_right cmp x rl).
Proof using Hcmp.
  intros Hx HP. induction HP as [|y rl Hy HP IH]; intros Hs; simpl; [by repeat constructor|].
  apply StronglySorted_inv in Hs as [Hs Hall]. rewrite Hcmp by done. case_bool_decide as Hlt.
  - constructor; [by apply IH|]. rewrite (insert_right_perm x rl). constructor; [|done].
    intros Hyx. eapply key_lt_irrefl. by etrans.
  - constructor; [by constructor|]. constructor; [done|]. eapply Forall_impl; [exact Hall|]. intros z Hyz Hxz.
    destruct (key_total (key y) (key x)) as [?|[E|?]]; [|by rewrite E in Hyz|done].
    apply Hyz. by etrans.
Qed.

Lemma SortFunc_spec l :
  Forall P l → SortFunc cmp l ≡ₚ l ∧ StronglySorted (λ a b, ge b a) (SortFunc cmp l).
Proof using Hcmp.
  intros HP. unfold SortFunc.
  assert (∀ acc, Forall P acc → StronglySorted (λ a b, ge a b) acc →
    foldl (λ rl x, insert_right cmp x rl) acc l ≡ₚ l ++ acc ∧
    StronglySorted (λ a b, ge a b) (foldl (λ rl x, insert_right cmp x rl) acc l)) as Hfold.
  { induction HP as [|x l Hx _ IH]; intros acc Hacc Hs; simpl; [done|].
    destruct (IH (insert_right cmp x acc)) as [H1 H2]; [rewrite insert_right_perm; by constructor|by apply insert_right_sorted|].
    split; [|done]. rewrite H1, insert_right_perm. symmetry. apply Permutation_middle. }
  destruct (Hfold [] (Forall_nil_2 _) (SSorted_nil _)) as [H1 H2]. rewrite app_nil_r in H1.
  split; [by rewrite <- Permutation_rev|]. clear -H2. induction H2 as [|x rl Hs IH Hall]; simpl; [constructor|].
  apply StronglySorted_app_2; [|done|by repeat constructor]. intros a b Ha Hb%list_elem_of_singleton. subst b.
  rewrite list_elem_of_In, <- in_rev, <- list_elem_of_In in Ha. rewrite Forall_forall in Hall. by apply Hall.
Qed.

Lemma compact_after_spec prev l :
  P prev → Forall P l → StronglySorted (λ a b, ge b a) (prev :: l) →
  StronglySorted key_lt (key <$> prev :: compact_after eq prev l) ∧
  ∀ k, k ∈ key <$> prev :: compact_after eq prev l ↔ k ∈ key <$> prev :: l.
Proof using Heq.
  intros Hp HP. revert prev Hp. induction HP as [|x l Hx _ IH]; intros prev Hp Hs; cbn [compact_after].
  { split; [by repeat constructor|done]. }
  apply StronglySorted_inv in Hs as [Hs Hall]. apply Forall_cons in Hall as [Hle _].
  destruct (IH x Hx Hs) as [H1 H2]. rewrite Heq by done. case_bool_decide as E.
  - rewrite !fmap_cons in *. rewrite <- E. split; [done|]. intros k. rewrite H2, !elem_of_cons. tauto.
  - split.
    + rewrite fmap_cons. constructor; [done|]. rewrite Forall_forall. intros k Hk.
      assert (key_lt (key prev) (key x)) as Hlt by (destruct (key_total (key prev) (key x)) as [?|[?|?]]; [done|congruence|done]).
      rewrite fmap_cons in H1, Hk. apply StronglySorted_inv in H1 as [_ Hx1]. rewrite Forall_forall in Hx1.
      apply elem_of_cons in Hk as [->|Hk]; [done|]. etrans; [done|]. by apply Hx1.
    + intros k. rewrite (fmap_cons _ prev), (fmap_cons _ prev (x :: l)), !(elem_of_cons _ _ (key prev)), H2. done.
Qed.

Lemma sort_compact_spec l :
  Forall P l →
  StronglySorted key_lt (key <$> CompactFunc eq (SortFunc cmp l)) ∧
  ∀ k, k ∈ key <$> CompactFunc eq (SortFunc cmp l) ↔ k ∈ key <$> l.
Proof using Hcmp Heq.
  intros HP. destruct (SortFunc_spec l HP) as [Hperm Hs].
  assert (∀ k, k ∈ key <$> SortFunc cmp l ↔ k ∈ key <$> l) as Hk by (intros k; by rewrite Hperm).
  assert (Forall P (SortFunc cmp l)) as HP' by (by rewrite Hperm).
  destruct (SortFunc cmp l) as [|x l']; [split; [constructor|]; intros k; by rewrite <- Hk|].
  apply Forall_cons in HP' as [Hx HP']. destruct (compact_after_spec x l' Hx HP' Hs) as [H1 H2].
  split; [done|]. intros k. by rewrite <- Hk.
Qed.
End sort.

(** ** The order of routes of one family *)

(** [bytes.Compare] on byte strings of one length compares their numbers. *)
Lemma bytes_Compare_val a b :
  length a = length b →
  (bytes_Compare a b <? 0) = bool_decide (be_val a < be_val b).
Proof.
  revert b. induction a as [|x a IH]; intros [|y b] Hl; try done. injection Hl as Hl. simpl bytes_Compare.
  simpl be_val. pose proof (be_val_bound a) as Ba. pose proof (be_val_bound b) as Bb. rewrite <- Hl in *.
  set (p := 256 ^ Z.of_nat (length a)) in *.
  destruct (Z.ltb_spec (byte_val x) (byte_val y)) as [H1|H1].
  { symmetry. apply bool_decide_true. nia. }
  destruct (Z.ltb_spec (byte_val y) (byte_val x)) as [H2|H2].
  { symmetry. apply bool_decide_false. nia. }
  rewrite IH by done. apply bool_decide_ext. assert (byte_val x = byte_val y) as -> by lia. lia.
Qed.

(** A route of the family [f]: a network in its standard form, or the default
    route the handler adds. *)
Inductive route_of (f : family) : IPNet → Prop :=
| route_net base ones : addr_ok f base → route_of f (net_of f base ones)
| route_default gw x : addr_of gw = Some (f, x) → route_of f (createDefaultRoute gw).

Definition default_v4 : IPNet := mkIPNet (v4InV6Prefix ++ replicate 4 x00) (mask_loop 4 0).
Definition default_v6 : IPNet := net_of F6 0 0.

Lemma createDefaultRoute_family gw f x :
  addr_of gw = Some (f, x) → createDefaultRoute gw = match f with F4 => default_v4 | F6 => default_v6 end.
Proof.
  intros H%addr_of_Some. unfold createDefaultRoute, is_nil. destruct f.
  - rewrite bool_decide_false by tauto. reflexivity.
  - rewrite bool_decide_true by tauto. vm_compute. reflexivity.
Qed.

(** The two shapes: bytes of the family's length, or the IPv4 default route. *)
Lemma route_shape f n :
  route_of f n →
  length (net_Mask n) = fam_len f ∧ ∃ x, addr_of (net_IP n) = Some (f, x) ∧ net_key n = (x, be_val (net_Mask n)) ∧
    (net_IP n = ip_of f x ∨ (f = F4 ∧ x = 0 ∧ net_IP n = v4InV6Prefix ++ replicate 4 x00)).
Proof.
  destruct 1 as [base ones Hb|gw x Hgw].
  - simpl. rewrite length_mask_loop. split; [done|]. exists base. unfold net_key. simpl.
    rewrite addr_of_ip_of by done. auto.
  - rewrite (createDefaultRoute_family _ _ _ Hgw). destruct f.
    + split; [done|]. exists 0. split_and!; [vm_compute; reflexivity..|]. by right.
    + split; [done|]. exists 0. split_and!; [vm_compute; reflexivity..|]. by left.
Qed.

Lemma bytes_Compare_zeros n l t :
  length l = n → be_val l ≠ 0 →
  bytes_Compare (replicate n x00 ++ t) l = -1 ∧ bytes_Compare l (replicate n x00 ++ t) = 1.
Proof.
  revert n. induction l as [|b l IH]; intros n; simpl; [done|]. intros <- Hne. simpl.
  change (byte_val x00) with 0. pose proof (byte_val_range b). pose proof (be_val_bound l).
  destruct (Z.ltb_spec 0 (byte_val b)).
  - split; [done|]. rewrite (proj2 (Z.ltb_ge _ _)) by lia. done.
  - assert (byte_val b = 0) as E by lia. rewrite E in *. simpl. apply IH; [done|]. lia.
Qed.

Lemma route_cmp_key f a b :
  route_of f a → route_of f b → (route_cmp a b <? 0) = bool_decide (key_lt (net_key a) (net_key b)).
Proof.
  intros Ha Hb. destruct (route_shape _ _ Ha) as (Lma & x & Hx & -> & Sa), (route_shape _ _ Hb) as (Lmb & y & Hy & -> & Sb).
  unfold route_cmp. rewrite (IP_Equal_addr _ _ _ _ _ _ Hx Hy). unfold key_lt. simpl.
  pose proof (addr_ok_range _ _ (addr_of_ok _ _ _ Hx)). pose proof (addr_ok_range _ _ (addr_of_ok _ _ _ Hy)).
  case_bool_decide as E; simpl.
  - rewrite bytes_Compare_val by congruence. apply bool_decide_ext. destruct E as [_ ->]. lia.
  - assert (x ≠ y) as Hne by naive_solver. destruct Sa as [Ea|(-> & -> & Ea)], Sb as [Eb|(Ef & -> & Eb)]; rewrite Ea, Eb.
    + rewrite bytes_Compare_val by (by rewrite !length_ip_of). rewrite !be_val_ip_of by done. apply bool_decide_ext. lia.
    + subst f. destruct (bytes_Compare_zeros 4 (ip_of F4 x) (drop 4 v4InV6Prefix ++ replicate 4 x00)) as [_ E2];
        [apply length_ip_of|by rewrite be_val_ip_of|].
      change (v4InV6Prefix ++ replicate 4 x00) with (replicate 4 x00 ++ (drop 4 v4InV6Prefix ++ replicate 4 x00)).
      rewrite E2. symmetry. apply bool_decide_false. lia.
    + destruct (bytes_Compare_zeros 4 (ip_of F4 y) (drop 4 v4InV6Prefix ++ replicate 4 x00)) as [E1 _];
        [apply length_ip_of|rewrite be_val_ip_of by done; lia|].
      change (v4InV6Prefix ++ replicate 4 x00) with (replicate 4 x00 ++ (drop 4 v4InV6Prefix ++ replicate 4 x00)).
      rewrite E1. symmetry. apply bool_decide_true. lia.
    + done.
Qed.

Lemma route_eq_key f a b :
  route_of f a → route_of f b → route_eq a b = bool_decide (net_key a = net_key b).
Proof.
  intros Ha Hb. destruct (route_shape _ _ Ha) as (Lma & x & Hx & -> & _), (route_shape _ _ Hb) as (Lmb & y & Hy & -> & _).
  unfold route_eq. rewrite (IP_Equal_addr _ _ _ _ _ _ Hx Hy), <- bool_decide_and. apply bool_decide_ext. split.
  - by intros [[_ ->] ->].
  - intros [= -> E]. split; [done|]. apply be_val_inj; [congruence|done].
Qed.

(** ** Property *)

(** C34: The routes of an allocation.  Without a gateway there is none.  With a
    gateway, and configured routes that are networks of the gateway's family (as
    the validation of the pools demands): the configured networks, and the default
    route when the pool asks for it, in increasing order of address and mask, each
    once.  Networks of both families would not be ordered
    ([mixed_family_order_cyclic]). *)
Theorem routes_sorted_unique gw f x cfg nets dg :
  addr_of gw = Some (f, x) → parse_routes cfg = Ok nets → Forall (λ n, ∃ base ones, addr_ok f base ∧ n = net_of f base ones) nets →
  getRoutes [] cfg dg = Ok [] ∧
  ∃ routes, getRoutes gw cfg dg = Ok routes ∧
    StronglySorted key_lt (net_key <$> routes) ∧
    ∀ k, k ∈ net_key <$> routes ↔ k ∈ net_key <$> nets ∨ (dg = true ∧ k = (0, 0)).
Proof.
  intros Hgw Hp Hn. split; [done|]. unfold getRoutes. rewrite (is_nil_valid _ _ _ Hgw). rewrite Hp. cbn [rbind].
  set (l := if dg then nets ++ [createDefaultRoute gw] else nets). exists (sortAndDedupIPNets l). split; [done|].
  assert (Forall (route_of f) l) as Hl.
  { assert (Forall (route_of f) nets) as Hn'
      by (eapply Forall_impl; [exact Hn|]; intros n (base & ones & Hb & ->); by constructor).
    unfold l. destruct dg; [|done]. apply Forall_app. split; [done|]. repeat constructor. by eapply route_default. }
  assert (∀ k, k ∈ net_key <$> l ↔ k ∈ net_key <$> nets ∨ (dg = true ∧ k = (0, 0))) as Hk.
  { intros k. unfold l. destruct dg; [|naive_solver]. rewrite fmap_app, elem_of_app. simpl. rewrite list_elem_of_singleton.
    assert (net_key (createDefaultRoute gw) = (0, 0)) as ->; [|naive_solver].
    rewrite (createDefaultRoute_family _ _ _ Hgw). by destruct f; vm_compute. }
  unfold sortAndDedupIPNets. case_bool_decide as E.
  - rewrite E in *. split; [constructor|done].
  - destruct (sort_compact_spec net_key route_cmp route_eq (route_of f) (route_cmp_key f) (route_eq_key f) l Hl) as [H1 H2].
    split; [done|]. intros k. by rewrite H2.
Qed.

Lemma routes_sorted_unique_witness :
  ∃ routes, getRoutes (ip_of F4 5) ["192.168.1.0/24"; "10.0.0.0/8"; "192.168.1.0/24"; "10.0.0.0/16"] true = Ok routes ∧
    StronglySorted key_lt (net_key <$> routes) ∧
    (IPNet_String <$> routes) = ["0.0.0.0/0"; "10.0.0.0/8"; "10.0.0.0/16"; "192.168.1.0/24"].
Proof.
  destruct (routes_sorted_unique (ip_of F4 5) F4 5 ["192.168.1.0/24"; "10.0.0.0/8"; "192.168.1.0/24"; "10.0.0.0/16"]
    [net_of F4 (192 * 2 ^ 24 + 168 * 2 ^ 16 + 256) 24; net_of F4 (10 * 2 ^ 24) 8;
     net_of F4 (192 * 2 ^ 24 + 168 * 2 ^ 16 + 256) 24; net_of F4 (10 * 2 ^ 24) 16] true) as (_ & routes & E & Hs & _).
  - vm_compute. reflexivity.
  - vm_compute. reflexivity.
  - repeat constructor; eexists _, _; (split; [|reflexivity]); (split; [vm_compute; split; [discriminate|reflexivity]|discriminate]).
  - exists routes. split; [exact E|]. split; [exact Hs|]. vm_compute in E. injection E as <-. vm_compute. reflexivity.
Defined.

(** Routes of both families are not ordered consistently: the default route of
    IPv4 is greater than the IPv6 network [::/0], which is greater than the IPv4
    network [0.0.0.0/8], which is greater than the default route. *)
Example mixed_family_order_cyclic :
  let d := createDefaultRoute (ip_of F4 1) in
  let v6 := net_of F6 0 0 in
  let v4 := net_of F4 0 8 in
  route_cmp d v4 = -1 ∧ route_cmp v4 v6 = -1 ∧ route_cmp v6 d = -1.
Proof. vm_compute. done. Qed.
