(* ===== verification/Cni.v ===== *)
(** * The CNI plugin: [pkg/cni/types/types.go], [pkg/cni/plugin/plugin.go]

    The plugin reads its configuration (the JSON of the runtime, overlaid with a
    file and defaults), turns it into a request to the node daemon, and turns the
    response into the result for the runtime.  What other packages do is a
    parameter: the decoding of the JSON and of [CNI_ARGS], the file, the gRPC
    client.  [None] is a panic.  An error of the loader is the format string of
    its [fmt.Errorf] call.  Logging, and the printing of the result by the CNI
    library, are left out. *)

From Stdlib Require Import Strings.Ascii.
From S2P Require Import Prelude GoNet Cidr GoNetText PoolManager Handlers.

Definition DefaultConfDir : string := "/etc/cni/net.d/nv-ipam.d".
Definition DefaultDaemonSocket : string := "unix:///var/lib/cni/nv-ipam/daemon.sock".
Definition DefaultDaemonCallTimeoutSeconds : Z := 5.
Definition DefaultLogFile : string := "/var/log/nv-ipam-cni.log".
Definition DefaultLogLevel : string := "info".

(** ** Configuration *)

Record IPAMConf := mkIPAMConf {
  ForcePoolName : option bool;
  PoolName : string;
  ic_PoolType : string;
  DaemonSocket : string;
  DaemonCallTimeoutSeconds : Z;
  ConfDir : string;
  LogFile : string;
  LogLevel : string;
  (* internal fields *)
  ic_Pools : list string;
  md_PodName : string;
  md_PodNamespace : string;
  md_PodUID : string;
  RequestedIPs : list IP;
  ft_AllocateDefaultGateway : bool;
  ft_AllocateIPWithIndex : option Z;
}.

Record IPAMArgs := mkIPAMArgs {
  IPs : list string;
  PoolNames : list string;
  ar_PoolType : string;
  ar_AllocateDefaultGateway : bool;
  ar_AllocateIPWithIndex : option Z;
}.

Record NetConf := mkNetConf {
  nc_Name : string;
  CNIVersion : string;
  nc_IPAM : option IPAMConf;
  DeviceID : string;
  rc_IPs : list string;
  nc_Args : option (option IPAMArgs);
}.

Record IPAMEnvArgs := mkIPAMEnvArgs {
  env_IP : string;
  K8S_POD_NAME : string;
  K8S_POD_NAMESPACE : string;
  K8S_POD_UID : string;
}.

Record CmdArgs := mkCmdArgs { ContainerID : string; IfName : string; Args : string; StdinData : string }.

(** A configuration without the internal fields. *)
Definition plain_conf (force : option bool) (name type socket : string) (timeout : Z) (dir file level : string) : IPAMConf :=
  mkIPAMConf force name type socket timeout dir file level [] "" "" "" [] false None.

Definition or_empty (to from : string) : string := if bool_decide (to = "") then from else to.

Definition overlayConf (from to : IPAMConf) : IPAMConf :=
  mkIPAMConf
    (match ForcePoolName to with None => ForcePoolName from | Some b => Some b end)
    (or_empty (PoolName to) (PoolName from))
    (or_empty (ic_PoolType to) (ic_PoolType from))
    (or_empty (DaemonSocket to) (DaemonSocket from))
    (if DaemonCallTimeoutSeconds to =? 0 then DaemonCallTimeoutSeconds from else DaemonCallTimeoutSeconds to)
    (or_empty (ConfDir to) (ConfDir from))
    (or_empty (LogFile to) (LogFile from))
    (or_empty (LogLevel to) (LogLevel from))
    (ic_Pools to) (md_PodName to) (md_PodNamespace to) (md_PodUID to) (RequestedIPs to)
    (ft_AllocateDefaultGateway to) (ft_AllocateIPWithIndex to).

Definition defaultConf : IPAMConf :=
  plain_conf (Some false) "" PoolTypeIPPool DefaultDaemonSocket DefaultDaemonCallTimeoutSeconds
    DefaultConfDir DefaultLogFile DefaultLogLevel.

Definition parseIP (s : string) : IP :=
  ParseIP (match str_cut slash s with Some (before, _) => before | None => s end).

(** [strings.Split(s, ",")] *)
Definition comma : ascii := ",".
Fixpoint split_comma (s : string) : list string :=
  match s with
  | EmptyString => [""]
  | String c s =>
      let l := split_comma s in
      if bool_decide (c = comma) then "" :: l
      else match l with x :: l => String c x :: l | [] => [String c ""] end
  end.

(** [strings.ToLower], as far as the comparison with the two pool types sees it:
    ASCII letters, and U+0130 (bytes C4 B0), whose lower case is the ASCII letter
    i.  Every other character outside ASCII stays outside it. *)
Definition lower_char (c : ascii) : ascii :=
  let n := nat_of_ascii c in
  if bool_decide (65 ≤ n ≤ 90)%nat then ascii_of_nat (n + 32) else c.
Fixpoint ToLower (s : string) : string :=
  match s with
  | String "196" (String "176" s) => String "i" (ToLower s)
  | String c s => String (lower_char c) (ToLower s)
  | EmptyString => EmptyString
  end.

Definition set_PoolName (c : IPAMConf) (n : string) : IPAMConf :=
  mkIPAMConf (ForcePoolName c) n (ic_PoolType c) (DaemonSocket c) (DaemonCallTimeoutSeconds c) (ConfDir c) (LogFile c) (LogLevel c)
    (ic_Pools c) (md_PodName c) (md_PodNamespace c) (md_PodUID c) (RequestedIPs c) (ft_AllocateDefaultGateway c) (ft_AllocateIPWithIndex c).
Definition set_ConfDir (c : IPAMConf) (d : string) : IPAMConf :=
  mkIPAMConf (ForcePoolName c) (PoolName c) (ic_PoolType c) (DaemonSocket c) (DaemonCallTimeoutSeconds c) d (LogFile c) (LogLevel c)
    (ic_Pools c) (md_PodName c) (md_PodNamespace c) (md_PodUID c) (RequestedIPs c) (ft_AllocateDefaultGateway c) (ft_AllocateIPWithIndex c).
Definition set_RequestedIPs (c : IPAMConf) (l : list IP) : IPAMConf :=
  mkIPAMConf (ForcePoolName c) (PoolName c) (ic_PoolType c) (DaemonSocket c) (DaemonCallTimeoutSeconds c) (ConfDir c) (LogFile c) (LogLevel c)
    (ic_Pools c) (md_PodName c) (md_PodNamespace c) (md_PodUID c) l (ft_AllocateDefaultGateway c) (ft_AllocateIPWithIndex c).
Definition set_K8SMetadata (c : IPAMConf) (name ns uid : string) : IPAMConf :=
  mkIPAMConf (ForcePoolName c) (PoolName c) (ic_PoolType c) (DaemonSocket c) (DaemonCallTimeoutSeconds c) (ConfDir c) (LogFile c) (LogLevel c)
    (ic_Pools c) name ns uid (RequestedIPs c) (ft_AllocateDefaultGateway c) (ft_AllocateIPWithIndex c).
Definition set_Features (c : IPAMConf) (gw : bool) (index : option Z) : IPAMConf :=
  mkIPAMConf (ForcePoolName c) (PoolName c) (ic_PoolType c) (DaemonSocket c) (DaemonCallTimeoutSeconds c) (ConfDir c) (LogFile c) (LogLevel c)
    (ic_Pools c) (md_PodName c) (md_PodNamespace c) (md_PodUID c) (RequestedIPs c) gw index.
Definition set_Pools (c : IPAMConf) (pools : list string) (type : string) : IPAMConf :=
  mkIPAMConf (ForcePoolName c) (PoolName c) type (DaemonSocket c) (DaemonCallTimeoutSeconds c) (ConfDir c) (LogFile c) (LogLevel c)
    pools (md_PodName c) (md_PodNamespace c) (md_PodUID c) (RequestedIPs c) (ft_AllocateDefaultGateway c) (ft_AllocateIPWithIndex c).

(** [n.Args != nil && n.Args.ArgsCNI != nil] *)
Definition args_cni (n : NetConf) : option IPAMArgs := nc_Args n ≫= id.

(** [None]: [n.Args.ArgsCNI] is [nil] and is dereferenced. *)
Definition getPools (n : NetConf) (ipam : IPAMConf) : option (result string (list string)) :=
  names ← match nc_Args n with
          | None => Some []
          | Some None => None
          | Some (Some a) => Some (PoolNames a)
          end;
  Some (
    let! pools :=
      if bool_decide (names ≠ []) then Ok names
      else if bool_decide (PoolName ipam = "") then Err "no pool provided"
      else Ok (split_comma (PoolName ipam)) in
    if bool_decide (2 < length pools)%nat then Err "pool field can't contain more then two entries"
    else if existsb (λ p, bool_decide (p = "")) pools then Err "pool field has invalid format"
    else Ok pools)%ipam.

Definition getPoolType (n : NetConf) (ipam : IPAMConf) : option (result string string) :=
  type ← match nc_Args n with
         | None => Some (ic_PoolType ipam)
         | Some None => None
         | Some (Some a) => Some (if bool_decide (ar_PoolType a ≠ "") then ar_PoolType a else ic_PoolType ipam)
         end;
  let poolType := ToLower type in
  Some (if bool_decide (poolType ≠ PoolTypeIPPool) && bool_decide (poolType ≠ PoolTypeCIDRPool)
        then Err "unsupported poolType %s, supported values: ippool, cidrpool"
        else Ok poolType).

(** The addresses of the list, all of which must parse. *)
Fixpoint parse_ips (l : list string) : option (list IP) :=
  match l with
  | [] => Some []
  | v :: l => let ip := parseIP v in if is_nil ip then None else l ← parse_ips l; Some (ip :: l)
  end.

Inductive conf_file := ConfMissing | ConfError (err : string) | ConfRead (c : IPAMConf).

Section loader.
(** [json.Unmarshal] of the configuration ([Some None]: the JSON [null], which sets
    the pointer to [nil]), the file [nv-ipam.conf] of a directory, and
    [types.LoadArgs] of [CNI_ARGS]. *)
Context (Unmarshal : string → option (option NetConf)) (loadFromConfFile : string → conf_file)
  (LoadArgs : string → result string IPAMEnvArgs).

Definition loadEnvCNIArgs (ipam : IPAMConf) (args : CmdArgs) : result string IPAMConf :=
  (let! envArgs := LoadArgs (Args args) in
   if bool_decide (K8S_POD_NAME envArgs = "") then Err "CNI_ARGS: K8S_POD_NAME is not provided by container runtime"
   else if bool_decide (K8S_POD_NAMESPACE envArgs = "")
   then Err "CNI_ARGS: K8S_POD_NAMESPACE is not provided by container runtime"
   else
     let ipam := set_K8SMetadata ipam (K8S_POD_NAME envArgs) (K8S_POD_NAMESPACE envArgs) (K8S_POD_UID envArgs) in
     if bool_decide (RequestedIPs ipam ≠ []) || bool_decide (env_IP envArgs = "") then Ok ipam
     else
       let parsedIP := parseIP (env_IP envArgs) in
       if is_nil parsedIP then Err "CNI_ARGS: IP argument contains invalid IP address"
       else Ok (set_RequestedIPs ipam (RequestedIPs ipam ++ [parsedIP])))%ipam.

(** The features of the arguments, and their checks. *)
Definition loadFeatures (n : NetConf) (ipam : IPAMConf) : result string IPAMConf :=
  (let! ipam :=
     match args_cni n with
     | None => Ok ipam
     | Some a =>
         if match ar_AllocateIPWithIndex a with Some i => i <? 0 | None => false end
         then Err "allocateIPWithIndex can't be negative"
         else Ok (set_Features ipam (ar_AllocateDefaultGateway a) (ar_AllocateIPWithIndex a))
     end in
   if ft_AllocateDefaultGateway ipam && bool_decide (RequestedIPs ipam ≠ [])
   then Err "allocateDefaultGateway can't be used together with static IP request"
   else if ft_AllocateDefaultGateway ipam && bool_decide (is_Some (ft_AllocateIPWithIndex ipam))
   then Err "allocateDefaultGateway can't be used together allocateIPWithIndex"
   else if bool_decide (is_Some (ft_AllocateIPWithIndex ipam)) && bool_decide (RequestedIPs ipam ≠ [])
   then Err "allocateIPWithIndex can't be used together with static IP request"
   else Ok ipam)%ipam.

(** The settings of the runtime, overlaid with the file and the defaults. *)
Definition loadSettings (ipam : IPAMConf) : result string IPAMConf :=
  let ipam := if bool_decide (ConfDir ipam = "") then set_ConfDir ipam DefaultConfDir else ipam in
  (let! ipam :=
     match loadFromConfFile (ConfDir ipam) with
     | ConfRead fileConf => Ok (overlayConf fileConf ipam)
     | ConfMissing => Ok ipam
     | ConfError err => Err "failed to read/parse config file(%s). %w"
     end in
   Ok (overlayConf defaultConf ipam))%ipam.

Definition LoadConf (args : CmdArgs) : option (result string (NetConf * IPAMConf)) :=
  match Unmarshal (StdinData args) with
  | None => Some (Err "failed to unmarshal configurations. %w")
  | Some None => None
  | Some (Some n) =>
      match nc_IPAM n with
      | None => Some (Err "IPAM config missing 'ipam' key")
      | Some ipam =>
          match loadSettings ipam with
          | Err err => Some (Err err)
          | Ok ipam =>
              force ← ForcePoolName ipam;
              let ipam := if negb force && bool_decide (PoolName ipam = "") then set_PoolName ipam (nc_Name n) else ipam in
              let requestedIPs :=
                if bool_decide (rc_IPs n ≠ []) then rc_IPs n
                else match args_cni n with Some a => IPs a | None => [] end in
              match parse_ips requestedIPs with
              | None => Some (Err "static IP request contains invalid IP address")
              | Some ips =>
                  match (let! ipam := loadEnvCNIArgs (set_RequestedIPs ipam (RequestedIPs ipam ++ ips)) args in
                         loadFeatures n ipam)%ipam with
                  | Err err => Some (Err err)
                  | Ok ipam =>
                      pools ← getPools n ipam;
                      match pools with
                      | Err err => Some (Err err)
                      | Ok pools =>
                          type ← getPoolType n ipam;
                          Some (let! type := type in Ok (n, set_Pools ipam pools type))%ipam
                      end
                  end
              end
          end
      end
  end.
End loader.

(** ** The plugin *)

Definition cniConfToGRPCReq (conf : NetConf) (ipam : IPAMConf) (args : CmdArgs) : IPAMParameters :=
  mkIPAMParameters (ic_Pools ipam) (ContainerID args) (IfName args)
    (Some (mkIPAMMetadata (md_PodName ipam) (md_PodNamespace ipam) (md_PodUID ipam) (DeviceID conf)))
    (if bool_decide (ic_PoolType ipam = PoolTypeCIDRPool) then POOL_TYPE_CIDRPOOL else POOL_TYPE_IPPOOL)
    (IP_String <$> RequestedIPs ipam)
    (Some (mkIPAMFeatures (ft_AllocateDefaultGateway ipam) (ft_AllocateIPWithIndex ipam))).

Record cni_ip := mkCniIP { ci_Address : IPNet; ci_Gateway : IP }.
Record cni_route := mkCniRoute { cr_Dst : IPNet; cr_GW : IP }.
Record Result := mkResult { res_IPs : list cni_ip; res_Routes : list cni_route }.

Definition unexpected (msg : string) : string := "unexpected response from IPAM daemon: " +:+ msg.

Fixpoint result_routes (gw : IP) (routes : list string) : result string (list cni_route) :=
  match routes with
  | [] => Ok []
  | dest :: routes =>
      match ParseCIDR dest with
      | None => Err (unexpected ("unexpected Route destination format, received value: " +:+ dest +:+
                  ", error: invalid CIDR address: " +:+ dest))
      | Some (_, ipNet) => (let! rest := result_routes gw routes in Ok (mkCniRoute ipNet gw :: rest))%ipam
      end
  end.

(** The address and the routes of one allocation. *)
Definition result_alloc (alloc : AllocationInfo) : result string (cni_ip * list cni_route) :=
  if bool_decide (ai_Ip alloc = "") then Err (unexpected "IP can't be empty")
  else
    match ParseCIDR (ai_Ip alloc) with
    | None => Err (unexpected ("unexpected IP address format, received value: " +:+ ai_Ip alloc))
    | Some (ipAddr, netAddr) =>
        let address := mkIPNet ipAddr (net_Mask netAddr) in
        if bool_decide (ai_Gateway alloc = "") then Ok (mkCniIP address [], [])
        else
          let gwIP := ParseIP (ai_Gateway alloc) in
          if is_nil gwIP
          then Err (unexpected ("unexpected Gateway address format, received value: " +:+ ai_Gateway alloc))
          else (let! routes := result_routes gwIP (ai_Routes alloc) in Ok (mkCniIP address gwIP, routes))%ipam
    end.

Fixpoint grpcRespToResult (resp : list AllocationInfo) : result string Result :=
  match resp with
  | [] => Ok (mkResult [] [])
  | alloc :: resp =>
      (let! a := result_alloc alloc in
       let! rest := grpcRespToResult resp in
       Ok (mkResult (a.1 :: res_IPs rest) (a.2 ++ res_Routes rest)))%ipam
  end.

Section commands.
Context (Unmarshal : string → option (option NetConf)) (loadFromConfFile : string → conf_file)
  (LoadArgs : string → result string IPAMEnvArgs).
(** [NewGRPCClientFunc]: the error of connecting to a socket, if any. *)
Context (NewGRPCClientFunc : string → option string).

Definition prepareCMD (args : CmdArgs) : option (result string IPAMParameters) :=
  conf ← LoadConf Unmarshal loadFromConfFile LoadArgs args;
  Some match conf with
       | Err err => Err ("failed to load config. " +:+ err)
       | Ok (conf, ipam) =>
           match NewGRPCClientFunc (DaemonSocket ipam) with
           | Some err => Err ("failed to connect to IPAM daemon: " +:+ err)
           | None => Ok (cniConfToGRPCReq conf ipam args)
           end
       end.

(** The methods of the client: the response, or the error of the call. *)
Definition CmdAdd (Allocate : IPAMParameters → result string (list AllocationInfo)) (args : CmdArgs) :
    option (result string Result) :=
  cmd ← prepareCMD args;
  Some match cmd with
       | Err err => Err ("command preparation failed: " +:+ err)
       | Ok reqParams =>
           match Allocate reqParams with
           | Err err => Err ("grpc call failed: " +:+ err)
           | Ok resp => grpcRespToResult resp
           end
       end.

Definition CmdDel (Deallocate : IPAMParameters → result string unit) (args : CmdArgs) : option (result string unit) :=
  cmd ← prepareCMD args;
  Some match cmd with
       | Err err => Err err
       | Ok reqParams =>
           match Deallocate reqParams with Err err => Err ("grpc call failed: " +:+ err) | Ok _ => Ok tt end
       end.

Definition CmdCheck (IsAllocated : IPAMParameters → result string unit) (args : CmdArgs) : option (result string unit) :=
  cmd ← prepareCMD args;
  Some match cmd with
       | Err err => Err err
       | Ok reqParams =>
           match IsAllocated reqParams with Err err => Err ("grpc call failed: " +:+ err) | Ok _ => Ok tt end
       end.
End commands.
