(* ===== verification/HandlersSpec.v ===== *)
(** * What the handlers of the node daemon do

    Every handler is one session of the store: the operations it makes form a run
    ([SessionRuns]), an error drops them, a success commits them.  [granted] says
    what an allocation in one pool is; the properties relate the response of
    [Allocate] to the data of the store before and after, and the three handlers
    to each other. *)

From Stdlib Require Import Strings.Byte.
From S2P Require Import Prelude GoNet Cidr GoNetText ApiTypes Exclusions Validate CtrlIPPool PoolManager NodeControllers.
From S2P Require Import NodeTypes Store SessionRuns RangeSet NodeAllocator Handlers.

(** ** The operations of a handler *)

Definition handler_op (now : Clock) (cd : Z) (t : Clock) (o : op) : Prop :=
  t = now ∧
  match o with
  | OpReserve _ _ _ _ a => ip_text_ok a
  | OpSetLast _ ip => ip_text_ok ip
  | OpRelease _ _ _ c => c = cd
  | OpRemovePool _ => False
  end.

Lemma handler_op_texts_ok now cd t o : handler_op now cd t o → op_texts_ok o.
Proof. intros [_ H]. by destruct o. Qed.

(** The reservation of [ip] for an interface. *)
Definition reserved_in (now : Clock) (s s' : session) (pk id ifn : string) (meta : ReservationMetadata) (ip : IP) : Prop :=
  Entries (pool_of s pk) !! getKey id ifn = None ∧ session_taken s pk ip = false ∧
  Entries (pool_of s' pk) =
    <[getKey id ifn := mkReservation id ifn ip (set_CreateTime meta (clock_text now)) None]> (Entries (pool_of s pk)).

Definition others_kept (s s' : session) (pk : string) : Prop := ∀ pk', pk' ≠ pk → pool_of s' pk' = pool_of s pk'.

Lemma Reserve_reserved now s pk id ifn meta ip s' :
  Reserve now s pk id ifn meta ip = Some (s', None) →
  reserved_in now s s' pk id ifn meta ip ∧ others_kept s s' pk.
Proof.
  unfold Reserve, checkClosed. case_match; [done|]. fold (pool_of s pk). fold (session_taken s pk ip).
  case_bool_decide as Hk; [done|]. destruct (session_taken s pk ip) eqn:Ht; [done|]. intros [= <-].
  apply eq_None_not_Some in Hk. split; [split_and!|]; [done..| |].
  - by rewrite pool_of_update, decide_True.
  - intros pk' Hne. by rewrite pool_of_update, decide_False.
Qed.

Lemma SetLast_reserved now s s1 s2 pk id ifn meta ip last :
  reserved_in now s s1 pk id ifn meta ip ∧ others_kept s s1 pk → SetLastReservedIP s1 pk last = Some s2 →
  reserved_in now s s2 pk id ifn meta ip ∧ others_kept s s2 pk.
Proof.
  intros ((H1 & H2 & H3) & H4). unfold SetLastReservedIP, checkClosed. case_match; [done|]. intros [= <-].
  split; [split_and!|]; [done..| |].
  - by rewrite pool_of_update, decide_True.
  - intros pk' Hne. rewrite pool_of_update, decide_False by done. auto.
Qed.

(** ** The allocator on a session of the store *)

Section one_range.
Context (now : Clock) (cd : Z) (a : allocator (S := session)) (f : family) (base ones lo hi : Z) (gw : IP).
Context (id ifn : string) (meta : ReservationMetadata).
Hypothesis Hrange : rangeSet a = [mkRange (ip_of f lo) (ip_of f hi) (net_of f base ones) gw].
Hypothesis Hnet : net_ok f base ones.
Hypothesis Hlohi : base ≤ lo ≤ hi ∧ hi < base + net_size f ones.
Hypothesis Hgw : gw = [] ∨ ∃ g y, addr_ok g y ∧ gw = ip_of g y.
Hypothesis Hopen : isClosed (a_session a) = false.
Hypothesis Htexts : root_texts_ok (tmpData (a_session a)).

Abbreviation granted_ip ip s' c := (c = mkIPConfig (mkIPNet ip (mask_loop (fam_len f) ones)) gw ∧
  reserved_in now (a_session a) s' (poolKey a) id ifn meta ip ∧ others_kept (a_session a) s' (poolKey a)) (only parsing).

Lemma one_range_canonical :
  canonical_set [mkRspec f base ones f lo f hi] (rangeSet a) f.
Proof using Hrange Hnet Hlohi Hgw.
  rewrite Hrange. split; [|by repeat constructor|by repeat constructor|done].
  constructor; [|constructor]. split; simpl; [|lia]. split; simpl; (done || lia).
Qed.

(** Any address: the first one that is free, or the exact reason. *)
Lemma allocate_any :
  ∃ s' res, Allocate (H := session_ops now) a id ifn meta [] = Some (s', res) ∧
    runs_with (handler_op now cd) (a_session a) s' ∧
    match res with
    | Ok c => ∃ x, lo ≤ x ≤ hi ∧ granted_ip (ip_of f x) s' c ∧
        excluded a (ip_of f x) = false ∧ (gw = [] ∨ IP_Equal (ip_of f x) gw = false)
    | Err ErrNoFreeAddresses => ∀ x, lo ≤ x ≤ hi →
        (gw ≠ [] ∧ IP_Equal (ip_of f x) gw = true) ∨ excluded a (ip_of f x) = true ∨
        session_taken (a_session a) (poolKey a) (ip_of f x) = true
    | Err _ => res = Err (ErrReserve ErrReservationAlreadyExist) ∧
               is_Some (Entries (pool_of (a_session a) (poolKey a)) !! getKey id ifn)
    end.
Proof using Hrange Hnet Hlohi Hgw Hopen.
  pose proof one_range_canonical as [Hr Hf Hap Hne].
  assert (∀ q j x, ring [mkRspec f base ones f lo f hi] q = Some (j, x) → j = 0%nat ∧ lo ≤ x ≤ hi) as Hring.
  { intros q j x. unfold ring. simpl. unfold rs_size. simpl.
    pose proof (Z.mod_pos_bound q (hi - lo + 1 + 0) ltac:(lia)). destruct (Z.ltb_spec (q mod (hi - lo + 1 + 0)) (hi - lo + 1)); [|done].
    intros [= <- <-]. lia. }
  destruct (Allocate_spec (H := session_ops now) (H0 := session_view) (HS := session_laws now) _ _ _ Hr Hf Hap Hne a eq_refl Hopen id ifn meta)
    as (s & Hs & Hout).
  destruct Hout as [[-> Hp]|(d & j & x & r & Hd & E & Hrj & Hp & Hg & Hex & [[Hh ->]|(Hh & Ht & s' & Er & ->)])].
  - eexists _, _. split_and!; [done..|]. intros x Hx.
    destruct (ring_shift _ _ _ s (x - lo) one_range_canonical (proj1 Hs)) as (e & He & Eq).
    assert (ring [mkRspec f base ones f lo f hi] (x - lo) = Some (0%nat, x)) as Ex.
    { unfold ring. simpl. unfold rs_size. simpl. rewrite Z.mod_small by lia.
      rewrite (proj2 (Z.ltb_lt _ _)) by lia. do 2 f_equal. lia. }
    destruct (Hp e He) as [Hg|(j & x' & E & Hb)].
    + left. unfold gw_at in Hg. rewrite Eq, Ex, Hrange in Hg. simpl in Hg. unfold is_gateway in Hg. simpl in Hg.
      apply andb_true_iff in Hg as [Hg1 Hg2]. split; [|done]. intros ->. done.
    + rewrite Eq, Ex in E. injection E as <- <-. destruct Hb as [|[_ ?]]; [by right; left|by right; right].
  - eexists _, _. split_and!; [done..|]. split; [done|]. exact Hh.
  - destruct (Hring _ _ _ E) as [-> Hx]. rewrite Hrange in Hrj. simpl in Hrj. injection Hrj as <-. simpl in *.
    eexists _, _. split_and!; [done| |].
    + eapply (runs_with_op _ now (OpReserve (poolKey a) id ifn meta (ip_of f x))).
      * split; [done|]. right. rewrite addr_of_ip_of; [by eexists|]. eapply net_ok_addr; [done|]. lia.
      * simpl. by rewrite Er.
    + exists x. split_and!; try done; try lia; [by eapply Reserve_reserved..|].
      unfold gw_at in Hg. rewrite E, Hrange in Hg. simpl in Hg. unfold is_gateway in Hg. simpl in Hg.
      apply andb_false_iff in Hg as [Hg|Hg]; [left; by boolify; unfold is_nil in Hg; boolify|by right].
Qed.

(** A given address. *)
Lemma allocate_given ip :
  is_Some (addr_of ip) →
  ∃ s' res, Allocate (H := session_ops now) a id ifn meta ip = Some (s', res) ∧
    runs_with (handler_op now cd) (a_session a) s' ∧
    match res with
    | Ok c => Contains (net_of f base ones) ip = true ∧ granted_ip ip s' c
    | Err ErrNoFreeAddresses => False
    | Err (ErrNoRangeForStaticIP _) => Contains (net_of f base ones) ip = false
    | Err (ErrReserve _) => False
    | Err (ErrStaticIP _ ErrReservationAlreadyExist) =>
        is_Some (Entries (pool_of (a_session a) (poolKey a)) !! getKey id ifn)
    | Err (ErrStaticIP _ ErrIPAlreadyReserved) => session_taken (a_session a) (poolKey a) ip = true
    end.
Proof using Hrange Hopen Htexts.
  intros [ad Hip]. unfold Allocate. destruct ad as [g y]. rewrite (is_nil_valid _ _ _ Hip). cbn [negb].
  unfold allocateStaticIP. rewrite Hrange. simpl List.find. destruct (Contains (net_of f base ones) ip) eqn:Hc.
  2: { eexists _, _. split_and!; done. }
  pose proof (session_laws now) as L.
  destruct (s_Last_open (H := session_ops now) (H0 := session_view) (a_session a) (poolKey a) Hopen) as [last El].
  simpl in El. simpl. rewrite El. cbn [mbind option_bind].
  destruct (s_Reserve_exact (H := session_ops now) (H0 := session_view) (a_session a) (poolKey a) id ifn meta ip Hopen)
    as (s1 & e & Er & He1 & He2 & He3 & He4). simpl in *. rewrite Er. cbn [mbind option_bind].
  destruct e as [e|].
  - rewrite (He3 ltac:(done)). eexists _, _. split_and!; [done..|]. destruct e; [by apply He1|by apply He2].
  - destruct (He4 eq_refl) as (Ho1 & _).
    destruct (s_SetLast_open (H := session_ops now) (H0 := session_view) s1 (poolKey a) last Ho1) as (s2 & E2 & _).
    simpl in E2. rewrite E2. cbn [mbind option_bind]. eexists _, _. split_and!; [done| |].
    + etrans.
      * apply (runs_with_op _ now (OpReserve (poolKey a) id ifn meta ip) _ s1); [|by simpl; rewrite Er].
        split; [done|]. right. by rewrite Hip.
      * apply (runs_with_op _ now (OpSetLast (poolKey a) last) _ s2); [|done]. split; [done|].
        unfold GetLastReservedIP, checkClosed in El. rewrite Hopen in El. injection El as <-.
        apply (pool_of_texts_ok _ _ Htexts).
    + split; [done|]. split; [done|]. eapply SetLast_reserved; [by eapply Reserve_reserved|done].
Qed.
End one_range.

(** ** Pool configurations *)

(** The configuration names the range [lo, hi] of the network [base/ones]. *)
Record cfg_ok (p : Pool) (f : family) (base ones lo hi : Z) : Prop := {
  co_net : net_ok f base ones;
  co_subnet : ∃ ip, ParseCIDR (p_Subnet p) = Some (ip, net_of f base ones);
  co_start : addr_of (ParseIP (p_StartIP p)) = Some (f, lo);
  co_end : addr_of (ParseIP (p_EndIP p)) = Some (f, hi);
  co_range : base ≤ lo ≤ hi ∧ hi < base + net_size f ones;
}.

(** The subnet, when it can be read, is not an IPv6 network with IPv4-mapped addresses. *)
Definition cfg_net (p : Pool) : Prop :=
  ∀ ip n, ParseCIDR (p_Subnet p) = Some (ip, n) → ∃ f base ones, net_ok f base ones ∧ n = net_of f base ones.

(** The configuration names no range of a network. *)
Definition cfg_bad (p : Pool) : Prop := ∀ f base ones lo hi, ¬ cfg_ok p f base ones lo hi.

Lemma ParseIP_text_ok s : ip_text_ok (ParseIP s).
Proof.
  destruct (decide (ParseIP s = [])) as [->|Hne]; [by left|]. right.
  destruct (ParseIP_valid _ Hne) as (f & x & -> & _). by eexists.
Qed.

Lemma mask_loop_inj f ones ones' :
  0 ≤ ones ≤ fam_bits f → 0 ≤ ones' ≤ fam_bits f →
  mask_loop (fam_len f) ones = mask_loop (fam_len f) ones' → ones = ones'.
Proof.
  intros H H' E%(f_equal Mask_Size). rewrite !Mask_Size_mask in E by done. congruence.
Qed.

Lemma net_of_inj f f' b b' ones ones' :
  net_ok f b ones → net_ok f' b' ones' → net_of f b ones = net_of f' b' ones' → f' = f ∧ b' = b ∧ ones' = ones.
Proof.
  intros Hn Hn' E. injection E as Eb Em.
  apply ip_of_inj in Eb as [-> ->]; [|by eapply net_ok_base..]. split_and!; [done..|].
  symmetry. eapply mask_loop_inj; [apply Hn|apply Hn'|done].
Qed.

Lemma net_of_not_nil f base ones :
  bool_decide (net_IP (net_of f base ones) = []) || bool_decide (net_Mask (net_of f base ones) = []) = false.
Proof.
  apply orb_false_iff. split; apply bool_decide_eq_false; intros E; apply (f_equal length) in E; simpl in E.
  - rewrite length_ip_of in E. by destruct f.
  - rewrite length_mask_loop in E. by destruct f.
Qed.

Lemma pool_range_spec p : cfg_net p →
  match newRangeSetAndDependenciesForPoolCfg p with
  | Err _ => cfg_bad p
  | Ok (rs, start, subnet, gw) =>
      start = ParseIP (p_StartIP p) ∧ gw = ParseIP (p_Gateway p) ∧
      ∃ f base ones, net_ok f base ones ∧ subnet = net_of f base ones ∧
        ((∃ lo hi, cfg_ok p f base ones lo hi ∧
            RangeSet_Canonicalize rs = Some (Ok [mkRange (ip_of f lo) (ip_of f hi) (net_of f base ones) (NormalizeIP gw)])) ∨
         cfg_bad p ∧ ∃ e, RangeSet_Canonicalize rs = Some (Err e))
  end.
Proof.
  intros Hp. unfold newRangeSetAndDependenciesForPoolCfg.
  destruct (is_nil (ParseIP (p_StartIP p))) eqn:E1; [intros ????? [_ _ Hs _ _]; by rewrite (is_nil_valid _ _ _ Hs) in E1|].
  destruct (is_nil (ParseIP (p_EndIP p))) eqn:E2; [intros ????? [_ _ _ He _]; by rewrite (is_nil_valid _ _ _ He) in E2|].
  destruct (ParseCIDR (p_Subnet p)) as [[ip n]|] eqn:En; [|intros ????? [_ [? Hs] _ _ _]; congruence].
  destruct (Hp _ _ En) as (f & base & ones & Hn & ->). rewrite net_of_not_nil. split_and!; [done..|]. exists f, base, ones. split_and!; [done..|].
  unfold is_nil in E1, E2. boolify. destruct (ParseIP_valid _ E1) as (fs & lo & Hs & _), (ParseIP_valid _ E2) as (fe & hi & He & _).
  pose proof (Range_Canonicalize_given f base ones (ip_of f base) (ParseIP (p_Gateway p)) _ _ _ _ _ _ Hn
    (addr_of_ip_of _ _ (net_ok_base _ _ _ Hn)) (ParseIP_text_ok _) Hs He) as HR. cbv zeta in HR.
  fold (net_of f base ones) in HR. rewrite RangeSet_Canonicalize_one. case_decide as Hd.
  - destruct Hd as (-> & -> & ? & ?). rewrite HR. left. exists lo, hi. split; [|done].
    split; [done|by eexists|done|done|lia].
  - destruct HR as [e ->]. right. split; [|by eexists]. intros f' base' ones' lo' hi' [Hn' [? Hs'] Hlo Hhi Hr].
    rewrite En in Hs'. assert (net_of f base ones = net_of f' base' ones') as Hnet by congruence.
    apply net_of_inj in Hnet as (-> & -> & ->); [|done..]. rewrite Hs in Hlo. rewrite He in Hhi. simplify_eq. apply Hd.
    split_and!; try done; lia.
Qed.

(** The exclusions of a configuration, as the node reads them. *)
Section exclusions.
Context (f : family) (base ones : Z) (l : list ExclusionRange) (s : RangeSet).
Hypothesis Hnet : net_ok f base ones.
Hypothesis Hcan : RangeSet_Canonicalize (exclusion_ranges (net_of f base ones) l) = Some (Ok s).

Lemma exclusion_range_is e a b :
  e ∈ l → er_denotes f (er_of e) a b →
  ∃ r, r ∈ s ∧ range_is (mkRspec f base ones f a f b) r.
Proof using Hnet Hcan.
  intros He (Ha & Hb & Hab). apply RangeSet_Canonicalize_each in Hcan as Heach.
  destruct (Forall2_elem_l _ _ _ (mkRange (ParseIP (xr_StartIP e)) (ParseIP (xr_EndIP e)) (net_of f base ones) []) Heach)
    as (r & Hr & Hrc); [apply list_elem_of_fmap; by exists e|].
  exists r. split; [done|]. simpl in Hrc.
  pose proof (Range_Canonicalize_spec (mkRspec f base ones f a f b) (mkRange (ParseIP (xr_StartIP e)) (ParseIP (xr_EndIP e)) (net_of f base ones) [])) as Hsp.
  destruct (decide (accepts _)) in Hsp.
  - destruct Hsp as (r' & Hr' & Hri & _); [|congruence].
    split; simpl; try done; [apply addr_of_ip_of; by eapply net_ok_base|by left].
  - destruct Hsp as [? Hsp]; [|congruence].
    split; simpl; try done; [apply addr_of_ip_of; by eapply net_ok_base|by left].
Qed.

Lemma exclusions_contain x :
  addr_ok f x → cfg_excluded f l x → RangeSet_Contains s (ip_of f x) = true.
Proof using Hnet Hcan.
  intros Hx (r & a & b & Hr & Hd & Hab). apply list_elem_of_fmap in Hr as (e & -> & He).
  destruct (exclusion_range_is e a b He Hd) as (r & Hr & [Hri _]).
  rewrite (RangeFor_find _ _ f x) by (by apply addr_of_ip_of). apply existsb_exists. exists r.
  split; [by apply list_elem_of_In|]. apply (Range_Contains_spec _ _ _ _ _ _ _ Hri). exists x.
  rewrite addr_of_ip_of by done. done.
Qed.

Lemma exclusions_exact x :
  Forall (λ e, er_ok f (er_of e)) l → addr_ok f x → RangeSet_Contains s (ip_of f x) = true → cfg_excluded f l x.
Proof using Hnet Hcan.
  intros Hl Hx. rewrite (RangeFor_find _ _ f x) by (by apply addr_of_ip_of). intros Hc.
  apply existsb_exists in Hc as (r & Hr%list_elem_of_In & Hc). apply RangeSet_Canonicalize_each in Hcan as Heach.
  destruct (Forall2_elem_r _ _ _ _ Heach Hr) as (r0 & Hr0 & Hrc). apply list_elem_of_fmap in Hr0 as (e & -> & He).
  rewrite Forall_forall in Hl. destruct (Hl _ He) as (a & b & Hd). pose proof Hd as (Ha & Hb & Hab). simpl in Ha, Hb.
  pose proof (Range_Canonicalize_given f base ones (ip_of f base) [] _ _ _ _ _ _ Hnet
    (addr_of_ip_of _ _ (net_ok_base _ _ _ Hnet)) (or_introl eq_refl) Ha Hb) as HR. cbv zeta in HR.
  simpl in Hrc. unfold net_of in Hrc. case_decide as Hok; [|destruct HR as [? HR]; congruence].
  rewrite Hrc in HR. injection HR as ->. destruct Hok as (_ & _ & ? & ?).
  assert (range_of f base ones a b (mkRange (ip_of f a) (ip_of f b) (net_of f base ones) (NormalizeIP []))) as Hro
    by (split; simpl; try done; try lia; by left).
  destruct (proj1 (Range_Contains_spec _ _ _ _ _ _ _ Hro) Hc) as (y & Ey & Hy).
  rewrite addr_of_ip_of in Ey by done. injection Ey as <-.
  exists (er_of e), a, b. split_and!; try done; try lia. by apply list_elem_of_fmap_2.
Qed.
End exclusions.

(** ** An allocation in one pool *)

Definition wants_index (params : IPAMParameters) : option Z := Features params ≫= AllocateIpWithIndex.
Definition wants_gateway (params : IPAMParameters) : bool :=
  match Features params with Some ft => AllocateDefaultGateway ft | None => false end.
Definition requested (params : IPAMParameters) : list IP := ParseIP <$> RequestedIps params.

(** The address the request asks for in the pool; [[]]: any. *)
Definition asked (params : IPAMParameters) (p : Pool) (f : family) (base ones lo hi : Z) (ip : IP) : Prop :=
  match wants_index params with
  | Some i => 0 ≤ i ∧ lo + i ≤ hi ∧ ip = ip_of f (lo + i) ∧ IP_Equal ip (ParseIP (p_Gateway p)) = false
  | None =>
      if wants_gateway params then ip = ParseIP (p_Gateway p) ∧ ip ≠ []
      else ip = default [] (List.find (λ ip, Contains (net_of f base ones) ip) (requested params))
  end.

(** The request asks for an address the pool cannot name: the gateway of a pool
    without one, or an index outside of the node's range or of the gateway. *)
Definition unmeetable (params : IPAMParameters) (p : Pool) (f : family) (lo hi : Z) : Prop :=
  (wants_gateway params = true ∧ ParseIP (p_Gateway p) = []) ∨
  ∃ i, wants_index params = Some i ∧
    (i < 0 ∨ hi < lo + i ∨ IP_Equal (ip_of f (lo + i)) (ParseIP (p_Gateway p)) = true).

Lemma cfg_range_is p f base ones lo hi :
  cfg_ok p f base ones lo hi →
  Forall2 range_is [mkRspec f base ones f lo f hi]
    [mkRange (ip_of f lo) (ip_of f hi) (net_of f base ones) (NormalizeIP (ParseIP (p_Gateway p)))].
Proof.
  intros [Hn _ _ _ Hr]. constructor; [|constructor]. split; simpl; [|lia].
  split; simpl; try done; try lia. by eapply gateway_normal; [apply ParseIP_text_ok|].
Qed.

#[local] Arguments NextIPWithOffset : simpl never.
#[local] Arguments RangeSet_Contains : simpl never.

Lemma selectStaticIP_spec params p f base ones lo hi pn pt :
  cfg_ok p f base ones lo hi →
  match selectStaticIP params (requested params) pn pt
          [mkRange (ip_of f lo) (ip_of f hi) (net_of f base ones) (NormalizeIP (ParseIP (p_Gateway p)))]
          (ParseIP (p_StartIP p)) (net_of f base ones) (ParseIP (p_Gateway p)) with
  | Err e => st_code e = InvalidArgument ∧ unmeetable params p f lo hi
  | Ok ip => ip_text_ok ip ∧ asked params p f base ones lo hi ip
  end.
Proof.
  intros Hp. unfold selectStaticIP, asked, unmeetable, wants_index, wants_gateway.
  set (sel := default [] _).
  assert (ip_text_ok sel) as Hsel.
  { unfold sel. destruct (List.find _ _) as [ip|] eqn:E; [|by left].
    apply find_some in E as [Hin%list_elem_of_In _]. apply list_elem_of_fmap in Hin as (t & -> & _). apply ParseIP_text_ok. }
  destruct (Features params) as [[gwf idx]|]; simpl; [|done].
  destruct (if gwf then _ else _) as [ip0|e] eqn:E0; simpl.
  2: { destruct gwf; [|done]. destruct (is_nil (ParseIP (p_Gateway p))) eqn:En; [|done]. injection E0 as <-.
       split; [done|]. left. unfold is_nil in En. by boolify. }
  destruct idx as [i|].
  2: { destruct gwf; [|by injection E0 as <-]. destruct (is_nil (ParseIP (p_Gateway p))) eqn:En; [done|].
       injection E0 as <-. split; [apply ParseIP_text_ok|]. split; [done|]. unfold is_nil in En. by boolify. }
  clear E0. pose proof (co_net _ _ _ _ _ _ Hp) as Hn. pose proof (co_range _ _ _ _ _ _ Hp) as Hr.
  destruct (Z.ltb_spec i 0) as [Hneg|Hpos]; [rewrite NextIPWithOffset_neg by done; split; [done|]; right; exists i; by auto|].
  rewrite (NextIPWithOffset_valid _ _ _ _ (co_start _ _ _ _ _ _ Hp) Hpos).
  destruct (bool_decide_reflect (lo + i < 2 ^ fam_bits f)) as [Hb|Hb].
  2: { split; [done|]. right. exists i. split; [done|]. right; left.
       pose proof (addr_ok_range _ _ (net_ok_addr _ _ _ hi Hn ltac:(lia))). lia. }
  destruct (IP_Equal (ip_of f (lo + i)) (ParseIP (p_Gateway p))) eqn:Eg; [split; [done|]; right; exists i; by auto|].
  destruct (RangeSet_Contains _ _) eqn:Hc; simpl.
  2: { split; [done|]. right. exists i. split; [done|]. right; left. apply Z.nle_gt. intros Hle.
       apply not_true_iff_false in Hc. apply Hc, (RangeSet_Contains_spec _ _ _ (cfg_range_is _ _ _ _ _ _ Hp)).
       exists (mkRspec f base ones f lo f hi), (lo + i). split; [apply list_elem_of_here|]. simpl.
       rewrite addr_of_ip_of by (eapply net_ok_addr; [done|lia]). split; [done|lia]. }
  destruct (proj1 (RangeSet_Contains_spec _ _ _ (cfg_range_is _ _ _ _ _ _ Hp)) Hc)
    as (j & x & Hj%list_elem_of_singleton & Hx & Hb2). subst j. simpl in *.
  assert (x = lo + i) as ->.
  { apply (addr_of_ip_of_inv f); [|done]. pose proof (addr_ok_range _ _ (net_ok_base _ _ _ Hn)). lia. }
  split; [right; by rewrite Hx|]. split_and!; (done || lia).
Qed.

Section in_pool.
Context (Pool_String : Pool → string) (now : Clock) (h : Handlers) (params : IPAMParameters).

Definition pool_key (pn : string) : string := GetPoolKey pn (poolTypeAsString (pa_PoolType params)).
Definition res_key : string := getKey (CniContainerid params) (CniIfname params).
Definition pool_meta (p : Pool) : ReservationMetadata :=
  setAllocMetadata (mkMetadata (clock_text now) "" "" "" "" (Pool_String p)) (pa_Metadata params).

(** The allocation [a] in the pool [pn], which leads from [s] to [s']: the
    address [ip] is the one the request asks for, or else an address of the
    node's range that is neither excluded nor the gateway; it was free, and is
    now reserved for the interface. *)
Inductive granted (s s' : session) (pn : string) (a : PoolAlloc) : Prop :=
| granted_intro p f base ones lo hi want ip x :
    GetPoolByKey (poolConfReader h) (pool_key pn) = Some p → cfg_ok p f base ones lo hi →
    asked params p f base ones lo hi want →
    addr_of ip = Some (f, x) → base ≤ x < base + net_size f ones →
    (if is_nil want
     then lo ≤ x ≤ hi ∧ ¬ cfg_excluded f (p_Exclusions p) x ∧ IP_Equal ip (ParseIP (p_Gateway p)) = false
     else ip = want) →
    pal_Pool a = pn →
    Address (pal_IPConfig a) = mkIPNet ip (mask_loop (fam_len f) ones) →
    ic_Gateway (pal_IPConfig a) = (if wants_gateway params then [] else NormalizeIP (ParseIP (p_Gateway p))) →
    getRoutes (ic_Gateway (pal_IPConfig a)) (p_Routes p) (p_DefaultGateway p) = Ok (pal_Routes a) →
    reserved_in now s s' (pool_key pn) (CniContainerid params) (CniIfname params) (pool_meta p) ip →
    granted s s' pn a.

(** What the code of an error says about the pool and the session. *)
Definition refused (s : session) (pn : string) (err : status) : Prop :=
  match st_code err with
  | NotFound => GetPoolByKey (poolConfReader h) (pool_key pn) = None
  | AlreadyExists =>
      is_Some (GetPoolByKey (poolConfReader h) (pool_key pn)) ∧ is_Some (Entries (pool_of s (pool_key pn)) !! res_key)
  | ResourceExhausted =>
      ∃ p f base ones lo hi want,
        GetPoolByKey (poolConfReader h) (pool_key pn) = Some p ∧ cfg_ok p f base ones lo hi ∧
        asked params p f base ones lo hi want ∧
        if is_nil want
        then Forall (λ e, er_ok f (er_of e)) (p_Exclusions p) → ∀ x, lo ≤ x ≤ hi →
               IP_Equal (ip_of f x) (ParseIP (p_Gateway p)) = true ∨ cfg_excluded f (p_Exclusions p) x ∨
               session_taken s (pool_key pn) (ip_of f x) = true
        else session_taken s (pool_key pn) want = true
  | InvalidArgument =>
      ∃ p f base ones lo hi, GetPoolByKey (poolConfReader h) (pool_key pn) = Some p ∧ cfg_ok p f base ones lo hi ∧
        (unmeetable params p f lo hi ∨
         wants_gateway params = false ∧ ParseIP (p_Gateway p) ≠ [] ∧ ∃ dst, dst ∈ p_Routes p ∧ ParseCIDR dst = None)
  | Internal =>
      ∃ p, GetPoolByKey (poolConfReader h) (pool_key pn) = Some p ∧
        (cfg_bad p ∨
         ∃ f base ones lo hi, cfg_ok p f base ones lo hi ∧
           ((∃ e, RangeSet_Canonicalize (exclusion_ranges (net_of f base ones) (p_Exclusions p)) = Some (Err e)) ∨
            ∃ want, asked params p f base ones lo hi want ∧ want ≠ [] ∧ Contains (net_of f base ones) want = false))
  | Canceled => False
  end.

Definition cfg_nets : Prop := ∀ k p, GetPoolByKey (poolConfReader h) k = Some p → cfg_net p.

Lemma IP_Equal_gateway f x g :
  addr_ok f x → ip_text_ok g → IP_Equal (ip_of f x) (NormalizeIP g) = IP_Equal (ip_of f x) g.
Proof.
  intros Hx Hg. rewrite <- (IP_Equal_normalize (ip_of f x) g); [|right; rewrite addr_of_ip_of; [by eexists|done]|done].
  by rewrite (NormalizeIP_valid (ip_of f x) f x) by (by apply addr_of_ip_of).
Qed.

Lemma IP_Equal_ip_of_nil f x : IP_Equal (ip_of f x) [] = false.
Proof. unfold IP_Equal. rewrite length_ip_of. by destruct f. Qed.

Lemma getRoutes_code gw routes dg e :
  getRoutes gw routes dg = Err e → st_code e = InvalidArgument ∧ gw ≠ [] ∧ ∃ dst, dst ∈ routes ∧ ParseCIDR dst = None.
Proof.
  unfold getRoutes. destruct (is_nil gw) eqn:Eg; [done|]. assert (gw ≠ []) as Hgw by (unfold is_nil in Eg; by boolify).
  destruct (parse_routes routes) as [rs|e'] eqn:E; simpl; [done|]. intros [= <-].
  assert (st_code e' = InvalidArgument ∧ ∃ dst, dst ∈ routes ∧ ParseCIDR dst = None) as [? ?]; [|done].
  revert e' E. induction routes as [|r routes IH]; intros e'; simpl; [done|].
  destruct (ParseCIDR r) as [[ip n]|] eqn:Er.
  2: { intros [= <-]. split; [done|]. exists r. split; [apply list_elem_of_here|done]. }
  destruct (parse_routes routes) as [rs|e]; simpl; [done|]. intros [= <-].
  destruct (IH e eq_refl) as (? & dst & ? & ?). split; [done|]. exists dst. split; [by right|done].
Qed.

Lemma exclusions_total f base ones l :
  net_ok f base ones →
  is_Some (if (0 <? length (exclusion_ranges (net_of f base ones) l))%nat
           then RangeSet_Canonicalize (exclusion_ranges (net_of f base ones) l)
           else Some (Ok (exclusion_ranges (net_of f base ones) l))).
Proof.
  intros Hn. case_match; [|by eexists]. apply RangeSet_Canonicalize_total, Forall_forall.
  intros r Hr. apply list_elem_of_fmap in Hr as (e & -> & _). by exists f, base, ones.
Qed.

Lemma exclusions_read f base ones l ex x :
  net_ok f base ones → addr_ok f x →
  (if (0 <? length (exclusion_ranges (net_of f base ones) l))%nat
   then RangeSet_Canonicalize (exclusion_ranges (net_of f base ones) l)
   else Some (Ok (exclusion_ranges (net_of f base ones) l))) = Some (Ok ex) →
  (cfg_excluded f l x → RangeSet_Contains ex (ip_of f x) = true) ∧
  (Forall (λ e, er_ok f (er_of e)) l → RangeSet_Contains ex (ip_of f x) = true → cfg_excluded f l x).
Proof.
  intros Hn Hx. destruct l as [|e l].
  - simpl. intros [= <-]. split; [by intros (? & ? & ? & ?%not_elem_of_nil & _)|]. intros _ Hc.
    rewrite (RangeFor_find _ _ f x) in Hc by (by apply addr_of_ip_of). done.
  - intros E. split; [by eapply exclusions_contain|]. intros. by eapply exclusions_exact.
Qed.

(** The allocator of the pool, for the address [want]. *)
Lemma allocate_in_range cd s pn p f base ones lo hi want ex :
  cfg_ok p f base ones lo hi → isClosed s = false → root_texts_ok (tmpData s) → ip_text_ok want →
  asked params p f base ones lo hi want → GetPoolByKey (poolConfReader h) (pool_key pn) = Some p →
  (if (0 <? length (exclusion_ranges (net_of f base ones) (p_Exclusions p)))%nat
   then RangeSet_Canonicalize (exclusion_ranges (net_of f base ones) (p_Exclusions p))
   else Some (Ok (exclusion_ranges (net_of f base ones) (p_Exclusions p)))) = Some (Ok ex) →
  ∃ s' res, Allocate (H := session_ops now)
      (mkAllocator [mkRange (ip_of f lo) (ip_of f hi) (net_of f base ones) (NormalizeIP (ParseIP (p_Gateway p)))]
         s (pool_key pn) (Some ex))
      (CniContainerid params) (CniIfname params) (pool_meta p) want = Some (s', res) ∧
    runs_with (handler_op now cd) s s' ∧
    match res with
    | Ok c => ∃ ip x, addr_of ip = Some (f, x) ∧ base ≤ x < base + net_size f ones ∧
        c = mkIPConfig (mkIPNet ip (mask_loop (fam_len f) ones)) (NormalizeIP (ParseIP (p_Gateway p))) ∧
        reserved_in now s s' (pool_key pn) (CniContainerid params) (CniIfname params) (pool_meta p) ip ∧
        others_kept s s' (pool_key pn) ∧
        if is_nil want
        then lo ≤ x ≤ hi ∧ ¬ cfg_excluded f (p_Exclusions p) x ∧ IP_Equal ip (ParseIP (p_Gateway p)) = false
        else ip = want
    | Err err => refused s pn (specificError err pn (poolTypeAsString (pa_PoolType params)))
    end.
Proof.
  intros Hok Hop Htx Hwt Hasked Ep Eex. pose proof (co_net _ _ _ _ _ _ Hok) as Hn. pose proof (co_range _ _ _ _ _ _ Hok) as Hr.
  pose proof (gateway_normal _ _ (ParseIP_text_ok (p_Gateway p)) eq_refl) as Hgwn.
  pose proof (ParseIP_text_ok (p_Gateway p)) as Hgt.
  set (gw := ParseIP (p_Gateway p)) in *. set (a := mkAllocator _ _ _ _).
  destruct Hwt as [->|Hwv].
  - destruct (allocate_any now cd a f base ones lo hi (NormalizeIP gw) (CniContainerid params) (CniIfname params) (pool_meta p)
      eq_refl Hn Hr Hgwn Hop) as (s' & res & -> & Hruns & Hres). exists s', res. split_and!; [done..|].
    destruct res as [c|[]].
    + destruct Hres as (x & Hx & (-> & Hrsv & Hoth) & Hex & Hg). assert (addr_ok f x) as Hxo by (eapply net_ok_addr; [done|lia]).
      exists (ip_of f x), x. rewrite addr_of_ip_of by done. change (is_nil []) with true. cbv iota. split_and!; try done; try lia.
      * intros Hc. destruct (exclusions_read _ _ _ _ _ x Hn Hxo Eex) as [He _]. change (RangeSet_Contains ex (ip_of f x) = false) in Hex. by rewrite He in Hex.
      * destruct Hg as [Hg|Hg]; [|by rewrite <- IP_Equal_gateway]. rewrite <- IP_Equal_gateway, Hg by done. apply IP_Equal_ip_of_nil.
    + unfold refused, specificError. simpl. exists p, f, base, ones, lo, hi, []. split_and!; try done.
      intros Hl x Hx. assert (addr_ok f x) as Hxo by (eapply net_ok_addr; [done|lia]).
      destruct (Hres x Hx) as [[_ Hg]|[Hex|Ht]]; [left; by rewrite <- IP_Equal_gateway|right; left|by right; right].
      destruct (exclusions_read _ _ _ _ _ x Hn Hxo Eex) as [_ He]. by apply He.
    + destruct Hres as [[= ->] He]. split; [by rewrite Ep|exact He].
    + by destruct Hres as [? _].
    + by destruct Hres as [? _].
  - destruct (allocate_given now cd a f base ones lo hi (NormalizeIP gw) (CniContainerid params) (CniIfname params) (pool_meta p)
      eq_refl Hop Htx want Hwv) as (s' & res & -> & Hruns & Hres). exists s', res. split_and!; [done..|].
    destruct Hwv as [[g x] Hwx]. rewrite (is_nil_valid _ _ _ Hwx). destruct res as [c|[]].
    + destruct Hres as (Hc & -> & Hrsv & Hoth). rewrite (Contains_net_of _ _ _ _ _ _ Hn Hwx) in Hc. boolify. destruct Hc as [-> Hx].
      exists want, x. split_and!; (done || lia).
    + done.
    + done.
    + destruct e; unfold refused, specificError; simpl; [split; [by rewrite Ep|exact Hres]|].
      exists p, f, base, ones, lo, hi, want. rewrite (is_nil_valid _ _ _ Hwx). done.
    + exists p. split; [done|]. right. exists f, base, ones, lo, hi. split; [done|]. right. exists want. split_and!; try done.
      intros ->. done.
Qed.

Lemma allocateInPool_spec cd s pn :
  cfg_nets → isClosed s = false → root_texts_ok (tmpData s) →
  ∃ s' res, allocateInPool Pool_String now h pn s params (requested params) = Some (s', res) ∧
    runs_with (handler_op now cd) s s' ∧
    match res with Ok a => granted s s' pn a ∧ others_kept s s' (pool_key pn) | Err err => refused s pn err end.
Proof.
  intros Hcfg Hop Htx. unfold allocateInPool. fold (pool_key pn).
  destruct (GetPoolByKey (poolConfReader h) (pool_key pn)) as [p|] eqn:Ep.
  2: { eexists _, _. split_and!; [done..|]. done. }
  pose proof (pool_range_spec p (Hcfg _ _ Ep)) as Hrs.
  destruct (newRangeSetAndDependenciesForPoolCfg p) as [[[[rs start] subnet] gw]|e].
  2: { eexists _, _. split_and!; [done..|]. exists p. split; [done|]. by left. }
  destruct Hrs as (-> & -> & f & base & ones & Hn & -> & [(lo & hi & Hok & Ecan)|(Hbad & e & Ecan)]); rewrite Ecan; cbn [mbind option_bind].
  2: { eexists _, _. split_and!; [done..|]. exists p. split; [done|]. by left. }
  pose proof (selectStaticIP_spec params p f base ones lo hi pn (poolTypeAsString (pa_PoolType params)) Hok) as Hsel.
  destruct (selectStaticIP _ _ _ _ _ _ _ _) as [want|e].
  2: { destruct Hsel as [Hsel Hun]. eexists _, _. split_and!; [done..|]. unfold refused. rewrite Hsel.
       exists p, f, base, ones, lo, hi. split_and!; [done..|]. by left. }
  destruct Hsel as [Hwt Hasked].
  destruct (exclusions_total f base ones (p_Exclusions p) Hn) as [excl Eex]. rewrite Eex. cbn [mbind option_bind].
  destruct excl as [ex|e].
  2: { eexists _, _. split_and!; [done..|]. exists p. split; [done|]. right. exists f, base, ones, lo, hi. split; [done|].
       left. exists e. by destruct (0 <? _)%nat. }
  set (a := mkAllocator _ _ _ _). fold (pool_meta p).
  destruct (allocate_in_range cd s pn p f base ones lo hi want ex Hok Hop Htx Hwt Hasked Ep Eex)
    as (s' & res & Eal & Hruns & Hres). fold a in Eal.
  rewrite Eal. cbn [mbind option_bind]. destruct res as [c|err].
  2: { eexists _, _. split_and!; done. }
  destruct Hres as (ip & x & Hip & Hx & -> & Hrsv & Hoth & Hwant).
  set (c := match Features params with Some ft => _ | None => _ end).
  assert (Address c = mkIPNet ip (mask_loop (fam_len f) ones) ∧
          ic_Gateway c = if wants_gateway params then [] else NormalizeIP (ParseIP (p_Gateway p))) as [Hc1 Hc2].
  { unfold c, wants_gateway. destruct (Features params) as [[[] ?]|]; done. }
  eexists _, _. split_and!; [done..|].
  destruct (getRoutes (ic_Gateway c) (p_Routes p) (p_DefaultGateway p)) as [routes|e] eqn:Ert; cbn [rbind].
  - split; [|done]. by eapply granted_intro.
  - destruct (getRoutes_code _ _ _ _ Ert) as (Hcode & Hne & Hdst). unfold refused. rewrite Hcode.
    exists p, f, base, ones, lo, hi. split_and!; [done..|]. right. rewrite Hc2 in Hne.
    destruct (wants_gateway params); [done|]. split_and!; try done. intros E. by rewrite E in Hne.
Qed.

(** ** All pools of the request *)

Lemma granted_eq s s' t t' pn a :
  granted s s' pn a → pool_of t (pool_key pn) = pool_of s (pool_key pn) →
  Entries (pool_of t' (pool_key pn)) = Entries (pool_of s' (pool_key pn)) → granted t t' pn a.
Proof.
  intros [] E E'. eapply granted_intro; try done. unfold reserved_in, session_taken in *. rewrite E, E'. done.
Qed.

Lemma granted_key s s' pn a :
  granted s s' pn a →
  Entries (pool_of s (pool_key pn)) !! res_key = None ∧ is_Some (Entries (pool_of s' (pool_key pn)) !! res_key).
Proof.
  intros [p f base ones lo hi want ip x _ _ _ _ _ _ _ _ _ _ (H1 & _ & H3)]. split; [done|]. rewrite H3. unfold res_key.
  rewrite lookup_insert_eq. by eexists.
Qed.

Definition untouched (s s' : session) (pools : list string) : Prop :=
  ∀ pk, (∀ pn, pn ∈ pools → pk ≠ pool_key pn) → pool_of s' pk = pool_of s pk.

(** The pools [pools] have been granted one after the other. *)
Definition all_granted (s s' : session) (pools : list string) (allocs : list PoolAlloc) : Prop :=
  Forall2 (granted s s') pools allocs ∧ untouched s s' pools.

Lemma all_granted_nil s : all_granted s s [] [].
Proof. split; [constructor|]. by intros pk _. Qed.

Lemma all_granted_cons s s1 s2 pn a pools allocs :
  granted s s1 pn a → others_kept s s1 (pool_key pn) → all_granted s1 s2 pools allocs →
  all_granted s s2 (pn :: pools) (a :: allocs).
Proof.
  intros Hg Hoth [Hall Hut].
  assert (∀ pn', pn' ∈ pools → pool_key pn ≠ pool_key pn') as Hne.
  { intros pn' Hin E. destruct (Forall2_elem_l _ _ _ _ Hall Hin) as (a' & _ & Hg').
    apply granted_key in Hg as [_ [? Hk]]. apply granted_key in Hg' as [Hk' _]. rewrite E in Hk. congruence. }
  split; [constructor|].
  - eapply granted_eq; [done..|]. by rewrite Hut.
  - eapply Forall2_impl; [exact Hall|]. intros pn' a' Hg'. destruct (decide (pool_key pn' = pool_key pn)) as [E|E].
    + apply granted_key in Hg' as [Hk' _]. apply granted_key in Hg as [_ [? Hk]]. rewrite E in Hk'. congruence.
    + eapply granted_eq; [done| |done]. symmetry. by apply Hoth.
  - intros pk Hpk. rewrite Hut; [apply Hoth, Hpk, list_elem_of_here|]. intros pn' Hin. apply Hpk. by right.
Qed.

(** The first pool that could not be granted. *)
Definition refused_after (s : session) (pools : list string) (err : status) : Prop :=
  ∃ pre pn post s1 allocs, pools = pre ++ pn :: post ∧ all_granted s s1 pre allocs ∧ refused s1 pn err.

Lemma allocate_pools_spec cd pools s :
  cfg_nets → isClosed s = false → root_texts_ok (tmpData s) →
  ∃ s' res, allocate_pools Pool_String now h params (requested params) pools s = Some (s', res) ∧
    runs_with (handler_op now cd) s s' ∧
    match res with
    | Ok allocs => all_granted s s' pools allocs
    | Err err => refused_after s pools err
    end.
Proof.
  intros Hcfg. revert s. induction pools as [|pn pools IH]; intros s Hop Htx; simpl.
  { eexists _, _. split_and!; [done..|]. apply all_granted_nil. }
  destruct (allocateInPool_spec cd s pn Hcfg Hop Htx) as (s1 & res1 & -> & Hr1 & Hres1). cbn [mbind option_bind].
  destruct res1 as [a|err].
  2: { eexists _, _. split_and!; [done..|]. exists [], pn, pools, s, []. split_and!; [done|apply all_granted_nil|done]. }
  destruct Hres1 as [Hg Hoth].
  destruct (IH s1) as (s2 & res2 & -> & Hr2 & Hres2); [by eapply runs_with_open|
    eapply runs_with_texts_ok; [|done..]; apply handler_op_texts_ok|]. cbn [mbind option_bind].
  eexists _, _. split_and!; [done|by etrans|]. destruct res2 as [allocs|err]; cbn [rbind].
  - by eapply all_granted_cons.
  - destruct Hres2 as (pre & pn' & post & s3 & allocs & -> & Hall & Href).
    exists (pn :: pre), pn', post, s3, (a :: allocs). split_and!; [done|by eapply all_granted_cons|done].
Qed.

(** All pools have been granted, but none with an address the request names. *)
Definition left_over (s s' : session) : Prop :=
  ∃ allocs ip, all_granted s s' (pa_Pools params) allocs ∧ ip ∈ requested params ∧
    ∀ a, a ∈ allocs → IP_Equal (net_IP (Address (pal_IPConfig a))) ip = false.

(** The whole request. *)
Lemma allocate_spec cd s :
  cfg_nets → isClosed s = false → root_texts_ok (tmpData s) →
  ∃ s' res, allocate Pool_String now h params s = Some (s', res) ∧ runs_with (handler_op now cd) s s' ∧
    match res with
    | Ok allocs => all_granted s s' (pa_Pools params) allocs ∧
        ∀ ip, ip ∈ requested params → ∃ a, a ∈ allocs ∧ IP_Equal (net_IP (Address (pal_IPConfig a))) ip = true
    | Err err => refused_after s (pa_Pools params) err ∨ (st_code err = InvalidArgument ∧ left_over s s')
    end.
Proof.
  intros Hcfg Hop Htx. unfold allocate. fold (requested params).
  destruct (allocate_pools_spec cd (pa_Pools params) s Hcfg Hop Htx) as (s' & res & -> & Hr & Hres).
  cbn [mbind option_bind]. eexists _, _. split_and!; [done..|]. destruct res as [allocs|err]; cbn [rbind]; [|by left].
  destruct (List.find _ _) as [ip|] eqn:E.
  { apply find_some in E as [Hin%list_elem_of_In Hno]. right. split; [done|]. exists allocs, ip. split_and!; [done..|].
    intros a Ha. apply negb_true_iff in Hno. apply not_true_iff_false. intros Heq. apply not_true_iff_false in Hno. apply Hno.
    apply existsb_exists. exists a. split; [by apply list_elem_of_In|done]. }
  split; [done|].
  intros ip Hin%list_elem_of_In. pose proof (find_none _ _ E _ Hin) as Hf. apply negb_false_iff in Hf.
  apply existsb_exists in Hf as (a & Ha%list_elem_of_In & Heq). eauto.
Qed.
End in_pool.

(** ** A handler is a session *)

Section frame.
Context `{RootCodecLaws}.

(** Why a handler answers with an error. *)
Definition handler_failure {A} (e : Env) (req : option IPAMParameters) (st : store) (err : status)
    (Q : IPAMParameters → session → session → result status A → Prop) : Prop :=
  validateReq req = Some err ∨
  validateReq req = None ∧
    (st_code err = Internal ∧ open_refused (env_readable e) st ∨
     st_code err = Canceled ∧ env_canceled e = true ∨
     env_canceled e = false ∧ ∃ params r s', req = Some params ∧ loaded st r ∧
       (Q (setDefaultsToParams params) (newStore r) s' (Err err) ∨
        st_code err = Internal ∧ commit_refused (env_writable e) s' ∧
        ∃ a, Q (setDefaultsToParams params) (newStore r) s' (Ok a))).

Lemma with_session_spec {A} (P : Clock → op → Prop)
    (work : IPAMParameters → session → option (session * result status A))
    (Q : IPAMParameters → session → session → result status A → Prop) e st req :
  machine_inv (st, None) → (∀ now o, P now o → op_texts_ok o) →
  (∀ params s, isClosed s = false → root_texts_ok (tmpData s) →
     ∃ s' res, work params s = Some (s', res) ∧ runs_with P s s' ∧ Q params s s' res) →
  ∃ st' res, with_session e st req work = Some (st', res) ∧ rtc step (st, None) (st', None) ∧ locked st' = false ∧
    match res with
    | Err err => same_data st st' ∧ handler_failure e req st err Q
    | Ok a => ∃ params r s' r', req = Some params ∧ validateReq req = None ∧ loaded st r ∧
        runs_with P (newStore r) s' ∧ Q (setDefaultsToParams params) (newStore r) s' (Ok a) ∧
        persistedData st' = Some r' ∧ Pools r' = Pools (tmpData s')
    end.
Proof.
  intros Hinv HP Hwork. assert (locked st = false) as Hlk by (by destruct Hinv as [? _]).
  unfold with_session. destruct (validateReq req) as [err|] eqn:Hv.
  { eexists _, _. split_and!; [done..|]. split; [by left|by left]. }
  destruct req as [params|]; [|done]. unfold openStore.
  destruct (Open_total (env_readable e) st Hlk) as [[err Ho]|(r & Hl & Ho)]; rewrite Ho; cbn [mbind option_bind].
  { eexists _, _. split_and!; [done..|]. split; [by left|]. right. split; [done|]. left. split; [done|]. by eapply Open_error. }
  unfold checkReqIsCanceled. destruct (env_canceled e) eqn:Hcan; unfold closeSession.
  { destruct (session_cancelled P st (env_readable e) r (newStore r) Hl Ho) as (m' & s' & -> & Hst & Hl' & Hs); [done|].
    cbn [mbind option_bind]. eexists _, _. split_and!; [done..|]. split; [done|]. right. split; [done|]. right; by left. }
  assert (root_texts_ok r) as Hr by (by eapply stored_texts_ok, loaded_inv).
  destruct (Hwork (setDefaultsToParams params) (newStore r)) as (s' & res & -> & Hrun & HQ); [done|by rewrite newStore_tmpData|].
  cbn [mbind option_bind]. destruct res as [a|err].
  - destruct (session_committed P st (env_readable e) (env_writable e) r s' Hl Ho HP Hr Hrun) as (m' & s1 & err & Ecom & Hst & Hl' & Hs).
    rewrite Ecom. cbn [mbind option_bind]. destruct err as [err|]; cbn [mbind option_bind].
    + eexists _, _. split_and!; [done..|]. split; [done|]. right. split; [done|]. right; right. split; [done|].
      exists params, r, s'. split_and!; [done..|]. right. split; [done|]. split; [by eapply Commit_error|]. by exists a.
    + destruct Hs as (r' & Hr' & Hp). eexists _, _. split_and!; [done..|]. exists params, r, s', r'. split_and!; done.
  - destruct (session_cancelled P st (env_readable e) r s' Hl Ho Hrun) as (m' & s1 & -> & Hst & Hl' & Hs).
    cbn [mbind option_bind]. eexists _, _. split_and!; [done..|]. split; [done|]. right. split; [done|]. right; right.
    split; [done|]. exists params, r, s'. split_and!; [done..|]. by left.
Qed.
End frame.

(** ** Configurations that change *)

Lemma cfg_nets_update m cd key p :
  cfg_nets (mkHandlers m cd) → cfg_net p → cfg_nets (mkHandlers (UpdatePool m key p) cd).
Proof.
  intros Hm Hp k q. simpl. destruct (decide (k = key)) as [->|Hne].
  - rewrite GetPoolByKey_UpdatePool. by intros [= <-].
  - rewrite GetPoolByKey_UpdatePool_ne by done. apply Hm.
Qed.

Lemma cfg_nets_remove m cd key : cfg_nets (mkHandlers m cd) → cfg_nets (mkHandlers (PoolManager.RemovePool m key) cd).
Proof.
  intros Hm k q. simpl. destruct (decide (k = key)) as [->|Hne].
  - by rewrite GetPoolByKey_RemovePool.
  - rewrite GetPoolByKey_RemovePool_ne by done. apply Hm.
Qed.

Lemma cfg_nets_new cd : cfg_nets (mkHandlers NewManager cd).
Proof. intros k p Hk. by apply (lookup_empty_Some k p) in Hk. Qed.

(** ** Deallocate and IsAllocated *)

Section release.
Context (now : Clock) (h : Handlers) (params : IPAMParameters).

Definition found (s : session) (pn : string) : bool :=
  match Entries (pool_of s (pool_key params pn)) !! res_key params with
  | Some r => negb (IsReleased r)
  | None => false
  end.

Lemma GetReservationByID_found s pn :
  isClosed s = false →
  ∃ res, GetReservationByID s (pool_key params pn) (CniContainerid params) (CniIfname params) = Some res ∧
    (is_Some res ↔ found s pn = true).
Proof.
  intros Ho. unfold GetReservationByID, checkClosed, found, res_key. rewrite Ho. fold (pool_of s (pool_key params pn)).
  destruct (Entries _ !! _) as [r|]; [destruct (IsReleased r)|]; (eexists; split; [done|]); (split; [intros []|]; done || by eexists).
Qed.

Lemma isAllocated_pools_spec pools s :
  isClosed s = false →
  ∃ res, isAllocated_pools params pools s = Some (s, res) ∧
    match res with
    | Ok _ => forallb (found s) pools = true
    | Err err => st_code err = NotFound ∧ forallb (found s) pools = false
    end.
Proof.
  intros Ho. induction pools as [|pn pools IH]; simpl; [by eexists|]. fold (pool_key params pn).
  destruct (GetReservationByID_found s pn Ho) as (res & -> & Hres). cbn [mbind option_bind].
  destruct res as [r|].
  - rewrite (proj1 Hres) by (by eexists). simpl. exact IH.
  - assert (found s pn = false) as -> by (apply not_true_iff_false; intros Hf%Hres; by destruct Hf).
    eexists. split; [done|]. done.
Qed.

(** What one release leaves. *)
Lemma release_spec s pn :
  isClosed s = false →
  ∃ s' b, ReleaseReservationByID now s (pool_key params pn) (CniContainerid params) (CniIfname params) (releaseCooldown h) =
            Some (s', b) ∧ runs_with (handler_op now (releaseCooldown h)) s s' ∧ found s' pn = false ∧
    others_kept s s' (pool_key params pn) ∧
    ∀ k, k ≠ res_key params → Entries (pool_of s' (pool_key params pn)) !! k = Entries (pool_of s (pool_key params pn)) !! k.
Proof.
  intros Ho. destruct (ReleaseReservationByID now s _ _ _ _) as [[s' b]|] eqn:E.
  2: { unfold ReleaseReservationByID, checkClosed in E. by rewrite Ho in E. }
  exists s', b. split; [done|]. split.
  { eapply (runs_with_op _ now (OpRelease _ _ _ _)); [|simpl; by rewrite E]. done. }
  apply Release_cases in E. cbv zeta in E. unfold found, others_kept. fold (res_key params) in E.
  destruct (Entries _ !! _) as [r|] eqn:Er; [|destruct E as [-> _]; by rewrite Er].
  destruct (_ || _); [|destruct (IsReleased r) eqn:Hrel]; destruct E as [-> _].
  - rewrite !pool_of_update, decide_True by done. simpl. rewrite lookup_delete_eq. split_and!; [done| |].
    + intros pk' Hne. by rewrite pool_of_update, decide_False.
    + intros k Hk. by rewrite lookup_delete_ne.
  - rewrite Er, Hrel. done.
  - rewrite !pool_of_update, decide_True by done. simpl. rewrite lookup_insert_eq. split_and!; [done| |].
    + intros pk' Hne. by rewrite pool_of_update, decide_False.
    + intros k Hk. by rewrite lookup_insert_ne.
Qed.

Lemma deallocate_pools_spec pools s :
  isClosed s = false →
  ∃ s', deallocate_pools now h params pools s = Some (s', Ok tt) ∧
    runs_with (handler_op now (releaseCooldown h)) s s' ∧
    (∀ pn, pn ∈ pools → found s' pn = false) ∧ (∀ pn, found s pn = false → found s' pn = false) ∧
    untouched params s s' pools ∧
    ∀ pk k, k ≠ res_key params → Entries (pool_of s' pk) !! k = Entries (pool_of s pk) !! k.
Proof.
  revert s. induction pools as [|pn pools IH]; intros s Ho; simpl.
  { exists s. split_and!; try done. by intros pn ?%not_elem_of_nil. }
  fold (pool_key params pn). destruct (release_spec s pn Ho) as (s1 & b & -> & Hr1 & Hf1 & Hoth & Hk1). cbn [mbind option_bind].
  destruct (IH s1) as (s2 & -> & Hr2 & Hf2 & Hm2 & Hut & Hk2); [by eapply runs_with_open|].
  assert (∀ pn', found s pn' = false → found s1 pn' = false) as Hm1.
  { intros pn' Hf. destruct (decide (pool_key params pn' = pool_key params pn)) as [E|Hne].
    - unfold found in *. by rewrite E.
    - unfold found in *. by rewrite (Hoth _ Hne). }
  exists s2. split_and!; [done|by etrans| | | |].
  - intros pn' Hin. apply elem_of_cons in Hin as [->|Hin]; auto.
  - auto.
  - intros pk Hpk. rewrite Hut; [apply Hoth, Hpk, list_elem_of_here|]. intros pn' Hin. apply Hpk. by right.
  - intros pk k Hk. rewrite Hk2 by done. destruct (decide (pk = pool_key params pn)) as [->|Hne]; [auto|]. by rewrite Hoth.
Qed.
End release.

(** ** Properties *)

Section properties.
Context `{RootCodecLaws} (Pool_String : Pool → string).

(** The answer of a handler: one that comes, from a path of the store machine
    that releases the lock; with an error the data is as before. *)
Definition served {A} (st : store) (out : option (store * result status A)) : Prop :=
  ∃ st' res, out = Some (st', res) ∧ rtc step (st, None) (st', None) ∧ locked st' = false ∧
    match res with Err _ => same_data st st' | Ok _ => is_Some (persistedData st') end.

Lemma allocate_reply_spec now h cd params s :
  cfg_nets h → isClosed s = false → root_texts_ok (tmpData s) →
  ∃ s' res, allocate_reply Pool_String now h params s = Some (s', res) ∧ runs_with (handler_op now cd) s s' ∧
    match res with
    | Ok infos => ∃ allocs, infos = map (allocationInfo (pa_PoolType params)) allocs ∧
        all_granted Pool_String now h params s s' (pa_Pools params) allocs ∧
        ∀ ip, ip ∈ requested params → ∃ a, a ∈ allocs ∧ IP_Equal (net_IP (Address (pal_IPConfig a))) ip = true
    | Err err => refused_after Pool_String now h params s (pa_Pools params) err ∨
        (st_code err = InvalidArgument ∧ left_over Pool_String now h params s s')
    end.
Proof.
  intros Hc Ho Ht. unfold allocate_reply.
  destruct (allocate_spec Pool_String now h params cd s Hc Ho Ht) as (s' & res & -> & Hr & Hres). cbn [mbind option_bind].
  eexists _, _. split_and!; [done..|]. destruct res as [allocs|err]; cbn [rbind]; [|done]. by exists allocs.
Qed.

Lemma session_served {A} (P : Clock → op → Prop)
    (work : IPAMParameters → session → option (session * result status A)) e st req :
  machine_inv (st, None) → (∀ now o, P now o → op_texts_ok o) →
  (∀ params s, isClosed s = false → root_texts_ok (tmpData s) →
     ∃ s' res, work params s = Some (s', res) ∧ runs_with P s s') →
  served st (with_session e st req work).
Proof.
  intros Hinv HP Hwork.
  destruct (with_session_spec P work (λ _ _ _ _, True) e st req Hinv HP) as (st' & res & E & Hs & Hl & Hres).
  { intros params s Ho Ht. destruct (Hwork params s Ho Ht) as (s' & res & ? & ?). eauto. }
  exists st', res. split_and!; [done..|]. destruct res; [|tauto].
  destruct Hres as (? & ? & ? & r' & _ & _ & _ & _ & _ & -> & _). by eexists.
Qed.

(** C9: Whatever the configuration, the time, failing reads and writes of the
    file and cancelled requests: on a store that is not in use, every handler
    returns an answer, never panics and never leaves the lock held; what it does
    to the store is one session, and when it answers with an error, the file and
    the data of the store are as before. *)
Theorem handlers_atomic e h st req :
  reachable (st, None) → cfg_nets h →
  served st (Handlers_Allocate Pool_String e h st req) ∧
  served st (Handlers_Deallocate e h st req) ∧
  served st (Handlers_IsAllocated e h st req).
Proof.
  intros Hinv%machine_reachable_inv Hcfg.
  split_and!; apply (session_served (handler_op (env_now e) (releaseCooldown h)));
    try done; try apply handler_op_texts_ok; intros params s Ho Ht.
  - destruct (allocate_reply_spec (env_now e) h (releaseCooldown h) params s Hcfg Ho Ht) as (s' & res & E & Hr & _). eauto.
  - destruct (deallocate_pools_spec (env_now e) h params (pa_Pools params) s Ho) as (s' & E & Hr & _). eauto.
  - destruct (isAllocated_pools_spec params (pa_Pools params) s Ho) as (res & E & _). by exists s, res.
Qed.

Lemma all_granted_eq now h params s s' t' pools allocs :
  Pools (tmpData t') = Pools (tmpData s') →
  all_granted Pool_String now h params s s' pools allocs → all_granted Pool_String now h params s t' pools allocs.
Proof.
  intros E [Hg Hu]. assert (∀ pk, pool_of t' pk = pool_of s' pk) as Ep
    by (intros pk; unfold pool_of, getPoolData; by rewrite E).
  split; [|intros pk Hpk; rewrite Ep; auto]. eapply Forall2_impl; [exact Hg|]. intros pn a Ha.
  eapply granted_eq; [done..|]. by rewrite Ep.
Qed.

Lemma Allocate_granted e h st params st' infos :
  reachable (st, None) → cfg_nets h →
  Handlers_Allocate Pool_String e h st (Some params) = Some (st', Ok infos) →
  let ps := setDefaultsToParams params in
  ∃ r r' allocs, loaded st r ∧ persistedData st' = Some r' ∧ rtc step (st, None) (st', None) ∧
    infos = map (allocationInfo (pa_PoolType ps)) allocs ∧
    all_granted Pool_String (env_now e) h ps (newStore r) (newStore r') (pa_Pools ps) allocs ∧
    ∀ ip, ip ∈ requested ps → ∃ a, a ∈ allocs ∧ IP_Equal (net_IP (Address (pal_IPConfig a))) ip = true.
Proof.
  intros Hr Hcfg E. pose proof (machine_reachable_inv _ Hr) as Hinv. cbv zeta.
  destruct (with_session_spec (handler_op (env_now e) (releaseCooldown h)) _ _ e st (Some params) Hinv
    (handler_op_texts_ok _ _) (λ ps s, allocate_reply_spec (env_now e) h (releaseCooldown h) ps s Hcfg))
    as (st1 & res & E1 & Hst & Hl & Hres). unfold Handlers_Allocate in E. rewrite E in E1. simplify_eq.
  destruct Hres as (ps & r & s' & r' & [= <-] & _ & Hld & _ & (allocs & -> & Hall & Hreq) & Hp & Hpools).
  exists r, r', allocs. split_and!; try done. eapply all_granted_eq; [|done]. by rewrite newStore_tmpData.
Qed.

(** C5: A successful [Allocate].  The response has one entry per pool of the
    request, in its order.  For each of them an address was free and is now
    reserved for the interface in the data of the store: the address the request
    asks for (by its index in the node's range, as the gateway, or by name, when
    it is in the subnet), or else an address of the node's range that is neither
    excluded nor the gateway.  No other pool changes, every requested address
    was handed out, and no address is reserved twice in a pool. *)
Theorem allocate_grants e h st params st' infos :
  reachable (st, None) → cfg_nets h →
  Handlers_Allocate Pool_String e h st (Some params) = Some (st', Ok infos) →
  let ps := setDefaultsToParams params in
  ∃ r r' allocs, loaded st r ∧ persistedData st' = Some r' ∧ root_unique r' ∧
    infos = map (allocationInfo (pa_PoolType ps)) allocs ∧
    all_granted Pool_String (env_now e) h ps (newStore r) (newStore r') (pa_Pools ps) allocs ∧
    ∀ ip, ip ∈ requested ps → ∃ a, a ∈ allocs ∧ IP_Equal (net_IP (Address (pal_IPConfig a))) ip = true.
Proof.
  intros Hr Hcfg E. destruct (Allocate_granted _ _ _ _ _ _ Hr Hcfg E) as (r & r' & allocs & Hld & Hp & Hst & Hrest).
  exists r, r', allocs. split_and!; try apply Hrest; try done.
  assert (machine_inv (st', None)) as (_ & _ & HP & _)
    by (eapply (machine_reachable_inv (st', None)); destruct Hr as (x0 & ? & ?); exists x0; split; [done|by etrans]).
  rewrite Hp in HP. apply HP.
Qed.

Lemma validateReq_code req err : validateReq req = Some err → st_code err = InvalidArgument.
Proof.
  unfold validateReq, fieldIsRequiredError, fieldsIsInvalidError. repeat case_match; try done; by intros [= <-].
Qed.

(** The requests the handlers take. *)
Definition request_ok (params : IPAMParameters) : Prop :=
  (1 ≤ length (pa_Pools params) ≤ 2)%nat ∧ Forall (λ pn, pn ≠ "") (pa_Pools params) ∧
  CniContainerid params ≠ "" ∧ CniIfname params ≠ "" ∧
  (∃ md, pa_Metadata params = Some md ∧ K8SPodName md ≠ "" ∧ K8SPodNamespace md ≠ "") ∧
  Forall (λ v, ParseIP v ≠ []) (RequestedIps params) ∧
  (wants_gateway params = true → RequestedIps params = []).

Lemma first_bad_None {A} (ok : A → bool) i l : first_bad ok i l = None ↔ Forall (λ x, ok x = true) l.
Proof.
  revert i. induction l as [|x l IH]; intros i; simpl; [by split|]. rewrite Forall_cons.
  destruct (ok x); [by rewrite IH; naive_solver|naive_solver].
Qed.

Lemma validateReq_ok params : validateReq (Some params) = None ↔ request_ok params.
Proof.
  unfold validateReq, request_ok, wants_gateway. split.
  - destruct (bool_decide (length (pa_Pools params) = 0%nat) || _) eqn:E1; [done|]. apply orb_false_iff in E1 as [E1 E1'].
    apply bool_decide_eq_false in E1, E1'. destruct (first_bad _ 0 (pa_Pools params)) eqn:E2; [done|]. case_bool_decide as E3; [done|]. case_bool_decide as E4; [done|].
    destruct (pa_Metadata params) as [md|]; [|done]. case_bool_decide as E5; [done|]. case_bool_decide as E6; [done|].
    destruct (first_bad _ 0 (RequestedIps params)) eqn:E7; [done|]. intros E8.
    apply first_bad_None in E2, E7. split_and!; try done; try lia.
    + eapply Forall_impl; [exact E2|]. intros pn Hpn. by apply bool_decide_eq_true in Hpn.
    + by exists md.
    + eapply Forall_impl; [exact E7|]. intros v Hv. unfold is_nil in Hv. by boolify.
    + intros Hg. destruct (Features params) as [ft|]; [|done]. rewrite Hg in E8. simpl in E8.
      destruct (bool_decide_reflect (RequestedIps params = [])); done.
  - intros (Hl & Hp & Hc & Hi & (md & -> & Hn & Hns) & Hr & Hg).
    rewrite !bool_decide_false by (done || lia). simpl.
    rewrite (proj2 (first_bad_None _ 0 _)) by (eapply Forall_impl; [exact Hp|]; intros pn Hpn; by apply bool_decide_eq_true).
    rewrite (proj2 (first_bad_None _ 0 _)).
    2: { eapply Forall_impl; [exact Hr|]. intros v Hv. unfold is_nil. by rewrite bool_decide_false. }
    destruct (Features params) as [ft|]; [|done]. destruct (AllocateDefaultGateway ft); [|done].
    by rewrite (Hg eq_refl).
Qed.

(** A pool without configuration is refused with [NotFound]. *)
Lemma refused_unconfigured now h ps s pn post err :
  GetPoolByKey (poolConfReader h) (pool_key ps pn) = None →
  refused_after Pool_String now h ps s (pn :: post) err → st_code err = NotFound.
Proof.
  intros Hno (pre & pn' & post' & s1 & allocs & E & [Hall _] & Href). destruct pre as [|pn0 pre].
  - injection E as <- <-. unfold refused in Href. rewrite Hno in Href. destruct (st_code err); try done.
    + by destruct Href as (? & ? & ? & ? & ? & ? & ? & _).
    + by destruct Href as [[? ?] _].
    + by destruct Href as (? & ? & ? & ? & ? & ? & ? & ? & _).
    + by destruct Href as (? & ? & _).
  - injection E as <- ->. inversion Hall as [|? ? ? ? Hg _]. destruct Hg. congruence.
Qed.

Lemma granted_configured now h ps s s' pn post allocs :
  all_granted Pool_String now h ps s s' (pn :: post) allocs → is_Some (GetPoolByKey (poolConfReader h) (pool_key ps pn)).
Proof. intros [Hall _]. inversion Hall as [|? ? ? ? Hg _]. destruct Hg as [p ? ? ? ? ? ? ? ? Hp]. by rewrite Hp. Qed.

(** C24: The codes of the errors of [Allocate] say what happened.  A request that
    is not well formed is answered with [InvalidArgument], a well-formed one that
    was cancelled with [Canceled], one whose first pool has no configuration with
    [NotFound].  In turn, [InvalidArgument]: the request is not well formed, asks
    for a gateway or an index the pool does not have, meets a route of the pool
    that cannot be read, or names an address no pool was granted.  [NotFound]: the
    pool has no configuration.  [AlreadyExists]: the interface has a reservation in
    the pool.  [ResourceExhausted]: the requested address is reserved, or every
    address of the node's range is the gateway, excluded, or reserved.  [Internal]:
    the store cannot be read or written, the configuration names no range of a
    network or exclusions that are none, or the asked address is not in the
    subnet.  What is said of a pool is said of the first one that cannot be
    granted, after the pools before it have been. *)
Theorem allocate_refusals e h st params st' err :
  reachable (st, None) → cfg_nets h →
  Handlers_Allocate Pool_String e h st (Some params) = Some (st', Err err) →
  let ps := setDefaultsToParams params in
  let refused_pool := ∃ r, loaded st r ∧ refused_after Pool_String (env_now e) h ps (newStore r) (pa_Pools ps) err in
  match st_code err with
  | NotFound | AlreadyExists | ResourceExhausted => refused_pool
  | Canceled => env_canceled e = true
  | InvalidArgument => ¬ request_ok params ∨ refused_pool ∨
      ∃ r s', loaded st r ∧ left_over Pool_String (env_now e) h ps (newStore r) s'
  | Internal => open_refused (env_readable e) st ∨ refused_pool ∨
      ∃ r s' allocs, loaded st r ∧ commit_refused (env_writable e) s' ∧
        all_granted Pool_String (env_now e) h ps (newStore r) s' (pa_Pools ps) allocs
  end ∧
  (¬ request_ok params → st_code err = InvalidArgument) ∧
  (request_ok params → ¬ open_refused (env_readable e) st →
     if env_canceled e then st_code err = Canceled
     else ∀ pn post, pa_Pools ps = pn :: post → GetPoolByKey (poolConfReader h) (pool_key ps pn) = None →
            st_code err = NotFound).
Proof.
  intros Hr Hcfg E. pose proof (machine_reachable_inv _ Hr) as Hinv. cbv zeta.
  destruct (with_session_spec (handler_op (env_now e) (releaseCooldown h)) _ _ e st (Some params) Hinv
    (handler_op_texts_ok _ _) (λ ps s, allocate_reply_spec (env_now e) h (releaseCooldown h) ps s Hcfg))
    as (st1 & res & E1 & Hst & Hl & Hres). unfold Handlers_Allocate in E. rewrite E in E1. simplify_eq.
  pose proof (validateReq_ok params) as Hok.
  destruct Hres as [_ [Hv|[Hv [[Hc Ho]|[[Hc Hcan]|(Hcan & ps & r & s' & [= <-] & Hld & Hf)]]]]]; rewrite Hv in Hok.
  { assert (¬ request_ok params) by (by rewrite <- Hok). rewrite (validateReq_code _ _ Hv). split_and!; [by left|done|done]. }
  all: assert (request_ok params) by (by apply Hok).
  - rewrite Hc. split_and!; [by left|done|done].
  - rewrite Hc, Hcan. split_and!; done.
  - rewrite Hcan. destruct Hf as [[Hf|[Hc Hf]]|(Hc & Hw & infos & allocs & _ & Hg & _)].
    + split_and!; [|done|intros _ _ pn post Ep Hno; rewrite Ep in Hf; by eapply refused_unconfigured].
      destruct (st_code err) eqn:Hcode; eauto.
      destruct Hf as (pre & pn & post & s1 & allocs & _ & _ & Href). unfold refused in Href. by rewrite Hcode in Href.
    + rewrite Hc. split_and!; [by right; right; eauto|done|]. intros _ _ pn post Ep Hno. destruct Hf as (allocs & ip & Hg & _).
      rewrite Ep in Hg. apply granted_configured in Hg as [? ?]. congruence.
    + rewrite Hc. split_and!; [right; right; by exists r, s', allocs|done|]. intros _ _ pn post Ep Hno.
      rewrite Ep in Hg. apply granted_configured in Hg as [? ?]. congruence.
Qed.

(** [IsAllocated] on data in memory. *)
Lemma IsAllocated_loaded e h st r params :
  persistedData st = Some r → locked st = false → env_canceled e = false → validateReq (Some params) = None →
  let ps := setDefaultsToParams params in
  ∃ res, Handlers_IsAllocated e h st (Some params) = Some (mkStore (disk st) (Some r) false, res) ∧
    match res with
    | Ok _ => forallb (found ps (newStore r)) (pa_Pools ps) = true
    | Err err => st_code err = NotFound ∧ forallb (found ps (newStore r)) (pa_Pools ps) = false
    end.
Proof.
  intros Hp Hl Hc Hv. cbv zeta. unfold Handlers_IsAllocated, with_session. rewrite Hv. unfold openStore, Open.
  rewrite Hl, Hp. cbn [mbind option_bind]. unfold checkReqIsCanceled. rewrite Hc.
  destruct (isAllocated_pools_spec (setDefaultsToParams params) (pa_Pools (setDefaultsToParams params)) (newStore r) eq_refl)
    as (res & -> & Hres). cbn [mbind option_bind]. exists res. split; [|done]. by destruct res.
Qed.

Lemma pool_of_newStore r pk : pool_of (newStore r) pk = getPoolData pk r.
Proof. unfold pool_of. by rewrite newStore_tmpData. Qed.

Lemma getPoolData_Pools r r' pk : Pools r = Pools r' → getPoolData pk r = getPoolData pk r'.
Proof. intros E. unfold getPoolData. by rewrite E. Qed.

Lemma store_unlocked st r : persistedData st = Some r → locked st = false → mkStore (disk st) (Some r) false = st.
Proof. destruct st. simpl. by intros -> ->. Qed.

Lemma validateReq_pools params :
  validateReq (Some params) = None → ∃ pn, pn ∈ pa_Pools (setDefaultsToParams params).
Proof.
  unfold validateReq. destruct (pa_Pools params) as [|pn l] eqn:E; [done|]. intros _. exists pn.
  unfold setDefaultsToParams. destruct (pa_PoolType params); simpl; rewrite ?E; apply list_elem_of_here.
Qed.

Lemma res_key_defaults params : res_key (setDefaultsToParams params) = res_key params.
Proof. unfold setDefaultsToParams. by destruct (pa_PoolType params). Qed.

Lemma allocated_found e h st params st' infos :
  machine_inv (st, None) → cfg_nets h →
  Handlers_Allocate Pool_String e h st (Some params) = Some (st', Ok infos) →
  let ps := setDefaultsToParams params in
  validateReq (Some params) = None ∧ locked st' = false ∧
  ∃ r', persistedData st' = Some r' ∧ forallb (found ps (newStore r')) (pa_Pools ps) = true.
Proof.
  intros Hinv Hcfg E. cbv zeta.
  destruct (with_session_spec (handler_op (env_now e) (releaseCooldown h)) _ _ e st (Some params) Hinv
    (handler_op_texts_ok _ _) (λ ps s, allocate_reply_spec (env_now e) h (releaseCooldown h) ps s Hcfg))
    as (st1 & res & E1 & _ & Hl & Hres). unfold Handlers_Allocate in E. rewrite E in E1. simplify_eq.
  destruct Hres as (ps & r & s' & r' & [= <-] & Hv & _ & _ & (allocs & _ & [Hall _] & _) & Hp & Hpools).
  split_and!; [done..|]. exists r'. split; [done|].
  apply forallb_forall. intros pn Hin%list_elem_of_In. destruct (Forall2_elem_l _ _ _ _ Hall Hin) as (a & _ & Hg).
  destruct Hg as [p f base ones lo hi want ip x _ _ _ _ _ _ _ _ _ _ (_ & _ & H3)]. unfold found.
  rewrite pool_of_newStore, (getPoolData_Pools _ _ _ Hpools). unfold pool_of in H3. rewrite H3. unfold res_key.
  by rewrite lookup_insert_eq.
Qed.

Lemma deallocated_lost e h st params st' :
  machine_inv (st, None) → Handlers_Deallocate e h st (Some params) = Some (st', Ok tt) →
  let ps := setDefaultsToParams params in
  validateReq (Some params) = None ∧ locked st' = false ∧
  ∃ r r', loaded st r ∧ persistedData st' = Some r' ∧ (∀ pn, pn ∈ pa_Pools ps → found ps (newStore r') pn = false) ∧
    ∀ pk k, k ≠ res_key params → Entries (getPoolData pk r') !! k = Entries (getPoolData pk r) !! k.
Proof.
  intros Hinv E. cbv zeta.
  destruct (with_session_spec (handler_op (env_now e) (releaseCooldown h)) (λ ps s, deallocate_pools (env_now e) h ps (pa_Pools ps) s)
    (λ ps s s' res, (∀ pn, pn ∈ pa_Pools ps → found ps s' pn = false) ∧
       ∀ pk k, k ≠ res_key ps → Entries (pool_of s' pk) !! k = Entries (pool_of s pk) !! k) e st (Some params) Hinv
    (handler_op_texts_ok _ _)) as (st1 & res & E1 & _ & Hl & Hres).
  { intros ps s Ho _. destruct (deallocate_pools_spec (env_now e) h ps (pa_Pools ps) s Ho) as (s' & ? & ? & ? & _ & _ & ?).
    eexists _, _. split_and!; done. }
  unfold Handlers_Deallocate in E. rewrite E in E1. simplify_eq.
  destruct Hres as (ps & r & s' & r' & [= <-] & Hv & Hld & _ & (Hf & Hk) & Hp & Hpools).
  split_and!; [done..|]. exists r, r'. split_and!; [done..| |].
  - intros pn Hin. specialize (Hf _ Hin). unfold found in *. rewrite pool_of_newStore, (getPoolData_Pools _ _ _ Hpools). done.
  - intros pk k Hne. rewrite (getPoolData_Pools _ _ _ Hpools), <- (pool_of_newStore r). apply Hk. by rewrite res_key_defaults.
Qed.

(** C23: The handlers agree with each other.  After a successful [Allocate], the
    same request to [IsAllocated] succeeds; after a successful [Deallocate] it
    answers [NotFound], whatever the cooldown, and the reservations of other
    interfaces are untouched.  [IsAllocated] itself changes nothing. *)
Theorem allocation_lifecycle e e' h st params st' :
  reachable (st, None) → cfg_nets h → env_canceled e' = false →
  (∀ infos, Handlers_Allocate Pool_String e h st (Some params) = Some (st', Ok infos) →
     Handlers_IsAllocated e' h st' (Some params) = Some (st', Ok tt)) ∧
  (Handlers_Deallocate e h st (Some params) = Some (st', Ok tt) →
     (∃ err, Handlers_IsAllocated e' h st' (Some params) = Some (st', Err err) ∧ st_code err = NotFound) ∧
     ∃ r r', loaded st r ∧ persistedData st' = Some r' ∧
       ∀ pk k, k ≠ res_key params → Entries (getPoolData pk r') !! k = Entries (getPoolData pk r) !! k).
Proof.
  intros Hinv%machine_reachable_inv Hcfg Hcan. split; [intros infos E|intros E].
  - destruct (allocated_found _ _ _ _ _ _ Hinv Hcfg E) as (Hv & Hl & r' & Hp & Hall).
    destruct (IsAllocated_loaded e' h st' r' params Hp Hl Hcan Hv) as (res & -> & Hres). rewrite store_unlocked by done.
    destruct res as [[]|err]; [done|]. destruct Hres as [_ Hno]. congruence.
  - destruct (deallocated_lost _ _ _ _ _ Hinv E) as (Hv & Hl & r & r' & Hld & Hp & Hno & Hk).
    split; [|by exists r, r']. destruct (IsAllocated_loaded e' h st' r' params Hp Hl Hcan Hv) as (res & -> & Hres).
    rewrite store_unlocked by done. destruct res as [[]|err]; [|exists err; tauto].
    exfalso. rewrite forallb_forall in Hres. destruct (validateReq_pools _ Hv) as [pn Hin].
    specialize (Hno _ Hin). specialize (Hres pn). rewrite <- list_elem_of_In in Hres. rewrite Hres in Hno; done.
Qed.
End properties.

(** *** Witnesses and examples *)

Definition node_pool : Pool :=
  mkPool "p" "192.168.0.0/24" "192.168.0.2" "192.168.0.9" "192.168.0.1"
    [mkExclusionRange "192.168.0.2" "192.168.0.3"] ["10.0.0.0/8"; "10.0.0.0/8"] true.
Definition node_handlers : Handlers := mkHandlers (UpdatePool NewManager "p" node_pool) 100.
Definition node_store : store := mkStore None None false.
Definition calm (t : Z) : Env := mkEnv (mkClock t "t") false true true.
Definition node_request (pools ips : list string) (ft : option IPAMFeatures) : IPAMParameters :=
  mkIPAMParameters pools "c" "i" (Some (mkIPAMMetadata "a" "b" "" "")) POOL_TYPE_UNSPECIFIED ips ft.

(** The answer of [Allocate] on an empty store, with a pool configuration that
    is not written to the store. *)
Definition first_answer (req : IPAMParameters) : option (result status (list AllocationInfo)) :=
  snd <$> Handlers_Allocate (H := bits_codec) (λ _, "") (calm 0) node_handlers node_store (Some req).

Example allocate_dynamic :
  first_answer (node_request ["p"] [] None) =
    Some (Ok [mkAllocationInfo "p" "192.168.0.4/24" POOL_TYPE_IPPOOL "192.168.0.1" ["0.0.0.0/0"; "10.0.0.0/8"]]).
Proof. vm_compute. reflexivity. Qed.

Example allocate_static :
  first_answer (node_request ["p"] ["192.168.0.77"] None) =
    Some (Ok [mkAllocationInfo "p" "192.168.0.77/24" POOL_TYPE_IPPOOL "192.168.0.1" ["0.0.0.0/0"; "10.0.0.0/8"]]).
Proof. vm_compute. reflexivity. Qed.

Example allocate_gateway :
  first_answer (node_request ["p"] [] (Some (mkIPAMFeatures true None))) =
    Some (Ok [mkAllocationInfo "p" "192.168.0.1/24" POOL_TYPE_IPPOOL "" []]).
Proof. vm_compute. reflexivity. Qed.

(** An index is not checked against the exclusions, and wins over the gateway. *)
Example allocate_index :
  first_answer (node_request ["p"] [] (Some (mkIPAMFeatures true (Some 1)))) =
    Some (Ok [mkAllocationInfo "p" "192.168.0.3/24" POOL_TYPE_IPPOOL "" []]).
Proof. vm_compute. reflexivity. Qed.

Example allocate_twice_in_one_request :
  (λ r, match r with Ok _ => None | Err e => Some (st_code e) end) <$> first_answer (node_request ["p"; "p"] [] None) =
    Some (Some AlreadyExists).
Proof. vm_compute. reflexivity. Qed.

Lemma node_cfg_nets : cfg_nets node_handlers.
Proof.
  intros k p Hk. destruct (decide (k = "p")) as [->|Hne].
  2: { unfold node_handlers, poolConfReader in Hk. rewrite GetPoolByKey_UpdatePool_ne in Hk by done. by apply (lookup_empty_Some k p) in Hk. }
  unfold node_handlers, poolConfReader in Hk. rewrite GetPoolByKey_UpdatePool in Hk. injection Hk as <-.
  intros ip n E. vm_compute in E. injection E as _ <-. exists F4, (example_v4 0), 24.
  split; [by apply net_okb_ok|vm_compute; reflexivity].
Qed.

Lemma node_store_reachable `{RootCodec} : reachable (node_store, None).
Proof. exists (node_store, None). split; [|done]. constructor. by left. Qed.

Lemma handlers_atomic_witness :
  reachable (H := bits_codec) (node_store, None) ∧
  served (H := bits_codec) node_store
    (Handlers_Allocate (H := bits_codec) (λ _, "") (calm 0) node_handlers node_store (Some (node_request ["p"] [] None))).
Proof.
  split; [apply node_store_reachable|].
  apply (handlers_atomic (H := bits_codec) (λ _, "") (calm 0) node_handlers node_store (Some (node_request ["p"] [] None))
    node_store_reachable node_cfg_nets).
Defined.

(** Two pools in one request, of which the second has no configuration. *)
Lemma allocate_refusals_witness :
  ∃ st' err, Handlers_Allocate (H := bits_codec) (λ _, "") (calm 0) node_handlers node_store
               (Some (node_request ["p"; "q"] [] None)) = Some (st', Err err) ∧
    ∃ r, loaded (H := bits_codec) node_store r ∧
      refused_after (λ _, "") (mkClock 0 "t") node_handlers (setDefaultsToParams (node_request ["p"; "q"] [] None))
        (newStore r) ["p"; "q"] err.
Proof.
  assert (match Handlers_Allocate (H := bits_codec) (λ _, "") (calm 0) node_handlers node_store
            (Some (node_request ["p"; "q"] [] None)) with
          | Some (_, Err e) => match st_code e with NotFound => true | _ => false end | _ => false end = true) as Hv by (vm_compute; reflexivity).
  destruct (Handlers_Allocate (H := bits_codec) (λ _, "") (calm 0) node_handlers node_store
    (Some (node_request ["p"; "q"] [] None))) as [[st' [infos|err]]|] eqn:E; [discriminate Hv| |discriminate Hv].
  pose proof (allocate_refusals (H := bits_codec) (λ _, "") (calm 0) node_handlers node_store (node_request ["p"; "q"] [] None)
    st' err node_store_reachable node_cfg_nets E) as HR.
  exists st', err. split; [reflexivity|]. destruct (st_code err); try discriminate Hv. exact (proj1 HR).
Defined.

Lemma allocate_grants_witness :
  ∃ st' infos, Handlers_Allocate (H := bits_codec) (λ _, "") (calm 0) node_handlers node_store
                 (Some (node_request ["p"] [] None)) = Some (st', Ok infos) ∧
    ∃ r r' allocs, loaded (H := bits_codec) node_store r ∧ persistedData st' = Some r' ∧
      all_granted (λ _, "") (mkClock 0 "t") node_handlers (setDefaultsToParams (node_request ["p"] [] None))
        (newStore r) (newStore r') ["p"] allocs.
Proof.
  assert (match Handlers_Allocate (H := bits_codec) (λ _, "") (calm 0) node_handlers node_store
            (Some (node_request ["p"] [] None)) with Some (_, Ok _) => true | _ => false end = true) as Hv
    by (vm_compute; reflexivity).
  destruct (Handlers_Allocate (H := bits_codec) (λ _, "") (calm 0) node_handlers node_store
    (Some (node_request ["p"] [] None))) as [[st' [infos|err]]|] eqn:E; [|discriminate Hv..].
  destruct (allocate_grants (H := bits_codec) (λ _, "") (calm 0) node_handlers node_store (node_request ["p"] [] None)
    st' infos node_store_reachable node_cfg_nets E) as (r & r' & allocs & Hl & Hp & _ & _ & Hg & _).
  exists st', infos. split; [reflexivity|]. exists r, r', allocs. split; [exact Hl|]. split; [exact Hp|exact Hg].
Defined.

Lemma allocation_lifecycle_witness :
  ∃ st' infos, Handlers_Allocate (H := bits_codec) (λ _, "") (calm 0) node_handlers node_store
                 (Some (node_request ["p"] [] None)) = Some (st', Ok infos) ∧
    Handlers_IsAllocated (H := bits_codec) (calm 1) node_handlers st' (Some (node_request ["p"] [] None)) = Some (st', Ok tt).
Proof.
  assert (match Handlers_Allocate (H := bits_codec) (λ _, "") (calm 0) node_handlers node_store
            (Some (node_request ["p"] [] None)) with Some (_, Ok _) => true | _ => false end = true) as Hv
    by (vm_compute; reflexivity).
  destruct (Handlers_Allocate (H := bits_codec) (λ _, "") (calm 0) node_handlers node_store
    (Some (node_request ["p"] [] None))) as [[st' [infos|err]]|] eqn:E; [|discriminate Hv..].
  exists st', infos. split; [reflexivity|].
  apply (proj1 (allocation_lifecycle (H := bits_codec) (λ _, "") (calm 0) (calm 1) node_handlers node_store
    (node_request ["p"] [] None) st' node_store_reachable node_cfg_nets eq_refl) infos E).
Defined.
