(* ===== verification/CniSpec.v ===== *)
(** * Properties of the CNI plugin, against the node daemon

    What the plugin sends is a request the daemon accepts, and what the daemon
    answers is a response the plugin reads back to the same addresses, gateways
    and routes. *)

From Stdlib Require Import Strings.Byte.
From S2P Require Import Prelude GoNet Cidr GoNetText NodeTypes Store SessionRuns PoolManager RangeSet NodeAllocator.
From S2P Require Import Handlers Cni HandlersSpec.

(** ** The configuration *)

Definition valid_ip (ip : IP) : Prop := ∃ f x, addr_of ip = Some (f, x).

Lemma parseIP_valid s : is_nil (parseIP s) = false → valid_ip (parseIP s).
Proof.
  intros H. destruct (ParseIP_valid (match str_cut slash s with Some (before, _) => before | None => s end))
    as (f & x & E & _).
  - apply bool_decide_eq_false in H. done.
  - by exists f, x.
Qed.

Lemma parse_ips_valid l ips : parse_ips l = Some ips → Forall valid_ip ips.
Proof.
  revert ips. induction l as [|v l IH]; intros ips; simpl; [by intros [= <-]|].
  destruct (is_nil (parseIP v)) eqn:E; [done|]. intros (ips' & E' & [= <-])%bind_Some.
  constructor; [by apply parseIP_valid|by apply IH].
Qed.

Lemma existsb_empty l : existsb (λ p, bool_decide (p = "")) l = false → Forall (λ p, p ≠ "") l.
Proof.
  intros H. apply Forall_forall. intros p Hp ->. apply not_true_iff_false in H. apply H, existsb_exists.
  exists "". split; [by apply list_elem_of_In|by apply bool_decide_true].
Qed.

(** What the loader guarantees of the configuration it returns. *)
Record conf_ok (c : IPAMConf) : Prop := {
  co_pools : (0 < length (ic_Pools c) ≤ 2)%nat ∧ Forall (λ p, p ≠ "") (ic_Pools c);
  co_type : ic_PoolType c = PoolTypeIPPool ∨ ic_PoolType c = PoolTypeCIDRPool;
  co_pod : md_PodName c ≠ "" ∧ md_PodNamespace c ≠ "";
  co_ips : Forall valid_ip (RequestedIPs c);
  co_features : (length (filter Is_true [ft_AllocateDefaultGateway c; bool_decide (is_Some (ft_AllocateIPWithIndex c));
                                        bool_decide (RequestedIPs c ≠ [])]) ≤ 1)%nat;
}.

Lemma split_comma_ne s : split_comma s ≠ [].
Proof. destruct s as [|c s]; simpl; [done|]. case_bool_decide; [done|]. by destruct (split_comma s). Qed.

Lemma getPools_ok n ipam pools :
  getPools n ipam = Some (Ok pools) → (0 < length pools ≤ 2)%nat ∧ Forall (λ p, p ≠ "") pools.
Proof.
  unfold getPools. intros (names & _ & H)%bind_Some.
  set (ps := if bool_decide (names ≠ []) then Ok names
             else if bool_decide (PoolName ipam = "") then Err "no pool provided" else Ok (split_comma (PoolName ipam))) in H.
  assert (∀ l, ps = Ok l → l ≠ []) as Hne.
  { intros l. unfold ps. repeat case_bool_decide; [by intros [= <-]|done|]. intros [= <-]. apply split_comma_ne. }
  destruct ps as [l|]; cbn [rbind] in H; [|done]. specialize (Hne l eq_refl).
  case_bool_decide as Hlen; [done|]. destruct (existsb _ l) eqn:E; [done|]. injection H as <-.
  split; [|by apply existsb_empty]. destruct l; simpl in *; [done|lia].
Qed.

Lemma getPoolType_ok n ipam type :
  getPoolType n ipam = Some (Ok type) → type = PoolTypeIPPool ∨ type = PoolTypeCIDRPool.
Proof.
  unfold getPoolType. intros (t & _ & H)%bind_Some. cbv zeta in H.
  destruct (decide (ToLower t = PoolTypeIPPool)) as [E|E].
  - rewrite (bool_decide_false (_ ≠ _)) in H by (by intros []). simpl in H. left. congruence.
  - rewrite bool_decide_true in H by done. simpl in H. case_bool_decide as E'; [done|]. right. congruence.
Qed.

Section loader_facts.
Context (Unmarshal : string → option (option NetConf)) (loadFromConfFile : string → conf_file)
  (LoadArgs : string → result string IPAMEnvArgs).

(** The settings that only the last steps of the loader read. *)
Definition settings (c : IPAMConf) : string * string * string := (PoolName c, ic_PoolType c, DaemonSocket c).

(** The address of [CNI_ARGS], if it has one. *)
Definition env_ip (args : CmdArgs) : list string :=
  match LoadArgs (Args args) with Ok ea => if bool_decide (env_IP ea = "") then [] else [env_IP ea] | Err _ => [] end.

Lemma loadEnvCNIArgs_ok ipam args c :
  loadEnvCNIArgs LoadArgs ipam args = Ok c → Forall valid_ip (RequestedIPs ipam) →
  md_PodName c ≠ "" ∧ md_PodNamespace c ≠ "" ∧ Forall valid_ip (RequestedIPs c) ∧ settings c = settings ipam ∧
  RequestedIPs c = if bool_decide (RequestedIPs ipam ≠ []) then RequestedIPs ipam else parseIP <$> env_ip args.
Proof.
  unfold loadEnvCNIArgs, env_ip. destruct (LoadArgs (Args args)) as [ea|]; cbn [rbind]; [|done].
  case_bool_decide as H1; [done|]. case_bool_decide as H2; [done|]. cbv zeta. intros H Hips. simpl in H.
  destruct (bool_decide (RequestedIPs ipam ≠ [])) eqn:Er, (bool_decide (env_IP ea = "")) eqn:Ee; simpl in H;
    [by injection H as <-..| |].
  { injection H as <-. split_and!; try done. simpl. apply bool_decide_eq_false in Er. by apply dec_stable in Er. }
  destruct (is_nil (parseIP (env_IP ea))) eqn:En; [done|]. injection H as <-.
  apply bool_decide_eq_false, dec_stable in Er. simpl. rewrite Er. split_and!; try done.
  repeat constructor. by apply parseIP_valid.
Qed.

(** The features do not touch the rest, and exclude one another. *)
Lemma loadFeatures_ok n ipam c :
  loadFeatures n ipam = Ok c →
  md_PodName c = md_PodName ipam ∧ md_PodNamespace c = md_PodNamespace ipam ∧ RequestedIPs c = RequestedIPs ipam ∧
  settings c = settings ipam ∧
  (length (filter Is_true [ft_AllocateDefaultGateway c; bool_decide (is_Some (ft_AllocateIPWithIndex c));
                           bool_decide (RequestedIPs c ≠ [])]) ≤ 1)%nat.
Proof.
  unfold loadFeatures. intros H.
  match type of H with rbind ?m _ = _ => destruct m as [i|] eqn:Ei; cbn [rbind] in H; [|done] end.
  assert (md_PodName i = md_PodName ipam ∧ md_PodNamespace i = md_PodNamespace ipam ∧ RequestedIPs i = RequestedIPs ipam ∧
    settings i = settings ipam) as (E1 & E2 & E3 & E4).
  { destruct (args_cni n) as [a|]; [|by injection Ei as <-].
    destruct (match ar_AllocateIPWithIndex a with Some _ => _ | None => _ end); [done|]. by injection Ei as <-. }
  rewrite <- E1, <- E2, <- E3, <- E4. clear Ei E1 E2 E3 E4.
  destruct (ft_AllocateDefaultGateway i) eqn:Eg, (bool_decide (is_Some (ft_AllocateIPWithIndex i))) eqn:Ex,
    (bool_decide (RequestedIPs i ≠ [])) eqn:Er; simpl in H; try done; injection H as <-;
    rewrite Eg, Ex, Er; split_and!; try done; simpl; lia.
Qed.

(** The decoder leaves the requested addresses, which have no JSON name, empty. *)
Definition internal_unset : Prop :=
  ∀ s n ipam, Unmarshal s = Some (Some n) → nc_IPAM n = Some ipam → RequestedIPs ipam = [].

Lemma loadSettings_ips ipam c : loadSettings loadFromConfFile ipam = Ok c → RequestedIPs c = RequestedIPs ipam.
Proof.
  unfold loadSettings. cbv zeta. intros H.
  match type of H with rbind ?m _ = _ => destruct m as [i|] eqn:Ei; cbn [rbind] in H; [|done] end.
  injection H as <-. simpl. destruct (bool_decide (ConfDir ipam = "")), (loadFromConfFile _); simplify_eq; done.
Qed.

(** The texts of the requested addresses of the JSON. *)
Definition requested_texts (n : NetConf) : list string :=
  if bool_decide (rc_IPs n ≠ []) then rc_IPs n else match args_cni n with Some a => IPs a | None => [] end.

(** The pool name, with the name of the network as a fallback. *)
Definition named (n : NetConf) (force : bool) (c : IPAMConf) : IPAMConf :=
  if negb force && bool_decide (PoolName c = "") then set_PoolName c (nc_Name n) else c.

(** The steps of a load that succeeds. *)
Lemma LoadConf_inv args n c :
  LoadConf Unmarshal loadFromConfFile LoadArgs args = Some (Ok (n, c)) →
  ∃ ipam c1 force ips c3 c4 pools type,
    Unmarshal (StdinData args) = Some (Some n) ∧ nc_IPAM n = Some ipam ∧ loadSettings loadFromConfFile ipam = Ok c1 ∧
    ForcePoolName c1 = Some force ∧ parse_ips (requested_texts n) = Some ips ∧
    loadEnvCNIArgs LoadArgs (set_RequestedIPs (named n force c1) (RequestedIPs (named n force c1) ++ ips)) args = Ok c3 ∧
    loadFeatures n c3 = Ok c4 ∧ getPools n c4 = Some (Ok pools) ∧ getPoolType n c4 = Some (Ok type) ∧
    c = set_Pools c4 pools type.
Proof.
  unfold LoadConf. destruct (Unmarshal (StdinData args)) as [[n'|]|] eqn:Eu; [|done..].
  destruct (nc_IPAM n') as [ipam|] eqn:Ei; [|done]. destruct (loadSettings _ _) as [c1|] eqn:Es; [|done].
  intros (force & Hf & H)%bind_Some. cbv zeta in H. fold (named n' force c1) (requested_texts n') in H.
  destruct (parse_ips _) as [ips|] eqn:Ep; [|done].
  destruct (loadEnvCNIArgs LoadArgs _ args) as [c3|] eqn:Ee; cbn [rbind] in H; [|done].
  destruct (loadFeatures n' c3) as [c4|] eqn:Ef; [|done].
  apply bind_Some in H as ([pools|] & Hpools & H); [|done]. apply bind_Some in H as ([type|] & Htype & H); [|done].
  injection H as <- <-. by eexists _, _, _, _, _, _, _, _.
Qed.

Lemma parse_ips_map l ips : parse_ips l = Some ips → ips = parseIP <$> l.
Proof.
  revert ips. induction l as [|v l IH]; intros ips; simpl; [by intros [= <-]|].
  destruct (is_nil (parseIP v)); [done|]. intros (ips' & E & [= <-])%bind_Some. by rewrite (IH _ E).
Qed.

Lemma named_ips n force c1 ipam :
  loadSettings loadFromConfFile ipam = Ok c1 → RequestedIPs (named n force c1) = RequestedIPs ipam.
Proof. intros H%loadSettings_ips. rewrite <- H. unfold named. by destruct (_ && _). Qed.

Lemma LoadConf_ok args n c :
  internal_unset → LoadConf Unmarshal loadFromConfFile LoadArgs args = Some (Ok (n, c)) → conf_ok c.
Proof.
  intros Hu (ipam & c1 & force & ips & c3 & c4 & pools & type & Eu & Ei & Es & _ & Ep & Ee & Ef & Hpools & Htype & ->)%LoadConf_inv.
  rewrite (named_ips _ _ _ _ Es), (Hu _ _ _ Eu Ei) in Ee.
  apply loadEnvCNIArgs_ok in Ee as (Hn & Hns & Hips & _ & _); [|by eapply parse_ips_valid].
  apply loadFeatures_ok in Ef as (E3 & E4 & E5 & _ & Hft). constructor; simpl.
  - by eapply getPools_ok.
  - by eapply getPoolType_ok.
  - by rewrite E3, E4.
  - by rewrite E5.
  - done.
Qed.

(** The settings of the file, if there is one: an empty configuration otherwise. *)
Definition file_conf (ipam : IPAMConf) : option IPAMConf :=
  match loadFromConfFile (or_empty (ConfDir ipam) DefaultConfDir) with
  | ConfRead c => Some c
  | ConfMissing => Some (plain_conf None "" "" "" 0 "" "" "")
  | ConfError _ => None
  end.

(** The first of the texts that is not empty. *)
Definition first_text (l : list string) : string := foldr or_empty "" l.

Lemma loadSettings_spec ipam :
  match file_conf ipam, loadSettings loadFromConfFile ipam with
  | None, Err _ => True
  | Some fc, Ok c =>
      is_Some (ForcePoolName c) ∧
      (ForcePoolName c = Some true ↔
        (match ForcePoolName ipam with Some b => Some b | None => ForcePoolName fc end) = Some true) ∧
      PoolName c = first_text [PoolName ipam; PoolName fc] ∧
      ic_PoolType c = first_text [ic_PoolType ipam; ic_PoolType fc; PoolTypeIPPool] ∧
      DaemonSocket c = first_text [DaemonSocket ipam; DaemonSocket fc; DefaultDaemonSocket]
  | _, _ => False
  end.
Proof.
  unfold file_conf, loadSettings. cbv zeta.
  assert (ConfDir (if bool_decide (ConfDir ipam = "") then set_ConfDir ipam DefaultConfDir else ipam) =
    or_empty (ConfDir ipam) DefaultConfDir) as E by (unfold or_empty; by case_bool_decide).
  rewrite E. unfold first_text, or_empty. simpl.
  destruct (loadFromConfFile _) as [| |fc]; cbn [rbind]; [|done|];
    destruct (bool_decide (ConfDir ipam = "")); simpl; unfold or_empty;
    destruct (ForcePoolName ipam) as [[]|]; try destruct (ForcePoolName fc) as [[]|]; simpl; repeat case_bool_decide;
    simplify_eq; try done; split_and!; try done; by eexists.
Qed.
End loader_facts.

(** ** Reading back the response *)

Definition same_net (a b : IPNet) : Prop := ip_equiv (net_IP a) (net_IP b) ∧ net_Mask a = net_Mask b.

(** The address the runtime gets for an allocation. *)
Definition same_address (a : PoolAlloc) (c : cni_ip) : Prop :=
  same_net (Address (pal_IPConfig a)) (ci_Address c) ∧ ip_equiv (ic_Gateway (pal_IPConfig a)) (ci_Gateway c).

(** The routes of an allocation, through its gateway. *)
Definition same_route (g : IP * IPNet) (r : cni_route) : Prop := same_net (g.2) (cr_Dst r) ∧ ip_equiv (g.1) (cr_GW r).
Definition alloc_routes (a : PoolAlloc) : list (IP * IPNet) := pair (ic_Gateway (pal_IPConfig a)) <$> pal_Routes a.

(** A network that is not an IPv6 network with IPv4-mapped addresses. *)
Definition std_net (n : IPNet) : Prop := ∃ f base ones, net_ok f base ones ∧ n = net_of f base ones.

(** A network the handler returns: a standard one or a default route. *)
Definition route_net_ok (n : IPNet) : Prop := std_net n ∨ ∃ gw, n = createDefaultRoute gw.

Lemma same_net_refl n : same_net n n.
Proof. done. Qed.

Lemma route_read n : route_net_ok n → ∃ ip n', ParseCIDR (IPNet_String n) = Some (ip, n') ∧ same_net n n'.
Proof.
  intros [(f & base & ones & Hn & ->)|[gw ->]].
  - rewrite ParseCIDR_String by done. eexists _, _. split; [done|apply same_net_refl].
  - unfold createDefaultRoute. destruct (negb _).
    + eexists _, (net_of F4 0 0). split; [vm_compute; reflexivity|]. split; vm_compute; reflexivity.
    + eexists _, (net_of F6 0 0). split; [vm_compute; reflexivity|]. split; vm_compute; reflexivity.
Qed.

Lemma result_routes_read gw gw' l :
  ip_equiv gw gw' → Forall route_net_ok l →
  ∃ rs, result_routes gw' (IPNet_String <$> l) = Ok rs ∧ Forall2 same_route (pair gw <$> l) rs.
Proof.
  intros Hg. induction 1 as [|n l Hn _ (rs & IH & Hrs)]; [by exists []|].
  destruct (route_read n Hn) as (ip & n' & E & Hs). cbn [fmap list_fmap result_routes]. rewrite E.
  change (list_fmap _ _ IPNet_String l) with (IPNet_String <$> l). rewrite IH. cbn [rbind]. eexists. split; [done|].
  by constructor.
Qed.

(** *** The routes the handler returns *)

Lemma insert_right_elem {A} (cmp : A → A → Z) x rl y : y ∈ insert_right cmp x rl → y = x ∨ y ∈ rl.
Proof.
  induction rl as [|z rl IH]; simpl; [rewrite list_elem_of_singleton; auto|].
  destruct (cmp x z <? 0); rewrite ?elem_of_cons; [|tauto]. intros [->|?%IH]; tauto.
Qed.

Lemma SortFunc_elem {A} (cmp : A → A → Z) l y : y ∈ SortFunc cmp l → y ∈ l.
Proof.
  unfold SortFunc. rewrite list_elem_of_In, <- in_rev, <- list_elem_of_In.
  assert (∀ acc, y ∈ foldl (λ rl x, insert_right cmp x rl) acc l → y ∈ acc ∨ y ∈ l) as H.
  { induction l as [|x l IH]; intros acc; simpl; [auto|]. intros [?%insert_right_elem|?]%IH; rewrite elem_of_cons; tauto. }
  intros [?%not_elem_of_nil|?]%H; done.
Qed.

Lemma CompactFunc_elem {A} (eq : A → A → bool) l y : y ∈ CompactFunc eq l → y ∈ l.
Proof.
  destruct l as [|x l]; [done|]. simpl. rewrite !elem_of_cons. intros [->|H]; [by left|right]. revert x H.
  induction l as [|z l IH]; intros x; simpl; [done|].
  destruct (eq z x); rewrite ?elem_of_cons; [by intros ?%IH; right|]. intros [->|?%IH]; auto.
Qed.

Lemma parse_routes_elem cfg nets n :
  parse_routes cfg = Ok nets → n ∈ nets → ∃ dst ip, dst ∈ cfg ∧ ParseCIDR dst = Some (ip, n).
Proof.
  revert nets. induction cfg as [|dst cfg IH]; intros nets; simpl; [by intros [= <-] ?%not_elem_of_nil|].
  destruct (ParseCIDR dst) as [[ip n']|] eqn:E; [|done]. destruct (parse_routes cfg) as [rest|]; cbn [rbind]; [|done].
  intros [= <-] [->|Hin]%elem_of_cons; [eexists _, _; split; [apply list_elem_of_here|done]|].
  destruct (IH rest eq_refl Hin) as (d & ip' & ? & ?). eexists _, _. split; [by right|done].
Qed.

(** The configured routes are standard networks. *)
Definition cfg_routes (p : Pool) : Prop := ∀ dst ip n, dst ∈ p_Routes p → ParseCIDR dst = Some (ip, n) → std_net n.

Lemma getRoutes_ok gw p dg routes :
  cfg_routes p → getRoutes gw (p_Routes p) dg = Ok routes → Forall route_net_ok routes.
Proof.
  intros Hp. unfold getRoutes. destruct (is_nil gw); [by intros [= <-]|].
  destruct (parse_routes (p_Routes p)) as [nets|] eqn:E; cbn [rbind]; [|done]. intros [= <-].
  apply Forall_forall. intros n Hn. unfold sortAndDedupIPNets in Hn.
  assert (n ∈ if dg then nets ++ [createDefaultRoute gw] else nets) as Hn'.
  { case_bool_decide; [done|]. by apply CompactFunc_elem, SortFunc_elem in Hn. }
  destruct (decide (n ∈ nets)) as [Hin|Hnin].
  - left. destruct (parse_routes_elem _ _ _ E Hin) as (dst & ip & Hd & Ed). by eapply Hp.
  - right. destruct dg; [|done]. apply elem_of_app in Hn' as [?|?%list_elem_of_singleton]; [done|]. by eexists.
Qed.

(** *** One allocation *)

Lemma addr_string_ne f x : addr_string f x ≠ "".
Proof. intros E. pose proof (ParseAddr_addr_string f x) as H. by rewrite E in H. Qed.

Lemma result_alloc_read type a f base ones ip x :
  net_ok f base ones → addr_of ip = Some (f, x) → base ≤ x < base + net_size f ones →
  Address (pal_IPConfig a) = mkIPNet ip (mask_loop (fam_len f) ones) →
  (is_nil (ic_Gateway (pal_IPConfig a)) = true ∧ pal_Routes a = [] ∨
   valid_ip (ic_Gateway (pal_IPConfig a)) ∧ Forall route_net_ok (pal_Routes a)) →
  ∃ c rs, result_alloc (allocationInfo type a) = Ok (c, rs) ∧ same_address a c ∧ Forall2 same_route (alloc_routes a) rs.
Proof.
  intros Hn Hip Hx HA Hg. pose proof (ParseCIDR_address _ _ _ _ _ Hn Hip Hx) as HP.
  set (c := mkIPNet (To16 (ip_of f x)) (mask_loop (fam_len f) ones)).
  assert (same_net (Address (pal_IPConfig a)) c) as Hs.
  { rewrite HA. split; [|done]. unfold ip_equiv. simpl. rewrite Hip. symmetry. by apply addr_of_To16_ip_of, (addr_of_ok ip). }
  assert (IPNet_String (Address (pal_IPConfig a)) ≠ "") as Hne by (rewrite HA; intros E; by rewrite E in HP).
  unfold result_alloc, allocationInfo, alloc_routes. destruct Hg as [[Hg Hr]|[(g & y & Hg) Hr]].
  - rewrite Hg, Hr. simpl. rewrite bool_decide_false by done. rewrite HA, HP. simpl. eexists _, []. split; [done|].
    split; [|constructor]. split; [exact Hs|]. apply bool_decide_eq_true in Hg. by rewrite Hg.
  - rewrite (is_nil_valid _ _ _ Hg). simpl. rewrite bool_decide_false by done. rewrite HA, HP.
    rewrite (IP_String_addr _ _ _ Hg), bool_decide_false by apply addr_string_ne.
    pose proof (ParseIP_addr_string g y (addr_of_ok _ _ _ Hg)) as Hg'. rewrite (is_nil_valid _ _ _ Hg').
    assert (ip_equiv (ic_Gateway (pal_IPConfig a)) (ParseIP (addr_string g y))) as Heq by (unfold ip_equiv; congruence).
    destruct (result_routes_read _ _ _ Heq Hr) as (rs & -> & Hrs). cbn [rbind]. eexists _, _. split; [done|].
    split; [|done]. split; [exact Hs|done].
Qed.

Lemma granted_read Pool_String now h params type s s' pn a :
  (∀ k p, GetPoolByKey (poolConfReader h) k = Some p → cfg_routes p) →
  granted Pool_String now h params s s' pn a →
  ∃ c rs, result_alloc (allocationInfo type a) = Ok (c, rs) ∧ same_address a c ∧ Forall2 same_route (alloc_routes a) rs.
Proof.
  intros Hcfg [p f base ones lo hi want ip x Hp [Hn _ _ _ _] _ Hip Hx _ _ HA Hgw Hr _].
  eapply result_alloc_read; [done..|].
  destruct (is_nil (ic_Gateway (pal_IPConfig a))) eqn:Eg; [left|right].
  - split; [done|]. unfold getRoutes in Hr. rewrite Eg in Hr. by injection Hr as <-.
  - split; [|by eapply getRoutes_ok, Hr; eapply Hcfg]. rewrite Hgw in *. destruct (wants_gateway params); [done|].
    destruct (addr_of (ParseIP (p_Gateway p))) as [[g y]|] eqn:E; [|by rewrite NormalizeIP_invalid in Eg].
    exists g, y. rewrite (NormalizeIP_valid _ _ _ E). by apply addr_of_ip_of, (addr_of_ok (ParseIP (p_Gateway p))).
Qed.

Lemma response_read Pool_String now h params type s s' pools allocs :
  (∀ k p, GetPoolByKey (poolConfReader h) k = Some p → cfg_routes p) →
  Forall2 (granted Pool_String now h params s s') pools allocs →
  ∃ res, grpcRespToResult (map (allocationInfo type) allocs) = Ok res ∧
    Forall2 same_address allocs (res_IPs res) ∧ Forall2 same_route (allocs ≫= alloc_routes) (res_Routes res).
Proof.
  intros Hcfg. induction 1 as [|pn a pools allocs Hg _ (res & E & H1 & H2)]; [by eexists|].
  destruct (granted_read _ _ _ _ type _ _ _ _ Hcfg Hg) as (c & rs & Ea & Hc & Hrs).
  cbn [map grpcRespToResult]. rewrite Ea. cbn [rbind]. rewrite E. cbn [rbind]. eexists. split; [done|].
  split; [by constructor|]. simpl. by apply Forall2_app.
Qed.

(** ** Properties *)

Section properties.
Context (Unmarshal : string → option (option NetConf)) (loadFromConfFile : string → conf_file)
  (LoadArgs : string → result string IPAMEnvArgs) (NewGRPCClientFunc : string → option string).

(** C29: A configuration the plugin loads gives a request the daemon accepts, for a
    container and an interface with a name.  The configuration has one or two named
    pools, a pod name and namespace, valid requested addresses and at most one of the
    features; the request has exactly the pools, the pool type, the container and the
    interface, the data of the pod and the features of the configuration, and requested
    addresses that parse to the ones that were loaded.  The decoder is assumed not to
    fill the requested addresses, which have no JSON name. *)
Theorem cni_request_accepted args n c :
  internal_unset Unmarshal → LoadConf Unmarshal loadFromConfFile LoadArgs args = Some (Ok (n, c)) →
  ContainerID args ≠ "" → IfName args ≠ "" →
  let req := cniConfToGRPCReq n c args in
  validateReq (Some req) = None ∧ conf_ok c ∧ poolTypeAsString (pa_PoolType req) = ic_PoolType c ∧
  Forall2 ip_equiv (RequestedIPs c) (requested req) ∧
  pa_Pools req = ic_Pools c ∧ CniContainerid req = ContainerID args ∧ CniIfname req = IfName args ∧
  pa_Metadata req = Some (mkIPAMMetadata (md_PodName c) (md_PodNamespace c) (md_PodUID c) (DeviceID n)) ∧
  Features req = Some (mkIPAMFeatures (ft_AllocateDefaultGateway c) (ft_AllocateIPWithIndex c)).
Proof.
  intros Hu Hl Hid Hif. pose proof (LoadConf_ok _ _ _ _ _ _ Hu Hl) as Hc. cbv zeta.
  pose proof Hc as [(Hlen & Hne) Ht (Hpod & Hns) Hips Hft].
  assert (Forall2 ip_equiv (RequestedIPs c) (requested (cniConfToGRPCReq n c args))) as Hreq.
  { unfold requested. simpl. clear -Hips. induction Hips as [|ip l (f & x & Hx) _ IH]; simpl; constructor; [|done].
    unfold ip_equiv. by rewrite (ParseIP_String _ _ _ Hx). }
  split_and!; [|done| |done..].
  - unfold validateReq. simpl. rewrite !bool_decide_false by lia. simpl.
    rewrite (proj2 (first_bad_None _ _ _)) by (eapply Forall_impl; [exact Hne|]; intros; by apply bool_decide_true).
    rewrite !bool_decide_false by done.
    rewrite (proj2 (first_bad_None _ _ _)).
    + destruct (ft_AllocateDefaultGateway c) eqn:Eg; [|done]. simpl in Hft.
      destruct (RequestedIPs c) as [|ip l] eqn:Er; [done|]. exfalso. rewrite (bool_decide_true (ip :: l ≠ [])) in Hft by done.
      destruct (bool_decide (is_Some _)); simpl in Hft; lia.
    + apply Forall_fmap. eapply Forall_impl; [exact Hips|]. intros ip (f & x & Hx). simpl.
      by rewrite (is_nil_valid _ _ _ (ParseIP_String _ _ _ Hx)).
  - simpl. destruct Ht as [-> | ->]; vm_compute; reflexivity.
Qed.

(** C28: When the daemon grants the request of [CmdAdd], the command succeeds: the
    result has one address for each pool, in the order of the pools, equal to the
    one that is now reserved, with its mask and gateway, and the routes of the
    pools through their gateways. *)
Theorem cni_add_result `{RootCodecLaws} Pool_String e h st st' infos args params :
  reachable (st, None) → cfg_nets h → (∀ k p, GetPoolByKey (poolConfReader h) k = Some p → cfg_routes p) →
  prepareCMD Unmarshal loadFromConfFile LoadArgs NewGRPCClientFunc args = Some (Ok params) →
  Handlers_Allocate Pool_String e h st (Some params) = Some (st', Ok infos) →
  let ps := setDefaultsToParams params in
  ∃ r r' allocs res, loaded st r ∧ persistedData st' = Some r' ∧
    all_granted Pool_String (env_now e) h ps (newStore r) (newStore r') (pa_Pools ps) allocs ∧
    CmdAdd Unmarshal loadFromConfFile LoadArgs NewGRPCClientFunc (λ _, Ok infos) args = Some (Ok res) ∧
    Forall2 same_address allocs (res_IPs res) ∧ Forall2 same_route (allocs ≫= alloc_routes) (res_Routes res).
Proof.
  intros Hr Hcfg Hrt Hp E. destruct (Allocate_granted _ _ _ _ _ _ _ Hr Hcfg E) as (r & r' & allocs & Hld & Hper & _ & -> & Hall & _).
  destruct (response_read _ _ _ _ (pa_PoolType (setDefaultsToParams params)) _ _ _ _ Hrt (proj1 Hall)) as (res & Eres & H1 & H2).
  exists r, r', allocs, res. split_and!; try done. unfold CmdAdd. rewrite Hp. cbn [mbind option_bind]. by rewrite Eres.
Qed.
(** Where the settings of a loaded configuration come from.  The daemon socket is
    the first one given by the JSON of the runtime, the file, the default.  The
    pools are the ones of the arguments, else those of the JSON, of the file, or,
    unless a pool name is required, the name of the network; likewise the pool
    type.  The requested addresses are those of the runtime configuration, else
    of the arguments, else of [CNI_ARGS]. *)
Theorem cni_settings_precedence args n c :
  internal_unset Unmarshal → LoadConf Unmarshal loadFromConfFile LoadArgs args = Some (Ok (n, c)) →
  ∃ ipam fc, Unmarshal (StdinData args) = Some (Some n) ∧ nc_IPAM n = Some ipam ∧ file_conf loadFromConfFile ipam = Some fc ∧
    DaemonSocket c = first_text [DaemonSocket ipam; DaemonSocket fc; DefaultDaemonSocket] ∧
    ic_PoolType c = ToLower (first_text [match args_cni n with Some a => ar_PoolType a | None => "" end;
                                         ic_PoolType ipam; ic_PoolType fc; PoolTypeIPPool]) ∧
    (let names := match args_cni n with Some a => PoolNames a | None => [] end in
     let forced := match ForcePoolName ipam with Some b => Some b | None => ForcePoolName fc end in
     ic_Pools c = if bool_decide (names ≠ []) then names
                  else split_comma (first_text [PoolName ipam; PoolName fc;
                                                if bool_decide (forced = Some true) then "" else nc_Name n])) ∧
    RequestedIPs c = parseIP <$> (if bool_decide (requested_texts n ≠ []) then requested_texts n else env_ip LoadArgs args).
Proof.
  intros Hu (ipam & c1 & force & ips & c3 & c4 & pools & type & Eu & Ei & Es & Hf & Ep & Ee & Ef & Hpools & Htype & ->)%LoadConf_inv.
  pose proof (loadSettings_spec loadFromConfFile ipam) as Hs. rewrite Es in Hs.
  destruct (file_conf _ ipam) as [fc|] eqn:Efc; [|done]. destruct Hs as (_ & Hforce & Hname & Htype1 & Hsock).
  pose proof (named_ips _ n force _ _ Es) as En. rewrite (Hu _ _ _ Eu Ei) in En. rewrite En in Ee.
  apply loadEnvCNIArgs_ok in Ee as (_ & _ & _ & Hset & Hips); [|by eapply parse_ips_valid].
  apply loadFeatures_ok in Ef as (_ & _ & E5 & Hset' & _). rewrite Hset in Hset'. injection Hset' as Hpn Hpt Hds. simpl in Hpn, Hpt, Hds.
  assert (PoolName (named n force c1) = if force then PoolName c1 else or_empty (PoolName c1) (nc_Name n)) as Enm.
  { unfold named, or_empty. destruct force; simpl; [done|]. by destruct (bool_decide (PoolName c1 = "")). }
  assert (ic_PoolType (named n force c1) = ic_PoolType c1 ∧ DaemonSocket (named n force c1) = DaemonSocket c1) as [Ety Eds]
    by (unfold named; by destruct (_ && _)).
  exists ipam, fc. split_and!; [done..|change (DaemonSocket (set_Pools c4 pools type)) with (DaemonSocket c4); congruence| | |].
  - revert Htype. unfold getPoolType, args_cni. intros (t & Ht & Hty)%bind_Some. cbv zeta in Hty.
    assert (type = ToLower t) as -> by (destruct (_ && _); simplify_eq; done). simpl. f_equal.
    rewrite Hpt, Ety, Htype1 in Ht. destruct (nc_Args n) as [[a|]|]; simplify_eq/=; [|done].
    unfold or_empty. by repeat case_bool_decide.
  - cbv zeta. revert Hpools. unfold getPools, args_cni. intros (names & Hn & Hp)%bind_Some.
    assert (match nc_Args n ≫= id with Some a => PoolNames a | None => [] end = names) as ->
      by (destruct (nc_Args n) as [[a|]|]; simplify_eq/=; done).
    change (ic_Pools (set_Pools c4 pools type)) with pools. case_bool_decide as E1.
    { cbn [rbind] in Hp. repeat case_match; simplify_eq; done. }
    assert (PoolName c4 = first_text [PoolName ipam; PoolName fc;
      if bool_decide (match ForcePoolName ipam with Some b => Some b | None => ForcePoolName fc end = Some true) then "" else nc_Name n]) as <-.
    { rewrite Hpn, Enm, Hname. rewrite <- (bool_decide_ext _ _ Hforce), Hf. unfold first_text. simpl.
      destruct force; [rewrite bool_decide_true by done|rewrite bool_decide_false by done]; [done|].
      unfold or_empty. by repeat case_bool_decide. }
    case_bool_decide; [done|]. cbn [rbind] in Hp. repeat case_match; simplify_eq; done.
  - simpl. rewrite E5, Hips. apply parse_ips_map in Ep as ->. simpl.
    destruct (requested_texts n); [by rewrite !bool_decide_false by (by intros [])|by rewrite !bool_decide_true by done].
Qed.

(** The loader returns, with a configuration or an error, unless the JSON is
    [null], or has [args] without [cni]; with such arguments it never succeeds. *)
Theorem load_conf_returns args :
  (Unmarshal (StdinData args) ≠ Some None → (∀ n, Unmarshal (StdinData args) = Some (Some n) → nc_Args n ≠ Some None) →
   is_Some (LoadConf Unmarshal loadFromConfFile LoadArgs args)) ∧
  (∀ n, Unmarshal (StdinData args) = Some (Some n) → nc_Args n = Some None →
   ∀ r, LoadConf Unmarshal loadFromConfFile LoadArgs args ≠ Some (Ok r)).
Proof.
  split.
  - intros Hnull Hargs. unfold LoadConf. destruct (Unmarshal (StdinData args)) as [[n|]|] eqn:Eu; [|done|by eexists].
    specialize (Hargs n eq_refl). destruct (nc_IPAM n) as [ipam|]; [|by eexists].
    pose proof (loadSettings_spec loadFromConfFile ipam) as Hs.
    destruct (loadSettings _ ipam) as [c1|]; [|by eexists]. destruct (file_conf _ ipam); [|done].
    destruct Hs as ([force ->] & _). cbn [mbind option_bind]. destruct (parse_ips _); [|by eexists].
    destruct (loadEnvCNIArgs _ _ _) as [c3|]; cbn [rbind]; [|by eexists].
    destruct (loadFeatures n c3) as [c4|]; [|by eexists].
    unfold getPools, getPoolType. destruct (nc_Args n) as [[a|]|]; [|done|]; cbn [mbind option_bind];
      match goal with |- context [match ?r with Ok _ => _ | Err _ => _ end] => destruct r end; by eexists.
  - intros n Eu En [n' c] (ipam & c1 & force & ips & c3 & c4 & pools & type & Eu' & _ & _ & _ & _ & _ & _ & Hp & _)%LoadConf_inv.
    rewrite Eu in Eu'. injection Eu' as <-. unfold getPools in Hp. by rewrite En in Hp.
Qed.
End properties.

(** *** Witnesses and examples *)

Definition json_conf (args : option (option IPAMArgs)) : NetConf :=
  mkNetConf "net" "0.4.0" (Some (plain_conf None "p" "" "" 0 "" "" "")) "" [] args.
Definition json_decode (args : option (option IPAMArgs)) (s : string) : option (option NetConf) :=
  if bool_decide (s = "null") then Some None else Some (Some (json_conf args)).
Definition no_file (_ : string) : conf_file := ConfMissing.
Definition pod_args (_ : string) : result string IPAMEnvArgs := Ok (mkIPAMEnvArgs "" "a" "b" "").
Definition cmd_args (stdin : string) : CmdArgs := mkCmdArgs "c" "i" "" stdin.
Definition cmd_request : IPAMParameters :=
  mkIPAMParameters ["p"] "c" "i" (Some (mkIPAMMetadata "a" "b" "" "")) POOL_TYPE_IPPOOL [] (Some (mkIPAMFeatures false None)).

Lemma json_internal_unset args : internal_unset (json_decode args).
Proof. intros s n ipam. unfold json_decode. case_bool_decide; [done|]. intros [= <-] [= <-]. done. Qed.

(** The loader dereferences [args.cni] without a check. *)
Example load_conf_args_without_cni : LoadConf (json_decode (Some None)) no_file pod_args (cmd_args "{}") = None.
Proof. vm_compute. reflexivity. Qed.

Lemma load_conf_returns_witness :
  is_Some (LoadConf (json_decode None) no_file pod_args (cmd_args "{}")).
Proof.
  apply (proj1 (load_conf_returns (json_decode None) no_file pod_args (cmd_args "{}"))).
  - vm_compute. discriminate.
  - intros n E. vm_compute in E. injection E as <-. discriminate.
Defined.

Lemma cni_request_accepted_witness :
  ∃ n c, LoadConf (json_decode None) no_file pod_args (cmd_args "{}") = Some (Ok (n, c)) ∧
    validateReq (Some (cniConfToGRPCReq n c (cmd_args "{}"))) = None.
Proof.
  destruct (LoadConf (json_decode None) no_file pod_args (cmd_args "{}")) as [[[n c]|]|] eqn:E; vm_compute in E;
    [|discriminate E..].
  exists n, c. split; [reflexivity|].
  apply (cni_request_accepted (json_decode None) no_file pod_args (cmd_args "{}") n c (json_internal_unset None));
    [injection E as <- <-; vm_compute; reflexivity|vm_compute; discriminate..].
Defined.

Lemma cni_settings_precedence_witness :
  ∃ n c, LoadConf (json_decode None) no_file pod_args (cmd_args "{}") = Some (Ok (n, c)) ∧
    ∃ ipam fc, nc_IPAM n = Some ipam ∧ DaemonSocket c = first_text [DaemonSocket ipam; DaemonSocket fc; DefaultDaemonSocket].
Proof.
  destruct (LoadConf (json_decode None) no_file pod_args (cmd_args "{}")) as [[[n c]|]|] eqn:E;
    [|vm_compute in E; discriminate E..].
  exists n, c. split; [reflexivity|].
  destruct (cni_settings_precedence (json_decode None) no_file pod_args (cmd_args "{}") n c (json_internal_unset None) E)
    as (ipam & fc & _ & Hi & _ & Hs & _). exists ipam, fc. split; [exact Hi|exact Hs].
Defined.

Lemma node_cfg_routes k p : GetPoolByKey (poolConfReader node_handlers) k = Some p → cfg_routes p.
Proof.
  unfold node_handlers, poolConfReader. destruct (decide (k = "p")) as [->|Hne].
  2: { rewrite GetPoolByKey_UpdatePool_ne by done. by intros ?%(lookup_empty_Some k p). }
  rewrite GetPoolByKey_UpdatePool. intros [= <-] dst ip n Hd. simpl in Hd.
  assert (dst = "10.0.0.0/8") as -> by (repeat (apply elem_of_cons in Hd as [?|Hd]; [done|]); by apply not_elem_of_nil in Hd).
  intros E. vm_compute in E. injection E as _ <-. exists F4, (10 * 2 ^ 24), 8. split; [by apply net_okb_ok|vm_compute; reflexivity].
Qed.

Lemma cni_add_result_witness :
  ∃ st' infos res, Handlers_Allocate (H := bits_codec) (λ _, "") (calm 0) node_handlers node_store (Some cmd_request) =
      Some (st', Ok infos) ∧
    CmdAdd (json_decode None) no_file pod_args (λ _, None) (λ _, Ok infos) (cmd_args "{}") = Some (Ok res).
Proof.
  assert (match Handlers_Allocate (H := bits_codec) (λ _, "") (calm 0) node_handlers node_store (Some cmd_request) with
          | Some (_, Ok _) => true | _ => false end = true) as Hv by (vm_compute; reflexivity).
  destruct (Handlers_Allocate (H := bits_codec) (λ _, "") (calm 0) node_handlers node_store (Some cmd_request))
    as [[st' [infos|err]]|] eqn:E; [|discriminate Hv..].
  destruct (cni_add_result (json_decode None) no_file pod_args (λ _, None) (H := bits_codec) (λ _, "") (calm 0) node_handlers
    node_store st' infos (cmd_args "{}") cmd_request node_store_reachable node_cfg_nets node_cfg_routes
    ltac:(vm_compute; reflexivity) E) as (_ & _ & _ & res & _ & _ & _ & Hc & _).
  exists st', infos, res. split; [reflexivity|exact Hc].
Defined.

(** The whole way of a request: configuration, daemon, result. *)
Example cni_add_example :
  match first_answer cmd_request with
  | Some (Ok infos) =>
      match CmdAdd (json_decode None) no_file pod_args (λ _, None) (λ _, Ok infos) (cmd_args "{}") with
      | Some (Ok res) =>
          Some (map (λ c, (IPNet_String (ci_Address c), IP_String (ci_Gateway c))) (res_IPs res),
                map (λ r, (IPNet_String (cr_Dst r), IP_String (cr_GW r))) (res_Routes res))
      | _ => None
      end
  | _ => None
  end = Some ([("192.168.0.4/24", "192.168.0.1")],
              [("0.0.0.0/0", "192.168.0.1"); ("10.0.0.0/8", "192.168.0.1")]).
Proof. vm_compute. reflexivity. Qed.
