(* ===== verification/Options.v ===== *)
(** * The options of the node daemon: [cmd/ipam-node/app/options/options.go]

    The options, their defaults and their validation.  The validation looks at the
    file system, so it is a program of [FileSystem].  [url.Parse] and the validation
    of the logging options, which the Kubernetes libraries do, are parameters. *)

From Stdlib Require Import Strings.Ascii.
From S2P Require Import Prelude GoNet Cidr GoNetText Json FileSystem PoolManager Handlers Cni.

Definition DefaultStoreFile : string := "/var/lib/cni/nv-ipam/store".
Definition DefaultBindAddress : string := DefaultDaemonSocket.
(** Durations are in nanoseconds. *)
Definition DefaultStaleIPCheckInterval : Z := 60 * 10 ^ 9.
Definition DefaultStaleIPCheckCountBeforeRelease : Z := 3.
Definition DefaultReleasedIPCooldown : Z := 0.

Record Options := mkOptions {
  MetricsAddr : string;
  ProbeAddr : string;
  o_NodeName : string;
  PoolsNamespace : string;
  BindAddress : string;
  StoreFile : string;
  (* shim CNI parameters *)
  CNIBinDir : string;
  CNIBinFile : string;
  CNISkipBinFileCopy : bool;
  CNISkipConfigCreation : bool;
  CNIConfDir : string;
  CNIDaemonSocket : string;
  CNIDaemonCallTimeoutSeconds : Z;
  CNILogFile : string;
  CNILogLevel : string;
  CNIForcePoolName : bool;
  (* stale IP allocations cleanup *)
  StaleIPCheckInterval : Z;
  StaleIPCheckCountBeforeRelease : Z;
  ReleasedIPCooldown : Z;
}.

Definition New : Options := {|
  MetricsAddr := ":8080";
  ProbeAddr := ":8081";
  o_NodeName := "";
  BindAddress := DefaultBindAddress;
  StoreFile := DefaultStoreFile;
  PoolsNamespace := "kube-system";
  CNIBinDir := "/opt/cni/bin";
  CNIBinFile := "/nv-ipam";
  CNISkipBinFileCopy := false;
  CNISkipConfigCreation := false;
  CNIDaemonSocket := DefaultDaemonSocket;
  CNIDaemonCallTimeoutSeconds := 5;
  CNIConfDir := DefaultConfDir;
  CNILogLevel := DefaultLogLevel;
  CNILogFile := DefaultLogFile;
  CNIForcePoolName := false;
  StaleIPCheckInterval := DefaultStaleIPCheckInterval;
  StaleIPCheckCountBeforeRelease := DefaultStaleIPCheckCountBeforeRelease;
  ReleasedIPCooldown := DefaultReleasedIPCooldown;
|}.

(** The fields of [url.URL] in use. *)
Record URL := mkURL { Scheme : string; Host : string; Path : string }.

Section validate.
(** [url.Parse], and [logsapi.ValidateAndApply] of the options all commands have. *)
Context (url_Parse : string → result string URL) (ValidateAndApply : option string).

Definition ParseBindAddress (addr : string) : result string (string * string) :=
  (let! u := url_Parse addr in
   if bool_decide (Scheme u = "tcp") then Ok (Scheme u, Host u)
   else if bool_decide (Scheme u = "unix") then Ok (Scheme u, Host u +:+ Path u)
   else Err "unsupported scheme")%ipam.

Definition verifyPaths (o : Options) : prog string unit :=
  (let? _ := Stat (Dir (StoreFile o)) else λ _, fail "dir for store-file is not found: %v" in
   let* _ :=
     if CNISkipBinFileCopy o then ret tt
     else
       let? _ := Stat (CNIBinFile o) else λ _, fail "cni-nv-ipam-bin-file is not found: %v" in
       let? _ := Stat (CNIBinDir o) else λ _, fail "cni-bin-dir is not found: %v" in
       ret tt in
   let* _ :=
     if CNISkipConfigCreation o then ret tt
     else
       let? _ := Stat (CNIConfDir o) else λ _, fail "cni-conf-dir is not found: %v" in
       ret tt in
   let? _ := Stat (Dir (CNILogFile o)) else λ _, fail "cni-log-file is not found: %v" in
   ret tt)%ipam.

Definition Options_Validate (o : Options) : prog string unit :=
  if bool_decide (o_NodeName o = "") then fail "node-name is required parameter"
  else if bool_decide (PoolsNamespace o = "") then fail "ippools-namespace is required parameter"
  else
    match ParseBindAddress (BindAddress o) with
    | Err err => fail ("bind-address is invalid: " +:+ err)
    | Ok _ =>
        if StaleIPCheckInterval o <=? 0 then fail "stale-ip-check-interval must be a positive duration"
        else if StaleIPCheckCountBeforeRelease o <? 1 then fail "stale-ip-check-count-before-release must be at least 1"
        else if ReleasedIPCooldown o <? 0 then fail "released-ip-cooldown must not be negative"
        else (let* _ := verifyPaths o in
              match ValidateAndApply with Some err => fail err | None => ret tt end)%ipam
    end.

(** ** What the validation establishes *)

(** There is something at the path. *)
Definition exists_at (f : fs) (s : string) : Prop := is_Some (at_path f s).

Record options_ok (o : Options) (f : fs) : Prop := {
  oo_node : o_NodeName o ≠ "";
  oo_namespace : PoolsNamespace o ≠ "";
  oo_bind : ∃ network address, ParseBindAddress (BindAddress o) = Ok (network, address) ∧ (network = "tcp" ∨ network = "unix");
  oo_interval : 0 < StaleIPCheckInterval o;
  oo_count : 1 ≤ StaleIPCheckCountBeforeRelease o;
  oo_cooldown : 0 ≤ ReleasedIPCooldown o;
  oo_store : exists_at f (Dir (StoreFile o));
  oo_bin : CNISkipBinFileCopy o = false → exists_at f (CNIBinFile o) ∧ exists_at f (CNIBinDir o);
  oo_conf : CNISkipConfigCreation o = false → exists_at f (CNIConfDir o);
  oo_log : exists_at f (Dir (CNILogFile o));
}.

(** A check of a path: the file system stays, and the check succeeds if the path
    exists and the call does not fail. *)
Definition checks (m : prog string unit) (P : fs → Prop) : Prop := ∀ e w,
  w_fs (m e w).1 = w_fs w ∧ ((m e w).2 = Ok tt → P (w_fs w)) ∧
  ((∀ n, io_fail e n = false) → P (w_fs w) → (m e w).2 = Ok tt).

Lemma checks_ret : checks (ret tt) (λ _, True).
Proof. by intros e w. Qed.

Lemma checks_Stat s msg (k : prog string unit) P :
  checks k P → checks (attempt (Stat s) (λ _, fail msg) (λ _, k)) (λ f, exists_at f s ∧ P f).
Proof.
  intros Hk e w. unfold attempt, Stat, syscall, exists_at. destruct (io_fail e (w_calls w)) eqn:Hf.
  - simpl. split; [done|]. split; [done|]. intros Hno. by rewrite Hno in Hf.
  - destruct (at_path (w_fs w) s) as [n|]; simpl.
    + destruct (Hk e (mkWorld (w_fs w) (w_fs w :: w_past w) (S (w_calls w)))) as (H1 & H2 & H3). split; [done|].
      split; [intros Hr; split; [by eexists|by apply H2]|]. intros Hno [_ HP]. by apply H3.
    + split; [done|]. split; [done|]. by intros _ [[? ?] _].
Qed.

Lemma checks_seq m k P Q : checks m P → checks k Q → checks (pbind m (λ _, k)) (λ f, P f ∧ Q f).
Proof.
  intros Hm Hk e w. unfold pbind. destruct (Hm e w) as (H1 & H2 & H3). destruct (m e w) as [w' [[]|err]]; simpl in *.
  - destruct (Hk e w') as (K1 & K2 & K3). rewrite H1 in *. split; [done|]. split; [intros Hr; split; [by apply H2|by apply K2]|].
    intros Hno [_ HQ]. by apply K3.
  - split; [done|]. split; [done|]. intros Hno [HP _]. by specialize (H3 Hno HP).
Qed.

Lemma checks_impl m (P Q : fs → Prop) : (∀ f, P f ↔ Q f) → checks m P → checks m Q.
Proof. intros HPQ Hm e w. destruct (Hm e w) as (H1 & H2 & H3). rewrite <- HPQ. by split_and!. Qed.

Lemma checks_skip (b : bool) m P : checks m P → checks (if b then ret tt else m) (λ f, b = false → P f).
Proof.
  intros Hm. destruct b; [by eapply checks_impl; [|apply checks_ret]|]. eapply checks_impl; [|exact Hm]. naive_solver.
Qed.

Lemma verifyPaths_checks o :
  checks (verifyPaths o) (λ f, exists_at f (Dir (StoreFile o)) ∧
    (CNISkipBinFileCopy o = false → exists_at f (CNIBinFile o) ∧ exists_at f (CNIBinDir o)) ∧
    (CNISkipConfigCreation o = false → exists_at f (CNIConfDir o)) ∧ exists_at f (Dir (CNILogFile o))).
Proof.
  unfold verifyPaths. apply checks_Stat, checks_seq; [|apply checks_seq].
  - apply checks_skip, checks_Stat. eapply checks_impl; [|apply checks_Stat, checks_ret]. naive_solver.
  - apply checks_skip. eapply checks_impl; [|apply checks_Stat, checks_ret]. naive_solver.
  - eapply checks_impl; [|apply checks_Stat, checks_ret]. naive_solver.
Qed.

Lemma ParseBindAddress_network addr network address :
  ParseBindAddress addr = Ok (network, address) → network = "tcp" ∨ network = "unix".
Proof.
  unfold ParseBindAddress. destruct (url_Parse addr) as [u|err]; simpl; [|done].
  case_bool_decide as H1; [intros [= <- _]; by left|]. case_bool_decide as H2; [intros [= <- _]; by right|done].
Qed.

(** The validation of the options of the node daemon does not change the files.
    Options it accepts have a node name and a namespace, a bind address with a
    supported scheme, a positive interval between checks, at least one check before
    a release, a cooldown that is not negative, and existing paths for what is not
    skipped; if no system call fails, exactly these options are accepted, provided
    the logging options are valid. *)
Theorem options_validation_exact o e w :
  let '(w', r) := Options_Validate o e w in
  w_fs w' = w_fs w ∧
  (r = Ok tt → options_ok o (w_fs w) ∧ ValidateAndApply = None) ∧
  ((∀ n, io_fail e n = false) → options_ok o (w_fs w) → ValidateAndApply = None → r = Ok tt).
Proof.
  unfold Options_Validate.
  case_bool_decide as H1; [split_and!; [done..|by intros _ []]|].
  case_bool_decide as H2; [split_and!; [done..|by intros _ []]|].
  destruct (ParseBindAddress (BindAddress o)) as [[net addr]|err] eqn:Hb; [|split_and!; [done..|intros _ Ho; destruct (oo_bind _ _ Ho) as (? & ? & ? & _); congruence]].
  destruct (Z.leb_spec (StaleIPCheckInterval o) 0); [split_and!; [done..|intros _ []; lia]|].
  destruct (Z.ltb_spec (StaleIPCheckCountBeforeRelease o) 1); [split_and!; [done..|intros _ []; lia]|].
  destruct (Z.ltb_spec (ReleasedIPCooldown o) 0); [split_and!; [done..|intros _ []; lia]|].
  destruct (verifyPaths_checks o e w) as (Hf & Hok & Hno). unfold pbind. destruct (verifyPaths o e w) as [w' [[]|err]]; simpl in *.
  - destruct (Hok eq_refl) as (P1 & P2 & P3 & P4). destruct ValidateAndApply as [err|]; simpl; [by split_and!|].
    split; [done|]. split; [|done]. intros _. split; [|done]. split; try done.
    exists net, addr. split; [done|]. by eapply ParseBindAddress_network.
  - split; [done|]. split; [done|]. intros Hn [] _. apply Hno; [done|]. by split_and!.
Qed.
End validate.
