(* ===== verification/CopyFile.v ===== *)
(** * The copy of the plugin: [CopyFileAtomic] of [pkg/cmdutils/utils.go]

    The function as a program of [FileSystem], and the proofs that it is atomic
    whatever fails, and that it succeeds when nothing does. *)

From Stdlib Require Import Strings.Ascii.
From S2P Require Import Prelude GoNet Cidr GoNetText Json FileSystem.

(** ** CopyFileAtomic *)

Definition mode_of (n : node) : Z := match n with File _ m => m | _ => 0 end.

Definition remove_if_exists (tempFilePath : string) : prog string unit :=
  (let? _ := Stat tempFilePath else λ _, ret tt in
   let? _ := Remove tempFilePath else λ _, fail "cannot remove old temp file %q: %v" in
   ret tt)%ipam.

(** The end of the copy: the temporary file gets the mode of the source and the name
    of the destination. *)
Definition replace_file (f srcFilePath destFilePath : string) : prog string unit :=
  (let? srcFileStat := Stat srcFilePath else λ _, fail "stat %s: %v" in
   let? _ := Chmod f (mode_of srcFileStat) else λ _, fail "cannot set stat on temp file %q: %v" in
   let? _ := Rename f destFilePath else λ _, fail "cannot replace %q with temp file %q: %v" in
   ret tt)%ipam.

Definition CopyFileAtomic (srcFilePath destDir tempFileName destFileName : string) : prog string unit :=
  let tempFilePath := Join destDir tempFileName in
  (let* _ := remove_if_exists tempFilePath in
   let? f := CreateTemp destDir tempFileName else λ _, fail "cannot create temp file %q in %q: %v" in
   let? srcFile := Open_file (Clean srcFilePath) else λ _, fail "cannot open file %q: %v" in
   let? _ := Copy f srcFile else λ _,
     (let? _ := Remove tempFilePath else λ _, fail "cannot write data to temp file %q: %v" in
      fail "cannot write data to temp file %q: %v") in
   let? _ := Flush else λ _, fail "cannot flush temp file %q: %v" in
   let? _ := Flush else λ _, fail "cannot close temp file %q: %v" in
   let destFilePath := Join destDir destFileName in
   let* _ := (let? _ := Stat destFilePath else λ err, if bool_decide (err = ENOENT) then ret tt else fail "stat %s: %v" in ret tt) in
   replace_file f srcFilePath destFilePath)%ipam.

(** ** The copy is atomic *)

Section copy.
Context (src dir tmp dst : string) (e : io_env) (f0 : fs).

(** The paths of temporary files. *)
Definition scratch (p : path) : Prop :=
  p = resolve (Join dir tmp) ∨ ∃ z, p = resolve (temp_name (if bool_decide (dir = "") then io_TempDir e else dir) tmp z).

(** Only temporary files have changed. *)
Definition untouched (w : world) : Prop := ∀ g, g ∈ visited w → ∀ p, ¬ scratch p → g !! p = f0 !! p.

Lemma untouched_cons w w' g :
  untouched w → visited w' = g :: visited w → (∀ p, ¬ scratch p → g !! p = w_fs w !! p) → untouched w'.
Proof.
  intros Hw Hv Hg h Hh p Hp. rewrite Hv in Hh. apply elem_of_cons in Hh as [->|Hh]; [|by apply Hw].
  rewrite Hg by done. apply Hw; [apply list_elem_of_here|done].
Qed.

Lemma untouched_same w w' : untouched w → visited w' = visited w → untouched w'.
Proof. intros Hw Hv g. rewrite Hv. apply Hw. Qed.

(** A call that does not change other files. *)
Lemma untouched_syscall {A} (act : io_env → nat → fs → result os_error (A * fs)) w :
  (∀ n f a g, act e n f = Ok (a, g) → ∀ p, ¬ scratch p → g !! p = f !! p) →
  untouched w → untouched (syscall act e w).1.
Proof.
  intros Hact Hw. pose proof (syscall_cases act e w) as H. destruct (syscall act e w) as [w' [a|err]]; simpl.
  - destruct H as (g & E & _ & Hv). eapply untouched_cons; [done..|]. by eapply Hact.
  - by eapply untouched_same.
Qed.

(** The calls that only look: the file system stays as it is. *)
Definition looks {A} (m : io A) (Q : fs → A → Prop) : Prop := ∀ w, untouched w →
  let '(w', r) := m e w in untouched w' ∧ w_fs w' = w_fs w ∧ match r with Ok a => Q (w_fs w) a | Err _ => True end.

Lemma looks_syscall {A} (act : io_env → nat → fs → result os_error (A * fs)) (Q : fs → A → Prop) :
  (∀ n f a g, act e n f = Ok (a, g) → g = f ∧ Q f a) → looks (syscall act) Q.
Proof.
  intros Hact w Hw. pose proof (untouched_syscall act w) as Hu. pose proof (syscall_cases act e w) as H.
  assert (untouched (syscall act e w).1) as Hw' by (apply Hu; [intros n f a g [-> _]%Hact|]; done).
  destruct (syscall act e w) as [w' [a|err]]; simpl in Hw'.
  - destruct H as (g & [-> HQ]%Hact & Hg & _). done.
  - split; [done|]. split; [|done]. by injection H.
Qed.

Lemma Stat_looks s : looks (Stat s) (λ f n, at_path f s = Some n).
Proof. apply looks_syscall. intros _ f n g. destruct (at_path f s); [|done]. by intros [= -> ->]. Qed.

Lemma Open_looks s : looks (Open_file s) (λ f n, at_path f s = Some n).
Proof. apply looks_syscall. intros _ f n g. destruct (at_path f s) as [[]|]; try done; by intros [= <- ->]. Qed.

Lemma Flush_looks : looks Flush (λ _ _, True).
Proof. apply looks_syscall. by intros _ f [] g [= ->]. Qed.

(** The removal of the temporary file of an earlier version. *)
Lemma Remove_untouched w : untouched w → untouched (Remove (Join dir tmp) e w).1.
Proof.
  apply untouched_syscall. intros _ f [] g E p Hp.
  assert (g = delete (resolve (Join dir tmp)) f) as -> by (repeat case_scrut_in E; by simplify_eq).
  apply lookup_delete_ne. intros <-. by apply Hp; left.
Qed.

Lemma remove_if_exists_untouched w : untouched w → untouched (remove_if_exists (Join dir tmp) e w).1.
Proof.
  intros Hw. unfold remove_if_exists, attempt. pose proof (Stat_looks (Join dir tmp) w Hw) as H.
  destruct (Stat _ e w) as [w1 [n|err]]; [|by destruct H]. destruct H as [H _]. pose proof (Remove_untouched w1 H) as H2.
  by destruct (Remove _ e w1) as [w2 []].
Qed.

(** The temporary file [name] of this copy has the data [d] and the mode [m]. *)
Definition holds (name : string) (w : world) (d : string) (m : Z) : Prop :=
  name ≠ "" ∧ scratch (resolve name) ∧ w_fs w !! resolve name = Some (File d m).

Lemma holds_look name w w' d m : holds name w d m → w_fs w' = w_fs w → holds name w' d m.
Proof. intros (? & ? & ?) E. split; [done|]. split; [done|]. by rewrite E. Qed.

Lemma CreateTemp_holds w :
  tmp ≠ "" → untouched w →
  let '(w', r) := CreateTemp dir tmp e w in
  untouched w' ∧ match r with Ok name => holds name w' "" 384 | Err _ => True end.
Proof.
  intros Ht Hw. set (d := if bool_decide (dir = "") then io_TempDir e else dir).
  assert (∀ n f name g, (if str_has slash tmp then Err EINVAL
    else if negb (is_dir f d) then Err ENOENT
    else match try_temp e f d tmp max_tries n with
         | None => Err EEXIST | Some name => Ok (name, <[resolve name := File "" 384]> f) end) = Ok (name, g) →
    name ≠ "" ∧ scratch (resolve name) ∧ g = <[resolve name := File "" 384]> f) as Hact.
  { intros n f name g E. destruct (str_has slash tmp); [done|]. destruct (negb _); [done|].
    destruct (try_temp _ _ _ _ _ _) as [name'|] eqn:Et; [|done]. injection E as -> <-.
    apply try_temp_spec in Et as (_ & z & ->). split; [by apply temp_name_ne|]. split; [|done]. right. by exists z. }
  match goal with |- let '(_, _) := CreateTemp _ _ e w in _ => unfold CreateTemp end.
  match goal with |- context [syscall ?act] => pose proof (untouched_syscall act w) as Hu; pose proof (syscall_cases act e w) as Hc;
    destruct (syscall act e w) as [w' [name|err]] end.
  - simpl in Hu. destruct Hc as (g & Hg & Hfs & _). destruct (Hact _ _ _ _ Hg) as (Hne & Hs & Eg). split.
    + apply Hu; [|done]. intros n f a h (_ & Hs' & ->)%Hact p Hp. apply lookup_insert_ne. by intros <-.
    + split; [done|]. split; [done|]. rewrite Hfs, Eg. by rewrite lookup_insert_eq.
  - simpl in Hu. split; [|done]. by eapply untouched_same.
Qed.

Lemma set_data_holds name w d m data :
  holds name w d m → set_data (w_fs w) name data = <[resolve name := File data m]> (w_fs w).
Proof. intros (Hne & _ & E). unfold set_data, at_path. by rewrite bool_decide_false, E by done. Qed.

Lemma Copy_holds name n w d m :
  untouched w → holds name w d m →
  let '(w', r) := Copy name n e w in
  untouched w' ∧ match r with Ok _ => ∃ data mode, n = File data mode ∧ holds name w' data m | Err _ => True end.
Proof.
  intros Hw Hh. unfold Copy. destruct n as [data mode| |]; try (split; [by eapply untouched_same|done]).
  pose proof Hh as (Hne & Hs & _).
  assert (∀ data', ∀ p, ¬ scratch p → set_data (w_fs w) name data' !! p = w_fs w !! p) as Ho.
  { intros data' p Hp. rewrite (set_data_holds _ _ _ _ _ Hh). apply lookup_insert_ne. by intros <-. }
  destruct (io_fail e (w_calls w)); (split; [eapply untouched_cons; [exact Hw|reflexivity|apply Ho]|]); [done|].
  exists data, mode. split; [done|]. split; [done|]. split; [done|]. simpl. by rewrite (set_data_holds _ _ _ _ _ Hh), lookup_insert_eq.
Qed.

Lemma Chmod_holds name mode w d m :
  untouched w → holds name w d m →
  let '(w', r) := Chmod name mode e w in
  untouched w' ∧ match r with Ok _ => holds name w' d mode | Err _ => True end.
Proof.
  intros Hw Hh. pose proof Hh as (Hne & Hs & E). unfold Chmod.
  assert (at_path (w_fs w) name = Some (File d m)) as Ea by (unfold at_path; by rewrite bool_decide_false).
  match goal with |- context [syscall ?act] => pose proof (syscall_cases act e w) as Hc;
    destruct (syscall act e w) as [w' [[]|err]] end; [|split; [by eapply untouched_same|done]].
  destruct Hc as (g & Hg & Hfs & Hv). rewrite Ea in Hg. injection Hg as <-. split.
  - eapply untouched_cons; [done..|]. intros p Hp. apply lookup_insert_ne. by intros <-.
  - split; [done|]. split; [done|]. rewrite Hfs. by rewrite lookup_insert_eq.
Qed.

Abbreviation dest := (resolve (Join dir dst)).

(** The destination is the source as it was at the start. *)
Definition copied (g : fs) : Prop := ∃ d m, f0 !! resolve src = Some (File d m) ∧ g !! dest = Some (File d m).

(** What is seen of a copy: files other than the destination and temporary ones do
    not change, the destination is the old or the new file at any time, and the new
    one exactly when the copy succeeds. *)
Definition atomic (w : world) (r : result string unit) : Prop :=
  (∀ g, g ∈ visited w → ∀ p, ¬ scratch p → p ≠ dest → g !! p = f0 !! p) ∧
  (∀ g, g ∈ visited w → g !! dest = f0 !! dest ∨ copied g) ∧
  match r with Ok _ => copied (w_fs w) | Err _ => w_fs w !! dest = f0 !! dest end.

Hypothesis Htmp : tmp ≠ "".
Hypothesis Hsrc : ¬ scratch (resolve src).
Hypothesis Hdst : ¬ scratch dest.

Lemma atomic_err w err : untouched w → atomic w (Err err).
Proof.
  intros Hw. split_and!; [intros; by apply Hw|intros; left; by apply Hw|]. apply Hw; [apply list_elem_of_here|done].
Qed.

Lemma untouched_fs w p : untouched w → ¬ scratch p → w_fs w !! p = f0 !! p.
Proof. intros Hw. apply Hw, list_elem_of_here. Qed.

Lemma Rename_atomic name w d m :
  untouched w → holds name w d m → f0 !! resolve src = Some (File d m) →
  let '(w', r) := attempt (Rename name (Join dir dst)) (λ _, fail "cannot replace %q with temp file %q: %v") (λ _, ret tt) e w in
  atomic w' r.
Proof.
  intros Hw (Hne & Hs & E) Hf. unfold attempt, Rename.
  assert (at_path (w_fs w) name = Some (File d m)) as Ea by (unfold at_path; by rewrite bool_decide_false).
  match goal with |- context [syscall ?act] => pose proof (syscall_cases act e w) as Hc;
    destruct (syscall act e w) as [w' [[]|err]] end; [|by apply atomic_err; eapply untouched_same].
  destruct Hc as (g & Hg & Hfs & Hv). rewrite Ea in Hg. destruct (is_dir _ _); [done|]. destruct (negb _); [done|].
  injection Hg as Hg. assert (copied g) as Hcg by (exists d, m; split; [done|by rewrite <- Hg, lookup_insert_eq]).
  unfold ret. split_and!; [| |by rewrite Hfs].
  - intros h Hh p Hp Hpd. rewrite Hv in Hh. apply elem_of_cons in Hh as [->|Hh]; [|by apply Hw].
    rewrite <- Hg, lookup_insert_ne by congruence. rewrite lookup_delete_ne by (by intros <-). by apply untouched_fs.
  - intros h Hh. rewrite Hv in Hh. apply elem_of_cons in Hh as [->|Hh]; [by right|left; by apply Hw].
Qed.

Lemma replace_file_atomic name w d m mode :
  untouched w → holds name w d m → f0 !! resolve src = Some (File d mode) →
  let '(w', r) := replace_file name src (Join dir dst) e w in atomic w' r.
Proof.
  intros Hw Hh Hf. unfold replace_file, attempt at 1. pose proof (Stat_looks src w Hw) as H1.
  destruct (Stat src e w) as [w1 [st|err]]; destruct H1 as (Hw1 & Hf1 & Hst); [|by apply atomic_err].
  apply at_path_Some in Hst. rewrite (untouched_fs w), Hf in Hst by done. injection Hst as <-.
  unfold attempt at 1. pose proof (Chmod_holds name mode w1 _ _ Hw1 (holds_look _ _ _ _ _ Hh Hf1)) as H2.
  simpl mode_of. destruct (Chmod name mode e w1) as [w2 [[]|err]]; destruct H2 as (Hw2 & Hh2); [|by apply atomic_err].
  by apply (Rename_atomic name w2 d mode).
Qed.

Lemma CopyFileAtomic_atomic :
  let '(w, r) := CopyFileAtomic src dir tmp dst e (start f0) in atomic w r.
Proof.
  unfold CopyFileAtomic, pbind at 1.
  assert (untouched (start f0)) as Hw0 by (by intros g ->%list_elem_of_singleton p _).
  pose proof (remove_if_exists_untouched _ Hw0) as Hw1.
  destruct (remove_if_exists _ e (start f0)) as [w1 [[]|err]]; [|by apply atomic_err]. simpl in Hw1.
  unfold attempt at 1. pose proof (CreateTemp_holds w1 Htmp Hw1) as H2.
  destruct (CreateTemp dir tmp e w1) as [w2 [name|err]]; destruct H2 as [Hw2 Hh2]; [|by apply atomic_err].
  unfold attempt at 1. pose proof (Open_looks (Clean src) w2 Hw2) as H3.
  destruct (Open_file _ e w2) as [w3 [n|err]]; destruct H3 as (Hw3 & Hf3 & Hn); [|by apply atomic_err].
  rewrite at_path_Clean, (untouched_fs w2) in Hn by done.
  pose proof (holds_look _ _ _ _ _ Hh2 Hf3) as Hh3.
  unfold attempt at 1. pose proof (Copy_holds name n w3 _ _ Hw3 Hh3) as H4.
  destruct (Copy name n e w3) as [w4 [[]|err]]; destruct H4 as [Hw4 Hh4].
  2:{ unfold attempt. pose proof (Remove_untouched w4 Hw4). by destruct (Remove _ e w4) as [w5 []]; apply atomic_err. }
  destruct Hh4 as (data & mode & -> & Hh4).
  unfold attempt at 1. pose proof (Flush_looks w4 Hw4) as H5.
  destruct (Flush e w4) as [w5 [[]|err]]; destruct H5 as (Hw5 & Hf5 & _); [|by apply atomic_err].
  unfold attempt at 1. pose proof (Flush_looks w5 Hw5) as H6.
  destruct (Flush e w5) as [w6 [[]|err]]; destruct H6 as (Hw6 & Hf6 & _); [|by apply atomic_err].
  cbv zeta. unfold pbind at 1. unfold attempt at 1. pose proof (Stat_looks (Join dir dst) w6 Hw6) as H7.
  destruct (Stat (Join dir dst) e w6) as [w7 r7]; destruct H7 as (Hw7 & Hf7 & _).
  pose proof (holds_look _ _ _ _ _ (holds_look _ _ _ _ _ (holds_look _ _ _ _ _ Hh4 Hf5) Hf6) Hf7) as Hh7.
  pose proof (replace_file_atomic name w7 _ _ _ Hw7 Hh7 Hn) as Hrest.
  destruct r7 as [n7|err]; [exact Hrest|]. destruct (bool_decide (err = ENOENT)); [exact Hrest|by apply atomic_err].
Qed.
End copy.

(** ** The copy succeeds *)

Lemma syscall_calm {A} (act : io_env → nat → fs → result os_error (A * fs)) e w a g :
  (∀ n, io_fail e n = false) → act e (w_calls w) (w_fs w) = Ok (a, g) →
  syscall act e w = (mkWorld g (w_fs w :: w_past w) (S (w_calls w)), Ok a).
Proof. intros He E. unfold syscall. by rewrite He, E. Qed.

Section success.
Context (src dir tmp dst : string) (e : io_env) (f0 : fs) (d : string) (m : Z).
Hypothesis He : ∀ n, io_fail e n = false.
Hypothesis Hdir : dir ≠ "".
Hypothesis Hisdir : f0 !! resolve dir = Some Directory.
Hypothesis Htmp : plain_name tmp.
Hypothesis Hdst : plain_name dst.
Hypothesis Hsrc : at_path f0 src = Some (File d m).
Hypothesis Hdest : f0 !! resolve (Join dir dst) ≠ Some Directory.
Hypothesis Hold : f0 !! resolve (Join dir tmp) ≠ Some Directory.
Hypothesis Hfree : ∀ z, plain_name (tmp +:+ int_string (z mod 2 ^ 32)) ∧ f0 !! in_dir dir (tmp +:+ int_string (z mod 2 ^ 32)) = None.
Hypothesis Hns : ¬ scratch dir tmp e (resolve src).
Hypothesis Hnd : ¬ scratch dir tmp e (resolve (Join dir dst)).

Abbreviation T := (resolve (Join dir tmp)).
Abbreviation D := (resolve (Join dir dst)).

Lemma remove_if_exists_calm : ∃ w, remove_if_exists (Join dir tmp) e (start f0) = (w, Ok tt) ∧ w_fs w = delete T f0.
Proof using He Hdir Hold.
  pose proof (Join_ne dir tmp (or_introl Hdir)) as Hne.
  assert (at_path f0 (Join dir tmp) = f0 !! T) as Ha by (unfold at_path; by rewrite bool_decide_false).
  unfold remove_if_exists, attempt. destruct (f0 !! T) as [n|] eqn:E.
  - unfold Stat, Remove. erewrite syscall_calm by (done || simpl; by rewrite Ha).
    rewrite (syscall_calm _ e _ tt (delete T f0) He); [by eexists|]. simpl. rewrite Ha. by destruct n.
  - exists (mkWorld f0 [] 1). split; [|symmetry; by apply delete_id]. unfold Stat, syscall. rewrite He. simpl. by rewrite Ha.
Qed.

Lemma replace_file_calm w name :
  w_fs w !! resolve name = Some (File d 384) → name ≠ "" → at_path (w_fs w) src = Some (File d m) →
  w_fs w !! D ≠ Some Directory → w_fs w !! resolve dir = Some Directory → resolve name ≠ D → resolve name ≠ resolve dir →
  ∃ w', replace_file name src (Join dir dst) e w = (w', Ok tt) ∧
    w_fs w' = <[D := File d m]> (delete (resolve name) (w_fs w)).
Proof using He Hdir Hdst Hisdir.
  intros Hn Hne Hs Hnodir Hd HnD Hnd'. unfold replace_file, attempt, Stat, Chmod, Rename.
  erewrite syscall_calm by (done || by rewrite Hs). cbn [w_fs w_calls w_past mode_of].
  assert (at_path (w_fs w) name = Some (File d 384)) as Ha by (unfold at_path; by rewrite bool_decide_false).
  erewrite syscall_calm by (done || simpl; by rewrite Ha). cbn [w_fs w_calls w_past].
  rewrite (syscall_calm _ e _ tt (<[D := File d m]> (delete (resolve name) (<[resolve name := File d m]> (w_fs w)))) He).
  1:{ eexists. split; [done|]. cbn [w_fs]. by rewrite delete_insert_eq. }
  cbn [w_fs]. unfold at_path at 1. rewrite bool_decide_false, lookup_insert_eq by done.
  assert (is_dir (<[resolve name:=File d m]> (w_fs w)) (Join dir dst) = false) as ->.
  { apply bool_decide_false. intros E%at_path_Some. rewrite lookup_insert_ne in E by done. done. }
  rewrite bool_decide_true; [done|]. rewrite resolve_Join by done. unfold parent, in_dir. cbn [rooted names].
  rewrite removelast_last. destruct (resolve dir) as [r l] eqn:Er. cbn [rooted names]. rewrite lookup_insert_ne by done. done.
Qed.

Lemma copy_succeeds :
  ∃ w, CopyFileAtomic src dir tmp dst e (start f0) = (w, Ok tt) ∧ w_fs w = <[D := File d m]> (delete T f0).
Proof using All.
  unfold CopyFileAtomic, pbind at 1. destruct remove_if_exists_calm as (w1 & -> & Hf1).
  set (name := temp_name dir tmp (io_random e (w_calls w1))). set (f1 := delete T f0) in *.
  destruct (Hfree (io_random e (w_calls w1))) as [Hpn Hfn].
  assert (resolve name = in_dir dir (tmp +:+ int_string (io_random e (w_calls w1) mod 2 ^ 32))) as Hrn by (by apply resolve_temp).
  assert (name ≠ "") as Hne by (apply temp_name_ne, Htmp).
  assert (scratch dir tmp e (resolve name)) as Hsn by (right; rewrite bool_decide_false by done; by eexists).
  assert (∀ x, in_dir dir x ≠ resolve dir) as Hlen.
  { intros x E. apply (f_equal (length ∘ names)) in E. simpl in E. rewrite length_app in E. simpl in E. lia. }
  assert (f1 !! resolve name = None) as Hn1 by (subst f1; apply lookup_delete_None; right; by rewrite Hrn).
  assert (f1 !! resolve dir = Some Directory) as Hd1
    by (subst f1; rewrite lookup_delete_ne; [done|rewrite resolve_Join by done; apply Hlen]).
  unfold attempt at 1, CreateTemp. rewrite (syscall_calm _ e w1 name (<[resolve name := File "" 384]> f1) He).
  2:{ rewrite (bool_decide_false (dir = "")) by done. destruct Htmp as [-> _]. rewrite Hf1.
      assert (is_dir f1 dir = true) as -> by (apply bool_decide_true; unfold at_path; by rewrite bool_decide_false).
      cbn [negb]. destruct max_tries_S as [k ->]. cbn [try_temp]. fold name.
      assert (at_path f1 name = None) as -> by (unfold at_path; by rewrite bool_decide_false). done. }
  assert (∀ n, at_path (<[resolve name := n]> f1) src = Some (File d m)) as Hs.
  { intros n. unfold at_path in *. case_bool_decide; [done|]. subst f1.
    rewrite lookup_insert_ne, lookup_delete_ne; [done|intros E; apply Hns; by left|intros E; apply Hns; by rewrite <- E]. }
  unfold attempt at 1, Open_file. rewrite (syscall_calm _ e _ (File d m) (<[resolve name := File "" 384]> f1) He).
  2:{ cbn [w_fs]. rewrite at_path_Clean. by rewrite (at_path_Some _ _ _ (Hs _)). }
  unfold attempt at 1, Copy. rewrite He. cbn [w_fs w_past w_calls].
  unfold set_data. unfold at_path at 1. rewrite bool_decide_false, lookup_insert_eq, insert_insert_eq by done.
  unfold attempt at 1, Flush. rewrite (syscall_calm _ e _ tt (<[resolve name := File d 384]> f1) He) by done.
  unfold attempt at 1. rewrite (syscall_calm _ e _ tt (<[resolve name := File d 384]> f1) He) by done.
  cbv zeta. cbn [w_fs w_past w_calls]. set (w6 := mkWorld _ _ _).
  assert (∃ w7, (let? _ := Stat (Join dir dst) else λ err, if bool_decide (err = ENOENT) then ret tt else fail "stat %s: %v" in ret tt)%ipam e w6 =
    (w7, Ok tt : result string unit) ∧ w_fs w7 = w_fs w6) as (w7 & E7 & Hf7).
  { unfold attempt, Stat, syscall. rewrite He. destruct (at_path (w_fs w6) (Join dir dst)); by eexists. }
  unfold pbind. rewrite E7. destruct (replace_file_calm w7 name) as (w8 & E8 & Hf8); rewrite ?Hf7; try done.
  - subst w6. cbn [w_fs]. by rewrite lookup_insert_eq.
  - apply Hs.
  - subst w6. cbn [w_fs]. rewrite lookup_insert_ne by (intros E; apply Hnd; by rewrite <- E). subst f1.
    rewrite lookup_delete_ne; [done|]. intros E. apply Hnd. by left.
  - subst w6. cbn [w_fs]. rewrite lookup_insert_ne; [done|]. rewrite Hrn. apply Hlen.
  - intros E. apply Hnd. by rewrite <- E.
  - rewrite Hrn. apply Hlen.
  - exists w8. split; [done|]. rewrite Hf8, Hf7. subst w6. cbn [w_fs]. by rewrite delete_insert_id.
Qed.
End success.

(** ** The copy of the plugin *)

Lemma temp_plain z : plain_name ("_nv-ipam" +:+ int_string (z mod 2 ^ 32)).
Proof.
  split; [|done]. rewrite str_has_app. rewrite int_string_no_slash; [done|].
  pose proof (Z.mod_pos_bound z (2 ^ 32) ltac:(lia)). lia.
Qed.

Lemma plugin_not_scratch dir e : dir ≠ "" → ¬ scratch dir "_nv-ipam" e (resolve (Join dir "nv-ipam")).
Proof.
  intros Hd. rewrite resolve_Join by done. intros [E|[z E]].
  - rewrite resolve_Join in E by done. unfold in_dir in E. injection E as E. by apply app_inj_2 in E as [_ [=]].
  - rewrite bool_decide_false in E by done. rewrite resolve_temp in E by (done || apply temp_plain).
    unfold in_dir in E. injection E as E. apply app_inj_2 in E as [_ E]; [|done]. by rewrite !str_cons_app in E.
Qed.

(** C17: The plugin is replaced atomically.  Whatever calls fail, and at any time of
    the copy, the plugin in the directory is the old one or the source with its data
    and its mode; it is the new one at the end if the copy succeeds and the old one
    if it does not, and files other than temporary ones do not change.  If no call
    fails, the source is a file, the directory exists and no temporary name is in
    use, then the copy succeeds and leaves no temporary file. *)
Theorem plugin_copy_atomic src dir e f :
  dir ≠ "" → ¬ scratch dir "_nv-ipam" e (resolve src) →
  let '(w, r) := CopyFileAtomic src dir "_nv-ipam" "nv-ipam" e (start f) in
  atomic src dir "_nv-ipam" "nv-ipam" e f w r ∧
  ((∀ n, io_fail e n = false) → ∀ d m, at_path f src = Some (File d m) → f !! resolve dir = Some Directory →
   f !! resolve (Join dir "nv-ipam") ≠ Some Directory → f !! resolve (Join dir "_nv-ipam") ≠ Some Directory →
   (∀ z, f !! resolve (temp_name dir "_nv-ipam" z) = None) →
   r = Ok tt ∧ w_fs w = <[resolve (Join dir "nv-ipam") := File d m]> (delete (resolve (Join dir "_nv-ipam")) f)).
Proof.
  intros Hd Hs. pose proof (plugin_not_scratch dir e Hd) as Hn.
  pose proof (CopyFileAtomic_atomic src dir "_nv-ipam" "nv-ipam" e f ltac:(done) Hs Hn) as Ha.
  destruct (CopyFileAtomic _ _ _ _ e (start f)) as [w r] eqn:E. split; [done|]. intros He d m Hsrc Hdir H1 H2 Hfree.
  destruct (copy_succeeds src dir "_nv-ipam" "nv-ipam" e f d m) as (w' & E' & Hf); try done.
  - intros z. split; [apply temp_plain|]. rewrite <- resolve_temp; [apply Hfree|done|apply temp_plain].
  - rewrite E in E'. by injection E' as -> ->.
Qed.

Definition node_files (l : list (string * node)) : fs :=
  list_to_map (map (λ x, (resolve x.1, x.2))
    ([("/nv-ipam", File "new" 493); ("/opt/cni/bin", Directory); ("/etc/cni/net.d/nv-ipam.d", Directory);
      ("/var/lib/cni/nv-ipam", Directory); ("/var/log", Directory)] ++ l)).

(** No call fails, or the [n]-th does. *)
Definition no_fail : io_env := mkEnvIO (λ _, false) (λ _, 0%nat) Z.of_nat "/tmp".
Definition fail_at (n : nat) : io_env := mkEnvIO (λ k, bool_decide (k = n)) (λ _, 1%nat) Z.of_nat "/tmp".

Definition copy_plugin (e : io_env) (f : fs) : world * result string unit :=
  CopyFileAtomic "/nv-ipam" "/opt/cni/bin" "_nv-ipam" "nv-ipam" e (start f).

(** A copy that fails removes a file that does not exist, and leaves its own
    temporary file; the next copy does not remove that one either. *)
Example failed_copy_leaves_file :
  let '(w, r) := copy_plugin (fail_at 3) (node_files [("/opt/cni/bin/nv-ipam", File "old" 493)]) in
  r = Err "cannot write data to temp file %q: %v" ∧
  at_path (w_fs w) "/opt/cni/bin/nv-ipam" = Some (File "old" 493) ∧
  at_path (w_fs w) "/opt/cni/bin/_nv-ipam1" = Some (File "n" 384) ∧
  let '(w', r') := copy_plugin (mkEnvIO (λ _, false) (λ _, 0%nat) (λ n, Z.of_nat n + 7) "/tmp") (w_fs w) in
  r' = Ok tt ∧ at_path (w_fs w') "/opt/cni/bin/nv-ipam" = Some (File "new" 493) ∧
  at_path (w_fs w') "/opt/cni/bin/_nv-ipam1" = Some (File "n" 384).
Proof. vm_compute. split_and!; reflexivity. Qed.

(** A temporary name is not one of the files. *)
Lemma temp_in_bin z :
  ∃ x, resolve (temp_name "/opt/cni/bin" "_nv-ipam" z) = mkPath true ["opt"; "cni"; "bin"; x].
Proof.
  eexists. rewrite resolve_temp by (done || apply temp_plain). unfold in_dir.
  assert (resolve "/opt/cni/bin" = mkPath true ["opt"; "cni"; "bin"]) as -> by (vm_compute; reflexivity). reflexivity.
Qed.

Definition short_paths (l : list (path * node)) : bool := forallb (λ x, negb (bool_decide (take 3 (names x.1) = ["opt"; "cni"; "bin"] ∧ length (names x.1) = 4%nat))) l.

Lemma node_files_free z : node_files [] !! resolve (temp_name "/opt/cni/bin" "_nv-ipam" z) = None.
Proof.
  destruct (temp_in_bin z) as [x ->]. unfold node_files. set (l := map _ _).
  assert (short_paths l = true) as Hl by (vm_compute; reflexivity). clearbody l.
  apply not_elem_of_list_to_map_1. intros ([p n] & E & Hin)%list_elem_of_fmap. simpl in E. subst p. unfold short_paths in Hl.
  rewrite forallb_forall in Hl. apply list_elem_of_In in Hin. specialize (Hl _ Hin). cbn in Hl.
  apply negb_true_iff, bool_decide_eq_false in Hl. by apply Hl.
Qed.

Lemma plugin_not_temp e : ¬ scratch "/opt/cni/bin" "_nv-ipam" e (resolve "/nv-ipam").
Proof.
  assert (resolve "/nv-ipam" = mkPath true ["nv-ipam"]) as -> by (vm_compute; reflexivity).
  assert (resolve (Join "/opt/cni/bin" "_nv-ipam") = mkPath true ["opt"; "cni"; "bin"; "_nv-ipam"]) as E by (vm_compute; reflexivity).
  unfold scratch. rewrite E. intros [E'|[z E']]; [discriminate E'|]. rewrite bool_decide_false in E' by discriminate.
  destruct (temp_in_bin z) as [x Ex]. rewrite Ex in E'. discriminate E'.
Qed.

Lemma plugin_copy_atomic_witness :
  (copy_plugin no_fail (node_files [])).2 = Ok tt ∧
  w_fs (copy_plugin no_fail (node_files [])).1 =
    <[resolve "/opt/cni/bin/nv-ipam" := File "new" 493]> (delete (resolve "/opt/cni/bin/_nv-ipam") (node_files [])).
Proof.
  pose proof (plugin_copy_atomic "/nv-ipam" "/opt/cni/bin" no_fail (node_files [])) as Hc.
  specialize (Hc ltac:(discriminate) (plugin_not_temp _)). unfold copy_plugin.
  destruct (CopyFileAtomic "/nv-ipam" "/opt/cni/bin" "_nv-ipam" "nv-ipam" no_fail (start (node_files []))) as [w r].
  destruct Hc as [_ Hc]. apply (Hc (λ _, eq_refl) "new" 493); [vm_compute; reflexivity..|vm_compute; discriminate| |exact node_files_free].
  vm_compute; discriminate.
Defined.
