(* ===== verification/Deploy.v ===== *)
(** * Deployment of the CNI plugin

    What [RunNodeDaemon] of [cmd/ipam-node/app/app.go] does with files: it copies
    the plugin ([CopyFile]), writes the plugin's configuration and removes an old
    socket.  The other end is
    [loadFromConfFile] of [pkg/cni/types/types.go], with which the plugin reads the
    configuration.  [renameio.WriteFile] is a class with its documented behaviour as
    laws. *)

From Stdlib Require Import Strings.Ascii.
From S2P Require Import Prelude GoNet Cidr GoNetText PoolManager Handlers Cni Json JsonText FileSystem CopyFile Options.

(** ** The configuration of the plugin *)

Definition ConfFileName : string := "nv-ipam.conf".

(** [renameio.WriteFile] *)
Class ConfWriter := WriteFile : string → string → Z → io unit.

(** The files it may touch: the file, and temporary files in the same directory or in
    the one for temporary files. *)
Definition conf_area (e : io_env) (p : string) (q : path) : Prop :=
  q = resolve p ∨ ∃ x, q = in_dir (Dir p) x ∨ q = in_dir (io_TempDir e) x.

(** It replaces the file atomically: at any time the file is the old or the new one,
    and it is the new one exactly when the call succeeds; other files stay. *)
Class ConfWriterLaws `{ConfWriter} := {
  WriteFile_atomic : ∀ e w p data perm g, g ∈ visited (WriteFile p data perm e w).1 →
    g ∈ visited w ∨ g !! resolve p = w_fs w !! resolve p ∨ ∃ m, g !! resolve p = Some (File data m);
  WriteFile_ok : ∀ e w p data perm, (WriteFile p data perm e w).2 = Ok tt →
    ∃ m, w_fs (WriteFile p data perm e w).1 !! resolve p = Some (File data m);
  WriteFile_err : ∀ e w p data perm err, (WriteFile p data perm e w).2 = Err err →
    w_fs (WriteFile p data perm e w).1 !! resolve p = w_fs w !! resolve p;
  WriteFile_frame : ∀ e w p data perm g q, g ∈ visited (WriteFile p data perm e w).1 → ¬ conf_area e p q →
    g ∈ visited w ∨ g !! q = w_fs w !! q;
}.

Definition newline : string := String "010" "".

(** The text of the file. *)
Definition config_text (opts : Options) : string :=
  "{" +:+ newline +:+
  "  " +:+ quoted "daemonSocket" +:+ ":    " +:+ quoted (CNIDaemonSocket opts) +:+ "," +:+ newline +:+
  "  " +:+ quoted "daemonCallTimeoutSeconds" +:+ ":    " +:+ int_string (CNIDaemonCallTimeoutSeconds opts) +:+ "," +:+ newline +:+
  "  " +:+ quoted "logFile" +:+ ":   " +:+ quoted (CNILogFile opts) +:+ "," +:+ newline +:+
  "  " +:+ quoted "logLevel" +:+ ": " +:+ quoted (CNILogLevel opts) +:+ "," +:+ newline +:+
  "  " +:+ quoted "forcePoolName" +:+ ": " +:+ bool_string (CNIForcePoolName opts) +:+ newline +:+
  "}".

Section deploy.
Context `{ConfWriter}.

Definition createNVIPAMConfig (opts : Options) : prog string unit :=
  (let? _ := WriteFile (Join (CNIConfDir opts) ConfFileName) (config_text opts) 436 (* 0664 *)
     else λ _, fail "failed to write configuration for shim CNI" in
   ret tt)%ipam.

Definition deployShimCNI (opts : Options) : prog string unit :=
  (let* _ := if CNISkipBinFileCopy opts then ret tt
             else CopyFileAtomic (CNIBinFile opts) (CNIBinDir opts) "_nv-ipam" "nv-ipam" in
   if CNISkipConfigCreation opts then ret tt else createNVIPAMConfig opts)%ipam.
End deploy.

(** *** Reading it back *)

(** The keys of [IPAMConf]; [type] is a field of the embedded [types.IPAM]. *)
Inductive conf_key :=
  KType | KForcePoolName | KPoolName | KPoolType | KDaemonSocket | KDaemonCallTimeoutSeconds | KConfDir | KLogFile | KLogLevel.

Definition conf_keys : list (string * conf_key) :=
  [("type", KType); ("forcePoolName", KForcePoolName); ("poolName", KPoolName); ("poolType", KPoolType);
   ("daemonSocket", KDaemonSocket); ("daemonCallTimeoutSeconds", KDaemonCallTimeoutSeconds); ("confDir", KConfDir);
   ("logFile", KLogFile); ("logLevel", KLogLevel)].

(** Names that match regardless of case: letters, the long s (U+017F) and the Kelvin sign (U+212A). *)
Fixpoint fold_name (s : string) : string :=
  match s with
  | String "197" (String "191" s) => String "S" (fold_name s)
  | String "226" (String "132" (String "170" s)) => String "K" (fold_name s)
  | String c s => String (if between 97 122 c then chr (char_val c - 32) else c) (fold_name s)
  | EmptyString => ""
  end.

Definition find_key (k : string) : option conf_key :=
  match List.find (λ x, bool_decide (x.1 = k)) conf_keys with
  | Some x => Some x.2
  | None => snd <$> List.find (λ x, bool_decide (fold_name x.1 = fold_name k)) conf_keys
  end.

(** [None]: the value does not have the type of the field.  [null] leaves it alone. *)
Definition string_field (v : json) (old : string) : option string :=
  match v with JStr s => Some s | JNull => Some old | _ => None end.

Definition set_key (c : IPAMConf) (k : conf_key) (v : json) : option IPAMConf :=
  let 'mkIPAMConf force name type socket timeout dir file level pools pn pns puid ips gw index := c in
  let mk force name type socket timeout dir file level :=
    mkIPAMConf force name type socket timeout dir file level pools pn pns puid ips gw index in
  match k with
  | KType => _ ← string_field v ""; Some c
  | KForcePoolName =>
      match v with
      | JBool b => Some (mk (Some b) name type socket timeout dir file level)
      | JNull => Some (mk None name type socket timeout dir file level)
      | _ => None
      end
  | KPoolName => x ← string_field v name; Some (mk force x type socket timeout dir file level)
  | KPoolType => x ← string_field v type; Some (mk force name x socket timeout dir file level)
  | KDaemonSocket => x ← string_field v socket; Some (mk force name type x timeout dir file level)
  | KDaemonCallTimeoutSeconds =>
      match v with
      | JNum t => x ← ParseInt64 t; Some (mk force name type socket x dir file level)
      | JNull => Some c
      | _ => None
      end
  | KConfDir => x ← string_field v dir; Some (mk force name type socket timeout x file level)
  | KLogFile => x ← string_field v file; Some (mk force name type socket timeout dir x level)
  | KLogLevel => x ← string_field v level; Some (mk force name type socket timeout dir file x)
  end.

Fixpoint set_keys (c : IPAMConf) (l : list (string * json)) : option IPAMConf :=
  match l with
  | [] => Some c
  | (k, v) :: l => c ← (match find_key k with Some k => set_key c k v | None => Some c end); set_keys c l
  end.

Definition empty_conf : IPAMConf := plain_conf None "" "" "" 0 "" "" "".

(** [json.Unmarshal] into a new [IPAMConf] *)
Definition UnmarshalIPAMConf (data : string) : option IPAMConf :=
  v ← json_parse data;
  match v with JObj l => set_keys empty_conf l | JNull => Some empty_conf | _ => None end.

Definition loadFromConfFile (f : fs) (filePath : string) : conf_file :=
  match at_path f (Clean filePath) with
  | None => ConfMissing
  | Some (File data _) =>
      match UnmarshalIPAMConf data with Some c => ConfRead c | None => ConfError "json" end
  | Some _ => ConfError "read"
  end.

(** The file of a directory, for [LoadConf]. *)
Definition conf_of_dir (f : fs) (dir : string) : conf_file := loadFromConfFile f (Join dir ConfFileName).

(** *** The text parses *)

Definition all_space (ws : string) : Prop := skip_ws ws = "".

Lemma skip_ws_app ws t : all_space ws → skip_ws (ws +:+ t) = skip_ws t.
Proof.
  unfold all_space. induction ws as [|c ws IH]; [done|]. rewrite str_cons_app. simpl. destruct (is_space c); [|done]. exact IH.
Qed.

Lemma quoted_app s t : quoted s +:+ t = String dquote (s +:+ String dquote t).
Proof. unfold quoted. by rewrite str_cons_app, str_app_assoc. Qed.

Lemma parse_quoted n d ws s t :
  all_space ws → json_plain s = true → parse_value (S n) d (ws +:+ quoted s +:+ t) = Some (JStr s, t).
Proof.
  intros Hw Hs. rewrite quoted_app. cbn [parse_value]. rewrite skip_ws_app by done.
  change (skip_ws (String dquote (s +:+ String dquote t))) with (String dquote (s +:+ String dquote t)). cbv iota beta.
  rewrite !bool_decide_false by done. rewrite bool_decide_true by done. by rewrite unquote_plain.
Qed.

Lemma int_string_first z : int64_ok z = true →
  ∃ c r, int_string z = String c r ∧ (c = "-"%char ∨ is_Some (dec_val c)).
Proof.
  intros Hz. unfold int64_ok in Hz. boolify. unfold int_string. destruct (Z.ltb_spec z 0); [by eexists _, _; split; [|left]|].
  destruct (print_dec_spec 20 z "") as (ds & -> & Hne & Hs & _); [lia..|]. rewrite str_app_nil_r.
  destruct ds as [|c r]; [done|]. exists c, r. split; [done|]. right. simpl in Hs. by case_bool_decide.
Qed.

Lemma dec_val_not c : is_Some (dec_val c) → c ≠ "{"%char ∧ c ≠ "["%char ∧ c ≠ dquote ∧ is_space c = false.
Proof.
  intros Hc. split_and!; try (by intros ->; destruct Hc).
  unfold is_space. apply bool_decide_false. by intros [->|[->|[->| ->]]]; destruct Hc.
Qed.

Lemma parse_int n d ws z t :
  all_space ws → int64_ok z = true → int_ends t →
  parse_value (S n) d (ws +:+ int_string z +:+ t) = Some (JNum (int_string z), t).
Proof.
  intros Hw Hz Ht. cbn [parse_value]. rewrite skip_ws_app by done.
  destruct (int_string_first z Hz) as (c & r & E & Hc).
  assert (c ≠ "{"%char ∧ c ≠ "["%char ∧ c ≠ dquote ∧ is_space c = false) as (H1 & H2 & H3 & H4)
    by (destruct Hc as [->|Hc]; [done|by apply dec_val_not]).
  pose proof (scan_int_string z t Hz Ht) as Hscan. rewrite E, str_cons_app in *. cbn [skip_ws]. rewrite H4.
  rewrite (bool_decide_false _ H1), (bool_decide_false _ H2), (bool_decide_false _ H3).
  assert (bool_decide (c = "-"%char) || bool_decide (is_Some (dec_val c)) = true) as ->
    by (apply orb_true_iff; rewrite !bool_decide_eq_true; done).
  by rewrite Hscan.
Qed.

Lemma parse_bool n d ws b t :
  all_space ws → parse_value (S n) d (ws +:+ bool_string b +:+ t) = Some (JBool b, t).
Proof. intros Hw. cbn [parse_value]. rewrite skip_ws_app by done. by destruct b. Qed.

(** A member, followed by others or by the end of the object. *)
Lemma parse_member n d ws k vt v t l r :
  all_space ws → json_plain k = true → parse_value n d vt = Some (v, String "," t) →
  parse_members n d t = Some (l, r) →
  parse_members (S n) d (ws +:+ quoted k +:+ String ":" vt) = Some ((k, v) :: l, r).
Proof.
  intros Hw Hk Hv Hl. rewrite quoted_app. cbn [parse_members]. rewrite skip_ws_app by done.
  change (skip_ws (String dquote (k +:+ String dquote (String ":" vt)))) with (String dquote (k +:+ String dquote (String ":" vt))).
  cbv iota beta. rewrite bool_decide_true by done. cbn [negb]. rewrite unquote_plain by done. cbn [mbind option_bind].
  change (skip_ws (String ":" vt)) with (String ":" vt). cbv iota beta. rewrite bool_decide_true by done. cbn [negb].
  rewrite Hv. cbn [mbind option_bind]. change (skip_ws (String "," t)) with (String "," t). cbv iota beta.
  rewrite bool_decide_false, bool_decide_true by done. by rewrite Hl.
Qed.

Lemma parse_last_member n d ws k vt v t r :
  all_space ws → json_plain k = true → parse_value n d vt = Some (v, t) → skip_ws t = String "}" r →
  parse_members (S n) d (ws +:+ quoted k +:+ String ":" vt) = Some ([(k, v)], r).
Proof.
  intros Hw Hk Hv Hr. rewrite quoted_app. cbn [parse_members]. rewrite skip_ws_app by done.
  change (skip_ws (String dquote (k +:+ String dquote (String ":" vt)))) with (String dquote (k +:+ String dquote (String ":" vt))).
  cbv iota beta. rewrite bool_decide_true by done. cbn [negb]. rewrite unquote_plain by done. cbn [mbind option_bind].
  change (skip_ws (String ":" vt)) with (String ":" vt). cbv iota beta. rewrite bool_decide_true by done. cbn [negb].
  rewrite Hv. cbn [mbind option_bind]. rewrite Hr. by rewrite bool_decide_true.
Qed.

(** The options that are written without damage. *)
Definition config_plain (opts : Options) : Prop :=
  json_plain (CNIDaemonSocket opts) = true ∧ json_plain (CNILogFile opts) = true ∧ json_plain (CNILogLevel opts) = true ∧
  int64_ok (CNIDaemonCallTimeoutSeconds opts) = true.

Definition config_json (opts : Options) : list (string * json) :=
  [("daemonSocket", JStr (CNIDaemonSocket opts));
   ("daemonCallTimeoutSeconds", JNum (int_string (CNIDaemonCallTimeoutSeconds opts)));
   ("logFile", JStr (CNILogFile opts)); ("logLevel", JStr (CNILogLevel opts)); ("forcePoolName", JBool (CNIForcePoolName opts))].

Lemma config_parse opts : config_plain opts → json_parse (config_text opts) = Some (JObj (config_json opts)).
Proof.
  intros (H1 & H2 & H3 & H4). set (text := config_text opts).
  rewrite (json_parse_fuel (S (S (S (S (S (S (S (2 * len text)))))))) text) by lia.
  set (n := (2 * len text)%nat). clearbody n. subst text. unfold config_text.
  set (rest := newline +:+ "  " +:+ quoted "daemonSocket" +:+ _).
  assert (parse_members (S (S (S (S (S (S n)))))) (0 + 1) rest = Some (config_json opts, "")) as Hm.
  { refine (parse_member _ _ (newline +:+ "  ") "daemonSocket" _ _ _ _ _ eq_refl eq_refl (parse_quoted _ _ "    " _ _ eq_refl H1) _).
    refine (parse_member _ _ (newline +:+ "  ") "daemonCallTimeoutSeconds" _ _ _ _ _ eq_refl eq_refl
      (parse_int _ _ "    " _ (String "," _) eq_refl H4 _) _); [done|].
    refine (parse_member _ _ (newline +:+ "  ") "logFile" _ _ _ _ _ eq_refl eq_refl (parse_quoted _ _ "   " _ _ eq_refl H2) _).
    refine (parse_member _ _ (newline +:+ "  ") "logLevel" _ _ _ _ _ eq_refl eq_refl (parse_quoted _ _ " " _ _ eq_refl H3) _).
    exact (parse_last_member _ _ (newline +:+ "  ") "forcePoolName" _ _ _ _ eq_refl eq_refl
      (parse_bool _ _ " " (CNIForcePoolName opts) (newline +:+ "}") eq_refl) eq_refl). }
  assert (parse_value (S (S (S (S (S (S (S n))))))) 0 ("{" +:+ rest) = Some (JObj (config_json opts), "")) as ->; [|done].
  assert (∃ t, skip_ws rest = String dquote t) as [t Ht] by (by eexists).
  change ("{" +:+ rest) with (String "{" rest). clearbody rest. remember (S (S (S (S (S (S n)))))) as m eqn:Em. clear Em.
  cbn [parse_value]. change (skip_ws (String "{" rest)) with (String "{" rest). cbv iota beta.
  rewrite bool_decide_true by done. rewrite Ht. rewrite (bool_decide_false (dquote = "}"%char)) by done. by rewrite Hm.
Qed.

(** The settings the plugin finds in the file. *)
Definition deployed_conf (opts : Options) : IPAMConf :=
  plain_conf (Some (CNIForcePoolName opts)) "" "" (CNIDaemonSocket opts) (CNIDaemonCallTimeoutSeconds opts) ""
    (CNILogFile opts) (CNILogLevel opts).

Lemma config_unmarshal opts : config_plain opts → UnmarshalIPAMConf (config_text opts) = Some (deployed_conf opts).
Proof.
  intros Hp. unfold UnmarshalIPAMConf. rewrite config_parse by done. cbn [mbind option_bind].
  unfold config_json. cbn [set_keys].
  change (find_key "daemonSocket") with (Some KDaemonSocket).
  change (find_key "daemonCallTimeoutSeconds") with (Some KDaemonCallTimeoutSeconds).
  change (find_key "logFile") with (Some KLogFile). change (find_key "logLevel") with (Some KLogLevel).
  change (find_key "forcePoolName") with (Some KForcePoolName).
  destruct Hp as (_ & _ & _ & Hz). simpl. by rewrite ParseInt64_string.
Qed.

(** ** The socket of the daemon *)

Definition cleanUNIXSocketIfRequired (opts : Options) : prog string unit :=
  match strip_prefix "unix://" (BindAddress opts) with
  | None => ret tt
  | Some socketPath =>
      (let? info := Stat socketPath else λ err, if bool_decide (err = ENOENT) then ret tt else fail "stat" in
       if negb (bool_decide (info = Socket)) then fail "socket bind path exist, but not a socket"
       else
         let? _ := Remove socketPath else λ err,
           if bool_decide (err = ENOENT) then ret tt else fail "failed to remove socket: %v" in
         ret tt)%ipam
  end.

(** [ListenConfig.Listen]: a Unix socket needs a path that is not in use, in a
    directory; the file system has no part in other networks. *)
Definition Listen (network address : string) : io unit :=
  syscall (λ _ _ f,
    if negb (bool_decide (network = "unix")) then Ok (tt, f)
    else if bool_decide (address = "") then Err EINVAL
    else if bool_decide (is_Some (at_path f address)) then Err EEXIST
    else if negb (bool_decide (f !! parent (resolve address) = Some Directory)) then Err ENOENT
    else Ok (tt, <[resolve address := Socket]> f)).

Definition initGRPCServer (url_Parse : string → result string URL) (opts : Options) : prog string unit :=
  match ParseBindAddress url_Parse (BindAddress opts) with
  | Err err => fail err
  | Ok (network, address) =>
      (let* _ := cleanUNIXSocketIfRequired opts in
       let? _ := Listen network address else λ _, fail "failed to start listener for GRPC server" in
       ret tt)%ipam
  end.

(** ** Properties *)

(** C18: The configuration round trip between the daemon and the plugin.  When the
    deployment succeeds and does not skip the configuration, and the settings are
    plain text (no quotes, backslashes, control characters) and a 64-bit number, the
    plugin finds exactly the options of the daemon in the file, and uses them for
    every setting the runtime does not give. *)
Theorem deployed_config_roundtrip `{ConfWriterLaws} opts e w w' :
  config_plain opts → CNISkipConfigCreation opts = false → deployShimCNI opts e w = (w', Ok tt) →
  conf_of_dir (w_fs w') (CNIConfDir opts) = ConfRead (deployed_conf opts) ∧
  ∀ ipam, ConfDir ipam = CNIConfDir opts → ConfDir ipam ≠ "" →
    loadSettings (conf_of_dir (w_fs w')) ipam = Ok (overlayConf defaultConf (overlayConf (deployed_conf opts) ipam)).
Proof.
  intros Hp Hskip E. unfold deployShimCNI, pbind in E. rewrite Hskip in E.
  set (copy := if CNISkipBinFileCopy opts then _ else _) in E. destruct (copy e w) as [w1 [[]|err]]; [|done].
  unfold createNVIPAMConfig, attempt in E. pose proof (WriteFile_ok e w1 (Join (CNIConfDir opts) ConfFileName) (config_text opts) 436) as Hok.
  destruct (WriteFile _ _ _ e w1) as [w2 [[]|err]]; [|done]. injection E as <-. destruct (Hok eq_refl) as [m Hm]. simpl in Hm.
  assert (conf_of_dir (w_fs w2) (CNIConfDir opts) = ConfRead (deployed_conf opts)) as Hc.
  { unfold conf_of_dir, loadFromConfFile. by rewrite at_path_Clean, Hm, config_unmarshal. }
  split; [done|]. intros ipam Hd Hne. unfold loadSettings. rewrite bool_decide_false, Hd, Hc by done. done.
Qed.

(** A path with an absolute form and only characters that a URL does not escape. *)
Definition url_char (c : ascii) : bool :=
  between 97 122 c || between 65 90 c || between 48 57 c ||
  bool_decide (c = "-"%char ∨ c = "_"%char ∨ c = "."%char ∨ c = "~"%char ∨ c = slash).
Fixpoint url_chars (s : string) : bool := match s with String c s => url_char c && url_chars s | EmptyString => true end.
Definition url_path (s : string) : bool := is_rooted s && url_chars s.

(** What is documented of [url.Parse], for the addresses of Unix sockets. *)
Definition parses_unix (url_Parse : string → result string URL) : Prop :=
  ∀ p, url_path p = true → url_Parse ("unix://" +:+ p) = Ok (mkURL "unix" "" p).

(** C35: The server binds to the path of its address, for an address ["unix://"] and
    a plain path in an existing directory.  Unless a system call fails, the path may
    be free or have the socket of an earlier run: the server then has a
    socket at the path and no other file is changed; so it starts again after a
    crash.  Something else at the path is not removed: the server does not start and
    no file changes. *)
Theorem server_binds_socket url_Parse opts p e w :
  parses_unix url_Parse → BindAddress opts = "unix://" +:+ p → url_path p = true →
  (∀ n, io_fail e n = false) → w_fs w !! parent (resolve p) = Some Directory →
  let '(w', r) := initGRPCServer url_Parse opts e w in
  match w_fs w !! resolve p with
  | None | Some Socket => r = Ok tt ∧ w_fs w' = <[resolve p := Socket]> (w_fs w)
  | Some _ => (∃ err, r = Err err) ∧ w_fs w' = w_fs w
  end.
Proof.
  intros Hurl Hb Hp He Hdir. unfold initGRPCServer, ParseBindAddress. rewrite Hb, (Hurl p Hp). cbn [rbind Scheme Host Path].
  rewrite bool_decide_false, bool_decide_true by done. rewrite str_nil_app.
  assert (p ≠ "") as Hne by (by destruct p).
  assert (∀ f, at_path f p = f !! resolve p) as Ha by (intros f; unfold at_path; by rewrite bool_decide_false).
  assert (∀ w, w_fs w !! resolve p = None → w_fs w !! parent (resolve p) = Some Directory →
    attempt (Listen "unix" p) (λ _, fail "failed to start listener for GRPC server") (λ _, ret tt) e w =
      (mkWorld (<[resolve p := Socket]> (w_fs w)) (w_fs w :: w_past w) (S (w_calls w)), Ok tt : result string unit)) as HL.
  { intros w0 Hfree Hd. unfold attempt, Listen. erewrite syscall_calm; [done|done|]. rewrite bool_decide_true by done. cbn [negb].
    rewrite (bool_decide_false (p = "")), Ha, Hfree by done. rewrite bool_decide_false by (by intros []). by rewrite bool_decide_true. }
  set (listen := attempt (Listen "unix" p) _ _) in *. clearbody listen. unfold pbind, cleanUNIXSocketIfRequired. rewrite Hb. change (strip_prefix "unix://" ("unix://" +:+ p)) with (Some p). cbv iota.
  destruct (w_fs w !! resolve p) as [n|] eqn:Ep.
  - unfold attempt, Stat. rewrite (syscall_calm _ e w n (w_fs w) He) by (by rewrite Ha, Ep).
    destruct n as [d m| |]; try (cbn; split; [by eexists|done]). rewrite bool_decide_true by done. cbn [negb].
    unfold Remove. rewrite (syscall_calm _ e _ tt (delete (resolve p) (w_fs w)) He) by (cbn [w_fs]; by rewrite Ha, Ep).
    unfold ret at 1. rewrite HL; cbn [w_fs].
    + split; [done|]. by rewrite insert_delete_eq.
    + by rewrite lookup_delete_eq.
    + rewrite lookup_delete_ne by congruence. done.
  - unfold attempt, Stat, syscall at 1. rewrite He, Ha, Ep. rewrite bool_decide_true by done. unfold ret at 1. by rewrite HL.
Qed.

(** *** Examples and witnesses *)

(** [renameio.WriteFile] as one step. *)
#[global] Instance direct_writer : ConfWriter := λ p data perm,
  syscall (λ _ _ f, if bool_decide (f !! parent (resolve p) = Some Directory) then Ok (tt, <[resolve p := File data perm]> f)
                    else Err ENOENT).

#[global] Instance direct_writer_laws : ConfWriterLaws.
Proof.
  split; intros e w p data perm; unfold WriteFile, direct_writer;
    match goal with |- context [syscall ?act] => pose proof (syscall_cases act e w) as Hc; destruct (syscall act e w) as [w' [[]|err]] end;
    simpl in *; try done.
  - intros g. destruct Hc as (h & Hh & Hf & Hv). rewrite Hv. intros [->|Hg]%elem_of_cons; [|by left].
    case_bool_decide; [|done]. injection Hh as <-. right. right. exists perm. by rewrite lookup_insert_eq.
  - intros g. rewrite Hc. by left.
  - intros _. destruct Hc as (h & Hh & Hf & _). case_bool_decide; [|done]. injection Hh as <-. exists perm. by rewrite Hf, lookup_insert_eq.
  - intros ? _. by injection Hc as ->.
  - intros g q Hg Hq. destruct Hc as (h & Hh & Hf & Hv). rewrite Hv in Hg. apply elem_of_cons in Hg as [->|]; [|by left].
    case_bool_decide; [|done]. injection Hh as <-. right. rewrite lookup_insert_ne; [done|]. intros <-. apply Hq. by left.
  - intros g q. rewrite Hc. by left.
Qed.

(** A quotation mark in an option makes a file that the plugin cannot read. *)
Definition with_options (opts : Options) (bind level : string) : Options :=
  mkOptions (MetricsAddr opts) (ProbeAddr opts) "node" (PoolsNamespace opts) bind (StoreFile opts) (CNIBinDir opts)
    (CNIBinFile opts) (CNISkipBinFileCopy opts) (CNISkipConfigCreation opts) (CNIConfDir opts) (CNIDaemonSocket opts)
    (CNIDaemonCallTimeoutSeconds opts) (CNILogFile opts) level (CNIForcePoolName opts) (StaleIPCheckInterval opts)
    (StaleIPCheckCountBeforeRelease opts) (ReleasedIPCooldown opts).

Example quote_breaks_config :
  let '(w, r) := deployShimCNI (with_options New DefaultBindAddress (quoted "info")) no_fail (start (node_files [])) in
  r = Ok tt ∧ conf_of_dir (w_fs w) DefaultConfDir = ConfError "json".
Proof. vm_compute. split; reflexivity. Qed.

(** [url.Parse] of addresses of Unix sockets. *)
Definition unix_url (s : string) : result string URL :=
  match strip_prefix "unix://" s, strip_prefix "unix:" s with
  | Some p, _ | None, Some p => Ok (mkURL "unix" "" p)
  | None, None => Err "parse"
  end.

Lemma unix_url_parses : parses_unix unix_url.
Proof. by intros p _. Qed.

(** An address with one slash is valid, but the socket of an earlier run stays and
    the server does not start again. *)
Example single_slash_not_cleaned :
  let opts := with_options New "unix:/var/lib/cni/nv-ipam/daemon.sock" "info" in
  (Options_Validate unix_url None opts no_fail (start (node_files []))).2 = Ok tt ∧
  (initGRPCServer unix_url opts no_fail (start (node_files []))).2 = Ok tt ∧
  (initGRPCServer unix_url opts no_fail (start (w_fs (initGRPCServer unix_url opts no_fail (start (node_files []))).1))).2 =
    Err "failed to start listener for GRPC server".
Proof. vm_compute. split_and!; reflexivity. Qed.

Lemma deployed_config_roundtrip_witness :
  ∃ w, deployShimCNI New no_fail (start (node_files [])) = (w, Ok tt) ∧
    conf_of_dir (w_fs w) DefaultConfDir = ConfRead (deployed_conf New).
Proof.
  assert (is_ok (deployShimCNI New no_fail (start (node_files []))).2 = true) as Hok by (vm_compute; reflexivity).
  destruct (deployShimCNI New no_fail (start (node_files []))) as [w [[]|err]] eqn:E; [|discriminate Hok].
  exists w. split; [reflexivity|]. apply (deployed_config_roundtrip New no_fail (start (node_files [])) w);
    [repeat split; vm_compute; reflexivity|reflexivity|exact E].
Defined.

Lemma server_binds_socket_witness :
  let opts := with_options New DefaultBindAddress "info" in
  let w := start (node_files [("/var/lib/cni/nv-ipam/daemon.sock", Socket)]) in
  (initGRPCServer unix_url opts no_fail w).2 = Ok tt ∧
  w_fs (initGRPCServer unix_url opts no_fail w).1 = <[resolve "/var/lib/cni/nv-ipam/daemon.sock" := Socket]> (w_fs w).
Proof.
  intros opts w.
  pose proof (server_binds_socket unix_url opts "/var/lib/cni/nv-ipam/daemon.sock" no_fail w unix_url_parses eq_refl eq_refl
    (λ _, eq_refl)) as Hs.
  specialize (Hs ltac:(vm_compute; reflexivity)).
  assert (w_fs w !! resolve "/var/lib/cni/nv-ipam/daemon.sock" = Some Socket) as Hn by (vm_compute; reflexivity).
  rewrite Hn in Hs. destruct (initGRPCServer unix_url opts no_fail w) as [w' r]. exact Hs.
Defined.
