(* ===== verification/Process.v ===== *)
(** * The goroutines of the daemon: the end of [RunNodeDaemon] in
    [cmd/ipam-node/app/app.go]

    Once the daemon is set up, four goroutines run beside the main one: the server,
    the manager with the pool controllers, the cleaner, and one that stops the server
    when the context is done.  They are a state machine: [proc_step] are the steps of
    the code, [proc_env] what happens to it (a signal, a request, a failure, the
    caches in sync).  What is used of the libraries: [Serve] returns once
    [GracefulStop] has finished, and with an error if it is called later;
    [GracefulStop] accepts no new requests and waits for those in flight; the manager
    and the cleaner return when their context is done; a request is answered
    ([HandlersSpec]). *)

From S2P Require Import Prelude.

Inductive stopper := StopWait | StopDraining | StopDone.
Inductive server := ServerStart | ServerServing | ServerError | ServerDone.
Inductive managerRun := ManagerRunning | ManagerError | ManagerDone.
Inductive cleanerRun := CleanerSync | CleanerError | CleanerRunning | CleanerDone.
Inductive mainRun := MainSelect | MainWait | MainReturned.

Record goroutines := mkRun {
  g_ctx : bool;         (* ctx is done: a signal *)
  g_cancelled : bool;   (* innerCFunc has been called *)
  g_errCh : bool;       (* errCh, of capacity 1, holds an error *)
  g_requests : nat;     (* requests in flight *)
  g_stopper : stopper;
  g_server : server;
  g_manager : managerRun;
  g_cleaner : cleanerRun;
  g_main : mainRun;
}.

Definition g_start : goroutines :=
  mkRun false false false 0 StopWait ServerStart ManagerRunning CleanerSync MainSelect.

(** [innerCtx] is derived from [ctx]. *)
Definition inner_done (g : goroutines) : bool := g_ctx g || g_cancelled g.

(** [wg.Wait] returns. *)
Definition all_done (g : goroutines) : Prop :=
  g_stopper g = StopDone ∧ g_server g = ServerDone ∧ g_manager g = ManagerDone ∧ g_cleaner g = CleanerDone.

(** The lock of the store file is released when [RunNodeDaemon] returns. *)
Definition store_locked (g : goroutines) : bool :=
  match g_main g with MainReturned => false | _ => true end.

(** ** Steps *)

Definition set_main (g : goroutines) (m : mainRun) : goroutines :=
  mkRun (g_ctx g) (g_cancelled g) (g_errCh g) (g_requests g) (g_stopper g) (g_server g) (g_manager g) (g_cleaner g) m.
Definition set_stopper (g : goroutines) (s : stopper) : goroutines :=
  mkRun (g_ctx g) (g_cancelled g) (g_errCh g) (g_requests g) s (g_server g) (g_manager g) (g_cleaner g) (g_main g).
Definition set_server (g : goroutines) (s : server) : goroutines :=
  mkRun (g_ctx g) (g_cancelled g) (g_errCh g) (g_requests g) (g_stopper g) s (g_manager g) (g_cleaner g) (g_main g).
Definition set_manager (g : goroutines) (m : managerRun) : goroutines :=
  mkRun (g_ctx g) (g_cancelled g) (g_errCh g) (g_requests g) (g_stopper g) (g_server g) m (g_cleaner g) (g_main g).
Definition set_cleaner (g : goroutines) (c : cleanerRun) : goroutines :=
  mkRun (g_ctx g) (g_cancelled g) (g_errCh g) (g_requests g) (g_stopper g) (g_server g) (g_manager g) c (g_main g).
Definition set_requests (g : goroutines) (n : nat) : goroutines :=
  mkRun (g_ctx g) (g_cancelled g) (g_errCh g) n (g_stopper g) (g_server g) (g_manager g) (g_cleaner g) (g_main g).

(** [select { case errCh <- err: default: }]: sent if there is room, dropped if not. *)
Definition send_error (g : goroutines) : goroutines :=
  mkRun (g_ctx g) (g_cancelled g) true (g_requests g) (g_stopper g) (g_server g) (g_manager g) (g_cleaner g) (g_main g).

(** [case <-errCh: innerCFunc()] *)
Definition receive_error (g : goroutines) : goroutines :=
  mkRun (g_ctx g) true false (g_requests g) (g_stopper g) (g_server g) (g_manager g) (g_cleaner g) MainWait.

Inductive proc_step : goroutines → goroutines → Prop :=
| step_stop g : g_stopper g = StopWait → inner_done g = true → proc_step g (set_stopper g StopDraining)
| step_drained g : g_stopper g = StopDraining → g_requests g = 0%nat → proc_step g (set_stopper g StopDone)
| step_answer g n : g_requests g = S n → proc_step g (set_requests g n)
| step_serve g : g_server g = ServerStart → g_stopper g = StopWait → proc_step g (set_server g ServerServing)
| step_serve_late g : g_server g = ServerStart → g_stopper g ≠ StopWait → proc_step g (set_server g ServerError)
| step_serve_return g : g_server g = ServerServing → g_stopper g = StopDone → proc_step g (set_server g ServerDone)
| step_server_error g : g_server g = ServerError → proc_step g (set_server (send_error g) ServerDone)
| step_manager_return g : g_manager g = ManagerRunning → inner_done g = true → proc_step g (set_manager g ManagerDone)
| step_manager_error g : g_manager g = ManagerError → proc_step g (set_manager (send_error g) ManagerDone)
| step_no_sync g : g_cleaner g = CleanerSync → inner_done g = true → proc_step g (set_cleaner g CleanerError)
| step_cleaner_error g : g_cleaner g = CleanerError → proc_step g (set_cleaner (send_error g) CleanerDone)
| step_cleaner_return g : g_cleaner g = CleanerRunning → inner_done g = true → proc_step g (set_cleaner g CleanerDone)
| step_signalled g : g_main g = MainSelect → g_ctx g = true → proc_step g (set_main g MainWait)
| step_error g : g_main g = MainSelect → g_errCh g = true → proc_step g (receive_error g)
| step_return g : g_main g = MainWait → all_done g → proc_step g (set_main g MainReturned).

Inductive proc_env : goroutines → goroutines → Prop :=
| env_signal g :
    proc_env g (mkRun true (g_cancelled g) (g_errCh g) (g_requests g) (g_stopper g) (g_server g) (g_manager g) (g_cleaner g) (g_main g))
| env_request g : g_server g = ServerServing → g_stopper g = StopWait → proc_env g (set_requests g (S (g_requests g)))
| env_serve_fails g : g_server g = ServerServing → proc_env g (set_server g ServerError)
| env_manager_fails g : g_manager g = ManagerRunning → proc_env g (set_manager g ManagerError)
| env_synced g : g_cleaner g = CleanerSync → proc_env g (set_cleaner g CleanerRunning).

Definition proc_reachable (g : goroutines) : Prop := rtc (λ g g', proc_step g g' ∨ proc_env g g') g_start g.

(** ** Invariant *)

Record proc_inv (g : goroutines) : Prop := {
  pi_wait : g_main g ≠ MainSelect → inner_done g = true;
  pi_select : g_cancelled g = true → g_main g ≠ MainSelect;
  pi_drained : g_stopper g = StopDone → g_requests g = 0%nat;
  pi_returned : g_main g = MainReturned → all_done g;
  pi_stopping : g_stopper g ≠ StopWait → inner_done g = true;
}.

Ltac proc_solver :=
  repeat match goal with
  | H : proc_inv _ |- _ => destruct H
  | g : goroutines |- _ => destruct g
  end; unfold inner_done, all_done in *; simpl in *; subst; simpl in *;
  try (split; unfold inner_done, all_done; simpl; intros);
  rewrite ?orb_true_r in *; naive_solver.

Lemma proc_step_inv g g' : proc_inv g → proc_step g g' → proc_inv g'.
Proof. intros Hi Hs. destruct Hs; proc_solver. Qed.

Lemma proc_env_inv g g' : proc_inv g → proc_env g g' → proc_inv g'.
Proof. intros Hi Hs. destruct Hs; proc_solver. Qed.

Lemma proc_reachable_inv g : proc_reachable g → proc_inv g.
Proof.
  intros Hr. assert (proc_inv g_start) as Hi by (by split). revert Hi.
  induction Hr as [|g1 g2 g3 [Hs|Hs] _ IH]; intros Hi; [done|apply IH; by eapply proc_step_inv|apply IH; by eapply proc_env_inv].
Qed.

(** ** Stopping *)

(** A signal, or the failure of a part. *)
Definition stopping (g : goroutines) : Prop :=
  inner_done g = true ∨ g_errCh g = true ∨ g_server g = ServerError ∨ g_manager g = ManagerError ∨ g_cleaner g = CleanerError.

Lemma stopping_step g g' : stopping g → proc_step g g' → stopping g'.
Proof. unfold stopping, inner_done. intros Hg Hs. destruct Hs; destruct g; simpl in *; subst; rewrite ?orb_true_r; naive_solver. Qed.

Definition proc_work (g : goroutines) : nat :=
  g_requests g +
  match g_stopper g with StopWait => 2 | StopDraining => 1 | StopDone => 0 end +
  match g_server g with ServerStart => 3 | ServerServing => 2 | ServerError => 1 | ServerDone => 0 end +
  match g_manager g with ManagerRunning => 2 | ManagerError => 1 | ManagerDone => 0 end +
  match g_cleaner g with CleanerSync => 2 | CleanerError | CleanerRunning => 1 | CleanerDone => 0 end +
  match g_main g with MainSelect => 2 | MainWait => 1 | MainReturned => 0 end.

Lemma proc_step_work g g' : proc_step g g' → (proc_work g' < proc_work g)%nat.
Proof. intros Hs. destruct Hs; destruct g; simpl in *; subst; unfold proc_work; simpl; destruct_or?; lia. Qed.

(** The goroutines other than the main one come to an end. *)
Lemma goroutines_progress g : proc_inv g → inner_done g = true → all_done g ∨ ∃ g', proc_step g g'.
Proof.
  intros [_ _ Hdr _ _] Hd. unfold all_done. destruct (g_stopper g) eqn:Es; [right; eexists; by apply step_stop| |].
  { right. destruct (g_requests g) eqn:Er; eexists; [by apply step_drained|by apply step_answer]. }
  destruct (g_server g) eqn:Ev;
    [right; eexists; apply step_serve_late; congruence|right; eexists; by apply step_serve_return|right; eexists; by apply step_server_error|].
  destruct (g_manager g) eqn:Em; [right; eexists; by apply step_manager_return|right; eexists; by apply step_manager_error|].
  destruct (g_cleaner g) eqn:Ec;
    [right; eexists; by apply step_no_sync|right; eexists; by apply step_cleaner_error|right; eexists; by apply step_cleaner_return|].
  by left.
Qed.

Lemma stopping_progress g : proc_inv g → stopping g → g_main g = MainReturned ∨ ∃ g', proc_step g g'.
Proof.
  intros Hi Hs. destruct (g_main g) eqn:Em; [| |by left]; right.
  - destruct (g_ctx g) eqn:Ec; [eexists; by apply step_signalled|]. destruct (g_errCh g) eqn:Ee; [eexists; by apply step_error|].
    destruct Hs as [Hd|[Hd|[Hd|[Hd|Hd]]]].
    + unfold inner_done in Hd. rewrite Ec in Hd. by destruct (pi_select g Hi Hd).
    + congruence.
    + eexists; by apply step_server_error.
    + eexists; by apply step_manager_error.
    + eexists; by apply step_cleaner_error.
  - destruct (goroutines_progress g Hi) as [Ha|]; [by apply (pi_wait g Hi); congruence| |done]. eexists. by apply step_return.
Qed.

Lemma proc_steps n g g' :
  proc_inv g → stopping g → nsteps proc_step n g g' → proc_inv g' ∧ stopping g' ∧ (proc_work g' + n ≤ proc_work g)%nat.
Proof.
  intros Hi Hg Hs. induction Hs as [g|n g g1 g2 Hs _ IH]; [split_and!; [done|done|lia]|].
  pose proof (proc_step_work _ _ Hs). destruct IH as (? & ? & ?); [by eapply proc_step_inv|by eapply stopping_step|].
  split_and!; [done|done|lia].
Qed.

(** C15: The daemon stops in order and does not hang.  The lock of the store file is
    released only when the server, the controllers and the cleaner have ended and no
    request is in flight, and the daemon waits for that only after a signal or a
    failure.  After a signal, or the failure of any part, the code takes at most
    [proc_work g] more steps, and where it can take none, the daemon has returned:
    no goroutine waits for ever, in particular none for room in [errCh]. *)
Theorem daemon_stops g :
  proc_reachable g →
  (store_locked g = false → all_done g ∧ g_requests g = 0%nat) ∧
  (g_main g ≠ MainSelect → inner_done g = true) ∧
  (stopping g →
    (∀ n g', nsteps proc_step n g g' → (n ≤ proc_work g)%nat) ∧
    (∀ g', rtc proc_step g g' → (¬ ∃ g'', proc_step g' g'') → store_locked g' = false)).
Proof.
  intros Hi%proc_reachable_inv. split_and!.
  - unfold store_locked. destruct (g_main g) eqn:E; [done..|]. intros _. pose proof (pi_returned g Hi E) as Ha.
    split; [done|]. apply (pi_drained g Hi), Ha.
  - apply (pi_wait g Hi).
  - intros Hg. split.
    + intros n g' Hs. destruct (proc_steps n g g' Hi Hg Hs) as (_ & _ & ?). lia.
    + intros g' [n Hs]%rtc_nsteps_1 Hno. destruct (proc_steps n g g' Hi Hg Hs) as (Hi' & Hg' & _).
      unfold store_locked. by destruct (stopping_progress g' Hi' Hg') as [->|].
Qed.

(** The manager fails while a request is in flight and a signal arrives. *)
Definition failing : goroutines := mkRun true false false 1 StopWait ServerServing ManagerError CleanerSync MainSelect.

Lemma daemon_stops_witness :
  proc_reachable failing ∧ stopping failing ∧ (∀ n g', nsteps proc_step n failing g' → (n ≤ 10)%nat) ∧
  (∀ g', rtc proc_step failing g' → (¬ ∃ g'', proc_step g' g'') → store_locked g' = false).
Proof.
  assert (proc_reachable failing) as Hr.
  { eapply rtc_l; [left; by apply step_serve|]. eapply rtc_l; [right; by apply env_request|].
    eapply rtc_l; [right; by apply env_manager_fails|]. apply rtc_once. right. apply env_signal. }
  assert (stopping failing) as Hs by (left; reflexivity).
  split; [exact Hr|]. split; [exact Hs|]. exact (proj2 (proj2 (daemon_stops failing Hr)) Hs).
Defined.
