(* ===== verification/Cleaner.v ===== *)
(** * The cleaner of the node daemon: [pkg/ipam-node/cleaner/cleaner.go]

    A pass of the cleaner opens a session, checks every reservation against the
    pods of the cluster, releases the reservations whose pod has been missing for
    too many passes and those whose cooldown has elapsed, and removes empty pools
    that have no configuration.  The two clients are parameters: what they answer
    for the pod of a reservation (the check is named, so that the same pod can
    get different answers in one pass).  [None] is a panic or a blocked [Open].
    A Go map is listed in one fixed order. *)

From Stdlib Require Import Strings.Ascii.
From S2P Require Import Prelude GoNet Cidr GoNetText NodeTypes Store PoolManager.

(** ** Pods *)

Inductive pod_result := PodFound (uid : string) | PodNotFound | PodError (err : string).

(** [k8sClient.Get], for a check: the namespace and the name of the pod. *)
Definition client := string → string → string → pod_result.

Definition checkPod (k8sClient : client) (check : string) (reservation : Reservation) : result string bool :=
  let md := Metadata reservation in
  match k8sClient check (PodNamespace md) (PodName md) with
  | PodError err => Err ("failed to read Pod info: " +:+ err)
  | PodNotFound => Ok false
  | PodFound uid => Ok (negb (bool_decide (PodUUID md ≠ "") && bool_decide (PodUUID md ≠ uid)))
  end.

(** ** The state *)

Record cleaner := mkCleaner {
  checkCountBeforeRelease : Z;
  cl_releaseCooldown : Z;
  staleAllocations : gmap string Z;
}.

Definition NewCleaner (checkCountBeforeRelease releaseCooldown : Z) : cleaner :=
  mkCleaner checkCountBeforeRelease releaseCooldown ∅.

Definition set_stale (c : cleaner) (m : gmap string Z) : cleaner :=
  mkCleaner (checkCountBeforeRelease c) (cl_releaseCooldown c) m.

Definition pipe : ascii := "|".

Definition getStaleAllocKey (poolName : string) (r : Reservation) : string :=
  poolName +:+ String pipe (ContainerID r +:+ String pipe (InterfaceName r)).

(** [strings.SplitN(k, "|", 3)]; [None]: fewer than three fields, and the indexing panics. *)
Definition splitStaleAllocKey (k : string) : option (string * string * string) :=
  '(poolKey, rest) ← str_cut pipe k;
  '(containerID, ifName) ← str_cut pipe rest;
  Some (poolKey, containerID, ifName).

(** What one pass works with. *)
Record pass_env := mkPassEnv {
  pe_now : Clock;
  pe_readable : bool;
  pe_writable : bool;
  pe_cachedClient : client;
  pe_directClient : client;
  pe_configs : manager;
}.

Record pass := mkPass {
  ps_session : session;
  ps_cleaner : cleaner;
  allReservations : gset string;
  emptyPools : list string;
}.

(** ** A pass *)

Section pass.
Context (e : pass_env).

(** The body of the loop over the reservations of a pool; an error ends the pass. *)
Definition check_reservation (poolKey : string) (p : pass) (reservation : Reservation) :
    option (pass * option error) :=
  let c := ps_cleaner p in
  let staleAllocKey := getStaleAllocKey poolKey reservation in
  let known := {[staleAllocKey]} ∪ allReservations p in
  let next s stale := Some (mkPass s (set_stale c stale) known (emptyPools p), None) in
  let fail err := Some (mkPass (ps_session p) c known (emptyPools p), Some err) in
  let stale := staleAllocations c in
  if IsReleased reservation then
    '(s, _) ← (if cl_releaseCooldown c <=? match ReleasedAt reservation with
                 | Some t => time_Since (clock_ns (pe_now e)) t | None => 0 end
               then ReleaseReservationByID (pe_now e) (ps_session p) poolKey (ContainerID reservation)
                      (InterfaceName reservation) (cl_releaseCooldown c)
               else Some (ps_session p, false));
    next s (delete staleAllocKey stale)
  else if bool_decide (PodName (Metadata reservation) = "") || bool_decide (PodNamespace (Metadata reservation) = "")
  then next (ps_session p) stale
  else
    match checkPod (pe_cachedClient e) staleAllocKey reservation with
    | Err err => fail ("failed to read Pod info from the cache: " +:+ err)
    | Ok found =>
        match (if found then Ok found else checkPod (pe_directClient e) staleAllocKey reservation) with
        | Err err => fail ("failed to read Pod info from the API: " +:+ err)
        | Ok found =>
            if found : bool then next (ps_session p) (delete staleAllocKey stale)
            else next (ps_session p) (<[staleAllocKey := default 0 (stale !! staleAllocKey) + 1]> stale)
        end
    end.

Fixpoint check_reservations (poolKey : string) (l : list Reservation) (p : pass) : option (pass * option error) :=
  match l with
  | [] => Some (p, None)
  | reservation :: l =>
      '(p, err) ← check_reservation poolKey p reservation;
      match err with
      | Some err => Some (p, Some err)
      | None => check_reservations poolKey l p
      end
  end.

Fixpoint check_pools (pools : list string) (p : pass) : option (pass * option error) :=
  match pools with
  | [] => Some (p, None)
  | poolKey :: pools =>
      poolReservations ← ListReservations (ps_session p) poolKey;
      if bool_decide (poolReservations = [])
      then check_pools pools (mkPass (ps_session p) (ps_cleaner p) (allReservations p) (emptyPools p ++ [poolKey]))
      else
        '(p, err) ← check_reservations poolKey poolReservations p;
        match err with
        | Some err => Some (p, Some err)
        | None => check_pools pools p
        end
  end.

(** The loop over [staleAllocations]. *)
Fixpoint release_stale (l : list (string * Z)) (p : pass) : option pass :=
  match l with
  | [] => Some p
  | (k, count) :: l =>
      let c := ps_cleaner p in
      if negb (bool_decide (k ∈ allReservations p))
      then release_stale l (mkPass (ps_session p) (set_stale c (delete k (staleAllocations c))) (allReservations p) (emptyPools p))
      else if checkCountBeforeRelease c <? count then
        '(poolKey, containerID, ifName) ← splitStaleAllocKey k;
        '(s, _) ← ReleaseReservationByID (pe_now e) (ps_session p) poolKey containerID ifName (cl_releaseCooldown c);
        release_stale l (mkPass s c (allReservations p) (emptyPools p))
      else release_stale l p
  end.

Fixpoint remove_empty (pools : list string) (s : session) : option session :=
  match pools with
  | [] => Some s
  | emptyPool :: pools =>
      match GetPoolByKey (pe_configs e) emptyPool with
      | None => s ← Store.RemovePool s emptyPool; remove_empty pools s
      | Some _ => remove_empty pools s
      end
  end.

(** The pass between [Open] and [Commit]; with an error the session is cancelled. *)
Definition clean (c : cleaner) (s : session) : option (session * cleaner * option error) :=
  pools ← ListPools s;
  '(p, err) ← check_pools pools (mkPass s c ∅ []);
  match err with
  | Some err => Some (ps_session p, ps_cleaner p, Some err)
  | None =>
      p ← release_stale (map_to_list (staleAllocations (ps_cleaner p))) p;
      s ← remove_empty (emptyPools p) (ps_session p);
      Some (s, ps_cleaner p, None)
  end.
End pass.

Section loop.
Context `{RootCodec}.

Definition cleaner_loop (e : pass_env) (c : cleaner) (st : store) : option (store * cleaner * option error) :=
  r ← Open (pe_readable e) st;
  match r with
  | OpenBlocks => None
  | OpenFailed st err => Some (st, c, Some ("failed to open store: " +:+ err))
  | Opened st s =>
      '(s, c, err) ← clean e c s;
      match err with
      | Some err => '(st, _) ← Cancel st s; Some (st, c, Some err)
      | None =>
          '(st, _, err) ← Commit (pe_writable e) st s;
          Some (st, c, match err with
                       | Some err => Some ("failed to commit changes to the store: " +:+ err)
                       | None => None
                       end)
      end
  end.

(** [Start]: one pass after the other, until the context is done. *)
Fixpoint Start (es : list pass_env) (c : cleaner) (st : store) : option (store * cleaner) :=
  match es with
  | [] => Some (st, c)
  | e :: es => '(st, c, _) ← cleaner_loop e c st; Start es c st
  end.
End loop.
