(* ===== verification/CleanerSpec.v ===== *)
(** * What a pass of the cleaner does

    Entry by entry: [pass_entry] is what becomes of a reservation, [pass_count]
    what becomes of its counter.  The loops of the cleaner are shown to do this
    for every reservation of the store, independently of the order in which they
    are listed, when no pool key and no container id has a ["|"] in it. *)

From Stdlib Require Import Strings.Ascii.
From S2P Require Import Prelude GoNet Cidr GoNetText NodeTypes Store SessionRuns PoolManager Cleaner.

(** ** The entries of a session *)

Definition ent (s : session) (pk k : string) : option Reservation := Entries (pool_of s pk) !! k.
Definition has_pool (s : session) (pk : string) : Prop := is_Some (Pools (tmpData s) !! pk).
Definition rkey (r : Reservation) : string := getKey (ContainerID r) (InterfaceName r).

(** Every entry is stored under its own key. *)
Definition keyed (s : session) : Prop := ∀ pk k r, ent s pk k = Some r → k = rkey r.

Definition cleaner_op (now : Clock) (cd : Z) (t : Clock) (o : op) : Prop :=
  t = now ∧ match o with OpRelease _ _ _ c => c = cd | OpRemovePool _ => True | _ => False end.

Lemma cleaner_op_texts_ok now cd t o : cleaner_op now cd t o → op_texts_ok o.
Proof. intros [_ H]. by destruct o. Qed.

(** What [ReleaseReservationByID] does to the entry. *)
Definition release_ent (now cd : Z) (o : option Reservation) : option Reservation :=
  match o with
  | None => None
  | Some r =>
      if (cd <=? 0) || match ReleasedAt r with Some t => cd <=? time_Since now t | None => false end then None
      else if IsReleased r then Some r else Some (set_ReleasedAt r (Some now))
  end.

Lemma Release_ent now s pk id ifn cd :
  isClosed s = false →
  ∃ s' b, ReleaseReservationByID now s pk id ifn cd = Some (s', b) ∧ isClosed s' = false ∧
    runs_with (cleaner_op now cd) s s' ∧
    (∀ pk' k', ent s' pk' k' = if decide (pk' = pk ∧ k' = getKey id ifn)
                               then release_ent (clock_ns now) cd (ent s pk' k') else ent s pk' k') ∧
    (∀ pk', has_pool s' pk' ↔ has_pool s pk').
Proof.
  intros Ho. destruct (ReleaseReservationByID now s pk id ifn cd) as [[s' b]|] eqn:E.
  2: { unfold ReleaseReservationByID, checkClosed in E. by rewrite Ho in E. }
  assert (runs_with (cleaner_op now cd) s s') as Hrun
    by (eapply (runs_with_op _ now (OpRelease pk id ifn cd)); [done|]; simpl; by rewrite E).
  exists s', b. split_and!; [done|by eapply runs_with_open|done|..];
    apply Release_cases in E; cbv zeta in E; fold (ent s pk (getKey id ifn)) in E.
  - intros pk' k'. destruct (decide (pk' = pk ∧ k' = getKey id ifn)) as [[-> ->]|Hne].
    + unfold release_ent. destruct (ent s pk (getKey id ifn)) as [r|] eqn:Er; [|by destruct E as [-> _]].
      destruct (_ || _); [|destruct (IsReleased r)]; destruct E as [-> _]; unfold ent; [|done|];
        rewrite pool_of_update, decide_True by done; simpl; [apply lookup_delete_eq|apply lookup_insert_eq].
    + destruct (ent s pk (getKey id ifn)) as [r|]; [|by destruct E as [-> _]].
      destruct (_ || _); [|destruct (IsReleased r)]; destruct E as [-> _]; unfold ent; [|done|];
        rewrite pool_of_update; (case_decide; [|done]); subst; simpl;
        rewrite ?lookup_delete_ne, ?lookup_insert_ne by naive_solver; done.
  - intros pk'. destruct (ent s pk (getKey id ifn)) as [r|] eqn:Er; [|by destruct E as [-> _]].
    assert (has_pool s pk) as Hp.
    { unfold has_pool. unfold ent, pool_of, getPoolData in Er. destruct (Pools (tmpData s) !! pk); [by eexists|].
      simpl in Er. by rewrite lookup_empty in Er. }
    assert (∀ p, has_pool (updatePoolData s pk p) pk' ↔ has_pool s pk') as Hup.
    { intros p. unfold has_pool in *. simpl. destruct (decide (pk' = pk)) as [->|].
      - rewrite lookup_insert_eq. naive_solver.
      - by rewrite lookup_insert_ne. }
    destruct (_ || _); [|destruct (IsReleased r)]; destruct E as [-> _]; done.
Qed.

(** ** The pod of a reservation *)

(** What the answer of a client says about the pod with the recorded [uid]: it is there when
    a pod of the name is there and the recorded uid, if there is one, is its uid; [None]: the
    client failed. *)
Definition pod_seen (a : pod_result) (uid : string) : option bool :=
  match a with
  | PodFound uid' => Some (bool_decide (uid = "" ∨ uid = uid'))
  | PodNotFound => Some false
  | PodError _ => None
  end.

Lemma checkPod_seen k8sClient check r :
  let md := Metadata r in
  match pod_seen (k8sClient check (PodNamespace md) (PodName md)) (PodUUID md) with
  | Some b => checkPod k8sClient check r = Ok b
  | None => ∃ err, checkPod k8sClient check r = Err err
  end.
Proof.
  unfold checkPod, pod_seen. destruct (k8sClient _ _ _) as [uid| |err]; [|done|by eexists]. f_equal.
  repeat case_bool_decide; naive_solver.
Qed.

(** ** The check of a reservation *)

Section pass.
Context (e : pass_env) (cd limit : Z).

(** Whether the pod of the reservation is there, by the answers of the cache and, if the cache
    does not have it, of the API; [None]: a client failed. *)
Definition pod_present (pk : string) (r : Reservation) : option bool :=
  let md := Metadata r in
  let key := getStaleAllocKey pk r in
  match pod_seen (pe_cachedClient e key (PodNamespace md) (PodName md)) (PodUUID md) with
  | Some false => pod_seen (pe_directClient e key (PodNamespace md) (PodName md)) (PodUUID md)
  | seen => seen
  end.

Definition has_pod (r : Reservation) : bool :=
  negb (bool_decide (PodName (Metadata r) = "") || bool_decide (PodNamespace (Metadata r) = "")).

(** The counter of the reservation after the check, [old] before it. *)
Definition pass_count (pk : string) (r : Reservation) (old : option Z) : option Z :=
  if IsReleased r then None
  else if negb (has_pod r) then old
  else match pod_present pk r with
       | Some false => Some (default 0 old + 1)
       | _ => None
       end.

Definition expired (r : Reservation) : bool :=
  match ReleasedAt r with Some t => cd <=? time_Since (clock_ns (pe_now e)) t | None => false end.

(** The entry of the reservation after the check. *)
Definition checked_entry (r : Reservation) : option Reservation := if expired r then None else Some r.

(** The fields of a pass that the loops do not change. *)
Definition pass_for (p : pass) : Prop :=
  isClosed (ps_session p) = false ∧ cl_releaseCooldown (ps_cleaner p) = cd ∧ checkCountBeforeRelease (ps_cleaner p) = limit.

Abbreviation stale p := (staleAllocations (ps_cleaner p)).

(** The reservations [l] of the pool [pk] have been checked. *)
Record checked (pk : string) (l : list Reservation) (p p' : pass) : Prop := {
  ck_entry : ∀ r, r ∈ l → ent (ps_session p') pk (rkey r) = checked_entry r;
  ck_other : ∀ pk' k, (pk' = pk → k ∉ rkey <$> l) → ent (ps_session p') pk' k = ent (ps_session p) pk' k;
  ck_pools : ∀ pk', has_pool (ps_session p') pk' ↔ has_pool (ps_session p) pk';
  ck_count : ∀ r, r ∈ l → stale p' !! getStaleAllocKey pk r = pass_count pk r (stale p !! getStaleAllocKey pk r);
  ck_counts : ∀ sk, sk ∉ getStaleAllocKey pk <$> l → stale p' !! sk = stale p !! sk;
  ck_known : ∀ sk, sk ∈ allReservations p' ↔ sk ∈ allReservations p ∨ sk ∈ getStaleAllocKey pk <$> l;
  ck_empty : emptyPools p' = emptyPools p;
}.

Definition check_ok (pk : string) (l : list Reservation) (p : pass) (out : option (pass * option error)) : Prop :=
  ∃ p' err, out = Some (p', err) ∧ pass_for p' ∧
    runs_with (cleaner_op (pe_now e) cd) (ps_session p) (ps_session p') ∧ (err = None → checked pk l p p').

Lemma check_next pk r p s st known :
  pass_for p → isClosed s = false → runs_with (cleaner_op (pe_now e) cd) (ps_session p) s →
  (∀ pk' k', ent s pk' k' = if decide (pk' = pk ∧ k' = rkey r) then checked_entry r else ent (ps_session p) pk' k') →
  (∀ pk', has_pool s pk' ↔ has_pool (ps_session p) pk') →
  st !! getStaleAllocKey pk r = pass_count pk r (stale p !! getStaleAllocKey pk r) →
  (∀ sk, sk ≠ getStaleAllocKey pk r → st !! sk = stale p !! sk) →
  known = {[getStaleAllocKey pk r]} ∪ allReservations p →
  check_ok pk [r] p (Some (mkPass s (set_stale (ps_cleaner p) st) known (emptyPools p), None)).
Proof.
  intros (_ & Hcd & Hlim) Hos Hrun He Hp Hc Hcs ->. eexists _, _. split; [done|]. split_and!; [done..|]. intros _. split; simpl.
  - intros r' Hr'. apply list_elem_of_singleton in Hr' as ->. rewrite He. by rewrite decide_True.
  - intros pk' k Hk. rewrite He, decide_False; [done|]. intros [-> ->]. apply Hk; [done|]. apply list_elem_of_here.
  - done.
  - intros r' Hr'. by apply list_elem_of_singleton in Hr' as ->.
  - intros sk Hsk. apply Hcs. intros ->. apply Hsk. apply list_elem_of_here.
  - intros sk. rewrite list_elem_of_singleton. set_solver.
  - done.
Qed.

Lemma check_reservation_spec pk r p :
  pass_for p → ent (ps_session p) pk (rkey r) = Some r → check_ok pk [r] p (check_reservation e pk p r).
Proof.
  intros Hpf Hr. pose proof Hpf as (Ho & Hcd & Hlim). unfold check_reservation. rewrite Hcd.
  assert (∀ err, check_ok pk [r] p (Some (mkPass (ps_session p) (ps_cleaner p)
    ({[getStaleAllocKey pk r]} ∪ allReservations p) (emptyPools p), Some err))) as Hfail
    by (intros err; eexists _, _; split; [done|]; split_and!; done).
  assert (expired r = false → ∀ pk' k', ent (ps_session p) pk' k' =
    if decide (pk' = pk ∧ k' = rkey r) then checked_entry r else ent (ps_session p) pk' k') as Hkeep.
  { intros Hx pk' k'. case_decide as Hd; [|done]. destruct Hd as [-> ->]. unfold checked_entry. by rewrite Hx. }
  destruct (IsReleased r) eqn:Hrel.
  - unfold IsReleased in Hrel. destruct (ReleasedAt r) as [t|] eqn:Et; [|done].
    assert (pass_count pk r (stale p !! getStaleAllocKey pk r) = None) as Hc by (unfold pass_count, IsReleased; by rewrite Et).
    destruct (cd <=? time_Since (clock_ns (pe_now e)) t) eqn:Hx.
    + destruct (Release_ent (pe_now e) (ps_session p) pk (ContainerID r) (InterfaceName r) cd Ho)
        as (s & b & -> & Hos & Hrun & He & Hp). cbn [mbind option_bind].
      apply check_next; try done; [|by rewrite lookup_delete_eq|intros; by rewrite lookup_delete_ne].
      intros pk' k'. rewrite He. fold (rkey r). case_decide as Hd; [|done]. destruct Hd as [-> ->]. rewrite Hr.
      unfold release_ent, checked_entry, expired. by rewrite Et, Hx, orb_true_r.
    + cbn [mbind option_bind]. apply check_next; try done; [|by rewrite lookup_delete_eq|intros; by rewrite lookup_delete_ne].
      apply Hkeep. unfold expired. by rewrite Et.
  - assert (expired r = false) as Hx by (unfold expired, IsReleased in *; by destruct (ReleasedAt r)).
    specialize (Hkeep Hx). unfold pass_count in *.
    destruct (bool_decide (PodName (Metadata r) = "") || bool_decide (PodNamespace (Metadata r) = "")) eqn:Hmd.
    { apply check_next; try done. unfold pass_count, has_pod. by rewrite Hrel, Hmd. }
    assert (∀ old, pass_count pk r old = match pod_present pk r with Some false => Some (default 0 old + 1) | _ => None end) as Hc
      by (intros; unfold pass_count, has_pod; by rewrite Hrel, Hmd).
    unfold pod_present in Hc. pose proof (checkPod_seen (pe_cachedClient e) (getStaleAllocKey pk r) r) as H1. cbv zeta in H1.
    pose proof (checkPod_seen (pe_directClient e) (getStaleAllocKey pk r) r) as H2. cbv zeta in H2.
    destruct (pod_seen (pe_cachedClient e _ _ _) _) as [[]|]; [rewrite H1|rewrite H1|destruct H1 as [err ->]].
    + apply check_next; try done; [by rewrite lookup_delete_eq, Hc|intros; by rewrite lookup_delete_ne].
    + destruct (pod_seen (pe_directClient e _ _ _) _) as [[]|]; [rewrite H2|rewrite H2|destruct H2 as [err ->]; apply Hfail].
      * apply check_next; try done; [by rewrite lookup_delete_eq, Hc|intros; by rewrite lookup_delete_ne].
      * apply check_next; try done; [by rewrite lookup_insert_eq, Hc|intros; by rewrite lookup_insert_ne].
    + apply Hfail.
Qed.

(** ** The reservations of a pool *)

Lemma checked_nil pk p : checked pk [] p p.
Proof.
  split; try done; [by intros r ?%not_elem_of_nil..|]. intros sk. split; [by left|]. by intros [?|?%not_elem_of_nil].
Qed.

Lemma checked_cons pk r l p p1 p2 :
  rkey r ∉ rkey <$> l → getStaleAllocKey pk r ∉ getStaleAllocKey pk <$> l →
  checked pk [r] p p1 → checked pk l p1 p2 → checked pk (r :: l) p p2.
Proof.
  intros Hk Hs [E1 O1 P1 C1 D1 K1 M1] [E2 O2 P2 C2 D2 K2 M2].
  assert (r ∈ [r]) as Hr by apply list_elem_of_here. split.
  - intros r' Hr'. apply elem_of_cons in Hr' as [->|Hr']; [|by apply E2].
    rewrite O2 by (by intros _). by apply E1.
  - intros pk' k Hne. rewrite fmap_cons in Hne. rewrite O2, O1; [done|..]; intros Hpk; specialize (Hne Hpk);
      rewrite elem_of_cons in Hne; simpl; rewrite ?list_elem_of_singleton; tauto.
  - intros pk'. by rewrite P2, P1.
  - intros r' Hr'. apply elem_of_cons in Hr' as [->|Hr']; [rewrite D2 by done; by apply C1|].
    rewrite C2 by done. rewrite D1; [done|]. simpl. rewrite list_elem_of_singleton. intros E. rewrite <- E in Hs.
    apply Hs. by apply list_elem_of_fmap_2.
  - intros sk Hsk. rewrite fmap_cons, elem_of_cons in Hsk. rewrite D2, D1; [done|..]; simpl; rewrite ?list_elem_of_singleton; tauto.
  - intros sk. rewrite K2, K1. simpl. rewrite list_elem_of_singleton, elem_of_cons. tauto.
  - congruence.
Qed.

Lemma check_reservations_spec pk l p :
  pass_for p → NoDup (rkey <$> l) → NoDup (getStaleAllocKey pk <$> l) →
  (∀ r, r ∈ l → ent (ps_session p) pk (rkey r) = Some r) →
  check_ok pk l p (check_reservations e pk l p).
Proof.
  revert p. induction l as [|r l IH]; intros p Hpf Hk Hs He; cbn [check_reservations].
  { eexists _, _. split; [done|]. split_and!; try done. intros _. apply checked_nil. }
  rewrite fmap_cons in Hk, Hs. apply NoDup_cons in Hk as [Hk Hk'], Hs as [Hs Hs'].
  destruct (check_reservation_spec pk r p Hpf) as (p1 & err & -> & Hpf1 & Hr1 & Hc1); [by apply He, list_elem_of_here|].
  cbn [mbind option_bind]. destruct err as [err|].
  { eexists _, _. split; [done|]. split_and!; done. }
  specialize (Hc1 eq_refl). destruct (IH p1 Hpf1 Hk' Hs') as (p2 & err & -> & Hpf2 & Hr2 & Hc2).
  { intros r' Hr'. rewrite (ck_other _ _ _ _ Hc1); [by apply He; right|]. intros _. simpl.
    rewrite list_elem_of_singleton. intros E. rewrite <- E in Hk. apply Hk. by apply list_elem_of_fmap_2. }
  eexists _, _. split; [done|]. split_and!; [done..|by etrans|]. intros ->. eapply checked_cons; [done..|]. by apply Hc2.
Qed.

(** ** The pools *)

Definition no_pipe (s : string) : Prop := str_has pipe s = false.

Lemma splitStaleAllocKey_key pk r :
  no_pipe pk → no_pipe (ContainerID r) →
  splitStaleAllocKey (getStaleAllocKey pk r) = Some (pk, ContainerID r, InterfaceName r).
Proof.
  intros H1 H2. unfold splitStaleAllocKey, getStaleAllocKey. rewrite str_cut_app by done. cbn [mbind option_bind].
  by rewrite str_cut_app.
Qed.

Lemma getStaleAllocKey_inj pk pk' r r' :
  no_pipe pk → no_pipe (ContainerID r) → no_pipe pk' → no_pipe (ContainerID r') →
  getStaleAllocKey pk r = getStaleAllocKey pk' r' → pk = pk' ∧ rkey r = rkey r'.
Proof.
  intros H1 H2 H3 H4 E. pose proof (splitStaleAllocKey_key pk r H1 H2) as E1. rewrite E, splitStaleAllocKey_key in E1 by done.
  injection E1 as -> Hc Hi. split; [done|]. unfold rkey. by rewrite Hc, Hi.
Qed.

(** The entries of the pools are well named. *)
Definition named (s : session) (pools : list string) : Prop :=
  ∀ pk k r, pk ∈ pools → ent s pk k = Some r → k = rkey r ∧ no_pipe pk ∧ no_pipe (ContainerID r).

Definition pool_list (s : session) (pk : string) : list Reservation := snd <$> map_to_list (Entries (pool_of s pk)).

Lemma elem_pool_list s pk r : r ∈ pool_list s pk ↔ ∃ k, ent s pk k = Some r.
Proof.
  unfold pool_list, ent. rewrite list_elem_of_fmap. split.
  - intros ([k r'] & -> & Hin%elem_of_map_to_list). by exists k.
  - intros (k & Hk). exists (k, r). split; [done|]. by apply elem_of_map_to_list.
Qed.

Lemma pool_list_keys s pools pk :
  named s pools → pk ∈ pools → NoDup (rkey <$> pool_list s pk) ∧ NoDup (getStaleAllocKey pk <$> pool_list s pk).
Proof.
  intros Hn Hpk.
  assert (rkey <$> pool_list s pk = fst <$> map_to_list (Entries (pool_of s pk))) as E.
  { unfold pool_list. rewrite <- list_fmap_compose. apply list_fmap_ext. intros i [k r] Hi. simpl. symmetry.
    apply (Hn pk k r Hpk). apply elem_of_map_to_list. by eapply list_elem_of_lookup_2. }
  assert (NoDup (rkey <$> pool_list s pk)) as Hnd by (rewrite E; apply NoDup_fst_map_to_list). split; [done|].
  apply NoDup_fmap_2_strong; [|by eapply NoDup_fmap_1].
  intros r r' (k & Hr)%elem_pool_list (k' & Hr')%elem_pool_list Es.
  destruct (Hn _ _ _ Hpk Hr) as (-> & ? & ?), (Hn _ _ _ Hpk Hr') as (-> & _ & ?).
  destruct (getStaleAllocKey_inj pk pk r r') as [_ Ek]; [done..|].
  rewrite Ek in Hr. congruence.
Qed.

(** [sk] is the key of a reservation of the pools. *)
Definition key_of (s : session) (pools : list string) (sk : string) : Prop :=
  ∃ pk k r, pk ∈ pools ∧ ent s pk k = Some r ∧ sk = getStaleAllocKey pk r.

(** The pools [pools] have been checked. *)
Record swept (pools : list string) (p p' : pass) : Prop := {
  sw_entry : ∀ pk k, pk ∈ pools → ent (ps_session p') pk k = ent (ps_session p) pk k ≫= checked_entry;
  sw_other : ∀ pk k, pk ∉ pools → ent (ps_session p') pk k = ent (ps_session p) pk k;
  sw_pools : ∀ pk, has_pool (ps_session p') pk ↔ has_pool (ps_session p) pk;
  sw_count : ∀ pk k r, pk ∈ pools → ent (ps_session p) pk k = Some r →
    stale p' !! getStaleAllocKey pk r = pass_count pk r (stale p !! getStaleAllocKey pk r);
  sw_counts : ∀ sk, ¬ key_of (ps_session p) pools sk → stale p' !! sk = stale p !! sk;
  sw_known : ∀ sk, sk ∈ allReservations p' ↔ sk ∈ allReservations p ∨ key_of (ps_session p) pools sk;
  sw_empty : ∀ pk, pk ∈ emptyPools p' ↔ pk ∈ emptyPools p ∨ (pk ∈ pools ∧ ∀ k, ent (ps_session p) pk k = None);
}.

Lemma swept_nil p : swept [] p p.
Proof.
  split; try done; try (by intros ? ? ?%not_elem_of_nil); try (by intros ? ? ? ?%not_elem_of_nil).
  - intros sk. split; [by left|]. intros [?|(? & ? & ? & ?%not_elem_of_nil & _)]; done.
  - intros pk. split; [by left|]. intros [?|[?%not_elem_of_nil _]]; done.
Qed.

Lemma key_of_one s pk sk : key_of s [pk] sk ↔ sk ∈ getStaleAllocKey pk <$> pool_list s pk.
Proof.
  rewrite list_elem_of_fmap. split.
  - intros (pk' & k & r & ->%list_elem_of_singleton & Hr & ->). exists r. split; [done|]. apply elem_pool_list. by exists k.
  - intros (r & -> & (k & Hr)%elem_pool_list). exists pk, k, r. split_and!; [apply list_elem_of_here|done..].
Qed.

Lemma pool_list_nil s pk : pool_list s pk = [] ↔ ∀ k, ent s pk k = None.
Proof.
  split.
  - intros E k. destruct (ent s pk k) as [r|] eqn:Hr; [|done].
    assert (r ∈ pool_list s pk) as Hin by (apply elem_pool_list; by exists k). rewrite E in Hin. by apply not_elem_of_nil in Hin.
  - intros Hno. destruct (pool_list s pk) as [|r l] eqn:E; [done|].
    assert (r ∈ pool_list s pk) as (k & Hk)%elem_pool_list by (rewrite E; apply list_elem_of_here). by rewrite Hno in Hk.
Qed.

Lemma swept_empty pk p :
  pool_list (ps_session p) pk = [] →
  swept [pk] p (mkPass (ps_session p) (ps_cleaner p) (allReservations p) (emptyPools p ++ [pk])).
Proof.
  intros E. assert (∀ k, ent (ps_session p) pk k = None) as Hno by (by apply pool_list_nil). split; simpl.
  - intros pk' k ->%list_elem_of_singleton. by rewrite Hno.
  - done.
  - done.
  - intros pk' k r ->%list_elem_of_singleton. by rewrite Hno.
  - done.
  - intros sk. rewrite key_of_one, E. split; [by left|]. by intros [?|?%not_elem_of_nil].
  - intros pk'. rewrite elem_of_app, !list_elem_of_singleton. naive_solver.
Qed.

Lemma swept_checked pk p p' :
  named (ps_session p) [pk] → pool_list (ps_session p) pk ≠ [] →
  checked pk (pool_list (ps_session p) pk) p p' → swept [pk] p p'.
Proof.
  intros Hn Hne [E O P C D K M].
  assert (∀ k r, ent (ps_session p) pk k = Some r → r ∈ pool_list (ps_session p) pk ∧ k = rkey r) as Hin.
  { intros k r Hr. split; [apply elem_pool_list; by exists k|]. by apply (Hn pk k r (list_elem_of_here _ _)). }
  split.
  - intros pk' k ->%list_elem_of_singleton. destruct (ent (ps_session p) pk k) as [r|] eqn:Er; simpl.
    + destruct (Hin _ _ Er) as [Hr ->]. by apply E.
    + rewrite O; [done|]. intros _ (r & -> & (k' & Hk')%elem_pool_list)%list_elem_of_fmap.
      destruct (Hin _ _ Hk') as [_ ->]. congruence.
  - intros pk' k Hno. rewrite list_elem_of_singleton in Hno. by apply O.
  - done.
  - intros pk' k r ->%list_elem_of_singleton Hr. apply C. by apply (Hin k).
  - intros sk Hsk. apply D. by rewrite <- key_of_one.
  - intros sk. by rewrite K, key_of_one.
  - intros pk'. rewrite M, list_elem_of_singleton. split; [by left|]. intros [?|[-> Hno%pool_list_nil]]; done.
Qed.

Lemma swept_cons pk pools p p1 p2 :
  pk ∉ pools → named (ps_session p) (pk :: pools) → swept [pk] p p1 → swept pools p1 p2 → swept (pk :: pools) p p2.
Proof.
  intros Hpk Hn [E1 O1 P1 C1 D1 K1 M1] [E2 O2 P2 C2 D2 K2 M2].
  assert (∀ pk', pk' ∈ pools → pk' ∉ [pk]) as Hne by (intros pk' Hin; rewrite list_elem_of_singleton; by intros ->).
  assert (pk ∈ [pk]) as Hin1 by apply list_elem_of_here.
  assert (∀ sk, key_of (ps_session p1) pools sk ↔ key_of (ps_session p) pools sk) as Hkey.
  { intros sk. split; intros (pk' & k & r & Hin & Hr & ->); exists pk', k, r; (split_and!; [done| |done]);
      rewrite O1 in * by (by apply Hne); done. }
  assert (∀ pk' k r, pk' ∈ pools → ent (ps_session p) pk' k = Some r → ¬ key_of (ps_session p) [pk] (getStaleAllocKey pk' r)) as Hdis.
  { intros pk' k r Hin Hr (pk0 & k0 & r0 & ->%list_elem_of_singleton & Hr0 & Es).
    destruct (Hn _ _ _ (list_elem_of_further _ _ _ Hin) Hr) as (_ & ? & ?), (Hn _ _ _ (list_elem_of_here _ _) Hr0) as (_ & ? & ?).
    destruct (getStaleAllocKey_inj pk' pk r r0) as [-> _]; done. }
  assert (∀ k r, ent (ps_session p) pk k = Some r → ¬ key_of (ps_session p) pools (getStaleAllocKey pk r)) as Hdis'.
  { intros k r Hr (pk' & k' & r' & Hin & Hr' & Es). apply (Hdis pk' k' r' Hin Hr'). exists pk, k, r. by rewrite Es. }
  assert (∀ sk, key_of (ps_session p) (pk :: pools) sk ↔ key_of (ps_session p) [pk] sk ∨ key_of (ps_session p) pools sk) as Hsplit.
  { intros sk. split.
    - intros (pk' & k & r & [->|Hin]%elem_of_cons & Hr & ->); [left; by exists pk, k, r|right; by exists pk', k, r].
    - intros [(pk' & k & r & ->%list_elem_of_singleton & Hr & ->)|(pk' & k & r & Hin & Hr & ->)].
      + exists pk, k, r. split_and!; [apply list_elem_of_here|done..].
      + exists pk', k, r. split_and!; [by right|done..]. }
  split.
  - intros pk' k Hin. apply elem_of_cons in Hin as [->|Hin]; [rewrite O2 by done; by apply E1|].
    rewrite E2, O1 by auto. done.
  - intros pk' k Hno. apply not_elem_of_cons in Hno as [Hne' Hno]. rewrite O2, O1; [done|by rewrite list_elem_of_singleton|done].
  - intros pk'. by rewrite P2, P1.
  - intros pk' k r Hin Hr. apply elem_of_cons in Hin as [->|Hin].
    + rewrite D2 by (rewrite Hkey; by eapply Hdis'). by eapply C1.
    + rewrite (C2 pk' k r) by (try done; by rewrite O1 by auto). by rewrite D1 by (by eapply Hdis).
  - intros sk Hsk. rewrite Hsplit in Hsk. rewrite D2 by (rewrite Hkey; tauto). apply D1. tauto.
  - intros sk. rewrite K2, K1, Hkey, Hsplit. tauto.
  - intros pk'. rewrite M2, M1, list_elem_of_singleton, elem_of_cons. split.
    + intros [[?|[-> ?]]|[Hin Hno]]; [by left|by right; split; [left|]|]. right. split; [by right|]. intros k.
      rewrite <- O1 by auto. apply Hno.
    + intros [?|[[->|Hin] Hno]]; [by left; left|by left; right|]. right. split; [done|]. intros k. by rewrite O1 by auto.
Qed.

Lemma check_pools_spec pools p :
  pass_for p → NoDup pools → named (ps_session p) pools →
  ∃ p' err, check_pools e pools p = Some (p', err) ∧ pass_for p' ∧
    runs_with (cleaner_op (pe_now e) cd) (ps_session p) (ps_session p') ∧ (err = None → swept pools p p').
Proof.
  revert p. induction pools as [|pk pools IH]; intros p Hpf Hnd Hn; cbn [check_pools].
  { eexists _, _. split_and!; try done. intros _. apply swept_nil. }
  apply NoDup_cons in Hnd as [Hpk Hnd].
  assert (ListReservations (ps_session p) pk = Some (pool_list (ps_session p) pk)) as ->
    by (unfold ListReservations, checkClosed; by rewrite (proj1 Hpf)). cbn [mbind option_bind].
  assert (named (ps_session p) [pk]) as Hn1.
  { intros pk' k r ->%list_elem_of_singleton Hr. by apply (Hn pk k r (list_elem_of_here _ _)). }
  assert (∃ p1 err, (if bool_decide (pool_list (ps_session p) pk = [])
      then Some (mkPass (ps_session p) (ps_cleaner p) (allReservations p) (emptyPools p ++ [pk]), None)
      else check_reservations e pk (pool_list (ps_session p) pk) p) = Some (p1, err) ∧ pass_for p1 ∧
    runs_with (cleaner_op (pe_now e) cd) (ps_session p) (ps_session p1) ∧ (err = None → swept [pk] p p1)) as (p1 & err & E & Hpf1 & Hr1 & Hs1).
  { case_bool_decide as Hnil; [eexists _, _; split_and!; [done..|]; intros _; by apply swept_empty|].
    destruct (pool_list_keys _ _ _ Hn1 (list_elem_of_here _ _)) as [H1 H2].
    destruct (check_reservations_spec pk (pool_list (ps_session p) pk) p Hpf H1 H2) as (p1 & err & -> & ? & ? & Hc).
    { intros r (k & Hk)%elem_pool_list. by destruct (Hn1 _ _ _ (list_elem_of_here _ _) Hk) as (-> & _). }
    eexists _, _. split_and!; [done..|]. intros ->. apply swept_checked; auto. }
  assert ((if bool_decide (pool_list (ps_session p) pk = [])
           then check_pools e pools (mkPass (ps_session p) (ps_cleaner p) (allReservations p) (emptyPools p ++ [pk]))
           else '(p, err) ← check_reservations e pk (pool_list (ps_session p) pk) p;
                match err with Some err => Some (p, Some err) | None => check_pools e pools p end) =
          match err with Some err => Some (p1, Some err) | None => check_pools e pools p1 end) as ->.
  { destruct (bool_decide _); [by injection E as <- <-|]. by rewrite E. }
  destruct err as [err|]; [eexists _, _; split_and!; done|]. specialize (Hs1 eq_refl).
  destruct (IH p1 Hpf1 Hnd) as (p2 & err & -> & Hpf2 & Hr2 & Hs2).
  { intros pk' k r Hin Hr. apply (Hn pk' k r); [by right|]. rewrite <- (sw_other _ _ _ Hs1); [done|].
    rewrite list_elem_of_singleton. by intros ->. }
  eexists _, _. split_and!; [done..|by etrans|]. intros ->. eapply swept_cons; eauto.
Qed.

(** ** The counters *)

(** The counter of [sk] has passed the limit. *)
Definition due (known : gset string) (l : list (string * Z)) (sk : string) : Prop :=
  sk ∈ known ∧ ∃ n, (sk, n) ∈ l ∧ limit < n.

Lemma due_cons known k0 n0 l sk :
  k0 ∉ l.*1 → due known ((k0, n0) :: l) sk ↔ (sk = k0 ∧ k0 ∈ known ∧ limit < n0) ∨ (sk ≠ k0 ∧ due known l sk).
Proof.
  intros Hk. unfold due. split.
  - intros [Hin (n & Hn & Hlt)]. apply elem_of_cons in Hn as [[= -> ->]|Hn]; [by left|]. right. split; [|by eauto].
    intros ->. apply Hk. by apply (list_elem_of_fmap_2 fst _ (k0, n)).
  - intros [(-> & Hin & Hlt)|(_ & Hin & n & Hn & Hlt)]; (split; [done|]).
    + exists n0. split; [apply list_elem_of_here|done].
    + exists n. split; [by right|done].
Qed.

Record flushed (s0 : session) (pools : list string) (l : list (string * Z)) (p p' : pass) : Prop := {
  fl_due : ∀ pk k r, pk ∈ pools → ent s0 pk k = Some r → due (allReservations p) l (getStaleAllocKey pk r) →
    ent (ps_session p') pk k = release_ent (clock_ns (pe_now e)) cd (ent (ps_session p) pk k);
  fl_not_due : ∀ pk k r, pk ∈ pools → ent s0 pk k = Some r → ¬ due (allReservations p) l (getStaleAllocKey pk r) →
    ent (ps_session p') pk k = ent (ps_session p) pk k;
  fl_none : ∀ pk k, pk ∉ pools ∨ ent s0 pk k = None → ent (ps_session p') pk k = ent (ps_session p) pk k;
  fl_pools : ∀ pk, has_pool (ps_session p') pk ↔ has_pool (ps_session p) pk;
  fl_known : allReservations p' = allReservations p;
  fl_empty : emptyPools p' = emptyPools p;
  fl_gone : ∀ sk, sk ∈ l.*1 → sk ∉ allReservations p → stale p' !! sk = None;
  fl_kept : ∀ sk, sk ∉ l.*1 ∨ sk ∈ allReservations p → stale p' !! sk = stale p !! sk;
}.

Lemma flushed_nil s0 pools p : flushed s0 pools [] p p.
Proof. split; try done; [intros ? ? ? _ _ [_ (n & ?%not_elem_of_nil & _)]; done|by intros ? ?%not_elem_of_nil]. Qed.

(** The first counter is not due. *)
Lemma flushed_skip s0 pools k0 n0 l p p1 p' :
  k0 ∉ l.*1 → (k0 ∉ allReservations p ∨ n0 ≤ limit) →
  ps_session p1 = ps_session p → allReservations p1 = allReservations p → emptyPools p1 = emptyPools p →
  (∀ sk, sk ≠ k0 → stale p1 !! sk = stale p !! sk) →
  stale p1 !! k0 = (if bool_decide (k0 ∈ allReservations p) then stale p !! k0 else None) →
  flushed s0 pools l p1 p' → flushed s0 pools ((k0, n0) :: l) p p'.
Proof.
  intros Hk Hnd Es Ea Ee Hst Hst0 [D N O P K M G S]. rewrite Es, Ea in *. 
  assert (∀ sk, due (allReservations p) ((k0, n0) :: l) sk ↔ due (allReservations p) l sk) as Hdue.
  { intros sk. rewrite due_cons by done. split; [|intros Hd; right; split; [|done]].
    - intros [(-> & ? & ?)|[_ ?]]; [|done]. destruct Hnd; [done|lia].
    - intros ->. destruct Hd as [_ (n & Hn & _)]. apply Hk. by apply (list_elem_of_fmap_2 fst _ (k0, n)). }
  split; try done.
  - intros pk k r Hpk Hr Hd. rewrite Hdue in Hd. by eapply D.
  - intros pk k r Hpk Hr Hd. rewrite Hdue in Hd. by eapply N.
  - by rewrite M.
  - intros sk Hin Hno. rewrite fmap_cons in Hin. apply elem_of_cons in Hin as [->|Hin]; [|by apply G].
    simpl in *. rewrite S by (by left). by rewrite Hst0, bool_decide_false.
  - intros sk Hsk. rewrite fmap_cons, not_elem_of_cons in Hsk. simpl in Hsk. rewrite S by tauto.
    destruct (decide (sk = k0)) as [->|Hne]; [|by apply Hst]. rewrite Hst0. by rewrite bool_decide_true by tauto.
Qed.

Lemma release_stale_spec s0 pools l p :
  pass_for p → NoDup l.*1 → named s0 pools → (∀ sk, sk ∈ allReservations p → key_of s0 pools sk) →
  ∃ p', release_stale e l p = Some p' ∧ pass_for p' ∧
    runs_with (cleaner_op (pe_now e) cd) (ps_session p) (ps_session p') ∧ flushed s0 pools l p p'.
Proof.
  intros Hpf Hnd Hn. revert p Hpf. induction l as [|[k0 n0] l IH]; intros p Hpf Hkn; cbn [release_stale].
  { eexists. split_and!; [done..|]. apply flushed_nil. }
  rewrite fmap_cons in Hnd. apply NoDup_cons in Hnd as [Hk Hnd]. specialize (IH Hnd). simpl in Hk.
  pose proof Hpf as (Ho & Hcd & Hlim). case_bool_decide as Hin; cbn [negb].
  2: { destruct (IH (mkPass (ps_session p) (set_stale (ps_cleaner p) (delete k0 (stale p))) (allReservations p) (emptyPools p)))
         as (p' & -> & Hpf' & Hr' & Hf); [done|done|]. exists p'. split_and!; [done..|].
       eapply flushed_skip; [done|by left|..|exact Hf]; try done; simpl.
       - intros sk Hne. by rewrite lookup_delete_ne.
       - rewrite lookup_delete_eq. by rewrite bool_decide_false. }
  rewrite Hlim. destruct (Z.ltb_spec limit n0) as [Hlt|Hge].
  2: { destruct (IH p Hpf Hkn) as (p' & -> & Hpf' & Hr' & Hf). exists p'. split_and!; [done..|].
       eapply flushed_skip; [done|by right|..|exact Hf]; try done. by rewrite bool_decide_true. }
  destruct (Hkn k0 Hin) as (pk0 & kk & r0 & Hpk0 & Hr0 & ->). destruct (Hn _ _ _ Hpk0 Hr0) as (-> & Hp0 & Hc0).
  rewrite splitStaleAllocKey_key by done. cbn [mbind option_bind]. rewrite Hcd.
  destruct (Release_ent (pe_now e) (ps_session p) pk0 (ContainerID r0) (InterfaceName r0) cd Ho)
    as (s1 & b & -> & Ho1 & Hr1 & He1 & Hp1). cbn [mbind option_bind]. fold (rkey r0) in He1.
  destruct (IH (mkPass s1 (ps_cleaner p) (allReservations p) (emptyPools p))) as (p' & -> & Hpf' & Hr' & [D N O P K M G S]); [done|done|].
  exists p'. simpl in *. split_and!; [done..|by etrans|].
  assert (∀ pk k r, pk ∈ pools → ent s0 pk k = Some r →
    (pk = pk0 ∧ k = rkey r0) ↔ getStaleAllocKey pk r = getStaleAllocKey pk0 r0) as Hsame.
  { intros pk k r Hpk Hr. destruct (Hn _ _ _ Hpk Hr) as (-> & ? & ?). split.
    - intros [-> E]. rewrite E in Hr. congruence.
    - intros Es. by apply getStaleAllocKey_inj. }
  split; simpl; try done.
  - intros pk k r Hpk Hr Hd. apply due_cons in Hd as [(Es & _ & _)|[Hne Hd]]; [| |done].
    + rewrite (N pk k r Hpk Hr); [|rewrite Es; intros [_ (n & Hn' & _)]; apply Hk; by apply (list_elem_of_fmap_2 fst _ (_, n))].
      rewrite He1, decide_True by (by eapply Hsame). done.
    + rewrite (D pk k r Hpk Hr Hd), He1, decide_False; [done|]. rewrite (Hsame pk k r) by done. done.
  - intros pk k r Hpk Hr Hd. rewrite due_cons in Hd by done.
    destruct (decide (getStaleAllocKey pk r = getStaleAllocKey pk0 r0)) as [Es|Hne]; [exfalso; apply Hd; by left|].
    rewrite (N pk k r Hpk Hr) by tauto. rewrite He1, decide_False; [done|]. by rewrite (Hsame pk k r).
  - intros pk k Hno. rewrite O by done. rewrite He1, decide_False; [done|]. intros [-> ->]. destruct Hno as [?|E]; [done|congruence].
  - intros pk. by rewrite P.
  - intros sk Hsk Hno. apply elem_of_cons in Hsk as [->|Hsk]; [done|by apply G].
  - intros sk Hsk. apply S. rewrite not_elem_of_cons in Hsk. tauto.
Qed.

(** ** Empty pools *)

Lemma RemovePool_ent s pk :
  isClosed s = false → (∀ k, ent s pk k = None) →
  ∃ s', Store.RemovePool s pk = Some s' ∧ isClosed s' = false ∧ runs_with (cleaner_op (pe_now e) cd) s s' ∧
    (∀ pk' k, ent s' pk' k = ent s pk' k) ∧ ∀ pk', has_pool s' pk' ↔ has_pool s pk' ∧ pk' ≠ pk.
Proof.
  intros Ho Hno. assert (∃ s', Store.RemovePool s pk = Some s') as [s' E]
    by (unfold Store.RemovePool, checkClosed; rewrite Ho; eauto).
  assert (runs_with (cleaner_op (pe_now e) cd) s s') as Hrun by (by eapply (runs_with_op _ (pe_now e) (OpRemovePool pk))).
  exists s'. split_and!; [done|by eapply runs_with_open|done|..]; unfold Store.RemovePool, checkClosed in E; rewrite Ho in E;
    injection E as <-.
  - intros pk' k. destruct (decide (pk' = pk)) as [->|Hne].
    + rewrite Hno. unfold ent, pool_of, getPoolData. simpl. rewrite lookup_delete_eq. apply lookup_empty.
    + unfold ent, pool_of, getPoolData. simpl. by rewrite lookup_delete_ne.
  - intros pk'. unfold has_pool. simpl. destruct (decide (pk' = pk)) as [->|Hne].
    + rewrite lookup_delete_eq. split; [by intros []|tauto].
    + rewrite lookup_delete_ne by done. tauto.
Qed.

Lemma remove_empty_spec pools s :
  isClosed s = false → (∀ pk k, pk ∈ pools → ent s pk k = None) →
  ∃ s', remove_empty e pools s = Some s' ∧ runs_with (cleaner_op (pe_now e) cd) s s' ∧
    (∀ pk k, ent s' pk k = ent s pk k) ∧
    ∀ pk, has_pool s' pk ↔ has_pool s pk ∧ ¬ (pk ∈ pools ∧ GetPoolByKey (pe_configs e) pk = None).
Proof.
  revert s. induction pools as [|pk0 pools IH]; intros s Ho Hno; cbn [remove_empty].
  { exists s. split_and!; try done. intros pk. split; [|tauto]. intros ?. split; [done|]. by intros [?%not_elem_of_nil _]. }
  destruct (GetPoolByKey (pe_configs e) pk0) as [cfg|] eqn:Ec.
  - destruct (IH s Ho) as (s' & -> & Hr & He & Hp); [intros pk k Hin; apply Hno; by right|].
    exists s'. split_and!; [done..|]. intros pk. rewrite Hp, elem_of_cons. split; [|tauto].
    intros [? H1]. split; [done|]. intros [[->|?] ?]; [congruence|]. by apply H1.
  - destruct (RemovePool_ent s pk0 Ho) as (s1 & -> & Ho1 & Hr1 & He1 & Hp1); [intros k; apply Hno, list_elem_of_here|].
    cbn [mbind option_bind]. destruct (IH s1 Ho1) as (s' & -> & Hr & He & Hp); [intros pk k Hin; rewrite He1; apply Hno; by right|].
    exists s'. split_and!; [done|by etrans|intros; by rewrite He|]. intros pk. rewrite Hp, Hp1, elem_of_cons. split.
    + intros [[? ?] H1]. split; [done|]. intros [[->|?] ?]; [done|]. by apply H1.
    + intros [? H1]. split_and!; [done|intros ->; apply H1; by split; [left|]|]. intros [? ?]. apply H1. split; [by right|done].
Qed.

(** ** The whole pass *)

(** What becomes of a reservation whose counter was [old]. *)
Definition pass_entry (pk : string) (r : Reservation) (old : option Z) : option Reservation :=
  if IsReleased r then checked_entry r
  else match pass_count pk r old with
       | Some n => if limit <? n
                   then if cd <=? 0 then None else Some (set_ReleasedAt r (Some (clock_ns (pe_now e))))
                   else Some r
       | None => Some r
       end.

Record cleaned (c c' : cleaner) (s s' : session) : Prop := {
  cl_entry : ∀ pk k, ent s' pk k =
    r ← ent s pk k; pass_entry pk r (staleAllocations c !! getStaleAllocKey pk r);
  cl_count : ∀ pk k r, ent s pk k = Some r →
    staleAllocations c' !! getStaleAllocKey pk r = pass_count pk r (staleAllocations c !! getStaleAllocKey pk r);
  cl_unknown : ∀ sk, (∀ pk k r, ent s pk k = Some r → sk ≠ getStaleAllocKey pk r) → staleAllocations c' !! sk = None;
  cl_pools : ∀ pk, has_pool s' pk ↔
    has_pool s pk ∧ ¬ ((∀ k, ent s pk k = None) ∧ GetPoolByKey (pe_configs e) pk = None);
}.

Definition well_named (s : session) : Prop :=
  ∀ pk k r, ent s pk k = Some r → k = rkey r ∧ no_pipe pk ∧ no_pipe (ContainerID r).

Lemma ent_has_pool s pk k r : ent s pk k = Some r → has_pool s pk.
Proof.
  unfold ent, pool_of, getPoolData, has_pool. destruct (Pools (tmpData s) !! pk); [by eexists|]. simpl.
  by rewrite lookup_empty.
Qed.

(** The two loops on one reservation. *)
Lemma entry_after pk r old o o' :
  o = checked_entry r →
  ((∃ n, pass_count pk r old = Some n ∧ limit < n) → o' = release_ent (clock_ns (pe_now e)) cd o) →
  (¬ (∃ n, pass_count pk r old = Some n ∧ limit < n) → o' = o) →
  o' = pass_entry pk r old.
Proof.
  intros -> Hd Hnd. unfold pass_entry. destruct (IsReleased r) eqn:Hrel.
  - apply Hnd. intros (n & Hn & _). unfold pass_count in Hn. by rewrite Hrel in Hn.
  - unfold checked_entry, expired, IsReleased in *. destruct (ReleasedAt r) as [t|] eqn:Et; [done|].
    destruct (pass_count pk r old) as [n|] eqn:Hc; [|apply Hnd; by intros (? & ? & _)].
    destruct (Z.ltb_spec limit n) as [Hlt|Hge].
    + rewrite Hd by eauto. unfold release_ent, IsReleased. rewrite Et, orb_false_r. done.
    + apply Hnd. intros (? & [= <-] & ?). lia.
Qed.

Lemma clean_spec c s :
  isClosed s = false → cl_releaseCooldown c = cd → checkCountBeforeRelease c = limit → well_named s →
  ∃ s' c' err, clean e c s = Some (s', c', err) ∧ runs_with (cleaner_op (pe_now e) cd) s s' ∧
    cl_releaseCooldown c' = cd ∧ checkCountBeforeRelease c' = limit ∧ (err = None → cleaned c c' s s').
Proof.
  intros Ho Hcd Hlim Hn. unfold clean. set (pools := fst <$> map_to_list (Pools (tmpData s))).
  assert (ListPools s = Some pools) as -> by (unfold ListPools, checkClosed; by rewrite Ho). cbn [mbind option_bind].
  assert (∀ pk, pk ∈ pools ↔ has_pool s pk) as Hpools.
  { intros pk. unfold pools, has_pool. rewrite list_elem_of_fmap. split.
    - intros ([k q] & -> & Hin%elem_of_map_to_list). by exists q.
    - intros [q Hq]. exists (pk, q). split; [done|]. by apply elem_of_map_to_list. }
  destruct (check_pools_spec pools (mkPass s c ∅ [])) as (p1 & err & -> & Hpf1 & Hr1 & Hs1);
    [done|apply NoDup_fst_map_to_list|intros pk k r _; apply Hn|]. cbn [mbind option_bind].
  destruct err as [err|]; [eexists _, _, _; split_and!; done || apply Hpf1|].
  destruct (Hs1 eq_refl) as [E1 O1 P1 C1 D1 K1 M1]. simpl in *.
  assert (∀ pk k r, ent s pk k = Some r → pk ∈ pools) as Hin by (intros pk k r Hr; by eapply Hpools, ent_has_pool).
  destruct (release_stale_spec s pools (map_to_list (stale p1)) p1) as (p2 & -> & Hpf2 & Hr2 & [F1 F2 F3 F4 F5 F6 F7 F8]);
    [done|apply NoDup_fst_map_to_list|intros pk k r _; apply Hn|intros sk Hsk%K1; set_solver|]. cbn [mbind option_bind].
  destruct (remove_empty_spec (emptyPools p2) (ps_session p2)) as (s3 & -> & Hr3 & He3 & Hp3); [apply Hpf2| |].
  { intros pk k Hin'. rewrite F6 in Hin'. apply M1 in Hin' as [?%not_elem_of_nil|[Hpk Hno]]; [done|].
    rewrite F3 by (right; apply Hno). by rewrite E1, Hno. }
  cbn [mbind option_bind]. eexists _, _, _. split_and!; [done|by etrans; [|etrans]|apply Hpf2|apply Hpf2|]. intros _.
  assert (∀ pk k r, ent s pk k = Some r → getStaleAllocKey pk r ∈ allReservations p1) as Hkn.
  { intros pk k r Hr. apply K1. right. exists pk, k, r. eauto. }
  assert (∀ pk k r, ent s pk k = Some r → due (allReservations p1) (map_to_list (stale p1)) (getStaleAllocKey pk r) ↔
    ∃ n, pass_count pk r (staleAllocations c !! getStaleAllocKey pk r) = Some n ∧ limit < n) as Hdue.
  { intros pk k r Hr. unfold due. rewrite <- (C1 pk k r) by eauto. split.
    - intros [_ (n & Hn'%elem_of_map_to_list & ?)]. eauto.
    - intros (n & Hn' & ?). split; [by eapply Hkn|]. exists n. split; [by apply elem_of_map_to_list|done]. }
  split.
  - intros pk k. rewrite He3. destruct (ent s pk k) as [r|] eqn:Hr; simpl.
    + apply (entry_after pk r _ (ent (ps_session p1) pk k)).
      * rewrite E1, Hr by eauto. done.
      * intros Hd. apply (F1 pk k r); [eauto..|]. by apply (Hdue pk k r Hr).
      * intros Hd. apply (F2 pk k r); [eauto..|]. by rewrite (Hdue pk k r Hr).
    + rewrite F3 by (by right). destruct (decide (pk ∈ pools)); [by rewrite E1, Hr by done|by rewrite O1].
  - intros pk k r Hr. rewrite F8 by (right; by eapply Hkn). eauto.
  - intros sk Hsk. assert (sk ∉ allReservations p1) as Hno.
    { intros [?|(pk & k & r & _ & Hr & ->)]%K1; [set_solver|by eapply Hsk]. }
    destruct (decide (sk ∈ (map_to_list (stale p1)).*1)) as [?|Hout]; [by apply F7|]. rewrite F8 by (by left).
    destruct (stale p1 !! sk) as [n|] eqn:En; [|done]. exfalso. apply Hout.
    apply (list_elem_of_fmap_2 fst _ (sk, n)). by apply elem_of_map_to_list.
  - intros pk. rewrite Hp3, F4, P1, F6. rewrite M1, <- Hpools. split; [|set_solver].
    intros [Hpk Hno]. split; [done|]. intros [Hall Hc]. apply Hno. split; [by right|done].
Qed.
End pass.

(** ** Entries are stored under their own key *)

Definition root_keyed (r : Root) : Prop :=
  map_Forall (λ _ p, map_Forall (λ k x, k = rkey x) (Entries p)) (Pools r).

Lemma run_op_keyed now o s s' : root_keyed (tmpData s) → run_op now s o = Some s' → root_keyed (tmpData s').
Proof.
  intros Hs. assert (∀ pk, map_Forall (λ k x, k = rkey x) (Entries (pool_of s pk))) as Hp.
  { intros pk. unfold pool_of, getPoolData. destruct (Pools (tmpData s) !! pk) as [p|] eqn:E; [by apply (Hs pk)|apply map_Forall_empty]. }
  assert (∀ pk p, map_Forall (λ k x, k = rkey x) (Entries p) → root_keyed (tmpData (updatePoolData s pk p))) as Hup
    by (intros; by apply map_Forall_insert_2).
  destruct o as [pk id ifn meta a|pk id ifn c|pk|pk ip]; simpl.
  - unfold Reserve, checkClosed. case_match; [done|]. simpl. case_bool_decide; [by intros [= <-]|].
    destruct (existsb _ _); [by intros [= <-]|]. intros [= <-]. apply Hup. simpl. apply map_Forall_insert_2; [done|apply Hp].
  - destruct (ReleaseReservationByID now s pk id ifn c) as [[s1 b]|] eqn:E; [|done]. intros [= <-].
    apply Release_cases in E. simpl in E. destruct (Entries _ !! _) as [r|] eqn:Er; [|by destruct E as [-> _]].
    destruct (_ || _); [|destruct (IsReleased r)]; destruct E as [-> _]; [|done|]; apply Hup; simpl.
    + apply map_Forall_delete, Hp.
    + apply map_Forall_insert_2; [|apply Hp]. apply (Hp pk _ _ Er).
  - unfold Store.RemovePool, checkClosed. case_match; [done|]. intros [= <-]. by apply map_Forall_delete.
  - unfold SetLastReservedIP, checkClosed. case_match; [done|]. intros [= <-]. apply Hup, Hp.
Qed.

Lemma root_equiv_keyed r r' : root_equiv r r' → root_keyed r → root_keyed r'.
Proof.
  intros E Hr pk p' Hp' k x Hx.
  assert ((norm_pool <$> Pools r) !! pk = Some (norm_pool p')) as Hl
    by (unfold root_equiv, norm_root in E; injection E as _ _ E; by rewrite E, lookup_fmap, Hp').
  apply lookup_fmap_Some in Hl as (p & Ep & Hp). specialize (Hr _ _ Hp). simpl in Hr.
  assert ((norm_reservation <$> Entries p) !! k = Some (norm_reservation x)) as Hl2
    by (assert (norm_reservation <$> Entries p = norm_reservation <$> Entries p') as -> by (by injection Ep); by rewrite lookup_fmap, Hx).
  apply lookup_fmap_Some in Hl2 as (y & Ey & Hy). rewrite (Hr _ _ Hy). unfold rkey. by injection Ey as -> -> _ _ _.
Qed.

Section reachable.
Context `{RootCodecLaws}.

Lemma on_disk_unique d r r' : on_disk d r → on_disk d r' → root_equiv r r'.
Proof.
  intros [_ [[He ->]|(data & r0 & -> & Hm & E & _)]] [_ [[He' ->]|(data' & r1 & Ed & Hm' & E' & _)]].
  - done.
  - subst d. pose proof (Marshal_not_empty _ _ Hm'). destruct He; [done|]. by simplify_eq.
  - pose proof (Marshal_not_empty _ _ Hm). destruct He' as [?|[= ->]]; done.
  - injection Ed as <-. destruct (Unmarshal_Marshal _ _ Hm) as (x & Hx & Ex & _), (Unmarshal_Marshal _ _ Hm') as (y & Hy & Ey & _).
    rewrite Hx in Hy. injection Hy as <-. etrans; [by symmetry|]. etrans; [by symmetry|]. by etrans.
Qed.

Definition keyed_inv (x : store * option session) : Prop :=
  machine_inv x ∧ (∃ r, on_disk (disk x.1) r ∧ root_keyed r) ∧ ∀ s, x.2 = Some s → root_keyed (tmpData s).

Lemma keyed_on_disk m r : (∃ r0, on_disk (disk m) r0 ∧ root_keyed r0) → on_disk (disk m) r → root_keyed r.
Proof. intros (r0 & Hd0 & Hk) Hr. eapply root_equiv_keyed; [|done]. by eapply on_disk_unique. Qed.

Lemma step_keyed x y : keyed_inv x → step x y → keyed_inv y.
Proof.
  intros (Hinv & Hd & Hs) Hstep. pose proof (step_inv _ _ Hinv Hstep) as Hinv'. split; [done|].
  destruct Hstep as [rd m m' s Ho|rd m m' err Ho|now o m s s' Ho|w m m' s s' err Hc|m m' s s' Hc|m os]; simpl in *.
  - assert (disk m' = disk m ∧ ∃ r, persistedData m' = Some r ∧ s = newStore r) as [Ed (r & Ep & ->)].
    { unfold Open in Ho. destruct (locked m); [done|]. destruct (persistedData m) as [r|]; [simplify_eq; eauto|].
      destruct (loadFromDisk rd (disk m)) as [[r|]|]; simplify_eq/=; eauto. }
    rewrite Ed. split; [done|]. intros ? [= <-]. rewrite newStore_tmpData. eapply (keyed_on_disk m); [done|].
    destruct Hinv' as (_ & _ & Hp & _). rewrite Ep, Ed in Hp. apply Hp.
  - split; [|done]. unfold Open in Ho. destruct (locked m); [done|]. destruct (persistedData m) as [r|]; [done|].
    destruct (loadFromDisk rd (disk m)) as [[r|]|]; simplify_eq/=. done.
  - split; [done|]. intros ? [= <-]. eapply run_op_keyed; [|done]. by apply Hs.
  - split; [|done]. unfold Commit in Hc. destruct (isClosed s); [done|]. destruct (isModified s); simpl in Hc; [|by simplify_eq/=].
    destruct (writeToDisk _ _ _) as [[[d t] err']|] eqn:Hw; [|done]. simpl in Hc. destruct err'; simplify_eq/=.
    + by apply writeToDisk_failed in Hw as ->.
    + apply writeToDisk_on_disk in Hw as [Hd' Ht]. exists t. split; [done|]. unfold root_keyed. rewrite Ht. by apply Hs.
  - split; [|done]. unfold Cancel in Hc. destruct (isClosed s); by simplify_eq/=.
  - done.
Qed.

Lemma reachable_keyed x : reachable x → keyed_inv x.
Proof.
  intros (x0 & Hx0 & Hs). assert (keyed_inv x0) as HI.
  { split; [by apply initial_inv|]. destruct Hx0 as [file Hf]. simpl. split; [|done]. exists NewRoot.
    split; [split; [apply NewRoot_texts_ok|by left]|apply map_Forall_empty]. }
  clear Hx0. induction Hs; eauto using step_keyed.
Qed.

Lemma loaded_keyed m r : reachable (m, None) → loaded m r → root_keyed r.
Proof.
  intros Hr Hl. destruct (reachable_keyed _ Hr) as (Hinv & Hd & _). eapply (keyed_on_disk m); [done|].
  by eapply loaded_inv in Hl as [? _].
Qed.
End reachable.

(** ** Properties *)

Section properties.
Context `{RootCodecLaws}.

(** C14: The data of the store is well formed.  In every reachable state, with a
    session open or not, every reservation of the session, of the data in memory
    and of what a new process reads from the file is stored under the key of its own
    container and interface; so what a session lists it also finds by its id, unless
    it is released. *)
Theorem reservations_well_keyed m os :
  reachable (m, os) →
  (∀ r, persistedData m = Some r → root_keyed r) ∧
  (∀ r, loadFromDisk true (disk m) = Some (Ok r) → root_keyed r) ∧
  ∀ s, os = Some s → root_keyed (tmpData s) ∧
    ∀ pk l r, ListReservations s pk = Some l → r ∈ l →
      GetReservationByID s pk (ContainerID r) (InterfaceName r) = Some (if IsReleased r then None else Some r).
Proof.
  intros Hr. destruct (reachable_keyed _ Hr) as ((_ & (r0 & Hr0) & Hp & Hs) & Hd & Hk). simpl in *. split_and!.
  - intros r E. rewrite E in Hp. apply (keyed_on_disk m); [done|apply Hp].
  - intros r E. apply (keyed_on_disk m); [done|]. by destruct (on_disk_load _ _ _ _ Hr0 E).
  - intros s ->. specialize (Hk s eq_refl). split; [done|]. intros pk l r El Hin.
    unfold ListReservations, GetReservationByID, checkClosed in *. destruct (isClosed s); [done|]. injection El as <-.
    apply list_elem_of_fmap in Hin as ([k x] & -> & Hx%elem_of_map_to_list). simpl.
    assert (k = rkey x) as ->; [|fold (rkey x); rewrite Hx; by destruct (IsReleased x)].
    unfold getPoolData in Hx. destruct (Pools (tmpData s) !! pk) as [q|] eqn:E; [by apply (Hk _ _ E)|].
    simpl in Hx. by rewrite lookup_empty in Hx.
Qed.

(** No pool key and no container id of the data has a ["|"]. *)
Definition names_ok (r : Root) : Prop :=
  ∀ pk k x, Entries (getPoolData pk r) !! k = Some x → no_pipe pk ∧ no_pipe (ContainerID x).

Lemma ent_newStore r pk k : ent (newStore r) pk k = Entries (getPoolData pk r) !! k.
Proof. unfold ent, pool_of. by rewrite newStore_tmpData. Qed.

Lemma newStore_well_named r : root_keyed r → names_ok r → well_named (newStore r).
Proof.
  intros Hk Hn pk k x. rewrite ent_newStore. intros Hx. split; [|by eapply Hn].
  unfold getPoolData in Hx. destruct (Pools r !! pk) as [p|] eqn:E; [by apply (Hk _ _ E)|].
  simpl in Hx. by rewrite lookup_empty in Hx.
Qed.

Lemma cleaned_Pools e cd limit c c' s s1 s2 :
  Pools (tmpData s2) = Pools (tmpData s1) → cleaned e cd limit c c' s s1 → cleaned e cd limit c c' s s2.
Proof.
  intros E [H1 H2 H3 H4]. assert (∀ pk k, ent s2 pk k = ent s1 pk k) as Ee
    by (intros; unfold ent, pool_of, getPoolData; by rewrite E).
  split; try done; [intros pk k; by rewrite Ee|]. intros pk. unfold has_pool. rewrite E. apply H4.
Qed.

(** What a pass gives. *)
Definition pass_result (e : pass_env) (c : cleaner) (st st' : store) (c' : cleaner) (err : option error) : Prop :=
  cl_releaseCooldown c' = cl_releaseCooldown c ∧ checkCountBeforeRelease c' = checkCountBeforeRelease c ∧
  match err with
  | Some _ => same_data st st'
  | None => ∃ r r', loaded st r ∧ persistedData st' = Some r' ∧
      cleaned e (cl_releaseCooldown c) (checkCountBeforeRelease c) c c' (newStore r) (newStore r')
  end.

Lemma cleaner_loop_spec e c st :
  reachable (st, None) → (∀ r, loaded st r → names_ok r) →
  ∃ st' c' err, cleaner_loop e c st = Some (st', c', err) ∧ rtc step (st, None) (st', None) ∧ locked st' = false ∧
    pass_result e c st st' c' err.
Proof.
  intros Hreach Hnames. pose proof (machine_reachable_inv _ Hreach) as Hinv.
  assert (locked st = false) as Hl by (by destruct Hinv as [? _]). unfold cleaner_loop, pass_result.
  destruct (Open_total (pe_readable e) st Hl) as [[err Ho]|(r & Hld & Ho)]; rewrite Ho; cbn [mbind option_bind].
  { eexists _, _, _. split_and!; try done. by left. }
  pose proof (newStore_well_named r (loaded_keyed _ _ Hreach Hld) (Hnames _ Hld)) as Hwn.
  destruct (clean_spec e (cl_releaseCooldown c) (checkCountBeforeRelease c) c (newStore r) eq_refl eq_refl eq_refl Hwn)
    as (s' & c' & err & -> & Hrun & Hcd & Hlim & Hc). cbn [mbind option_bind]. destruct err as [err|].
  - destruct (session_cancelled _ st (pe_readable e) r s' Hld Ho Hrun) as (m' & s1 & -> & Hst & Hl' & Hs).
    cbn [mbind option_bind]. eexists _, _, _. split_and!; done.
  - assert (root_texts_ok r) as Hr by (by eapply stored_texts_ok, loaded_inv).
    destruct (session_committed _ st (pe_readable e) (pe_writable e) r s' Hld Ho (cleaner_op_texts_ok _ _) Hr Hrun)
      as (m' & s1 & err & -> & Hst & Hl' & Hs). cbn [mbind option_bind]. destruct err as [err|].
    + eexists _, _, _. split_and!; done.
    + destruct Hs as (r' & Hp & Hpools). eexists _, _, _. split_and!; try done. exists r, r'. split_and!; [done..|].
      eapply cleaned_Pools; [|by apply Hc]. by rewrite newStore_tmpData.
Qed.

(** C27: A pass of the cleaner always ends, never panics and releases the lock.
    With an error (a client, the file) the data of the store is as before.
    Otherwise, for every reservation: a released one is removed exactly when its
    cooldown has elapsed; one whose pod is there is kept and its counter dropped;
    one whose pod is missing has its counter increased, and is released when the
    counter passes the limit (removed, or marked with the time when there is a
    cooldown); counters of unknown reservations are dropped; and a pool is
    removed exactly when it is empty and has no configuration. *)
Theorem cleaner_pass_exact e c st :
  reachable (st, None) → (∀ r, loaded st r → names_ok r) →
  ∃ st' c' err, cleaner_loop e c st = Some (st', c', err) ∧ rtc step (st, None) (st', None) ∧ locked st' = false ∧
    pass_result e c st st' c' err.
Proof. apply cleaner_loop_spec. Qed.

(** Every pass succeeds. *)
Fixpoint passes_succeed (es : list pass_env) (c : cleaner) (st : store) : Prop :=
  match es with
  | [] => True
  | e :: es => ∃ st' c', cleaner_loop e c st = Some (st', c', None) ∧ passes_succeed es c' st'
  end.

Lemma cleaned_names e cd limit c c' r r' :
  cleaned e cd limit c c' (newStore r) (newStore r') → names_ok r → names_ok r'.
Proof.
  intros [Hent _ _ _] Hn pk k x Hx. rewrite <- ent_newStore, Hent in Hx.
  destruct (ent (newStore r) pk k) as [y|] eqn:Hy; [|done]. simpl in Hx. rewrite ent_newStore in Hy.
  destruct (Hn _ _ _ Hy). split; [done|]. unfold pass_entry, checked_entry in Hx.
  assert (ContainerID x = ContainerID y) as ->; [|done].
  repeat case_match; simplify_eq; done.
Qed.

Lemma loaded_inj st r r' : loaded st r → loaded st r' → r = r'.
Proof. intros [E|[E El]] [E'|[E' El']]; congruence. Qed.

Lemma same_data_loaded st st' r : same_data st st' → loaded st r → loaded st' r.
Proof. intros [->|(r0 & Hr0 & ->)] Hr; [done|]. rewrite (loaded_inj _ _ _ Hr Hr0). by left. Qed.

(** One pass, for the data [r]. *)
Lemma pass_once e c st st' c' err r :
  reachable (st, None) → loaded st r → names_ok r → cleaner_loop e c st = Some (st', c', err) →
  reachable (st', None) ∧ cl_releaseCooldown c' = cl_releaseCooldown c ∧
  checkCountBeforeRelease c' = checkCountBeforeRelease c ∧
  ∃ r', loaded st' r' ∧ names_ok r' ∧
    match err with
    | Some _ => r' = r
    | None => cleaned e (cl_releaseCooldown c) (checkCountBeforeRelease c) c c' (newStore r) (newStore r')
    end.
Proof.
  intros Hreach Hld Hn E. destruct (cleaner_loop_spec e c st Hreach) as (st1 & c1 & err1 & E1 & Hst & _ & Hcd & Hlim & Hres).
  { intros r' Hr'. by rewrite (loaded_inj _ _ _ Hr' Hld). }
  rewrite E in E1. simplify_eq. split_and!; [destruct Hreach as (x0 & ? & ?); exists x0; split; [done|by etrans]|done..|].
  destruct err1 as [err|]; [exists r; split_and!; [by eapply same_data_loaded|done..]|].
  destruct Hres as (r0 & r' & Hld0 & Hp & Hc). rewrite (loaded_inj _ _ _ Hld0 Hld) in Hc.
  exists r'. split_and!; [by left|by eapply cleaned_names|done].
Qed.

(** C21: The cleaner never takes the address of a pod that is there.  A reservation that
    is not released and names its pod is unchanged after any number of passes, failed
    ones included, if in every pass the cache has the pod, or does not have it and the
    API has it: a pod with the name, and with the recorded uid if one is recorded.  The
    passes all return.  Pool keys and container ids have no separator ["|"]. *)
Theorem live_reservation_kept es c st r pk k x :
  reachable (st, None) → loaded st r → names_ok r →
  Entries (getPoolData pk r) !! k = Some x → IsReleased x = false → has_pod x = true →
  Forall (λ e, pod_present e pk x = Some true) es →
  ∃ st' c' r', Start es c st = Some (st', c') ∧ loaded st' r' ∧ Entries (getPoolData pk r') !! k = Some x.
Proof.
  intros Hreach Hld Hn Hx Hrel Hpod Hes. revert c st r Hreach Hld Hn Hx.
  induction Hes as [|e es He _ IH]; intros c st r Hreach Hld Hn Hx; cbn [Start]; [eauto 6|].
  destruct (cleaner_loop_spec e c st Hreach) as (st1 & c1 & err & E & _).
  { intros r' Hr'. by rewrite (loaded_inj _ _ _ Hr' Hld). }
  rewrite E. cbn [mbind option_bind].
  destruct (pass_once _ _ _ _ _ _ _ Hreach Hld Hn E) as (Hreach1 & _ & _ & r1 & Hld1 & Hn1 & Hc).
  apply (IH c1 st1 r1 Hreach1 Hld1 Hn1). destruct err as [err|]; [by subst r1|].
  rewrite <- ent_newStore, (cl_entry _ _ _ _ _ _ _ Hc), ent_newStore, Hx. simpl. unfold pass_entry, pass_count.
  by rewrite Hrel, Hpod, He.
Qed.

(** A released or removed reservation stays so. *)
Definition gone (o : option Reservation) : Prop := ∀ y, o = Some y → IsReleased y = true.

Lemma passes_gone es c st r pk k :
  reachable (st, None) → loaded st r → names_ok r → passes_succeed es c st →
  gone (Entries (getPoolData pk r) !! k) →
  ∃ st' c' r', Start es c st = Some (st', c') ∧ loaded st' r' ∧ gone (Entries (getPoolData pk r') !! k).
Proof.
  revert c st r. induction es as [|e es IH]; intros c st r Hreach Hld Hn Hok Hg; cbn [Start]; [eauto 6|].
  destruct Hok as (st1 & c1 & E & Hok). rewrite E. cbn [mbind option_bind].
  destruct (pass_once _ _ _ _ _ _ _ Hreach Hld Hn E) as (Hreach1 & _ & _ & r1 & Hld1 & Hn1 & Hc).
  apply (IH c1 st1 r1); try done. intros y. rewrite <- ent_newStore, (cl_entry _ _ _ _ _ _ _ Hc), ent_newStore.
  destruct (Entries (getPoolData pk r) !! k) as [x|]; [|done]. simpl. specialize (Hg x eq_refl).
  unfold pass_entry, checked_entry. rewrite Hg. case_match; [done|]. by intros [= <-].
Qed.

Lemma stale_passes es c st r pk k x n :
  reachable (st, None) → loaded st r → names_ok r →
  Entries (getPoolData pk r) !! k = Some x → IsReleased x = false → has_pod x = true →
  default 0 (staleAllocations c !! getStaleAllocKey pk x) = n → n ≤ checkCountBeforeRelease c →
  passes_succeed es c st → Forall (λ e, pod_present e pk x = Some false) es →
  ∃ st' c' r', Start es c st = Some (st', c') ∧ loaded st' r' ∧
    if decide (n + Z.of_nat (length es) ≤ checkCountBeforeRelease c)
    then Entries (getPoolData pk r') !! k = Some x
    else gone (Entries (getPoolData pk r') !! k).
Proof.
  intros Hreach Hld Hn Hx Hrel Hpod Hcnt Hle Hok Hes. revert c st r n Hreach Hld Hn Hx Hcnt Hle Hok.
  induction Hes as [|e es He Hes IH]; intros c st r n Hreach Hld Hn Hx Hcnt Hle Hok; cbn [Start length].
  { eexists _, _, r. split_and!; [done..|]. by rewrite decide_True by lia. }
  destruct Hok as (st1 & c1 & E & Hok). rewrite E. cbn [mbind option_bind].
  destruct (pass_once _ _ _ _ _ _ _ Hreach Hld Hn E) as (Hreach1 & _ & Hlim & r1 & Hld1 & Hn1 & Hc).
  assert (pass_count e pk x (staleAllocations c !! getStaleAllocKey pk x) = Some (n + 1)) as Hc1
    by (unfold pass_count; by rewrite Hrel, Hpod, He, Hcnt).
  assert (ent (newStore r) pk k = Some x) as Hx' by (by rewrite ent_newStore).
  pose proof (cl_entry _ _ _ _ _ _ _ Hc pk k) as Hent. rewrite Hx', ent_newStore in Hent. simpl in Hent.
  unfold pass_entry in Hent. rewrite Hrel, Hc1 in Hent.
  destruct (Z.ltb_spec (checkCountBeforeRelease c) (n + 1)) as [Hlt|Hge].
  - destruct (passes_gone es c1 st1 r1 pk k) as (st' & c' & r' & -> & Hld' & Hg); try done.
    { intros y. rewrite Hent. case_match; [done|]. by intros [= <-]. }
    eexists _, _, r'. split_and!; [done..|]. by rewrite decide_False by lia.
  - destruct (IH c1 st1 r1 (n + 1)) as (st' & c' & r' & -> & Hld' & Hg); try done; [|by rewrite Hlim|].
    { rewrite (cl_count _ _ _ _ _ _ _ Hc pk k x Hx'). by rewrite Hc1. }
    eexists _, _, r'. split_and!; [done..|]. rewrite Hlim in Hg.
    destruct (decide (n + 1 + Z.of_nat (length es) ≤ checkCountBeforeRelease c));
      [rewrite decide_True by lia|rewrite decide_False by lia]; done.
Qed.

(** C22: A reservation whose pod is gone is released in time, and not before: while
    every pass succeeds and neither the cache nor the API has the pod (no pod of the
    name, or one with a uid other than the recorded one), the reservation is unchanged
    as long as the passes do not outnumber the limit, and it is released or removed
    once they do.  Pool keys and container ids have no separator ["|"], and the cleaner
    has not counted the reservation before. *)
Theorem stale_reservation_released es c st r pk k x :
  reachable (st, None) → loaded st r → names_ok r →
  Entries (getPoolData pk r) !! k = Some x → IsReleased x = false → has_pod x = true →
  staleAllocations c !! getStaleAllocKey pk x = None → 0 ≤ checkCountBeforeRelease c →
  passes_succeed es c st → Forall (λ e, pod_present e pk x = Some false) es →
  ∃ st' c' r', Start es c st = Some (st', c') ∧ loaded st' r' ∧
    if decide (Z.of_nat (length es) ≤ checkCountBeforeRelease c)
    then Entries (getPoolData pk r') !! k = Some x
    else gone (Entries (getPoolData pk r') !! k).
Proof.
  intros Hreach Hld Hn Hx Hrel Hpod Hc Hlim Hok Hes.
  apply (stale_passes es c st r pk k x 0 Hreach Hld Hn Hx Hrel Hpod); [by rewrite Hc|done..].
Qed.
End properties.

(** *** Witnesses *)

(** A store with one reservation, of the pod [b/a]. *)
Definition one_reservation : Reservation := mkReservation "c" "i" (ip_of F4 1) (mkMetadata "t" "" "a" "b" "" "") None.
Definition clean_ops : list (Clock * op) :=
  [(mkClock 0 "t", OpReserve "p" "c" "i" (mkMetadata "" "" "a" "b" "" "") (ip_of F4 1))].
Definition clean_session : session :=
  match run_ops (newStore NewRoot) clean_ops with Some s => s | None => newStore NewRoot end.
Definition clean_store : store :=
  match Commit (H := bits_codec) true example_store clean_session with Some (m, _, _) => m | None => example_store end.
(** A pass in which the pod is there or missing. *)
Definition clean_env (present : bool) : pass_env :=
  let get : client := λ _ _ _, if present then PodFound "uid" else PodNotFound in
  mkPassEnv (mkClock 5 "t") true true get get NewManager.

Lemma clean_store_loaded :
  reachable (H := bits_codec) (clean_store, None) ∧
  ∃ r, loaded (H := bits_codec) clean_store r ∧ Pools r = Pools (tmpData clean_session).
Proof.
  assert (reachable (H := bits_codec) (example_store, Some clean_session)) as Hr
    by (apply (ops_reachable clean_ops); vm_compute; reflexivity).
  assert (match Commit (H := bits_codec) true example_store clean_session with Some (_, _, None) => true | _ => false end = true)
    as Hv by (vm_compute; reflexivity).
  destruct (Commit_total (H := bits_codec) true example_store clean_session) as (m' & s' & err & E & _ & Herr);
    [vm_compute; reflexivity|apply (bool_decide_unpack (root_texts_ok (tmpData clean_session))); vm_compute; exact I|].
  unfold clean_store. rewrite E in Hv |- *. destruct err as [err|]; [discriminate Hv|]. split.
  - destruct Hr as (x0 & Hx0 & Hs). exists x0. split; [done|]. eapply rtc_r; [done|]. by eapply step_commit.
  - destruct Herr as (r & Hp & Hpools). exists r. split; [by left|done].
Qed.

Lemma clean_entry r :
  Pools r = Pools (tmpData clean_session) → Entries (getPoolData "p" r) !! "c_i" = Some one_reservation.
Proof. intros E. unfold getPoolData. rewrite E. vm_compute. reflexivity. Qed.

Lemma clean_names_ok r : Pools r = Pools (tmpData clean_session) → names_ok r.
Proof.
  intros E pk k x. unfold getPoolData. rewrite E. change (Pools (tmpData clean_session)) with
    (<["p" := mkPoolReservations "p" (<["c_i" := one_reservation]> ∅) "" (ip_of F4 1)]> (∅ : gmap string PoolReservations)).
  destruct (decide (pk = "p")) as [->|Hne].
  - rewrite lookup_insert_eq. simpl. intros [[_ <-]|[_ Hx]]%lookup_insert_Some; [done|]. by rewrite lookup_empty in Hx.
  - rewrite lookup_insert_ne, lookup_empty by done. simpl. by rewrite lookup_empty.
Qed.

Lemma cleaner_pass_exact_witness :
  ∃ st' c' err, cleaner_loop (H := bits_codec) (clean_env false) (NewCleaner 1 100) clean_store = Some (st', c', err) ∧
    pass_result (H := bits_codec) (clean_env false) (NewCleaner 1 100) clean_store st' c' err.
Proof.
  destruct clean_store_loaded as [Hr (r & Hl & Hp)].
  destruct (cleaner_pass_exact (H := bits_codec) (clean_env false) (NewCleaner 1 100) clean_store Hr) as (st' & c' & err & E & _ & _ & Hres).
  { intros r' Hr'. rewrite (loaded_inj (H := bits_codec) _ _ _ Hr' Hl). apply clean_names_ok, Hp. }
  exists st', c', err. split; [exact E|exact Hres].
Defined.

Fixpoint passes_succeedb `{RootCodec} (es : list pass_env) (c : cleaner) (st : store) : bool :=
  match es with
  | [] => true
  | e :: es => match cleaner_loop e c st with Some (st', c', None) => passes_succeedb es c' st' | _ => false end
  end.

Lemma passes_succeedb_ok `{RootCodec} es c st : passes_succeedb es c st = true → passes_succeed es c st.
Proof.
  revert c st. induction es as [|e es IH]; intros c st; simpl; [done|].
  destruct (cleaner_loop e c st) as [[[st' c'] [err|]]|]; [done| |done]. intros Hok. exists st', c'. auto.
Qed.

(** Three passes miss the pod, with a limit of one. *)
Lemma stale_reservation_released_witness :
  ∃ st' c' r', Start (H := bits_codec) (replicate 3 (clean_env false)) (NewCleaner 1 100) clean_store = Some (st', c') ∧
    loaded (H := bits_codec) st' r' ∧ gone (Entries (getPoolData "p" r') !! "c_i").
Proof.
  destruct clean_store_loaded as [Hr (r & Hl & Hp)].
  assert (passes_succeed (H := bits_codec) (replicate 3 (clean_env false)) (NewCleaner 1 100) clean_store) as Hok
    by (apply passes_succeedb_ok; vm_compute; reflexivity).
  destruct (stale_reservation_released (H := bits_codec) (replicate 3 (clean_env false)) (NewCleaner 1 100) clean_store r "p" "c_i"
    one_reservation Hr Hl (clean_names_ok r Hp) (clean_entry r Hp) eq_refl eq_refl eq_refl ltac:(discriminate) Hok
    ltac:(repeat constructor)) as (st' & c' & r' & E & Hl' & Hg).
  exists st', c', r'. split; [exact E|]. split; [exact Hl'|].
  rewrite decide_False in Hg by (intros Hle; apply Hle; reflexivity). exact Hg.
Defined.

Lemma live_reservation_kept_witness :
  ∃ st' c' r', Start (H := bits_codec) (replicate 2 (clean_env true)) (NewCleaner 0 100) clean_store = Some (st', c') ∧
    loaded (H := bits_codec) st' r' ∧ Entries (getPoolData "p" r') !! "c_i" = Some one_reservation.
Proof.
  destruct clean_store_loaded as [Hr (r & Hl & Hp)].
  apply (live_reservation_kept (H := bits_codec) (replicate 2 (clean_env true)) (NewCleaner 0 100) clean_store r "p" "c_i"
    one_reservation Hr Hl (clean_names_ok r Hp) (clean_entry r Hp) eq_refl eq_refl ltac:(repeat constructor)).
Defined.

Lemma reservations_well_keyed_witness :
  reachable (H := bits_codec) (example_store, Some example_session) ∧ root_keyed (tmpData example_session) ∧
  size (Entries (pool_of example_session "pool")) = 2%nat.
Proof.
  split; [apply example_session_reachable|]. split; [|vm_compute; reflexivity].
  destruct (reservations_well_keyed (H := bits_codec) example_store (Some example_session) example_session_reachable)
    as (_ & _ & Hs). apply (Hs example_session eq_refl).
Defined.

(** The key joins the container and the interface with ["_"], which both may contain:
    two interfaces share a key, and the second one gets no address. *)
Example keys_collide :
  getKey "c" "net_1" = getKey "c_net" "1" ∧
  match Reserve (mkClock 0 "") (newStore NewRoot) "p" "c" "net_1" (mkMetadata "" "" "" "" "" "") (ip_of F4 1) with
  | Some (s, None) =>
      snd <$> Reserve (mkClock 0 "") s "p" "c_net" "1" (mkMetadata "" "" "" "" "" "") (ip_of F4 2) =
        Some (Some ErrReservationAlreadyExist)
  | _ => False
  end.
Proof. split; vm_compute; reflexivity. Qed.
