(* ===== verification/System.v ===== *)
(** * The system: controller, node controllers, node daemons

    The components one after the other: the controller of the cluster publishes a
    status, the controller of each node turns its entry into the configuration of
    the node's daemon, and the daemons grant addresses.  The daemons share nothing
    but the status; their addresses are nevertheless different. *)

From Stdlib Require Import Strings.Byte.
From S2P Require Import Prelude GoNet Cidr GoNetText PoolManager NodeTypes Store SessionRuns RangeSet NodeAllocator.
From S2P Require Import Handlers HandlersSpec.
From S2P Require Import ApiTypes Exclusions Validate CtrlAllocator CtrlIPPool NodeControllers.

(** ** The published status *)

(** The controllers of the node keep the networks of the configurations in order,
    and configure the pool of the request from an entry of the node. *)
Lemma Node_IPPool_nets node pool m cd req :
  (∀ ip n, ParseCIDR (Subnet (ipp_Spec pool)) = Some (ip, n) → ∃ f base ones, net_ok f base ones ∧ n = net_of f base ones) →
  cfg_nets (mkHandlers m cd) →
  let m' := (Node_IPPool_Reconcile node (Found pool) m req).1 in
  cfg_nets (mkHandlers m' cd) ∧
  ∀ p, GetPoolByKey m' (GetPoolKey (req_Name req) PoolTypeIPPool) = Some p →
    ∃ a, a ∈ ipp_Status pool ∧ al_NodeName a = node ∧ p = ippool_node_pool pool a.
Proof.
  intros Hnet Hm. cbv zeta. unfold Node_IPPool_Reconcile. destruct (List.find _ _) as [a|] eqn:E; cbn [fst].
  - apply find_some in E as [Ha%list_elem_of_In Hn]. boolify. split; [by apply cfg_nets_update|].
    intros p. rewrite GetPoolByKey_UpdatePool. intros [= <-]. by exists a.
  - split; [by apply cfg_nets_remove|]. intros p. by rewrite GetPoolByKey_RemovePool.
Qed.

Lemma Node_CIDRPool_nets `{K8sNames} node pool m m' cd req err :
  (∀ a ip n, a ∈ cp_Status pool → ParseCIDR (ca_Prefix a) = Some (ip, n) → ∃ f base ones, net_ok f base ones ∧ n = net_of f base ones) →
  cfg_nets (mkHandlers m cd) → Node_CIDRPool_Reconcile node (Found pool) m req = Some (m', err) →
  cfg_nets (mkHandlers m' cd) ∧
  ∀ p, GetPoolByKey m' (GetPoolKey (req_Name req) PoolTypeCIDRPool) = Some p →
    ∃ a, a ∈ cp_Status pool ∧ ca_NodeName a = node ∧ p_Subnet p = ca_Prefix a.
Proof.
  intros Hnet Hm E. unfold Node_CIDRPool_Reconcile in E.
  assert (cfg_nets (mkHandlers (PoolManager.RemovePool m (GetPoolKey (req_Name req) PoolTypeCIDRPool)) cd) ∧
    ∀ p, GetPoolByKey (PoolManager.RemovePool m (GetPoolKey (req_Name req) PoolTypeCIDRPool))
           (GetPoolKey (req_Name req) PoolTypeCIDRPool) = Some p →
      ∃ a, a ∈ cp_Status pool ∧ ca_NodeName a = node ∧ p_Subnet p = ca_Prefix a) as Hrem
    by (split; [by apply cfg_nets_remove|intros p; by rewrite GetPoolByKey_RemovePool]).
  destruct (negb _); [by injection E as <- <-|].
  destruct (List.find _ _) as [a|] eqn:Ef; [|by injection E as <- <-].
  apply bind_Some in E as (errs & _ & E). destruct (negb _); [by injection E as <- <-|].
  apply bind_Some in E as (q & Hq & E). injection E as <- <-.
  apply find_some in Ef as [Ha%list_elem_of_In Hn]. boolify. unfold cidrpool_node_pool in Hq.
  destruct (ParseCIDR (ca_Prefix a)) as [[ip' n']|] eqn:Ep; [|done]. apply bind_Some in Hq as (last & _ & [= <-]). split.
  - apply cfg_nets_update; [done|]. intros ip n Ep'. by eapply Hnet.
  - intros p. rewrite GetPoolByKey_UpdatePool. intros [= <-]. by exists a.
Qed.

(** An entry of a response is a grant. *)
Lemma info_granted Pool_String `{RootCodecLaws} e h st params st' infos info :
  Store.reachable (st, None) → cfg_nets h →
  Handlers_Allocate Pool_String e h st (Some params) = Some (st', Ok infos) → info ∈ infos →
  ∃ s s' pal, granted Pool_String (env_now e) h (setDefaultsToParams params) s s' (ai_Pool info) pal ∧
    ai_Ip info = IPNet_String (Address (pal_IPConfig pal)).
Proof.
  intros Hr Hnets E Hin.
  destruct (Allocate_granted _ _ _ _ _ _ _ Hr Hnets E) as (r & r' & allocs & _ & _ & _ & -> & [Hall _] & _).
  apply list_elem_of_fmap in Hin as (pal & -> & Hpal).
  destruct (Forall2_elem_r _ _ _ _ Hall Hpal) as (pn & _ & Hg).
  assert (pal_Pool pal = pn) as <- by (by destruct Hg).
  eexists _, _, pal. unfold allocationInfo. by destruct (is_nil _).
Qed.

(** An address with its prefix length names the address. *)
Lemma address_text_inj f x y ones ones' :
  addr_ok f x → addr_ok f y →
  addr_string f x +:+ String slash (dec_string ones) = addr_string f y +:+ String slash (dec_string ones') → x = y.
Proof.
  intros Hx Hy E%(f_equal (str_cut slash)). rewrite !str_cut_app in E by apply addr_string_no_slash.
  injection E as E. by eapply (addr_string_inj f x f y).
Qed.

(** What is stored after a reconciliation that ends with an update, unless the
    status is the [same]. *)
Lemma stored_after {P A} (update : P → A) (evs : list A) (same : bool) (old new stored : P) :
  (∀ q q', update q = update q' → q = q') → Forall (λ a, ∀ q, a ≠ update q) evs →
  let out := if same then evs else evs ++ [update new] in
  update stored ∈ out ∨ (stored = old ∧ ∀ q, update q ∉ out) → stored = if same then old else new.
Proof.
  intros Hinj Hev. rewrite Forall_forall in Hev. cbv zeta. destruct same.
  - intros [Hin|[-> _]]; [by destruct (Hev _ Hin stored)|done].
  - intros [[Hin|Hin%list_elem_of_singleton]%elem_of_app|[_ Hno]]; [by destruct (Hev _ Hin stored)|by apply Hinj|].
    exfalso. eapply Hno, elem_of_app. right. by apply list_elem_of_singleton.
Qed.

Section system.
Context `{K8sNames, !NodeMatcher}.

(** After a reconciliation of [pool], the API server holds [pool']. *)
Definition published (pool pool' : IPPool) (nodes : list Node) (ns name : string) : Prop :=
  ∃ evs, IPPool_Reconcile never ns (client_of pool nodes) (mkRequest ns name) = Some (evs, None) ∧
    (UpdateIPPoolStatus pool' ∈ evs ∨ (pool' = pool ∧ ∀ p, UpdateIPPoolStatus p ∉ evs)).

Section published.
Context (f : family) (base ones : Z) (pool pool' : IPPool) (nodes : list Node) (ns name : string).
Hypothesis Hsub : subnet_denotes (Subnet (ipp_Spec pool)) f base ones.
Hypothesis H32 : Forall int32_range (PerNodeExclusions (ipp_Spec pool)).
Hypothesis Hvalid : IPPool_Validate pool = [].
Hypothesis Hnodes : NoDup (map node_Name nodes).
Hypothesis Hstatus : NoDup (map al_NodeName (ipp_Status pool)).
Hypothesis Hpub : published pool pool' nodes ns name.

Abbreviation cfg := (ippool_config pool).

Lemma published_spec :
  ipp_Spec pool' = ipp_Spec pool ∧ ∃ pa, pa_inv f base ones cfg pa ∧
    ∀ e, e ∈ ipp_Status pool' → entry pa (al_NodeName e) = Some e.
Proof using All.
  pose proof (ippool_valid_cfg _ _ _ _ Hsub H32 Hvalid) as Hcfg.
  destruct (reconcile_spec f base ones pool nodes ns name Hsub Hvalid Hcfg Hnodes Hstatus)
    as (evs & pa & HR & Hev & Hinv & _ & _ & _).
  destruct Hpub as (evs' & HR' & Hout). rewrite HR in HR'. injection HR' as <-.
  apply (stored_after UpdateIPPoolStatus) in Hout; [|by injection 1|done].
  set (status := omap (entry pa) (sorted_names pool nodes)) in *.
  assert (ipp_Spec pool' = ipp_Spec pool ∧ ipp_Status pool' = status) as [E1 E2].
  { subst pool'. destruct (_ && _) eqn:Es; [|done]. apply andb_true_iff in Es as [_ Es]. by boolify. }
  split; [done|]. exists pa. split; [done|]. intros e. rewrite E2. intros (n & _ & He)%list_elem_of_omap.
  by rewrite (entry_name pa n e He).
Qed.

(** ** The grants of a node *)

(** The request leaves the choice of the address to the daemon. *)
Definition plain_request (params : IPAMParameters) : Prop :=
  pa_PoolType (setDefaultsToParams params) = POOL_TYPE_IPPOOL ∧ RequestedIps params = [] ∧
  wants_index params = None ∧ wants_gateway params = false.

(** The daemon of [node], configured by its controller from [pool'], has granted
    [info] in the pool. *)
Definition node_granted (Pool_String : Pool → string) `{RootCodec} (node : string) (info : AllocationInfo) : Prop :=
  ∃ m cd e st st' params infos,
    cfg_nets (mkHandlers m cd) ∧ Store.reachable (st, None) ∧ plain_request params ∧
    let m' := (Node_IPPool_Reconcile node (Found pool') m (mkRequest ns name)).1 in
    Handlers_Allocate Pool_String e (mkHandlers m' cd) st (Some params) = Some (st', Ok infos) ∧
    info ∈ infos ∧ ai_Pool info = name.

(** The address [x] is the node's, and one the pool allows. *)
Definition node_address (pa : PoolAllocator) (node : string) (x : Z) : Prop :=
  ∃ r i, pa_allocations pa !! node = Some r ∧ range_block f base ones cfg r i ∧
    bstart f base ones cfg i ≤ x ≤ bend f base ones cfg i ∧
    ¬ excluded f (Exclusions (ipp_Spec pool)) x ∧
    ¬ index_covered (PerNodeExclusions (ipp_Spec pool)) (x - bstart f base ones cfg i) ∧
    addr_of (ParseIP (Gateway (ipp_Spec pool))) ≠ Some (f, x).

(** The manager of the node has the pool of the node's entry, if any. *)
Lemma node_manager node m cd :
  cfg_nets (mkHandlers m cd) → ipp_Spec pool' = ipp_Spec pool →
  let m' := (Node_IPPool_Reconcile node (Found pool') m (mkRequest ns name)).1 in
  cfg_nets (mkHandlers m' cd) ∧
  ∀ p, GetPoolByKey m' (GetPoolKey name PoolTypeIPPool) = Some p →
    ∃ a, a ∈ ipp_Status pool' ∧ al_NodeName a = node ∧ p = ippool_node_pool pool' a.
Proof using Hsub.
  intros Hm Hspec. apply (Node_IPPool_nets node pool' m cd (mkRequest ns name)); [|done].
  rewrite Hspec. intros ip n Hp. destruct Hsub as [[ip' Hs] Hn]. rewrite Hs in Hp. injection Hp as _ <-. by exists f, base, ones.
Qed.

Lemma granted_address Pool_String now h ps s s' pal pa node a :
  pa_inv f base ones cfg pa → ipp_Spec pool' = ipp_Spec pool → entry pa (al_NodeName a) = Some a → al_NodeName a = node →
  GetPoolByKey (poolConfReader h) (pool_key ps name) = Some (ippool_node_pool pool' a) →
  RequestedIps ps = [] → wants_index ps = None → wants_gateway ps = false →
  granted Pool_String now h ps s s' name pal →
  ∃ x, IPNet_String (Address (pal_IPConfig pal)) = addr_string f x +:+ String slash (dec_string ones) ∧
    node_address pa node x.
Proof using Hsub H32 Hvalid.
  intros Hinv Hspec He Hnode Hcfgp Hreq Hidx Hgw [p f' base' ones' lo hi want ip x Hp [Hn [ip' Hs] Hst Hen _] Hask Hip Hx Hwant _ HA _ _ _].
  pose proof (ippool_valid_cfg _ _ _ _ Hsub H32 Hvalid) as Hcfg.
  rewrite Hcfgp in Hp. injection Hp as <-. simpl in Hs, Hst, Hen. rewrite Hspec in Hs.
  apply entry_Some in He as (r & Hr & Ha). rewrite Ha in Hst, Hen. simpl in Hst, Hen.
  destruct (inv_block _ _ _ _ _ Hinv _ _ Hr) as (i & Hblk & _). pose proof Hblk as (As & Ae & Hi & Hend).
  rewrite (ParseIP_String _ _ _ As) in Hst. rewrite (ParseIP_String _ _ _ Ae) in Hen.
  injection Hst as <- <-. injection Hen as <-.
  destruct Hsub as [[ip'' Hs'] Hnet]. rewrite Hs' in Hs. injection Hs as _ _ Hneteq.
  assert (ones' = ones) as -> by (symmetry; by eapply mask_loop_inj; [apply Hnet|apply Hn|exact Hneteq]). clear Hneteq.
  unfold asked in Hask. rewrite Hidx, Hgw in Hask. unfold requested in Hask. rewrite Hreq in Hask. simpl in Hask. subst want.
  destruct Hwant as (Hrange & Hnex & Hnotgw).
  exists x. split; [rewrite HA; by apply IPNet_String_address; [|apply Hnet]|].
  exists r, i. split; [by rewrite <- Hnode|]. split; [done|]. split; [done|].
  unfold ippool_node_pool in Hnex, Hnotgw. simpl in Hnex, Hnotgw. rewrite cfg_excluded_app, Hspec in Hnex.
  rewrite Ha in Hnex. simpl in Hnex. unfold cfg_excluded at 1 in Hnex. rewrite map_er_of in Hnex.
  split_and!; [tauto| |].
  - intros Hidx'. apply Hnex. right.
    rewrite (buildPerNodeExclusions_spec f _ _ _ _ _ (cfg_PerNodeBlockSize cfg) x (ParseIP_String _ _ _ As) (ParseIP_String _ _ _ Ae));
      [done|lia| |by apply (cfg_node_excl _ _ _ _ Hcfg)].
    intros y Hy. pose proof (cfg_block _ _ _ _ Hcfg). pose proof (first_start_bounds f base ones cfg Hcfg).
    eapply (net_ok_addr f base ones); [done|]. unfold bend, bstart in *. nia.
  - intros Hg. rewrite Hspec in Hnotgw. rewrite (IP_Equal_addr _ _ _ _ _ _ Hip Hg), bool_decide_true in Hnotgw by done. done.
Qed.

Lemma node_granted_address Pool_String `{RootCodecLaws} pa node info :
  pa_inv f base ones cfg pa → ipp_Spec pool' = ipp_Spec pool →
  (∀ e, e ∈ ipp_Status pool' → entry pa (al_NodeName e) = Some e) →
  node_granted Pool_String node info →
  ∃ x, ai_Ip info = addr_string f x +:+ String slash (dec_string ones) ∧ node_address pa node x.
Proof using Hsub H32 Hvalid.
  intros Hinv Hspec Hst (m & cd & e & st & st' & params & infos & Hm & Hr & (Hty & Hreq & Hidx & Hgw) & E & Hin & Hname).
  destruct (node_manager node m cd Hm Hspec) as [Hnets Hpool].
  destruct (info_granted _ _ _ _ _ _ _ _ Hr Hnets E Hin) as (s & s' & pal & Hg & ->).
  rewrite Hname in Hg. pose proof Hg as [p _ _ _ _ _ _ _ _ Hp _ _ _ _ _ _ _ _ _ _].
  assert (pool_key (setDefaultsToParams params) name = GetPoolKey name PoolTypeIPPool) as Ek
    by (unfold pool_key; by rewrite Hty).
  pose proof Hp as Hp'. rewrite Ek in Hp'. destruct (Hpool p Hp') as (a & Ha & Hn & ->).
  assert (RequestedIps (setDefaultsToParams params) = [] ∧ wants_index (setDefaultsToParams params) = None ∧
    wants_gateway (setDefaultsToParams params) = false) as (Hreq' & Hidx' & Hgw') by (by destruct params as [???? [] ??]).
  by apply (granted_address _ _ _ _ _ _ _ _ node a Hinv Hspec (Hst a Ha) Hn Hp Hreq' Hidx' Hgw' Hg).
Qed.
End published.

(** ** Property *)

(** C1: The addresses of an IPPool are unique in the cluster.  A valid pool is
    reconciled and its status published; every node's controller configures the
    node's daemon from the status.  Whatever else the daemons do, an address a
    daemon grants in the pool to a request that leaves the choice to it is an
    address of the node's block that is not excluded, neither by the pool nor for
    the node, and not the gateway; and two daemons never grant the same address. *)
Theorem cluster_addresses_distinct f base ones pool pool' nodes ns name Pool_String `{RootCodecLaws} :
  subnet_denotes (Subnet (ipp_Spec pool)) f base ones → Forall int32_range (PerNodeExclusions (ipp_Spec pool)) →
  IPPool_Validate pool = [] → NoDup (map node_Name nodes) → NoDup (map al_NodeName (ipp_Status pool)) →
  published pool pool' nodes ns name →
  ∃ pa, pa_inv f base ones (ippool_config pool) pa ∧
    (∀ node info, node_granted pool' ns name Pool_String node info →
       ∃ x, ai_Ip info = addr_string f x +:+ String slash (dec_string ones) ∧ node_address f base ones pool pa node x) ∧
    ∀ node node' info info', node ≠ node' →
      node_granted pool' ns name Pool_String node info → node_granted pool' ns name Pool_String node' info' →
      ai_Ip info ≠ ai_Ip info'.
Proof.
  intros Hsub H32 HV Hnd Hst Hpub.
  destruct (published_spec _ _ _ _ _ _ _ _ Hsub H32 HV Hnd Hst Hpub) as (Hspec & pa & Hinv & Hent).
  pose proof (ippool_valid_cfg _ _ _ _ Hsub H32 HV) as Hcfg.
  assert (∀ node info, node_granted pool' ns name Pool_String node info →
    ∃ x, ai_Ip info = addr_string f x +:+ String slash (dec_string ones) ∧ node_address f base ones pool pa node x) as Hall
    by (intros node info; by apply (node_granted_address f base ones pool pool' ns name Hsub H32 HV)).
  exists pa. split; [done|]. split; [done|]. intros n n' info info' Hne Hg Hg' E.
  destruct (Hall _ _ Hg) as (x & Ex & r & i & Hr & (As & Ae & Hi & Hb) & Hx & _).
  destruct (Hall _ _ Hg') as (y & Ey & r' & i' & Hr' & (As' & Ae' & Hi' & Hb') & Hy & _).
  assert (x = y) as <-.
  { rewrite Ex, Ey in E. pose proof (cfg_block _ _ _ _ Hcfg). pose proof (first_start_bounds f base ones _ Hcfg).
    eapply (address_text_inj f x y); [eapply (net_ok_addr f base ones); [apply Hsub|unfold bend, bstart in *; nia]..|exact E]. }
  apply Hne. by eapply (ranges_disjoint f base ones _ Hcfg pa n n' r r' x).
Qed.
End system.

(** *** Witness *)

Definition published_pool : IPPool :=
  ipp_set_status example_status_pool
    [mkAllocation "node1" "192.168.0.1" "192.168.0.10"; mkAllocation "node2" "192.168.0.31" "192.168.0.40";
     mkAllocation "node3" "192.168.0.11" "192.168.0.20"].

Lemma published_example : @published nonempty_names exists_matcher example_status_pool published_pool example_nodes "ns" "pool1".
Proof. eexists. split; [exact reconcile_run|]. left. apply list_elem_of_here. Qed.

(** What the daemon of a node answers to its first request. *)
Definition node_answer (node : string) : option (store * result status (list AllocationInfo)) :=
  Handlers_Allocate (H := bits_codec) (λ _, "") (calm 0)
    (mkHandlers (Node_IPPool_Reconcile node (Found published_pool) NewManager (mkRequest "ns" "pool1")).1 0)
    node_store (Some (node_request ["pool1"] [] None)).

Lemma node_answers node info st' infos :
  node_answer node = Some (st', Ok infos) → info ∈ infos → ai_Pool info = "pool1" →
  node_granted published_pool "ns" "pool1" (λ _, "") (H1 := bits_codec) node info.
Proof.
  intros E Hin Hn. exists NewManager, 0, (calm 0), node_store, st', (node_request ["pool1"] [] None), infos.
  split; [apply cfg_nets_new|]. split; [apply node_store_reachable|].
  split; [done|]. cbv zeta. split; [exact E|]. split; [exact Hin|exact Hn].
Qed.

Definition one_info (r : option (store * result status (list AllocationInfo))) : option AllocationInfo :=
  match r with Some (_, Ok [i]) => if bool_decide (ai_Pool i = "pool1") then Some i else None | _ => None end.

Lemma one_info_granted node info :
  one_info (node_answer node) = Some info → node_granted published_pool "ns" "pool1" (λ _, "") (H1 := bits_codec) node info.
Proof.
  unfold one_info. destruct (node_answer node) as [[st' [[|i [|]]|]]|] eqn:E; try discriminate. case_bool_decide as Hn; [|discriminate].
  intros [= <-]. eapply node_answers; [exact E|apply list_elem_of_here|exact Hn].
Qed.

Lemma cluster_addresses_distinct_witness :
  ∃ i1 i2, one_info (node_answer "node1") = Some i1 ∧ one_info (node_answer "node2") = Some i2 ∧ ai_Ip i1 ≠ ai_Ip i2.
Proof.
  assert (is_Some (one_info (node_answer "node1"))) as [i1 E1] by (vm_compute; eexists; reflexivity).
  assert (is_Some (one_info (node_answer "node2"))) as [i2 E2] by (vm_compute; eexists; reflexivity).
  destruct (@cluster_addresses_distinct nonempty_names exists_matcher F4 (192 * 2 ^ 24 + 168 * 2 ^ 16) 24 example_status_pool
    published_pool example_nodes "ns" "pool1" (λ _, "") bits_codec bits_codec_laws example_status_denotes)
    as (pa & _ & _ & Hd).
  - repeat constructor; by vm_compute.
  - vm_compute; reflexivity.
  - apply (bool_decide_unpack _); vm_compute; exact I.
  - apply (bool_decide_unpack _); vm_compute; exact I.
  - exact published_example.
  - exists i1, i2. split; [exact E1|]. split; [exact E2|].
    apply (Hd "node1" "node2" i1 i2); [discriminate|by apply one_info_granted..].
Defined.
