(* ===== verification/SystemCIDR.v ===== *)
(** * The system with a CIDRPool

    As in [System], with the controllers of CIDRPools: the controller of the
    cluster publishes a prefix for every node, the controller of each node turns
    the node's entry into the configuration of the node's daemon, and the daemons
    grant addresses.  An address is always in the prefix of the node, also when the
    request names it, asks for it by index or asks for the gateway; so the
    addresses of different nodes are different for every request. *)

From Stdlib Require Import Strings.Byte.
From S2P Require Import Prelude GoNet Cidr GoNetText PoolManager NodeTypes Store SessionRuns RangeSet NodeAllocator.
From S2P Require Import Handlers HandlersSpec.
From S2P Require Import ApiTypes Exclusions Validate CtrlAllocator CtrlIPPool CtrlCIDRPool NodeControllers System.

Section system_cidr.
Context `{K8sNames, !NodeMatcher}.

(** After a reconciliation of [pool], the API server holds [pool']. *)
Definition cidr_published (pool pool' : CIDRPool) (nodes : list Node) (ns name : string) : Prop :=
  ∃ evs, CIDRPool_Reconcile never ns (cidr_client pool nodes) (mkRequest ns name) = Some (evs, None) ∧
    (UpdateCIDRPoolStatus pool' ∈ evs ∨ (pool' = pool ∧ ∀ p, UpdateCIDRPoolStatus p ∉ evs)).

(** The daemon of [node], configured by its controller from [pool'], has granted
    [info] in the pool. *)
Definition cidr_node_granted (pool' : CIDRPool) (ns name : string) (Pool_String : Pool → string) `{RootCodec}
    (node : string) (info : AllocationInfo) : Prop :=
  ∃ m cd m' err e st st' params infos,
    cfg_nets (mkHandlers m cd) ∧ Store.reachable (st, None) ∧
    pa_PoolType (setDefaultsToParams params) = POOL_TYPE_CIDRPOOL ∧
    Node_CIDRPool_Reconcile node (Found pool') m (mkRequest ns name) = Some (m', err) ∧
    Handlers_Allocate Pool_String e (mkHandlers m' cd) st (Some params) = Some (st', Ok infos) ∧
    info ∈ infos ∧ ai_Pool info = name.

Section published.
Context (f : family) (base ones : Z) (pool pool' : CIDRPool) (nodes : list Node) (ns name : string).
Hypothesis Hsub : subnet_denotes (CIDR (cp_Spec pool)) f base ones.
Hypothesis H32 : Forall int32_range (cp_PerNodeExclusions (cp_Spec pool)).
Hypothesis Hvalid : CIDRPool_Validate pool = [].
Hypothesis Hcanon : canonical_pool pool.
Hypothesis Hpub : cidr_published pool pool' nodes ns name.

Abbreviation p := (PerNodeNetworkPrefix (cp_Spec pool)).

(** The entry [a] of the status is for the prefix with index [j]. *)
Definition entry_block (a : CIDRPoolAllocation) (j : Z) : Prop :=
  0 ≤ j < sub_count ones p ∧ ca_Prefix a = prefix_key f base pool j.

Lemma cidr_published_spec :
  (∀ a, a ∈ cp_Status pool' → ∃ j, entry_block a j) ∧
  ∀ a a' j, a ∈ cp_Status pool' → a' ∈ cp_Status pool' → entry_block a j → entry_block a' j → ca_NodeName a = ca_NodeName a'.
Proof using All.
  destruct (cidr_reconcile_spec f base ones pool nodes ns name Hsub H32 Hvalid Hcanon) as (evs & m & HR & Hev & Hinv & _ & _).
  destruct Hpub as (evs' & HR' & Hout). rewrite HR in HR'. injection HR' as <-.
  apply (stored_after UpdateCIDRPoolStatus) in Hout; [|by injection 1|done].
  assert (cp_Status pool' = sortedAllocations m.1) as ->; [|split].
  - subst pool'. destruct (_ && _) eqn:Es; [|done]. apply andb_true_iff in Es as [_ Es]. by boolify.
  - intros a [n Hn]%sortedAllocations_elem. by destruct (mi_block _ _ _ _ _ Hinv n a Hn) as (j & ? & ?); exists j.
  - intros a a' j [n Hn]%sortedAllocations_elem [n' Hn']%sortedAllocations_elem [_ Hj] [_ Hj'].
    rewrite (mi_name _ _ _ _ _ Hinv n a Hn), (mi_name _ _ _ _ _ Hinv n' a' Hn').
    apply (mi_unique _ _ _ _ _ Hinv n n' a a' Hn Hn'). congruence.
Qed.

Abbreviation start := (sub_base f base p).

(** The network of an entry. *)
Lemma entry_parse a j :
  entry_block a j → net_ok f (start j) p ∧ ∃ ip, ParseCIDR (ca_Prefix a) = Some (ip, net_of f (start j) p).
Proof using Hsub H32 Hvalid.
  intros [Hj ->]. pose proof (CIDRPool_Validate_ok f base ones pool Hsub H32 Hvalid) as Hok.
  destruct (sub_block f base ones pool Hok (proj2 Hsub) j Hj) as [Hb _]. split; [done|].
  eexists. apply ParseCIDR_String, Hb.
Qed.

(** What a node grants is an address of the node's prefix. *)
Lemma cidr_granted_address Pool_String `{RootCodecLaws} node info :
  cidr_node_granted pool' ns name Pool_String node info →
  ∃ a j x, a ∈ cp_Status pool' ∧ ca_NodeName a = node ∧ entry_block a j ∧ start j ≤ x < start j + net_size f p ∧
    ai_Ip info = addr_string f x +:+ String slash (dec_string p).
Proof using All.
  intros (m & cd & m' & err & e & st & st' & params & infos & Hm & Hr & Hty & HR & E & Hin & Hname).
  destruct cidr_published_spec as [Hblk _].
  destruct (Node_CIDRPool_nets node pool' m m' cd (mkRequest ns name) err) as [Hnets Hpool]; [|done|done|].
  { intros a ip n Ha Hp. destruct (Hblk a Ha) as (j & Hj). destruct (entry_parse a j Hj) as (Hn & ip' & Hp').
    rewrite Hp' in Hp. injection Hp as _ <-. eauto. }
  destruct (info_granted _ _ _ _ _ _ _ _ Hr Hnets E Hin) as (s & s' & pal & Hg & ->). rewrite Hname in Hg.
  destruct Hg as [q f' b' ones' lo hi want ip x Hq [Hn [ip' Hs] _ _ _] _ Hip Hx _ _ HA _ _ _].
  unfold pool_key in Hq. rewrite Hty in Hq. destruct (Hpool q Hq) as (a & Ha & Hnode & Hpre).
  destruct (Hblk a Ha) as (j & Hj). destruct (entry_parse a j Hj) as (Hnj & ip'' & Hp).
  rewrite Hpre, Hp in Hs. assert (net_of f (start j) p = net_of f' b' ones') as Hnet by congruence.
  apply net_of_inj in Hnet as (-> & -> & ->); [|done..].
  exists a, j, x. do 4 (split; [done|]). rewrite HA. apply IPNet_String_address; [done|apply Hnj].
Qed.
End published.

(** ** Property *)

(** C2: The addresses of a CIDRPool are unique in the cluster.  A valid pool whose
    static and published prefixes are written canonically (the condition is needed:
    see [static_prefix_duplicated]) is reconciled and its status published; every
    node's controller configures the node's daemon from the status.  Whatever the
    requests ask for (an address, an index, the gateway, or no address in
    particular), an address a daemon grants in the pool is in the prefix the status
    has for its node, and two daemons never grant the same address. *)
Theorem cluster_prefix_addresses_distinct f base ones pool pool' nodes ns name Pool_String `{RootCodecLaws} :
  subnet_denotes (CIDR (cp_Spec pool)) f base ones → Forall int32_range (cp_PerNodeExclusions (cp_Spec pool)) →
  CIDRPool_Validate pool = [] → canonical_pool pool → cidr_published pool pool' nodes ns name →
  let p := PerNodeNetworkPrefix (cp_Spec pool) in
  (∀ node info, cidr_node_granted pool' ns name Pool_String node info →
     ∃ a ip b x, a ∈ cp_Status pool' ∧ ca_NodeName a = node ∧
       ParseCIDR (ca_Prefix a) = Some (ip, net_of f b p) ∧ block_of f base ones p b ∧
       b ≤ x < b + net_size f p ∧ ai_Ip info = addr_string f x +:+ String slash (dec_string p)) ∧
  ∀ node node' info info', node ≠ node' →
    cidr_node_granted pool' ns name Pool_String node info → cidr_node_granted pool' ns name Pool_String node' info' →
    ai_Ip info ≠ ai_Ip info'.
Proof.
  intros Hsub H32 HV Hc Hpub p. pose proof (CIDRPool_Validate_ok f base ones pool Hsub H32 HV) as Hok.
  pose proof (cp_prefix _ _ _ _ Hok) as [Hp _]. fold p in Hp.
  pose proof (λ node info, cidr_granted_address f base ones pool pool' nodes ns name Hsub H32 HV Hc Hpub Pool_String node info) as Hg.
  split.
  - intros node info (a & j & x & Ha & Hn & Hj & Hx & E)%Hg.
    destruct (entry_parse f base ones pool Hsub H32 HV a j Hj) as (_ & ip & Ep). exists a, ip, (sub_base f base p j), x.
    do 3 (split; [done|]). split; [|by split]. apply (sub_block f base ones pool Hok (proj2 Hsub)), Hj.
  - intros n n' info info' Hne (a & j & x & Ha & Hn & Hj & Hx & E)%Hg (a' & j' & x' & Ha' & Hn' & Hj' & Hx' & E')%Hg Eq.
    destruct (entry_parse f base ones pool Hsub H32 HV a j Hj) as (Hb & _).
    destruct (entry_parse f base ones pool Hsub H32 HV a' j' Hj') as (Hb' & _).
    assert (x = x') as <- by (rewrite E, E' in Eq; eapply (address_text_inj f x x'); [by eapply (net_ok_addr _ _ _ _ Hb)|by eapply (net_ok_addr _ _ _ _ Hb')|exact Eq]).
    assert (j = j') as <- by (pose proof (sub_size_pos f ones p Hp); subst p; unfold sub_base in *; nia).
    apply Hne. destruct (cidr_published_spec f base ones pool pool' nodes ns name Hsub H32 HV Hc Hpub) as [_ Hu].
    rewrite <- Hn, <- Hn'. by apply (Hu a a' j).
Qed.
End system_cidr.

(** *** Witness *)

Definition published_cidrpool : CIDRPool :=
  cp_set_status example_cidrpool
    [mkCIDRPoolAllocation "master" "fd52:2eb5:44::101" "fd52:2eb5:44::100/120";
     mkCIDRPoolAllocation "node1" "fd52:2eb5:44::1" "fd52:2eb5:44::/120";
     mkCIDRPoolAllocation "node2" "fd52:2eb5:44::201" "fd52:2eb5:44::200/120";
     mkCIDRPoolAllocation "node3" "fd52:2eb5:44::301" "fd52:2eb5:44::300/120"].

Definition unpublished_cidrpool : CIDRPool := cp_set_status example_cidrpool [].

Lemma cidr_published_example :
  @cidr_published nonempty_names exists_matcher unpublished_cidrpool published_cidrpool example_nodes "ns" "pool2".
Proof. eexists. split; [exact cidr_reconcile_run|]. left. apply list_elem_of_here. Qed.


(** What the daemon of a node answers to its first request. *)
Definition cidr_answer (node : string) (params : IPAMParameters) : option (store * result status (list AllocationInfo)) :=
  '(m, _) ← @Node_CIDRPool_Reconcile nonempty_names node (Found published_cidrpool) NewManager (mkRequest "ns" "pool2");
  Handlers_Allocate (H := bits_codec) (λ _, "") (calm 0) (mkHandlers m 0) node_store (Some params).

(** An address of the prefix by its index (in an excluded range), and an address of the daemon's choice. *)
Definition index_params : IPAMParameters :=
  mkIPAMParameters ["pool2"] "c" "i" (Some (mkIPAMMetadata "a" "b" "" "")) POOL_TYPE_CIDRPOOL []
    (Some (mkIPAMFeatures false (Some 5))).
Definition any_params : IPAMParameters :=
  mkIPAMParameters ["pool2"] "c" "i" (Some (mkIPAMMetadata "a" "b" "" "")) POOL_TYPE_CIDRPOOL [] None.

Definition single_ip (r : option (store * result status (list AllocationInfo))) : option string :=
  match r with Some (_, Ok [i]) => if bool_decide (ai_Pool i = "pool2") then Some (ai_Ip i) else None | _ => None end.

Lemma single_info_granted node params ip :
  pa_PoolType (setDefaultsToParams params) = POOL_TYPE_CIDRPOOL → single_ip (cidr_answer node params) = Some ip →
  ∃ info, cidr_node_granted (H := nonempty_names) published_cidrpool "ns" "pool2" (λ _, "") (H1 := bits_codec) node info ∧
    ai_Ip info = ip.
Proof.
  intros Hty E. unfold single_ip in E. destruct (cidr_answer node params) as [[st' [[|i [|]]|]]|] eqn:Ea; try discriminate E.
  destruct (bool_decide (ai_Pool i = "pool2")) eqn:Ep; [|discriminate E]. apply bool_decide_eq_true in Ep.
  exists i. split; [|congruence]. unfold cidr_answer in Ea. apply bind_Some in Ea as ([m err] & HR & HA).
  exists NewManager, 0, m, err, (calm 0), node_store, st', params, [i].
  split; [apply cfg_nets_new|]. split; [apply node_store_reachable|]. split; [exact Hty|]. split; [exact HR|].
  split; [exact HA|]. split; [apply list_elem_of_here|exact Ep].
Qed.

Example cidr_answers :
  single_ip (cidr_answer "node1" index_params) = Some "fd52:2eb5:44::6/120" ∧
  single_ip (cidr_answer "node2" any_params) = Some "fd52:2eb5:44::20a/120".
Proof. split; vm_compute; reflexivity. Qed.

Lemma cluster_prefix_addresses_distinct_witness :
  ∃ i1 i2 : AllocationInfo,
    cidr_node_granted (H := nonempty_names) published_cidrpool "ns" "pool2" (λ _, "") (H1 := bits_codec) "node1" i1 ∧
    cidr_node_granted (H := nonempty_names) published_cidrpool "ns" "pool2" (λ _, "") (H1 := bits_codec) "node2" i2 ∧
    ai_Ip i1 ≠ ai_Ip i2.
Proof.
  destruct (single_info_granted "node1" index_params _ eq_refl (proj1 cidr_answers)) as (i1 & G1 & _).
  destruct (single_info_granted "node2" any_params _ eq_refl (proj2 cidr_answers)) as (i2 & G2 & _).
  destruct (@cluster_prefix_addresses_distinct nonempty_names exists_matcher F6 (0xfd522eb50044 * 2 ^ 80) 48 unpublished_cidrpool
    published_cidrpool example_nodes "ns" "pool2" (λ _, "") bits_codec bits_codec_laws example_cidrpool_subnet) as [_ Hd].
  - repeat constructor; by vm_compute.
  - vm_compute; reflexivity.
  - split; apply canonicalb_ok; vm_compute; reflexivity.
  - exact cidr_published_example.
  - exists i1, i2. split; [exact G1|]. split; [exact G2|]. apply (Hd "node1" "node2" i1 i2); [discriminate|exact G1|exact G2].
Defined.
