(* ===== verification/Controller.v ===== *)
(** * The controller of the cluster

    Three controllers run side by side in [RunController] of
    [cmd/ipam-controller/app/app.go]: the controller of nodes turns a change of a
    node into requests for every pool, the controllers of pools serve requests.
    Each has a work queue, a set of names: a request is taken, served, and dropped
    unless serving it failed; the API server makes a request of every change of an
    object, also of a status the controller itself writes (an update that changes
    nothing is no change).

    A pool controller is an instance of [PoolKind], with the reconciliation as its
    operation.  The theorems say that the queues always hold what is not settled,
    and that the controllers come to rest.

    Requests are served one after the other, and a reconciliation sees the objects
    as they are. *)

From S2P Require Import Prelude GoNet Cidr GoNetText ApiTypes Exclusions Validate CtrlAllocator CtrlIPPool CtrlCIDRPool CIDRStable.

(** Objects of the API server have names, and no two nodes have the same. *)
Definition nodes_ok (nodes : list Node) : Prop :=
  NoDup (map node_Name nodes) ∧ Forall (λ n, node_Name n ≠ "") nodes.

(** ** The interface of a pool controller *)

Class PoolKind (P : Type) := {
  pk_eq : EqDecision P;
  (** the pool as it is stored after a reconciliation; [None]: an error or a panic *)
  pk_reconcile : list Node → P → option P;
  (** the lists of IPPools and of CIDRPools, from those of this and of the other kind *)
  pk_lists : list string → list string → list string * list string;
  (** the request the node controller makes for a pool of this kind *)
  pk_request : node_action → option string;
  (** what is assumed of the pools users write *)
  pk_good : P → Prop;
  (** the part of a pool that users write: all but the status *)
  pk_user : P → P;
}.
#[global] Existing Instance pk_eq.

Class PoolKindLaws (P : Type) `{PoolKind P} := {
  pk_total : ∀ nodes p, pk_good p → nodes_ok nodes →
    ∃ p', pk_reconcile nodes p = Some p' ∧ pk_good p' ∧ pk_reconcile nodes p' = Some p' ∧ pk_user p' = pk_user p;
  pk_requested : ∀ ns get own other acts,
    Node_Reconcile ns get (Ok (pk_lists own other).1) (Ok (pk_lists own other).2) = (acts, None) →
    omap pk_request acts = own;
}.

(** ** The cluster *)

Section cluster.
Context {P : Type} `{PoolKindLaws P}.

Record cluster := mkCluster {
  c_nodes : list Node;
  c_pools : gmap string P;
  c_nodeQ : gset string;
  c_poolQ : gset string;
}.

(** Users and the cluster change objects: one node, or one pool.  A request for a node
    can fail when only some of the pools have been notified; it stays in its queue. *)
Inductive env_step : cluster → cluster → Prop :=
| env_node n nodes' c :
    nodes_ok nodes' →
    (∀ m, node_Name m ≠ n → m ∈ c_nodes c ↔ m ∈ nodes') →
    env_step c (mkCluster nodes' (c_pools c) ({[n]} ∪ c_nodeQ c) (c_poolQ c))
| env_pool name p c :
    pk_good p →
    env_step c (mkCluster (c_nodes c) (<[name := p]> (c_pools c)) (c_nodeQ c) ({[name]} ∪ c_poolQ c))
| env_delete name c :
    env_step c (mkCluster (c_nodes c) (delete name (c_pools c)) (c_nodeQ c) ({[name]} ∪ c_poolQ c))
| env_node_failed ns get ips cidrs acts err c :
    Node_Reconcile ns get ips cidrs = (acts, Some err) →
    env_step c (mkCluster (c_nodes c) (c_pools c) (c_nodeQ c) (list_to_set (omap pk_request acts) ∪ c_poolQ c)).

(** The controllers serve a request.  A request for a pool that fails stays in its
    queue, which changes nothing. *)
Inductive ctl_step : cluster → cluster → Prop :=
| ctl_node n ns get own other acts c :
    n ∈ c_nodeQ c → own ≡ₚ elements (dom (c_pools c)) →
    Node_Reconcile ns get (Ok (pk_lists own other).1) (Ok (pk_lists own other).2) = (acts, None) →
    ctl_step c (mkCluster (c_nodes c) (c_pools c) (c_nodeQ c ∖ {[n]}) (list_to_set (omap pk_request acts) ∪ c_poolQ c))
| ctl_gone name c :
    name ∈ c_poolQ c → c_pools c !! name = None →
    ctl_step c (mkCluster (c_nodes c) (c_pools c) (c_nodeQ c) (c_poolQ c ∖ {[name]}))
| ctl_same name p c :
    name ∈ c_poolQ c → c_pools c !! name = Some p → pk_reconcile (c_nodes c) p = Some p →
    ctl_step c (mkCluster (c_nodes c) (c_pools c) (c_nodeQ c) (c_poolQ c ∖ {[name]}))
| ctl_update name p p' c :
    name ∈ c_poolQ c → c_pools c !! name = Some p → pk_reconcile (c_nodes c) p = Some p' → p' ≠ p →
    ctl_step c (mkCluster (c_nodes c) (<[name := p']> (c_pools c)) (c_nodeQ c) (c_poolQ c)).

Definition cluster_step (c c' : cluster) : Prop := env_step c c' ∨ ctl_step c c'.

(** The controller starts with a request for every object. *)
Definition cluster_start (c : cluster) : Prop :=
  nodes_ok (c_nodes c) ∧ map_Forall (λ _ p, pk_good p) (c_pools c) ∧ dom (c_pools c) ⊆ c_poolQ c.

Definition cluster_reachable (c : cluster) : Prop := ∃ c0, cluster_start c0 ∧ rtc cluster_step c0 c.

(** A reconciliation would not change the pool. *)
Definition settled (c : cluster) (p : P) : Prop := pk_reconcile (c_nodes c) p = Some p.

#[global] Instance settled_dec c p : Decision (settled c p).
Proof. unfold settled. apply _. Defined.

(** What is not settled is in a queue. *)
Record cluster_inv (c : cluster) : Prop := {
  ci_nodes : nodes_ok (c_nodes c);
  ci_good : map_Forall (λ _ p, pk_good p) (c_pools c);
  ci_pending : ∀ name p, c_pools c !! name = Some p → settled c p ∨ name ∈ c_poolQ c ∨ c_nodeQ c ≠ ∅;
}.

Lemma env_step_inv c c' : env_step c c' → cluster_inv c → cluster_inv c'.
Proof.
  intros Hs [Hn Hg Hp]. destruct Hs as [n nodes' c Hnd _|name p c Hgp|name c|ns get ips cidrs acts err c _]; split; simpl; try done.
  - intros name p _. right. right. set_solver.
  - by apply map_Forall_insert_2.
  - intros name' q [[<- <-]|[_ Hq]]%lookup_insert_Some; [right; left; set_solver|].
    destruct (Hp name' q Hq) as [Hs|[Hs|Hs]]; [by left|right; left; set_solver|by right; right].
  - by apply map_Forall_delete.
  - intros name' q [_ Hq]%lookup_delete_Some.
    destruct (Hp name' q Hq) as [Hs|[Hs|Hs]]; [by left|right; left; set_solver|by right; right].
  - intros name' q Hq. destruct (Hp name' q Hq) as [Hs|[Hs|Hs]]; [by left|right; left; set_solver|by right; right].
Qed.

Lemma ctl_step_inv c c' : ctl_step c c' → cluster_inv c → cluster_inv c'.
Proof.
  intros Hs [Hn Hg Hp].
  destruct Hs as [n ns get own other acts c Hq Hown E|name c Hq Hno|name p c Hq Hl E|name p p' c Hq Hl E Hne]; split; simpl; try done.
  - intros name p Hl. right. left. rewrite (pk_requested _ _ _ _ _ E). apply elem_of_union_l, elem_of_list_to_set.
    rewrite Hown. apply elem_of_elements, elem_of_dom. by eexists.
  - intros name' q Hl. destruct (Hp name' q Hl) as [Hs|[Hs|Hs]]; [by left| |by right; right].
    right. left. destruct (decide (name' = name)); [congruence|set_solver].
  - intros name' q Hl'. destruct (Hp name' q Hl') as [Hs|[Hs|Hs]]; [by left| |by right; right].
    destruct (decide (name' = name)) as [->|]; [left; unfold settled in *; simpl; congruence|right; left; set_solver].
  - destruct (pk_total (c_nodes c) p (Hg _ _ Hl) Hn) as (p1 & E1 & Hg1 & _). apply map_Forall_insert_2; [congruence|done].
  - intros name' q [[<- <-]|[_ Hq']]%lookup_insert_Some; [by right; left|by apply Hp].
Qed.

Lemma cluster_reachable_inv c : cluster_reachable c → cluster_inv c.
Proof.
  intros (c0 & (Hn & Hg & Hq) & Hr).
  assert (cluster_inv c0) as Hi by (split; try done; intros name p Hl; right; left; apply Hq, elem_of_dom; by eexists).
  clear Hn Hg Hq. induction Hr as [|c c1 c2 [Hs|Hs] _ IH]; [done|apply IH; by eapply env_step_inv|apply IH; by eapply ctl_step_inv].
Qed.

(** ** The controllers come to rest *)

Definition unsettled (c : cluster) (name : string) : Prop :=
  match c_pools c !! name with Some p => ¬ settled c p | None => False end.

#[global] Instance unsettled_dec c name : Decision (unsettled c name).
Proof. unfold unsettled. destruct (c_pools c !! name); apply _. Defined.

(** The names in play, and a bound for the number of steps: a request for a node is
    worth two requests for every name, a request for a pool that is not settled two. *)
Definition c_names (c : cluster) : gset string := dom (c_pools c) ∪ c_poolQ c.

Definition work (c : cluster) : nat :=
  size (c_nodeQ c) * (2 * size (c_names c) + 1) + size (c_poolQ c) + size (filter (unsettled c) (c_poolQ c)).

Lemma pool_work_bound c : (size (c_poolQ c) + size (filter (unsettled c) (c_poolQ c)) ≤ 2 * size (c_names c))%nat.
Proof.
  assert (size (c_poolQ c) ≤ size (c_names c))%nat by (apply subseteq_size; set_solver).
  assert (size (filter (unsettled c) (c_poolQ c)) ≤ size (c_poolQ c))%nat by (apply subseteq_size; set_solver). lia.
Qed.

(** Dropping a request for a pool. *)
Lemma work_drop c name :
  name ∈ c_poolQ c →
  (work (mkCluster (c_nodes c) (c_pools c) (c_nodeQ c) (c_poolQ c ∖ {[name]})) < work c)%nat.
Proof.
  intros Hq. unfold work, c_names. simpl.
  assert (size (c_poolQ c ∖ {[name]}) < size (c_poolQ c))%nat by (apply subset_size; set_solver).
  assert (size (dom (c_pools c) ∪ c_poolQ c ∖ {[name]}) ≤ size (dom (c_pools c) ∪ c_poolQ c))%nat by (apply subseteq_size; set_solver).
  assert (size (filter (unsettled (mkCluster (c_nodes c) (c_pools c) (c_nodeQ c) (c_poolQ c ∖ {[name]}))) (c_poolQ c ∖ {[name]})) ≤
    size (filter (unsettled c) (c_poolQ c)))%nat.
  { apply subseteq_size. intros x [Hu Hx]%elem_of_filter. apply elem_of_filter. split; [exact Hu|set_solver]. }
  nia.
Qed.

Lemma ctl_step_work c c' : cluster_inv c → ctl_step c c' → (work c' < work c)%nat.
Proof.
  intros [Hn Hg _] Hs.
  destruct Hs as [n ns get own other acts c Hq Hown E|name c Hq Hno|name p c Hq Hl E|name p p' c Hq Hl E Hne];
    [|by apply work_drop|by apply work_drop|].
  - set (c' := mkCluster _ _ _ _). pose proof (pool_work_bound c') as Hb.
    assert (c_names c' = c_names c) as Hnames.
    { apply leibniz_equiv. unfold c_names. simpl. rewrite (pk_requested _ _ _ _ _ E).
      intros x. rewrite !elem_of_union, elem_of_list_to_set, Hown, elem_of_elements. tauto. }
    assert (size (c_nodeQ c') = size (c_nodeQ c) - 1)%nat as Hs
      by (simpl; rewrite size_difference, size_singleton by set_solver; done).
    assert (size (c_nodeQ c) ≠ 0)%nat by (apply size_non_empty_iff; set_solver).
    unfold work. rewrite Hs. rewrite Hnames in *. clearbody c'. destruct (size (c_nodeQ c)) as [|k]; [lia|].
    replace (S k - 1)%nat with k by lia. nia.
  - unfold work, c_names. simpl. rewrite dom_insert_lookup_L by (by eexists).
    destruct (pk_total (c_nodes c) p (Hg _ _ Hl) Hn) as (p1 & E1 & _ & E2 & _). rewrite E in E1. injection E1 as <-.
    set (c' := mkCluster _ (<[name:=p']> (c_pools c)) _ _).
    assert (size (filter (unsettled c') (c_poolQ c)) < size (filter (unsettled c) (c_poolQ c)))%nat; [|lia].
    apply subset_size. split.
    + intros x [Hu Hx]%elem_of_filter. apply elem_of_filter. split; [|done]. unfold unsettled, c' in *. simpl in Hu.
      destruct (decide (x = name)) as [->|]; [rewrite lookup_insert_eq in Hu; by destruct Hu|by rewrite lookup_insert_ne in Hu].
    + intros Hsub. assert (name ∈ filter (unsettled c) (c_poolQ c)) as Hin.
      { apply elem_of_filter. split; [|done]. unfold unsettled, settled. rewrite Hl. congruence. }
      apply Hsub, elem_of_filter in Hin as [Hu _]. unfold unsettled, c' in Hu. simpl in Hu. rewrite lookup_insert_eq in Hu.
      by destruct Hu.
Qed.

(** The controllers change nothing but the status of pools. *)
Definition same_objects (c c' : cluster) : Prop :=
  c_nodes c' = c_nodes c ∧ pk_user <$> c_pools c' = pk_user <$> c_pools c.

Lemma ctl_step_same c c' : cluster_inv c → ctl_step c c' → same_objects c c'.
Proof.
  intros [Hn Hg _] Hs. destruct Hs as [| | |name p p' c Hq Hl E Hne]; [done..|]. split; [done|]. simpl.
  destruct (pk_total (c_nodes c) p (Hg _ _ Hl) Hn) as (p1 & E1 & _ & _ & Hu). rewrite E in E1. injection E1 as <-.
  rewrite fmap_insert, Hu. apply insert_id. by rewrite lookup_fmap, Hl.
Qed.

Lemma ctl_steps_work n c c' : cluster_inv c → nsteps ctl_step n c c' →
  cluster_inv c' ∧ same_objects c c' ∧ (work c' + n ≤ work c)%nat.
Proof.
  intros Hi Hs. induction Hs as [c|n c c1 c2 Hs _ IH]; [split_and!; [done|done|lia]|].
  pose proof (ctl_step_work c c1 Hi Hs). destruct (ctl_step_same c c1 Hi Hs) as [E1 E2].
  destruct (IH (ctl_step_inv _ _ Hs Hi)) as (Hi2 & [E3 E4] & ?). split_and!; [done|split; congruence|lia].
Qed.

(** Nothing is left to do. *)
Definition at_rest (c : cluster) : Prop := c_nodeQ c = ∅ ∧ c_poolQ c = ∅.

(** A request can be served. *)
Lemma ctl_progress c : cluster_inv c → at_rest c ∨ ∃ c', ctl_step c c'.
Proof.
  intros [Hn Hg _]. destruct (set_choose_or_empty (c_nodeQ c)) as [[n Hq]|E].
  - right. set (own := elements (dom (c_pools c))).
    destruct (Node_Reconcile "" (NotFound (A := Node)) (Ok (pk_lists own []).1) (Ok (pk_lists own []).2)) as [acts [err|]] eqn:E; [done|].
    eexists. by eapply (ctl_node n "" NotFound own [] acts).
  - destruct (set_choose_or_empty (c_poolQ c)) as [[name Hq]|E']; [|left; split; by apply leibniz_equiv]. right.
    destruct (c_pools c !! name) as [p|] eqn:Hl; [|eexists; by eapply (ctl_gone name)].
    destruct (pk_total (c_nodes c) p (Hg _ _ Hl) Hn) as (p' & E1 & _ & _).
    destruct (decide (p' = p)) as [->|]; eexists; [by eapply (ctl_same name)|by eapply (ctl_update name)].
Qed.

(** From any reachable state on, if objects are not changed by others: there are at
    most [work c] steps, they end at rest, and then every pool is settled, with the
    nodes and all but the status of the pools as they were. *)
Lemma cluster_converges c :
  cluster_reachable c →
  (∀ n c', nsteps ctl_step n c c' → (n ≤ work c)%nat) ∧
  (∃ c', rtc ctl_step c c' ∧ at_rest c') ∧
  (∀ c', rtc ctl_step c c' → at_rest c' → same_objects c c' ∧
     map_Forall (λ _ p, nodes_ok (c_nodes c') ∧ pk_good p ∧ settled c' p) (c_pools c')).
Proof.
  intros Hi%cluster_reachable_inv. split_and!.
  - intros n c' Hs. destruct (ctl_steps_work n c c' Hi Hs) as (_ & _ & ?). lia.
  - remember (work c) as k eqn:Hk. revert c Hi Hk. induction k as [k IH] using lt_wf_ind. intros c Hi ->.
    destruct (ctl_progress c Hi) as [Hr|[c1 Hs]]; [by exists c|].
    destruct (IH (work c1) (ctl_step_work _ _ Hi Hs) c1 (ctl_step_inv _ _ Hs Hi) eq_refl) as (c' & Hr & Ha).
    exists c'. split; [by eapply rtc_l|done].
  - intros c' [n Hs]%rtc_nsteps_1 [Hq1 Hq2]. destruct (ctl_steps_work n c c' Hi Hs) as ([Hn Hg Hp] & Hsame & _).
    split; [done|]. intros name p Hl. split; [done|]. split; [by eapply Hg|]. destruct (Hp name p Hl) as [|[Hin|Hne]]; [done|set_solver|done].
Qed.
End cluster.
Arguments cluster : clear implicits.

Lemma omap_map_Some {A B} (f : B → option A) (g : A → B) l : (∀ x, f (g x) = Some x) → omap f (map g l) = l.
Proof. intros Hf. induction l as [|x l IH]; [done|]. cbn. rewrite Hf. by f_equal. Qed.

Lemma omap_map_None {A B C} (f : B → option C) (g : A → B) l : (∀ x, f (g x) = None) → omap f (map g l) = [].
Proof. intros Hf. induction l as [|x l IH]; [done|]. cbn. rewrite Hf. exact IH. Qed.

(** ** What a reconciliation stores *)

Section stored.
Context {P A : Type} (update_of : A → option P) (update : P → A).
Hypothesis update_of_update : ∀ p, update_of (update p) = Some p.

(** The pool after the actions of a reconciliation that succeeds. *)
Definition stored (r : option (list A * option error)) (p : P) : option P :=
  match r with Some (evs, None) => Some (default p (last (omap update_of evs))) | _ => None end.

Definition quiet (evs : list A) : Prop := Forall (λ a, update_of a = None) evs.

Lemma omap_quiet evs : quiet evs → omap update_of evs = [].
Proof. induction 1 as [|a evs Ha _ IH]; csimpl; [done|]. by rewrite Ha. Qed.

Lemma stored_quiet evs p : quiet evs → stored (Some (evs, None)) p = Some p.
Proof. intros Hq. unfold stored. by rewrite omap_quiet. Qed.

Lemma stored_update evs p q : quiet evs → stored (Some (evs ++ [update q], None)) p = Some q.
Proof using update_of_update.
  intros Hq. unfold stored. rewrite omap_app, omap_quiet by done. csimpl. by rewrite update_of_update.
Qed.
End stored.

(** ** IPPools *)

Section ippools.
Context `{K8sNames} `{NodeMatcher}.

Definition ippool_update (a : ippool_action) : option IPPool :=
  match a with UpdateIPPoolStatus p => Some p | IPPoolEvent _ _ => None end.

(** The namespace of the request is that of the controller. *)
Definition ippool_stored (nodes : list Node) (p : IPPool) : option IPPool :=
  stored ippool_update (IPPool_Reconcile never (ipp_Namespace p) (client_of p nodes) (mkRequest (ipp_Namespace p) (ipp_Name p))) p.

(** A valid pool has a subnet that is not an IPv4-mapped one, indexes of 32 bits,
    and one entry per node in its status, which only the controller writes. *)
Definition ippool_good (p : IPPool) : Prop :=
  IPPool_Validate p = [] →
  (∃ f base ones, subnet_denotes (Subnet (ipp_Spec p)) f base ones) ∧
  Forall int32_range (PerNodeExclusions (ipp_Spec p)) ∧ NoDup (map al_NodeName (ipp_Status p)).

(** The watch of the events the node controller sends ([SetupWithManager]). *)
Definition ippool_request (a : node_action) : option string :=
  match a with EnqueueIPPool req => Some (req_Name req) | EnqueueCIDRPool _ => None end.

#[global] Instance ippool_kind : PoolKind IPPool := {|
  pk_eq := IPPool_eq_dec;
  pk_reconcile := ippool_stored;
  pk_lists := λ own other, (own, other);
  pk_request := ippool_request;
  pk_good := ippool_good;
  pk_user := λ p, ipp_set_status p [];
|}.

(** A quiet list of actions. *)
Lemma ippool_quiet evs : Forall (λ a, ∀ p, a ≠ UpdateIPPoolStatus p) evs → quiet ippool_update evs.
Proof. intros Hev. eapply Forall_impl; [exact Hev|]. intros [p|] Ha; [by destruct (Ha p)|done]. Qed.

Lemma ippool_invalid nodes p : IPPool_Validate p ≠ [] → ippool_stored nodes p = Some (ipp_set_status p []).
Proof.
  intros Hv. unfold ippool_stored, IPPool_Reconcile. cbn [req_Namespace client_of ipc_get]. rewrite bool_decide_true by done.
  cbn [negb]. by rewrite bool_decide_false.
Qed.

Lemma ippool_stored_total nodes p :
  ippool_good p → nodes_ok nodes →
  ∃ p', ippool_stored nodes p = Some p' ∧ ippool_good p' ∧ ippool_stored nodes p' = Some p' ∧ ipp_set_status p' [] = ipp_set_status p [].
Proof.
  intros Hg [Hn _]. destruct (decide (IPPool_Validate p = [])) as [Hv|Hv].
  - destruct (Hg Hv) as ((f & base & ones & Hs) & H32 & Hst).
    destruct (reconcile_again f base ones p nodes (ipp_Namespace p) (ipp_Name p) (ipp_Namespace p) (ipp_Name p) Hs H32 Hv Hn Hst)
      as (evs & evs' & status & H1 & H2 & Hev & Hnd). apply Forall_app in Hev as [Hq%ippool_quiet Hq'%ippool_quiet].
    unfold ippool_stored. destruct (_ && _).
    + exists p. rewrite H1. by rewrite stored_quiet.
    + exists (ipp_set_status p status). rewrite H1. rewrite (stored_update ippool_update UpdateIPPoolStatus) by done. split; [done|].
      split; [|cbn [ipp_set_status ipp_Namespace ipp_Name]; by rewrite H2, stored_quiet].
      intros _. split; [by exists f, base, ones|by split].
  - exists (ipp_set_status p []). split; [by apply ippool_invalid|]. split; [intros Hv'; by destruct Hv|].
    by rewrite ippool_invalid.
Qed.

#[global] Instance ippool_laws : PoolKindLaws IPPool.
Proof.
  split; [apply ippool_stored_total|]. intros ns get own other acts E. simpl in E.
  assert (acts = map (λ n, EnqueueIPPool (mkRequest ns n)) own ++ map (λ n, EnqueueCIDRPool (mkRequest ns n)) other) as ->
    by (by destruct get; injection E as <-).
  by rewrite omap_app, omap_map_Some, omap_map_None, app_nil_r.
Qed.

(** The status of the pool [p] is right for the [nodes]: cleared if the pool is not
    valid; otherwise the entries are for matching nodes, one each, on different
    usable blocks that are not entirely excluded, and a matching node without an
    entry means that no block is left. *)
Definition status_right (nodes : list Node) (p : IPPool) : Prop :=
  if bool_decide (IPPool_Validate p = []) then
    ∃ f base ones, let cfg := ippool_config p in subnet_denotes (Subnet (ipp_Spec p)) f base ones ∧
      Forall (entry_ok f base ones cfg) (ipp_Status p) ∧ NoDup (map al_NodeName (ipp_Status p)) ∧
      NoDup (map al_StartIP (ipp_Status p)) ∧ (∀ e, e ∈ ipp_Status p → al_NodeName e ∈ sorted_names p nodes) ∧
      ∀ n, n ∈ sorted_names p nodes → n ∉ map al_NodeName (ipp_Status p) →
        ∀ i, usable f base ones cfg i → fully_excluded f cfg (bstart f base ones cfg i) ∨
          gateway_block f cfg (bstart f base ones cfg i) ∨
          addr_string f (bstart f base ones cfg i) ∈ map al_StartIP (ipp_Status p)
  else ipp_Status p = [].

Lemma settled_right nodes p :
  ippool_good p → nodes_ok nodes → ippool_stored nodes p = Some p → status_right nodes p.
Proof.
  intros Hg [Hn _] Hs. unfold status_right. case_bool_decide as Hv.
  - destruct (Hg Hv) as ((f & base & ones & Hsub) & H32 & Hst). exists f, base, ones.
    destruct (reconcile_status_spec f base ones p nodes (ipp_Namespace p) (ipp_Name p) Hsub H32 Hv Hn Hst)
      as (evs & status & HR & Hev & Hfacts).
    assert (ipp_Status p = status) as ->; [|done].
    unfold ippool_stored in Hs. rewrite HR in Hs. apply ippool_quiet in Hev. destruct (_ && _) eqn:E.
    + apply andb_true_iff in E as [_ E]. by boolify.
    + rewrite (stored_update ippool_update UpdateIPPoolStatus) in Hs by done. injection Hs as Hs. by rewrite <- Hs.
  - rewrite ippool_invalid in Hs by done. injection Hs as Hs. by rewrite <- Hs.
Qed.

End ippools.

(** ** CIDRPools *)

Section cidrpools.
Context `{K8sNames} `{NodeMatcher}.

Definition cidr_update (a : cidrpool_action) : option CIDRPool :=
  match a with UpdateCIDRPoolStatus p => Some p | CIDRPoolEvent _ _ => None end.

Definition cidr_stored (nodes : list Node) (p : CIDRPool) : option CIDRPool :=
  stored cidr_update (CIDRPool_Reconcile never (cp_Namespace p) (cidr_client p nodes) (mkRequest (cp_Namespace p) (cp_Name p))) p.

(** A valid pool has a network that is not an IPv4-mapped one, indexes of 32 bits,
    and prefixes in the form the controller itself gives them. *)
Definition cidr_good (p : CIDRPool) : Prop :=
  CIDRPool_Validate p = [] →
  (∃ f base ones, subnet_denotes (CIDR (cp_Spec p)) f base ones) ∧
  Forall int32_range (cp_PerNodeExclusions (cp_Spec p)) ∧ canonical_pool p.

Definition cidr_request (a : node_action) : option string :=
  match a with EnqueueCIDRPool req => Some (req_Name req) | EnqueueIPPool _ => None end.

#[global] Instance cidr_kind : PoolKind CIDRPool := {|
  pk_eq := CIDRPool_eq_dec;
  pk_reconcile := cidr_stored;
  pk_lists := λ own other, (other, own);
  pk_request := cidr_request;
  pk_good := cidr_good;
  pk_user := λ p, cp_set_status p [];
|}.

Lemma cidr_quiet evs : Forall (λ a, ∀ p, a ≠ UpdateCIDRPoolStatus p) evs → quiet cidr_update evs.
Proof. intros Hev. eapply Forall_impl; [exact Hev|]. intros [p|] Ha; [by destruct (Ha p)|done]. Qed.

Lemma cidr_invalid nodes p : CIDRPool_Validate p ≠ [] → cidr_stored nodes p = Some (cp_set_status p []).
Proof.
  intros Hv. unfold cidr_stored, CIDRPool_Reconcile. cbn [req_Namespace cidr_client cpc_get]. rewrite bool_decide_true by done.
  cbn [negb]. by rewrite bool_decide_false.
Qed.

Lemma cidr_stored_total nodes p :
  cidr_good p → nodes_ok nodes →
  ∃ p', cidr_stored nodes p = Some p' ∧ cidr_good p' ∧ cidr_stored nodes p' = Some p' ∧ cp_set_status p' [] = cp_set_status p [].
Proof.
  intros Hg [_ Hn]. destruct (decide (CIDRPool_Validate p = [])) as [Hv|Hv].
  - destruct (Hg Hv) as ((f & base & ones & Hs) & H32 & Hc).
    destruct (cidr_reconcile_again f base ones p nodes (cp_Namespace p) (cp_Name p) (cp_Namespace p) (cp_Name p) Hs H32 Hv Hc Hn)
      as (evs & evs' & status & H1 & H2 & Hev & Hc'). apply Forall_app in Hev as [Hq%cidr_quiet Hq'%cidr_quiet].
    unfold cidr_stored. destruct (_ && _).
    + exists p. rewrite H1. by rewrite stored_quiet.
    + exists (cp_set_status p status). rewrite H1. rewrite (stored_update cidr_update UpdateCIDRPoolStatus) by done. split; [done|].
      split; [|cbn [cp_set_status cp_Namespace cp_Name]; by rewrite H2, stored_quiet].
      intros _. split; [by exists f, base, ones|by split].
  - exists (cp_set_status p []). split; [by apply cidr_invalid|]. split; [intros Hv'; by destruct Hv|].
    by rewrite cidr_invalid.
Qed.

#[global] Instance cidr_laws : PoolKindLaws CIDRPool.
Proof.
  split; [apply cidr_stored_total|]. intros ns get own other acts E. simpl in E.
  assert (acts = map (λ n, EnqueueIPPool (mkRequest ns n)) other ++ map (λ n, EnqueueCIDRPool (mkRequest ns n)) own) as ->
    by (by destruct get; injection E as <-).
  rewrite omap_app, omap_map_None by done. by apply omap_map_Some.
Qed.

(** The status of the pool [p] is right for the [nodes]: cleared if the pool is not
    valid; otherwise each entry is for a matching node and has a prefix of the pool,
    the networks of different nodes have no address in common, and a matching node
    without an entry means that no prefix is left. *)
Definition cidr_status_right (nodes : list Node) (p : CIDRPool) : Prop :=
  if bool_decide (CIDRPool_Validate p = []) then
    ∃ f base ones, subnet_denotes (CIDR (cp_Spec p)) f base ones ∧
      entries_disjoint f base ones p (cidr_names p nodes) (cp_Status p) ∧
      entries_complete f base ones p (cidr_names p nodes) (cp_Status p)
  else cp_Status p = [].

Lemma cidr_settled_right nodes p :
  cidr_good p → nodes_ok nodes → cidr_stored nodes p = Some p → cidr_status_right nodes p.
Proof.
  intros Hg _ Hs. unfold cidr_status_right. case_bool_decide as Hv.
  - destruct (Hg Hv) as ((f & base & ones & Hsub) & H32 & Hc). exists f, base, ones. split; [done|].
    pose proof (CIDRPool_Validate_ok f base ones p Hsub H32 Hv) as Hok. pose proof Hsub as [_ Hnet].
    destruct (cidr_reconcile_spec f base ones p nodes (cp_Namespace p) (cp_Name p) Hsub H32 Hv Hc)
      as (evs & m & HR & Hev & Hinv & Hsv & Hdom).
    assert (cp_Status p = sortedAllocations m.1) as ->; [|split; [by apply maps_disjoint|by apply maps_complete]].
    unfold cidr_stored in Hs. rewrite HR in Hs. apply cidr_quiet in Hev. destruct (_ && _) eqn:E.
    + apply andb_true_iff in E as [_ E]. by boolify.
    + rewrite (stored_update cidr_update UpdateCIDRPoolStatus) in Hs by done. injection Hs as Hs. by rewrite <- Hs.
  - rewrite cidr_invalid in Hs by done. injection Hs as Hs. by rewrite <- Hs.
Qed.

(** C4: The same for CIDRPools whose valid specifications write their prefixes
    canonically ([cidr_good]; of others [static_prefix_duplicated] shows that two
    nodes can get one network): once nodes and pools are left alone, the controllers
    stop after at most [work c] requests, and then every pool has the right status:
    disjoint networks, and no matching node left out while a prefix is free; the
    status of a pool that is not valid is empty. *)
Theorem cidrpool_controller_converges (c : cluster CIDRPool) :
  cluster_reachable c →
  (∀ n c', nsteps ctl_step n c c' → (n ≤ work c)%nat) ∧
  (∃ c', rtc ctl_step c c' ∧ at_rest c') ∧
  ∀ c', rtc ctl_step c c' → at_rest c' →
    same_objects c c' ∧ map_Forall (λ _ p, cidr_status_right (c_nodes c') p) (c_pools c').
Proof.
  intros (Hb & Hr & Hd)%cluster_converges. split_and!; [done..|]. intros c' Hs Ha. destruct (Hd c' Hs Ha) as [Hsame Hall].
  split; [done|]. eapply map_Forall_impl; [exact Hall|]. intros _ p (Hn & Hg & Hst). by apply cidr_settled_right.
Qed.
End cidrpools.

(** ** Concrete clusters *)

Lemma example_nodes_ok : nodes_ok example_nodes.
Proof. split; [apply (bool_decide_unpack _); vm_compute; exact I|repeat constructor; done]. Qed.

(** A new node joins while the controllers run. *)
Definition joined (P : Type) (name : string) (p : P) : cluster P :=
  mkCluster (mkNode "node4" [("role", "worker")] :: example_nodes) {[name := p]} ({["node4"]} ∪ ∅) {[name]}.

Lemma joined_reachable {P : Type} `{PoolKindLaws P} name (p : P) : pk_good p → cluster_reachable (joined P name p).
Proof.
  intros Hg. exists (mkCluster example_nodes {[name := p]} ∅ {[name]}). split.
  - split; [apply example_nodes_ok|]. split; [by apply map_Forall_singleton|]. simpl. by rewrite dom_singleton.
  - apply rtc_once. left. refine (env_node "node4" (mkNode "node4" [("role", "worker")] :: example_nodes) (mkCluster example_nodes _ _ _) _ _).
    + split; [apply (bool_decide_unpack _); vm_compute; exact I|repeat constructor; done].
    + intros m Hm. simpl. rewrite (elem_of_cons _ m). split; [by right|by intros [->|]].
Qed.


Lemma cidrpool_controller_converges_witness :
  let c := joined CIDRPool "pool2" example_cidrpool in
  ∃ c', rtc (ctl_step (H := @cidr_kind nonempty_names exists_matcher)) c c' ∧ at_rest c' ∧
    map_Forall (λ _ p, @cidr_status_right nonempty_names exists_matcher (c_nodes c') p) (c_pools c').
Proof.
  intros c. destruct (@cidrpool_controller_converges nonempty_names exists_matcher c) as (_ & (c' & Hs & Ha) & Hd).
  - apply joined_reachable. intros _. split; [exists F6, (0xfd522eb50044 * 2 ^ 80), 48; exact example_cidrpool_subnet|].
    split; [repeat constructor; by vm_compute|exact example_canonical].
  - exists c'. split; [exact Hs|]. split; [exact Ha|apply (Hd c' Hs Ha)].
Defined.

(** One pass for the pool with the node that joined. *)
Example joined_run :
  option_map ipp_Status (@ippool_stored nonempty_names exists_matcher (c_nodes (joined IPPool "pool1" example_status_pool)) example_status_pool) =
  Some [mkAllocation "node1" "192.168.0.1" "192.168.0.10"; mkAllocation "node2" "192.168.0.31" "192.168.0.40";
        mkAllocation "node3" "192.168.0.11" "192.168.0.20"; mkAllocation "node4" "192.168.0.41" "192.168.0.50"].
Proof. vm_compute. reflexivity. Qed.
