(* ===== verification/Daemon.v ===== *)
(** * The node daemon: [RunNodeDaemon] of [cmd/ipam-node/app/app.go]

    The daemon runs the gRPC handlers, the cleaner and the controllers of the node
    side by side, on one store and one pool manager.  What it does is a sequence of
    events: requests, passes of the cleaner, reconciliations, restarts.  A handler
    or a pass holds the lock of the store from its start to its end, so that events
    do not interleave on the store; the pool manager does not change during an
    event.  [None] is a panic.

    The theorem says that an address is not given away while it is in use. *)

From Stdlib Require Import Strings.Byte.
From S2P Require Import Prelude GoNet Cidr GoNetText PoolManager NodeTypes Store SessionRuns RangeSet NodeAllocator.
From S2P Require Import Handlers HandlersSpec Cleaner CleanerSpec.
From S2P Require Import ApiTypes Exclusions Validate CtrlIPPool NodeControllers System.

Record daemon := mkDaemon { d_manager : manager; d_store : store; d_cleaner : cleaner }.

(** A daemon that does not run has left its file. *)
Inductive process := Stopped (file : option (list byte)) | Running (d : daemon).

Inductive event :=
| EvAllocate (e : Env) (req : option IPAMParameters)
| EvDeallocate (e : Env) (req : option IPAMParameters)
| EvIsAllocated (e : Env) (req : option IPAMParameters)
| EvClean (now : Clock) (readable writable : bool) (cached direct : client)
| EvIPPool (get : get_result IPPool) (req : Request)
| EvCIDRPool (get : get_result CIDRPool) (req : Request)
| EvRestart (readable : bool).

Inductive answer :=
| AnsAllocate (r : result status (list AllocationInfo))
| AnsDone (r : result status unit)
| AnsError (err : option error)
| AnsNone.

Section daemon.
Context `{RootCodec} `{K8sNames} (Pool_String : Pool → string).
(** The options of the daemon: its node, the number of checks before a release, the cooldown. *)
Context (nodeName : string) (checkCount cooldown : Z).

Definition file_of (p : process) : option (list byte) :=
  match p with Stopped file => file | Running d => disk (d_store d) end.

(** The start: the store is opened once, to check the file. *)
Definition StartDaemon (readable : bool) (file : option (list byte)) : option (process * option error) :=
  r ← Open readable (mkStore file None false);
  match r with
  | OpenBlocks => None
  | OpenFailed _ err => Some (Stopped file, Some err)
  | Opened st s =>
      '(st, _) ← Cancel st s;
      Some (Running (mkDaemon NewManager st (NewCleaner checkCount cooldown)), None)
  end.

Definition handlers_of (d : daemon) : Handlers := mkHandlers (d_manager d) cooldown.
Definition with_store (d : daemon) (st : store) : process := Running (mkDaemon (d_manager d) st (d_cleaner d)).
Definition with_manager (d : daemon) (m : manager) : process := Running (mkDaemon m (d_store d) (d_cleaner d)).

Definition serve (ev : event) (d : daemon) : option (process * answer) :=
  match ev with
  | EvAllocate e req =>
      '(st, r) ← Handlers_Allocate Pool_String e (handlers_of d) (d_store d) req; Some (with_store d st, AnsAllocate r)
  | EvDeallocate e req =>
      '(st, r) ← Handlers_Deallocate e (handlers_of d) (d_store d) req; Some (with_store d st, AnsDone r)
  | EvIsAllocated e req =>
      '(st, r) ← Handlers_IsAllocated e (handlers_of d) (d_store d) req; Some (with_store d st, AnsDone r)
  | EvClean now readable writable cached direct =>
      '(st, c, err) ← cleaner_loop (mkPassEnv now readable writable cached direct (d_manager d)) (d_cleaner d) (d_store d);
      Some (Running (mkDaemon (d_manager d) st c), AnsError err)
  | EvIPPool get req =>
      let '(m, err) := Node_IPPool_Reconcile nodeName get (d_manager d) req in Some (with_manager d m, AnsError err)
  | EvCIDRPool get req =>
      '(m, err) ← Node_CIDRPool_Reconcile nodeName get (d_manager d) req; Some (with_manager d m, AnsError err)
  | EvRestart readable =>
      '(p, err) ← StartDaemon readable (disk (d_store d)); Some (p, AnsError err)
  end.

(** A process that is stopped answers nothing; it can be started. *)
Definition handle (ev : event) (p : process) : option (process * answer) :=
  match p, ev with
  | Running d, _ => serve ev d
  | Stopped file, EvRestart readable => '(p, err) ← StartDaemon readable file; Some (p, AnsError err)
  | Stopped file, _ => Some (Stopped file, AnsNone)
  end.

Fixpoint run (evs : list event) (p : process) : option (process * list answer) :=
  match evs with
  | [] => Some (p, [])
  | ev :: evs => '(p, a) ← handle ev p; '(p, l) ← run evs p; Some (p, a :: l)
  end.
End daemon.

(** ** A reservation in use *)

(** The names of the data and of a reservation survive a session without them. *)
Lemma names_ok_entries r r' :
  (∀ pk k x', Entries (getPoolData pk r') !! k = Some x' →
     (∃ x, Entries (getPoolData pk r) !! k = Some x ∧ ContainerID x = ContainerID x') ∨ (no_pipe pk ∧ no_pipe (ContainerID x'))) →
  names_ok r → names_ok r'.
Proof. intros He Hr pk k x' Hx'. destruct (He _ _ _ Hx') as [(x & Hx & <-)|?]; [by eapply Hr|done]. Qed.

Section reserved.
Context (pk k : string) (x : Reservation).

(** The data has the reservation [x], up to the form of its address. *)
Definition data_holds (r : Root) : Prop :=
  names_ok r ∧ ∃ y, Entries (getPoolData pk r) !! k = Some y ∧ norm_reservation y = norm_reservation x.

Lemma data_holds_equiv r r' : root_equiv r r' → data_holds r → data_holds r'.
Proof using Type.
  intros E [Hn (y & Hy & Ey)]. split.
  - eapply names_ok_entries; [|done]. intros pk' k' x' Hx'. left.
    destruct (root_equiv_entries _ _ _ _ _ E Hx') as (z & Hz & Ez). exists z. split; [done|]. by injection Ez.
  - assert (root_equiv r' r) as E' by done. destruct (root_equiv_entries _ _ _ _ _ E' Hy) as (z & Hz & Ez). exists z. split; [done|congruence].
Qed.
End reserved.

(** ** The events, one by one *)

(** The names a request brings into the store. *)
Definition request_named (params : IPAMParameters) : Prop :=
  no_pipe (CniContainerid params) ∧ ∀ pn, pn ∈ pa_Pools params → no_pipe (pool_key params pn).

Lemma granted_entries Pool_String now h ps s s' pools allocs pk k y :
  all_granted Pool_String now h ps s s' pools allocs → Entries (pool_of s' pk) !! k = Some y →
  Entries (pool_of s pk) !! k = Some y ∨
  (∃ pn, pn ∈ pools ∧ pk = pool_key ps pn) ∧ ContainerID y = CniContainerid ps ∧
    Entries (pool_of s pk) !! k = None.
Proof.
  intros [Hall Hut] Hy. destruct (decide (Exists (λ pn, pk = pool_key ps pn) pools)) as [Hex|Hno].
  - apply Exists_exists in Hex as (pn & Hin & ->). destruct (Forall2_elem_l _ _ _ _ Hall Hin) as (a & _ & Hg).
    destruct Hg as [p f base ones lo hi want ip z _ _ _ _ _ _ _ _ _ _ (Hnone & _ & Hent)]. rewrite Hent in Hy.
    apply lookup_insert_Some in Hy as [[<- <-]|[_ Hy]]; [right|by left]. split_and!; [by exists pn|done|done].
  - left. rewrite Hut in Hy; [done|]. intros pn Hin ->. apply Hno, Exists_exists. by exists pn.
Qed.

Lemma granted_kept Pool_String now h ps s s' pools allocs pk k y :
  all_granted Pool_String now h ps s s' pools allocs → Entries (pool_of s pk) !! k = Some y →
  Entries (pool_of s' pk) !! k = Some y.
Proof.
  intros [Hall Hut] Hy. destruct (decide (Exists (λ pn, pk = pool_key ps pn) pools)) as [Hex|Hno].
  - apply Exists_exists in Hex as (pn & Hin & ->). destruct (Forall2_elem_l _ _ _ _ Hall Hin) as (a & _ & Hg).
    destruct Hg as [p f base ones lo hi want ip z _ _ _ _ _ _ _ _ _ _ (Hnone & _ & Hent)]. rewrite Hent.
    rewrite lookup_insert_ne; [done|]. intros <-. congruence.
  - rewrite Hut; [done|]. intros pn Hin ->. apply Hno, Exists_exists. by exists pn.
Qed.

(** The address of an allocation is not one that is reserved. *)
Lemma granted_not_reserved Pool_String now h ps s s' pn a type k y :
  granted Pool_String now h ps s s' pn a → Entries (pool_of s (pool_key ps pn)) !! k = Some y →
  ∃ ip n, ParseCIDR (ai_Ip (allocationInfo type a)) = Some (ip, n) ∧ ¬ ip_equiv ip (IPAddress y).
Proof.
  intros [p f base ones lo hi want ip z _ [Hn _ _ _ _] _ Hip Hz _ _ HA _ _ (_ & Htaken & _)] Hy.
  assert (ai_Ip (allocationInfo type a) = IPNet_String (Address (pal_IPConfig a))) as ->
    by (unfold allocationInfo; by destruct (is_nil _)).
  rewrite HA, (ParseCIDR_address _ _ _ _ _ Hn Hip Hz). eexists _, _. split; [done|]. unfold ip_equiv.
  rewrite addr_of_To16_ip_of by (by eapply addr_of_ok). intros E.
  unfold session_taken in Htaken. apply not_true_iff_false in Htaken. apply Htaken, existsb_exists. exists (k, y).
  split; [by apply list_elem_of_In, elem_of_map_to_list|]. simpl.
  by rewrite (IP_Equal_addr _ _ _ _ _ _ Hip (eq_sym E)), bool_decide_true.
Qed.

Lemma release_entries now s pk id ifn cd s' b pk' k y :
  ReleaseReservationByID now s pk id ifn cd = Some (s', b) → Entries (pool_of s' pk') !! k = Some y →
  ∃ z, Entries (pool_of s pk') !! k = Some z ∧ ContainerID z = ContainerID y.
Proof.
  intros E%Release_cases Hy. cbv zeta in E. destruct (Entries _ !! _) as [r|] eqn:Er; [|destruct E as [-> _]; eauto].
  destruct (_ || _); [|destruct (IsReleased r)]; destruct E as [-> _]; [|by eauto|];
    rewrite pool_of_update in Hy; (destruct (decide (pk' = pk)) as [->|]; [|by eauto]); simpl in Hy.
  - apply lookup_delete_Some in Hy as [_ Hy]. eauto.
  - apply lookup_insert_Some in Hy as [[<- <-]|[_ Hy]]; [|by eauto]. by exists r.
Qed.

Lemma deallocate_entries now h ps pools s s' res pk k y :
  deallocate_pools now h ps pools s = Some (s', res) → Entries (pool_of s' pk) !! k = Some y →
  ∃ z, Entries (pool_of s pk) !! k = Some z ∧ ContainerID z = ContainerID y.
Proof.
  revert s y. induction pools as [|pn pools IH]; intros s y; simpl; [intros [= <- <-]; eauto|].
  intros ([s1 b] & E & Hd)%bind_Some Hy. destruct (IH _ _ Hd Hy) as (z & Hz & Ez).
  destruct (release_entries _ _ _ _ _ _ _ _ _ _ _ E Hz) as (z' & Hz' & Ez'). exists z'. split; [done|congruence].
Qed.

Section daemon_facts.
Context `{RootCodecLaws} `{K8sNames} (Pool_String : Pool → string) (nodeName : string) (checkCount cooldown : Z).
Context (pk k : string) (x : Reservation).

(** A process in good order whose data has the reservation. *)
Definition process_holds (p : process) : Prop :=
  match p with
  | Running d => reachable (d_store d, None) ∧ cfg_nets (handlers_of cooldown d) ∧
      ∃ r, loaded (d_store d) r ∧ data_holds pk k x r
  | Stopped file => reachable (mkStore file None false, None) ∧ ∃ r, stored file r ∧ data_holds pk k x r
  end.

(** What an event must not do: release the reservation on request, or miss its
    pod.  The names of requests have no ["|"], the networks of the pools, where
    the texts are networks, are not IPv6 networks of IPv4-mapped addresses, and
    the indexes of a CIDRPool are 32-bit integers, as in its type.  The pools need
    not be valid. *)
Definition respects (ev : event) : Prop :=
  match ev with
  | EvAllocate _ req => ∀ params, req = Some params → request_named (setDefaultsToParams params)
  | EvDeallocate _ req => ∀ params, req = Some params → let ps := setDefaultsToParams params in
      k = res_key ps → ∀ pn, pn ∈ pa_Pools ps → pk ≠ pool_key ps pn
  | EvIsAllocated _ _ | EvRestart _ => True
  | EvClean now rd wr cached direct => pod_present (mkPassEnv now rd wr cached direct NewManager) pk x = Some true
  | EvIPPool (Found pool) _ => not_mapped (Subnet (ipp_Spec pool))
  | EvCIDRPool (Found pool) _ => not_mapped (CIDR (cp_Spec pool)) ∧
      (∀ a, a ∈ cp_Status pool → not_mapped (ca_Prefix a)) ∧ Forall int32_range (cp_PerNodeExclusions (cp_Spec pool))
  | EvIPPool _ _ | EvCIDRPool _ _ => True
  end.

(** The address of the reservation is in no answer for its pool. *)
Definition answer_excludes (a : answer) : Prop :=
  match a with
  | AnsAllocate (Ok infos) => ∀ info, info ∈ infos → GetPoolKey (ai_Pool info) (poolTypeAsString (ai_PoolType info)) = pk →
      ∃ ip n, ParseCIDR (ai_Ip info) = Some (ip, n) ∧ ¬ ip_equiv ip (IPAddress x)
  | _ => True
  end.

Lemma reachable_trans st st' : reachable (st, None) → rtc step (st, None) (st', None) → reachable (st', None).
Proof. intros (x0 & ? & ?) ?. exists x0. split; [done|by etrans]. Qed.

Lemma norm_ip_equiv y ip : norm_reservation y = norm_reservation x → ¬ ip_equiv ip (IPAddress y) → ¬ ip_equiv ip (IPAddress x).
Proof.
  intros E Hne He. apply Hne. injection E as _ _ E _ _. unfold ip_equiv in *. rewrite He.
  rewrite <- (NormalizeIP_idem (IPAddress x)), <- (NormalizeIP_idem (IPAddress y)). by rewrite E.
Qed.

Lemma data_holds_run r r' s' :
  data_holds pk k x r → Pools r' = Pools (tmpData s') →
  (∀ y, Entries (getPoolData pk r) !! k = Some y → Entries (pool_of s' pk) !! k = Some y) →
  (∀ pk' k' y', Entries (pool_of s' pk') !! k' = Some y' →
     (∃ y, Entries (getPoolData pk' r) !! k' = Some y ∧ ContainerID y = ContainerID y') ∨
     (no_pipe pk' ∧ no_pipe (ContainerID y'))) →
  data_holds pk k x r'.
Proof.
  intros [Hn (y & Hy & Ey)] Hp Hk He. assert (∀ pk', getPoolData pk' r' = pool_of s' pk') as Ep
    by (intros pk'; by apply getPoolData_Pools). split.
  - eapply names_ok_entries; [|done]. intros pk' k' y'. rewrite Ep. apply He.
  - exists y. rewrite Ep. auto.
Qed.

(** A handler that fails. *)
Lemma holds_same_data d st' :
  process_holds (Running d) → rtc step (d_store d, None) (st', None) → same_data (d_store d) st' →
  process_holds (with_store d st').
Proof.
  intros (Hr & Hc & r & Hld & Hd) Hst Hs. split; [by eapply reachable_trans|]. split; [done|].
  exists r. split; [by eapply same_data_loaded|done].
Qed.

Lemma holds_committed d st' r' :
  process_holds (Running d) → rtc step (d_store d, None) (st', None) → persistedData st' = Some r' → data_holds pk k x r' →
  process_holds (with_store d st').
Proof.
  intros (Hr & Hc & _) Hst Hp Hd. split; [by eapply reachable_trans|]. split; [done|]. exists r'. split; [by left|done].
Qed.

Lemma allocate_holds d e req :
  process_holds (Running d) → respects (EvAllocate e req) →
  ∃ p a, serve Pool_String nodeName checkCount cooldown (EvAllocate e req) d = Some (p, a) ∧ process_holds p ∧ answer_excludes a.
Proof.
  intros Hd Hreq. pose proof Hd as (Hr & Hc & r0 & Hld0 & Hdata).
  destruct (with_session_spec (handler_op (env_now e) cooldown) _ _ e (d_store d) req (machine_reachable_inv _ Hr)
    (handler_op_texts_ok _ _) (λ ps s, allocate_reply_spec Pool_String (env_now e) (handlers_of cooldown d) cooldown ps s Hc))
    as (st' & res & E & Hst & Hl & Hres). cbn [serve]. unfold Handlers_Allocate. rewrite E. cbn [mbind option_bind].
  eexists _, _. split; [done|]. destruct res as [infos|err]; [|split; [apply holds_same_data; tauto|done]].
  destruct Hres as (params & r & s' & r' & -> & _ & Hld & _ & (allocs & -> & Hall & _) & Hp & Hpools).
  rewrite (loaded_inj _ _ _ Hld Hld0) in *. specialize (Hreq _ eq_refl) as [Hcid Hpn].
  split; [eapply holds_committed; [done..|]; eapply data_holds_run; [done..| |]|].
  - intros y Hy. eapply granted_kept; [done|]. by rewrite pool_of_newStore.
  - intros pk' k' y' Hy'. destruct (granted_entries _ _ _ _ _ _ _ _ _ _ _ Hall Hy') as [Ho|((pn & Hin & ->) & -> & _)].
    + left. exists y'. by rewrite <- (pool_of_newStore r0).
    + right. split; [by apply Hpn|done].
  - intros info Hin Hkey. apply list_elem_of_fmap in Hin as (pal & -> & Hpal).
    destruct (Forall2_elem_r _ _ _ _ (proj1 Hall) Hpal) as (pn & _ & Hg).
    assert (pal_Pool pal = pn) as Hn by (by destruct Hg).
    assert (pool_key (setDefaultsToParams params) pn = pk) as Ek.
    { rewrite <- Hkey, <- Hn. unfold allocationInfo, pool_key. by destruct (is_nil _). }
    destruct Hdata as [_ (y & Hy & Ey)].
    destruct (granted_not_reserved _ _ _ _ _ _ _ _ (pa_PoolType (setDefaultsToParams params)) k y Hg) as (ip & n & Ep & Hne).
    { by rewrite Ek, pool_of_newStore. }
    exists ip, n. split; [done|]. by eapply norm_ip_equiv.
Qed.

Lemma deallocate_holds d e req :
  process_holds (Running d) → respects (EvDeallocate e req) →
  ∃ p a, serve Pool_String nodeName checkCount cooldown (EvDeallocate e req) d = Some (p, a) ∧ process_holds p ∧ answer_excludes a.
Proof.
  intros Hd Hreq. pose proof Hd as (Hr & Hc & r0 & Hld0 & Hdata). set (h := handlers_of cooldown d).
  destruct (with_session_spec (handler_op (env_now e) cooldown) (λ ps s, deallocate_pools (env_now e) h ps (pa_Pools ps) s)
    (λ ps s s' res, deallocate_pools (env_now e) h ps (pa_Pools ps) s = Some (s', res) ∧ untouched ps s s' (pa_Pools ps) ∧
       ∀ pk k, k ≠ res_key ps → Entries (pool_of s' pk) !! k = Entries (pool_of s pk) !! k)
    e (d_store d) req (machine_reachable_inv _ Hr) (handler_op_texts_ok _ _)) as (st' & res & E & Hst & Hl & Hres).
  { intros ps s Ho _. destruct (deallocate_pools_spec (env_now e) h ps (pa_Pools ps) s Ho) as (s' & ? & ? & _ & _ & ? & ?).
    eexists _, _. split_and!; done. }
  cbn [serve]. unfold Handlers_Deallocate. fold h. rewrite E. cbn [mbind option_bind].
  eexists _, _. split; [done|]. split; [|done]. destruct res as [[]|err]; [|apply holds_same_data; tauto].
  destruct Hres as (params & r & s' & r' & -> & _ & Hld & _ & (Hdl & Hut & Hfr) & Hp & Hpools).
  rewrite (loaded_inj _ _ _ Hld Hld0) in *. specialize (Hreq _ eq_refl). cbv zeta in Hreq.
  eapply holds_committed; [done..|]. eapply data_holds_run; [done..| |].
  - intros y Hy. rewrite <- (pool_of_newStore r0) in Hy. destruct (decide (k = res_key (setDefaultsToParams params))) as [Ek|Hne].
    + rewrite Hut; [done|]. intros pn Hin. by apply Hreq.
    + by rewrite Hfr.
  - intros pk' k' y' Hy'. left. destruct (deallocate_entries _ _ _ _ _ _ _ _ _ _ Hdl Hy') as (z & Hz & Ez).
    rewrite pool_of_newStore in Hz. by exists z.
Qed.

Lemma isallocated_holds d e req :
  process_holds (Running d) →
  ∃ p a, serve Pool_String nodeName checkCount cooldown (EvIsAllocated e req) d = Some (p, a) ∧ process_holds p ∧ answer_excludes a.
Proof.
  intros Hd. pose proof Hd as (Hr & Hc & r0 & Hld0 & Hdata).
  destruct (with_session_spec (handler_op (env_now e) cooldown) (λ ps s, isAllocated_pools ps (pa_Pools ps) s)
    (λ ps s s' res, s' = s) e (d_store d) req (machine_reachable_inv _ Hr) (handler_op_texts_ok _ _)) as (st' & res & E & Hst & Hl & Hres).
  { intros ps s Ho _. destruct (isAllocated_pools_spec ps (pa_Pools ps) s Ho) as (res & ? & _). by exists s, res. }
  cbn [serve]. unfold Handlers_IsAllocated. rewrite E. cbn [mbind option_bind].
  eexists _, _. split; [done|]. split; [|done]. destruct res as [[]|err]; [|apply holds_same_data; tauto].
  destruct Hres as (params & r & s' & r' & -> & _ & Hld & _ & -> & Hp & Hpools).
  rewrite (loaded_inj _ _ _ Hld Hld0) in *. eapply holds_committed; [done..|]. eapply data_holds_run; [done..| |].
  - intros y. by rewrite pool_of_newStore.
  - intros pk' k' y'. rewrite pool_of_newStore. eauto.
Qed.

Lemma clean_holds d now rd wr cached direct :
  IsReleased x = false → has_pod x = true →
  process_holds (Running d) → respects (EvClean now rd wr cached direct) →
  ∃ p a, serve Pool_String nodeName checkCount cooldown (EvClean now rd wr cached direct) d = Some (p, a) ∧
    process_holds p ∧ answer_excludes a.
Proof.
  intros Hrel Hpod (Hr & Hc & r & Hld & Hn & y & Hy & Ey) Hpres.
  set (e := mkPassEnv now rd wr cached direct (d_manager d)).
  destruct (cleaner_loop_spec e (d_cleaner d) (d_store d) Hr) as (st' & c' & err & E & _).
  { intros r' Hr'. by rewrite (loaded_inj _ _ _ Hr' Hld). }
  destruct (pass_once _ _ _ _ _ _ _ Hr Hld Hn E) as (Hr' & _ & _ & r' & Hld' & Hn' & Hcl).
  cbn [serve]. fold e. rewrite E. cbn [mbind option_bind]. eexists _, _. split; [done|]. split; [|done].
  split; [done|]. split; [done|]. exists r'. split; [done|]. split; [done|]. destruct err as [err|]; [subst r'; by exists y|].
  exists y. split; [|done]. rewrite <- ent_newStore, (cl_entry _ _ _ _ _ _ _ Hcl), ent_newStore, Hy. simpl.
  assert (IsReleased y = false ∧ has_pod y = true ∧ pod_present e pk y = Some true) as (Hrel' & Hpod' & Hpres').
  { injection Ey as E1 E2 _ E4 E5. unfold IsReleased, has_pod, pod_present, getStaleAllocKey in *.
    rewrite E1, E2, E4, E5. done. }
  unfold pass_entry, pass_count. by rewrite Hrel', Hpod', Hpres'.
Qed.

Lemma restart_holds rd file :
  reachable (mkStore file None false, None) → (∃ r, stored file r ∧ data_holds pk k x r) →
  ∃ p err, StartDaemon checkCount cooldown rd file = Some (p, err) ∧ process_holds p.
Proof.
  intros Hr (r & [Hdisk Hu] & Hd). unfold StartDaemon.
  destruct (Open_total rd (mkStore file None false) eq_refl) as [[err ->]|(r' & Hld & ->)]; cbn [mbind option_bind].
  { eexists _, _. split; [done|]. split; [done|]. by exists r. }
  unfold Cancel. simpl. eexists _, _. split; [done|]. split.
  { eapply reachable_trans; [done|]. eapply rtc_l; [|apply rtc_once].
    - apply (step_open true). destruct Hld as [|[_ Hl]]; [done|]. unfold Open. simpl in *. by rewrite Hl.
    - eapply step_cancel. unfold Cancel. done. }
  split; [apply cfg_nets_new|]. exists r'. split; [by left|].
  eapply data_holds_equiv; [|done]. eapply on_disk_unique; [done|].
  by eapply (loaded_inv (mkStore file None false)) in Hld as [? _]; [|by apply machine_reachable_inv].
Qed.

Lemma holds_manager d m :
  process_holds (Running d) → cfg_nets (mkHandlers m cooldown) → process_holds (with_manager d m).
Proof. intros (Hr & _ & Hd) Hm. done. Qed.

Lemma ippool_holds d get req :
  process_holds (Running d) → respects (EvIPPool get req) →
  ∃ p a, serve Pool_String nodeName checkCount cooldown (EvIPPool get req) d = Some (p, a) ∧ process_holds p ∧ answer_excludes a.
Proof.
  intros Hd Hev. pose proof Hd as (_ & Hc & _). cbn [serve]. destruct (Node_IPPool_Reconcile _ _ _ _) as [m err] eqn:E.
  eexists _, _. split; [done|]. split; [|done]. apply holds_manager; [done|]. unfold Node_IPPool_Reconcile in E.
  destruct get as [pool| |err']; [|injection E as <- <-; by apply cfg_nets_remove|by injection E as <- <-].
  destruct (Node_IPPool_nets nodeName pool (d_manager d) cooldown req) as [Hm _]; [exact Hev|done|].
  cbn [Node_IPPool_Reconcile] in Hm. by rewrite E in Hm.
Qed.

Lemma cidrpool_holds d get req :
  process_holds (Running d) → respects (EvCIDRPool get req) →
  ∃ p a, serve Pool_String nodeName checkCount cooldown (EvCIDRPool get req) d = Some (p, a) ∧ process_holds p ∧ answer_excludes a.
Proof.
  intros Hd Hev. pose proof Hd as (_ & Hc & _). cbn [serve].
  assert (is_Some (Node_CIDRPool_Reconcile nodeName get (d_manager d) req)) as [[m err] E].
  { destruct get; [|by eexists..]. destruct Hev as (? & _ & ?). by apply Node_CIDRPool_total. }
  rewrite E. cbn [mbind option_bind].
  eexists _, _. split; [done|]. split; [|done]. apply holds_manager; [done|]. unfold Node_CIDRPool_Reconcile in E.
  destruct get as [pool| |err']; [|injection E as <- <-; by apply cfg_nets_remove|by injection E as <- <-].
  destruct Hev as (_ & Hev & _). eapply Node_CIDRPool_nets; [|done..]. intros a ip n Ha. by apply Hev.
Qed.

(** One event. *)
Lemma handle_holds ev p :
  IsReleased x = false → has_pod x = true → process_holds p → respects ev →
  ∃ p' a, handle Pool_String nodeName checkCount cooldown ev p = Some (p', a) ∧ process_holds p' ∧ answer_excludes a.
Proof.
  intros Hrel Hpod Hp Hev. unfold handle. destruct p as [file|d].
  - destruct ev; try (eexists _, _; split; [done|]; by split). destruct Hp as [Hr Hd].
    destruct (restart_holds readable file Hr Hd) as (p & err & -> & Hp). cbn [mbind option_bind]. eauto.
  - destruct ev; [by apply allocate_holds|by apply deallocate_holds|by apply isallocated_holds|by apply clean_holds|
      by apply ippool_holds|by apply cidrpool_holds|].
    destruct Hp as (Hr & _ & r & Hld & Hd). cbn [serve].
    destruct (restart_holds readable (disk (d_store d))) as (p & err & -> & Hp).
    + eapply reachable_trans; [done|]. apply rtc_once, step_restart.
    + exists r. split; [|done]. eapply loaded_inv; [by apply machine_reachable_inv|done].
    + cbn [mbind option_bind]. eauto.
Qed.

(** C6: An address in use is not given away.  From a state of the daemon in which an
    interface holds an address, whatever the daemon does next (requests that
    succeed or fail, passes of the cleaner, changes of the pools, failing reads
    and writes of the file, restarts), as long as the interface is not released by
    a request and the cleaner finds the pod: every event is served (no handler, no
    pass and no reconciliation panics or hangs, for valid and invalid pools), the
    reservation stays, and no request is answered with this address in the pool.
    The names of requests have no ["|"], the networks of the pools are not IPv6
    networks of IPv4-mapped addresses and the indexes are 32-bit ([respects]). *)
Theorem daemon_address_exclusive evs p :
  IsReleased x = false → has_pod x = true → process_holds p → Forall respects evs →
  ∃ p' l, run Pool_String nodeName checkCount cooldown evs p = Some (p', l) ∧ process_holds p' ∧ Forall answer_excludes l.
Proof.
  intros Hrel Hpod Hp Hevs. revert p Hp. induction Hevs as [|ev evs Hev _ IH]; intros p Hp; cbn [run]; [by eexists _, _|].
  destruct (handle_holds ev p Hrel Hpod Hp Hev) as (p1 & a & -> & Hp1 & Ha). cbn [mbind option_bind].
  destruct (IH p1 Hp1) as (p2 & l & -> & Hp2 & Hl). cbn [mbind option_bind]. eexists _, _. split; [done|]. by split; [|constructor].
Qed.
End daemon_facts.

(** *** Witness *)

Definition busy_daemon : process := Running (mkDaemon (poolConfReader node_handlers) clean_store (NewCleaner 1 100)).
Definition busy_events : list event :=
  [EvAllocate (calm 0) (Some (mkIPAMParameters ["p"] "d" "i" (Some (mkIPAMMetadata "a" "b" "" "")) POOL_TYPE_UNSPECIFIED [] None));
   EvDeallocate (calm 1) (Some (mkIPAMParameters ["p"] "d" "i" (Some (mkIPAMMetadata "a" "b" "" "")) POOL_TYPE_UNSPECIFIED [] None));
   EvClean (mkClock 5 "t") true true (λ _ _ _, PodNotFound) (λ _ _ _, PodFound "uid");
   EvIPPool NotFound (mkRequest "ns" "p"); EvCIDRPool (Found (node_cidrpool [])) (mkRequest "ns" "pool"); EvRestart true].

Lemma busy_holds : process_holds (H := bits_codec) 100 "p" "c_i" one_reservation busy_daemon.
Proof.
  destruct clean_store_loaded as [Hr (r & Hl & Hp)]. split; [exact Hr|]. split; [exact node_cfg_nets|].
  exists r. split; [exact Hl|]. split; [apply clean_names_ok, Hp|].
  exists one_reservation. split; [apply clean_entry, Hp|reflexivity].
Qed.

Lemma parsed_not_mapped s f base ones : subnet_denotes s f base ones → not_mapped s.
Proof. intros [[ip Hp] Hn] ip' n Hp'. rewrite Hp in Hp'. injection Hp' as _ <-. by eexists _, _, _. Qed.

Lemma busy_pool_respects req : respects "p" "c_i" one_reservation (EvCIDRPool (Found (node_cidrpool [])) req).
Proof.
  split_and!.
  - apply (parsed_not_mapped _ F4 (192 * 2 ^ 24 + 168 * 2 ^ 16) 16).
    split; [eexists; vm_compute; reflexivity|apply net_okb_ok; vm_compute; reflexivity].
  - intros a Ha%list_elem_of_singleton. subst a. apply (parsed_not_mapped _ F4 (192 * 2 ^ 24 + 168 * 2 ^ 16 + 2 ^ 8) 24).
    split; [eexists; vm_compute; reflexivity|apply net_okb_ok; vm_compute; reflexivity].
  - repeat constructor. by vm_compute.
Qed.

Lemma busy_respects : Forall (respects "p" "c_i" one_reservation) busy_events.
Proof.
  repeat (apply Forall_cons_2; [try apply busy_pool_respects|]); [..|apply Forall_nil_2].
  - intros params [= <-]. split; [vm_compute; reflexivity|]. intros pn Hin%list_elem_of_singleton. subst pn. by vm_compute.
  - intros params [= <-]. vm_compute. discriminate.
  - reflexivity.
  - done.
  - done.
Qed.

Lemma daemon_address_exclusive_witness :
  ∃ p' l, run (H := bits_codec) (H0 := nonempty_names) (λ _, "") "n" 1 100 busy_events busy_daemon = Some (p', l) ∧
    process_holds (H := bits_codec) 100 "p" "c_i" one_reservation p' ∧ Forall (answer_excludes "p" one_reservation) l.
Proof.
  apply (daemon_address_exclusive (H := bits_codec) (H1 := nonempty_names) (λ _, "") "n" 1 100 "p" "c_i" one_reservation
    busy_events busy_daemon eq_refl eq_refl busy_holds busy_respects).
Defined.

(** The first request is granted another address of the pool. *)
Example busy_first_answer :
  (λ r, match r with AnsAllocate (Ok l) => map ai_Ip l | _ => [] end) <$>
    (snd <$> serve (H := bits_codec) (H0 := nonempty_names) (λ _, "") "n" 1 100
      (EvAllocate (calm 0) (Some (mkIPAMParameters ["p"] "d" "i" (Some (mkIPAMMetadata "a" "b" "" "")) POOL_TYPE_UNSPECIFIED [] None)))
      (mkDaemon (poolConfReader node_handlers) clean_store (NewCleaner 1 100))) = Some ["192.168.0.4/24"].
Proof. vm_compute. reflexivity. Qed.
