(* ===== verification/Startup.v ===== *)
(** * The start of the daemon: [RunNodeDaemon] of [cmd/ipam-node/app/app.go] up to
    the start of the goroutines

    The plugin is deployed, the manager is set up, the store file is locked and
    checked, and the server binds its socket, in this order; the first error ends the
    start.  The calls to the Kubernetes libraries are parameters, by the errors they
    return.  The lock of [gofrs/flock] is a class: it may create the file it locks,
    empty, and changes nothing else.

    The order matters when a daemon is started while another one runs: the lock is
    tried before the store and the socket are touched. *)

From Stdlib Require Import Strings.Byte.
From S2P Require Import Prelude GoNet Cidr GoNetText Json JsonText FileSystem PoolManager NodeTypes Store SessionRuns.
From S2P Require Import Handlers Cni CopyFile Options Deploy Cleaner CtrlIPPool NodeControllers Daemon.

(** [flock.New(path).TryLock()]: [false] if a different process holds the lock. *)
Class StoreLock := TryLock : string → io bool.

Class StoreLockLaws `{StoreLock} := {
  TryLock_frame : ∀ e w p g q, g ∈ visited (TryLock p e w).1 →
    g ∈ visited w ∨ g !! q = w_fs w !! q ∨
    (q = resolve p ∧ w_fs w !! q = None ∧ ∃ mode, g !! q = Some (File "" mode));
}.

(** The errors of the calls that set up the manager. *)
Record setup_errors := mkSetup {
  su_clientgoScheme : option string;
  su_ipamScheme : option string;
  su_NewManager : option string;
  su_newClient : option string;
  su_ippoolctrl : option string;
  su_cidrpoolctrl : option string;
  su_healthz : option string;
  su_readyz : option string;
}.

Definition check_setup (su : setup_errors) : prog string unit :=
  foldr (λ err k, match err with Some err => fail err | None => k end) (ret tt)
    [su_clientgoScheme su; su_ipamScheme su; su_NewManager su; su_newClient su; su_ippoolctrl su; su_cidrpoolctrl su;
     su_healthz su; su_readyz su].

(** The store reads its file; [None] if there is none. *)
Definition ReadStore (s : string) : io (option (list byte)) :=
  syscall (λ _ _ f, match at_path f s with
                    | None => Ok (None, f)
                    | Some (File data _) => Ok (Some (String.list_byte_of_string data), f)
                    | Some _ => Err EINVAL
                    end).

Section start.
Context `{RootCodec} `{ConfWriter} `{StoreLock} (url_Parse : string → result string URL).

(** [store.Open] and [s.Cancel]; the store is new, so opening it does not block. *)
Definition open_store (opts : Options) : prog string process := λ e w,
  let '(w, file) := ReadStore (StoreFile opts) e w in
  let '(readable, file) := match file with Ok file => (true, file) | Err _ => (false, None) end in
  match StartDaemon (StaleIPCheckCountBeforeRelease opts) (ReleasedIPCooldown opts) readable file with
  | Some (p, None) => (w, Ok p)
  | Some (_, Some err) => (w, Err err)
  | None => (w, Err "store.Open blocks")
  end.

Definition RunNodeDaemon_start (su : setup_errors) (opts : Options) : prog string process :=
  (let* _ := deployShimCNI opts in
   let* _ := check_setup su in
   let? locked := TryLock (StoreFile opts) else λ _, fail "failed to set store lock" in
   if negb locked then fail "store lock is held by a different process"
   else
     let* p := open_store opts in
     let* _ := initGRPCServer url_Parse opts in
     ret p)%ipam.
End start.

(** ** What stays as it is *)

(** The files of the deployment. *)
Definition deploy_area (opts : Options) (e : io_env) (q : path) : Prop :=
  scratch (CNIBinDir opts) "_nv-ipam" e q ∨ q = resolve (Join (CNIBinDir opts) "nv-ipam") ∨
  conf_area e (Join (CNIConfDir opts) ConfFileName) q.

(** The path [q] has been the same at any time. *)
Definition same_at (q : path) (x : option node) (w : world) : Prop := ∀ g, g ∈ visited w → g !! q = x.

Section frames.
Context `{ConfWriterLaws} `{StoreLockLaws}.

Lemma deploy_same opts e f q :
  CNIBinDir opts ≠ "" → ¬ scratch (CNIBinDir opts) "_nv-ipam" e (resolve (CNIBinFile opts)) → ¬ deploy_area opts e q →
  same_at q (f !! q) (deployShimCNI opts e (start f)).1.
Proof.
  intros Hd Hs Hq. unfold deployShimCNI, pbind.
  set (copy := if CNISkipBinFileCopy opts then ret tt else _).
  assert (same_at q (f !! q) (copy e (start f)).1) as Hcopy.
  { subst copy. destruct (CNISkipBinFileCopy opts); [by intros g ->%list_elem_of_singleton|].
    pose proof (CopyFileAtomic_atomic (CNIBinFile opts) (CNIBinDir opts) "_nv-ipam" "nv-ipam" e f ltac:(done) Hs
      (plugin_not_scratch _ e Hd)) as Ha.
    destruct (CopyFileAtomic _ _ _ _ e (start f)) as [w r]. destruct Ha as [Ha _]. intros g Hg. apply Ha; [done|..];
      intros Hx; apply Hq; [by left|by right; left]. }
  destruct (copy e (start f)) as [w1 [[]|err]]; [|done]. simpl in Hcopy. destruct (CNISkipConfigCreation opts); [done|].
  unfold createNVIPAMConfig, attempt. pose proof (WriteFile_frame e w1 (Join (CNIConfDir opts) ConfFileName) (config_text opts) 436) as Hw.
  destruct (WriteFile _ _ _ e w1) as [w2 [[]|err]]; simpl in *; intros g Hg;
    (destruct (Hw g q Hg) as [Hv|Hv]; [intros Hx; apply Hq; by right; right|by apply Hcopy|rewrite Hv; apply Hcopy, list_elem_of_here]).
Qed.

Lemma check_setup_same su e w : (check_setup su e w).1 = w.
Proof. unfold check_setup. destruct su as [[|] [|] [|] [|] [|] [|] [|] [|]]; done. Qed.

Lemma lock_same p e w q x :
  same_at q x w → (q = resolve p → is_Some x) → same_at q x (TryLock p e w).1.
Proof.
  intros Hw Hx g Hg. assert (w_fs w !! q = x) as E by (apply Hw, list_elem_of_here).
  destruct (TryLock_frame e w p g q Hg) as [Hv|[->|(-> & Hn & _)]]; [by apply Hw|done|].
  rewrite Hn in E. destruct (Hx eq_refl) as [? E']. congruence.
Qed.

(** What the lock leaves at the path of the store file. *)
Lemma lock_store p e w x :
  same_at (resolve p) x w → let f := w_fs (TryLock p e w).1 in
  f !! resolve p = x ∨ (x = None ∧ ∃ mode, f !! resolve p = Some (File "" mode)).
Proof.
  intros Hw. cbv zeta. assert (w_fs w !! resolve p = x) as E by (apply Hw, list_elem_of_here).
  destruct (TryLock_frame e w p (w_fs (TryLock p e w).1) (resolve p)) as [Hv|[->|(_ & Hn & Hm)]];
    [apply list_elem_of_here|left; by apply Hw|by left|right]. split; [congruence|done].
Qed.
End frames.

(** The store has the content of its file: nothing if there is no file or an empty one. *)
Definition has_file (x : option node) (file : option (list byte)) : Prop :=
  match x with
  | Some (File data _) => file = Some (String.list_byte_of_string data)
  | Some _ => False
  | None => file = None ∨ file = Some []
  end.

(** A server that binds has a socket at its address. *)
Lemma initGRPCServer_socket url_Parse opts p e w w' :
  initGRPCServer url_Parse opts e w = (w', Ok tt) → ParseBindAddress url_Parse (BindAddress opts) = Ok ("unix", p) →
  w_fs w' !! resolve p = Some Socket.
Proof.
  unfold initGRPCServer. intros E Hp. rewrite Hp in E. unfold pbind in E.
  destruct (cleanUNIXSocketIfRequired opts e w) as [w1 [[]|err]]; [|done]. unfold attempt, Listen, syscall in E.
  destruct (io_fail e (w_calls w1)); [done|]. rewrite bool_decide_true in E by done. cbn [negb] in E.
  destruct (bool_decide (p = "")); [done|]. destruct (bool_decide (is_Some (at_path (w_fs w1) p))); [done|].
  destruct (negb _); [done|]. simpl in E. injection E as <-. simpl. by rewrite lookup_insert_eq.
Qed.

Lemma open_store_running `{RootCodecLaws} opts e w w' p :
  open_store opts e w = (w', Ok p) →
  ∃ d, p = Running d ∧ d_manager d = NewManager ∧
    match at_path (w_fs w) (StoreFile opts) with
    | Some (File data _) => disk (d_store d) = Some (String.list_byte_of_string data)
    | Some _ => False
    | None => disk (d_store d) = None
    end ∧ ∃ r, persistedData (d_store d) = Some r ∧ loadFromDisk true (disk (d_store d)) = Some (Ok r).
Proof.
  unfold open_store. intros E.
  pose proof (syscall_cases (λ _ _ f, match at_path f (StoreFile opts) with
    | None => Ok (None, f) | Some (File data _) => Ok (Some (String.list_byte_of_string data), f) | Some _ => Err EINVAL end) e w) as Hc.
  unfold ReadStore in E. destruct (syscall _ e w) as [w1 [file|err]].
  - destruct Hc as (g & Hg & _). unfold StartDaemon in E.
    destruct (Open_total true (mkStore file None false) eq_refl) as [[err Eo]|(r & Hl & Eo)]; rewrite Eo in E;
      cbn [mbind option_bind] in E; [done|]. unfold Cancel in E. simpl in E. injection E as _ <-.
    eexists. split; [done|]. split; [done|]. simpl. destruct Hl as [|[_ Hl]]; [done|].
    destruct (at_path (w_fs w) (StoreFile opts)) as [[data m| |]|]; [injection Hg as <- _|done|done|injection Hg as <- _];
      (split; [done|]; exists r; by split).
  - unfold StartDaemon in E. destruct (Open_total false (mkStore None None false) eq_refl) as [[err' Eo]|(r & Hl & Eo)];
      rewrite Eo in E; cbn [mbind option_bind] in E; done.
Qed.

(** C16: The order of the start protects a daemon that already runs.  If the lock of
    the store file is not obtained, the start fails, and no file but those of the
    deployment is touched at any time: the store file and the socket of the running
    daemon stay.  A start that succeeds has obtained the lock and has its socket at the
    address, with no pool configured yet; the store has the content that the store file
    had before the start (if the deployment does not write there), and its data is what
    that content stands for, no reservations if there was no file or an empty one. *)
Theorem second_daemon_harmless `{RootCodecLaws} `{ConfWriterLaws} `{StoreLockLaws} url_Parse su opts e f :
  CNIBinDir opts ≠ "" → ¬ scratch (CNIBinDir opts) "_nv-ipam" e (resolve (CNIBinFile opts)) →
  let '(w, r) := RunNodeDaemon_start url_Parse su opts e (start f) in
  ((∀ w, (TryLock (StoreFile opts) e w).2 ≠ Ok true) →
    (∃ err, r = Err err) ∧
    ∀ q, ¬ deploy_area opts e q → (q = resolve (StoreFile opts) → is_Some (f !! q)) → same_at q (f !! q) w) ∧
  (∀ p, r = Ok p →
    (∃ w1, (TryLock (StoreFile opts) e w1).2 = Ok true) ∧
    (∃ d s, p = Running d ∧ d_manager d = NewManager ∧ persistedData (d_store d) = Some s ∧
       loadFromDisk true (disk (d_store d)) = Some (Ok s) ∧
       (StoreFile opts ≠ "" → ¬ deploy_area opts e (resolve (StoreFile opts)) →
          has_file (f !! resolve (StoreFile opts)) (disk (d_store d)) ∧ (f !! resolve (StoreFile opts) = None → s = NewRoot))) ∧
    ∀ path, ParseBindAddress url_Parse (BindAddress opts) = Ok ("unix", path) → w_fs w !! resolve path = Some Socket).
Proof.
  intros Hd Hs. unfold RunNodeDaemon_start, pbind at 1. pose proof (λ q, deploy_same opts e f q Hd Hs) as Hf.
  destruct (deployShimCNI opts e (start f)) as [w1 [[]|err]]; simpl in Hf; [|split; [intros _; split; [by eexists|auto]|done]].
  unfold pbind at 1. pose proof (check_setup_same su e w1) as E2. destruct (check_setup su e w1) as [w2 [[]|err]]; simpl in E2; subst w2; cbv beta iota;
    [|split; [intros _; split; [by eexists|auto]|done]].
  unfold attempt. pose proof (λ q x, lock_same (StoreFile opts) e w1 q x) as Hk. pose proof (lock_store (StoreFile opts) e w1) as Hst.
  destruct (TryLock (StoreFile opts) e w1) as [w2 r2] eqn:Ek. simpl in Hk, Hst.
  assert (r2 = Ok true ∨ r2 ≠ Ok true) as [->|Hne] by (destruct r2 as [[]|]; by auto).
  2:{ assert (∀ err, ((∀ w, (TryLock (StoreFile opts) e w).2 ≠ Ok true) → (∃ err', (Err err : result string process) = Err err') ∧
        ∀ q, ¬ deploy_area opts e q → (q = resolve (StoreFile opts) → is_Some (f !! q)) → same_at q (f !! q) w2)) as Hrefused
        by (intros err _; split; [by eexists|]; intros q Hq Hx; apply Hk; auto).
      destruct r2 as [[]|err]; [done|..]; cbn [negb]; (split; [apply Hrefused|done]). }
  cbn [negb]. unfold pbind.
  destruct (open_store opts e w2) as [w3 [p3|err]] eqn:Eo;
    [|split; [intros Hno; specialize (Hno w1); by rewrite Ek in Hno|done]].
  destruct (initGRPCServer url_Parse opts e w3) as [w4 [[]|err]] eqn:Ei;
    split; try done; try (intros Hno; specialize (Hno w1); by rewrite Ek in Hno). simpl. intros p [= <-].
  split; [exists w1; by rewrite Ek|]. split; [|intros path Hp; by eapply initGRPCServer_socket].
  apply open_store_running in Eo as (d & -> & Hm & Hfile & s & Hs1 & Hs2). exists d, s. split_and!; try done.
  intros Hne Hq. specialize (Hst _ (Hf _ Hq)). unfold at_path in Hfile. rewrite bool_decide_false in Hfile by done.
  assert (has_file (f !! resolve (StoreFile opts)) (disk (d_store d))) as Hhas.
  { destruct Hst as [E|[E [mode E']]]; rewrite ?E, ?E' in *; [|by right].
    by destruct (f !! resolve (StoreFile opts)) as [[]|]; [..|left]. }
  split; [done|]. intros E. rewrite E in Hhas. by destruct Hhas as [Ed|Ed]; rewrite Ed in Hs2; injection Hs2.
Qed.

(** ** Two daemons on one node *)

(** The lock while a different process holds it, and while none does. *)
Definition held_lock : StoreLock := λ p, syscall (λ _ _ f, Ok (false, f)).
Definition free_lock : StoreLock := λ p,
  syscall (λ _ _ f, Ok (true, if bool_decide (is_Some (f !! resolve p)) then f else <[resolve p := File "" 384]> f)).

Lemma held_lock_laws : StoreLockLaws (H := held_lock).
Proof.
  split. intros e w p g q. unfold TryLock, held_lock.
  pose proof (syscall_cases (λ _ _ f, Ok (false, f)) e w) as Hc. destruct (syscall _ e w) as [w' [b|err]]; simpl.
  - destruct Hc as (h & [= _ <-] & _ & ->). intros [->|Hg]%elem_of_cons; [by right; left|by left].
  - rewrite Hc. by left.
Qed.

Lemma free_lock_laws : StoreLockLaws (H := free_lock).
Proof.
  split. intros e w p g q. unfold TryLock, free_lock.
  pose proof (syscall_cases (λ _ _ f, Ok (true, if bool_decide (is_Some (f !! resolve p)) then f else <[resolve p := File "" 384]> f)) e w) as Hc.
  destruct (syscall _ e w) as [w' [b|err]]; simpl; [|rewrite Hc; by left].
  destruct Hc as (h & [= _ <-] & _ & ->). intros [->|Hg]%elem_of_cons; [|by left].
  case_bool_decide as Hs; [by right; left|]. destruct (decide (q = resolve p)) as [->|Hne].
  - right; right. split_and!; [done|by apply eq_None_not_Some|]. rewrite lookup_insert_eq. by eexists.
  - right; left. by rewrite lookup_insert_ne.
Qed.

Definition no_errors : setup_errors := mkSetup None None None None None None None None.

(** The files of a running daemon. *)
Definition running_files : fs :=
  node_files [("/var/lib/cni/nv-ipam/daemon.sock", Socket); ("/var/lib/cni/nv-ipam/store", File "" 436)].

Definition second_start : world * result string process :=
  RunNodeDaemon_start (H := bits_codec) (H1 := held_lock) unix_url no_errors New no_fail (start running_files).

(** The deployment with the default options writes nothing where the store and the socket are. *)
Lemma state_not_deployed x : ¬ deploy_area New no_fail (mkPath true ["var"; "lib"; "cni"; "nv-ipam"; x]).
Proof.
  intros [[Hx|[z Hx]]|[Hx|[Hx|(y & [Hx|Hx])]]].
  - apply (f_equal names) in Hx. vm_compute in Hx. discriminate Hx.
  - rewrite bool_decide_false in Hx by discriminate. change (CNIBinDir New) with "/opt/cni/bin" in Hx.
    destruct (temp_in_bin z) as [y Hy]. rewrite Hy in Hx. discriminate Hx.
  - apply (f_equal names) in Hx. vm_compute in Hx. discriminate Hx.
  - apply (f_equal names) in Hx. vm_compute in Hx. discriminate Hx.
  - apply (f_equal names) in Hx. unfold in_dir in Hx. cbn [names] in Hx.
    assert (names (resolve (Dir (Join (CNIConfDir New) ConfFileName))) = ["etc"; "cni"; "net.d"; "nv-ipam.d"]) as En by (vm_compute; reflexivity).
    rewrite En in Hx. discriminate Hx.
  - apply (f_equal names) in Hx. unfold in_dir in Hx. cbn [names] in Hx.
    assert (names (resolve (io_TempDir no_fail)) = ["tmp"]) as En by (vm_compute; reflexivity).
    rewrite En in Hx. discriminate Hx.
Qed.

(** A start on a node without a daemon. *)
Definition first_start : world * result string process :=
  RunNodeDaemon_start (H := bits_codec) (H1 := free_lock) unix_url no_errors New no_fail (start (node_files [])).

Lemma second_daemon_harmless_witness :
  ((∃ err, second_start.2 = Err err) ∧ same_at (resolve "/var/lib/cni/nv-ipam/daemon.sock") (Some Socket) second_start.1) ∧
  ∃ d, first_start.2 = Ok (Running d) ∧ persistedData (d_store d) = Some NewRoot.
Proof.
  assert (resolve "/var/lib/cni/nv-ipam/daemon.sock" = mkPath true ["var"; "lib"; "cni"; "nv-ipam"; "daemon.sock"]) as E1 by (vm_compute; reflexivity).
  assert (resolve (StoreFile New) = mkPath true ["var"; "lib"; "cni"; "nv-ipam"; "store"]) as E2 by (vm_compute; reflexivity).
  split.
  - pose proof (second_daemon_harmless (H := bits_codec) (H3 := held_lock) (H4 := held_lock_laws) unix_url no_errors New no_fail
      running_files ltac:(discriminate) (plugin_not_temp no_fail)) as Hd. unfold second_start.
    destruct (RunNodeDaemon_start _ _ _ _ _) as [w r]. destruct Hd as [Hd _].
    destruct Hd as [He Hs]; [intros w0; unfold TryLock, held_lock, syscall; simpl; discriminate|]. split; [exact He|].
    assert (running_files !! resolve "/var/lib/cni/nv-ipam/daemon.sock" = Some Socket) as <- by (vm_compute; reflexivity).
    apply Hs; [rewrite E1; apply state_not_deployed|]. intros _; exists Socket; vm_compute; reflexivity.
  - pose proof (second_daemon_harmless (H := bits_codec) (H3 := free_lock) (H4 := free_lock_laws) unix_url no_errors New no_fail
      (node_files []) ltac:(discriminate) (plugin_not_temp no_fail)) as Hd.
    assert (is_ok first_start.2 = true) as Hok by (vm_compute; reflexivity).
    unfold first_start in *. destruct (RunNodeDaemon_start _ _ _ _ _) as [w [p|err]]; [|discriminate Hok].
    destruct Hd as [_ Hd]. destruct (Hd p eq_refl) as (_ & (d & s & -> & _ & Hp & _ & Hs) & _). exists d. split; [reflexivity|].
    rewrite Hp. f_equal. apply Hs; [discriminate|rewrite E2; apply state_not_deployed|vm_compute; reflexivity].
Defined.
