(* ===== verification/Commands.v ===== *)
(** * The commands: [cmd/ipam-node/app], [cmd/ipam-controller/app] and [pkg/cmdoptions]

    What a command line means.  The flags of the two programs are tables: each has a name
    and the field of the options it is bound to.  The flags of the Kubernetes libraries (of
    logging, of the feature gates, of controller-runtime) set the state of those libraries
    and are parameters, as are [pflag]'s way to take the command line apart and to read
    numbers, booleans and durations.  [--help] and [--version] end a command before it
    runs.  A command checks its arguments, validates the options and runs.
    [RunController] is the sequence of its calls to the libraries, by the errors they
    return. *)

From S2P Require Import Prelude GoNet Cidr GoNetText Json JsonText FileSystem PoolManager NodeTypes Store SessionRuns.
From S2P Require Import Handlers Cni CopyFile Options Deploy Cleaner CtrlIPPool NodeControllers Daemon Startup.

(** ** Flags *)

Inductive flag_kind := KString | KBool | KInt | KDuration.

Definition flag_value (k : flag_kind) : Type :=
  match k with KString => string | KBool => bool | KInt | KDuration => Z end.

(** The readers of [strconv] and [time] that [pflag] uses. *)
Record readers := mkReaders {
  ParseBool : string → option bool;
  ParseInt : string → option Z;
  ParseDuration : string → option Z;
}.

Definition read_value (p : readers) (k : flag_kind) : string → option (flag_value k) :=
  match k with
  | KString => Some
  | KBool => ParseBool p
  | KInt => ParseInt p
  | KDuration => ParseDuration p
  end.

(** The flags of the programs, by name and type; [version] is registered by
    [pkg/cmdoptions], [help] by [cobra]. *)
Definition common_kinds : list (string * flag_kind) := [("help", KBool); ("version", KBool)].

Definition node_kinds : list (string * flag_kind) :=
  [("metrics-bind-address", KString); ("health-probe-bind-address", KString); ("node-name", KString);
   ("ippools-namespace", KString); ("bind-address", KString); ("store-file", KString);
   ("stale-ip-check-interval", KDuration); ("stale-ip-check-count-before-release", KInt);
   ("released-ip-cooldown", KDuration);
   ("cni-bin-dir", KString); ("cni-nv-ipam-bin-file", KString); ("cni-skip-nv-ipam-binary-copy", KBool);
   ("cni-skip-nv-ipam-config-creation", KBool); ("cni-conf-dir", KString); ("cni-daemon-socket", KString);
   ("cni-daemon-call-timeout", KInt); ("cni-log-file", KString); ("cni-log-level", KString);
   ("cni-force-pool-name", KBool)].

Definition controller_kinds : list (string * flag_kind) :=
  [("metrics-bind-address", KString); ("health-probe-bind-address", KString); ("webhook", KBool); ("leader-elect", KBool);
   ("leader-elect-namespace", KString); ("ippools-namespace", KString)].

(** A flag of a library: [Set] of its [pflag.Value], on the state of the library. *)
Record lib_flag (L : Type) := mkLibFlag { lf_name : string; lf_Set : string → L → option L }.
Arguments mkLibFlag {L}.
Arguments lf_name {L}.
Arguments lf_Set {L}.

(** The Kubernetes libraries: their state ([cmdoptions.New]), their flags, and
    [logsapi.ValidateAndApply].  Two flags of a command do not share a name ([pflag] panics). *)
Class FlagLibrary := {
  Lib : Type;
  lib_New : Lib;
  LoggingFlags : list (lib_flag Lib);
  FeatureGateFlags : list (lib_flag Lib);
  ControllerRuntimeFlags : list (lib_flag Lib);
  ValidateAndApply : Lib → option string;
  lib_fresh : Forall (λ lf, lf_name lf ∉ (common_kinds ++ node_kinds ++ controller_kinds).*1)
    (LoggingFlags ++ FeatureGateFlags ++ ControllerRuntimeFlags);
}.

Section flags.
Context `{FlagLibrary}.

(** What a command line sets: the state of the libraries, [help], [version], the options. *)
Record cmd_state (O : Type) := mkCmdState { cs_lib : Lib; cs_help : bool; cs_version : bool; cs_opts : O }.
Arguments mkCmdState {O}.
Arguments cs_lib {O}.
Arguments cs_help {O}.
Arguments cs_version {O}.
Arguments cs_opts {O}.

(** A flag is bound to a variable ([&o.Field]) or is one of a library. *)
Inductive flag (O : Type) :=
| VarFlag (name : string) (k : flag_kind) (set : flag_value k → cmd_state O → cmd_state O)
| LibFlag (lf : lib_flag Lib).
Arguments VarFlag {O}.
Arguments LibFlag {O}.

Definition f_name {O} (f : flag O) : string := match f with VarFlag name _ _ => name | LibFlag lf => lf_name lf end.

Definition on_opts {O V} (set : V → O → O) (v : V) (s : cmd_state O) : cmd_state O :=
  mkCmdState (cs_lib s) (cs_help s) (cs_version s) (set v (cs_opts s)).

Definition StringVar {O} name (set : string → O → O) : flag O := VarFlag name KString (on_opts set).
Definition BoolVar {O} name (set : bool → O → O) : flag O := VarFlag name KBool (on_opts set).
Definition IntVar {O} name (set : Z → O → O) : flag O := VarFlag name KInt (on_opts set).
Definition DurationVar {O} name (set : Z → O → O) : flag O := VarFlag name KDuration (on_opts set).

(** [Set] of a flag: the text is read, and the variable or the library takes it. *)
Definition Set_text {O} (p : readers) (f : flag O) (text : string) (s : cmd_state O) : option (cmd_state O) :=
  match f with
  | VarFlag _ k set => (λ v, set v s) <$> read_value p k text
  | LibFlag lf => (λ l, mkCmdState l (cs_help s) (cs_version s) (cs_opts s)) <$> lf_Set lf text (cs_lib s)
  end.

(** The flags given on the command line, as names and texts, in order. *)
Definition set_flag {O} (p : readers) (flags : list (flag O)) (given : string * string) (s : cmd_state O) :
    result error (cmd_state O) :=
  match List.find (λ f, bool_decide (f_name f = given.1)) flags with
  | None => Err "unknown flag: --%s"
  | Some f =>
      match Set_text p f given.2 s with
      | None => Err "invalid argument %q for %q flag: %v"
      | Some s => Ok s
      end
  end.

Fixpoint parse_flags {O} (p : readers) (flags : list (flag O)) (given : list (string * string)) (s : cmd_state O) :
    result error (cmd_state O) :=
  match given with
  | [] => Ok s
  | g :: given => (let! s := set_flag p flags g s in parse_flags p flags given s)%ipam
  end.

(** ** The flags of the node daemon: [AddNamedFlagSets] of [pkg/cmdoptions] and [cmd/ipam-node/app/options] *)

Definition cmdoptions_AddNamedFlagSets {O} : list (flag O) :=
  map LibFlag LoggingFlags ++ map LibFlag FeatureGateFlags ++
  [VarFlag "version" KBool (λ v s, mkCmdState (cs_lib s) (cs_help s) v (cs_opts s))].

Definition daemonFS : list (flag Options) := [
  StringVar "metrics-bind-address"
    (λ v o, let '(mkOptions _ x1 x2 x3 x4 x5 x6 x7 x8 x9 x10 x11 x12 x13 x14 x15 x16 x17 x18) := o in mkOptions v x1 x2 x3 x4 x5 x6 x7 x8 x9 x10 x11 x12 x13 x14 x15 x16 x17 x18);
  StringVar "health-probe-bind-address"
    (λ v o, let '(mkOptions x0 _ x2 x3 x4 x5 x6 x7 x8 x9 x10 x11 x12 x13 x14 x15 x16 x17 x18) := o in mkOptions x0 v x2 x3 x4 x5 x6 x7 x8 x9 x10 x11 x12 x13 x14 x15 x16 x17 x18);
  StringVar "node-name"
    (λ v o, let '(mkOptions x0 x1 _ x3 x4 x5 x6 x7 x8 x9 x10 x11 x12 x13 x14 x15 x16 x17 x18) := o in mkOptions x0 x1 v x3 x4 x5 x6 x7 x8 x9 x10 x11 x12 x13 x14 x15 x16 x17 x18);
  StringVar "ippools-namespace"
    (λ v o, let '(mkOptions x0 x1 x2 _ x4 x5 x6 x7 x8 x9 x10 x11 x12 x13 x14 x15 x16 x17 x18) := o in mkOptions x0 x1 x2 v x4 x5 x6 x7 x8 x9 x10 x11 x12 x13 x14 x15 x16 x17 x18);
  StringVar "bind-address"
    (λ v o, let '(mkOptions x0 x1 x2 x3 _ x5 x6 x7 x8 x9 x10 x11 x12 x13 x14 x15 x16 x17 x18) := o in mkOptions x0 x1 x2 x3 v x5 x6 x7 x8 x9 x10 x11 x12 x13 x14 x15 x16 x17 x18);
  StringVar "store-file"
    (λ v o, let '(mkOptions x0 x1 x2 x3 x4 _ x6 x7 x8 x9 x10 x11 x12 x13 x14 x15 x16 x17 x18) := o in mkOptions x0 x1 x2 x3 x4 v x6 x7 x8 x9 x10 x11 x12 x13 x14 x15 x16 x17 x18);
  DurationVar "stale-ip-check-interval"
    (λ v o, let '(mkOptions x0 x1 x2 x3 x4 x5 x6 x7 x8 x9 x10 x11 x12 x13 x14 x15 _ x17 x18) := o in mkOptions x0 x1 x2 x3 x4 x5 x6 x7 x8 x9 x10 x11 x12 x13 x14 x15 v x17 x18);
  IntVar "stale-ip-check-count-before-release"
    (λ v o, let '(mkOptions x0 x1 x2 x3 x4 x5 x6 x7 x8 x9 x10 x11 x12 x13 x14 x15 x16 _ x18) := o in mkOptions x0 x1 x2 x3 x4 x5 x6 x7 x8 x9 x10 x11 x12 x13 x14 x15 x16 v x18);
  DurationVar "released-ip-cooldown"
    (λ v o, let '(mkOptions x0 x1 x2 x3 x4 x5 x6 x7 x8 x9 x10 x11 x12 x13 x14 x15 x16 x17 _) := o in mkOptions x0 x1 x2 x3 x4 x5 x6 x7 x8 x9 x10 x11 x12 x13 x14 x15 x16 x17 v)
].

Definition cniFS : list (flag Options) := [
  StringVar "cni-bin-dir"
    (λ v o, let '(mkOptions x0 x1 x2 x3 x4 x5 _ x7 x8 x9 x10 x11 x12 x13 x14 x15 x16 x17 x18) := o in mkOptions x0 x1 x2 x3 x4 x5 v x7 x8 x9 x10 x11 x12 x13 x14 x15 x16 x17 x18);
  StringVar "cni-nv-ipam-bin-file"
    (λ v o, let '(mkOptions x0 x1 x2 x3 x4 x5 x6 _ x8 x9 x10 x11 x12 x13 x14 x15 x16 x17 x18) := o in mkOptions x0 x1 x2 x3 x4 x5 x6 v x8 x9 x10 x11 x12 x13 x14 x15 x16 x17 x18);
  BoolVar "cni-skip-nv-ipam-binary-copy"
    (λ v o, let '(mkOptions x0 x1 x2 x3 x4 x5 x6 x7 _ x9 x10 x11 x12 x13 x14 x15 x16 x17 x18) := o in mkOptions x0 x1 x2 x3 x4 x5 x6 x7 v x9 x10 x11 x12 x13 x14 x15 x16 x17 x18);
  BoolVar "cni-skip-nv-ipam-config-creation"
    (λ v o, let '(mkOptions x0 x1 x2 x3 x4 x5 x6 x7 x8 _ x10 x11 x12 x13 x14 x15 x16 x17 x18) := o in mkOptions x0 x1 x2 x3 x4 x5 x6 x7 x8 v x10 x11 x12 x13 x14 x15 x16 x17 x18);
  StringVar "cni-conf-dir"
    (λ v o, let '(mkOptions x0 x1 x2 x3 x4 x5 x6 x7 x8 x9 _ x11 x12 x13 x14 x15 x16 x17 x18) := o in mkOptions x0 x1 x2 x3 x4 x5 x6 x7 x8 x9 v x11 x12 x13 x14 x15 x16 x17 x18);
  StringVar "cni-daemon-socket"
    (λ v o, let '(mkOptions x0 x1 x2 x3 x4 x5 x6 x7 x8 x9 x10 _ x12 x13 x14 x15 x16 x17 x18) := o in mkOptions x0 x1 x2 x3 x4 x5 x6 x7 x8 x9 x10 v x12 x13 x14 x15 x16 x17 x18);
  IntVar "cni-daemon-call-timeout"
    (λ v o, let '(mkOptions x0 x1 x2 x3 x4 x5 x6 x7 x8 x9 x10 x11 _ x13 x14 x15 x16 x17 x18) := o in mkOptions x0 x1 x2 x3 x4 x5 x6 x7 x8 x9 x10 x11 v x13 x14 x15 x16 x17 x18);
  StringVar "cni-log-file"
    (λ v o, let '(mkOptions x0 x1 x2 x3 x4 x5 x6 x7 x8 x9 x10 x11 x12 _ x14 x15 x16 x17 x18) := o in mkOptions x0 x1 x2 x3 x4 x5 x6 x7 x8 x9 x10 x11 x12 v x14 x15 x16 x17 x18);
  StringVar "cni-log-level"
    (λ v o, let '(mkOptions x0 x1 x2 x3 x4 x5 x6 x7 x8 x9 x10 x11 x12 x13 _ x15 x16 x17 x18) := o in mkOptions x0 x1 x2 x3 x4 x5 x6 x7 x8 x9 x10 x11 x12 x13 v x15 x16 x17 x18);
  BoolVar "cni-force-pool-name"
    (λ v o, let '(mkOptions x0 x1 x2 x3 x4 x5 x6 x7 x8 x9 x10 x11 x12 x13 x14 _ x16 x17 x18) := o in mkOptions x0 x1 x2 x3 x4 x5 x6 x7 x8 x9 x10 x11 x12 x13 x14 v x16 x17 x18)
].

Definition AddNamedFlagSets : list (flag Options) :=
  cmdoptions_AddNamedFlagSets ++ map LibFlag ControllerRuntimeFlags ++ daemonFS ++ cniFS.

(** [cobra] adds [--help]. *)
Definition help_flag {O} : flag O := VarFlag "help" KBool (λ v s, mkCmdState (cs_lib s) v (cs_version s) (cs_opts s)).

(** ** The options of the controller: [cmd/ipam-controller/app/options] *)

Definition defaultNamespace : string := "kube-system".

Record ControllerOptions := mkControllerOptions {
  co_MetricsAddr : string;
  co_ProbeAddr : string;
  EnableLeaderElection : bool;
  EnableWebHook : bool;
  LeaderElectionNamespace : string;
  IPPoolsNamespace : string;
}.

Definition controller_New : ControllerOptions := {|
  co_MetricsAddr := ":8080";
  co_ProbeAddr := ":8081";
  EnableLeaderElection := false;
  EnableWebHook := false;
  LeaderElectionNamespace := defaultNamespace;
  IPPoolsNamespace := defaultNamespace;
|}.

Definition controllerFS : list (flag ControllerOptions) := [
  StringVar "metrics-bind-address" (λ v o, let '(mkControllerOptions _ x1 x2 x3 x4 x5) := o in mkControllerOptions v x1 x2 x3 x4 x5);
  StringVar "health-probe-bind-address" (λ v o, let '(mkControllerOptions x0 _ x2 x3 x4 x5) := o in mkControllerOptions x0 v x2 x3 x4 x5);
  BoolVar "webhook" (λ v o, let '(mkControllerOptions x0 x1 x2 _ x4 x5) := o in mkControllerOptions x0 x1 x2 v x4 x5);
  BoolVar "leader-elect" (λ v o, let '(mkControllerOptions x0 x1 _ x3 x4 x5) := o in mkControllerOptions x0 x1 v x3 x4 x5);
  StringVar "leader-elect-namespace" (λ v o, let '(mkControllerOptions x0 x1 x2 x3 _ x5) := o in mkControllerOptions x0 x1 x2 x3 v x5);
  StringVar "ippools-namespace" (λ v o, let '(mkControllerOptions x0 x1 x2 x3 x4 _) := o in mkControllerOptions x0 x1 x2 x3 x4 v)
].

Definition controller_AddNamedFlagSets : list (flag ControllerOptions) :=
  cmdoptions_AddNamedFlagSets ++ map LibFlag ControllerRuntimeFlags ++ controllerFS.
End flags.

Arguments mkCmdState {_ _}.
Arguments cs_lib {_ _}.
Arguments cs_help {_ _}.
Arguments cs_version {_ _}.
Arguments cs_opts {_ _}.
Arguments VarFlag {_ _}.
Arguments LibFlag {_ _}.

(** ** The commands *)

(** The [Args] function of both commands. *)
Definition check_args (args : list string) : result error unit :=
  if existsb (λ arg, negb (bool_decide (arg = ""))) args then Err "%q does not take any arguments, got %q" else Ok tt.

(** How a command ends without an error: it has run, or it has printed its help or version. *)
Inductive outcome (A : Type) := Ran (a : A) | Printed.
Arguments Ran {A}.
Arguments Printed {A}.

Section node_command.
Context `{RootCodec} `{ConfWriter} `{StoreLock} `{FlagLibrary} (url_Parse : string → result string URL).

(** [RunE]; [config]: the error of [ctrl.GetConfig]. *)
Definition node_RunE (config : option string) (su : setup_errors) (s : cmd_state Options) : prog string process := λ e w,
  match Options_Validate url_Parse (ValidateAndApply (cs_lib s)) (cs_opts s) e w with
  | (w, Err err) => (w, Err ("invalid config: " +:+ err))
  | (w, Ok _) =>
      match config with
      | Some err => (w, Err ("failed to read config for k8s client: " +:+ err))
      | None => RunNodeDaemon_start url_Parse su (cs_opts s) e w
      end
  end.

(** [cobra] sets the flags, looks at [help] and [version], checks the arguments, and runs
    the command. *)
Definition node_command (p : readers) (config : option string) (su : setup_errors)
    (args : list string) (given : list (string * string)) : prog string (outcome process) := λ e w,
  match parse_flags p (help_flag :: AddNamedFlagSets) given (mkCmdState lib_New false false New) with
  | Err err => (w, Err err)
  | Ok s =>
      if cs_help s || cs_version s then (w, Ok Printed)
      else
        match check_args args with
        | Err err => (w, Err err)
        | Ok _ => let '(w, r) := node_RunE config su s e w in (w, (let! proc := r in Ok (Ran proc))%ipam)
        end
  end.
End node_command.

(** ** [RunController] of [cmd/ipam-controller/app] *)

Inductive controller_call :=
| AddClientGoScheme
| AddIPAMScheme
| NewControllerManager (opts : ControllerOptions)
| SetupNodeReconciler (namespace : string)
| SetupIPPoolWebhook
| SetupCIDRPoolWebhook
| SetupIPPoolReconciler (namespace : string)
| SetupCIDRPoolReconciler (namespace : string)
| AddHealthzCheck
| AddReadyzCheck
| StartManager.

Inductive controller_end := Returned (err : option string) | Exited (code : Z).

Section controller_command.
(** The error a call returns, if any. *)
Context `{FlagLibrary} (fails : controller_call → option string).

(** Calls, each with what its error leads to; the calls that were made and the end. *)
Fixpoint run_calls (calls : list (controller_call * (string → controller_end))) : list controller_call * controller_end :=
  match calls with
  | [] => ([], Returned None)
  | (c, on_error) :: calls =>
      match fails c with
      | Some err => ([c], on_error err)
      | None => let '(made, r) := run_calls calls in (c :: made, r)
      end
  end.

Definition return_error (c : controller_call) : controller_call * (string → controller_end) := (c, λ err, Returned (Some err)).
(** [os.Exit(1)] *)
Definition exit_error (c : controller_call) : controller_call * (string → controller_end) := (c, λ _, Exited 1).

Definition controller_calls (opts : ControllerOptions) : list (controller_call * (string → controller_end)) :=
  [return_error AddClientGoScheme; return_error AddIPAMScheme; return_error (NewControllerManager opts);
   return_error (SetupNodeReconciler (IPPoolsNamespace opts))] ++
  (if EnableWebHook opts then [exit_error SetupIPPoolWebhook; exit_error SetupCIDRPoolWebhook] else []) ++
  [return_error (SetupIPPoolReconciler (IPPoolsNamespace opts)); return_error (SetupCIDRPoolReconciler (IPPoolsNamespace opts));
   return_error AddHealthzCheck; return_error AddReadyzCheck; return_error StartManager].

Definition RunController (opts : ControllerOptions) : list controller_call * controller_end := run_calls (controller_calls opts).

Definition controller_RunE (config : option string) (s : cmd_state ControllerOptions) : list controller_call * controller_end :=
  match ValidateAndApply (cs_lib s) with
  | Some err => ([], Returned (Some ("invalid config: " +:+ err)))
  | None =>
      match config with
      | Some err => ([], Returned (Some ("failed to read config for k8s client: " +:+ err)))
      | None => RunController (cs_opts s)
      end
  end.

Definition controller_command (p : readers) (config : option string) (args : list string) (given : list (string * string)) :
    list controller_call * controller_end :=
  match parse_flags p (help_flag :: controller_AddNamedFlagSets) given (mkCmdState lib_New false false controller_New) with
  | Err err => ([], Returned (Some err))
  | Ok s =>
      if cs_help s || cs_version s then ([], Returned None)
      else
        match check_args args with
        | Err err => ([], Returned (Some err))
        | Ok _ => controller_RunE config s
        end
  end.

(** The calls that are made are the first ones, up to one that fails. *)
Lemma run_calls_prefix calls :
  (run_calls calls).1 `prefix_of` calls.*1 ∧
  ((run_calls calls).2 = Returned None → (∀ c on_error err, (c, on_error) ∈ calls → on_error err ≠ Returned None) →
     (run_calls calls).1 = calls.*1 ∧ ∀ c, c ∈ calls.*1 → fails c = None).
Proof.
  induction calls as [|[c on_error] calls [IH1 IH2]]; [split; [done|]; intros _ _; split; [done|]; by intros c Hc%not_elem_of_nil|].
  cbn [run_calls]. destruct (fails c) as [err|] eqn:E.
  - split; [apply prefix_cons, prefix_nil|]. intros Hr Hn. by destruct (Hn c on_error err); [apply list_elem_of_here|].
  - destruct (run_calls calls) as [made r]. csimpl in *. split; [by apply prefix_cons|]. intros Hr Hn.
    destruct (IH2 Hr) as [-> Hc]; [intros c' o' err' Hin; apply (Hn c'); by right|]. split; [done|].
    intros c' [->|Hin]%elem_of_cons; [done|by apply Hc].
Qed.
End controller_command.

(** ** What a command line sets *)

(** The last text given for a flag. *)
Definition last_given (name : string) (given : list (string * string)) : option string :=
  foldl (λ r g, if bool_decide (g.1 = name) then Some g.2 else r) None given.

(** [v] is the last value given for the flag [name], or else the default. *)
Definition given_or {A} (read : string → option A) (name : string) (given : list (string * string)) (dflt v : A) : Prop :=
  match last_given name given with Some text => read text = Some v | None => v = dflt end.

Section lib.
Context `{FlagLibrary}.

Definition lib_flags : list (lib_flag Lib) := LoggingFlags ++ FeatureGateFlags ++ ControllerRuntimeFlags.

(** The flags of the libraries, one after the other. *)
Definition lib_step (g : string * string) (l : Lib) : option Lib :=
  match List.find (λ lf, bool_decide (lf_name lf = g.1)) lib_flags with
  | None => Some l
  | Some lf => lf_Set lf g.2 l
  end.
Fixpoint lib_apply (given : list (string * string)) (l : Lib) : option Lib :=
  match given with [] => Some l | g :: given => l ← lib_step g l; lib_apply given l end.

(** A flag of the program with a text of its type, or a flag of a library. *)
Definition known (p : readers) (kinds : list (string * flag_kind)) (g : string * string) : Prop :=
  g.1 ∈ lf_name <$> lib_flags ∨ ∃ k, (g.1, k) ∈ kinds ∧ is_Some (read_value p k g.2).

(** A command line that can be read: every flag is one of the program, with a text of its
    type, or one of a library, which takes its text. *)
Definition accepted (p : readers) (kinds : list (string * flag_kind)) (given : list (string * string)) : Prop :=
  Forall (known p kinds) given ∧ is_Some (lib_apply given lib_New).

(** The libraries of a table. *)
Definition libs_of {O} (flags : list (flag O)) : list (lib_flag Lib) :=
  omap (λ f, match f with LibFlag lf => Some lf | VarFlag _ _ _ => None end) flags.

(** The table [flags] has the flags [kinds] and those of the libraries. *)
Record flags_lawful {O} (flags : list (flag O)) (kinds : list (string * flag_kind)) : Prop := {
  fl_vars : ∀ name k set, VarFlag name k set ∈ flags → (name, k) ∈ kinds ∧ ∀ v s, cs_lib (set v s) = cs_lib s;
  fl_all : ∀ name k, (name, k) ∈ kinds → ∃ set, VarFlag name k set ∈ flags;
  fl_nodup : NoDup kinds.*1;
  fl_libs : libs_of flags = lib_flags;
  fl_fresh : Forall (λ lf, lf_name lf ∉ kinds.*1) lib_flags;
}.
End lib.

Lemma find_named {A} (name : A → string) (l : list A) n :
  match List.find (λ x, bool_decide (name x = n)) l with
  | Some x => x ∈ l ∧ name x = n
  | None => ∀ x, x ∈ l → name x ≠ n
  end.
Proof.
  destruct (List.find _ l) as [x|] eqn:E.
  - apply List.find_some in E as [Hin ?%bool_decide_eq_true]. split; [by apply list_elem_of_In|done].
  - intros x Hin. apply list_elem_of_In in Hin. pose proof (List.find_none _ _ E x Hin) as Hn. by apply bool_decide_eq_false in Hn.
Qed.

Section parse.
Context `{FlagLibrary} {O : Type} (p : readers) (flags : list (flag O)) (kinds : list (string * flag_kind)).

Lemma find_lib n :
  (∀ name k set, VarFlag name k set ∈ flags → name ≠ n) →
  List.find (λ f, bool_decide (f_name f = n)) flags =
  LibFlag <$> List.find (λ lf, bool_decide (lf_name lf = n)) (libs_of flags).
Proof using Type.
  induction flags as [|[name k set|lf] l IH]; intros Hv; [done|..]; cbn.
  - rewrite bool_decide_false by (apply (Hv name k set), list_elem_of_here). apply IH. intros ???? . eapply Hv. by right.
  - case_bool_decide; [done|]. apply IH. intros ????. eapply Hv. by right.
Qed.

Context (laws : flags_lawful flags kinds).

Lemma kinds_inj n k k' : (n, k) ∈ kinds → (n, k') ∈ kinds → k = k'.
Proof using laws.
  intros [i Hi]%list_elem_of_lookup [j Hj]%list_elem_of_lookup. assert (i = j) as <-; [|congruence].
  eapply (NoDup_lookup kinds.*1); [apply laws|rewrite list_lookup_fmap, Hi; done|]. by rewrite list_lookup_fmap, Hj.
Qed.

(** One flag. *)
Lemma set_flag_exact g s :
  match set_flag p flags g s with
  | Ok s' => known p kinds g ∧ lib_step g (cs_lib s) = Some (cs_lib s')
  | Err _ => ¬ known p kinds g ∨ lib_step g (cs_lib s) = None
  end.
Proof using laws.
  unfold set_flag, lib_step. pose proof (find_named lf_name lib_flags g.1) as Hl. pose proof (fl_fresh _ _ laws) as Hfr.
  rewrite Forall_forall in Hfr. destruct (List.find _ lib_flags) as [lf|] eqn:El.
  - destruct Hl as [Hin En]. rewrite find_lib, (fl_libs _ _ laws), El; cbn [fmap option_fmap option_map].
    2: { intros name k set Hv ->. apply (fl_vars _ _ laws) in Hv as [Hv _]. apply (Hfr lf Hin). rewrite En.
         apply (list_elem_of_fmap_2 fst _ _ Hv). }
    unfold Set_text. destruct (lf_Set lf g.2 (cs_lib s)) as [l|]; cbn; [|by right]. split; [|done].
    left. rewrite <- En. by apply list_elem_of_fmap_2.
  - pose proof (find_named f_name flags g.1) as Hf. destruct (List.find _ flags) as [[name k set|lf]|].
    + destruct Hf as [Hin En]. cbn in En. subst name. destruct (fl_vars _ _ laws _ _ _ Hin) as [Hk Hlib]. unfold Set_text.
      destruct (read_value p k g.2) as [v|] eqn:Er; cbn [fmap option_fmap option_map].
      * split; [|by rewrite Hlib]. right. exists k. by rewrite Er.
      * left. intros [Hlf|(k' & Hk' & Hs)]; [apply list_elem_of_fmap in Hlf as (lf & E & Hlf); by apply (Hl lf)|].
        rewrite (kinds_inj _ _ _ Hk' Hk), Er in Hs. by destruct Hs.
    + exfalso. destruct Hf as [Hin En]. apply (Hl lf); [|done]. rewrite <- (fl_libs _ _ laws). apply list_elem_of_omap. by exists (LibFlag lf).
    + left. intros [Hlf|(k & Hk & _)]; [apply list_elem_of_fmap in Hlf as (lf & E & Hlf); by apply (Hl lf)|].
      destruct (fl_all _ _ laws _ _ Hk) as [set Hset]. by apply (Hf _ Hset).
Qed.

(** The command line is read exactly when it is acceptable. *)
Lemma parse_flags_exact given s :
  match parse_flags p flags given s with
  | Ok s' => Forall (known p kinds) given ∧ lib_apply given (cs_lib s) = Some (cs_lib s')
  | Err _ => ¬ (Forall (known p kinds) given ∧ is_Some (lib_apply given (cs_lib s)))
  end.
Proof using laws.
  revert s. induction given as [|g given IH]; intros s; cbn [parse_flags lib_apply]; [by split; [constructor|]|].
  pose proof (set_flag_exact g s) as Hg. destruct (set_flag p flags g s) as [s1|err]; cbn [rbind].
  - destruct Hg as [Hk ->]. cbn [mbind option_bind]. specialize (IH s1). destruct (parse_flags p flags given s1).
    + destruct IH. split; [by constructor|done].
    + intros [HF Hs]. apply IH. apply Forall_cons in HF as [_ HF]. done.
  - intros [HF Hs]. apply Forall_cons in HF as [HF _]. destruct Hg as [Hg|Hg]; [done|]. rewrite Hg in Hs. by destruct Hs.
Qed.
End parse.

(** ** The value of a field *)

Section field.
Context `{FlagLibrary} {O A : Type} (p : readers) (get : cmd_state O → A) (name : string) (read : string → option A).

(** The flag sets the field [get], if it is named [name], and leaves it otherwise. *)
Definition bound (f : flag O) : Prop :=
  ∀ text s s', Set_text p f text s = Some s' → if bool_decide (f_name f = name) then read text = Some (get s') else get s' = get s.

Lemma parse_flags_app flags given given' (s : cmd_state O) :
  parse_flags p flags (given ++ given') s = (let! s := parse_flags p flags given s in parse_flags p flags given' s)%ipam.
Proof using Type.
  revert s. induction given as [|g given IH]; intros s; simpl; [done|]. destruct (set_flag p flags g s) as [s'|]; simpl; [apply IH|done].
Qed.

Lemma parse_flags_field flags given s0 s :
  Forall bound flags → parse_flags p flags given s0 = Ok s → given_or read name given (get s0) (get s).
Proof using Type.
  intros Hb. revert s. induction given as [|g given IH] using rev_ind; intros s; [by intros [= <-]|]. rewrite parse_flags_app.
  destruct (parse_flags p flags given s0) as [s1|]; cbn [rbind parse_flags]; [|done]. specialize (IH s1 eq_refl).
  unfold set_flag. pose proof (find_named f_name flags g.1) as Hf. destruct (List.find _ flags) as [f|]; [|done].
  destruct (Set_text p f g.2 s1) as [s2|] eqn:Es; [|done]. cbn [rbind]. intros [= <-]. destruct Hf as [Hin En].
  rewrite Forall_forall in Hb. specialize (Hb f Hin _ _ _ Es). rewrite En in Hb.
  unfold given_or, last_given in *. rewrite foldl_app. cbn [foldl].
  destruct (bool_decide_reflect (g.1 = name)); [done|]. by rewrite Hb.
Qed.

Lemma bound_libs (libs : list (lib_flag Lib)) :
  Forall (λ lf, lf_name lf ≠ name) libs →
  (∀ l s, get (mkCmdState l (cs_help s) (cs_version s) (cs_opts s)) = get s) → Forall bound (map LibFlag libs).
Proof using Type.
  intros Hn Hg. apply Forall_map. eapply Forall_impl; [exact Hn|]. intros lf Hlf text s s' E. cbn in *.
  rewrite bool_decide_false by done. apply fmap_Some in E as (l & _ & ->). apply Hg.
Qed.

Lemma bound_other name' k set :
  name' ≠ name → (∀ v s, get (set v s) = get s) → bound (VarFlag name' k set).
Proof using Type.
  intros Hn Hg text s s' E. cbn in *. rewrite bool_decide_false by done. apply fmap_Some in E as (v & _ & ->). apply Hg.
Qed.
End field.

Lemma bound_same `{FlagLibrary} {O} (p : readers) name k (get : cmd_state O → flag_value k) set :
  (∀ v s, get (set v s) = v) → bound p get name (read_value p k) (VarFlag name k set).
Proof.
  intros Hg text s s' E. cbn in *. rewrite bool_decide_true by done. apply fmap_Some in E as (v & -> & ->). by rewrite Hg.
Qed.

(** A fact of every flag of a table: of those of the libraries, and of each of the program. *)
Ltac each_flag libs :=
  unfold AddNamedFlagSets, controller_AddNamedFlagSets, cmdoptions_AddNamedFlagSets, daemonFS, cniFS, controllerFS; cbn [app];
  repeat first [apply Forall_nil_2 | apply Forall_cons_2 | apply Forall_app_2; [solve [libs] | ] | apply Forall_app_2].

Section tables.
Context `{FlagLibrary}.

(** The flags of the table are those of [kinds], which do not touch the libraries, and those of the libraries. *)
Definition table_flag {O} (kinds : list (string * flag_kind)) (f : flag O) : Prop :=
  match f with
  | VarFlag name k set => (name, k) ∈ kinds ∧ ∀ v s, cs_lib (set v s) = cs_lib s
  | LibFlag _ => True
  end.

Lemma table_libs {O} kinds (libs : list (lib_flag Lib)) : Forall (table_flag (O := O) kinds) (map LibFlag libs).
Proof. apply Forall_map, Forall_true. done. Qed.

Lemma libs_of_app {O} (l k : list (flag O)) : libs_of (l ++ k) = libs_of l ++ libs_of k.
Proof. apply omap_app. Qed.

Lemma libs_of_map {O} (libs : list (lib_flag Lib)) : libs_of (O := O) (map LibFlag libs) = libs.
Proof. induction libs as [|lf libs IH]; [done|]. cbn. f_equal. exact IH. Qed.

Lemma libs_of_command {O} (own : list (flag O)) :
  libs_of own = [] → libs_of (help_flag :: cmdoptions_AddNamedFlagSets ++ map LibFlag ControllerRuntimeFlags ++ own) = lib_flags.
Proof.
  intros Ho. change (libs_of (cmdoptions_AddNamedFlagSets ++ map LibFlag ControllerRuntimeFlags ++ own) = lib_flags).
  unfold cmdoptions_AddNamedFlagSets. rewrite !libs_of_app, !libs_of_map, Ho. cbn. by rewrite !app_nil_r, <- app_assoc.
Qed.

Lemma fresh_in (kinds : list (string * flag_kind)) :
  kinds ⊆ common_kinds ++ node_kinds ++ controller_kinds → Forall (λ lf, lf_name lf ∉ kinds.*1) lib_flags.
Proof.
  intros Hk. eapply Forall_impl; [exact lib_fresh|]. intros lf Hf Hin. apply Hf.
  apply list_elem_of_fmap in Hin as (x & -> & Hx). by apply list_elem_of_fmap_2, Hk.
Qed.

Lemma table_lawful {O} (flags : list (flag O)) kinds :
  Forall (table_flag kinds) flags → (∀ name k, (name, k) ∈ kinds → ∃ set, VarFlag name k set ∈ flags) → NoDup kinds.*1 →
  libs_of flags = lib_flags → kinds ⊆ common_kinds ++ node_kinds ++ controller_kinds → flags_lawful flags kinds.
Proof.
  intros Ht Ha Hn Hl Hs. split; try done; [|by apply fresh_in]. intros name k set Hin. rewrite Forall_forall in Ht. exact (Ht _ Hin).
Qed.
End tables.

Ltac in_table :=
  first [apply list_elem_of_here | apply list_elem_of_further; in_table |
         apply elem_of_app; first [left; in_table | right; in_table]].
Ltac all_in_table :=
  unfold AddNamedFlagSets, controller_AddNamedFlagSets, cmdoptions_AddNamedFlagSets, daemonFS, cniFS, controllerFS;
  cbn [app node_kinds controller_kinds common_kinds];
  repeat first [apply Forall_nil_2 | apply Forall_cons_2]; eexists; in_table.
Ltac table_lawful_tac :=
  apply table_lawful;
  [ each_flag ltac:(apply table_libs); (exact I || (split; [in_table|done]))
  | intros name k Hin; revert name k Hin;
    match goal with |- ∀ name k, (name, k) ∈ ?l → ∃ set, VarFlag name k set ∈ ?fl =>
      cut (Forall (λ nk : string * flag_kind, ∃ set, VarFlag nk.1 nk.2 set ∈ fl) l);
      [intros HF name k Hin; rewrite Forall_forall in HF; exact (HF _ Hin) | all_in_table] end
  | apply (bool_decide_unpack _); vm_compute; exact I
  | apply libs_of_command; reflexivity
  | set_solver ].

Section laws.
Context `{FlagLibrary}.

Lemma node_flags_lawful : flags_lawful (help_flag :: AddNamedFlagSets) (common_kinds ++ node_kinds).
Proof. table_lawful_tac. Qed.

Lemma controller_flags_lawful : flags_lawful (help_flag :: controller_AddNamedFlagSets) (common_kinds ++ controller_kinds).
Proof. table_lawful_tac. Qed.

Lemma libs_bound {O A} (p : readers) (get : cmd_state O → A) name read (libs : list (lib_flag Lib)) :
  libs ⊆ lib_flags → name ∈ (common_kinds ++ node_kinds ++ controller_kinds).*1 →
  (∀ l s, get (mkCmdState l (cs_help s) (cs_version s) (cs_opts s)) = get s) → Forall (bound p get name read) (map LibFlag libs).
Proof.
  intros Hl Hn Hg. apply bound_libs; [|done]. apply Forall_forall. intros lf Hin E.
  pose proof lib_fresh as Hf. rewrite Forall_forall in Hf. apply (Hf lf (Hl _ Hin)). by rewrite E.
Qed.
End laws.

(** What the command line of the daemon says, field by field. *)
Definition node_options_of (p : readers) (given : list (string * string)) (o : Options) : Prop :=
  given_or Some "metrics-bind-address" given ":8080" (MetricsAddr o) ∧
  given_or Some "health-probe-bind-address" given ":8081" (ProbeAddr o) ∧
  given_or Some "node-name" given "" (o_NodeName o) ∧
  given_or Some "ippools-namespace" given "kube-system" (PoolsNamespace o) ∧
  given_or Some "bind-address" given "unix:///var/lib/cni/nv-ipam/daemon.sock" (BindAddress o) ∧
  given_or Some "store-file" given "/var/lib/cni/nv-ipam/store" (StoreFile o) ∧
  given_or Some "cni-bin-dir" given "/opt/cni/bin" (CNIBinDir o) ∧
  given_or Some "cni-nv-ipam-bin-file" given "/nv-ipam" (CNIBinFile o) ∧
  given_or (ParseBool p) "cni-skip-nv-ipam-binary-copy" given false (CNISkipBinFileCopy o) ∧
  given_or (ParseBool p) "cni-skip-nv-ipam-config-creation" given false (CNISkipConfigCreation o) ∧
  given_or Some "cni-conf-dir" given "/etc/cni/net.d/nv-ipam.d" (CNIConfDir o) ∧
  given_or Some "cni-daemon-socket" given "unix:///var/lib/cni/nv-ipam/daemon.sock" (CNIDaemonSocket o) ∧
  given_or (ParseInt p) "cni-daemon-call-timeout" given 5 (CNIDaemonCallTimeoutSeconds o) ∧
  given_or Some "cni-log-file" given "/var/log/nv-ipam-cni.log" (CNILogFile o) ∧
  given_or Some "cni-log-level" given "info" (CNILogLevel o) ∧
  given_or (ParseBool p) "cni-force-pool-name" given false (CNIForcePoolName o) ∧
  given_or (ParseDuration p) "stale-ip-check-interval" given (60 * 10 ^ 9) (StaleIPCheckInterval o) ∧
  given_or (ParseInt p) "stale-ip-check-count-before-release" given 3 (StaleIPCheckCountBeforeRelease o) ∧
  given_or (ParseDuration p) "released-ip-cooldown" given 0 (ReleasedIPCooldown o).

Definition controller_options_of (p : readers) (given : list (string * string)) (o : ControllerOptions) : Prop :=
  given_or Some "metrics-bind-address" given ":8080" (co_MetricsAddr o) ∧
  given_or Some "health-probe-bind-address" given ":8081" (co_ProbeAddr o) ∧
  given_or (ParseBool p) "leader-elect" given false (EnableLeaderElection o) ∧
  given_or (ParseBool p) "webhook" given false (EnableWebHook o) ∧
  given_or Some "leader-elect-namespace" given "kube-system" (LeaderElectionNamespace o) ∧
  given_or Some "ippools-namespace" given "kube-system" (IPPoolsNamespace o).

Lemma given_or_unique {A} (read : string → option A) name given (d v v' : A) :
  given_or read name given d v → given_or read name given d v' → v = v'.
Proof. unfold given_or. destruct (last_given name given); congruence. Qed.

Lemma node_options_unique p given o o' : node_options_of p given o → node_options_of p given o' → o = o'.
Proof. unfold node_options_of. intros Ho Ho'. destruct_and!. destruct o, o'. simpl in *. f_equal; by eapply given_or_unique. Qed.

(** A boolean flag that is on. *)
Definition flag_on (p : readers) (name : string) (given : list (string * string)) : Prop :=
  ∃ text, last_given name given = Some text ∧ ParseBool p text = Some true.

(** The field of the goal is bound to its flag. *)
Ltac field_bound :=
  each_flag ltac:(apply libs_bound; [set_solver|apply (bool_decide_unpack _); vm_compute; exact I|done]);
  first [apply bound_other; [discriminate|intros ? [? ? ? []]; reflexivity] |
         apply (bound_same _ _ KString); intros ? [? ? ? []]; reflexivity |
         apply (bound_same _ _ KBool); intros ? [? ? ? []]; reflexivity |
         apply (bound_same _ _ KInt); intros ? [? ? ? []]; reflexivity |
         apply (bound_same _ _ KDuration); intros ? [? ? ? []]; reflexivity].
Ltac field_given E :=
  lazymatch goal with
  | |- given_or ?r ?n ?g _ (?proj (cs_opts ?s)) =>
      refine (parse_flags_field _ (λ s, proj (cs_opts s)) n r _ g _ s _ E); field_bound
  | |- given_or ?r ?n ?g _ (?proj ?s) => refine (parse_flags_field _ proj n r _ g _ s _ E); field_bound
  end.

Section parsed.
Context `{FlagLibrary}.

Lemma node_parsed p given s :
  parse_flags p (help_flag :: AddNamedFlagSets) given (mkCmdState lib_New false false New) = Ok s →
  node_options_of p given (cs_opts s) ∧
  given_or (ParseBool p) "help" given false (cs_help s) ∧ given_or (ParseBool p) "version" given false (cs_version s).
Proof. intros E. unfold node_options_of. split_and!; field_given E. Qed.

Lemma controller_parsed p given s :
  parse_flags p (help_flag :: controller_AddNamedFlagSets) given (mkCmdState lib_New false false controller_New) = Ok s →
  controller_options_of p given (cs_opts s) ∧
  given_or (ParseBool p) "help" given false (cs_help s) ∧ given_or (ParseBool p) "version" given false (cs_version s).
Proof. intros E. unfold controller_options_of. split_and!; field_given E. Qed.
End parsed.

Lemma flag_on_given p name given b : given_or (ParseBool p) name given false b → b = true ↔ flag_on p name given.
Proof.
  unfold given_or, flag_on. destruct (last_given name given) as [text|]; [|intros ->; naive_solver]. intros Hb.
  split; [intros ->; by exists text|]. intros (? & [= <-] & E). congruence.
Qed.

Lemma check_args_exact args : check_args args = Ok tt ↔ ∀ a, a ∈ args → a = "".
Proof.
  unfold check_args. destruct (existsb _ args) eqn:E.
  - split; [done|]. intros Ha. apply existsb_exists in E as (a & Hin%list_elem_of_In & Hn). rewrite (Ha a Hin) in Hn. done.
  - split; [|done]. intros _ a Hin%list_elem_of_In. destruct (decide (a = "")) as [|N]; [done|].
    rewrite <- not_true_iff_false, existsb_exists in E. destruct E. exists a. by rewrite bool_decide_false.
Qed.

(** The calls of the controller: the manager starts only after everything is registered, with
    the webhooks exactly when they are enabled; a webhook that fails ends the process. *)
Theorem controller_starts_complete `{FlagLibrary} fails p config args given :
  let '(made, r) := controller_command fails p config args given in
  StartManager ∈ made →
  ∃ opts, controller_options_of p given opts ∧ made = (controller_calls opts).*1 ∧
    (∀ c, c ∈ made → c ≠ StartManager → fails c = None) ∧
    (SetupIPPoolWebhook ∈ made ↔ EnableWebHook opts = true) ∧ (SetupCIDRPoolWebhook ∈ made ↔ EnableWebHook opts = true).
Proof.
  unfold controller_command. pose proof (controller_parsed p given) as Hp.
  destruct (parse_flags _ _ _ _) as [s|err]; [|by intros ?%not_elem_of_nil]. destruct (Hp s eq_refl) as [Ho _].
  destruct (_ || _); [by intros ?%not_elem_of_nil|]. destruct (check_args args); [|by intros ?%not_elem_of_nil].
  unfold controller_RunE. destruct (ValidateAndApply _); [by intros ?%not_elem_of_nil|]. destruct config; [by intros ?%not_elem_of_nil|].
  set (opts := cs_opts s) in *.
  destruct (RunController fails opts) as [made r] eqn:E. intros Hs. exists opts. split; [exact Ho|].
  unfold RunController, controller_calls in *. destruct (EnableWebHook opts); simpl in *;
    repeat case_match; simplify_eq; repeat (apply elem_of_cons in Hs as [?|Hs]; [done|]); try by apply not_elem_of_nil in Hs.
  all: split; [done|]; split; [set_solver|]; set_solver.
Qed.

Section properties.
Context `{RootCodec} `{ConfWriter} `{StoreLock} `{FlagLibrary} (url_Parse : string → result string URL).

(** The command line is read, or refused, and says what the tables say. *)
Lemma node_flags_read p given :
  match parse_flags p (help_flag :: AddNamedFlagSets) given (mkCmdState lib_New false false New) with
  | Ok s => accepted p (common_kinds ++ node_kinds) given ∧ lib_apply given lib_New = Some (cs_lib s) ∧
      node_options_of p given (cs_opts s) ∧
      (cs_help s || cs_version s = true ↔ flag_on p "help" given ∨ flag_on p "version" given)
  | Err _ => ¬ accepted p (common_kinds ++ node_kinds) given
  end.
Proof using Type.
  pose proof (parse_flags_exact p _ _ node_flags_lawful given (mkCmdState lib_New false false New)) as Hp.
  pose proof (node_parsed p given) as Hn. destruct (parse_flags _ _ _ _) as [s|err]; [|done].
  destruct Hp as [Hk Hl], (Hn s eq_refl) as (Ho & Hh & Hv). split; [|split; [done|split; [done|]]].
  - split; [done|]. cbn in Hl. by rewrite Hl.
  - rewrite orb_true_iff. by rewrite (flag_on_given _ _ _ _ Hh), (flag_on_given _ _ _ _ Hv).
Qed.

(** C36: What the command line of the daemon means.  A daemon that runs was given only flags
    of the program, with texts of their types, and flags of the libraries, which took their
    texts, neither [--help] nor [--version], and no arguments.  Each of its options is the
    last value given for its flag, or else its default, which determines the options; they
    are valid for the files there are, the settings of the libraries are valid too, and no
    file was touched before [RunNodeDaemon] was called with the options.  The command prints
    its help or version exactly when a readable command line asks for it.  With a command
    line that cannot be read, or with an argument or options that are not valid, it ends
    with an error.  In these cases no file is changed. *)
Theorem node_command_line p config su args given e f :
  let '(w, r) := node_command url_Parse p config su args given e (start f) in
  let readable := accepted p (common_kinds ++ node_kinds) given in
  let asks_print := flag_on p "help" given ∨ flag_on p "version" given in
  (∀ proc, r = Ok (Ran proc) →
     readable ∧ ¬ asks_print ∧ (∀ a, a ∈ args → a = "") ∧
     ∃ opts lib w1, node_options_of p given opts ∧ (∀ opts', node_options_of p given opts' → opts' = opts) ∧
       lib_apply given lib_New = Some lib ∧ ValidateAndApply lib = None ∧
       options_ok url_Parse opts f ∧ w_fs w1 = f ∧ RunNodeDaemon_start url_Parse su opts e w1 = (w, Ok proc)) ∧
  (r = Ok Printed ↔ readable ∧ asks_print) ∧ (r = Ok Printed → w_fs w = f) ∧
  (¬ readable ∨ ¬ asks_print ∧ ((∃ a, a ∈ args ∧ a ≠ "") ∨ (∃ opts, node_options_of p given opts ∧ ¬ options_ok url_Parse opts f)) →
     (∃ err, r = Err err) ∧ w_fs w = f).
Proof.
  unfold node_command. pose proof (node_flags_read p given) as Hp.
  destruct (parse_flags _ _ _ _) as [s|err]; [|by split_and!; [done|split; [done|intros [? _]; done]|done|intros _; split; [eexists|]]].
  destruct Hp as (Hacc & Hlib & Hopt & Hpr). destruct (cs_help s || cs_version s).
  { assert (flag_on p "help" given ∨ flag_on p "version" given) by (by apply Hpr). split_and!; try done. by intros [?|[? _]]. }
  assert (¬ (flag_on p "help" given ∨ flag_on p "version" given)) as Hnp by (intros ?%Hpr; done).
  pose proof (check_args_exact args) as Ha. destruct (check_args args) as [[]|err].
  2: { split_and!; [done|split; [done|by intros [_ ?]]|done|]. intros _. split; [by eexists|done]. }
  unfold node_RunE. pose proof (options_validation_exact url_Parse (ValidateAndApply (cs_lib s)) (cs_opts s) e (start f)) as Hv.
  destruct (Options_Validate _ _ _ _ _) as [w1 [[]|err]]; destruct Hv as (Hf & Hok & _).
  2: { split_and!; [done|split; [done|by intros [_ ?]]|done|]. intros _. split; [by eexists|done]. }
  destruct (Hok eq_refl) as [Ho HV]. simpl in Hf, Ho.
  assert (¬ (¬ accepted p (common_kinds ++ node_kinds) given ∨
    ¬ (flag_on p "help" given ∨ flag_on p "version" given) ∧ ((∃ a, a ∈ args ∧ a ≠ "") ∨
    (∃ opts, node_options_of p given opts ∧ ¬ options_ok url_Parse opts f)))) as Hno.
  { intros [Hn|[_ [(a & Hin & Hn)|(opts' & Hs & Hn)]]]; [done|by apply Hn, Ha|]. by rewrite (node_options_unique p given opts' (cs_opts s)) in Hn. }
  destruct config; [by split_and!; [done|split; [done|by intros [_ ?]]|done|intros ?%Hno]|].
  destruct (RunNodeDaemon_start url_Parse su (cs_opts s) e w1) as [w [proc|err]] eqn:Er; cbn [rbind];
    (split_and!; [|split; [done|by intros [_ ?]]|done|by intros ?%Hno]); [|done].
  intros ? [= <-]. split_and!; try done; [by apply Ha|]. exists (cs_opts s), (cs_lib s), w1. split_and!; try done.
  intros opts' Hs. by apply (node_options_unique p given).
Qed.
End properties.

(** *** Witness *)

Definition example_readers : readers :=
  mkReaders (λ s, Some (bool_decide (s = "true"))) (λ s, if bool_decide (s = "5") then Some 5 else None) (λ _, None).

(** Libraries that keep the texts they are given. *)
Definition text_flag (name : string) : lib_flag (list (string * string)) := mkLibFlag name (λ text l, Some ((name, text) :: l)).
#[export] Instance text_library : FlagLibrary.
Proof.
  refine (Build_FlagLibrary (list (string * string)) [] [text_flag "v"; text_flag "vmodule"; text_flag "logging-format"]
    [text_flag "feature-gates"] [text_flag "kubeconfig"] (λ _, None) _).
  apply (bool_decide_unpack _). vm_compute. exact I.
Defined.

(** The arguments of [deploy/manifests/node/daemonset.yaml], on the node [host-b] in the
    namespace [kube-system]. *)
Definition manifest_args : list (string * string) :=
  [("node-name", "host-b"); ("v", "1"); ("logging-format", "json");
   ("bind-address", "unix:///var/lib/cni/nv-ipam/daemon.sock"); ("store-file", "/var/lib/cni/nv-ipam/store");
   ("cni-daemon-socket", "unix:///var/lib/cni/nv-ipam/daemon.sock"); ("cni-daemon-call-timeout", "5");
   ("cni-bin-dir", "/opt/cni/bin"); ("cni-conf-dir", "/etc/cni/net.d/nv-ipam.d");
   ("cni-log-file", "/var/log/nv-ipam-cni.log"); ("cni-log-level", "info"); ("ippools-namespace", "kube-system")].
Definition example_command (given : list (string * string)) : world * result string (outcome process) :=
  node_command (H := bits_codec) (H1 := free_lock) unix_url example_readers None no_errors [] given no_fail (start (node_files [])).

Lemma node_command_line_witness :
  (∃ proc opts, (example_command manifest_args).2 = Ok (Ran proc) ∧ options_ok unix_url opts (node_files []) ∧
    o_NodeName opts = "host-b" ∧ CNIDaemonCallTimeoutSeconds opts = 5 ∧ StaleIPCheckCountBeforeRelease opts = 3) ∧
  (example_command (manifest_args ++ [("version", "true")])).2 = Ok Printed.
Proof.
  split.
  - pose proof (node_command_line (H := bits_codec) (H1 := free_lock) unix_url example_readers None no_errors [] manifest_args no_fail
      (node_files [])) as Hc.
    assert (match (example_command manifest_args).2 with Ok (Ran _) => true | _ => false end = true) as Hok by (vm_compute; reflexivity).
    unfold example_command in *. destruct (node_command _ _ _ _ _ _ _ _) as [w [[proc|]|err]]; [|discriminate Hok..].
    destruct Hc as [Hc _]. destruct (Hc proc eq_refl) as (_ & _ & _ & opts & lib & w1 & Hs & _ & _ & _ & Ho & _). exists proc, opts.
    split; [reflexivity|]. split; [exact Ho|]. unfold node_options_of, given_or in Hs.
    destruct Hs as (_ & _ & E1 & _ & _ & _ & _ & _ & _ & _ & _ & _ & E2 & _ & _ & _ & _ & E3 & _).
    injection E1 as E1. injection E2 as E2. split; [exact (eq_sym E1)|]. split; [exact (eq_sym E2)|exact E3].
  - vm_compute. reflexivity.
Defined.
