(* ===== verification/Middleware.v ===== *)
(** * The interceptors of the server: [pkg/ipam-node/grpc/middleware/middleware.go]

    Every call of the service goes through two interceptors: one puts a logger with the
    method and a new id into the context, the other one logs the request and its outcome.
    A handler is a function on its context, its request and a state that has the log; it
    may panic: [None].  The current time is read from the state. *)

From S2P Require Import Prelude.

(** The values of a logger, the latest first, and the lines it writes. *)
Abbreviation Logger := (list (string * string)) (only parsing).

Inductive log_line :=
| LogInfo (l : Logger) (msg : string)
| LogError (l : Logger) (err msg : string).

Record Context_ := mkContext { ctx_logger : Logger; ctx_canceled : bool }.

Section middleware.
Context {St Req Resp : Type}.

(** The state of the program, the time in seconds as text, the lines written so far. *)
Record served := mkServed { sv_state : St; sv_clock : nat; sv_log : list log_line }.

Definition UnaryHandler : Type := Context_ → Req → served → option (served * (Resp * option string)).

Definition log_to (line : log_line) (s : served) : served := mkServed (sv_state s) (sv_clock s) (sv_log s ++ [line]).

(** [uuid.New] and the full name of the method are arguments. *)
Definition SetLoggerMiddleware (fullMethod reqID : string) (handler : UnaryHandler) : UnaryHandler := λ ctx req s,
  handler (mkContext [("reqID", reqID); ("method", fullMethod)] (ctx_canceled ctx)) req s.

Definition LogCallMiddleware (seconds : nat → nat → string) (handler : UnaryHandler) : UnaryHandler := λ ctx req s,
  let reqLogger := ctx_logger ctx in
  let startTime := sv_clock s in
  '(s, (resp, err)) ← handler ctx req (log_to (LogInfo reqLogger "REQUEST") s);
  let reqLogger := ("call_duration_sec", seconds startTime (sv_clock s)) :: reqLogger in
  match err with
  | Some err => Some (log_to (LogError reqLogger err "ERROR RESPONSE") s, (resp, Some err))
  | None => Some (log_to (LogInfo reqLogger "RESPONSE") s, (resp, None))
  end.

(** [grpc.ChainUnaryInterceptor]: the first interceptor is the outermost. *)
Definition intercepted (fullMethod reqID : string) (seconds : nat → nat → string) (handler : UnaryHandler) : UnaryHandler :=
  SetLoggerMiddleware fullMethod reqID (LogCallMiddleware seconds handler).

(** A handler that does not read the log. *)
Definition log_blind (handler : UnaryHandler) : Prop := ∀ ctx req s log,
  handler ctx req (mkServed (sv_state s) (sv_clock s) (log ++ sv_log s)) =
    (λ r, (mkServed (sv_state r.1) (sv_clock r.1) (log ++ sv_log r.1), r.2)) <$> handler ctx req s.

(** The interceptors change neither the answer nor the state nor whether a call panics.  A
    call that returns has written a line before and one after the lines of the handler, both
    with the method and the id of the call; the last one is an error exactly if there is
    one. *)
Theorem interceptors_transparent fullMethod reqID seconds handler canceled req st clock logger :
  log_blind handler →
  let ctx := mkContext [("reqID", reqID); ("method", fullMethod)] canceled in
  match handler ctx req (mkServed st clock []),
        intercepted fullMethod reqID seconds handler (mkContext logger canceled) req (mkServed st clock []) with
  | None, r => r = None
  | Some (s, (resp, err)), Some (s', answer) =>
      answer = (resp, err) ∧ sv_state s' = sv_state s ∧
      ∃ last, sv_log s' = LogInfo (ctx_logger ctx) "REQUEST" :: sv_log s ++ [last] ∧
        let values := ("call_duration_sec", seconds clock (sv_clock s)) :: ctx_logger ctx in
        last = match err with Some e => LogError values e "ERROR RESPONSE" | None => LogInfo values "RESPONSE" end
  | Some _, None => False
  end.
Proof.
  intros Hb ctx. unfold intercepted, SetLoggerMiddleware, LogCallMiddleware, log_to. simpl.
  pose proof (Hb ctx req (mkServed st clock []) [LogInfo (ctx_logger ctx) "REQUEST"]) as E. simpl in E.
  subst ctx. simpl in E |- *. rewrite E.
  destruct (handler _ req (mkServed st clock [])) as [[s [resp err]]|]; [|done]. simpl.
  by destruct err; simpl; (split_and!; [done..|]; eexists; split).
Qed.
End middleware.
